(* ===== verification/_CoqProject ===== *)
-Q . S2P
Prelude.v
GoStrings.v
GoHttp.v
Env.v
Headers.v
Freshness.v
CacheKey.v
Storage.v
TestStore.v
Glob.v
Redis.v
RedisStore.v
RedisFacts.v
RedisLaws.v
Purge.v
RedisDemo.v
RedisRace.v
RedisRaceLaws.v
Ssrf.v
Scanner.v
Esi.v
Workers.v
Budget.v
Flight.v
FlightFetch.v
Compress.v
Config.v
Handler.v
HandlerLogic.v
HandlerQuiet.v
HandlerProps.v
HandlerRun.v
Codecs.v
HandlerSafety.v
Served.v
Coalesce.v
CoalesceRun.v
Shutdown.v
Metrics.v
MetricsProps.v
EsiMetrics.v
Scenarios.v
Deployment.v
Recorder.v
Buffers.v
ServerTiming.v
CaddyConfig.v
Caddyfile.v
CaddyfileFacts.v
CaddyfileTypes.v
CaddyProvision.v
CaddyProps.v
CaddyServe.v
CaddyServeProps.v
