(* ===== verification/Prelude.v ===== *)
(** * Titip: a verification development

    Titip is an HTTP cache middleware in Go.  A request enters
    [Titip.ServeHTTP] ([src/handler.go]), a state machine that bypasses, looks
    up, revalidates, fetches and serves.  It computes cache keys
    ([src/cache_key.go]) and freshness ([src/freshness.go]), keeps responses in a
    storage ([src/storage/storage.go]; on Redis: [src/storage/redis]; in memory:
    [src/internal/teststore]), compressed ([src/compress.go]), purges them by URL,
    prefix and tag ([src/purge.go], [src/titip.go]), and assembles pages from ESI
    fragments ([src/esi]), which it fetches behind an SSRF guard.  The Caddy adapter
    ([src/adapter/caddy]) reads directives, provisions one instance per site and
    offers purges in Caddy's admin API.

    ** Files

    - [Prelude]: byte strings, boolean tests, [int64] wrap-around, tactics and
      hints.  [GoStrings]: the functions of [strings], [strconv], [path] and
      [net/url] that the code uses.  [GoHttp]: time, [http.Header], requests,
      cookies, response writers; the class [GoEnv] holds what is a parameter (dates, the
      URL grammar, Unicode case tables, map iteration order).  [Env]: an executable [GoEnv]
      for the witnesses.
    - [Headers]: [src/header.go].
    - [Freshness]: [src/freshness.go]; the [cacheobject] parser is the class
      [CacheObject].
    - [CacheKey]: [src/cache_key.go], [generatePrimaryKey] and [generateVariantKey].
    - [Storage]: the stored messages and the storage interface as a class, with
      the laws a client may use ([StorageLaws], [StorageInv]).  The pipeline is proved
      against these laws; [TestStore] and [RedisLaws] discharge them.
    - [TestStore], [Glob]: the in-memory store, its glob matcher, the abstract cache
      it implements, and the instances of the two law classes.
    - [Redis]: the commands that [src/storage/redis/redis.go] sends, the class
      [RedisServer] of servers with their documented behaviour ([RedisDoc]: data with
      lifetimes, cursors that return what stays during an iteration, eviction), and
      Protocol Buffers as a codec ([Proto]).  [RedisStore]: the functions of
      [src/storage/redis/redis.go] under their names, with [redis_] before those of the interface.
      [RedisFacts]: pipelines and scans; [RedisLaws]: the storage laws and the theorems;
      [RedisDemo]: a server in memory, witnesses and defects.  [RedisRace]: the same functions as
      programs that send commands, a step relation that interleaves the commands of any number of calls;
      [RedisRaceLaws]: what holds in every interleaving, also where commands fail.
    - [Deployment]: the pipeline on the Redis store.
    - [Purge]: [src/purge.go].
    - [Ssrf]: [src/esi/ssrf.go], with [net/netip] addresses written out.
    - [Scanner], [Esi]: [src/esi/scanner.go] and [src/esi/processor.go].  [Flight]: the
      [flightGroup] of [src/esi/processor.go], a step relation over the callers, the
      running fetches, the heap of trackers and the cancelled contexts; [singleflight]
      is the class [SingleFlight].  [FlightFetch]: the group with the fetches of [Esi].
      The execution state that the code carries in request contexts (depth, limit, visited URLs) is an
      argument of every fetch.
      [Workers]: the goroutines and the semaphore of [executeFragments] and [fragmentRunner], a
      step relation that the loop of [Esi] is the sequential form of.  [Budget]: the deadlines of
      documents, fragments and their requests.
    - [Compress]: the choice of codec of [src/compress.go]; [Codecs]: the LZ4, Zstandard
      and identity codecs of that file, with their pools and buffers, over the class [Stream]
      of the libraries.  [Config]: the options of [src/config.go] and
      [src/esi/config.go], and [New] of [src/titip.go].
    - [Handler]: the pipeline of [src/handler.go], [src/handler_context.go] and
      [src/handler_esi.go], the purge API and [Close], in a state monad with
      panics and a trace of events.  A state [stateX] of the code is [run_X].
    - [HandlerLogic]: a judgement for programs of that monad, proved once for the whole
      pipeline over any storage, and the step relation [system_step] of the running
      system.  [HandlerProps], [HandlerRun], [HandlerSafety]: the properties
      of the pipeline; [HandlerQuiet]: what parts of it leave alone; [Served]: which stages
      keep the entry of a context and start a response.  [Scenarios]: their witnesses
      and runs that show defects.
    - [Coalesce], [CoalesceRun]: the singleflight of [stateFetchOriginRevalidate], as a step
      relation over many clients that run the pipeline of [Handler] on one storage, with
      background jobs and purges in between.
    - [Shutdown]: [Titip.Close] of [src/titip.go], [spawnSWR] of
      [src/handler_context.go] and the fetches that [Close] waits for or not, a step relation.
    - [Metrics], [MetricsProps]: [src/metrics.go] and [src/esi/metrics.go] over the class
      [Prometheus]; the collectors replay the trace of [Handler].  [EsiMetrics]: [Esi] with what it
      records of each fragment.
    - [Recorder]: the pooled recorders and buffers of [src/recorder.go],
      [src/esi/recorder.go], [src/buffer.go] and [src/esi/buffer.go], and
      [HandlerFetcher] of [src/esi/config.go].  The class [Recorder] is what the
      pipeline's model assumes of them.  [Buffers]: the pooled byte buffers as cells of a heap
      that all goroutines share, and the bodies that pass through them.
    - [ServerTiming]: [src/server_timing.go].
    - [CaddyConfig]: the configuration records of the Caddy modules.  [Caddyfile]: their
      [UnmarshalCaddyfile] functions over the class [Dispenser]; [CaddyfileFacts] and
      [CaddyfileTypes]: termination, round trip and types.  [CaddyProvision], [CaddyProps]:
      [Provision] of the three modules.  [CaddyServe], [CaddyServeProps]: [ServeHTTP],
      the registry of instances and [handleAdminPurge] of [src/adapter/caddy/admin.go].

    ** What the theorems show

    - The pipeline: what a miss stores a later hit replays, without the origin
      ([miss_then_hit]); mutating requests invalidate their URL
      ([mutation_invalidates]); cookies and hop-by-hop headers are never stored
      ([no_cookies_stored]), but for what a 304 nominates itself
      ([merge_304_keeps_nominated]); a panic of the origin is contained
      ([origin_panic_contained]), but a 304 for a variant without headers makes the middleware panic
      ([nil_headers_304_panics]); bypasses and storage failures forward the request
      untouched ([bypass_forwards], [storage_failure_fails_open]); no response is
      stored after [Close] ([closed_stores_nothing]); the machine stops
      ([serve_terminates]); conditional requests follow RFC 9110
      ([preconditions_rfc9110]).
    - Coalescing: one flight per entry at a time ([one_flight_per_key]), at most one origin call
      per flight ([origin_calls_bounded]), nobody waits for ever, and who waits is answered
      ([waiting_clients_are_answered]); a client alone, and one that joins, gets what the
      sequential pipeline gives it ([alone_is_ServeHTTP], [joined_is_ServeHTTP]), so that the
      theorems on [ServeHTTP] hold for them.  What sharing gets wrong is shown by runs
      ([private_answer_is_shared], [esi_flight_shares_cookies], [head_leader_empties_get]).
    - Shutdown: [Close] waits for the refreshes and never closes the storage under a write of one
      ([close_waits]), ends ([close_ends]) and reports what happened ([close_reports]).
    - Telemetry: a request is counted once ([requests_counted_once]), a purge with its
      count and outcome ([purges_counted]); a second registration is lost
      ([second_registration_lost]).  Fragments: recording changes nothing
      ([recorded_is_executed]), every include records one outcome, last ([outcome_is_recorded]),
      and the collectors count what was recorded ([replay_counts]).
    - Codecs: pools and buffers are invisible ([pools_invisible]), and the registry of
      [New] satisfies what the pipeline's theorems ask of codecs ([builtin_codecs_ok]).
    - Freshness: the [int64] arithmetic computes the RFC 9111 lifetime and age
      ([effective_ttl_rfc]) except that of responses sent expired ([expired_by_date_kept]), stays in bounds, and the storage decision is
      characterised ([isResponseCacheable_spec]).
    - Keys: canonical under reordering, and separating away from the
      delimiters; where they do not separate there are counterexamples.
    - The stores: an invariant of every reachable in-memory store ([store_invariant]) and a
      refinement of the abstract cache ([store_refines]); on Redis, what is written is
      read back ([redis_write_then_read]), a purge by tag removes what was written under it whatever the
      cursor does ([redis_tag_purge_complete]), a full purge removes the prefix and nothing else
      ([redis_purge_all_exact]), and everything expires in the end
      ([redis_eventually_empty]); an interrupted write does not.  Concurrent calls: alone, a
      program is its operation ([alone_is_sequential]); in every interleaving an answer is made
      of what calls have written ([reads_are_writes]) and no key stays without a deadline
      ([no_key_is_forgotten]), but metadata and body may be of different writes ([torn_read])
      and a purge by tag may lose the index of a newer entry ([tag_purge_forgets_new_entry]).
    - Purges: exact keys and patterns reach the keys of the requests they address; on Redis, after
      a successful POST the next GET of its URL asks the origin ([redis_post_then_origin]).
    - ESI: scanning is sound, splicing replaces the tags and keeps the rest, processing
      terminates, and credentials stay on the page's host ([no_credentials_to_other_hosts]).  Equal URLs share one fetch
      that nobody else's deadline cuts off ([equal_urls_share_one_fetch]), every caller gets
      the outcome of a fetch of its URL ([shared_outcome_is_a_fetch]) and none is stuck
      ([no_caller_is_stuck]), so that sharing is invisible
      ([sharing_changes_nothing]) to tags that allow the same depth ([sharing_ignores_max_depth]).  The workers stay within their limit
      ([workers_bounded]), finish ([workers_finish]) and implement the sequential loop
      ([workers_refine]); deadlines nest ([budgets_nest]), which bounds a shared
      fetch by its own start only ([shared_alternative_overruns]).  An abandoned fetch poisons the callers that come after it
      ([abandoned_fetch_poisons]).
    - The SSRF guard: connections go to allowed hosts and unblocked addresses
      ([dial_safe], [isIPBlocked_table], [matchHost_spec]); a URL without a host escapes it
      ([empty_host_unguarded]).
    - Recorders and buffers: recycling is invisible ([recorder_is_a_writer],
      [handler_fetcher_records]), and a pooled buffer is private to the goroutine that holds it
      ([pooled_bodies]).
    - Configuration: whatever [New] accepts is well formed ([new_config_ok]); Caddyfiles are
      read back as they were written, the storage module included ([caddyfile_round_trip]), well typed
      ([caddyfile_values_typed]) and in finitely many steps ([caddyfile_reading_ends]); a
      site's setting wins over the global one, field by field, but for the
      booleans of ESI, which either block throws ([provision_precedence],
      [esi_global_switch_is_final]).
    - The adapter: the registry is the set of live handlers
      ([registry_tracks_live_handlers]) and an answered hard purge has reached each of them whose
      store works ([admin_purge_reaches_every_instance]; the answer hides the failures of the others,
      [admin_reply_hides_failures]).  A conditional request for a page can lose its
      fragments ([conditional_page_loses_fragments]).

    ** Fuel

    [run_machine] has fuel 7, the number of ranks of the states: every
    transition goes to a state of lower rank.  [Scan] has the length of the document plus one
    (each turn moves forward); ESI nesting has the number of levels that the depth limit
    leaves.  A loop over a Redis cursor has one more than [scan_bound], the number of calls
    after which a server's iteration is over; a loop over the tokens of a
    Caddyfile has one more than the tokens left, since every turn loads one.  The reading of
    an IPv6 address has one turn per 16-bit group, eight.  The theorems above show that none of
    them runs out.

    The step relations need no fuel: their termination theorems bound the runs
    ([workers_finish], [close_ends]).  In [Coalesce] the pipeline up to [Do] has the fuel 7
    of [run_machine].

    ** Not modelled

    Logging; the deadlines of storage calls and of the background fetch (a call that times out is
    a failing call); when a deadline cuts off a running fetch (it is the outcome of the fetch);
    the interleaving of steps inside one stage of a client of [Coalesce] (the pipeline up to
    [Do], the flight, and what follows it are a step each; the commands of the storage calls interleave
    in [RedisRace]); the moments at which the pipeline reads the clock for [Server-Timing] (the header
    made of the measurements is in [ServerTiming]); pools of readers and encoders of the compression
    libraries beyond what [Codecs] says of them.  Of the Caddy adapter: the registration of its
    modules, the route table of the admin API, JSON decoding, and [Start], [Stop] and [Validate], which
    do nothing or test a field for nil.  The protobuf code is generated; its codec is the class [Proto].
    What is left is glue of these kinds: every function with logic of its own is a definition. *)

From stdpp Require Export base tactics option list numbers gmap strings sorting.
From Stdlib Require Export Ascii ZArith Lia Bool.
#[export] Set Default Proof Using "Type".

(** ** Byte strings

    A Go [string] and a Go [[]byte] are both finite sequences of 8-bit bytes.
    They are modelled by [list ascii] (an [ascii] is 8 booleans), so that the
    list library serves both and [gmap str V] models [map[string]V]. *)
Abbreviation str := (list ascii).

Declare Scope gostr_scope.
Delimit Scope gostr_scope with gs.

(** [B "abc"] is the Go string literal with these bytes. *)
Definition B (s : string) : str := String.list_ascii_of_string s.
Arguments B : simpl never.

(** Byte value of a character, as the integer Go compares. *)
Definition byte_val (c : ascii) : N := Ascii.N_of_ascii c.

(** ** Boolean equality of byte strings *)
Definition str_eqb (a b : str) : bool := bool_decide (a = b).

Notation "a =s b" := (str_eqb a b) (at level 70, no associativity) : gostr_scope.
Notation "a <>s b" := (negb (str_eqb a b)) (at level 70, no associativity) : gostr_scope.
#[global] Open Scope gostr_scope.

Definition is_nil {A} (l : list A) : bool :=
  match l with [] => true | _ => false end.

(** [slices.Contains] on strings. *)
Definition slices_contains (l : list str) (x : str) : bool :=
  bool_decide (x ∈ l).

(** [strings.Join]. *)
Fixpoint join (sep : str) (l : list str) : str :=
  match l with
  | [] => []
  | [x] => x
  | x :: l' => x ++ sep ++ join sep l'
  end.

(** Longest prefix of elements satisfying [f], and what is left. *)
Fixpoint span {A} (f : A → bool) (l : list A) : list A * list A :=
  match l with
  | [] => ([], [])
  | x :: l' => if f x then let '(a, b) := span f l' in (x :: a, b) else ([], l)
  end.

(** ** Results: Go's [(value, error)] pairs *)
Inductive result (A : Type) :=
  | Ok (a : A)
  | Err (msg : str).
Arguments Ok {A} a.
Arguments Err {A} msg.

Definition is_ok {A} (r : result A) : bool :=
  match r with Ok _ => true | Err _ => false end.

(** ** Fixed-width integers

    [wrap64] is Go's two's-complement wrap-around of [int64]. *)
Definition wrap64 (z : Z) : Z := ((z + 2 ^ 63) mod 2 ^ 64 - 2 ^ 63)%Z.
Definition in_int64 (z : Z) : Prop := (- 2 ^ 63 ≤ z < 2 ^ 63)%Z.
Definition wrap32 (z : Z) : Z := ((z + 2 ^ 31) mod 2 ^ 32 - 2 ^ 31)%Z.
Definition in_int32 (z : Z) : Prop := (- 2 ^ 31 ≤ z < 2 ^ 31)%Z.

(** ** Automation *)
Create HintDb titip discriminated.
Create Rewrite HintDb gostr.

(** Case analysis on the boolean tests of the code, recording each as the
    proposition it decides. *)
Ltac btrue H :=
  repeat match type of H with
  | (_ && _) = true => let H' := fresh H in apply andb_true_iff in H as [H H']; btrue H'
  | negb _ = true => apply negb_true_iff in H
  | str_eqb _ _ = true => apply bool_decide_eq_true_1 in H
  | str_eqb _ _ = false => apply bool_decide_eq_false_1 in H
  | bool_decide _ = true => apply bool_decide_eq_true_1 in H
  | bool_decide _ = false => apply bool_decide_eq_false_1 in H
  | (_ <? _)%Z = true => apply Z.ltb_lt in H
  | (_ <? _)%Z = false => apply Z.ltb_ge in H
  | (_ <=? _)%Z = true => apply Z.leb_le in H
  | (_ <=? _)%Z = false => apply Z.leb_gt in H
  | (_ =? _)%Z = true => apply Z.eqb_eq in H
  | (_ =? _)%Z = false => apply Z.eqb_neq in H
  end.

(** Split the goal on the scrutinee of an [if] or [match] it contains. *)
Ltac case_if :=
  match goal with
  | |- context [if ?b then _ else _] => let E := fresh "E" in destruct b eqn:E; btrue E
  end.

Ltac case_in H :=
  match type of H with
  | context [if ?b then _ else _] => let E := fresh "E" in destruct b eqn:E; btrue E
  end.

(** ** Shared lemmas *)
Lemma str_eqb_eq (a b : str) : (a =s b) = true ↔ a = b.
Proof. unfold str_eqb. by rewrite bool_decide_eq_true. Qed.

Lemma str_eqb_refl (a : str) : (a =s a) = true.
Proof. by apply str_eqb_eq. Qed.

Lemma str_eqb_neq (a b : str) : (a =s b) = false ↔ a ≠ b.
Proof. unfold str_eqb. by rewrite bool_decide_eq_false. Qed.

Lemma existsb_false {A} (f : A → bool) l :
  existsb f l = false ↔ ∀ x, x ∈ l → f x = false.
Proof.
  rewrite <- not_true_iff_false, existsb_exists. split.
  - intros H x Hx. apply not_true_is_false. intros Hf. apply H. exists x.
    by rewrite <- list_elem_of_In.
  - intros H (x & Hx & Hf). rewrite H in Hf; [done|]. by apply list_elem_of_In.
Qed.

Lemma negb_is_nil {A} (l : list A) : negb (is_nil l) = true ↔ l ≠ [].
Proof. by destruct l. Qed.

Lemma is_nil_true {A} (l : list A) : is_nil l = true ↔ l = [].
Proof. by destruct l. Qed.

Lemma is_nil_false {A} (l : list A) : is_nil l = false ↔ l ≠ [].
Proof. by destruct l. Qed.

Lemma filter_perm {A} (f : A → bool) l1 l2 :
  l1 ≡ₚ l2 → List.filter f l1 ≡ₚ List.filter f l2.
Proof.
  induction 1 as [|x l1 l2 _ IH|x y l|l1 l2 l3 _ IH1 _ IH2]; simpl; [done| | |by etrans].
  - destruct (f x); by rewrite IH.
  - destruct (f x), (f y); try done. apply Permutation_swap.
Qed.

Lemma bind_ext_in {A B} (f g : A → list B) l :
  (∀ x, x ∈ l → f x = g x) → l ≫= f = l ≫= g.
Proof.
  induction l as [|x l IH]; csimpl; [done|]. intros H.
  rewrite (H x), IH; [done|set_solver|set_solver].
Qed.

Lemma fmap_bind_list {A B C} (f : B → C) (g : A → list B) l :
  f <$> (l ≫= g) = l ≫= λ x, f <$> g x.
Proof. induction l as [|x l IH]; csimpl; [done|]. by rewrite fmap_app, IH. Qed.

Lemma bind_perm_pointwise {A B} (f g : A → list B) l :
  (∀ x, f x ≡ₚ g x) → l ≫= f ≡ₚ l ≫= g.
Proof. intros H. induction l as [|x l IH]; csimpl; [done|]. by rewrite (H x), IH. Qed.

Lemma wrap64_range z : in_int64 (wrap64 z).
Proof.
  unfold wrap64, in_int64.
  pose proof (Z.mod_pos_bound (z + 2 ^ 63) (2 ^ 64)). lia.
Qed.

Lemma wrap64_id z : in_int64 z → wrap64 z = z.
Proof. unfold wrap64, in_int64. intros. rewrite Z.mod_small; lia. Qed.

Lemma wrap64_add_l a b : wrap64 (wrap64 a + b) = wrap64 (a + b).
Proof.
  unfold wrap64. f_equal.
  replace ((a + 2 ^ 63) mod 2 ^ 64 - 2 ^ 63 + b + 2 ^ 63)%Z
    with ((a + 2 ^ 63) mod 2 ^ 64 + b)%Z by lia.
  rewrite Z.add_mod_idemp_l by lia. f_equal. lia.
Qed.

Lemma span_app {A} (f : A → bool) l : (span f l).1 ++ (span f l).2 = l.
Proof.
  induction l as [|x l IH]; simpl; [done|].
  destruct (f x); [|done]. destruct (span f l); simpl in *. by rewrite IH.
Qed.

#[export] Hint Resolve wrap64_range str_eqb_refl : titip.

Lemma elem_of_bool_filter {A} (f : A → bool) l x : x ∈ List.filter f l ↔ x ∈ l ∧ f x = true.
Proof. by rewrite !list_elem_of_In, filter_In. Qed.

Lemma NoDup_bool_filter {A} (f : A → bool) l : NoDup l → NoDup (List.filter f l).
Proof.
  induction 1 as [|x l Hx _ IH]; simpl; [constructor|]. destruct (f x); [|done].
  constructor; [|done]. rewrite elem_of_bool_filter. tauto.
Qed.

(** ** Sums over lists that are updated in place *)
Definition tally {A} (w : A → nat) (l : list A) : nat := sum_list (w <$> l).

Lemma tally_insert {A} (w : A → nat) l i a b :
  l !! i = Some a → tally w (<[i := b]> l) + w a = tally w l + w b.
Proof.
  unfold tally. revert i. induction l as [|c l IH]; intros [|i] H; csimpl in *; [done..| |].
  - injection H as ->. lia.
  - specialize (IH i H). lia.
Qed.

Lemma tally_weight {A} (w : A → nat) l i a : l !! i = Some a → w a ≤ tally w l.
Proof.
  unfold tally. revert i. induction l as [|c l IH]; intros [|i] H; csimpl in *; [done..| |].
  - injection H as ->. lia.
  - specialize (IH i H). lia.
Qed.

Lemma tally_pos {A} (w : A → nat) l : 0 < tally w l → ∃ i a, l !! i = Some a ∧ 0 < w a.
Proof.
  unfold tally. induction l as [|a l IH]; csimpl; [lia|]. intros H.
  destruct (decide (0 < w a)); [by exists 0, a|]. destruct IH as (i & b & ? & ?); [lia|]. by exists (S i), b.
Qed.

Lemma tally_le {A} (w w' : A → nat) l : (∀ a, w a ≤ w' a) → tally w l ≤ tally w' l.
Proof. intros H. unfold tally. induction l as [|a l IH]; csimpl; [lia|]. specialize (H a). lia. Qed.

Lemma tally_le_length {A} (w : A → nat) l : (∀ a, w a ≤ 1) → tally w l ≤ length l.
Proof. intros H. unfold tally. induction l as [|a l IH]; csimpl; [lia|]. specialize (H a). lia. Qed.

Lemma tally_replicate {A} (w : A → nat) n a : tally w (replicate n a) = n * w a.
Proof. unfold tally. induction n as [|n IH]; csimpl; [done|]. lia. Qed.

(** Moving one element: the counts move with it. *)
Lemma moved {A} (w : A → nat) l i a b : l !! i = Some a → tally w (<[i := b]> l) = tally w l + w b - w a.
Proof. intros H. pose proof (tally_insert w l i a b H). lia. Qed.

Ltac moved :=
  repeat match goal with
  | H : ?l !! ?i = Some ?a |- context [tally ?w (<[?i := ?b]> ?l)] =>
      rewrite (moved w l i a b H); pose proof (tally_weight w l i a H); simpl in *
  end.
