(* ===== verification/GoStrings.v ===== *)
(** * Go strings: the [strings], [strconv], [slices], [path] and [net/url]
    functions the code uses, over byte strings

    Every function is a total, executable translation of what the standard
    library documents.  The two functions whose result depends on the Unicode
    case tables ([strings.ToLower] and [strings.EqualFold]) are written out on
    ASCII and hand their non-ASCII remainder to the class [GoUnicode]. *)

From Stdlib Require DecimalString.
From S2P Require Import Prelude.

(** ** Character classes *)
Definition in_range (lo hi : N) (c : ascii) : bool :=
  (lo <=? byte_val c)%N && (byte_val c <=? hi)%N.
Definition is_upper := in_range 65 90.
Definition is_lower := in_range 97 122.
Definition is_digit := in_range 48 57.
Definition is_alnum (c : ascii) : bool := is_upper c || is_lower c || is_digit c.
Definition is_ascii_byte := in_range 0 127.

Definition lower_byte (c : ascii) : ascii :=
  if is_upper c then Ascii.ascii_of_N (byte_val c + 32) else c.
Definition upper_byte (c : ascii) : ascii :=
  if is_lower c then Ascii.ascii_of_N (byte_val c - 32) else c.

Definition is_ascii (s : str) : bool := forallb is_ascii_byte s.
Definition byte_eqb (a b : ascii) : bool := Ascii.eqb a b.

(** ** Unicode remainder of case mapping

    [unicode_lower s] is [strings.Map(unicode.ToLower, s)] and
    [unicode_fold s t] the rune-wise simple folding comparison of
    [strings.EqualFold], both on strings with a byte above 0x7F. *)
Class GoUnicode := {
  unicode_lower : str → str;
  unicode_fold : str → str → bool;
}.

(** [strings.ToLower]: the ASCII path, then the Unicode one. *)
Definition ToLower `{GoUnicode} (s : str) : str :=
  if is_ascii s then map lower_byte s else unicode_lower s.

(** [strings.EqualFold]: ASCII pairs are compared letter by letter; from the
    first non-ASCII byte on, the comparison is the Unicode one. *)
Fixpoint EqualFold `{GoUnicode} (s t : str) : bool :=
  match s, t with
  | [], [] => true
  | a :: s', b :: t' =>
      if is_ascii_byte a && is_ascii_byte b then
        if byte_eqb (lower_byte a) (lower_byte b) then EqualFold s' t' else false
      else unicode_fold s t
  | _, _ => false
  end.

(** ** White space

    [unicode.IsSpace] holds of ten ASCII and Latin-1 code points and of the
    code points with the White_Space property; these are their UTF-8
    encodings, of one, two and three bytes. *)
Definition space1 (c : ascii) : bool := in_range 9 13 c || (byte_val c =? 32)%N.
Definition space2 (c1 c2 : ascii) : bool :=
  (byte_val c1 =? 194)%N && ((byte_val c2 =? 133)%N || (byte_val c2 =? 160)%N).
Definition space3 (c1 c2 c3 : ascii) : bool :=
  let b1 := byte_val c1 in let b2 := byte_val c2 in
  ((b1 =? 225)%N && (b2 =? 154)%N && (byte_val c3 =? 128)%N)
  || ((b1 =? 226)%N && (b2 =? 128)%N &&
      (in_range 128 138 c3 || in_range 168 169 c3 || (byte_val c3 =? 175)%N))
  || ((b1 =? 226)%N && (b2 =? 129)%N && (byte_val c3 =? 159)%N)
  || ((b1 =? 227)%N && (b2 =? 128)%N && (byte_val c3 =? 128)%N).

(** Drop the white-space runes at the front; [f2] and [f3] say which two- and
    three-byte groups are one. *)
Fixpoint trim_front (f2 : ascii → ascii → bool) (f3 : ascii → ascii → ascii → bool)
    (s : str) : str :=
  match s with
  | [] => []
  | c1 :: s1 =>
      if space1 c1 then trim_front f2 f3 s1 else
      match s1 with
      | [] => s
      | c2 :: s2 =>
          if f2 c1 c2 then trim_front f2 f3 s2 else
          match s2 with
          | [] => s
          | c3 :: s3 => if f3 c1 c2 c3 then trim_front f2 f3 s3 else s
          end
      end
  end.

Definition trim_left (s : str) : str := trim_front space2 space3 s.
Definition trim_right (s : str) : str :=
  rev (trim_front (λ a b, space2 b a) (λ a b c, space3 c b a) (rev s)).

(** [strings.TrimSpace] (and [bytes.TrimSpace]). *)
Definition TrimSpace (s : str) : str := trim_right (trim_left s).

(** ** Prefixes, suffixes, search *)
Fixpoint HasPrefix (s p : str) {struct p} : bool :=
  match p, s with
  | [], _ => true
  | b :: p', a :: s' => byte_eqb a b && HasPrefix s' p'
  | _ :: _, [] => false
  end.
Definition HasSuffix (s p : str) : bool := HasPrefix (rev s) (rev p).
Definition TrimPrefix (s p : str) : str :=
  if HasPrefix s p then drop (length p) s else s.
Definition TrimSuffix (s p : str) : str :=
  if HasSuffix s p then take (length s - length p) s else s.

(** [strings.Index] and [bytes.Index]: the first occurrence of [p] in [s]. *)
Fixpoint Index (s p : str) : option nat :=
  if HasPrefix s p then Some 0 else
  match s with
  | [] => None
  | _ :: s' => S <$> Index s' p
  end.
Definition Contains (s p : str) : bool := bool_decide (is_Some (Index s p)).
Definition IndexByte (s : str) (c : ascii) : option nat := Index s [c].
Definition ContainsAny (s cs : str) : bool :=
  existsb (λ c, existsb (byte_eqb c) cs) s.

(** ** Splitting *)

(** [strings.SplitSeq(s, sep)] for a one-byte separator: never empty. *)
Fixpoint SplitSeq (s : str) (sep : ascii) : list str :=
  match s with
  | [] => [[]]
  | c :: s' =>
      if byte_eqb c sep then [] :: SplitSeq s' sep
      else match SplitSeq s' sep with
           | [] => [[c]]
           | w :: ws => (c :: w) :: ws
           end
  end.

(** [strings.Cut(s, sep)] for a one-byte separator. *)
Fixpoint Cut (s : str) (sep : ascii) : str * str * bool :=
  match s with
  | [] => ([], [], false)
  | c :: s' =>
      if byte_eqb c sep then ([], s', true)
      else let '(a, b, found) := Cut s' sep in (c :: a, b, found)
  end.

(** [strings.FieldsFunc(s, f)] for a separator test on runes that holds of the
    single bytes [f] accepts and of the multi-byte white-space runes.  [acc] is
    the field being read, reversed. *)
Fixpoint fields_go (f : ascii → bool) (acc : str) (s : str) : list str :=
  let flush := if is_nil acc then [] else [rev acc] in
  match s with
  | [] => flush
  | c1 :: s1 =>
      if f c1 then flush ++ fields_go f [] s1 else
      match s1 with
      | [] => fields_go f (c1 :: acc) s1
      | c2 :: s2 =>
          if space2 c1 c2 then flush ++ fields_go f [] s2 else
          match s2 with
          | [] => fields_go f (c1 :: acc) s1
          | c3 :: s3 =>
              if space3 c1 c2 c3 then flush ++ fields_go f [] s3
              else fields_go f (c1 :: acc) s1
          end
      end
  end.

(** ** Ordering: Go compares strings byte by byte; [slices.Sort] *)
Fixpoint str_leb (a b : str) : bool :=
  match a, b with
  | [], _ => true
  | _ :: _, [] => false
  | x :: a', y :: b' =>
      if (byte_val x <? byte_val y)%N then true
      else if (byte_val y <? byte_val x)%N then false
      else str_leb a' b'
  end.
Definition str_le (a b : str) : Prop := str_leb a b = true.
#[export] Instance str_le_dec a b : Decision (str_le a b) := bool_eq_dec _ _.
Definition slices_sort (l : list str) : list str := merge_sort str_le l.

(** ** Numbers *)

(** [strconv.FormatInt(z, 10)] and [strconv.Itoa]. *)
Definition itoa (z : Z) : str :=
  B (DecimalString.NilZero.string_of_int (Z.to_int z)).

Definition digit_val (c : ascii) : Z := Z.of_N (byte_val c - 48).

Fixpoint parse_digits (acc : Z) (s : str) : option Z :=
  match s with
  | [] => Some acc
  | c :: s' => if is_digit c then parse_digits (acc * 10 + digit_val c) s' else None
  end.

(** [strconv.ParseUint(s, 10, bits)]: [None] is an error (syntax or range). *)
Definition ParseUint (s : str) (bits : Z) : option Z :=
  if is_nil s then None else
  match parse_digits 0 s with
  | Some n => if (n <? 2 ^ bits)%Z then Some n else None
  | None => None
  end.

(** [strconv.ParseInt(s, 10, 64)]. *)
Definition ParseInt (s : str) : option Z :=
  let '(neg, ds) :=
    match s with
    | c :: s' => if byte_eqb c "+" then (false, s')
                 else if byte_eqb c "-" then (true, s') else (false, s)
    | [] => (false, [])
    end in
  if is_nil ds then None else
  match parse_digits 0 ds with
  | None => None
  | Some n =>
      if neg then (if (n <=? 2 ^ 63)%Z then Some (- n)%Z else None)
      else (if (n <? 2 ^ 63)%Z then Some n else None)
  end.

(** ** Percent-encoding ([net/url]) *)
Inductive escape_mode := encodePathSegment | encodeQueryComponent.

Definition one_of (cs : string) (c : ascii) : bool := existsb (byte_eqb c) (B cs).

(** [url.shouldEscape] in the two modes used. *)
Definition shouldEscape (m : escape_mode) (c : ascii) : bool :=
  if is_alnum c then false
  else if one_of "-_.~" c then false
  else if one_of "$&+,/:;=?@" c then
    match m with
    | encodePathSegment => one_of "/;,?" c
    | encodeQueryComponent => true
    end
  else true.

Definition upperhex (n : N) : ascii :=
  if (n <? 10)%N then Ascii.ascii_of_N (48 + n) else Ascii.ascii_of_N (55 + n).

Definition escape_byte (m : escape_mode) (c : ascii) : str :=
  if byte_eqb c " " && match m with encodeQueryComponent => true | _ => false end
  then ["+"%char]
  else if shouldEscape m c
  then ["%"%char; upperhex (byte_val c / 16); upperhex (byte_val c mod 16)]
  else [c].

Definition escape (m : escape_mode) (s : str) : str := s ≫= escape_byte m.
Definition PathEscape : str → str := escape encodePathSegment.
Definition QueryEscape : str → str := escape encodeQueryComponent.

Definition unhex (c : ascii) : option N :=
  if is_digit c then Some (byte_val c - 48)%N
  else if in_range 97 102 c then Some (byte_val c - 87)%N
  else if in_range 65 70 c then Some (byte_val c - 55)%N
  else None.

(** [url.QueryUnescape]: [None] is an escape error. *)
Fixpoint QueryUnescape (s : str) : option str :=
  match s with
  | [] => Some []
  | c :: s1 =>
      if byte_eqb c "%" then
        match s1 with
        | h :: l :: s2 =>
            match unhex h, unhex l with
            | Some x, Some y =>
                cons (Ascii.ascii_of_N (16 * x + y)) <$> QueryUnescape s2
            | _, _ => None
            end
        | _ => None
        end
      else if byte_eqb c "+" then cons " "%char <$> QueryUnescape s1
      else cons c <$> QueryUnescape s1
  end.

(** [url.ParseQuery], as the list of decoded pairs in the order they are
    appended to the [url.Values] map; [None] when any part is malformed (the
    callers look at the map only when there is no error). *)
Definition parse_pair (part : str) : option (list (str * str)) :=
  if Contains part (B ";") then None
  else if is_nil part then Some []
  else let '(rk, rv, _) := Cut part "=" in
       match QueryUnescape rk, QueryUnescape rv with
       | Some k, Some v => Some [(k, v)]
       | _, _ => None
       end.

Definition query_pairs (query : str) : option (list (str * str)) :=
  (@concat _) <$> mapM parse_pair (SplitSeq query "&").

Definition values_add (m : gmap str (list str)) (kv : str * str) : gmap str (list str) :=
  <[kv.1 := default [] (m !! kv.1) ++ [kv.2]]> m.

Definition ParseQuery (query : str) : option (gmap str (list str)) :=
  foldl values_add ∅ <$> query_pairs query.

(** ** [path.Clean]

    Components between slashes, the empty and "." ones dropped, ".." removing
    the component before it (kept at the front of a relative path). *)
Definition clean_step (rooted : bool) (stack : list str) (c : str) : list str :=
  if is_nil c then stack
  else if c =s B "." then stack
  else if c =s B ".." then
    match stack with
    | [] => if rooted then [] else [c]
    | top :: below => if top =s B ".." then c :: stack else below
    end
  else c :: stack.

Definition path_Clean (p : str) : str :=
  let rooted := HasPrefix p (B "/") in
  let body := join (B "/") (rev (foldl (clean_step rooted) [] (SplitSeq p "/"))) in
  if rooted then "/"%char :: body
  else if is_nil body then B "." else body.

(** * Facts *)

(** ** Exhaustive reasoning on bytes *)
Definition all_ascii : list ascii := Ascii.ascii_of_nat <$> seq 0 256.

Lemma all_ascii_complete c : In c all_ascii.
Proof.
  unfold all_ascii. apply in_map_iff. exists (Ascii.nat_of_ascii c).
  split; [apply Ascii.ascii_nat_embedding|].
  apply in_seq. pose proof (Ascii.nat_ascii_bounded c). lia.
Qed.

(** A decidable property of bytes holds if it holds of the 256 of them. *)
Lemma ascii_forall (f : ascii → bool) :
  forallb f all_ascii = true → ∀ c, f c = true.
Proof. rewrite forallb_forall. intros H c. apply H, all_ascii_complete. Qed.

Ltac by_bytes f := revert f; apply ascii_forall; vm_compute; reflexivity.

Lemma byte_eqb_eq a b : byte_eqb a b = true ↔ a = b.
Proof. apply Ascii.eqb_eq. Qed.

Lemma byte_eqb_neq a b : byte_eqb a b = false ↔ a ≠ b.
Proof. apply Ascii.eqb_neq. Qed.

Lemma byte_eqb_refl a : byte_eqb a a = true.
Proof. by apply byte_eqb_eq. Qed.

Lemma byte_val_inj a b : byte_val a = byte_val b → a = b.
Proof.
  unfold byte_val. intros H.
  rewrite <- (Ascii.ascii_N_embedding a), <- (Ascii.ascii_N_embedding b). by rewrite H.
Qed.

#[export] Hint Rewrite byte_eqb_refl : gostr.

Lemma lower_byte_idem c : lower_byte (lower_byte c) = lower_byte c.
Proof. apply byte_eqb_eq. by_bytes c. Qed.

Lemma lower_byte_ascii c : implb (is_ascii_byte c) (is_ascii_byte (lower_byte c)) = true.
Proof. by_bytes c. Qed.

Lemma is_ascii_lower s : is_ascii s = true → is_ascii (map lower_byte s) = true.
Proof.
  unfold is_ascii. induction s as [|c s IH]; simpl; [done|].
  rewrite !andb_true_iff. intros [Hc Hs]. split; [|auto].
  pose proof (lower_byte_ascii c) as H. by rewrite Hc in H.
Qed.

Lemma map_lower_idem s : map lower_byte (map lower_byte s) = map lower_byte s.
Proof. rewrite map_map. apply map_ext. intros. apply lower_byte_idem. Qed.

Lemma ToLower_ascii_idem `{GoUnicode} s :
  is_ascii s = true → ToLower (ToLower s) = ToLower s.
Proof.
  intros Hs. unfold ToLower. rewrite Hs, is_ascii_lower by done. apply map_lower_idem.
Qed.

(** [EqualFold] on ASCII strings is equality after lower-casing. *)
Lemma EqualFold_ascii `{GoUnicode} s t :
  is_ascii s = true → is_ascii t = true →
  EqualFold s t = (map lower_byte s =s map lower_byte t).
Proof.
  revert t. unfold is_ascii. induction s as [|a s IH]; intros [|b t]; simpl; try done.
  rewrite !andb_true_iff. intros [Ha Hs] [Hb Ht]. rewrite Ha, Hb. simpl.
  destruct (byte_eqb (lower_byte a) (lower_byte b)) eqn:E.
  - apply byte_eqb_eq in E. rewrite IH, E by done.
    unfold str_eqb. apply bool_decide_ext. split; congruence.
  - apply byte_eqb_neq in E. symmetry. apply str_eqb_neq. congruence.
Qed.

(** ** Prefixes and search *)
Lemma HasPrefix_spec s p : HasPrefix s p = true ↔ p `prefix_of` s.
Proof.
  revert s. induction p as [|b p IH]; intros s; simpl.
  - split; [intros _; apply prefix_nil|done].
  - destruct s as [|a s].
    + split; [done|]. intros [k Hk]; simpl in Hk; congruence.
    + rewrite andb_true_iff, byte_eqb_eq, IH. split.
      * intros [-> Hp]. by apply prefix_cons.
      * intros Hp. split; [symmetry; by eapply prefix_cons_inv_1|by eapply prefix_cons_inv_2].
Qed.

Lemma HasPrefix_app p r : HasPrefix (p ++ r) p = true.
Proof. apply HasPrefix_spec. by exists r. Qed.

Lemma HasSuffix_spec s p : HasSuffix s p = true ↔ p `suffix_of` s.
Proof.
  unfold HasSuffix. rewrite HasPrefix_spec. split.
  - intros [k Hk]. exists (rev k).
    rewrite <- (rev_involutive s), Hk, rev_app_distr, rev_involutive. done.
  - intros [k ->]. rewrite rev_app_distr. by eexists.
Qed.

Lemma Index_Some s p i :
  Index s p = Some i →
  i + length p ≤ length s ∧ s = take i s ++ p ++ drop (i + length p) s.
Proof.
  revert i. induction s as [|c s IH]; intros i; simpl.
  - destruct (HasPrefix [] p) eqn:E; [|done]. intros [= <-].
    destruct p; simpl in *; [done|done].
  - destruct (HasPrefix (c :: s) p) eqn:E.
    + intros [= <-]. apply HasPrefix_spec in E as [k Hk].
      assert (S (length s) = length p + length k)
        by (rewrite <- length_app, <- Hk; done).
      split; [lia|]. simpl. by rewrite Hk, drop_app_length.
    + intros (j & Hj & ->)%fmap_Some. destruct (IH j Hj) as [? Heq].
      split; [simpl; lia|]. simpl. by rewrite <- Heq.
Qed.

Lemma Index_None s p : Index s p = None → ∀ a b, s ≠ a ++ p ++ b.
Proof.
  induction s as [|c s IH]; simpl; intros H a b Hs.
  - destruct (HasPrefix [] p) eqn:E; [done|].
    destruct a; [|done]. simpl in Hs. symmetry in Hs. apply app_nil in Hs as [-> ->]. done.
  - destruct (HasPrefix (c :: s) p) eqn:E; [done|].
    destruct (Index s p) eqn:E2; [done|]. destruct a as [|x a]; simpl in Hs.
    + rewrite Hs, HasPrefix_app in E. done.
    + injection Hs as -> Hs. by eapply IH.
Qed.

Lemma Contains_spec s p : Contains s p = true ↔ ∃ a b, s = a ++ p ++ b.
Proof.
  unfold Contains. rewrite bool_decide_eq_true. split.
  - intros [i Hi]. apply Index_Some in Hi as [_ Hi]. by do 2 eexists.
  - intros (a & b & Hs). destruct (Index s p) eqn:E; [by eexists|].
    exfalso. by eapply Index_None.
Qed.

Lemma Contains_nil_false c s : Contains s [c] = false ↔ c ∉ s.
Proof.
  split.
  - intros H Hin. apply list_elem_of_split in Hin as (a & b & ->).
    assert (Contains (a ++ c :: b) [c] = true) by (apply Contains_spec; by exists a, b).
    congruence.
  - intros Hn. apply not_true_is_false. rewrite Contains_spec. intros (a & b & ->).
    apply Hn. set_solver.
Qed.

(** ** Splitting *)
Lemma SplitSeq_not_nil s c : SplitSeq s c ≠ [].
Proof. destruct s as [|x s]; simpl; [done|]. destruct byte_eqb; [done|]. by destruct SplitSeq. Qed.

Lemma SplitSeq_join s c : join [c] (SplitSeq s c) = s.
Proof.
  induction s as [|x s IH]; simpl; [done|].
  pose proof (SplitSeq_not_nil s c). destruct (byte_eqb x c) eqn:E.
  - apply byte_eqb_eq in E as ->. destruct (SplitSeq s c) as [|w ws]; [done|].
    simpl in *. by rewrite IH.
  - destruct (SplitSeq s c) as [|w [|w' ws]]; [done|simpl in *; by rewrite IH..].
Qed.

Lemma SplitSeq_no_sep s c : Forall (λ w, c ∉ w) (SplitSeq s c).
Proof.
  induction s as [|x s IH]; simpl.
  - repeat constructor. set_solver.
  - destruct (byte_eqb x c) eqn:E; [constructor; [set_solver|done]|].
    apply byte_eqb_neq in E. destruct (SplitSeq s c) as [|w ws].
    + repeat constructor. set_solver.
    + inversion IH; subst. constructor; [set_solver|done].
Qed.

Lemma SplitSeq_word w c : c ∉ w → SplitSeq w c = [w].
Proof.
  induction w as [|x w IH]; simpl; [done|]. intros Hn.
  destruct (byte_eqb x c) eqn:E; [apply byte_eqb_eq in E; set_solver|].
  by rewrite IH by set_solver.
Qed.

Lemma SplitSeq_cons w s c : c ∉ w → SplitSeq (w ++ c :: s) c = w :: SplitSeq s c.
Proof.
  induction w as [|x w IH]; simpl; intros Hn; [by rewrite byte_eqb_refl|].
  destruct (byte_eqb x c) eqn:E; [apply byte_eqb_eq in E; set_solver|].
  by rewrite IH by set_solver.
Qed.

(** Splitting undoes joining, for words without the separator. *)
Lemma SplitSeq_join_words c ws :
  ws ≠ [] → Forall (λ w, c ∉ w) ws → SplitSeq (join [c] ws) c = ws.
Proof.
  intros Hne H. destruct H as [|w ws Hw Hws]; [done|]. clear Hne. revert w Hw.
  induction Hws as [|w' ws Hw' Hws IH]; intros w Hw; simpl; [by apply SplitSeq_word|].
  rewrite SplitSeq_cons by done. f_equal. by apply IH.
Qed.

Lemma join_inj c ws1 ws2 :
  Forall (λ w, c ∉ w) ws1 → Forall (λ w, c ∉ w) ws2 →
  Forall (λ w, w ≠ []) ws1 → Forall (λ w, w ≠ []) ws2 →
  join [c] ws1 = join [c] ws2 → ws1 = ws2.
Proof.
  assert (∀ ws, Forall (λ w, w ≠ []) ws → join [c] ws = [] → ws = []) as Hnil.
  { intros [|w [|w' ws]] Hf Hj; [done| |]; inversion Hf; subst; simpl in *; [done|].
    by apply app_nil in Hj as [? _]. }
  intros H1 H2 N1 N2 Hj. destruct ws1 as [|w1 ws1].
  { symmetry in Hj. by rewrite (Hnil ws2). }
  destruct ws2 as [|w2 ws2]; [by apply Hnil in Hj|].
  rewrite <- (SplitSeq_join_words c (w1 :: ws1)), Hj by done.
  by apply SplitSeq_join_words.
Qed.

Lemma Cut_word w s c : c ∉ w → Cut (w ++ c :: s) c = (w, s, true).
Proof.
  induction w as [|x w IH]; simpl; intros Hn; [by rewrite byte_eqb_refl|].
  destruct (byte_eqb x c) eqn:E; [apply byte_eqb_eq in E; set_solver|].
  by rewrite IH by set_solver.
Qed.

(** ** Sorting *)
Lemma str_leb_refl a : str_leb a a = true.
Proof. induction a as [|x a IH]; simpl; [done|]. by rewrite N.ltb_irrefl. Qed.

#[export] Instance str_le_total : Total str_le.
Proof.
  unfold str_le. intros a. induction a as [|x a IH]; intros [|y b]; simpl; auto.
  destruct (N.ltb_spec (byte_val x) (byte_val y)); auto.
  destruct (N.ltb_spec (byte_val y) (byte_val x)); auto.
Qed.

#[export] Instance str_le_trans : Transitive str_le.
Proof.
  unfold str_le. intros a. induction a as [|x a IH]; intros [|y b] [|z c]; simpl; auto; [done|].
  destruct (N.ltb_spec (byte_val x) (byte_val y));
  destruct (N.ltb_spec (byte_val y) (byte_val z));
  destruct (N.ltb_spec (byte_val y) (byte_val x));
  destruct (N.ltb_spec (byte_val z) (byte_val y));
  destruct (N.ltb_spec (byte_val x) (byte_val z));
  destruct (N.ltb_spec (byte_val z) (byte_val x)); try done; try lia; eauto.
Qed.

#[export] Instance str_le_antisymm : AntiSymm eq str_le.
Proof.
  unfold str_le. intros a. induction a as [|x a IH]; intros [|y b]; simpl; auto; [done..|].
  destruct (N.ltb_spec (byte_val x) (byte_val y));
  destruct (N.ltb_spec (byte_val y) (byte_val x)); try done; try lia.
  intros. f_equal; [apply byte_val_inj; lia|eauto].
Qed.

Lemma slices_sort_perm l : slices_sort l ≡ₚ l.
Proof. apply merge_sort_Permutation. Qed.

Lemma slices_sort_sorted l : Sorted str_le (slices_sort l).
Proof. apply Sorted_merge_sort, _. Qed.

(** Sorting forgets the order its input comes in. *)
Lemma slices_sort_proper l1 l2 : l1 ≡ₚ l2 → slices_sort l1 = slices_sort l2.
Proof.
  intros H. apply (Sorted_unique str_le); [apply slices_sort_sorted..|].
  by rewrite !slices_sort_perm.
Qed.

#[export] Instance slices_sort_Proper : Proper ((≡ₚ) ==> (=)) slices_sort.
Proof. intros l1 l2. apply slices_sort_proper. Qed.

Lemma elem_of_slices_sort x l : x ∈ slices_sort l ↔ x ∈ l.
Proof. by rewrite slices_sort_perm. Qed.

(** ** Percent-encoding *)
Definition unescape_step_ok (c : ascii) : bool :=
  match escape_byte encodeQueryComponent c with
  | [d] => (byte_eqb d "+" && byte_eqb c " ")
           || (byte_eqb d c && negb (byte_eqb d "%") && negb (byte_eqb d "+"))
  | [p; h; l] => byte_eqb p "%" &&
      match unhex h, unhex l with
      | Some x, Some y => byte_eqb (Ascii.ascii_of_N (16 * x + y)) c
      | _, _ => false
      end
  | _ => false
  end.

Lemma escape_byte_shape c : unescape_step_ok c = true.
Proof. by_bytes c. Qed.

(** [url.QueryUnescape] inverts [url.QueryEscape] on every string. *)
Lemma QueryUnescape_QueryEscape s : QueryUnescape (QueryEscape s) = Some s.
Proof.
  induction s as [|c s IH]; [done|].
  change (QueryEscape (c :: s)) with (escape_byte encodeQueryComponent c ++ QueryEscape s).
  pose proof (escape_byte_shape c) as Hc. unfold unescape_step_ok in Hc.
  destruct (escape_byte encodeQueryComponent c) as [|d [|h [|l [|? ?]]]]; try done.
  - apply orb_true_iff in Hc as [Hc|Hc].
    + apply andb_true_iff in Hc as [->%byte_eqb_eq ->%byte_eqb_eq]. simpl. by rewrite IH.
    + apply andb_true_iff in Hc as [[->%byte_eqb_eq Hp]%andb_true_iff Hq].
      apply negb_true_iff in Hp, Hq. simpl. by rewrite Hp, Hq, IH.
  - apply andb_true_iff in Hc as [->%byte_eqb_eq Hc]. simpl.
    destruct (unhex h), (unhex l); try done. apply byte_eqb_eq in Hc.
    by rewrite IH, <- Hc.
Qed.

Lemma QueryEscape_inj a b : QueryEscape a = QueryEscape b → a = b.
Proof.
  intros H. enough (Some a = Some b) by congruence.
  by rewrite <- !QueryUnescape_QueryEscape, H.
Qed.

(** Bytes that never occur in an escaped string. *)
Lemma escape_avoids m (bad : ascii → bool) s :
  forallb (λ c, forallb (λ d, negb (bad d)) (escape_byte m c)) all_ascii = true →
  ∀ d, d ∈ escape m s → bad d = false.
Proof.
  intros H d Hd. unfold escape in Hd. apply list_elem_of_bind in Hd as (c & Hd & _).
  pose proof (ascii_forall _ H c) as Hc. rewrite forallb_forall in Hc.
  apply negb_true_iff, Hc. by apply list_elem_of_In.
Qed.

Lemma QueryEscape_avoids s c :
  one_of ":=&*,|;?[]\/" c = true → c ∉ QueryEscape s.
Proof.
  intros Hc Hin.
  assert (one_of ":=&*,|;?[]\/" c = false); [|congruence].
  refine (escape_avoids encodeQueryComponent _ s _ c Hin). vm_compute. reflexivity.
Qed.

(** ** Query values *)
Definition values_of (k : str) (l : list (str * str)) : list str :=
  snd <$> List.filter (λ kv, kv.1 =s k) l.

Lemma values_add_lookup l m k :
  foldl values_add m l !! k =
  match values_of k l with [] => m !! k | vs => Some (default [] (m !! k) ++ vs) end.
Proof.
  revert m. unfold values_of. induction l as [|[k' v'] l IH]; intros m; simpl; [done|].
  rewrite IH. unfold values_add; simpl. destruct (str_eqb k' k) eqn:Ek; simpl.
  - apply str_eqb_eq in Ek as ->. rewrite lookup_insert_eq. csimpl.
    destruct (snd <$> List.filter _ l); [done|]. by rewrite <- app_assoc.
  - apply str_eqb_neq in Ek. by rewrite lookup_insert_ne.
Qed.

Lemma ParseQuery_lookup q l m k :
  query_pairs q = Some l → ParseQuery q = Some m →
  m !! k = match values_of k l with [] => None | vs => Some vs end.
Proof.
  intros Hl. unfold ParseQuery. rewrite Hl. intros [= <-].
  rewrite values_add_lookup, lookup_empty. by destruct (values_of k l).
Qed.

(** [url.PathUnescape]: inverts [PathEscape], used to show it injective. *)
Fixpoint PathUnescape (s : str) : option str :=
  match s with
  | [] => Some []
  | c :: s1 =>
      if byte_eqb c "%" then
        match s1 with
        | h :: l :: s2 =>
            match unhex h, unhex l with
            | Some x, Some y => cons (Ascii.ascii_of_N (16 * x + y)) <$> PathUnescape s2
            | _, _ => None
            end
        | _ => None
        end
      else cons c <$> PathUnescape s1
  end.

Definition path_step_ok (c : ascii) : bool :=
  match escape_byte encodePathSegment c with
  | [d] => byte_eqb d c && negb (byte_eqb d "%")
  | [p; h; l] => byte_eqb p "%" &&
      match unhex h, unhex l with
      | Some x, Some y => byte_eqb (Ascii.ascii_of_N (16 * x + y)) c
      | _, _ => false
      end
  | _ => false
  end.

Lemma path_byte_shape c : path_step_ok c = true.
Proof. by_bytes c. Qed.

Lemma PathUnescape_PathEscape s : PathUnescape (PathEscape s) = Some s.
Proof.
  induction s as [|c s IH]; [done|].
  change (PathEscape (c :: s)) with (escape_byte encodePathSegment c ++ PathEscape s).
  pose proof (path_byte_shape c) as Hc. unfold path_step_ok in Hc.
  destruct (escape_byte encodePathSegment c) as [|d [|h [|l [|? ?]]]]; try done.
  - apply andb_true_iff in Hc as [->%byte_eqb_eq Hp%negb_true_iff]. simpl. by rewrite Hp, IH.
  - apply andb_true_iff in Hc as [->%byte_eqb_eq Hc]. simpl.
    destruct (unhex h), (unhex l); try done. apply byte_eqb_eq in Hc. by rewrite IH, <- Hc.
Qed.

#[export] Instance PathEscape_inj : Inj (=) (=) PathEscape.
Proof.
  intros a b H. enough (Some a = Some b) by congruence.
  by rewrite <- !PathUnescape_PathEscape, H.
Qed.

Lemma PathEscape_avoids s c : one_of "*?[]\/;," c = true → c ∉ PathEscape s.
Proof.
  intros Hc Hin.
  assert (one_of "*?[]\/;," c = false); [|congruence].
  refine (escape_avoids encodePathSegment _ s _ c Hin). vm_compute. reflexivity.
Qed.

(** A byte the path encoding leaves alone occurs in its image only if it
    occurred in the source. *)
Lemma PathEscape_keeps_colon s : ":"%char ∉ s → ":"%char ∉ PathEscape s.
Proof.
  intros Hn Hin. unfold PathEscape, escape in Hin.
  apply list_elem_of_bind in Hin as (c & Hc & Hs).
  assert (∀ d, implb (existsb (byte_eqb ":") (escape_byte encodePathSegment d))
                     (byte_eqb d ":") = true) as H
    by (apply ascii_forall; vm_compute; reflexivity).
  specialize (H c).
  assert (existsb (byte_eqb ":") (escape_byte encodePathSegment c) = true) as He.
  { apply existsb_exists. exists ":"%char. by rewrite byte_eqb_refl, <- list_elem_of_In. }
  rewrite He in H. apply byte_eqb_eq in H. congruence.
Qed.

(** A word ended by a separator it does not contain is read back uniquely. *)
Lemma app_sep_inj (c : ascii) a1 b1 a2 b2 :
  c ∉ a1 → c ∉ a2 → a1 ++ c :: b1 = a2 ++ c :: b2 → a1 = a2 ∧ b1 = b2.
Proof.
  intros H1 H2 H. pose proof (Cut_word a1 b1 c H1) as C1.
  rewrite H, Cut_word in C1 by done. naive_solver.
Qed.

(** A pattern without the byte [c] does not occur across it. *)
Lemma Contains_across c a b p :
  c ∉ p → Contains (a ++ c :: b) p = true → Contains a p = true ∨ Contains b p = true.
Proof.
  intros Hc. rewrite !Contains_spec. intros (x & y & H).
  apply app_eq_inv in H as [(k & -> & H)|(k & -> & H)].
  - symmetry in H. apply app_eq_inv in H as [(k' & -> & _)|(k' & -> & H)].
    + left. by exists x, k'.
    + destruct k' as [|d k']; [left; exists x, []; by rewrite !app_nil_r|].
      injection H as <- _. set_solver.
  - destruct k as [|d k]; simpl in H.
    + destruct p as [|d p]; [left; by exists a, []; rewrite app_nil_r|].
      injection H as <- _. set_solver.
    + injection H as <- ->. right. by exists k, y.
Qed.

Lemma Contains_join_comma ws p :
  ","%char ∉ p → " "%char ∉ p → p ≠ [] → Contains (join (B ", ") ws) p = true →
  ∃ w, w ∈ ws ∧ Contains w p = true.
Proof.
  intros Hc Hs Hne. induction ws as [|w ws IH]; simpl.
  - intros H. apply Contains_spec in H as (a & b & H). destruct a, p; done.
  - destruct ws as [|w' ws]; [intros H; exists w; split; [by left|done]|]. intros H.
    change (w ++ B ", " ++ join (B ", ") (w' :: ws)) with (w ++ ","%char :: " "%char :: join (B ", ") (w' :: ws)) in H.
    apply Contains_across in H as [H|H]; [exists w; split; [by left|done]| |done].
    apply (Contains_across " " []) in H as [H|H]; [|apply IH in H as (v & ? & ?); exists v; split; [by right|done]|done].
    apply Contains_spec in H as (a & b & H). destruct a, p; done.
Qed.
