(* ===== verification/GoHttp.v ===== *)
(** * Go run-time and [net/http] data: time, headers, requests, writers

    [time.Time] is its instant in nanoseconds since the Unix epoch;
    [time.Duration] is an [int64] number of nanoseconds, with Go's wrap-around
    ([add_dur], [mul_dur]) and saturation ([time_Sub]) written out.
    [http.Header] is [map[string][]string] keyed by canonical names. *)

From S2P Require Import Prelude GoStrings.

(** ** Time *)
Definition Second : Z := 1000000000.
Definition Millisecond : Z := 1000000.

(** The zero [time.Time] is January 1, year 1, 00:00:00 UTC. *)
Definition zero_time : Z := (-62135596800 * Second)%Z.
Definition IsZero (t : Z) : bool := (t =? zero_time)%Z.
Definition After (t u : Z) : bool := (u <? t)%Z.

Definition maxDuration : Z := (2 ^ 63 - 1)%Z.
Definition minDuration : Z := (- 2 ^ 63)%Z.

(** [t.Sub(u)] saturates at the bounds of [Duration]. *)
Definition time_Sub (t u : Z) : Z := Z.max minDuration (Z.min maxDuration (t - u)).
Definition add_dur (d e : Z) : Z := wrap64 (d + e).
Definition sub_dur (d e : Z) : Z := wrap64 (d - e).
Definition mul_dur (d e : Z) : Z := wrap64 (d * e).
Definition time_Add (t d : Z) : Z := (t + d)%Z.
Definition UnixNano (t : Z) : Z := wrap64 t.

(** [t.Truncate(time.Second)]: down to a multiple of one second. *)
Definition truncate_second (t : Z) : Z := (t - t mod Second)%Z.

(** [int(d.Seconds())].  [Seconds] adds two [float64]s, so the sum is rounded
    to 53 bits before it is truncated; [f64_round n d] is the nearest-even
    [float64] of the positive rational [n/d], as mantissa and exponent. *)
Definition rnd_half_even (n d : Z) : Z :=
  let q := (n / d)%Z in let r := (n mod d)%Z in
  if (2 * r <? d)%Z then q
  else if (d <? 2 * r)%Z then (q + 1)%Z
  else if Z.even q then q else (q + 1)%Z.

Definition scale_div (n d e : Z) : Z * Z :=
  if (0 <=? e)%Z then (n, (d * 2 ^ e)%Z) else ((n * 2 ^ (- e))%Z, d).

Definition f64_round (n d : Z) : Z * Z :=
  if (n <=? 0)%Z then (0, 0)%Z else
  let e0 := (Z.log2 n - Z.log2 d - 52)%Z in
  let '(a, b) := scale_div n d e0 in
  let e := if (a / b <? 2 ^ 52)%Z then (e0 - 1)%Z else e0 in
  let '(a, b) := scale_div n d e in
  (rnd_half_even a b, e).

Definition f64_trunc (f : Z * Z) : Z :=
  if (0 <=? f.2)%Z then (f.1 * 2 ^ f.2)%Z else (f.1 / 2 ^ (- f.2))%Z.

Definition seconds_int (d : Z) : Z :=
  let a := Z.abs d in
  let '(m, e) := f64_round (a mod Second) Second in
  let sum := if (0 <=? e)%Z then f64_round (a / Second + m * 2 ^ e) 1
             else f64_round ((a / Second) * 2 ^ (- e) + m) (2 ^ (- e)) in
  (Z.sgn d * f64_trunc sum)%Z.

(** ** Canonical header names ([textproto.CanonicalMIMEHeaderKey]) *)
Definition is_token_byte (c : ascii) : bool :=
  is_alnum c || one_of "!#$%&'*+-.^_`|~" c.

Fixpoint canonical_go (up : bool) (s : str) : str :=
  match s with
  | [] => []
  | c :: s' =>
      (if up then upper_byte c else lower_byte c)
      :: canonical_go (byte_eqb c "-") s'
  end.

Definition CanonicalHeaderKey (s : str) : str :=
  if forallb is_token_byte s then canonical_go true s else s.

(** ** [http.Header] *)
Abbreviation Header := (gmap str (list str)).

Definition h_Values (h : Header) (k : str) : list str :=
  default [] (h !! CanonicalHeaderKey k).
Definition h_Get (h : Header) (k : str) : str :=
  default [] (head (h_Values h k)).
Definition h_Set (h : Header) (k v : str) : Header :=
  <[CanonicalHeaderKey k := [v]]> h.
Definition h_Add (h : Header) (k v : str) : Header :=
  <[CanonicalHeaderKey k := h_Values h k ++ [v]]> h.
Definition h_Del (h : Header) (k : str) : Header :=
  delete (CanonicalHeaderKey k) h.

(** ** URLs and requests: the fields the code reads *)
Record URL := mkURL {
  u_Scheme : str;
  u_Host : str;
  u_Path : str;
  u_RawQuery : str;
}.

Record Request := mkRequest {
  r_Method : str;
  r_URL : option URL;
  r_Host : str;
  r_Header : Header;
  r_TLS : bool;
}.

Definition req_with_header (r : Request) (h : Header) : Request :=
  mkRequest (r_Method r) (r_URL r) (r_Host r) h (r_TLS r).
Definition req_with_method (r : Request) (m : str) : Request :=
  mkRequest m (r_URL r) (r_Host r) (r_Header r) (r_TLS r).

(** ** The environment

    [http_ParseTime] and [http_FormatTime] are [http.ParseTime] and
    [Format(http.TimeFormat)] (the calendar); [url_Parse], [url_String] and
    [url_RequestURI] are the URL grammar of [net/url].  [range] is the order in
    which a [for k, v := range m] loop visits a map: Go leaves it unspecified,
    so all that is known of it is [range_perm]. *)
Class GoEnv := {
  env_unicode :: GoUnicode;
  http_ParseTime : str → option Z;
  http_FormatTime : Z → str;
  url_Parse : str → option URL;
  url_String : URL → str;
  url_RequestURI : URL → str;
  range : ∀ {A : Type}, gmap str A → list (str * A);
  range_perm : ∀ {A : Type} (m : gmap str A), range m ≡ₚ map_to_list m;
}.

(** ** Cookies ([Request.Cookie]) *)
Definition mime_space (c : ascii) : bool := one_of " " c || in_range 9 10 c || in_range 13 13 c.
Fixpoint drop_while {A} (f : A → bool) (l : list A) : list A :=
  match l with [] => [] | x :: l' => if f x then drop_while f l' else l end.

(** [textproto.TrimString]. *)
Definition TrimString (s : str) : str :=
  rev (drop_while mime_space (rev (drop_while mime_space s))).

Definition valid_cookie_byte (c : ascii) : bool :=
  in_range 32 126 c && negb (one_of ";\" c) && negb (byte_val c =? 34)%N.

(** [parseCookieValue(raw, true)]. *)
Definition parse_cookie_value (raw : str) : option str :=
  let q := Ascii.ascii_of_N 34 in
  let unq := if (1 <? Z.of_nat (length raw))%Z && HasPrefix raw [q] && HasSuffix raw [q]
             then take (length raw - 2) (drop 1 raw) else raw in
  if forallb valid_cookie_byte unq then Some unq else None.

Definition cookie_part (name part : str) : option str :=
  let part := TrimString part in
  if is_nil part then None else
  let '(n, v, _) := Cut part "=" in
  let n := TrimString n in
  if is_nil n || negb (forallb is_token_byte n) then None
  else if n <>s name then None
  else parse_cookie_value v.

(** [r.Cookie(name)]: the value of the first cookie with that name. *)
Definition r_Cookie (r : Request) (name : str) : option str :=
  if is_nil name then None else
  let lines := default [] (r_Header r !! B "Cookie") in
  head (omap (cookie_part name) (lines ≫= λ l, SplitSeq (TrimString l) ";")).

(** ** Response writers *)

(** An [http.ResponseWriter]: [w_Header] is the live header map; the first
    [WriteHeader] fixes the status and a snapshot of the headers. *)
Record Writer := mkWriter {
  w_Header : Header;
  w_sent : option (Z * Header);
  w_Body : str;
}.

Definition new_writer : Writer := mkWriter ∅ None [].
Definition w_with_header (w : Writer) (h : Header) : Writer :=
  mkWriter h (w_sent w) (w_Body w).

Definition WriteHeader (w : Writer) (code : Z) : Writer :=
  match w_sent w with
  | Some _ => w
  | None => mkWriter (w_Header w) (Some (code, w_Header w)) (w_Body w)
  end.

Definition Write (w : Writer) (b : str) : Writer :=
  let w := match w_sent w with None => WriteHeader w 200 | Some _ => w end in
  mkWriter (w_Header w) (w_sent w) (w_Body w ++ b).

(** [http.Error(w, msg, code)]. *)
Definition http_Error (w : Writer) (msg : str) (code : Z) : Writer :=
  let h := h_Del (w_Header w) (B "Content-Length") in
  let h := h_Set h (B "Content-Type") (B "text/plain; charset=utf-8") in
  let h := h_Set h (B "X-Content-Type-Options") (B "nosniff") in
  Write (WriteHeader (w_with_header w h) code) (msg ++ [Ascii.ascii_of_N 10]).

(** Status seen by the client ([None]: nothing was written). *)
Definition w_Code (w : Writer) : option Z := fst <$> w_sent w.

(** * Facts *)

Lemma canonical_byte_tok c :
  implb (is_token_byte c) (is_token_byte (upper_byte c) && is_token_byte (lower_byte c)) = true.
Proof. by_bytes c. Qed.

Lemma upper_byte_idem c : upper_byte (upper_byte c) = upper_byte c.
Proof. apply byte_eqb_eq. by_bytes c. Qed.

Lemma dash_upper c : byte_eqb (upper_byte c) "-" = byte_eqb c "-".
Proof. apply eqb_prop. by_bytes c. Qed.
Lemma dash_lower c : byte_eqb (lower_byte c) "-" = byte_eqb c "-".
Proof. apply eqb_prop. by_bytes c. Qed.

Lemma canonical_go_tok up s :
  forallb is_token_byte s = true → forallb is_token_byte (canonical_go up s) = true.
Proof.
  revert up. induction s as [|c s IH]; intros up; simpl; [done|].
  rewrite !andb_true_iff. intros [Hc Hs]. split; [|auto].
  pose proof (canonical_byte_tok c) as H. rewrite Hc in H. simpl in H.
  apply andb_true_iff in H as [? ?]. by destruct up.
Qed.

Lemma canonical_go_idem up s : canonical_go up (canonical_go up s) = canonical_go up s.
Proof.
  revert up. induction s as [|c s IH]; intros up; simpl; [done|]. destruct up.
  - by rewrite upper_byte_idem, dash_upper, IH.
  - by rewrite lower_byte_idem, dash_lower, IH.
Qed.

Lemma CanonicalHeaderKey_idem s :
  CanonicalHeaderKey (CanonicalHeaderKey s) = CanonicalHeaderKey s.
Proof.
  unfold CanonicalHeaderKey. destruct (forallb is_token_byte s) eqn:E.
  - rewrite canonical_go_tok by done. apply canonical_go_idem.
  - by rewrite E.
Qed.

Lemma h_Get_Set h k v : h_Get (h_Set h k v) k = v.
Proof. unfold h_Get, h_Values, h_Set. by rewrite lookup_insert_eq. Qed.

Lemma h_Values_Set_ne h k k' v :
  CanonicalHeaderKey k ≠ CanonicalHeaderKey k' → h_Values (h_Set h k v) k' = h_Values h k'.
Proof. intros. unfold h_Values, h_Set. by rewrite lookup_insert_ne. Qed.

Lemma h_Get_Del h k : h_Get (h_Del h k) k = [].
Proof. unfold h_Get, h_Values, h_Del. by rewrite lookup_delete_eq. Qed.

Lemma h_Get_nonempty_Values h k : h_Get h k ≠ [] → h_Values h k ≠ [].
Proof. unfold h_Get. by destruct (h_Values h k). Qed.

(** Nothing written after the first [WriteHeader] changes what was sent. *)
Lemma WriteHeader_once w code code' :
  WriteHeader (WriteHeader w code) code' = WriteHeader w code.
Proof. unfold WriteHeader. destruct w as [h [s|] b]; done. Qed.

Lemma range_elem_of `{GoEnv} {A} (m : gmap str A) k v :
  (k, v) ∈ range m ↔ m !! k = Some v.
Proof. rewrite range_perm. apply elem_of_map_to_list. Qed.

Lemma time_Sub_range t u : in_int64 (time_Sub t u).
Proof. unfold time_Sub, in_int64, minDuration, maxDuration. lia. Qed.

Lemma time_Sub_nonneg t u : (u ≤ t)%Z → (0 ≤ time_Sub t u)%Z.
Proof. unfold time_Sub, minDuration, maxDuration. lia. Qed.

#[export] Hint Resolve time_Sub_range : titip.
#[export] Hint Rewrite h_Get_Set h_Get_Del CanonicalHeaderKey_idem : gostr.
