(* ===== verification/Env.v ===== *)
(** * A concrete environment

    [demo_env] instantiates [GoEnv] with executable functions, so that every
    theorem stated for an arbitrary environment can be applied to concrete
    requests: dates in the preferred HTTP form ("Sun, 06 Nov 1994 08:49:37
    GMT"), URLs of the form [scheme://host/path?query] or [/path?query], ASCII
    case mapping, and map iteration in the order of [map_to_list]. *)

From S2P Require Import Prelude GoStrings GoHttp.

(** Days from 1970-01-01 of a date of the proleptic Gregorian calendar. *)
Definition days_from_civil (y m d : Z) : Z :=
  (let y := if m <=? 2 then y - 1 else y in
   let era := y / 400 in
   let yoe := y - era * 400 in
   let mp := (m + 9) mod 12 in
   let doy := (153 * mp + 2) / 5 + d - 1 in
   let doe := yoe * 365 + yoe / 4 - yoe / 100 + doy in
   era * 146097 + doe - 719468)%Z.

Definition months : list str :=
  [B "Jan"; B "Feb"; B "Mar"; B "Apr"; B "May"; B "Jun";
   B "Jul"; B "Aug"; B "Sep"; B "Oct"; B "Nov"; B "Dec"].

Definition month_number (s : str) : option Z :=
  (λ p, Z.of_nat (S p.1)) <$> list_find (s =.) months.

Definition field (s : str) (i n : nat) : option Z := ParseUint (take n (drop i s)) 64.

(** "Sun, 06 Nov 1994 08:49:37 GMT" *)
Definition imf_fixdate (s : str) : option Z :=
  if negb (length s =? 29)%nat || negb (HasSuffix s (B " GMT")) then None else
  d ← field s 5 2; m ← month_number (take 3 (drop 8 s)); y ← field s 12 4;
  hh ← field s 17 2; mm ← field s 20 2; ss ← field s 23 2;
  Some ((days_from_civil y m d * 86400 + hh * 3600 + mm * 60 + ss) * Second)%Z.

Definition split_query (s : str) : str * str :=
  let '(p, q, _) := Cut s "?" in (p, q).

Definition simple_url_parse (s : str) : option URL :=
  match Index s (B "://") with
  | Some i =>
      let rest := drop (i + 3) s in
      let '(hostpath, q) := split_query rest in
      let '(host, p, found) := Cut hostpath "/" in
      Some (mkURL (take i s) host (if found then "/"%char :: p else []) q)
  | None => let '(p, q) := split_query s in Some (mkURL [] [] p q)
  end.

Definition simple_request_uri (u : URL) : str :=
  (if is_nil (u_Path u) then B "/" else u_Path u)
  ++ (if is_nil (u_RawQuery u) then [] else B "?" ++ u_RawQuery u).

Definition simple_url_string (u : URL) : str :=
  (if is_nil (u_Scheme u) then [] else u_Scheme u ++ B "://" ++ u_Host u)
  ++ u_Path u ++ (if is_nil (u_RawQuery u) then [] else B "?" ++ u_RawQuery u).

#[export] Instance demo_unicode : GoUnicode := {|
  unicode_lower := map lower_byte;
  unicode_fold := λ s t, map lower_byte s =s map lower_byte t;
|}.

#[export, refine] Instance demo_env : GoEnv := {|
  env_unicode := demo_unicode;
  http_ParseTime := imf_fixdate;
  http_FormatTime := λ t, itoa t;
  url_Parse := simple_url_parse;
  url_String := simple_url_string;
  url_RequestURI := simple_request_uri;
  range := λ A m, map_to_list m;
|}.
Proof. done. Defined.

Lemma demo_epoch : http_ParseTime (B "Sun, 06 Nov 1994 08:49:37 GMT") = Some (784111777 * Second)%Z.
Proof. vm_compute. reflexivity. Qed.

Lemma demo_url :
  url_Parse (B "https://example.com/api?id=42")
  = Some (mkURL (B "https") (B "example.com") (B "/api") (B "id=42")).
Proof. vm_compute. reflexivity. Qed.
