(* ===== verification/Headers.v ===== *)
(** * Header helpers ([src/header.go])

    Token lists, tiered header lookup, entity-tag comparison, surrogate tags
    and the names in [Vary]. *)

From S2P Require Import Prelude GoStrings GoHttp Env.

(** ** Constants *)
Definition headerCacheControl := B "Cache-Control".
Definition headerCDNCacheControl := B "CDN-Cache-Control".
Definition headerTitipCacheControl := B "Titip-Cache-Control".
Definition headerCacheStatus := B "Cache-Status".
Definition headerAge := B "Age".
Definition headerExpires := B "Expires".
Definition headerDate := B "Date".
Definition headerVary := B "Vary".
Definition headerETag := B "ETag".
Definition headerLastModified := B "Last-Modified".
Definition headerIfMatch := B "If-Match".
Definition headerIfUnmodifiedSince := B "If-Unmodified-Since".
Definition headerIfNoneMatch := B "If-None-Match".
Definition headerIfModifiedSince := B "If-Modified-Since".
Definition headerUpgrade := B "Upgrade".
Definition headerAccept := B "Accept".
Definition headerContentType := B "Content-Type".
Definition headerRange := B "Range".
Definition headerSetCookie := B "Set-Cookie".
Definition headerXForwardedProto := B "X-Forwarded-Proto".
Definition headerAuthorization := B "Authorization".
Definition headerPragma := B "Pragma".
Definition headerLocation := B "Location".
Definition headerContentLocation := B "Content-Location".
Definition headerContentEncoding := B "Content-Encoding".
Definition headerCacheTag := B "Cache-Tag".
Definition headerSurrogateControl := B "Surrogate-Control".
Definition contentTypeEventStream := B "text/event-stream".
Definition upgradeWebSocket := B "websocket".

Section Headers.
Context {E : GoEnv}.

Definition containsToken (headerVal target : str) : bool :=
  if is_nil headerVal then false
  else existsb (λ tok, EqualFold (TrimSpace tok) target) (SplitSeq headerVal ",").

Definition getHeaderValues (h : Header) (key : str) : list str :=
  match h_Values h key with
  | [] => match list_find (λ kv, EqualFold kv.1 key = true) (range h) with
          | Some (_, (_, vv)) => vv
          | None => []
          end
  | vals => vals
  end.

Definition has_weak_prefix (t : str) : bool := HasPrefix t (B "W/") || HasPrefix t (B "w/").

Definition strongETagMatches (clientETag cachedETag : str) : bool :=
  let c := TrimSpace clientETag in
  let s := TrimSpace cachedETag in
  if is_nil c || is_nil s then false
  else if has_weak_prefix c || has_weak_prefix s then false
  else c =s s.

Definition strip_weak (t : str) : str := TrimPrefix (TrimPrefix t (B "W/")) (B "w/").

Definition weakETagMatches (clientETag cachedETag : str) : bool :=
  let c := TrimSpace clientETag in
  let s := TrimSpace cachedETag in
  if is_nil c || is_nil s then false
  else strip_weak c =s strip_weak s.

Definition tag_sep (c : ascii) : bool := byte_eqb c "," || space1 c.
Definition splitAndTrimTags (s : str) : list str := fields_go tag_sep [] s.

Definition extractTags (headers : Header) (tagName : str) : list str :=
  let tagName := if is_nil tagName then headerCacheTag else tagName in
  let val := h_Get headers tagName in
  if is_nil val then [] else splitAndTrimTags val.

Definition add_vary_name (names : list str) (p : str) : list str :=
  let name := TrimSpace p in
  if is_nil name then names
  else let name := CanonicalHeaderKey name in
       if slices_contains names name then names else names ++ [name].

Definition extractVaryHeaderNames (headers : Header) : list str :=
  foldl (λ names varyHeader, foldl add_vary_name names (SplitSeq varyHeader ","))
        [] (h_Values headers headerVary).

(** ** Facts *)
Lemma strongETagMatches_true c s :
  strongETagMatches c s = true ↔
  TrimSpace c = TrimSpace s ∧ TrimSpace c ≠ [] ∧ has_weak_prefix (TrimSpace c) = false.
Proof.
  unfold strongETagMatches. destruct (TrimSpace c) as [|x c'] eqn:Ec; simpl.
  { naive_solver. }
  destruct (TrimSpace s) as [|y s'] eqn:Es; simpl; [naive_solver|].
  destruct (has_weak_prefix (x :: c')) eqn:Hc; simpl; [naive_solver|].
  destruct (has_weak_prefix (y :: s')) eqn:Hs; [naive_solver congruence|].
  rewrite str_eqb_eq. naive_solver.
Qed.

Lemma strip_weak_strong t : has_weak_prefix t = false → strip_weak t = t.
Proof.
  unfold has_weak_prefix, strip_weak, TrimPrefix.
  intros [H1 H2]%orb_false_iff. by rewrite H1, H2.
Qed.

Lemma weakETagMatches_sym c s : weakETagMatches c s = weakETagMatches s c.
Proof.
  unfold weakETagMatches. rewrite (orb_comm (is_nil (TrimSpace c))).
  destruct (is_nil _ || _); [done|]. apply bool_decide_ext. naive_solver.
Qed.

Lemma add_vary_name_NoDup names p : NoDup names → NoDup (add_vary_name names p).
Proof.
  unfold add_vary_name, slices_contains. intros H. case_if; [done|].
  case_if; [done|]. apply NoDup_app. set_solver by eauto using NoDup_singleton.
Qed.

Lemma add_vary_name_canon names p :
  Forall (λ n, CanonicalHeaderKey n = n) names →
  Forall (λ n, CanonicalHeaderKey n = n) (add_vary_name names p).
Proof.
  unfold add_vary_name. intros H. repeat case_if; [done..|].
  apply Forall_app; split; [done|]. repeat constructor. apply CanonicalHeaderKey_idem.
Qed.

Lemma extractVary_inv (P : list str → Prop) headers :
  P [] → (∀ ns p, P ns → P (add_vary_name ns p)) → P (extractVaryHeaderNames headers).
Proof.
  intros H0 Hs. unfold extractVaryHeaderNames.
  assert (∀ l ns, P ns → P (foldl add_vary_name ns l)) as Hin.
  { intros l. induction l; simpl; auto. }
  generalize (h_Values headers headerVary) as vs. intros vs. revert H0.
  generalize (@nil str). induction vs as [|v vs IH]; simpl; auto.
Qed.

(** Fields never contain a separator byte and are never empty. *)
Lemma fields_go_sound f acc s :
  Forall (λ c, f c = false) acc →
  Forall (λ w, w ≠ [] ∧ Forall (λ c, f c = false) w) (fields_go f acc s).
Proof.
  revert acc. remember (length s) as n eqn:Hn.
  revert s Hn. induction (lt_wf n) as [n _ IH]. intros s -> acc Hacc.
  assert (Hflush : Forall (λ w, w ≠ [] ∧ Forall (λ c, f c = false) w)
                     (if is_nil acc then [] else [rev acc])).
  { destruct acc; simpl; [constructor|]. repeat constructor.
    - intros H. by apply app_nil in H as [_ ?].
    - exact (List.Forall_rev Hacc). }
  destruct s as [|c1 s1]; simpl; [done|].
  assert (Hsmall : ∀ s' acc', length s' < length (c1 :: s1) →
    Forall (λ c, f c = false) acc' →
    Forall (λ w, w ≠ [] ∧ Forall (λ c, f c = false) w) (fields_go f acc' s'))
    by (intros; by eapply IH).
  destruct (f c1) eqn:E1.
  { apply Forall_app; split; [done|]. apply Hsmall; [simpl; lia|done]. }
  destruct s1 as [|c2 s2]; [apply Hsmall; [simpl; lia|by constructor]|].
  destruct (space2 c1 c2).
  { apply Forall_app; split; [done|]. apply Hsmall; [simpl; lia|done]. }
  destruct s2 as [|c3 s3]; [apply Hsmall; [simpl; lia|by constructor]|].
  destruct (space3 c1 c2 c3); [|apply Hsmall; [simpl; lia|by constructor]].
  apply Forall_app; split; [done|]. apply Hsmall; [simpl; lia|done].
Qed.
End Headers.
