(* ===== verification/Freshness.v ===== *)
(** * Age and freshness ([src/freshness.go])

    The RFC 9111 age and lifetime computation and the cacheability decision.
    [Cache-Control] itself is parsed by the [cacheobject] package, which is a
    parameter ([CacheObject]): the model has the record it returns and what its
    Go types guarantee (delta-seconds are [int32]). *)

From S2P Require Import Prelude GoStrings GoHttp Env Headers.

(** ** The [cacheobject] package *)
Record ResponseCacheDirectives := mkRespCC {
  MustRevalidate : bool;
  NoCachePresent : bool;
  NoCache : list str;
  NoStore : bool;
  Public : bool;
  PrivatePresent : bool;
  Private : list str;
  ProxyRevalidate : bool;
  MaxAge : Z;
  SMaxAge : Z;
  StaleIfError : Z;
  StaleWhileRevalidate : Z;
}.

Record RequestCacheDirectives := mkReqCC {
  req_MaxAge : Z;
  req_NoCache : bool;
  req_NoStore : bool;
  req_OnlyIfCached : bool;
}.

(** The four delta-seconds of a directive record are [int32] values. *)
Definition delta_ok (d : ResponseCacheDirectives) : Prop :=
  in_int32 (MaxAge d) ∧ in_int32 (SMaxAge d) ∧
  in_int32 (StaleIfError d) ∧ in_int32 (StaleWhileRevalidate d).

Class CacheObject := {
  ParseResponseCacheControl : str → result ResponseCacheDirectives;
  ParseRequestCacheControl : str → result RequestCacheDirectives;
  resp_delta_ok : ∀ s d, ParseResponseCacheControl s = Ok d → delta_ok d;
}.

(** ** The code *)
Definition maxCacheTTL : Z := (365 * 24 * 3600 * Second)%Z.

Record freshnessInfo := mkFresh {
  ApparentAge : Z;
  CorrectedInitialAge : Z;
  CurrentAge : Z;
  EffectiveTTL : Z;
  FreshnessLifetime : Z;
  StaleWhileRevalidateTTL : Z;
  StaleIfErrorTTL : Z;
  IsCacheable : bool;
  Directives : option ResponseCacheDirectives;
}.

Definition parseAge (ageHeader : str) : Z :=
  let trimmed := TrimSpace ageHeader in
  if is_nil trimmed then 0%Z else
  match ParseInt trimmed with
  | None => 0%Z
  | Some seconds => if (seconds <? 0)%Z then 0%Z else mul_dur seconds Second
  end.

Section Freshness.
Context {E : GoEnv} {CO : CacheObject}.

(** [None] is a parse error. *)
Definition parseDate (dateHeader : str) : option Z :=
  let trimmed := TrimSpace dateHeader in
  if is_nil trimmed || (trimmed =s B "0") || (trimmed =s B "-1")
  then Some zero_time
  else http_ParseTime trimmed.

Definition parseExpiresLifetime (expHeader : str) (dateVal respTime : Z) : Z :=
  match parseDate expHeader with
  | None => 0%Z
  | Some expDate =>
      if IsZero expDate then 0%Z
      else if negb (IsZero dateVal) && After expDate dateVal then time_Sub expDate dateVal
      else if After expDate respTime then time_Sub expDate respTime
      else 0%Z
  end.

Definition extractTieredCacheControl (respHeaders : Header) : str :=
  match getHeaderValues respHeaders headerTitipCacheControl with
  | (_ :: _) as titipCC => join (B ", ") titipCC
  | [] =>
    match getHeaderValues respHeaders headerCDNCacheControl with
    | (_ :: _) as cdnCC => join (B ", ") cdnCC
    | [] =>
      match getHeaderValues respHeaders headerCacheControl with
      | (_ :: _) as stdCC => join (B ", ") stdCC
      | [] => []
      end
    end
  end.

Definition uncacheableStatus (statusCode : Z) : bool :=
  existsb (Z.eqb statusCode) [304; 205; 206; 303; 401; 407; 421; 426]%Z.

(** [clock] is the reading of [time.Now()] inside [hasFutureExpires]. *)
Definition hasFutureExpires (respHeaders : Header) (clock : Z) : bool :=
  let expHeader := h_Get respHeaders headerExpires in
  if is_nil expHeader then false else
  match parseDate expHeader with
  | None => false
  | Some expDate => negb (IsZero expDate) && After expDate clock
  end.

Definition varyStar (respHeaders : Header) : bool :=
  existsb (λ vary, existsb (λ v, TrimSpace v =s B "*") (SplitSeq vary ","))
          (h_Values respHeaders headerVary).

Definition isResponseCacheable (statusCode : Z) (reqHeaders respHeaders : Header)
    (directives : option ResponseCacheDirectives) (clock : Z) : bool :=
  if uncacheableStatus statusCode then false
  else if (statusCode <? 200)%Z then false
  else if negb (is_nil (h_Get respHeaders headerSetCookie)) then false
  else if Contains (ToLower (h_Get respHeaders headerContentType)) contentTypeEventStream then false
  else if varyStar respHeaders then false
  else
  match directives with
  | None =>
      if negb (hasFutureExpires respHeaders clock) then false
      else if negb (is_nil (h_Get reqHeaders headerAuthorization)) then false
      else true
  | Some d =>
      if NoStore d then false
      else if PrivatePresent d || negb (is_nil (Private d)) then false
      else if negb (is_nil (h_Get reqHeaders headerAuthorization))
              && negb (Public d) && (SMaxAge d <? 0)%Z && negb (MustRevalidate d) then false
      else if (MaxAge d <? 0)%Z && (SMaxAge d <? 0)%Z && negb (Public d)
              && negb (NoCachePresent d) && is_nil (NoCache d)
              && negb (hasFutureExpires respHeaders clock) then false
      else true
  end.

Definition parseDirectives (respHeaders : Header) : option ResponseCacheDirectives :=
  let ccHeader := extractTieredCacheControl respHeaders in
  if is_nil ccHeader then None else
  match ParseResponseCacheControl ccHeader with Ok d => Some d | Err _ => None end.

(** Step 4 of [calculateFreshness]: the freshness lifetime and the two stale
    windows, [(lifetime, stale-while-revalidate, stale-if-error)]. *)
Definition freshnessLifetime (directives : option ResponseCacheDirectives)
    (respHeaders : Header) (dateVal respTime : Z) : Z * Z * Z :=
  let expHeader := h_Get respHeaders headerExpires in
  match directives with
  | Some d =>
      let fl :=
        if (0 <=? SMaxAge d)%Z then mul_dur (SMaxAge d) Second
        else if (0 <=? MaxAge d)%Z then mul_dur (MaxAge d) Second
        else if negb (is_nil expHeader) then parseExpiresLifetime expHeader dateVal respTime
        else 0%Z in
      let fl := if NoCachePresent d || negb (is_nil (NoCache d)) then 0%Z else fl in
      let serveStale := negb (MustRevalidate d) && negb (ProxyRevalidate d) in
      let swr := if serveStale && (0 <? StaleWhileRevalidate d)%Z
                 then mul_dur (StaleWhileRevalidate d) Second else 0%Z in
      let sie := if serveStale && (0 <? StaleIfError d)%Z
                 then mul_dur (StaleIfError d) Second else 0%Z in
      (fl, swr, sie)
  | None =>
      (if negb (is_nil expHeader) then parseExpiresLifetime expHeader dateVal respTime else 0%Z,
       0%Z, 0%Z)
  end.

Definition calculateFreshness (statusCode : Z) (reqHeaders respHeaders : Header)
    (reqTime respTime now clock : Z) : freshnessInfo :=
  let directives := parseDirectives respHeaders in
  let dateVal := default zero_time (parseDate (h_Get respHeaders headerDate)) in
  let ageVal := parseAge (h_Get respHeaders headerAge) in
  let apparentAge :=
    if negb (IsZero dateVal) && After respTime dateVal then time_Sub respTime dateVal else 0%Z in
  let responseDelay := if After respTime reqTime then time_Sub respTime reqTime else 0%Z in
  let correctedAgeValue := add_dur ageVal responseDelay in
  let correctedInitialAge := Z.max apparentAge correctedAgeValue in
  let residentTime := if After now respTime then time_Sub now respTime else 0%Z in
  let currentAge := add_dur correctedInitialAge residentTime in
  let '(fl, swr, sie) := freshnessLifetime directives respHeaders dateVal respTime in
  let effectiveTTL :=
    if (correctedInitialAge <? fl)%Z then sub_dur fl correctedInitialAge else 0%Z in
  let effectiveTTL := if (maxCacheTTL <? effectiveTTL)%Z then maxCacheTTL else effectiveTTL in
  {| ApparentAge := apparentAge;
     CorrectedInitialAge := correctedInitialAge;
     CurrentAge := currentAge;
     EffectiveTTL := effectiveTTL;
     FreshnessLifetime := fl;
     StaleWhileRevalidateTTL := swr;
     StaleIfErrorTTL := sie;
     IsCacheable := isResponseCacheable statusCode reqHeaders respHeaders directives clock;
     Directives := directives |}.

(** ** The RFC 9111 reference

    Unbounded arithmetic, written from RFC 9111 §4.2: what the [int64] code
    above is meant to compute.  Age is a [delta-seconds] of any size; the lifetime of Expires is
    Expires minus Date, and the time of receipt stands for an absent Date (RFC 9110 §6.6.1). *)
Record rfc_inputs := mkRfc {
  rfc_age : Z;                (* Age, in nanoseconds *)
  rfc_date : option Z;        (* Date *)
  rfc_expires : option Z;     (* Expires *)
  rfc_cc : option ResponseCacheDirectives;
}.

Definition rfc_initial_age (i : rfc_inputs) (reqTime respTime : Z) : Z :=
  let apparent := match rfc_date i with Some d => Z.max 0 (respTime - d) | None => 0%Z end in
  Z.max apparent (rfc_age i + Z.max 0 (respTime - reqTime)).

Definition rfc_expires_lifetime (i : rfc_inputs) (respTime : Z) : Z :=
  match rfc_expires i with
  | None => 0%Z
  | Some e => Z.max 0 (e - default respTime (rfc_date i))
  end.

Definition rfc_lifetime (i : rfc_inputs) (respTime : Z) : Z :=
  match rfc_cc i with
  | None => rfc_expires_lifetime i respTime
  | Some d =>
      if NoCachePresent d || negb (is_nil (NoCache d)) then 0%Z
      else if (0 <=? SMaxAge d)%Z then (SMaxAge d * Second)%Z
      else if (0 <=? MaxAge d)%Z then (MaxAge d * Second)%Z
      else rfc_expires_lifetime i respTime
  end.

Definition rfc_ttl (i : rfc_inputs) (reqTime respTime : Z) : Z :=
  Z.max 0 (Z.min maxCacheTTL (rfc_lifetime i respTime - rfc_initial_age i reqTime respTime)).

(** The dates of a response as the RFC sees them: an absent, malformed or
    zero date is no date. *)
Definition header_date (h : Header) (k : str) : option Z :=
  if is_nil (h_Get h k) then None else
  match parseDate (h_Get h k) with
  | Some t => if IsZero t then None else Some t
  | None => None
  end.

(** [delta-seconds = 1*DIGIT], a decimal number of any size. *)
Definition delta_seconds (s : str) : option Z :=
  if negb (is_nil s) && forallb is_digit s
  then Some (foldl (λ n c, n * 10 + (Z.of_N (byte_val c) - 48))%Z 0%Z s) else None.

Definition inputs_of (h : Header) : rfc_inputs :=
  mkRfc (default 0%Z (delta_seconds (TrimSpace (h_Get h headerAge))) * Second)
        (header_date h headerDate) (header_date h headerExpires) (parseDirectives h).

(** Instants whose differences fit a [Duration] with room to spare. *)
Definition sane_time (t : Z) : Prop := (0 ≤ t < 2 ^ 61)%Z.
Definition sane_inputs (i : rfc_inputs) : Prop :=
  (0 ≤ rfc_age i < 2 ^ 61)%Z ∧
  from_option sane_time True (rfc_date i) ∧ from_option sane_time True (rfc_expires i).

(** Where the code departs from the RFC: an Age with a plus sign, which it accepts, and a response
    that had expired by its own Date but not by the clock of the cache, which it keeps. *)
Definition unsigned_age (h : Header) : Prop := head (TrimSpace (h_Get h headerAge)) ≠ Some "+"%char.
Definition not_expired_at_date (i : rfc_inputs) (respTime : Z) : Prop :=
  ∀ e d, rfc_expires i = Some e → rfc_date i = Some d → (respTime < e)%Z → (d < e)%Z.

(** The storage rules of RFC 9111 §3 and of the middleware, as one
    proposition. *)
Definition may_store (statusCode : Z) (reqHeaders respHeaders : Header)
    (directives : option ResponseCacheDirectives) (clock : Z) : Prop :=
  let authorized := h_Get reqHeaders headerAuthorization ≠ [] in
  (200 ≤ statusCode)%Z ∧
  (statusCode ∉ [304; 205; 206; 303; 401; 407; 421; 426]%Z) ∧
  h_Get respHeaders headerSetCookie = [] ∧
  Contains (ToLower (h_Get respHeaders headerContentType)) contentTypeEventStream = false ∧
  (∀ line v, line ∈ h_Values respHeaders headerVary → v ∈ SplitSeq line "," →
             TrimSpace v ≠ B "*") ∧
  match directives with
  | None => hasFutureExpires respHeaders clock = true ∧ ¬ authorized
  | Some d =>
      NoStore d = false ∧ PrivatePresent d = false ∧ Private d = [] ∧
      (authorized → Public d = true ∨ (0 ≤ SMaxAge d)%Z ∨ MustRevalidate d = true) ∧
      ((0 ≤ MaxAge d)%Z ∨ (0 ≤ SMaxAge d)%Z ∨ Public d = true ∨ NoCachePresent d = true
       ∨ NoCache d ≠ [] ∨ hasFutureExpires respHeaders clock = true)
  end.

(** ** Lemmas *)
Lemma parseAge_range s : in_int64 (parseAge s).
Proof.
  unfold parseAge. repeat case_match; try (unfold in_int64; lia). apply wrap64_range.
Qed.

Lemma parseExpiresLifetime_range e dateVal r :
  in_int64 (parseExpiresLifetime e dateVal r) ∧ (0 ≤ parseExpiresLifetime e dateVal r)%Z.
Proof.
  unfold parseExpiresLifetime, After. destruct (parseDate e) as [t|]; [|unfold in_int64; lia].
  destruct (IsZero t); [unfold in_int64; lia|].
  destruct (Z.ltb_spec dateVal t), (IsZero dateVal), (Z.ltb_spec r t); simpl;
    (split; [auto with titip; unfold in_int64; lia|]); try apply time_Sub_nonneg; lia.
Qed.

Lemma second_pos : Second = 1000000000%Z.
Proof. done. Qed.

Lemma mul_second_int32 z :
  in_int32 z → (0 ≤ z)%Z → mul_dur z Second = (z * Second)%Z ∧ in_int64 (mul_dur z Second).
Proof.
  unfold in_int32. intros. unfold mul_dur.
  rewrite wrap64_id by (unfold in_int64, Second; lia).
  split; [done|]. unfold in_int64, Second; lia.
Qed.

Lemma freshnessLifetime_range d h dv rt :
  in_int64 (freshnessLifetime d h dv rt).1.1.
Proof.
  unfold freshnessLifetime. destruct d as [d|]; simpl.
  - destruct (_ || _); [unfold in_int64; lia|].
    repeat case_if; try apply wrap64_range; try apply parseExpiresLifetime_range.
    unfold in_int64; lia.
  - case_if; [apply parseExpiresLifetime_range|unfold in_int64; lia].
Qed.

Lemma calc_ttl_eq fl cia :
  in_int64 fl → (0 ≤ cia)%Z →
  (if (cia <? fl)%Z then sub_dur fl cia else 0%Z) = Z.max 0 (fl - cia).
Proof.
  unfold in_int64, sub_dur. intros. destruct (Z.ltb_spec cia fl); [|lia].
  rewrite wrap64_id by (unfold in_int64; lia). lia.
Qed.

Lemma clamp_eq t : (0 ≤ t)%Z →
  (if (maxCacheTTL <? t)%Z then maxCacheTTL else t) = Z.min maxCacheTTL t.
Proof. intros. destruct (Z.ltb_spec maxCacheTTL t); lia. Qed.

Lemma maxCacheTTL_pos : (0 < maxCacheTTL)%Z.
Proof. unfold maxCacheTTL, Second. lia. Qed.

Lemma calculateFreshness_initial_nonneg st rq rs t0 t1 now clk :
  (0 ≤ CorrectedInitialAge (calculateFreshness st rq rs t0 t1 now clk))%Z.
Proof.
  unfold calculateFreshness. destruct (freshnessLifetime _ _ _ _) as [[fl swr] sie]. simpl.
  match goal with |- (0 ≤ Z.max ?a _)%Z => enough (0 ≤ a)%Z by lia end.
  unfold After. case_if; [|lia]. apply time_Sub_nonneg. lia.
Qed.

(** The time to live is the clamped difference of lifetime and initial age. *)
Lemma calculateFreshness_ttl st rq rs t0 t1 now clk :
  let f := calculateFreshness st rq rs t0 t1 now clk in
  EffectiveTTL f = Z.min maxCacheTTL (Z.max 0 (FreshnessLifetime f - CorrectedInitialAge f)).
Proof.
  pose proof (calculateFreshness_initial_nonneg st rq rs t0 t1 now clk) as Hage.
  unfold calculateFreshness in *.
  pose proof (freshnessLifetime_range (parseDirectives rs) rs
    (default zero_time (parseDate (h_Get rs headerDate))) t1) as Hr.
  destruct (freshnessLifetime _ _ _ _) as [[fl swr] sie]. simpl in *.
  rewrite calc_ttl_eq by done. by rewrite clamp_eq by lia.
Qed.

Lemma header_date_spec h k t :
  header_date h k = Some t ↔ parseDate (h_Get h k) = Some t ∧ IsZero t = false.
Proof.
  unfold header_date. destruct (is_nil (h_Get h k)) eqn:En.
  - apply is_nil_true in En. rewrite En. unfold parseDate. simpl.
    split; [done|]. intros [[= <-] ?]. done.
  - destruct (parseDate _) as [u|]; [|by split; [|intros [? _]]].
    destruct (IsZero u) eqn:Ez; split; try done.
    + intros [[= <-] ?]. congruence.
    + by intros [= <-].
    + by intros [-> _].
Qed.

Lemma header_date_None h k :
  header_date h k = None ↔ default zero_time (parseDate (h_Get h k)) = zero_time.
Proof.
  unfold header_date. destruct (is_nil (h_Get h k)) eqn:En.
  - apply is_nil_true in En. by rewrite En.
  - destruct (parseDate _) as [u|]; [|done]. simpl.
    unfold IsZero. by destruct (Z.eqb_spec u zero_time).
Qed.

Lemma time_Sub_exact t u : (- 2 ^ 62 ≤ t - u < 2 ^ 62)%Z → time_Sub t u = (t - u)%Z.
Proof. unfold time_Sub, minDuration, maxDuration. lia. Qed.

Lemma sane_not_zero t : sane_time t → IsZero t = false.
Proof. unfold sane_time, IsZero, zero_time, Second. intros. apply Z.eqb_neq. lia. Qed.

(** The code's [Date] value, seen through [header_date]. *)
Lemma date_cases h :
  let dv := default zero_time (parseDate (h_Get h headerDate)) in
  (header_date h headerDate = None ∧ dv = zero_time) ∨
  (header_date h headerDate = Some dv ∧ IsZero dv = false).
Proof.
  simpl. destruct (header_date h headerDate) as [d|] eqn:Ed.
  - right. apply header_date_spec in Ed as [-> Hz]. done.
  - left. split; [done|]. by apply header_date_None.
Qed.

Lemma parse_digits_fold acc ds :
  parse_digits acc ds =
  if forallb is_digit ds then Some (foldl (λ n c, n * 10 + (Z.of_N (byte_val c) - 48))%Z acc ds) else None.
Proof.
  revert acc. induction ds as [|c ds IH]; intros acc; [done|]. simpl. destruct (is_digit c) eqn:Ec; [|done].
  simpl. rewrite IH. unfold digit_val. destruct (forallb is_digit ds); [|done]. do 2 f_equal.
  assert (48 <= byte_val c)%N; [|lia]. by apply andb_true_iff in Ec as [Ec%N.leb_le _].
Qed.

Lemma fold_digits_nonneg acc ds :
  (0 ≤ acc)%Z → forallb is_digit ds = true →
  (0 ≤ foldl (λ n c, n * 10 + (Z.of_N (byte_val c) - 48)) acc ds)%Z.
Proof.
  revert acc. induction ds as [|c ds IH]; intros acc Ha; [done|]. simpl. intros [Hc Hd]%andb_true_iff.
  apply IH; [|done]. apply andb_true_iff in Hc as [Hc%N.leb_le _]. lia.
Qed.

(** [parseAge] reads a [delta-seconds] that fits, and ignores everything else that has no plus sign. *)
Lemma parseAge_rfc h :
  unsigned_age h → (rfc_age (inputs_of h) < 2 ^ 61)%Z → parseAge (h_Get h headerAge) = rfc_age (inputs_of h).
Proof.
  unfold unsigned_age, parseAge, delta_seconds. simpl. generalize (TrimSpace (h_Get h headerAge)).
  intros [|c ds]; [done|]. simpl head. intros Hp. assert (byte_eqb c "+" = false) as Hplus.
  { destruct (byte_eqb c "+") eqn:Hc; [|done]. apply Ascii.eqb_eq in Hc. by subst. }
  unfold delta_seconds, ParseInt. rewrite Hplus. cbn [is_nil negb andb]. destruct (byte_eqb c "-") eqn:Em.
  - apply Ascii.eqb_eq in Em as ->. simpl. intros _. destruct (is_nil ds); [done|]. rewrite parse_digits_fold.
    destruct (forallb is_digit ds) eqn:Ed; [|done]. pose proof (fold_digits_nonneg 0 ds ltac:(lia) Ed) as Hn.
    revert Hn. generalize (foldl (λ n c, n * 10 + (Z.of_N (byte_val c) - 48))%Z 0%Z ds). intros n Hn.
    case_if; [|done]. destruct (- n <? 0)%Z eqn:Ez; [done|]. assert (n = 0)%Z as -> by lia. done.
  - rewrite parse_digits_fold. destruct (forallb is_digit (c :: ds)) eqn:Ed; [|done].
    pose proof (fold_digits_nonneg 0 (c :: ds) ltac:(lia) Ed) as Hn. revert Hn.
    generalize (foldl (λ n c, n * 10 + (Z.of_N (byte_val c) - 48))%Z 0%Z (c :: ds)). intros n Hn. simpl default.
    unfold Second. intros Hlt. assert ((n <? 2 ^ 63)%Z = true) as -> by lia.
    cbn [is_nil]. assert ((n <? 0)%Z = false) as -> by lia.
    unfold mul_dur. apply wrap64_id. unfold in_int64. lia.
Qed.

Lemma initial_age_rfc h t0 t1 st rq now clk :
  unsigned_age h → sane_inputs (inputs_of h) → sane_time t0 → sane_time t1 →
  CorrectedInitialAge (calculateFreshness st rq h t0 t1 now clk)
  = rfc_initial_age (inputs_of h) t0 t1.
Proof.
  intros Hu (Hage & Hd & _) H0 H1. unfold calculateFreshness. rewrite parseAge_rfc by (done || lia).
  simpl in Hd.
  destruct (freshnessLifetime _ _ _ _) as [[fl swr] sie]. simpl.
  unfold rfc_initial_age. simpl. simpl in Hage. unfold sane_time in *. f_equal.
  - destruct (date_cases h) as [[-> ->]|[Hh Hz]]; [done|].
    rewrite Hh in Hd |- *. simpl in Hd. rewrite Hz. simpl. unfold After.
    case_if; [rewrite time_Sub_exact; lia|lia].
  - unfold After, add_dur. rewrite wrap64_id.
    + case_if; [rewrite time_Sub_exact; lia|lia].
    + unfold in_int64. case_if; [rewrite time_Sub_exact; lia|lia].
Qed.

Lemma expires_lifetime_rfc h t1 :
  sane_inputs (inputs_of h) → not_expired_at_date (inputs_of h) t1 → sane_time t1 →
  (if negb (is_nil (h_Get h headerExpires)) then
     parseExpiresLifetime (h_Get h headerExpires)
       (default zero_time (parseDate (h_Get h headerDate))) t1 else 0%Z)
  = rfc_expires_lifetime (inputs_of h) t1.
Proof.
  intros (_ & Hd & He) Hn H1. simpl in Hd, He. unfold not_expired_at_date in Hn. simpl in Hn.
  unfold rfc_expires_lifetime. simpl.
  destruct (header_date h headerExpires) as [e|] eqn:Ee.
  - pose proof Ee as Hne. unfold header_date in Hne. destruct (is_nil _); [done|]. clear Hne.
    apply header_date_spec in Ee as [Ee Hz]. simpl in *. unfold parseExpiresLifetime.
    rewrite Ee, Hz. unfold After, sane_time in *.
    destruct (date_cases h) as [[-> ->]|[Hh Hzd]]; simpl.
    + case_if; [rewrite time_Sub_exact; lia|lia].
    + rewrite Hh in Hd, Hn |- *. simpl in Hd. rewrite Hzd. simpl. specialize (Hn _ _ eq_refl eq_refl).
      case_if; [rewrite time_Sub_exact; lia|].
      case_if; [rewrite time_Sub_exact; lia|lia].
  - destruct (is_nil (h_Get h headerExpires)) eqn:En; [done|]. simpl.
    unfold header_date in Ee. rewrite En in Ee. unfold parseExpiresLifetime.
    destruct (parseDate _) as [u|]; [|done]. by destruct (IsZero u).
Qed.

Lemma parseDirectives_delta h d : parseDirectives h = Some d → delta_ok d.
Proof.
  unfold parseDirectives. case_if; [done|].
  destruct (ParseResponseCacheControl _) eqn:Ep; [|done]. intros [= <-].
  by eapply resp_delta_ok.
Qed.

Lemma lifetime_rfc st rq h t0 t1 now clk :
  sane_inputs (inputs_of h) → not_expired_at_date (inputs_of h) t1 → sane_time t1 →
  FreshnessLifetime (calculateFreshness st rq h t0 t1 now clk)
  = rfc_lifetime (inputs_of h) t1.
Proof.
  intros Hi Hn H1. unfold calculateFreshness.
  destruct (freshnessLifetime _ _ _ _) as [[fl swr] sie] eqn:Ef. simpl.
  unfold rfc_lifetime, freshnessLifetime in *. simpl.
  destruct (parseDirectives h) as [d|] eqn:Ed; injection Ef as <- _ _;
    [|by apply expires_lifetime_rfc].
  apply parseDirectives_delta in Ed as (? & ? & _).
  destruct (_ || _); [done|].
  case_if; [by apply mul_second_int32|]. case_if; [by apply mul_second_int32|].
  by apply expires_lifetime_rfc.
Qed.

Lemma uncacheableStatus_false st :
  uncacheableStatus st = false ↔ st ∉ [304; 205; 206; 303; 401; 407; 421; 426]%Z.
Proof.
  unfold uncacheableStatus. rewrite existsb_false. split.
  - intros H Hin. specialize (H st Hin). by apply Z.eqb_neq in H.
  - intros H x Hx. apply Z.eqb_neq. by intros ->.
Qed.

Lemma varyStar_false h :
  varyStar h = false ↔
  ∀ line v, line ∈ h_Values h headerVary → v ∈ SplitSeq line "," → TrimSpace v ≠ B "*".
Proof.
  unfold varyStar. rewrite existsb_false. split.
  - intros H line v Hl Hv. specialize (H line Hl). rewrite existsb_false in H.
    by apply str_eqb_neq, H.
  - intros H line Hl. apply existsb_false. intros v Hv. apply str_eqb_neq. by eapply H.
Qed.

Ltac bool_cases :=
  repeat match goal with |- context [if ?b then _ else _] => destruct b eqn:? end.

Lemma cacheable_directives_spec rq rs d clk :
  (if NoStore d then false
   else if PrivatePresent d || negb (is_nil (Private d)) then false
   else if negb (is_nil (h_Get rq headerAuthorization))
           && negb (Public d) && (SMaxAge d <? 0)%Z && negb (MustRevalidate d) then false
   else if (MaxAge d <? 0)%Z && (SMaxAge d <? 0)%Z && negb (Public d)
           && negb (NoCachePresent d) && is_nil (NoCache d)
           && negb (hasFutureExpires rs clk) then false
   else true) = true ↔
  NoStore d = false ∧ PrivatePresent d = false ∧ Private d = [] ∧
  (h_Get rq headerAuthorization ≠ [] →
     Public d = true ∨ (0 ≤ SMaxAge d)%Z ∨ MustRevalidate d = true) ∧
  ((0 ≤ MaxAge d)%Z ∨ (0 ≤ SMaxAge d)%Z ∨ Public d = true ∨ NoCachePresent d = true
   ∨ NoCache d ≠ [] ∨ hasFutureExpires rs clk = true).
Proof.
  destruct (NoStore d), (PrivatePresent d), (Private d); simpl; try (split; [done|naive_solver]).
  destruct (h_Get rq headerAuthorization), (Public d), (MustRevalidate d), (NoCachePresent d),
    (NoCache d), (hasFutureExpires rs clk),
    (Z.ltb_spec (SMaxAge d) 0), (Z.ltb_spec (MaxAge d) 0); simpl;
    (split; [done || intros _|try done]); try (repeat split; try done; auto 10);
    intros (_ & _ & _ & H1 & H2); try (destruct H2 as [?|[?|[?|[?|[?|?]]]]]; (done || lia));
    destruct H1 as [?|[?|?]]; (done || lia).
Qed.

(** ** Properties *)

(** The time to live given to a stored response is never negative and
    never more than one year, whatever the headers, the clocks and the
    [int64] overflows they provoke; the initial age is never negative. *)
Theorem effective_ttl_bounds st rq rs t0 t1 now clk :
  let f := calculateFreshness st rq rs t0 t1 now clk in
  (0 ≤ EffectiveTTL f ≤ maxCacheTTL)%Z ∧ (0 ≤ CorrectedInitialAge f)%Z ∧
  (EffectiveTTL f ≤ Z.max 0 (FreshnessLifetime f))%Z.
Proof.
  pose proof (calculateFreshness_ttl st rq rs t0 t1 now clk) as H.
  pose proof (calculateFreshness_initial_nonneg st rq rs t0 t1 now clk).
  pose proof maxCacheTTL_pos. simpl in *. lia.
Qed.

(** C20: on instants and ages that fit a [Duration], the [int64] code computes exactly the RFC 9111
    §4.2 time to live, the lifetime (s-maxage, else max-age, else Expires minus Date, zero under
    no-cache) minus the corrected initial age, between zero and one year; but for an Age
    with a plus sign and a response that Date says had already expired while the clock of the
    cache does not ([expired_by_date_kept]). *)
Theorem effective_ttl_rfc st rq rs t0 t1 now clk :
  sane_inputs (inputs_of rs) → sane_time t0 → sane_time t1 →
  unsigned_age rs → not_expired_at_date (inputs_of rs) t1 →
  EffectiveTTL (calculateFreshness st rq rs t0 t1 now clk) = rfc_ttl (inputs_of rs) t0 t1.
Proof.
  intros Hi H0 H1 Hu Hn. rewrite calculateFreshness_ttl.
  rewrite (lifetime_rfc st rq rs t0 t1 now clk) by done.
  rewrite (initial_age_rfc rs t0 t1 st rq now clk) by done.
  unfold rfc_ttl. pose proof maxCacheTTL_pos. lia.
Qed.

(** A defect: a response that had expired when it was sent (Expires at or before Date) is fresh for
    the RFC never, but for the code until Expires by the clock of the cache. *)
Theorem expired_by_date_kept st rq rs e d t0 t1 now clk :
  parseDirectives rs = None → header_date rs headerExpires = Some e → header_date rs headerDate = Some d →
  (t1 < e ≤ d)%Z → sane_time t1 → sane_time e →
  FreshnessLifetime (calculateFreshness st rq rs t0 t1 now clk) = (e - t1)%Z ∧
  rfc_lifetime (inputs_of rs) t1 = 0%Z.
Proof.
  intros Hc He Hd Ht H1 Hse. unfold sane_time in *. split.
  - unfold calculateFreshness, freshnessLifetime. rewrite Hc. simpl.
    pose proof He as Hne. unfold header_date in Hne. destruct (is_nil (h_Get rs headerExpires)); [done|]. clear Hne. simpl.
    apply header_date_spec in He as [He Hze], Hd as [Hd Hzd]. unfold parseExpiresLifetime. rewrite He, Hze, Hd. simpl.
    rewrite Hzd. unfold After. simpl. case_if; [lia|]. case_if; [|lia]. rewrite time_Sub_exact; lia.
  - unfold rfc_lifetime, rfc_expires_lifetime. simpl. rewrite Hc, He, Hd. simpl. lia.
Qed.

(** C21: the cacheability decision accepts exactly the responses the storage
    rules allow. *)
Theorem isResponseCacheable_spec st rq rs d clk :
  isResponseCacheable st rq rs d clk = true ↔ may_store st rq rs d clk.
Proof.
  unfold isResponseCacheable, may_store.
  rewrite <- uncacheableStatus_false, <- varyStar_false, <- is_nil_true.
  destruct (uncacheableStatus st), (is_nil (h_Get rs headerSetCookie)), (varyStar rs),
    (Contains _ contentTypeEventStream), (Z.ltb_spec st 200); simpl;
    try (split; [done|intros (?&?&?&?&?&?); (done || lia)]).
  destruct d as [d|].
  - rewrite cacheable_directives_spec. tauto.
  - destruct (hasFutureExpires rs clk), (h_Get rq headerAuthorization); simpl; naive_solver.
Qed.

(** [must-revalidate] and [proxy-revalidate] leave no window in which a
    stale response may be served, and [no-cache] leaves no freshness. *)
Theorem revalidation_directives st rq rs t0 t1 now clk d :
  let f := calculateFreshness st rq rs t0 t1 now clk in
  parseDirectives rs = Some d →
  (MustRevalidate d || ProxyRevalidate d = true →
     StaleWhileRevalidateTTL f = 0%Z ∧ StaleIfErrorTTL f = 0%Z) ∧
  (NoCachePresent d || negb (is_nil (NoCache d)) = true →
     FreshnessLifetime f = 0%Z ∧ EffectiveTTL f = 0%Z).
Proof.
  intros f Hd. subst f. split.
  - intros H. unfold calculateFreshness. rewrite Hd. simpl.
    by destruct (MustRevalidate d), (ProxyRevalidate d).
  - intros H. rewrite calculateFreshness_ttl.
    pose proof (calculateFreshness_initial_nonneg st rq rs t0 t1 now clk).
    pose proof maxCacheTTL_pos.
    enough (FreshnessLifetime (calculateFreshness st rq rs t0 t1 now clk) = 0%Z) as -> by lia.
    unfold calculateFreshness. rewrite Hd. simpl. by rewrite H.
Qed.

(** A Titip-Cache-Control line makes the response's other cache-control
    headers irrelevant (RFC 9213): overwriting Cache-Control or
    CDN-Cache-Control leaves the whole freshness computation's directives
    unchanged. *)
Theorem targeted_header_shadows h x :
  h_Values h headerTitipCacheControl ≠ [] →
  parseDirectives (h_Set h headerCacheControl x) = parseDirectives h ∧
  parseDirectives (h_Set h headerCDNCacheControl x) = parseDirectives h.
Proof.
  intros Hne.
  assert (∀ k, CanonicalHeaderKey k ≠ CanonicalHeaderKey headerTitipCacheControl →
    parseDirectives (h_Set h k x) = parseDirectives h) as H; [|by split; apply H].
  intros k Hk. unfold parseDirectives, extractTieredCacheControl, getHeaderValues.
  rewrite (h_Values_Set_ne _ k headerTitipCacheControl) by done.
  by destruct (h_Values h headerTitipCacheControl).
Qed.

(** A defect: an Age of 9223372037 seconds overflows [int64]
    nanoseconds, becomes negative, and is then ignored by the [max] with the
    apparent age: a response that declares itself 292 years old is given the
    initial age of one without an Age header. *)
Theorem age_overflow_ignored st rq rs t0 t1 now clk :
  h_Get rs headerAge = B "9223372037" → sane_time t0 → sane_time t1 →
  let f := calculateFreshness st rq rs t0 t1 now clk in
  (parseAge (h_Get rs headerAge) < 0)%Z ∧ CorrectedInitialAge f = ApparentAge f.
Proof.
  intros Ha H0 H1. rewrite Ha. unfold sane_time in *.
  assert (parseAge (B "9223372037") = -9223372036709551616)%Z as Hv by (vm_compute; done).
  split; [lia|].
  pose proof (calculateFreshness_initial_nonneg st rq rs t0 t1 now clk) as Hn.
  revert Hn. unfold calculateFreshness. rewrite Ha, Hv.
  destruct (freshnessLifetime _ _ _ _) as [[fl swr] sie]. simpl.
  match goal with |- context [add_dur _ ?d] =>
    assert (0 ≤ d < 2 ^ 61)%Z as Hd
      by (unfold After; case_if; [rewrite time_Sub_exact; lia|lia])
  end.
  unfold add_dur. rewrite wrap64_id by (unfold in_int64; lia). lia.
Qed.
End Freshness.

(** ** A concrete [cacheobject] *)
Definition no_directives : ResponseCacheDirectives :=
  mkRespCC false false [] false false false [] false (-1) (-1) (-1) (-1).

Definition directive_value (tok name : str) : option Z :=
  let '(n, v, found) := Cut tok "=" in
  if found && (n =s name) then ParseUint v 31 else None.

Definition add_directive (d : ResponseCacheDirectives) (tok : str) : ResponseCacheDirectives :=
  let tok := TrimSpace tok in
  let num name dflt := default dflt (directive_value tok (B name)) in
  let flag name b := b || (tok =s B name) in
  mkRespCC (flag "must-revalidate" (MustRevalidate d)) (flag "no-cache" (NoCachePresent d))
    (NoCache d) (flag "no-store" (NoStore d)) (flag "public" (Public d))
    (flag "private" (PrivatePresent d)) (Private d) (flag "proxy-revalidate" (ProxyRevalidate d))
    (num "max-age" (MaxAge d)) (num "s-maxage" (SMaxAge d))
    (num "stale-if-error" (StaleIfError d)) (num "stale-while-revalidate" (StaleWhileRevalidate d)).

Definition demo_parse_response (s : str) : result ResponseCacheDirectives :=
  Ok (foldl add_directive no_directives (SplitSeq s ",")).

Definition demo_parse_request (s : str) : result RequestCacheDirectives :=
  let toks := TrimSpace <$> SplitSeq s "," in
  Ok (mkReqCC (default (-1)%Z (head (omap (λ t, directive_value t (B "max-age")) toks)))
        (bool_decide (B "no-cache" ∈ toks)) (bool_decide (B "no-store" ∈ toks))
        (bool_decide (B "only-if-cached" ∈ toks))).

Lemma directive_value_int32 tok name z :
  in_int32 z → in_int32 (default z (directive_value tok name)).
Proof.
  intros Hz. unfold directive_value. destruct (Cut tok "=") as [[n v] found].
  destruct (found && _); [|done]. unfold ParseUint. destruct (is_nil v); [done|].
  destruct (parse_digits 0 v) as [k|] eqn:Ek; [|done].
  case_if; [|done]. simpl. unfold in_int32. split; [|lia].
  enough (0 ≤ k)%Z by lia. clear -Ek. revert Ek. assert (0 ≤ 0)%Z as H0 by lia. revert H0.
  generalize 0%Z at 2 3. induction v as [|c v IH]; simpl; [naive_solver|].
  intros acc Hacc. destruct (is_digit c); [|done]. apply IH. unfold digit_val. lia.
Qed.

#[export, refine] Instance demo_cacheobject : CacheObject := {|
  ParseResponseCacheControl := demo_parse_response;
  ParseRequestCacheControl := demo_parse_request;
|}.
Proof.
  intros s d [= <-]. assert (delta_ok no_directives) as H0
    by (repeat split; simpl; lia).
  revert H0. generalize no_directives.
  induction (SplitSeq s ",") as [|t ts IH]; simpl; [done|].
  intros d (? & ? & ? & ?). apply IH. repeat split; simpl; by apply directive_value_int32.
Defined.

(** ** Witnesses *)
Definition demo_resp : Header :=
  {[ B "Cache-Control" := [B "public, max-age=60, stale-while-revalidate=30"];
     B "Date" := [B "Sun, 06 Nov 1994 08:49:37 GMT"]; B "Age" := [B "10"] ]}.

Definition demo_t0 : Z := (784111777 * Second)%Z.
Definition demo_t1 : Z := (784111782 * Second)%Z.

Lemma effective_ttl_rfc_witness :
  EffectiveTTL (calculateFreshness 200 ∅ demo_resp demo_t0 demo_t1 demo_t1 demo_t1)
  = (45 * Second)%Z ∧
  EffectiveTTL (calculateFreshness 200 ∅ demo_resp demo_t0 demo_t1 demo_t1 demo_t1)
  = rfc_ttl (inputs_of demo_resp) demo_t0 demo_t1.
Proof.
  split; [vm_compute; reflexivity|].
  apply effective_ttl_rfc; [|vm_compute; split; congruence|vm_compute; split; congruence|vm_compute; congruence|].
  - repeat split; vm_compute; congruence.
  - intros e d H. vm_compute in H. discriminate.
Defined.

Lemma revalidation_directives_witness :
  let rs : Header := {[ B "Cache-Control" := [B "no-cache, must-revalidate, stale-if-error=9"] ]} in
  EffectiveTTL (calculateFreshness 200 ∅ rs demo_t0 demo_t1 demo_t1 demo_t1) = 0%Z ∧
  StaleIfErrorTTL (calculateFreshness 200 ∅ rs demo_t0 demo_t1 demo_t1 demo_t1) = 0%Z.
Proof.
  intros rs.
  destruct (revalidation_directives 200 ∅ rs demo_t0 demo_t1 demo_t1 demo_t1
    (foldl add_directive no_directives
       (SplitSeq (B "no-cache, must-revalidate, stale-if-error=9") ","))) as [H1 H2];
    [vm_compute; reflexivity|].
  split; [apply H2|apply H1]; vm_compute; reflexivity.
Defined.

Lemma targeted_header_shadows_witness :
  let h : Header := {[ B "Titip-Cache-Control" := [B "max-age=5"];
                       B "Cache-Control" := [B "no-store"] ]} in
  parseDirectives (h_Set h headerCacheControl (B "private")) = parseDirectives h.
Proof.
  intros h.
  destruct (targeted_header_shadows h (B "private")) as [H _]; [vm_compute; congruence|].
  exact H.
Defined.

Lemma age_overflow_ignored_witness :
  let rs : Header := {[ B "Cache-Control" := [B "max-age=60"]; B "Age" := [B "9223372037"] ]} in
  CorrectedInitialAge (calculateFreshness 200 ∅ rs demo_t0 demo_t0 demo_t0 demo_t0) = 0%Z.
Proof.
  intros rs.
  destruct (age_overflow_ignored 200 ∅ rs demo_t0 demo_t0 demo_t0 demo_t0) as [_ H];
    [vm_compute; (reflexivity || (split; congruence))..|].
  rewrite H. vm_compute. reflexivity.
Defined.
