(* ===== verification/CacheKey.v ===== *)
(** * Cache keys ([src/cache_key.go])

    The primary key of a request (path, host, scheme, filtered query, method,
    selected headers and cookies) and the variant key of its [Vary] headers.
    Writes to the pooled buffer become concatenation. *)

From S2P Require Import Prelude GoStrings GoHttp Env Headers.

Definition defaultMarketingQueryParams : list str :=
  [B "fbclid"; B "gclid"; B "igshid"; B "mc_cid"; B "mc_eid"; B "msclkid"; B "ttclid"; B "twclid"].

Record CacheKey := mkCacheKey {
  IncludeProtocol : bool;
  ExcludeHost : bool;
  ExcludeQuery : bool;
  PreserveQueryOrder : bool;
  IncludedQueryParams : list str;
  ExcludedQueryParams : list str;
  ExcludeMarketingQueryParams : bool;
  IncludedHeaderNames : list str;
  IncludedCookieNames : list str;
  CaseInsensitivePath : bool;
  IncludedQueryParamValues : gmap str (list str);
}.

(** [CacheKey{}], also used for a nil configuration. *)
Definition zeroCacheKey : CacheKey :=
  mkCacheKey false false false false [] [] false [] [] false ∅.

Definition MethodGet := B "GET".
Definition MethodHead := B "HEAD".

Definition writeEscapedPath (p : str) : str :=
  let trimmed := TrimPrefix p (B "/") in
  if is_nil trimmed then B "/"
  else SplitSeq trimmed "/" ≫= λ part,
         B "/" ++ (if is_nil part then [] else PathEscape part).

Section CacheKey.
Context {E : GoEnv}.

Definition resolveScheme (r : Request) : str :=
  if r_TLS r then B "https"
  else if h_Get (r_Header r) headerXForwardedProto =s B "https" then B "https"
  else match r_URL r with
       | Some u => if u_Scheme u =s B "https" then B "https" else B "http"
       | None => B "http"
       end.

Definition normalizeHost (host scheme : str) : str :=
  let h := ToLower host in
  if scheme =s B "http" then TrimSuffix h (B ":80")
  else if scheme =s B "https" then TrimSuffix h (B ":443")
  else h.

Definition isQueryParamAllowed (k v : str) (cfg : CacheKey) : bool :=
  let hasIncludedParams :=
    negb (is_nil (IncludedQueryParams cfg)) || negb (bool_decide (IncludedQueryParamValues cfg = ∅)) in
  if hasIncludedParams then
    if slices_contains (IncludedQueryParams cfg) k then true
    else match IncludedQueryParamValues cfg !! k with
         | Some allowedVals => slices_contains allowedVals v
         | None => false
         end
  else if slices_contains (ExcludedQueryParams cfg) k then false
  else if ExcludeMarketingQueryParams cfg then
    let lowerK := ToLower k in
    negb (HasPrefix lowerK (B "utm_") || slices_contains defaultMarketingQueryParams lowerK)
  else true.

Definition encode_param (kv : str * str) : str := QueryEscape kv.1 ++ B "=" ++ QueryEscape kv.2.

Definition allowedVals (cfg : CacheKey) (k : str) (vals : list str) : list str :=
  List.filter (λ v, isQueryParamAllowed k v cfg) vals.

Definition buildSortedQueryString (rawQuery : str) (cfg : CacheKey) : str :=
  match ParseQuery rawQuery with
  | None => []
  | Some values =>
      let kept := List.filter (λ kv, negb (is_nil (allowedVals cfg kv.1 kv.2))) (range values) in
      let keys := slices_sort (fst <$> kept) in
      join (B "&") (keys ≫= λ k,
        (λ v, encode_param (k, v)) <$>
          slices_sort (allowedVals cfg k (default [] (values !! k))))
  end.

Definition unsorted_part (cfg : CacheKey) (part : str) : list str :=
  if is_nil part then [] else
  let '(rawKey, rawVal, hasVal) := Cut part "=" in
  let k := default rawKey (QueryUnescape rawKey) in
  let v := if hasVal then default rawVal (QueryUnescape rawVal) else [] in
  if negb (isQueryParamAllowed k v cfg) then [] else [encode_param (k, v)].

Definition buildUnsortedQueryString (rawQuery : str) (cfg : CacheKey) : str :=
  join (B "&") (SplitSeq rawQuery "&" ≫= unsorted_part cfg).

Definition buildQueryString (rawQuery : str) (cfg : CacheKey) : str :=
  if ExcludeQuery cfg then []
  else if PreserveQueryOrder cfg then buildUnsortedQueryString rawQuery cfg
  else buildSortedQueryString rawQuery cfg.

(** The path clean-up shared by key generation and purging. *)
Definition cleanPath (cfg : CacheKey) (rawPath : str) : str :=
  let cleaned := path_Clean rawPath in
  let cleaned :=
    if cleaned =s B "." then B "/"
    else if HasSuffix rawPath (B "/") && negb (HasSuffix cleaned (B "/")) then cleaned ++ B "/"
    else cleaned in
  if CaseInsensitivePath cfg then ToLower cleaned else cleaned.

Definition key_path (r : Request) (cfg : CacheKey) : str :=
  let rawPath := match r_URL r with
                 | Some u => if is_nil (u_Path u) then B "/" else u_Path u
                 | None => B "/" end in
  B "p=" ++ writeEscapedPath (cleanPath cfg rawPath) ++ B ":".

Definition key_host (r : Request) (cfg : CacheKey) : str :=
  if ExcludeHost cfg then [] else
  let host := if is_nil (r_Host r)
              then match r_URL r with Some u => u_Host u | None => [] end else r_Host r in
  if is_nil host then [] else
  let host := normalizeHost host (resolveScheme r) in
  if is_nil host then [] else B "h=" ++ host ++ B ":".

Definition key_scheme (r : Request) (cfg : CacheKey) : str :=
  if IncludeProtocol cfg then B "s=" ++ resolveScheme r ++ B ":" else [].

Definition key_query (r : Request) (cfg : CacheKey) : str :=
  match r_URL r with
  | Some u =>
      if ExcludeQuery cfg || is_nil (u_RawQuery u) then [] else
      let qs := buildQueryString (u_RawQuery u) cfg in
      if is_nil qs then [] else B "qs=" ++ qs ++ B ":"
  | None => []
  end.

Definition key_method (r : Request) : str :=
  let method := r_Method r in
  let method := if (method =s MethodHead) || is_nil method then MethodGet else method in
  B "m=" ++ method ++ B ":".

Definition key_header (r : Request) (h : str) : str :=
  let vals := h_Values (r_Header r) h in
  if is_nil vals then []
  else B "he=" ++ ToLower h ++ B "~"
       ++ join (B ",") ((λ v, QueryEscape (TrimSpace v)) <$> vals) ++ B ":".

Definition key_cookie (r : Request) (name : str) : str :=
  match r_Cookie r name with
  | None => []
  | Some value =>
      if is_nil value then []
      else B "ck=" ++ name ++ B "~" ++ QueryEscape value ++ B ":"
  end.

Definition generatePrimaryKey (r : Request) (cfg : option CacheKey) : str :=
  let cfg := default zeroCacheKey cfg in
  key_path r cfg ++ key_host r cfg ++ key_scheme r cfg ++ key_query r cfg ++ key_method r
  ++ (slices_sort (IncludedHeaderNames cfg) ≫= key_header r)
  ++ (slices_sort (IncludedCookieNames cfg) ≫= key_cookie r).

(** ** Variant keys *)
Definition isSortableVaryHeader (name : str) : bool :=
  slices_contains [B "accept-encoding"; B "accept-language"; B "accept"]
                  (ToLower (TrimSpace name)).

Definition vary_tokens (vals : list str) : list str :=
  vals ≫= λ v, List.filter (λ t, negb (is_nil t)) (TrimSpace <$> SplitSeq v ",").

Definition variant_value (canonicalName : str) (vals : list str) : str :=
  if is_nil vals then []
  else if isSortableVaryHeader canonicalName
  then join (B ",") (slices_sort (vary_tokens vals))
  else join (B ",") (TrimSpace <$> slices_sort vals).

Definition variant_segment (r : Request) (name : str) : list str :=
  let canonicalName := ToLower (TrimSpace name) in
  if is_nil canonicalName then []
  else [canonicalName ++ B "=" ++ variant_value canonicalName (h_Values (r_Header r) canonicalName)].

Definition generateVariantKey (r : Request) (varyHeaderNames : list str) : str :=
  if is_nil varyHeaderNames then []
  else join (B "|") (slices_sort varyHeaderNames ≫= variant_segment r).

(** ** The canonical form of a query

    The reference for [buildSortedQueryString]: the allowed pairs in
    lexicographic order, with no map and no iteration order. *)
Definition pair_leb (a b : str * str) : bool :=
  if a.1 =s b.1 then str_leb a.2 b.2 else str_leb a.1 b.1.
Definition pair_le (a b : str * str) : Prop := pair_leb a b = true.
#[local] Instance pair_le_dec a b : Decision (pair_le a b) := bool_eq_dec _ _.

Definition allowedPairs (cfg : CacheKey) (l : list (str * str)) : list (str * str) :=
  List.filter (λ kv, isQueryParamAllowed kv.1 kv.2 cfg) l.

Definition canonicalPairs (cfg : CacheKey) (l : list (str * str)) : list (str * str) :=
  merge_sort pair_le (allowedPairs cfg l).

(** ** Facts *)
#[local] Instance pair_le_total : Total pair_le.
Proof.
  intros [a1 a2] [b1 b2]. unfold pair_le, pair_leb; simpl.
  destruct (str_eqb a1 b1) eqn:Eq.
  - apply str_eqb_eq in Eq as ->. rewrite str_eqb_refl. apply (total str_le).
  - assert (str_eqb b1 a1 = false) as -> by (apply str_eqb_neq in Eq; by apply str_eqb_neq).
    apply (total str_le).
Qed.

#[local] Instance pair_le_antisymm : AntiSymm eq pair_le.
Proof.
  intros [a1 a2] [b1 b2]. unfold pair_le, pair_leb; simpl.
  destruct (str_eqb a1 b1) eqn:Eq.
  - apply str_eqb_eq in Eq as ->. rewrite str_eqb_refl. intros.
    f_equal. by apply (anti_symm str_le).
  - apply str_eqb_neq in Eq. assert (str_eqb b1 a1 = false) as -> by (by apply str_eqb_neq).
    intros. destruct Eq. by apply (anti_symm str_le).
Qed.

#[local] Instance pair_le_trans : Transitive pair_le.
Proof.
  intros [a1 a2] [b1 b2] [c1 c2]. unfold pair_le, pair_leb; simpl. intros H1 H2.
  destruct (str_eqb a1 b1) eqn:E1; [apply str_eqb_eq in E1 as ->|].
  - destruct (str_eqb b1 c1); [|done]. by apply (transitivity (R := str_le)) with b2.
  - destruct (str_eqb b1 c1) eqn:E2; [apply str_eqb_eq in E2 as ->; by rewrite E1|].
    destruct (str_eqb a1 c1) eqn:E3; [|by apply (transitivity (R := str_le)) with b1].
    apply str_eqb_eq in E3 as ->. apply str_eqb_neq in E1. destruct E1.
    by apply (anti_symm str_le).
Qed.

Lemma canonicalPairs_perm cfg l1 l2 : l1 ≡ₚ l2 → canonicalPairs cfg l1 = canonicalPairs cfg l2.
Proof.
  intros H. apply (Sorted_unique pair_le); [by apply Sorted_merge_sort; apply _..|].
  unfold canonicalPairs. rewrite !merge_sort_Permutation. unfold allowedPairs.
  by apply filter_perm.
Qed.

Lemma allowedVals_values cfg k l :
  allowedVals cfg k (values_of k l) = values_of k (allowedPairs cfg l).
Proof.
  unfold allowedVals, values_of, allowedPairs.
  induction l as [|[k' v] l IH]; csimpl; [done|].
  destruct (str_eqb k' k) eqn:Ek; csimpl.
  - apply str_eqb_eq in Ek as ->. rewrite IH.
    destruct (isQueryParamAllowed k v cfg); csimpl; [|done]. by rewrite str_eqb_refl.
  - rewrite IH. destruct (isQueryParamAllowed k' v cfg); csimpl; [|done]. by rewrite Ek.
Qed.

Lemma values_of_not_in k l : k ∉ l.*1 → values_of k l = [].
Proof.
  unfold values_of. induction l as [|[k' v] l IH]; csimpl; [done|]. intros Hn.
  destruct (str_eqb k' k) eqn:Ek; [apply str_eqb_eq in Ek; set_solver|]. apply IH. set_solver.
Qed.

Lemma values_of_in k l : k ∈ l.*1 → values_of k l ≠ [].
Proof.
  unfold values_of. induction l as [|[k' v] l IH]; csimpl; [set_solver|]. intros Hin.
  destruct (str_eqb k' k) eqn:Ek; [done|]. apply str_eqb_neq in Ek. apply IH. set_solver.
Qed.

Lemma values_of_filter_ne k k' l :
  k' ≠ k → values_of k' (List.filter (λ kv, negb (kv.1 =s k)) l) = values_of k' l.
Proof.
  intros Hne. unfold values_of. induction l as [|[k2 v] l IH]; csimpl; [done|].
  destruct (str_eqb k2 k) eqn:E1; csimpl.
  - apply str_eqb_eq in E1 as ->.
    assert (str_eqb k k' = false) as -> by (by apply str_eqb_neq). done.
  - destruct (str_eqb k2 k'); csimpl; by rewrite IH.
Qed.

Lemma split_by_key k l :
  l ≡ₚ (pair k <$> values_of k l) ++ List.filter (λ kv, negb (kv.1 =s k)) l.
Proof.
  unfold values_of. induction l as [|[k' v] l IH]; csimpl; [done|].
  destruct (str_eqb k' k) eqn:Ek; csimpl.
  - apply str_eqb_eq in Ek as ->. by rewrite <- IH.
  - rewrite <- Permutation_middle. by rewrite <- IH.
Qed.

(** Grouping pairs by a duplicate-free list of their keys permutes them. *)
Lemma group_perm ks l :
  NoDup ks → (∀ k, k ∈ l.*1 → k ∈ ks) →
  (ks ≫= λ k, pair k <$> values_of k l) ≡ₚ l.
Proof.
  revert l. induction ks as [|k ks IH]; intros l Hnd Hin; csimpl.
  - destruct l as [|[k v] l]; [done|]. exfalso. specialize (Hin k). set_solver.
  - apply NoDup_cons in Hnd as [Hk Hnd].
    etrans; [|symmetry; apply (split_by_key k l)]. apply Permutation_app_head.
    etrans; [|apply (IH (List.filter (λ kv, negb (kv.1 =s k)) l)); [done|]].
    + rewrite (bind_ext_in _ (λ k', pair k' <$>
        values_of k' (List.filter (λ kv, negb (kv.1 =s k)) l))); [done|]. intros k' Hk'.
      rewrite values_of_filter_ne; [done|]. set_solver.
    + intros k' Hk'. apply list_elem_of_fmap in Hk' as ([k2 v] & -> & Hk').
      apply list_elem_of_In, filter_In in Hk' as [Hk'%list_elem_of_In Hne].
      simpl in *. apply negb_true_iff, str_eqb_neq in Hne.
      assert (k2 ∈ l.*1) as Hk2 by (apply list_elem_of_fmap; by exists (k2, v)).
      specialize (Hin k2 Hk2). set_solver.
Qed.

Lemma StronglySorted_groups (f : str → list str) ks :
  StronglySorted str_le ks → NoDup ks →
  StronglySorted pair_le (ks ≫= λ k, pair k <$> slices_sort (f k)).
Proof.
  induction 1 as [|k ks Hs IH Hall]; csimpl; intros Hnd; [constructor|].
  apply NoDup_cons in Hnd as [Hk Hnd]. apply StronglySorted_app_2; [| |by apply IH].
  - intros [a1 a2] [b1 b2] Ha Hb. apply list_elem_of_fmap in Ha as (? & [= -> ->] & _).
    apply list_elem_of_bind in Hb as (k' & Hb & Hk').
    apply list_elem_of_fmap in Hb as (? & [= -> ->] & _).
    unfold pair_le, pair_leb; simpl.
    assert (str_eqb k k' = false) as -> by (apply str_eqb_neq; set_solver).
    rewrite Forall_forall in Hall. by apply Hall.
  - assert (StronglySorted str_le (slices_sort (f k))) as H
      by (apply StronglySorted_merge_sort; apply _).
    induction H as [|v vs Hvs IHv Hv]; csimpl; constructor; [done|].
    apply Forall_fmap. eapply Forall_impl; [exact Hv|].
    intros w Hw. unfold pair_le, pair_leb; simpl. by rewrite str_eqb_refl.
Qed.

Lemma kept_keys_spec cfg q l m :
  query_pairs q = Some l → ParseQuery q = Some m →
  let keys := fst <$> List.filter (λ kv, negb (is_nil (allowedVals cfg kv.1 kv.2))) (range m) in
  NoDup keys ∧ ∀ k, k ∈ keys ↔ k ∈ (allowedPairs cfg l).*1.
Proof.
  intros Hl Hm keys. split.
  - subst keys. assert (NoDup (range m).*1) as Hnd
      by (rewrite range_perm; apply NoDup_fst_map_to_list).
    revert Hnd. generalize (range m) as r. induction r as [|[k vs] r IH]; csimpl; [intros _; constructor|].
    intros [Hk Hnd]%NoDup_cons. case_if; csimpl; [|by apply IH].
    apply NoDup_cons; split; [|by apply IH]. intros Hin. apply Hk.
    apply list_elem_of_fmap in Hin as (kv & -> & Hin%list_elem_of_In%filter_In).
    apply list_elem_of_fmap. exists kv. split; [done|]. apply list_elem_of_In, Hin.
  - intros k. subst keys. rewrite list_elem_of_fmap. split.
    + intros ([k' vs] & -> & Hin%list_elem_of_In%filter_In). simpl in *.
      destruct Hin as [Hin%list_elem_of_In Hne%negb_is_nil].
      apply range_elem_of in Hin. rewrite (ParseQuery_lookup q l m) in Hin by done.
      destruct (values_of k' l) as [|v vs'] eqn:Ev; [done|]. injection Hin as <-.
      rewrite <- Ev, allowedVals_values in Hne.
      destruct (decide (k' ∈ (allowedPairs cfg l).*1)); [done|].
      by rewrite values_of_not_in in Hne.
    + intros Hk%values_of_in. rewrite <- allowedVals_values in Hk.
      exists (k, values_of k l). split; [done|]. apply list_elem_of_In, filter_In.
      split; [|by apply negb_is_nil]. apply list_elem_of_In, range_elem_of.
      rewrite (ParseQuery_lookup q l m) by done.
      by destruct (values_of k l).
Qed.

Lemma buildSorted_canonical q l cfg :
  query_pairs q = Some l →
  buildSortedQueryString q cfg = join (B "&") (encode_param <$> canonicalPairs cfg l).
Proof.
  intros Hl. unfold buildSortedQueryString.
  destruct (ParseQuery q) as [m|] eqn:Hm; [|unfold ParseQuery in Hm; by rewrite Hl in Hm].
  destruct (kept_keys_spec cfg q l m Hl Hm) as [Hnd Hk].
  set (keys := fst <$> List.filter _ (range m)) in *.
  f_equal. transitivity (encode_param <$> (slices_sort keys ≫= λ k,
    pair k <$> slices_sort (values_of k (allowedPairs cfg l)))).
  - rewrite fmap_bind_list. apply bind_ext_in. intros k _. simpl.
    rewrite <- list_fmap_compose, <- allowedVals_values.
    rewrite (ParseQuery_lookup q l m k) by done. by destruct (values_of k l).
  - f_equal. apply (StronglySorted_unique pair_le).
    + apply StronglySorted_groups; [apply StronglySorted_merge_sort; apply _|].
      by rewrite slices_sort_perm.
    + apply StronglySorted_merge_sort; apply _.
    + unfold canonicalPairs. rewrite merge_sort_Permutation.
      etrans; [|apply (group_perm (slices_sort keys))].
      * apply bind_perm_pointwise. intros k. by rewrite slices_sort_perm.
      * by rewrite slices_sort_perm.
      * intros k. rewrite elem_of_slices_sort. apply Hk.
Qed.

Lemma encode_param_parts kv :
  "="%char ∉ QueryEscape kv.1 ∧ "&"%char ∉ encode_param kv ∧ encode_param kv ≠ [].
Proof.
  destruct kv as [k v]; unfold encode_param; simpl. split; [by apply QueryEscape_avoids|]. split.
  - pose proof (QueryEscape_avoids k "&" eq_refl). pose proof (QueryEscape_avoids v "&" eq_refl).
    unfold B; simpl. set_solver.
  - intros H. by apply app_nil in H as [_ ?].
Qed.

#[local] Instance encode_param_inj : Inj (=) (=) encode_param.
Proof.
  intros [k1 v1] [k2 v2] H. unfold encode_param in H; simpl in H.
  apply (app_sep_inj "=") in H as [Hk%QueryEscape_inj Hv%QueryEscape_inj];
    [congruence|by apply QueryEscape_avoids..].
Qed.

Lemma join_params_inj l1 l2 :
  join (B "&") (encode_param <$> l1) = join (B "&") (encode_param <$> l2) → l1 = l2.
Proof.
  intros H. eapply (inj (fmap encode_param)).
  apply (join_inj "&"); [..|exact H];
    apply Forall_fmap, Forall_true; intros kv; apply encode_param_parts.
Qed.

Lemma writeEscapedPath_eq t :
  writeEscapedPath ("/"%char :: t) = "/"%char :: join (B "/") (PathEscape <$> SplitSeq t "/").
Proof.
  unfold writeEscapedPath, TrimPrefix. simpl. rewrite drop_0.
  destruct t as [|c t]; [done|]. simpl is_nil. cbv iota.
  pose proof (SplitSeq_not_nil (c :: t) "/") as Hne.
  destruct (SplitSeq (c :: t) "/") as [|w ws]; [done|]. clear Hne. revert w.
  induction ws as [|w' ws IH]; intros w; csimpl.
  - rewrite app_nil_r. by destruct w.
  - specialize (IH w'). csimpl in IH. rewrite IH. by destruct w.
Qed.

Lemma writeEscapedPath_inj t1 t2 :
  writeEscapedPath ("/"%char :: t1) = writeEscapedPath ("/"%char :: t2) → t1 = t2.
Proof.
  rewrite !writeEscapedPath_eq. intros [= H].
  assert (∀ t, Forall (λ w, "/"%char ∉ w) (PathEscape <$> SplitSeq t "/")) as Hw.
  { intros t. apply Forall_fmap, Forall_true. intros w. by apply PathEscape_avoids. }
  assert (∀ t, PathEscape <$> SplitSeq t "/" ≠ []) as Hn.
  { intros t Hf. apply fmap_nil_inv in Hf. by apply SplitSeq_not_nil in Hf. }
  apply (f_equal (λ s, SplitSeq s "/")) in H. change (B "/") with ["/"%char] in H.
  rewrite !SplitSeq_join_words in H by done. apply (inj (fmap PathEscape)) in H.
  by rewrite <- (SplitSeq_join t1 "/"), <- (SplitSeq_join t2 "/"), H.
Qed.

Lemma elem_of_join (c : ascii) sep ws : c ∈ join sep ws → c ∈ sep ∨ ∃ w, w ∈ ws ∧ c ∈ w.
Proof.
  induction ws as [|w [|w' ws] IH]; simpl; [set_solver|set_solver|].
  rewrite !elem_of_app. intros [?|[?|H]]; [set_solver..|]. apply IH in H. set_solver.
Qed.

Lemma writeEscapedPath_elem c p :
  c ∈ writeEscapedPath p → c = "/"%char ∨ ∃ w, w ∈ SplitSeq (TrimPrefix p (B "/")) "/" ∧ c ∈ PathEscape w.
Proof.
  unfold writeEscapedPath. case_if; [unfold B; simpl; set_solver|].
  intros (w & Hc & Hw)%list_elem_of_bind. apply elem_of_app in Hc as [Hc|Hc].
  - left. unfold B in Hc; simpl in Hc. set_solver.
  - right. exists w. split; [done|]. by destruct w.
Qed.

Lemma writeEscapedPath_no_colon p : ":"%char ∉ p → ":"%char ∉ writeEscapedPath p.
Proof.
  intros Hn Hin. apply writeEscapedPath_elem in Hin as [?|(w & Hw & Hc)]; [done|].
  apply PathEscape_keeps_colon in Hc; [done|]. intros Hin. apply Hn.
  assert (":"%char ∈ join ["/"%char] (SplitSeq (TrimPrefix p (B "/")) "/")) as Hj.
  { clear -Hw Hin. induction (SplitSeq _ _) as [|w1 [|w2 ws] IH]; simpl; set_solver. }
  rewrite SplitSeq_join in Hj. unfold TrimPrefix in Hj. case_in Hj; [|done].
  revert Hj. apply subseteq_drop.
Qed.

Lemma joined_params_avoid c l :
  one_of ":*?[]\" c = true → c ∉ join (B "&") (encode_param <$> l).
Proof.
  intros Hm Hc.
  assert (one_of ":=&*,|;?[]\/" c = true ∧ c ≠ "&"%char ∧ c ≠ "="%char) as (Hb & Ha & He).
  { clear -Hm. assert (∀ d, implb (one_of ":*?[]\" d)
      (one_of ":=&*,|;?[]\/" d && negb (byte_eqb d "&") && negb (byte_eqb d "=")) = true) as H
      by (apply ascii_forall; vm_compute; reflexivity).
    specialize (H c). rewrite Hm in H. simpl in H.
    apply andb_true_iff in H as [[? ?%negb_true_iff%byte_eqb_neq]%andb_true_iff
                                 ?%negb_true_iff%byte_eqb_neq]. done. }
  apply elem_of_join in Hc as [Hc|(w & Hw & Hc)]; [by apply list_elem_of_singleton in Hc|].
  apply list_elem_of_fmap in Hw as ([k v] & -> & _). unfold encode_param in Hc; simpl in Hc.
  pose proof (QueryEscape_avoids k c Hb). pose proof (QueryEscape_avoids v c Hb).
  unfold B in Hc; simpl in Hc. set_solver.
Qed.

(** Every query component is a joined list of encoded pairs. *)
Lemma buildQueryString_shape q cfg :
  ∃ l, buildQueryString q cfg = join (B "&") (encode_param <$> l).
Proof.
  unfold buildQueryString. case_if; [by exists []|]. case_if.
  - unfold buildUnsortedQueryString.
    enough (∃ l, SplitSeq q "&" ≫= unsorted_part cfg = encode_param <$> l) as [l ->]
      by (by exists l).
    induction (SplitSeq q "&") as [|w ws [l IH]]; csimpl; [by exists []|].
    rewrite IH. unfold unsorted_part. destruct (is_nil w); [by exists l|].
    destruct (Cut w "=") as [[rk rv] hv]. case_if; [by exists l|]. simpl.
    eexists (_ :: l). by rewrite fmap_cons.
  - destruct (query_pairs q) as [l|] eqn:Hl.
    + eexists. by apply buildSorted_canonical.
    + exists []. unfold buildSortedQueryString, ParseQuery. by rewrite Hl.
Qed.

Lemma query_avoids q cfg c : one_of ":*?[]\" c = true → c ∉ buildQueryString q cfg.
Proof.
  intros Hc. destruct (buildQueryString_shape q cfg) as [l ->]. by apply joined_params_avoid.
Qed.

(** One optional labelled segment of the key: nothing, or the label's first
    byte, a text without colon, and a colon. *)
Definition opt_segment (c : ascii) (o : str) : Prop :=
  o = [] ∨ ∃ x, ":"%char ∉ x ∧ o = c :: x ++ B ":".

Lemma opt_segment_inj c o1 o2 r1 r2 :
  opt_segment c o1 → opt_segment c o2 → head r1 ≠ Some c → head r2 ≠ Some c →
  c ≠ ":"%char → o1 ++ r1 = o2 ++ r2 → o1 = o2 ∧ r1 = r2.
Proof.
  intros [->|(x1 & N1 & ->)] [->|(x2 & N2 & ->)] H1 H2 Hc; simpl.
  - done.
  - intros ->. done.
  - intros <-. done.
  - intros [= H]. rewrite <- !app_assoc in H.
    apply (app_sep_inj ":") in H as [-> ->]; done.
Qed.

Lemma seg_host r cfg :
  ":"%char ∉ normalizeHost (if is_nil (r_Host r)
              then match r_URL r with Some u => u_Host u | None => [] end else r_Host r)
              (resolveScheme r) →
  opt_segment "h" (key_host r cfg).
Proof.
  intros Hn. unfold key_host. destruct (ExcludeHost cfg); [by left|].
  set (host := if is_nil (r_Host r) then _ else _) in *.
  destruct (is_nil host); [by left|]. destruct (is_nil (normalizeHost _ _)); [by left|].
  right. eexists ("="%char :: normalizeHost host (resolveScheme r)). split; [set_solver|done].
Qed.

Lemma seg_scheme r cfg : opt_segment "s" (key_scheme r cfg).
Proof.
  unfold key_scheme. destruct (IncludeProtocol cfg); [|by left]. right.
  exists ("="%char :: resolveScheme r). split; [|done].
  unfold resolveScheme. repeat case_match; unfold B; simpl; set_solver.
Qed.

Lemma seg_query r cfg : opt_segment "q" (key_query r cfg).
Proof.
  unfold key_query. destruct (r_URL r) as [u|]; [|by left].
  destruct (ExcludeQuery cfg || _); [by left|].
  pose proof (query_avoids (u_RawQuery u) cfg ":" eq_refl) as Hn.
  destruct (is_nil _); [by left|]. right.
  exists ("s"%char :: "="%char :: buildQueryString (u_RawQuery u) cfg).
  split; [set_solver|done].
Qed.

Lemma head_opt_segment c o r d :
  opt_segment c o → c ≠ d → head r ≠ Some d → head (o ++ r) ≠ Some d.
Proof. intros [->|(x & _ & ->)]; simpl; [done|]. congruence. Qed.

(** Side conditions of [opt_segment_inj]: the shape of each segment, and that
    what follows it starts with another label. *)
Ltac solve_segment :=
  first
    [ done | apply seg_scheme | apply seg_query | by apply seg_host
    | repeat first
        [ apply (head_opt_segment "s"); [apply seg_scheme|done|]
        | apply (head_opt_segment "q"); [apply seg_query|done|] ];
      simpl; congruence ].

(** The host whose normal form enters the key. *)
Definition effective_host (r : Request) : str :=
  if is_nil (r_Host r) then match r_URL r with Some u => u_Host u | None => [] end else r_Host r.

Definition raw_path (r : Request) : str :=
  match r_URL r with Some u => if is_nil (u_Path u) then B "/" else u_Path u | None => B "/" end.

(** No colon in the path or in the normalised host. *)
Definition colon_free (r : Request) (cfg : CacheKey) : Prop :=
  ":"%char ∉ cleanPath cfg (raw_path r) ∧
  ":"%char ∉ normalizeHost (effective_host r) (resolveScheme r).

Definition with_query (r : Request) (q : str) : Request :=
  mkRequest (r_Method r)
    ((λ u, mkURL (u_Scheme u) (u_Host u) (u_Path u) q) <$> r_URL r) (r_Host r) (r_Header r) (r_TLS r).

(** Congruence of one variant segment: what the code reads of a header. *)
Definition same_negotiation (r1 r2 : Request) (name : str) : Prop :=
  let cn := ToLower (TrimSpace name) in
  let v1 := h_Values (r_Header r1) cn in let v2 := h_Values (r_Header r2) cn in
  v1 ≡ₚ v2 ∨ (isSortableVaryHeader cn = true ∧ v1 ≠ [] ∧ v2 ≠ [] ∧ vary_tokens v1 ≡ₚ vary_tokens v2).

Lemma variant_segment_congr r1 r2 name :
  same_negotiation r1 r2 name → variant_segment r1 name = variant_segment r2 name.
Proof.
  unfold same_negotiation, variant_segment, variant_value. simpl.
  set (cn := ToLower (TrimSpace name)).
  destruct (is_nil cn); [done|]. intros H. do 3 f_equal.
  destruct H as [Hp|(Hs & N1 & N2 & Hp)].
  - assert (is_nil (h_Values (r_Header r1) cn) = is_nil (h_Values (r_Header r2) cn)) as ->.
    { destruct (h_Values (r_Header r1) cn), (h_Values (r_Header r2) cn); try done.
      - by apply Permutation_nil_cons in Hp.
      - symmetry in Hp. by apply Permutation_nil_cons in Hp. }
    case_if; [done|]. rewrite (slices_sort_proper _ _ Hp).
    rewrite (slices_sort_proper (vary_tokens _) (vary_tokens (h_Values (r_Header r2) cn))); [done|].
    unfold vary_tokens. by rewrite Hp.
  - rewrite Hs. destruct (h_Values (r_Header r1) cn) as [|a l] eqn:E1; [done|].
    destruct (h_Values (r_Header r2) cn) as [|b m] eqn:E2; [done|].
    simpl is_nil. cbv iota. by rewrite (slices_sort_proper _ _ Hp).
Qed.

(** ** Properties *)

(** The query component is canonical.  For well-formed queries it is the
    percent-encoding of the allowed parameters in lexicographic order (so it
    depends neither on the order of the map iteration nor on the order in the
    URL), and two queries get the same component exactly when their allowed
    decoded parameters are the same multiset. *)
Theorem query_key_canonical q1 q2 l1 l2 cfg :
  query_pairs q1 = Some l1 → query_pairs q2 = Some l2 →
  buildSortedQueryString q1 cfg = join (B "&") (encode_param <$> canonicalPairs cfg l1) ∧
  (buildSortedQueryString q1 cfg = buildSortedQueryString q2 cfg ↔
   allowedPairs cfg l1 ≡ₚ allowedPairs cfg l2).
Proof.
  intros H1 H2. rewrite (buildSorted_canonical q1 l1), (buildSorted_canonical q2 l2) by done.
  split; [done|]. split.
  - intros H%join_params_inj.
    rewrite <- (merge_sort_Permutation pair_le (allowedPairs cfg l1)).
    rewrite <- (merge_sort_Permutation pair_le (allowedPairs cfg l2)).
    unfold canonicalPairs in H. by rewrite H.
  - intros H. do 2 f_equal. apply (Sorted_unique pair_le); [by apply Sorted_merge_sort; apply _..|].
    unfold canonicalPairs. by rewrite !merge_sort_Permutation.
Qed.

(** C36: without header and cookie dimensions, and away from colons in the
    path and in the normalised host, the primary key separates requests: equal
    keys mean the same clean path, host, scheme, query component and method. *)
Theorem primary_key_separates r1 r2 cfg t1 t2 :
  IncludedHeaderNames cfg = [] → IncludedCookieNames cfg = [] →
  colon_free r1 cfg → colon_free r2 cfg →
  cleanPath cfg (raw_path r1) = "/"%char :: t1 → cleanPath cfg (raw_path r2) = "/"%char :: t2 →
  generatePrimaryKey r1 (Some cfg) = generatePrimaryKey r2 (Some cfg) →
  t1 = t2 ∧ key_host r1 cfg = key_host r2 cfg ∧ key_scheme r1 cfg = key_scheme r2 cfg ∧
  key_query r1 cfg = key_query r2 cfg ∧ key_method r1 = key_method r2.
Proof.
  intros Hh Hc [P1 N1] [P2 N2] E1 E2. unfold generatePrimaryKey. simpl. rewrite Hh, Hc. csimpl.
  unfold key_path. fold (raw_path r1) (raw_path r2). rewrite E1, E2 in *.
  rewrite <- !app_assoc, !app_nil_r. intros [= H].
  apply (app_sep_inj ":") in H as [Hp H]; [|by apply writeEscapedPath_no_colon..].
  apply (opt_segment_inj "h") in H as [-> H]; [|solve_segment..].
  apply (opt_segment_inj "s") in H as [-> H]; [|solve_segment..].
  apply (opt_segment_inj "q") in H as [-> Hm]; [|solve_segment..].
  apply writeEscapedPath_inj in Hp as ->. do 4 (split; [done|]). exact Hm.
Qed.

(** The method enters the key through its normal form only: two
    requests that differ in the method share their key exactly when both are
    GET, HEAD or unset (so a HEAD is answered from the entry a GET stored), or
    the methods are equal. *)
Theorem method_key_iff r cfg m1 m2 :
  generatePrimaryKey (req_with_method r m1) cfg = generatePrimaryKey (req_with_method r m2) cfg ↔
  (m1 = m2 ∨ (m1 ∈ [MethodGet; MethodHead; []] ∧ m2 ∈ [MethodGet; MethodHead; []])).
Proof.
  set (norm m := if (m =s MethodHead) || is_nil m then MethodGet else m).
  transitivity (norm m1 = norm m2).
  - set (c := default zeroCacheKey cfg).
    assert (∀ m, generatePrimaryKey (req_with_method r m) cfg
      = (key_path r c ++ key_host r c ++ key_scheme r c ++ key_query r c)
        ++ (B "m=" ++ norm m ++ B ":")
        ++ (slices_sort (IncludedHeaderNames c) ≫= key_header r)
        ++ (slices_sort (IncludedCookieNames c) ≫= key_cookie r)) as Hk
      by (intros m; unfold generatePrimaryKey, key_method; rewrite <- !app_assoc; reflexivity).
    rewrite !Hk. split; [|by intros ->].
    intros H%app_inv_head%app_inv_tail%app_inv_head%app_inv_tail. exact H.
  - assert (∀ m, (m ∈ [MethodGet; MethodHead; []] ∧ norm m = MethodGet)
                 ∨ (m ∉ [MethodGet; MethodHead; []] ∧ norm m = m)) as Hn.
    { intros m. subst norm. simpl. destruct (str_eqb m MethodHead) eqn:Eh; simpl.
      - apply str_eqb_eq in Eh as ->. left. split; [by right; left|done].
      - apply str_eqb_neq in Eh. destruct m as [|x m']; simpl; [left; split; [by do 2 right; left|done]|].
        destruct (decide (x :: m' = MethodGet)) as [->|Hg]; [left; split; [by left|done]|].
        right. split; [|done]. by rewrite !elem_of_cons, elem_of_nil; intros [?|[?|[?|[]]]]. }
    destruct (Hn m1) as [[? ->]|[? ->]], (Hn m2) as [[? ->]|[? ->]]; try tauto.
    + split; [by intros <-; exfalso; destruct H0; left|]. intros [->|[_ ?]]; done.
    + split; [by intros ->; exfalso; destruct H; left|]. intros [->|[? _]]; done.
Qed.

(** No byte that the pattern language of a purge gives a meaning to
    (star, question mark, brackets, backslash) survives in the path or in the
    query component, and the query component has no colon. *)
Theorem key_has_no_glob p q cfg c :
  one_of "*?[]\" c = true →
  c ∉ writeEscapedPath p ∧ c ∉ buildQueryString q cfg ∧ ":"%char ∉ buildQueryString q cfg.
Proof.
  intros Hc. split; [|split; [|by apply query_avoids]].
  - intros [->|(w & _ & Hw)]%writeEscapedPath_elem; [done|].
    apply PathEscape_avoids in Hw; [done|]. revert Hc. clear. revert c.
    assert (∀ c, implb (one_of "*?[]\" c) (one_of "*?[]\/;," c) = true) as H
      by (apply ascii_forall; vm_compute; reflexivity).
    intros c Hc. specialize (H c). by rewrite Hc in H.
  - apply query_avoids. revert Hc. revert c.
    assert (∀ c, implb (one_of "*?[]\" c) (one_of ":*?[]\" c) = true) as H
      by (apply ascii_forall; vm_compute; reflexivity).
    intros c Hc. specialize (H c). by rewrite Hc in H.
Qed.

(** A defect: one malformed part of the query (a bad escape or a
    semicolon) removes the whole query from the key, so the request shares the
    cache entry of the bare path. *)
Theorem malformed_query_shares_bare_key r u cfg :
  r_URL r = Some u → query_pairs (u_RawQuery u) = None → PreserveQueryOrder cfg = false →
  generatePrimaryKey r (Some cfg) = generatePrimaryKey (with_query r []) (Some cfg).
Proof.
  intros Hu Hq Hp. unfold generatePrimaryKey. simpl.
  assert (key_query r cfg = []) as Hk.
  { unfold key_query, buildQueryString, buildSortedQueryString, ParseQuery.
    rewrite Hu, Hq, Hp. simpl. by destruct (ExcludeQuery cfg || _), (ExcludeQuery cfg). }
  assert (key_query (with_query r []) cfg = []) as Hk'.
  { unfold key_query, with_query. rewrite Hu. simpl. by rewrite orb_true_r. }
  rewrite Hk, Hk'. unfold key_path, key_host, key_scheme, resolveScheme. simpl.
  rewrite Hu. done.
Qed.

(** The variant key depends only on the negotiation headers: not on the
    order of the names in [Vary], nor on the order of header lines, nor (for
    Accept, Accept-Encoding and Accept-Language) on how the tokens are spread
    over lines, ordered and spaced. *)
Theorem variant_key_canonical r1 r2 names1 names2 :
  names1 ≡ₚ names2 → (∀ n, n ∈ names1 → same_negotiation r1 r2 n) →
  generateVariantKey r1 names1 = generateVariantKey r2 names2.
Proof.
  intros Hp Hs. unfold generateVariantKey. rewrite <- (slices_sort_proper _ _ Hp).
  assert (is_nil names1 = is_nil names2) as ->.
  { destruct names1, names2; try done; [by apply Permutation_nil_cons in Hp|].
    symmetry in Hp. by apply Permutation_nil_cons in Hp. }
  case_if; [done|]. f_equal. apply bind_ext_in. intros n Hn.
  apply variant_segment_congr, Hs. by apply elem_of_slices_sort.
Qed.

(** Away from the bar that separates the segments, the variant key
    separates negotiations: equal keys mean equal normalised values of every
    header named in [Vary]. *)
Theorem variant_key_separates r1 r2 names :
  (∀ n, n ∈ names → let cn := ToLower (TrimSpace n) in cn ≠ [] ∧ "|"%char ∉ cn ∧
     "|"%char ∉ variant_value cn (h_Values (r_Header r1) cn) ∧
     "|"%char ∉ variant_value cn (h_Values (r_Header r2) cn)) →
  generateVariantKey r1 names = generateVariantKey r2 names →
  ∀ n, n ∈ names → let cn := ToLower (TrimSpace n) in
    variant_value cn (h_Values (r_Header r1) cn) = variant_value cn (h_Values (r_Header r2) cn).
Proof.
  intros Hok Hk n Hn. destruct (is_nil names) eqn:Enil; [apply is_nil_true in Enil; set_solver|].
  unfold generateVariantKey in Hk. rewrite Enil in Hk.
  assert (∀ r, (r = r1 ∨ r = r2) → ∀ ns, (∀ x, x ∈ ns → x ∈ names) →
    (ns ≫= variant_segment r) = (λ x, ToLower (TrimSpace x) ++ B "=" ++
       variant_value (ToLower (TrimSpace x)) (h_Values (r_Header r) (ToLower (TrimSpace x)))) <$> ns)
    as Hseg.
  { intros r _ ns. induction ns as [|x ns IH]; csimpl; [done|]. intros Hin.
    rewrite IH by set_solver. unfold variant_segment.
    destruct (Hok x) as [Hne _]; [set_solver|]. apply is_nil_false in Hne. by rewrite Hne. }
  assert (∀ x, x ∈ slices_sort names → x ∈ names) as Hin by (intros x; apply elem_of_slices_sort).
  rewrite !Hseg in Hk by (auto || done). apply (join_inj "|") in Hk.
  - assert (n ∈ slices_sort names) as Hn' by (by apply elem_of_slices_sort).
    apply list_elem_of_lookup in Hn' as [i Hi].
    apply (f_equal (lookup i)) in Hk. rewrite !list_lookup_fmap, Hi in Hk. simpl in Hk.
    injection Hk as Hk. by apply app_inv_head in Hk; injection Hk.
  - apply Forall_fmap, Forall_forall. intros x (_ & ? & ? & _)%Hin%Hok. unfold B; simpl. set_solver.
  - apply Forall_fmap, Forall_forall. intros x (_ & ? & _ & ?)%Hin%Hok. unfold B; simpl. set_solver.
  - apply Forall_fmap, Forall_forall. intros x (? & _)%Hin%Hok. intros []%app_eq_nil; done.
  - apply Forall_fmap, Forall_forall. intros x (? & _)%Hin%Hok. intros []%app_eq_nil; done.
Qed.
End CacheKey.

(** ** Witnesses and counterexamples *)
Definition demo_get (path host query : string) : Request :=
  mkRequest MethodGet (Some (mkURL [] [] (B path) (B query))) (B host) ∅ false.

Lemma query_key_canonical_witness :
  buildSortedQueryString (B "b=2&a=%31&a=0") zeroCacheKey
  = buildSortedQueryString (B "a=0&b=2&&a=1") zeroCacheKey ∧
  buildSortedQueryString (B "b=2&a=%31&a=0") zeroCacheKey = B "a=0&a=1&b=2".
Proof.
  split; [|vm_compute; reflexivity].
  destruct (query_key_canonical (B "b=2&a=%31&a=0") (B "a=0&b=2&&a=1")
    [(B "b", B "2"); (B "a", B "1"); (B "a", B "0")]
    [(B "a", B "0"); (B "b", B "2"); (B "a", B "1")] zeroCacheKey) as [_ H];
    [vm_compute; reflexivity..|].
  apply H. apply (bool_decide_unpack _). vm_compute. exact I.
Defined.

Lemma primary_key_separates_witness :
  generatePrimaryKey (demo_get "/a//b" "Ex.com" "x=1") (Some zeroCacheKey)
  = generatePrimaryKey (demo_get "/a/b" "ex.com:80" "x=1") (Some zeroCacheKey) ∧
  key_host (demo_get "/a//b" "Ex.com" "x=1") zeroCacheKey
  = key_host (demo_get "/a/b" "ex.com:80" "x=1") zeroCacheKey.
Proof.
  assert (generatePrimaryKey (demo_get "/a//b" "Ex.com" "x=1") (Some zeroCacheKey)
    = generatePrimaryKey (demo_get "/a/b" "ex.com:80" "x=1") (Some zeroCacheKey)) as H
    by (vm_compute; reflexivity).
  split; [exact H|].
  destruct (primary_key_separates (demo_get "/a//b" "Ex.com" "x=1")
    (demo_get "/a/b" "ex.com:80" "x=1") zeroCacheKey (B "a/b") (B "a/b")) as (_ & Hh & _);
    [reflexivity|reflexivity| | |vm_compute; reflexivity|vm_compute; reflexivity|exact H|exact Hh];
    split; apply (bool_decide_unpack _); vm_compute; exact I.
Defined.

Lemma key_has_no_glob_witness :
  "*"%char ∉ writeEscapedPath (B "/img/*.png") ∧
  writeEscapedPath (B "/img/*.png") = B "/img/%2A.png".
Proof.
  split; [|vm_compute; reflexivity].
  destruct (key_has_no_glob (B "/img/*.png") (B "q=*") zeroCacheKey "*") as [H _];
    [vm_compute; reflexivity|exact H].
Defined.

Lemma malformed_query_witness :
  generatePrimaryKey (demo_get "/s" "ex.com" "q=1;x") (Some zeroCacheKey)
  = generatePrimaryKey (demo_get "/s" "ex.com" "") (Some zeroCacheKey).
Proof.
  exact (malformed_query_shares_bare_key (demo_get "/s" "ex.com" "q=1;x")
    (mkURL [] [] (B "/s") (B "q=1;x")) zeroCacheKey eq_refl eq_refl eq_refl).
Defined.

Definition demo_hdr (k v : string) : Request :=
  mkRequest MethodGet None [] {[ B k := [B v] ]} false.

Lemma variant_key_canonical_witness :
  generateVariantKey (demo_hdr "Accept" "b, a") [B "Accept"]
  = generateVariantKey (demo_hdr "Accept" "a,b") [B "Accept"].
Proof.
  apply (variant_key_canonical (demo_hdr "Accept" "b, a") (demo_hdr "Accept" "a,b")); [done|].
  intros n ->%list_elem_of_singleton. right.
  split; [vm_compute; reflexivity|]. split; [vm_compute; congruence|].
  split; [vm_compute; congruence|].
  apply (bool_decide_unpack _). vm_compute. exact I.
Defined.

Lemma variant_key_separates_witness :
  variant_value (B "x-a") (h_Values (r_Header (demo_hdr "X-A" "1 ")) (B "x-a"))
  = variant_value (B "x-a") (h_Values (r_Header (demo_hdr "X-A" " 1")) (B "x-a")).
Proof.
  refine (variant_key_separates (demo_hdr "X-A" "1 ") (demo_hdr "X-A" " 1") [B "X-A"] _ _ (B "X-A") _).
  - intros n ->%list_elem_of_singleton. cbv zeta.
    split; [vm_compute; congruence|].
    split; [|split]; apply (bool_decide_unpack _); vm_compute; exact I.
  - vm_compute. reflexivity.
  - by apply list_elem_of_singleton.
Defined.

(** A divergence: the colon is not percent-encoded in paths and hosts
    are written raw, so the claim that segment boundaries are strict fails:
    requests for different paths on different hosts share a key. *)
Theorem primary_key_collision :
  let r1 := demo_get "/a:h=x" "y" "" in let r2 := demo_get "/a" "x:h=y" "" in
  generatePrimaryKey r1 (Some zeroCacheKey) = generatePrimaryKey r2 (Some zeroCacheKey) ∧
  key_path r1 zeroCacheKey ≠ key_path r2 zeroCacheKey ∧
  key_host r1 zeroCacheKey ≠ key_host r2 zeroCacheKey.
Proof. vm_compute. repeat split; congruence. Qed.

(** A defect: the bar and the equals sign are not encoded in variant
    keys, so two clients that negotiate differently can share a variant. *)
Theorem variant_key_collision :
  let req a b := mkRequest MethodGet None [] {[ B "X-A" := [B a]; B "X-B" := [B b] ]} false in
  let r1 := req "1|x-b=2" "3" in let r2 := req "1" "2|x-b=3" in
  generateVariantKey r1 [B "X-A"; B "X-B"] = generateVariantKey r2 [B "X-A"; B "X-B"] ∧
  variant_value (B "x-a") (h_Values (r_Header r1) (B "x-a"))
  ≠ variant_value (B "x-a") (h_Values (r_Header r2) (B "x-a")).
Proof. vm_compute. split; congruence. Qed.
