(* ===== verification/Storage.v ===== *)
(** * Cached objects and the storage interface

    The protobuf messages of [src/proto/titip.proto] (generated into
    [src/proto/titip.pb.go]) as records, and the interface of
    [src/storage/storage.go] as a class: its operations on an abstract state,
    and the laws that the middleware's theorems use.  A message pointer that may be
    [nil] is an [option]; a storage call that dereferences [nil] panics. *)

From S2P Require Import Prelude GoStrings GoHttp.

(** ** Messages *)
Record EsiFragment := mkEsiFragment {
  StartPos : Z;
  EndPos : Z;
  Src : str;
  Alt : str;
  OnError : str;
  MaxDepth : Z;
  TimeoutMs : Z;
  InnerStartPos : Z;
  InnerEndPos : Z;
}.

(** [HeaderValues] wraps a list of values; [map<string, HeaderValues>] is
    [Header]. *)
Record VariantInfo := mkVariantInfo {
  VariantKey : str;
  VaryHeaders : gmap str str;
  StatusCode : Z;
  ResponseHeaders : Header;
  Etag : str;
  LastModifiedUnixNano : Z;
  RawBodySize : Z;
  EsiFragments : list EsiFragment;
  StorageCompression : str;
}.

Record CacheMetadata := mkCacheMetadata {
  PrimaryKey : str;
  VaryHeaderNames : list str;
  Variants : gmap str VariantInfo;
  CreatedAtUnixNano : Z;
  ExpiresAtUnixNano : Z;
  StaleUntilUnixNano : Z;
  CorrectedInitialAgeSeconds : Z;
  Tags : list str;
}.

Definition with_variants (m : CacheMetadata) (vs : gmap str VariantInfo) : CacheMetadata :=
  mkCacheMetadata (PrimaryKey m) (VaryHeaderNames m) vs (CreatedAtUnixNano m)
    (ExpiresAtUnixNano m) (StaleUntilUnixNano m) (CorrectedInitialAgeSeconds m) (Tags m).

Definition with_variant_key (v : VariantInfo) (k : str) : VariantInfo :=
  mkVariantInfo k (VaryHeaders v) (StatusCode v) (ResponseHeaders v) (Etag v)
    (LastModifiedUnixNano v) (RawBodySize v) (EsiFragments v) (StorageCompression v).

(** The storage name of a variant: the empty key is stored as "default". *)
Definition variant_name (k : str) : str := if is_nil k then B "default" else k.

(** ** Outcomes of a Go call: a value, an error, or a panic *)
Inductive outcome (A : Type) :=
  | Ret (a : A)
  | Fail (err : str)
  | Panicked.
Arguments Ret {A} a.
Arguments Fail {A} err.
Arguments Panicked {A}.

(** ** The interface

    Every operation takes the time of the call.  [GetMeta] returns the metadata
    and the soft-purge flag, [GetVariant] the variant and its compressed body;
    [None] is Go's [(nil, ..., nil)].  The laws of [StorageLaws] are what a client may
    rely on: a [storable] entry can be written, and is then there, not soft-purged,
    with the metadata and the variant written, for the [lifetime] that the store
    makes of its time to live. *)
Class Storage (S : Type) := {
  GetMeta : S → Z → str → outcome (option (CacheMetadata * bool));
  GetVariant : S → Z → str → str → outcome (option (VariantInfo * str));
  SetVariant : S → Z → str → CacheMetadata → VariantInfo → str → Z → S * outcome unit;
  Purge : S → Z → str → bool → S * outcome Z;
  PurgeByPattern : S → Z → str → bool → S * outcome Z;
  PurgeByTag : S → Z → str → bool → S * outcome Z;
  PurgeAll : S → Z → S * outcome Z;
}.

(** An entry written at [t0] and kept for [l] is still there at [now]. *)
Definition live (t0 l now : Z) : Prop := (0 < l ∧ now < t0 + l)%Z.

(** What the metadata read back says of the metadata written: everything but
    the variant registry, which the store recomputes. *)
Definition meta_agrees (m m' : CacheMetadata) : Prop :=
  with_variants m ∅ = with_variants m' ∅.

(** A purge of the keys in [P] at time [t] brings no entry back, and removes
    those entries from then on, unless it is soft. *)
Definition purged {S} {St : Storage S} (t : Z) (s s' : S) (P : str → bool) (soft : bool) : Prop :=
  ∀ ts k, GetMeta s ts k = Ret None ∨ (soft = false ∧ P k = true ∧ (t ≤ ts)%Z) → GetMeta s' ts k = Ret None.

Class StorageLaws (S : Type) {St : Storage S} := {
  usable : S → Prop;
  pattern_matches : str → str → bool;
  storable : CacheMetadata → VariantInfo → Prop;
  lifetime : Z → Z;
  get_meta_total : ∀ s ts k, usable s → ∃ x, GetMeta s ts k = Ret x;
  get_variant_total : ∀ s ts k vk, usable s → ∃ x, GetVariant s ts k vk = Ret x;
  purge_law : ∀ s ts k soft, usable s →
    usable (Purge s ts k soft).1 ∧ (∃ n, (Purge s ts k soft).2 = Ret n) ∧
    purged ts s (Purge s ts k soft).1 (λ k', k' =s k) soft;
  pattern_law : ∀ s ts p soft, usable s →
    usable (PurgeByPattern s ts p soft).1 ∧ (∃ n, (PurgeByPattern s ts p soft).2 = Ret n) ∧
    purged ts s (PurgeByPattern s ts p soft).1 (pattern_matches p) soft;
  set_usable : ∀ s now k m v b ttl,
    usable s → usable (SetVariant s now k m v b ttl).1 ∧
               (SetVariant s now k m v b ttl).2 ≠ Panicked;
  set_stores : ∀ s now k m v b ttl,
    usable s → storable m v → (SetVariant s now k m v b ttl).2 = Ret tt;
  set_get_meta : ∀ s t0 k m v b ttl now,
    usable s → storable m v → live t0 (lifetime ttl) now →
    ∃ m', GetMeta (SetVariant s t0 k m v b ttl).1 now k = Ret (Some (m', false)) ∧
          meta_agrees m m' ∧
          Variants m' !! variant_name (VariantKey v)
          = Some (with_variant_key v (variant_name (VariantKey v)));
  set_get_variant : ∀ s t0 k m v b ttl now,
    usable s → storable m v → live t0 (lifetime ttl) now →
    GetVariant (SetVariant s t0 k m v b ttl).1 now k (VariantKey v)
    = Ret (Some (with_variant_key v (variant_name (VariantKey v)), b));
}.

(** What a store promises about a property [Q] of variants that renaming
    keeps: if it holds of all variants of the store, it holds of all that are
    read, and writing variants that have it keeps it. *)
Class StorageInv (S : Type) {St : Storage S} := {
  all_variants : (VariantInfo → Prop) → S → Prop;
  inv_get : ∀ Q s ts k m b vk v, all_variants Q s → GetMeta s ts k = Ret (Some (m, b)) →
    Variants m !! vk = Some v → Q v;
  inv_set : ∀ Q s ts k m v b ttl,
    (∀ v k, Q v → Q (with_variant_key v k)) → all_variants Q s → Q v →
    (∀ vk v, Variants m !! vk = Some v → Q v) → all_variants Q (SetVariant s ts k m v b ttl).1;
  inv_purge : ∀ Q s ts k soft, all_variants Q s → all_variants Q (Purge s ts k soft).1;
  inv_pattern : ∀ Q s ts p soft, all_variants Q s → all_variants Q (PurgeByPattern s ts p soft).1;
  inv_tag : ∀ Q s ts tag soft, all_variants Q s → all_variants Q (PurgeByTag s ts tag soft).1;
  inv_all : ∀ Q s ts, all_variants Q s → all_variants Q (PurgeAll s ts).1;
}.

(** Every store has the trivial invariants. *)
#[export] Instance trivial_inv {S} {St : Storage S} : StorageInv S | 100 := {|
  all_variants := λ Q _, ∀ v, Q v;
  inv_get := λ Q s ts k m b vk v H _ _, H v;
  inv_set := λ Q s ts k m v b ttl _ H _ _, H;
  inv_purge := λ Q s ts k soft H, H;
  inv_pattern := λ Q s ts p soft H, H;
  inv_tag := λ Q s ts tag soft H, H;
  inv_all := λ Q s ts H, H;
|}.
