(* ===== verification/TestStore.v ===== *)
(** * The in-memory store ([src/internal/teststore/store.go])

    The reference implementation of the storage interface: metadata, variants
    and a tag index, with soft and hard purges.  Values are cloned on the way
    in and out (the default mode), so records are passed by value.  In
    zero-copy mode, meant for benchmarks, the code shares the pointers instead:
    the writes to the store are modelled, the later changes that a caller
    could make through a shared pointer are not.  The mutex makes each operation
    one step; [time.Now()] is an argument. *)

From S2P Require Import Prelude GoStrings GoHttp Env Storage.

(** ** Glob patterns *)

(** Decoding one rune ([utf8.DecodeRuneInString]): its value and width; an
    invalid sequence is U+FFFD of width one.  The lead byte fixes the width and
    the range of the second byte. *)
Definition runeError : N := 65533.

Definition utf8_lead (b : N) : option (nat * N * N) :=
  (if b <? 194 then None
   else if b <? 224 then Some (2%nat, 128, 191)
   else if b =? 224 then Some (3%nat, 160, 191)
   else if b =? 237 then Some (3%nat, 128, 159)
   else if b <? 240 then Some (3%nat, 128, 191)
   else if b =? 240 then Some (4%nat, 144, 191)
   else if b <? 244 then Some (4%nat, 128, 191)
   else if b =? 244 then Some (4%nat, 128, 143)
   else None)%N.

Definition in_bytes (lo hi : N) (c : ascii) : bool :=
  ((lo <=? byte_val c) && (byte_val c <=? hi))%N.
Definition low6 (c : ascii) : N := N.land (byte_val c) 63.

Definition decode_rune (c : ascii) (s : str) : N * nat :=
  let b := byte_val c in
  if (b <? 128)%N then (b, 1%nat) else
  match utf8_lead b with
  | None => (runeError, 1%nat)
  | Some (n, lo, hi) =>
      match n, s with
      | 2%nat, c1 :: _ =>
          if in_bytes lo hi c1 then (N.lor (N.shiftl (N.land b 31) 6) (low6 c1), 2%nat)
          else (runeError, 1%nat)
      | 3%nat, c1 :: c2 :: _ =>
          if in_bytes lo hi c1 && in_bytes 128 191 c2
          then (N.lor (N.lor (N.shiftl (N.land b 15) 12) (N.shiftl (low6 c1) 6)) (low6 c2), 3%nat)
          else (runeError, 1%nat)
      | 4%nat, c1 :: c2 :: c3 :: _ =>
          if in_bytes lo hi c1 && in_bytes 128 191 c2 && in_bytes 128 191 c3
          then (N.lor (N.lor (N.lor (N.shiftl (N.land b 7) 18) (N.shiftl (low6 c1) 12))
                             (N.shiftl (low6 c2) 6)) (low6 c3), 4%nat)
          else (runeError, 1%nat)
      | _, _ => (runeError, 1%nat)
      end
  end.

(** The runes of a string; [skip] counts the bytes left of the current one. *)
Fixpoint runes_go (skip : nat) (s : str) : list N :=
  match s with
  | [] => []
  | c :: s' =>
      match skip with
      | S k => runes_go k s'
      | O => let '(r, w) := decode_rune c s' in r :: runes_go (w - 1) s'
      end
  end.
Definition runes (s : str) : list N := runes_go 0 s.

(** The regular expression that [matchGlob] builds: a literal rune
    ([string(c)] is the rune with the value of the byte), [.] and [.*].  A dot
    matches every rune but the newline. *)
Inductive glob_tok := GLit (r : N) | GAny | GStar.

Fixpoint glob_compile (p : str) : list glob_tok :=
  match p with
  | [] => []
  | c :: p' =>
      if byte_eqb c "\" then
        match p' with
        | c' :: p'' => GLit (byte_val c') :: glob_compile p''
        | [] => [GLit (byte_val c)]
        end
      else if byte_eqb c "*" then GStar :: glob_compile p'
      else if byte_eqb c "?" then GAny :: glob_compile p'
      else GLit (byte_val c) :: glob_compile p'
  end.

Definition dot (r : N) : bool := negb (r =? 10)%N.

(** Anchored matching. *)
Fixpoint glob_match (g : list glob_tok) (s : list N) : bool :=
  match g with
  | [] => is_nil s
  | GLit r :: g' => match s with x :: s' => (x =? r)%N && glob_match g' s' | [] => false end
  | GAny :: g' => match s with x :: s' => dot x && glob_match g' s' | [] => false end
  | GStar :: g' =>
      (fix star (s : list N) : bool :=
         glob_match g' s || match s with x :: s' => dot x && star s' | [] => false end) s
  end.

Definition matchGlob (pattern s : str) : bool := glob_match (glob_compile pattern) (runes s).

(** ** The store *)
Definition ErrClosed : str := B "teststore: store is closed".

Record variantEntry := mkVariantEntry {
  ve_variant : VariantInfo;
  ve_body : str;
  ve_expiresAt : Z;
}.

Record metaEntry := mkMetaEntry {
  me_meta : option CacheMetadata;
  me_softPurged : bool;
  me_expiresAt : Z;
}.

Record Store := mkStore {
  closed : bool;
  zeroCopy : bool;
  meta : gmap str metaEntry;
  variants : gmap str (gmap str variantEntry);
  tagIndex : gmap str (gmap str unit);
  getMetaHook : option (str → outcome (option (CacheMetadata * bool)));
  getVariantHook : option (str → str → outcome (option (VariantInfo * str)));
  setVariantHook : option (str → option CacheMetadata → VariantInfo → str → Z → outcome unit);
  purgeHook : option (str → bool → outcome Z);
  purgeTagHook : option (str → bool → outcome Z);
}.

(** [New()]. *)
Definition New : Store := mkStore false false ∅ ∅ ∅ None None None None None.

Definition with_data (s : Store) (m : gmap str metaEntry)
    (v : gmap str (gmap str variantEntry)) (t : gmap str (gmap str unit)) : Store :=
  mkStore (closed s) (zeroCopy s) m v t (getMetaHook s) (getVariantHook s)
    (setVariantHook s) (purgeHook s) (purgeTagHook s).

Definition SetClosed (s : Store) (b : bool) : Store :=
  mkStore b (zeroCopy s) (meta s) (variants s) (tagIndex s) (getMetaHook s) (getVariantHook s)
    (setVariantHook s) (purgeHook s) (purgeTagHook s).

(** [expiresAt.IsZero() || now.Before(expiresAt)], as the variant loops test. *)
Definition unexpired (now expiresAt : Z) : bool := IsZero expiresAt || (now <? expiresAt)%Z.
(** [!expiresAt.IsZero() && now.After(expiresAt)], as the lookups test. *)
Definition expired (now expiresAt : Z) : bool := negb (IsZero expiresAt) && After now expiresAt.

(** The variants of a key that have not expired. *)
Definition live_variants (now : Z) (vMap : gmap str variantEntry) : gmap str VariantInfo :=
  omap (λ e, if unexpired now (ve_expiresAt e) then Some (ve_variant e) else None) vMap.

Definition set_meta_variants (now : Z) (s : Store) (pk : str) (entry : metaEntry) : metaEntry :=
  match me_meta entry, variants s !! pk with
  | Some m, Some vMap =>
      mkMetaEntry (Some (with_variants m (live_variants now vMap ∪ Variants m)))
        (me_softPurged entry) (me_expiresAt entry)
  | _, _ => entry
  end.

Definition SetZeroCopy (s : Store) (now : Z) (b : bool) : Store :=
  mkStore (closed s) b
    (if b then map_imap (λ pk entry, Some (set_meta_variants now s pk entry)) (meta s) else meta s)
    (variants s) (tagIndex s) (getMetaHook s) (getVariantHook s)
    (setVariantHook s) (purgeHook s) (purgeTagHook s).

Definition SetGetMetaHook (s : Store) fn : Store :=
  mkStore (closed s) (zeroCopy s) (meta s) (variants s) (tagIndex s) fn (getVariantHook s)
    (setVariantHook s) (purgeHook s) (purgeTagHook s).
Definition SetGetVariantHook (s : Store) fn : Store :=
  mkStore (closed s) (zeroCopy s) (meta s) (variants s) (tagIndex s) (getMetaHook s) fn
    (setVariantHook s) (purgeHook s) (purgeTagHook s).
Definition SetSetVariantHook (s : Store) fn : Store :=
  mkStore (closed s) (zeroCopy s) (meta s) (variants s) (tagIndex s) (getMetaHook s)
    (getVariantHook s) fn (purgeHook s) (purgeTagHook s).
Definition SetPurgeHook (s : Store) fn : Store :=
  mkStore (closed s) (zeroCopy s) (meta s) (variants s) (tagIndex s) (getMetaHook s)
    (getVariantHook s) (setVariantHook s) fn (purgeTagHook s).
Definition SetPurgeByTagHook (s : Store) fn : Store :=
  mkStore (closed s) (zeroCopy s) (meta s) (variants s) (tagIndex s) (getMetaHook s)
    (getVariantHook s) (setVariantHook s) (purgeHook s) fn.

Definition Reset (s : Store) : Store := mkStore false (zeroCopy s) ∅ ∅ ∅ None None None None None.

(** [now] and [now'] are the two readings of the clock. *)
Definition store_GetMeta (s : Store) (now now' : Z) (primaryKey : str)
    : outcome (option (CacheMetadata * bool)) :=
  if closed s then Fail ErrClosed else
  match getMetaHook s with
  | Some hook => hook primaryKey
  | None =>
    match meta s !! primaryKey with
    | None => Ret None
    | Some entry =>
        if expired now (me_expiresAt entry) then Ret None
        else if zeroCopy s then Ret ((λ m, (m, me_softPurged entry)) <$> me_meta entry)
        else match me_meta entry with
             | None => Panicked
             | Some m =>
                 let vs := match variants s !! primaryKey with
                           | Some vMap => live_variants now' vMap
                           | None => ∅ end in
                 Ret (Some (with_variants m vs, me_softPurged entry))
             end
    end
  end.

Definition store_GetVariant (s : Store) (now : Z) (primaryKey variantKey : str)
    : outcome (option (VariantInfo * str)) :=
  let variantKey := variant_name variantKey in
  if closed s then Fail ErrClosed else
  match getVariantHook s with
  | Some hook => hook primaryKey variantKey
  | None =>
    match variants s !! primaryKey ≫= lookup variantKey with
    | None => Ret None
    | Some entry =>
        if expired now (ve_expiresAt entry) then Ret None
        else Ret (Some (ve_variant entry, ve_body entry))
    end
  end.

(** The tag loop of [SetVariant] and the ones of the purges. *)
Definition add_tag (primaryKey : str) (idx : gmap str (gmap str unit)) (tag : str)
    : gmap str (gmap str unit) :=
  <[tag := <[primaryKey := tt]> (default ∅ (idx !! tag))]> idx.

Definition remove_tag (primaryKey : str) (idx : gmap str (gmap str unit)) (tag : str)
    : gmap str (gmap str unit) :=
  match idx !! tag with
  | None => idx
  | Some keys =>
      let keys := delete primaryKey keys in
      if bool_decide (keys = ∅) then delete tag idx else <[tag := keys]> idx
  end.

Definition store_SetVariant (s : Store) (now : Z) (primaryKey : str) (m : option CacheMetadata)
    (variant : VariantInfo) (body : str) (ttl : Z) : Store * outcome unit :=
  if closed s then (s, Fail ErrClosed) else
  match setVariantHook s with
  | Some hook => (s, hook primaryKey m variant body ttl)
  | None =>
    let expiresAt := if (0 <? ttl)%Z then time_Add now ttl else zero_time in
    let entry :=
      match meta s !! primaryKey with
      | Some existing =>
          mkMetaEntry (match m with Some _ => m | None => me_meta existing end) false
            (if After expiresAt (me_expiresAt existing) then expiresAt else me_expiresAt existing)
      | None => mkMetaEntry m false expiresAt
      end in
    let idx := match m with
               | Some md => foldl (add_tag primaryKey) (tagIndex s) (Tags md)
               | None => tagIndex s end in
    let variantKey := variant_name (VariantKey variant) in
    let variant := with_variant_key variant variantKey in
    let vMap := <[variantKey := mkVariantEntry variant body expiresAt]>
                  (default ∅ (variants s !! primaryKey)) in
    let entry :=
      if zeroCopy s
      then mkMetaEntry ((λ md, with_variants md (<[variantKey := variant]> (Variants md)))
                          <$> me_meta entry) (me_softPurged entry) (me_expiresAt entry)
      else entry in
    (with_data s (<[primaryKey := entry]> (meta s)) (<[primaryKey := vMap]> (variants s)) idx, Ret tt)
  end.

(** Marking an entry stale, and deleting it with its tag references: the two
    branches that the three purges share. *)
Definition soft_entry (entry : metaEntry) : metaEntry :=
  mkMetaEntry (me_meta entry) true (me_expiresAt entry).

Definition entry_tags (entry : metaEntry) : list str :=
  match me_meta entry with Some m => Tags m | None => [] end.

Definition purge_entry (s : Store) (k : str) (soft : bool) (entry : metaEntry) : Store :=
  if soft then with_data s (<[k := soft_entry entry]> (meta s)) (variants s) (tagIndex s)
  else with_data s (delete k (meta s)) (delete k (variants s))
                 (foldl (remove_tag k) (tagIndex s) (entry_tags entry)).

Definition store_Purge (s : Store) (primaryKey : str) (soft : bool) : Store * outcome Z :=
  if closed s then (s, Fail ErrClosed) else
  match purgeHook s with
  | Some hook => (s, hook primaryKey soft)
  | None =>
    match meta s !! primaryKey with
    | None => (s, Ret 0%Z)
    | Some entry => (purge_entry s primaryKey soft entry, Ret 1%Z)
    end
  end.

(** One iteration of the purge loops over the collected keys. *)
Definition purge_step (soft : bool) (acc : Store * Z) (k : str) : Store * Z :=
  let '(s, count) := acc in
  match meta s !! k with
  | None => (s, count)
  | Some entry => (purge_entry s k soft entry, wrap64 (count + 1))
  end.

Section Ops.
Context {E : GoEnv}.

Definition store_PurgeByTag (s : Store) (tag : str) (soft : bool) : Store * outcome Z :=
  if closed s then (s, Fail ErrClosed) else
  match purgeTagHook s with
  | Some hook => (s, hook tag soft)
  | None =>
    match tagIndex s !! tag with
    | None => (s, Ret 0%Z)
    | Some keys =>
        if bool_decide (keys = ∅) then (s, Ret 0%Z) else
        let targetKeys := fst <$> range keys in
        let '(s, count) := foldl (purge_step soft) (s, 0%Z) targetKeys in
        let s := if soft then s
                 else with_data s (meta s) (variants s) (delete tag (tagIndex s)) in
        (s, Ret count)
    end
  end.

Definition store_PurgeByPattern (s : Store) (pattern : str) (soft : bool) : Store * outcome Z :=
  if closed s then (s, Fail ErrClosed) else
  let matchingKeys := List.filter (matchGlob pattern) (fst <$> range (meta s)) in
  let '(s, count) := foldl (purge_step soft) (s, 0%Z) matchingKeys in
  (s, Ret count).
End Ops.

Definition store_PurgeAll (s : Store) : Store * outcome Z :=
  if closed s then (s, Fail ErrClosed)
  else (with_data s ∅ ∅ ∅, Ret (wrap64 (Z.of_nat (size (meta s))))).

Definition Close (s : Store) : Store := SetClosed s true.

#[export] Instance teststore_storage {E : GoEnv} : Storage Store := {|
  GetMeta := λ s now k, store_GetMeta s now now k;
  GetVariant := store_GetVariant;
  SetVariant := λ s now k m v b ttl, store_SetVariant s now k (Some m) v b ttl;
  Purge := λ s _ k soft, store_Purge s k soft;
  PurgeByPattern := λ s _ p soft, store_PurgeByPattern s p soft;
  PurgeByTag := λ s _ tag soft, store_PurgeByTag s tag soft;
  PurgeAll := λ s _, store_PurgeAll s;
|}.

(** ** The abstract cache

    What the store is meant to be: a map from keys to entries, where a purge
    marks or removes exactly the entries of the keys it selects.  There is no
    tag index, no loop and no iteration order. *)
Record absEntry := mkAbs {
  a_meta : option CacheMetadata;
  a_soft : bool;
  a_expires : Z;
  a_variants : gmap str variantEntry;
}.

Definition a_mark (e : absEntry) : absEntry := mkAbs (a_meta e) true (a_expires e) (a_variants e).

Definition purge_where (soft : bool) (P : str → bool) (a : gmap str absEntry) : gmap str absEntry :=
  if soft then map_imap (λ k e, Some (if P k then a_mark e else e)) a
  else filter (λ kv, P kv.1 = false) a.

Definition selected (P : str → bool) (a : gmap str absEntry) : nat :=
  size (filter (λ kv, P kv.1 = true) a).

Definition a_GetMeta (a : gmap str absEntry) (now : Z) (k : str)
    : outcome (option (CacheMetadata * bool)) :=
  match a !! k with
  | None => Ret None
  | Some e =>
      if expired now (a_expires e) then Ret None else
      match a_meta e with
      | None => Panicked
      | Some m => Ret (Some (with_variants m (live_variants now (a_variants e)), a_soft e))
      end
  end.

Definition a_GetVariant (a : gmap str absEntry) (now : Z) (k vk : str)
    : outcome (option (VariantInfo * str)) :=
  match a !! k ≫= λ e, a_variants e !! variant_name vk with
  | None => Ret None
  | Some e => if expired now (ve_expiresAt e) then Ret None
              else Ret (Some (ve_variant e, ve_body e))
  end.

Definition a_SetVariant (a : gmap str absEntry) (now : Z) (k : str) (m : CacheMetadata)
    (v : VariantInfo) (body : str) (ttl : Z) : gmap str absEntry :=
  let expiresAt := if (0 <? ttl)%Z then time_Add now ttl else zero_time in
  let name := variant_name (VariantKey v) in
  let old := a !! k in
  <[k := mkAbs (Some m) false
           (match old with Some e => Z.max expiresAt (a_expires e) | None => expiresAt end)
           (<[name := mkVariantEntry (with_variant_key v name) body expiresAt]>
              (match old with Some e => a_variants e | None => ∅ end))]> a.

(** The abstraction function. *)
Definition abs (s : Store) : gmap str absEntry :=
  map_imap (λ k e, Some (mkAbs (me_meta e) (me_softPurged e) (me_expiresAt e)
                               (default ∅ (variants s !! k)))) (meta s).

(** The default mode: open, cloning, no fault injection. *)
Definition plain (s : Store) : Prop :=
  closed s = false ∧ zeroCopy s = false ∧ getMetaHook s = None ∧ getVariantHook s = None ∧
  setVariantHook s = None ∧ purgeHook s = None ∧ purgeTagHook s = None.

(** The index knows [k] under [tag]. *)
Definition indexed (idx : gmap str (gmap str unit)) (tag k : str) : bool :=
  match idx !! tag with
  | Some keys => bool_decide (is_Some (keys !! k))
  | None => false
  end.

(** ** The invariant *)
Record store_ok (s : Store) : Prop := {
  ok_dom : ∀ k, is_Some (meta s !! k) ↔ is_Some (variants s !! k);
  ok_tags : ∀ k e t, meta s !! k = Some e → t ∈ entry_tags e → indexed (tagIndex s) t k = true;
  ok_idx : ∀ t keys, tagIndex s !! t = Some keys → keys ≠ ∅;
  ok_names : ∀ k vMap vk e, variants s !! k = Some vMap → vMap !! vk = Some e →
    VariantKey (ve_variant e) = vk;
}.

(** The operations as steps of a transition system. *)
Inductive store_step `{GoEnv} : Store → Store → Prop :=
  | step_set s now k m v b ttl : store_step s (store_SetVariant s now k m v b ttl).1
  | step_purge s k soft : store_step s (store_Purge s k soft).1
  | step_tag s t soft : store_step s (store_PurgeByTag s t soft).1
  | step_pattern s p soft : store_step s (store_PurgeByPattern s p soft).1
  | step_all s : store_step s (store_PurgeAll s).1
  | step_closed s b : store_step s (SetClosed s b)
  | step_close s : store_step s (Close s)
  | step_zero_copy s now b : store_step s (SetZeroCopy s now b)
  | step_reset s : store_step s (Reset s)
  | step_hook_meta s f : store_step s (SetGetMetaHook s f)
  | step_hook_variant s f : store_step s (SetGetVariantHook s f)
  | step_hook_set s f : store_step s (SetSetVariantHook s f)
  | step_hook_purge s f : store_step s (SetPurgeHook s f)
  | step_hook_tag s f : store_step s (SetPurgeByTagHook s f).

(** ** Facts: the tag index *)
Lemma indexed_add_tag k idx t t' k' :
  indexed (add_tag k idx t) t' k' = true ↔ (t' = t ∧ k' = k) ∨ indexed idx t' k' = true.
Proof.
  unfold indexed, add_tag. destruct (decide (t' = t)) as [->|Hne].
  - rewrite lookup_insert_eq, bool_decide_eq_true.
    destruct (decide (k' = k)) as [->|Hk]; [rewrite lookup_insert_eq; naive_solver|].
    rewrite lookup_insert_ne by done. destruct (idx !! t) as [ks|]; simpl.
    + rewrite bool_decide_eq_true. naive_solver.
    + rewrite lookup_empty. split; [by intros []|naive_solver].
  - rewrite lookup_insert_ne by done. naive_solver.
Qed.

Lemma indexed_foldl_add k idx ts t' k' :
  indexed (foldl (add_tag k) idx ts) t' k' = true ↔
  (t' ∈ ts ∧ k' = k) ∨ indexed idx t' k' = true.
Proof.
  revert idx. induction ts as [|t ts IH]; intros idx; simpl.
  - set_solver.
  - rewrite IH, indexed_add_tag, elem_of_cons. naive_solver.
Qed.

Lemma indexed_remove_tag k idx t t' k' :
  indexed (remove_tag k idx t) t' k' = indexed idx t' k' && negb ((t' =s t) && (k' =s k)).
Proof.
  unfold remove_tag, indexed. destruct (idx !! t) as [ks|] eqn:Et.
  2: { destruct (str_eqb t' t) eqn:E; [apply str_eqb_eq in E as ->; by rewrite Et|].
       by rewrite andb_true_r. }
  destruct (str_eqb t' t) eqn:E.
  - apply str_eqb_eq in E as ->. rewrite Et. case_bool_decide as Hk.
    + rewrite lookup_delete_eq. destruct (str_eqb k' k) eqn:Ek; simpl; [by rewrite andb_false_r|].
      apply str_eqb_neq in Ek. rewrite andb_true_r. symmetry. apply bool_decide_eq_false.
      rewrite <- (lookup_delete_ne ks k k') by done. rewrite Hk, lookup_empty. by intros [].
    + rewrite lookup_insert_eq. destruct (str_eqb k' k) eqn:Ek; simpl.
      * apply str_eqb_eq in Ek as ->. rewrite andb_false_r, lookup_delete_eq.
        apply bool_decide_eq_false. by intros [].
      * apply str_eqb_neq in Ek. by rewrite lookup_delete_ne, andb_true_r.
  - apply str_eqb_neq in E. rewrite andb_true_r.
    case_bool_decide; [by rewrite lookup_delete_ne|by rewrite lookup_insert_ne].
Qed.

(** Removing the references of one key leaves the others. *)
Lemma indexed_foldl_remove_ne k idx ts t k' :
  k' ≠ k → indexed (foldl (remove_tag k) idx ts) t k' = indexed idx t k'.
Proof.
  intros Hk. apply str_eqb_neq in Hk. revert idx. induction ts as [|x ts IH]; intros idx; simpl; [done|].
  by rewrite IH, indexed_remove_tag, Hk, andb_false_r, andb_true_r.
Qed.

Lemma no_empty_add k idx t :
  (∀ t ks, idx !! t = Some ks → ks ≠ ∅) → ∀ t' ks, add_tag k idx t !! t' = Some ks → ks ≠ ∅.
Proof.
  unfold add_tag. intros H t' ks. rewrite lookup_insert_Some. intros [[_ <-]|[_ ?]]; [|by eapply H].
  apply insert_non_empty.
Qed.

Lemma no_empty_remove k idx t :
  (∀ t ks, idx !! t = Some ks → ks ≠ ∅) → ∀ t' ks, remove_tag k idx t !! t' = Some ks → ks ≠ ∅.
Proof.
  unfold remove_tag. intros H t' ks. destruct (idx !! t) as [ks'|]; [|by apply H].
  case_bool_decide as He.
  - rewrite lookup_delete_Some. intros [_ ?]. by eapply H.
  - rewrite lookup_insert_Some. intros [[_ <-]|[_ ?]]; [done|by eapply H].
Qed.

Lemma no_empty_foldl (f : gmap str (gmap str unit) → str → gmap str (gmap str unit)) ts idx :
  (∀ idx t, (∀ t ks, idx !! t = Some ks → ks ≠ ∅) → ∀ t' ks, f idx t !! t' = Some ks → ks ≠ ∅) →
  (∀ t ks, idx !! t = Some ks → ks ≠ ∅) → ∀ t ks, foldl f idx ts !! t = Some ks → ks ≠ ∅.
Proof.
  intros Hf. revert idx. induction ts as [|t ts IH]; intros idx H; simpl; [done|]. apply IH, Hf, H.
Qed.

(** ** Facts: purges *)
Lemma abs_lookup s k :
  abs s !! k = (λ e, mkAbs (me_meta e) (me_softPurged e) (me_expiresAt e)
                           (default ∅ (variants s !! k))) <$> meta s !! k.
Proof. unfold abs. rewrite map_lookup_imap. by destruct (meta s !! k). Qed.

Lemma purge_where_lookup soft P a k :
  purge_where soft P a !! k =
  if P k then (if soft then a_mark <$> a !! k else None) else a !! k.
Proof.
  unfold purge_where. destruct soft.
  - rewrite map_lookup_imap. by destruct (a !! k), (P k).
  - rewrite map_lookup_filter. destruct (a !! k) as [e|] eqn:Ea; simpl; [|by destruct (P k)].
    destruct (P k) eqn:EP; [by rewrite option_guard_False|by rewrite option_guard_True].
Qed.

(** One purged key, seen abstractly. *)
Lemma abs_purge_entry s k soft e :
  meta s !! k = Some e → abs (purge_entry s k soft e) = purge_where soft (λ k', k' =s k) (abs s).
Proof.
  intros Hk. apply map_eq. intros k'. rewrite purge_where_lookup, !abs_lookup.
  unfold purge_entry. destruct (str_eqb k' k) eqn:E.
  - apply str_eqb_eq in E as ->. destruct soft; simpl.
    + by rewrite lookup_insert_eq, Hk.
    + by rewrite !lookup_delete_eq.
  - apply str_eqb_neq in E. destruct soft; simpl.
    + by rewrite lookup_insert_ne.
    + by rewrite !lookup_delete_ne.
Qed.

Lemma purge_where_ext soft P Q a :
  (∀ k, is_Some (a !! k) → P k = Q k) → purge_where soft P a = purge_where soft Q a.
Proof.
  intros H. apply map_eq. intros k. rewrite !purge_where_lookup.
  destruct (a !! k) eqn:E; [rewrite H by (by rewrite E); done|].
  by destruct (P k), (Q k), soft.
Qed.

Lemma purge_where_comp soft P Q a :
  purge_where soft P (purge_where soft Q a) = purge_where soft (λ k, P k || Q k) a.
Proof.
  apply map_eq. intros k. rewrite !purge_where_lookup. unfold a_mark.
  by destruct (P k), (Q k), soft, (a !! k).
Qed.

Lemma purge_entry_dom s k soft e k' :
  k' ≠ k → meta (purge_entry s k soft e) !! k' = meta s !! k'.
Proof. unfold purge_entry. destruct soft; simpl; intros; [by rewrite lookup_insert_ne|by rewrite lookup_delete_ne]. Qed.

(** The purge loop: it purges the keys of the list and counts the ones it
    found. *)
Lemma purge_loop soft l s c :
  NoDup l →
  let '(s', c') := foldl (purge_step soft) (s, wrap64 c) l in
  abs s' = purge_where soft (slices_contains l) (abs s) ∧
  c' = wrap64 (c + Z.of_nat (length (List.filter (λ k, bool_decide (is_Some (meta s !! k))) l))).
Proof.
  revert s c. induction l as [|k l IH]; intros s c Hnd; simpl.
  { split; [|f_equal; lia]. apply map_eq. intros k. by rewrite purge_where_lookup. }
  apply NoDup_cons in Hnd as [Hk Hnd].
  destruct (meta s !! k) as [e|] eqn:Ek.
  - rewrite wrap64_add_l.
    specialize (IH (purge_entry s k soft e) (c + 1)%Z Hnd).
    destruct (foldl _ _ l) as [s' c']. destruct IH as [-> ->].
    rewrite abs_purge_entry by done. rewrite purge_where_comp. split.
    + apply purge_where_ext. intros k' _. unfold slices_contains.
      destruct (str_eqb k' k) eqn:E.
      * apply str_eqb_eq in E as ->. rewrite orb_true_r. symmetry. apply bool_decide_eq_true. by left.
      * apply str_eqb_neq in E. rewrite orb_false_r. apply bool_decide_ext. set_solver.
    + rewrite bool_decide_true by done. simpl. f_equal.
      rewrite (filter_ext_in _ (λ k, bool_decide (is_Some (meta s !! k)))); [lia|].
      intros k' Hk'%list_elem_of_In. rewrite purge_entry_dom; [done|]. by intros ->.
  - specialize (IH s c Hnd). destruct (foldl _ _ l) as [s' c']. destruct IH as [-> ->]. split.
    + apply purge_where_ext. intros k' Hk'. unfold slices_contains. apply bool_decide_ext.
      rewrite abs_lookup in Hk'. rewrite elem_of_cons. split; [by right|].
      intros [->|?]; [|done]. rewrite Ek in Hk'. by destruct Hk'.
    + rewrite bool_decide_false; [done|]. by intros [].
Qed.

(** Purges change neither the flags nor the hooks. *)
Definition same_mode (s s' : Store) : Prop := ∃ m v t, s' = with_data s m v t.

Lemma same_mode_refl s : same_mode s s.
Proof. exists (meta s), (variants s), (tagIndex s). by destruct s. Qed.

Lemma same_mode_purge_entry s k soft e : same_mode s (purge_entry s k soft e).
Proof. unfold purge_entry. destruct soft; unfold same_mode; eauto. Qed.

Lemma same_mode_trans s1 s2 s3 : same_mode s1 s2 → same_mode s2 s3 → same_mode s1 s3.
Proof. intros (?&?&?&->) (?&?&?&->). unfold same_mode. eauto. Qed.

Lemma same_mode_loop soft l s c : same_mode s (foldl (purge_step soft) (s, c) l).1.
Proof.
  revert s c. induction l as [|k l IH]; intros s c; simpl; [apply same_mode_refl|].
  destruct (meta s !! k); [|apply IH].
  eapply same_mode_trans; [apply same_mode_purge_entry|apply IH].
Qed.

Lemma plain_same_mode s s' : same_mode s s' → plain s → plain s'.
Proof. by intros (m & v & t & ->). Qed.

(** ** Facts: the invariant *)
Lemma ok_purge_entry s k soft e :
  meta s !! k = Some e → store_ok s → store_ok (purge_entry s k soft e).
Proof.
  intros Hk [Hd Ht Hi Hn]. unfold purge_entry. destruct soft; split; simpl.
  - intros k'. rewrite <- Hd. destruct (decide (k' = k)) as [->|]; [|by rewrite lookup_insert_ne].
    rewrite lookup_insert_eq, Hk. split; eauto.
  - intros k' e' t. rewrite lookup_insert_Some. intros [[<- <-]|[_ ?]]; [|by apply Ht]. exact (Ht k e t Hk).
  - done.
  - done.
  - intros k'. destruct (decide (k' = k)) as [->|]; [by rewrite !lookup_delete_eq|].
    by rewrite !lookup_delete_ne.
  - intros k' e' t. rewrite lookup_delete_Some. intros [Hne He'] Hin.
    rewrite indexed_foldl_remove_ne by done. by eapply Ht.
  - apply no_empty_foldl; [intros idx t; apply no_empty_remove|done].
  - intros k' vMap vk e'. rewrite lookup_delete_Some. intros [_ ?]. by eapply Hn.
Qed.

Lemma ok_purge_loop soft l s c : store_ok s → store_ok (foldl (purge_step soft) (s, c) l).1.
Proof.
  revert s c. induction l as [|k l IH]; intros s c Hok; simpl; [done|].
  destruct (meta s !! k) eqn:Ek; [|by apply IH]. apply IH. by apply ok_purge_entry.
Qed.

Lemma ok_SetVariant s now k m v b ttl :
  store_ok s → store_ok (store_SetVariant s now k m v b ttl).1.
Proof.
  intros Hok. unfold store_SetVariant. case_if; [done|]. destruct (setVariantHook s); [done|].
  destruct Hok as [Hd Ht Hi Hn]. split; simpl.
  - intros k'. destruct (decide (k' = k)) as [->|]; [rewrite !lookup_insert_eq; split; eauto|].
    by rewrite !lookup_insert_ne.
  - intros k' e t. rewrite lookup_insert_Some.
    assert (∀ t', indexed (tagIndex s) t' k' = true →
      indexed (match m with Some md => foldl (add_tag k) (tagIndex s) (Tags md)
               | None => tagIndex s end) t' k' = true) as Hmono.
    { intros t' ?. destruct m; [|done]. apply indexed_foldl_add. by right. }
    intros [[<- <-]|[_ He]] Hin; [|by eapply Hmono, Ht].
    assert (t ∈ (match m with Some md => Tags md | None =>
              match meta s !! k with Some e => entry_tags e | None => [] end end)) as Hin'.
    { revert Hin. unfold entry_tags.
      destruct (zeroCopy s), (meta s !! k) as [[[]]|], m; simpl; done. }
    destruct m as [md|]; [apply indexed_foldl_add; by left|].
    destruct (meta s !! k) as [e|] eqn:Ek; [|by apply not_elem_of_nil in Hin']. by eapply Ht.
  - destruct m as [md|]; [|done]. apply no_empty_foldl; [|done]. intros idx t. apply no_empty_add.
  - intros k' vMap vk e. rewrite lookup_insert_Some. intros [[<- <-]|[_ ?]]; [|by eapply Hn].
    rewrite lookup_insert_Some. intros [[<- <-]|[_ He]]; [done|].
    destruct (variants s !! k) as [vm|] eqn:Ev; simpl in He; [by eapply Hn|].
    by rewrite lookup_empty in He.
Qed.

Lemma abs_is_Some s k : is_Some (abs s !! k) ↔ is_Some (meta s !! k).
Proof. rewrite abs_lookup. apply fmap_is_Some. Qed.

(** Counting the purged keys of a list counts the selected entries. *)
Lemma selected_loop P a l :
  NoDup l → (∀ k, is_Some (a !! k) → (P k = true ↔ k ∈ l)) →
  selected P a = length (List.filter (λ k, bool_decide (is_Some (a !! k))) l).
Proof.
  intros Hnd Hl. unfold selected. rewrite <- length_map_to_list, <- (length_fmap fst).
  apply Permutation_length, NoDup_Permutation.
  - apply NoDup_fst_map_to_list.
  - by apply NoDup_bool_filter.
  - intros k. rewrite elem_of_bool_filter, bool_decide_eq_true. split.
    + intros Hk. apply list_elem_of_fmap in Hk as ([k' e] & -> & Hk).
      apply elem_of_map_to_list, map_lookup_filter_Some in Hk as [Hk HP]. simpl in *.
      split; [apply Hl; eauto|eauto].
    + intros [Hin [e He]]. apply list_elem_of_fmap. exists (k, e). split; [done|].
      apply elem_of_map_to_list, map_lookup_filter_Some. split; [done|]. simpl. apply Hl; eauto.
Qed.

(** A purge of a duplicate-free list that holds exactly the selected keys. *)
Lemma purge_list_spec soft P l s :
  NoDup l → (∀ k, is_Some (meta s !! k) → (P k = true ↔ k ∈ l)) →
  abs (foldl (purge_step soft) (s, 0%Z) l).1 = purge_where soft P (abs s) ∧
  (foldl (purge_step soft) (s, 0%Z) l).2 = wrap64 (Z.of_nat (selected P (abs s))).
Proof.
  intros Hnd Hl. pose proof (purge_loop soft l s 0 Hnd) as H.
  change (wrap64 0) with 0%Z in H. destruct (foldl _ _ l) as [s' c']. destruct H as [Ha Hc].
  simpl. rewrite Ha, Hc. split.
  - apply purge_where_ext. intros k Hk%abs_is_Some. specialize (Hl k Hk). unfold slices_contains.
    destruct (P k); [apply bool_decide_eq_true; tauto|].
    apply bool_decide_eq_false. intros Hin. apply Hl in Hin. done.
  - rewrite (selected_loop P (abs s) l) by (auto; intros k ?%abs_is_Some; auto).
    f_equal. rewrite Z.add_0_l. do 2 f_equal. apply filter_ext. intros k.
    apply bool_decide_ext. symmetry. apply abs_is_Some.
Qed.

Section Properties.
Context {E : GoEnv}.

Lemma NoDup_range_keys {A} (m : gmap str A) : NoDup (fst <$> range m).
Proof. rewrite range_perm. apply NoDup_fst_map_to_list. Qed.

Lemma elem_of_range_keys {A} (m : gmap str A) k : k ∈ fst <$> range m ↔ is_Some (m !! k).
Proof.
  rewrite list_elem_of_fmap. split.
  - intros ([k' v] & -> & H%range_elem_of). eauto.
  - intros [v Hv]. exists (k, v). by rewrite range_elem_of.
Qed.

Lemma pattern_spec s p soft :
  abs (foldl (purge_step soft) (s, 0%Z) (List.filter (matchGlob p) (fst <$> range (meta s)))).1
  = purge_where soft (matchGlob p) (abs s) ∧
  (foldl (purge_step soft) (s, 0%Z) (List.filter (matchGlob p) (fst <$> range (meta s)))).2
  = wrap64 (Z.of_nat (selected (matchGlob p) (abs s))).
Proof.
  apply purge_list_spec; [apply NoDup_bool_filter, NoDup_range_keys|].
  intros k Hk. rewrite elem_of_bool_filter, elem_of_range_keys. tauto.
Qed.

Lemma tag_list_spec s tag keys soft :
  tagIndex s !! tag = Some keys →
  abs (foldl (purge_step soft) (s, 0%Z) (fst <$> range keys)).1
  = purge_where soft (indexed (tagIndex s) tag) (abs s) ∧
  (foldl (purge_step soft) (s, 0%Z) (fst <$> range keys)).2
  = wrap64 (Z.of_nat (selected (indexed (tagIndex s) tag) (abs s))).
Proof.
  intros Ht. apply purge_list_spec; [apply NoDup_range_keys|].
  intros k _. rewrite elem_of_range_keys. unfold indexed. rewrite Ht. apply bool_decide_eq_true.
Qed.

(** Nothing selected, nothing purged. *)
Lemma purge_none soft P a :
  (∀ k, is_Some (a !! k) → P k = false) → purge_where soft P a = a ∧ selected P a = 0%nat.
Proof.
  intros H. split.
  - apply map_eq. intros k. rewrite purge_where_lookup. destruct (a !! k) eqn:Ea; [|by destruct (P k), soft].
    by rewrite H.
  - unfold selected. apply map_size_empty_iff, map_empty. intros k.
    apply map_lookup_filter_None. right. intros e Hk. simpl. rewrite H; [done|eauto].
Qed.

Lemma ok_delete_tag s keys t :
  store_ok s → tagIndex s !! t = Some keys →
  let s' := (foldl (purge_step false) (s, 0%Z) (fst <$> range keys)).1 in
  store_ok (with_data s' (meta s') (variants s') (delete t (tagIndex s'))).
Proof.
  intros Hok Ht s'. assert (store_ok s') as Hok' by (by apply ok_purge_loop).
  destruct (tag_list_spec s t keys false Ht) as [Ha _]. fold s' in Ha.
  destruct Hok' as [Hd' Ht' Hi' Hn']. split; simpl; [done| | |done].
  - intros k e t' He Hin. pose proof (Ht' k e t' He Hin) as Hix.
    destruct (decide (t' = t)) as [->|Hne]; [|unfold indexed in *; by rewrite lookup_delete_ne].
    exfalso. assert (abs s' !! k = Some (mkAbs (me_meta e) (me_softPurged e) (me_expiresAt e)
                                           (default ∅ (variants s' !! k)))) as Hk
      by (by rewrite abs_lookup, He).
    rewrite Ha, purge_where_lookup in Hk. destruct (indexed (tagIndex s) t k) eqn:Ei; [done|].
    rewrite abs_lookup in Hk. destruct (meta s !! k) as [e0|] eqn:E0; [|done].
    injection Hk as Hm _ _ _. rewrite (ok_tags s Hok k e0 t E0) in Ei; [done|].
    unfold entry_tags in *. by rewrite Hm.
  - intros t' ks. rewrite lookup_delete_Some. intros [_ ?]. by eapply Hi'.
Qed.

Lemma set_meta_variants_tags now s pk (e : metaEntry) :
  entry_tags (set_meta_variants now s pk e) = entry_tags e.
Proof. unfold set_meta_variants, entry_tags. destruct (me_meta e) eqn:Em, (variants s !! pk); simpl; by rewrite ?Em. Qed.

Lemma ok_SetZeroCopy s now b : store_ok s → store_ok (SetZeroCopy s now b).
Proof.
  intros [Hd Ht Hi Hn]. unfold SetZeroCopy. destruct b; split; simpl; try done.
  - intros k. rewrite <- Hd, map_lookup_imap. destruct (meta s !! k); simpl; split; intros []; eauto; done.
  - intros k e t. rewrite map_lookup_imap. destruct (meta s !! k) as [e0|] eqn:E0; simpl; [|done].
    intros [= <-]. rewrite set_meta_variants_tags. by apply Ht.
Qed.

Lemma refine_GetMeta s now k : plain s → store_GetMeta s now now k = a_GetMeta (abs s) now k.
Proof.
  intros (Hc & Hz & Hh & _). unfold store_GetMeta, a_GetMeta. rewrite Hc, Hz, Hh, abs_lookup.
  destruct (meta s !! k) as [e|]; simpl; [|done]. case_if; [done|].
  destruct (me_meta e); [|done]. destruct (variants s !! k); simpl; [done|].
  unfold live_variants. by rewrite omap_empty.
Qed.

Lemma refine_GetVariant s now k vk :
  plain s → store_ok s → store_GetVariant s now k vk = a_GetVariant (abs s) now k vk.
Proof.
  intros (Hc & _ & _ & Hh & _) Hok. unfold store_GetVariant, a_GetVariant. rewrite Hc, Hh, abs_lookup.
  pose proof (ok_dom s Hok k) as Hd.
  destruct (meta s !! k) as [e|], (variants s !! k) as [vm|]; simpl; try done.
  - exfalso. destruct Hd as [_ Hd]. by destruct Hd.
Qed.

Lemma refine_SetVariant s now k m v b ttl :
  plain s → store_ok s →
  let '(s', r) := store_SetVariant s now k (Some m) v b ttl in
  abs s' = a_SetVariant (abs s) now k m v b ttl ∧ r = Ret tt.
Proof.
  intros (Hc & Hz & _ & _ & Hh & _) Hok. unfold store_SetVariant, a_SetVariant. rewrite Hc, Hh, Hz.
  split; [|done]. apply map_eq. intros k'. rewrite abs_lookup. simpl.
  pose proof (ok_dom s Hok k) as Hd.
  destruct (decide (k' = k)) as [->|Hne].
  - rewrite !lookup_insert_eq. simpl. rewrite abs_lookup.
    destruct (meta s !! k) as [e|] eqn:Ek; simpl.
    + f_equal. unfold After. f_equal. destruct (me_expiresAt e <? _)%Z eqn:El; lia.
    + destruct (variants s !! k); [|done]. destruct Hd as [_ Hd]. by destruct Hd.
  - rewrite !lookup_insert_ne by done. by rewrite abs_lookup.
Qed.

Lemma refine_Purge s k soft :
  plain s →
  let '(s', r) := store_Purge s k soft in
  abs s' = purge_where soft (λ k', k' =s k) (abs s) ∧
  r = Ret (Z.of_nat (selected (λ k', k' =s k) (abs s))).
Proof.
  intros (Hc & _ & _ & _ & _ & Hh & _). unfold store_Purge. rewrite Hc, Hh.
  destruct (meta s !! k) as [e|] eqn:Ek.
  - split; [by apply abs_purge_entry|].
    rewrite (selected_loop _ _ [k]); [| |intros k' _; by rewrite str_eqb_eq, list_elem_of_singleton].
    + simpl. rewrite bool_decide_true; [done|]. apply abs_is_Some. eauto.
    + apply NoDup_singleton.
  - destruct (purge_none soft (λ k', k' =s k) (abs s)) as [-> ->]; [|done].
    intros k' Hk'%abs_is_Some. apply str_eqb_neq. intros ->. rewrite Ek in Hk'. by destruct Hk'.
Qed.

Lemma refine_PurgeByPattern s p soft :
  plain s →
  let '(s', r) := store_PurgeByPattern s p soft in
  abs s' = purge_where soft (matchGlob p) (abs s) ∧
  r = Ret (wrap64 (Z.of_nat (selected (matchGlob p) (abs s)))).
Proof.
  intros [Hc _]. unfold store_PurgeByPattern. rewrite Hc.
  destruct (pattern_spec s p soft) as [H1 H2]. destruct (foldl _ _ _). simpl in *.
  by rewrite H1, H2.
Qed.

Lemma refine_PurgeAll s :
  plain s →
  let '(s', r) := store_PurgeAll s in
  abs s' = purge_where false (λ _, true) (abs s) ∧
  r = Ret (wrap64 (Z.of_nat (selected (λ _, true) (abs s)))).
Proof.
  intros [Hc _]. unfold store_PurgeAll. rewrite Hc. split.
  - apply map_eq. intros k. by rewrite purge_where_lookup, abs_lookup.
  - do 3 f_equal. unfold selected. rewrite map_filter_id by done.
    rewrite <- !(size_dom (D := gset str)). f_equal. apply set_eq. intros k.
    by rewrite !elem_of_dom, abs_is_Some.
Qed.

Lemma tag_state s tag soft :
  plain s →
  let '(s', r) := store_PurgeByTag s tag soft in
  abs s' = purge_where soft (indexed (tagIndex s) tag) (abs s) ∧
  r = Ret (wrap64 (Z.of_nat (selected (indexed (tagIndex s) tag) (abs s)))).
Proof.
  intros (Hc & _ & _ & _ & _ & _ & Hh). unfold store_PurgeByTag. rewrite Hc, Hh.
  destruct (tagIndex s !! tag) as [keys|] eqn:Et.
  - destruct (tag_list_spec s tag keys soft Et) as [H1 H2]. case_bool_decide as He.
    + destruct (purge_none soft (indexed (tagIndex s) tag) (abs s)) as [-> ->]; [|done].
      intros k _. unfold indexed. rewrite Et, He. by rewrite lookup_empty.
    + destruct (foldl _ _ _) as [s' c]. simpl in *. rewrite <- H1, H2. by destruct soft.
  - destruct (purge_none soft (indexed (tagIndex s) tag) (abs s)) as [-> ->]; [|done].
    intros k _. unfold indexed. by rewrite Et.
Qed.

(** ** The storage laws *)
Definition store_usable (s : Store) : Prop := plain s ∧ store_ok s.

Lemma usable_SetVariant s t0 k m v b ttl :
  store_usable s →
  store_usable (store_SetVariant s t0 k (Some m) v b ttl).1 ∧
  abs (store_SetVariant s t0 k (Some m) v b ttl).1 = a_SetVariant (abs s) t0 k m v b ttl ∧
  (store_SetVariant s t0 k (Some m) v b ttl).2 = Ret tt.
Proof.
  intros [Hp Hok]. split; [split|].
  - eapply plain_same_mode; [|exact Hp]. unfold store_SetVariant. destruct Hp as (-> & _ & _ & _ & -> & _).
    unfold same_mode. eauto.
  - by apply ok_SetVariant.
  - pose proof (refine_SetVariant s t0 k m v b ttl Hp Hok) as H.
    by destruct (store_SetVariant s t0 k (Some m) v b ttl).
Qed.

Lemma store_set_get_meta s t0 k m v b ttl now :
  store_usable s → live t0 ttl now →
  ∃ m', store_GetMeta (store_SetVariant s t0 k (Some m) v b ttl).1 now now k = Ret (Some (m', false)) ∧
        meta_agrees m m' ∧
        Variants m' !! variant_name (VariantKey v)
        = Some (with_variant_key v (variant_name (VariantKey v))).
Proof.
  intros Hu [Httl Hnow]. destruct (usable_SetVariant s t0 k m v b ttl Hu) as ([Hp' Hok'] & Ha & _).
  rewrite refine_GetMeta, Ha by done. unfold a_GetMeta, a_SetVariant. rewrite lookup_insert_eq. simpl.
  assert ((0 <? ttl)%Z = true) as -> by lia. unfold time_Add.
  assert (expired now (match abs s !! k with
    | Some e => Z.max (t0 + ttl) (a_expires e) | None => (t0 + ttl)%Z end) = false) as ->.
  { unfold expired, After. apply andb_false_iff. right. destruct (abs s !! k); lia. }
  eexists. split; [done|]. split; [done|]. simpl. unfold live_variants.
  rewrite lookup_omap, lookup_insert_eq. simpl. unfold unexpired.
  assert ((now <? t0 + ttl)%Z = true) as -> by lia. by rewrite orb_true_r.
Qed.

Lemma store_set_get_variant s t0 k m v b ttl now :
  store_usable s → live t0 ttl now →
  store_GetVariant (store_SetVariant s t0 k (Some m) v b ttl).1 now k (VariantKey v)
  = Ret (Some (with_variant_key v (variant_name (VariantKey v)), b)).
Proof.
  intros Hu [Httl Hnow]. destruct (usable_SetVariant s t0 k m v b ttl Hu) as ([Hp' Hok'] & Ha & _).
  rewrite refine_GetVariant, Ha by done. unfold a_GetVariant, a_SetVariant.
  rewrite lookup_insert_eq. simpl. rewrite lookup_insert_eq. simpl.
  assert ((0 <? ttl)%Z = true) as -> by lia. unfold time_Add, expired, After.
  assert ((t0 + ttl <? now)%Z = false) as -> by lia. by rewrite andb_false_r.
Qed.

(** Every entry that [SetVariant] wrote has metadata. *)
Definition has_meta (s : Store) : Prop := ∀ k e, meta s !! k = Some e → me_meta e ≠ None.

Lemma has_meta_SetVariant s ts k m v b ttl :
  has_meta s → has_meta (store_SetVariant s ts k (Some m) v b ttl).1.
Proof.
  intros Hm. unfold store_SetVariant. case_if; [done|]. destruct (setVariantHook s); [done|].
  intros k' e. simpl. rewrite lookup_insert_Some. intros [[<- <-]|[_ ?]]; [|by eapply Hm].
  by destruct (zeroCopy s), (meta s !! k).
Qed.

Lemma has_meta_entry s k soft e : meta s !! k = Some e → has_meta s → has_meta (purge_entry s k soft e).
Proof.
  intros Hk Hm k' e'. unfold purge_entry. destruct soft; simpl.
  - rewrite lookup_insert_Some. intros [[<- <-]|[_ ?]]; [|by eapply Hm]. simpl. by eapply Hm.
  - rewrite lookup_delete_Some. intros [_ ?]. by eapply Hm.
Qed.

Lemma has_meta_loop soft l s c : has_meta s → has_meta (foldl (purge_step soft) (s, c) l).1.
Proof.
  revert s c. induction l as [|k l IH]; intros s c Hs; simpl; [done|].
  destruct (meta s !! k) eqn:Ek; [|by apply IH]. apply IH. by apply has_meta_entry.
Qed.

Definition store_total (s : Store) : Prop := store_usable s ∧ has_meta s.

Lemma total_GetMeta s ts k : store_total s → ∃ x, store_GetMeta s ts ts k = Ret x.
Proof.
  intros [[(Hc & Hz & Hh & _) _] Hm]. unfold store_GetMeta. rewrite Hc, Hz, Hh.
  destruct (meta s !! k) as [e|] eqn:Ek; [|eauto]. case_if; [eauto|].
  destruct (me_meta e) eqn:Em; [eauto|]. by destruct (Hm k e).
Qed.

Lemma total_GetVariant s ts k vk : store_total s → ∃ x, store_GetVariant s ts k vk = Ret x.
Proof.
  intros [[Hp Hok] _]. rewrite refine_GetVariant by done. unfold a_GetVariant.
  repeat case_match; eauto.
Qed.

Lemma purge_where_purged t s s' P soft :
  plain s → plain s' → abs s' = purge_where soft P (abs s) → purged t s s' P soft.
Proof.
  intros Hp Hp' Ha ts k. simpl. rewrite !refine_GetMeta, Ha by done. unfold a_GetMeta.
  rewrite purge_where_lookup. destruct (P k), soft; intros [H|(? & H & _)]; try done.
  - destruct (abs s !! k) as [e|]; simpl in *; [|done]. destruct (expired ts (a_expires e)); [done|].
    by destruct (a_meta e).
Qed.

Lemma total_Purge t s k soft :
  store_total s →
  store_total (store_Purge s k soft).1 ∧ (∃ n, (store_Purge s k soft).2 = Ret n) ∧
  purged t s (store_Purge s k soft).1 (λ k', k' =s k) soft.
Proof.
  intros [[Hp Hok] Hm]. pose proof (refine_Purge s k soft Hp) as Hr.
  assert (store_total (store_Purge s k soft).1) as [[Hp2 Hok2] Hm2].
  { unfold store_Purge. pose proof Hp as (-> & _ & _ & _ & _ & -> & _).
    destruct (meta s !! k) as [e|] eqn:Ek; [|done]. split; [split|].
    - eapply plain_same_mode; [apply same_mode_purge_entry|done].
    - by apply ok_purge_entry.
    - by apply has_meta_entry. }
  destruct (store_Purge s k soft) as [s' o]. destruct Hr as [Ha ->]. cbn [fst snd] in *.
  split; [done|]. split; [eauto|]. by apply purge_where_purged.
Qed.

Lemma total_PurgeByPattern t s p soft :
  store_total s →
  store_total (store_PurgeByPattern s p soft).1 ∧ (∃ n, (store_PurgeByPattern s p soft).2 = Ret n) ∧
  purged t s (store_PurgeByPattern s p soft).1 (matchGlob p) soft.
Proof.
  intros [[Hp Hok] Hm]. pose proof (refine_PurgeByPattern s p soft Hp) as Hr.
  assert (store_total (store_PurgeByPattern s p soft).1) as [[Hp2 Hok2] Hm2].
  { unfold store_PurgeByPattern. pose proof Hp as (-> & _).
    set (l := List.filter _ _). pose proof (same_mode_loop soft l s 0) as H1.
    pose proof (ok_purge_loop soft l s 0 Hok) as H2. pose proof (has_meta_loop soft l s 0 Hm) as H3.
    destruct (foldl _ _ _) as [s' c]. split; [split|]; try done. by eapply plain_same_mode. }
  destruct (store_PurgeByPattern s p soft) as [s' o]. destruct Hr as [Ha ->]. cbn [fst snd] in *.
  split; [done|]. split; [eauto|]. by apply purge_where_purged.
Qed.

#[export, refine] Instance teststore_laws : StorageLaws Store := {|
  usable := store_total; pattern_matches := matchGlob; storable := λ _ _, True; lifetime := λ ttl, ttl |}.
Proof.
  - intros. by apply total_GetMeta.
  - intros. by apply total_GetVariant.
  - intros. by apply total_Purge.
  - intros. by apply total_PurgeByPattern.
  - intros s now k m v b ttl [Hu Hm]. destruct (usable_SetVariant s now k m v b ttl Hu) as (? & _ & Hr).
    split; [|simpl; by rewrite Hr]. split; [done|]. by apply has_meta_SetVariant.
  - intros s now k m v b ttl [Hu _] _. by destruct (usable_SetVariant s now k m v b ttl Hu) as (_ & _ & ?).
  - intros s t0 k m v b ttl now [Hu _] _. by apply store_set_get_meta.
  - intros s t0 k m v b ttl now [Hu _] _. by apply store_set_get_variant.
Defined.

(** ** Invariants of the stored variants *)
Definition store_all (Q : VariantInfo → Prop) (s : Store) : Prop :=
  getMetaHook s = None ∧
  (∀ k vMap vk e, variants s !! k = Some vMap → vMap !! vk = Some e → Q (ve_variant e)) ∧
  (∀ k e m vk v, meta s !! k = Some e → me_meta e = Some m → Variants m !! vk = Some v → Q v).

Lemma store_all_get Q s ts k m b vk v :
  store_all Q s → store_GetMeta s ts ts k = Ret (Some (m, b)) → Variants m !! vk = Some v → Q v.
Proof.
  intros (Hh & Hv & Hm). unfold store_GetMeta. rewrite Hh. case_if; [done|].
  destruct (meta s !! k) as [e|] eqn:Ek; [|done]. case_if; [done|].
  destruct (me_meta e) as [m0|] eqn:Em; [|by case_if]. case_if; simpl.
  - intros [= <- _]. by eapply Hm.
  - intros [= <- _]. simpl. destruct (variants s !! k) as [vMap|] eqn:Ev; [|by rewrite lookup_empty].
    unfold live_variants. rewrite lookup_omap. destruct (vMap !! vk) as [ve|] eqn:Eve; [|done]. simpl.
    case_if; [|done]. intros [= <-]. by eapply Hv.
Qed.

Lemma store_all_set Q s ts k m v b ttl :
  (∀ v k, Q v → Q (with_variant_key v k)) → store_all Q s → Q v →
  (∀ vk v, Variants m !! vk = Some v → Q v) → store_all Q (store_SetVariant s ts k (Some m) v b ttl).1.
Proof.
  intros Hr Hs Hv Hm. unfold store_SetVariant. case_if; [done|]. destruct (setVariantHook s); [done|].
  destruct Hs as (Hh & Hvs & Hms). split; [done|]. split; simpl.
  - intros k' vMap vk e. rewrite lookup_insert_Some. intros [[<- <-]|[_ ?]]; [|by eapply Hvs].
    rewrite lookup_insert_Some. intros [[<- <-]|[_ He]]; [by apply Hr|].
    destruct (variants s !! k) as [vm|] eqn:Evm; simpl in He; [by eapply Hvs|by rewrite lookup_empty in He].
  - intros k' e m' vk v'. rewrite lookup_insert_Some. intros [[<- <-]|[_ ?]]; [|by eapply Hms].
    destruct (zeroCopy s), (meta s !! k); simpl; intros Hm'; simplify_eq; simpl.
    3,4: by apply Hm.
    all: rewrite lookup_insert_Some; intros [[_ <-]|[_ ?]]; [by apply Hr|by eapply Hm].
Qed.

Lemma store_all_entry Q s k soft e :
  meta s !! k = Some e → store_all Q s → store_all Q (purge_entry s k soft e).
Proof.
  intros Hk (Hh & Hvs & Hms). unfold purge_entry. destruct soft; split; try done; split; simpl; try done.
  - intros k' e' m vk v. rewrite lookup_insert_Some. intros [[<- <-]|[_ ?]]; [|by eapply Hms].
    simpl. by eapply Hms.
  - intros k' vMap vk e'. rewrite lookup_delete_Some. intros [_ ?]. by eapply Hvs.
  - intros k' e' m vk v. rewrite lookup_delete_Some. intros [_ ?]. by eapply Hms.
Qed.

Lemma store_all_loop Q soft l s c : store_all Q s → store_all Q (foldl (purge_step soft) (s, c) l).1.
Proof.
  revert s c. induction l as [|k l IH]; intros s c Hs; simpl; [done|].
  destruct (meta s !! k) eqn:Ek; [|by apply IH]. apply IH. by apply store_all_entry.
Qed.

#[export, refine] Instance teststore_inv : StorageInv Store := {| all_variants := store_all |}.
Proof.
  - intros Q s ts k m b vk v Hs Hg. exact (store_all_get Q s ts k m b vk v Hs Hg).
  - intros Q s ts k m v b ttl. apply store_all_set.
  - intros Q s ts k soft Hs. simpl. unfold store_Purge. case_if; [done|]. destruct (purgeHook s); [done|].
    destruct (meta s !! k) eqn:Ek; [|done]. by apply store_all_entry.
  - intros Q s ts p soft Hs. simpl. unfold store_PurgeByPattern. case_if; [done|].
    pose proof (store_all_loop Q soft (List.filter (matchGlob p) (fst <$> range (meta s))) s 0 Hs) as H.
    by destruct (foldl _ _ _).
  - intros Q s ts tag soft Hs. simpl. unfold store_PurgeByTag. case_if; [done|].
    destruct (purgeTagHook s); [done|]. destruct (tagIndex s !! tag) as [keys|]; [|done]. case_if; [done|].
    pose proof (store_all_loop Q soft (fst <$> range keys) s 0 Hs) as H.
    destruct (foldl _ _ _) as [s' c], soft; simpl in *; [done|]. destruct H as (? & ? & ?). by split.
  - intros Q s ts Hs. simpl. unfold store_PurgeAll. case_if; [done|]. destruct Hs as (? & _ & _).
    split; [done|]. split; simpl; intros *; by rewrite lookup_empty.
Defined.

(** A soft purge of a readable key changes what the reads return in the flag only. *)
Lemma soft_purge_reads s now k m' vk r :
  store_usable s →
  store_GetMeta s now now k = Ret (Some (m', false)) →
  store_GetVariant s now k vk = Ret (Some r) →
  store_GetMeta (store_Purge s k true).1 now now k = Ret (Some (m', true)) ∧
  store_GetVariant (store_Purge s k true).1 now k vk = Ret (Some r).
Proof.
  intros [Hp Hok] Hg Hv.
  assert (plain (store_Purge s k true).1 ∧ store_ok (store_Purge s k true).1) as [Hp2 Hok2].
  { unfold store_Purge. case_if; [done|]. destruct (purgeHook s); [done|].
    destruct (meta s !! k) eqn:Ek; [|done]. split; [|by apply ok_purge_entry].
    eapply plain_same_mode; [apply same_mode_purge_entry|done]. }
  pose proof (refine_Purge s k true Hp) as Ha. rewrite refine_GetMeta, refine_GetVariant by done.
  rewrite refine_GetMeta in Hg by done. pose proof Hv as Hv'. rewrite refine_GetVariant in Hv by done.
  destruct (store_Purge s k true) as [s2 c]. destruct Ha as [Ha _]. cbn [fst] in *. rewrite Ha.
  unfold a_GetMeta, a_GetVariant in *. rewrite purge_where_lookup, str_eqb_refl.
  destruct (abs s !! k) as [e|]; [|done]. simpl in *.
  split; [|exact Hv].
  destruct (expired now (a_expires e)); [done|]. destruct (a_meta e); [|done]. congruence.
Qed.

(** ** Properties *)

(** C23: every store that the operations can reach from [New()], in any order
    and with any arguments, keeps metadata and variants on the same keys, files each
    variant under its own name, indexes every tag of every entry, and keeps
    no empty index bucket. *)
Theorem store_invariant s : rtc store_step New s → store_ok s.
Proof.
  intros H. assert (store_ok New) as H0.
  { split; simpl; intros *; rewrite ?lookup_empty; [split; intros []|..]; done. }
  remember New as s0 eqn:Hs0. clear Hs0. induction H as [|s1 s2 s3 Hstep _ IH]; [done|].
  apply IH. clear IH. destruct Hstep; try (destruct H0; split; by simpl).
  - by apply ok_SetVariant.
  - unfold store_Purge. case_if; [done|]. destruct (purgeHook s); [done|].
    destruct (meta s !! k) eqn:Ek; [|done]. by apply ok_purge_entry.
  - unfold store_PurgeByTag. case_if; [done|]. destruct (purgeTagHook s); [done|].
    destruct (tagIndex s !! t) as [keys|] eqn:Et; [|done]. case_if; [done|].
    pose proof (ok_purge_loop soft (fst <$> range keys) s 0 H0) as H1.
    pose proof (ok_delete_tag s keys t H0 Et) as H2.
    destruct soft; destruct (foldl _ _ _) as [s' c] eqn:Ef; [done|exact H2].
  - unfold store_PurgeByPattern. case_if; [done|].
    destruct (foldl _ _ _) as [s' c] eqn:Ef. simpl.
    pose proof (ok_purge_loop soft (List.filter (matchGlob p) (fst <$> range (meta s))) s 0 H0) as H1.
    by rewrite Ef in H1.
  - unfold store_PurgeAll. case_if; [done|].
    split; simpl; intros *; rewrite ?lookup_empty; [split; intros []|..]; done.
  - by apply ok_SetZeroCopy.
  - split; simpl; intros *; rewrite ?lookup_empty; [split; intros []|..]; done.
Qed.

(** C22: in the default mode the store implements the abstract cache: reads,
    writes and purges commute with the abstraction, and the counts that the purges return are the
    numbers of entries they select.  Iteration orders do not matter. *)
Theorem store_refines s now :
  plain s → store_ok s →
  (∀ k, store_GetMeta s now now k = a_GetMeta (abs s) now k) ∧
  (∀ k vk, store_GetVariant s now k vk = a_GetVariant (abs s) now k vk) ∧
  (∀ k m v b ttl, let '(s', r) := store_SetVariant s now k (Some m) v b ttl in
     abs s' = a_SetVariant (abs s) now k m v b ttl ∧ r = Ret tt) ∧
  (∀ k soft, let '(s', r) := store_Purge s k soft in
     abs s' = purge_where soft (λ k', k' =s k) (abs s) ∧
     r = Ret (Z.of_nat (selected (λ k', k' =s k) (abs s)))) ∧
  (∀ p soft, let '(s', r) := store_PurgeByPattern s p soft in
     abs s' = purge_where soft (matchGlob p) (abs s) ∧
     r = Ret (wrap64 (Z.of_nat (selected (matchGlob p) (abs s))))) ∧
  (let '(s', r) := store_PurgeAll s in
     abs s' = purge_where false (λ _, true) (abs s) ∧
     r = Ret (wrap64 (Z.of_nat (selected (λ _, true) (abs s))))).
Proof.
  intros Hp Hok. split; [intros; by apply refine_GetMeta|].
  split; [intros; by apply refine_GetVariant|]. split; [intros; by apply refine_SetVariant|].
  split; [intros; by apply refine_Purge|]. split; [|by apply refine_PurgeAll].
  intros p soft. by apply refine_PurgeByPattern.
Qed.

(** A purge by tag reaches every entry that carries the tag, and touches exactly
    the keys filed under the tag in the index; the rest of the cache is unchanged. *)
Theorem purge_by_tag_complete s tag soft :
  plain s → store_ok s →
  let '(s', r) := store_PurgeByTag s tag soft in
  abs s' = purge_where soft (indexed (tagIndex s) tag) (abs s) ∧
  r = Ret (wrap64 (Z.of_nat (selected (indexed (tagIndex s) tag) (abs s)))) ∧
  (∀ k e m, abs s !! k = Some e → a_meta e = Some m → tag ∈ Tags m →
     abs s' !! k = if soft then Some (a_mark e) else None).
Proof.
  intros Hp Hok. pose proof (tag_state s tag soft Hp) as H.
  destruct (store_PurgeByTag s tag soft) as [s' r]. destruct H as [Ha Hr].
  split; [done|]. split; [done|]. intros k e m Hk Hm Hin.
  rewrite Ha, purge_where_lookup, Hk. rewrite abs_lookup in Hk.
  destruct (meta s !! k) as [me|] eqn:Ek; [|done]. injection Hk as <-. simpl in Hm.
  rewrite (ok_tags s Hok k me tag Ek); [by destruct soft|]. unfold entry_tags. by rewrite Hm.
Qed.

(** What was written is read back, from any reachable store and over any
    earlier entry: until the time to live has passed, the metadata is found, not
    soft-purged, with the variant in its registry, and the variant comes with
    the body written.  A soft purge in between keeps all of it and sets the flag. *)
Theorem write_then_read s t0 k m v b ttl now :
  store_usable s → live t0 ttl now →
  let s1 := (store_SetVariant s t0 k (Some m) v b ttl).1 in
  let s2 := (store_Purge s1 k true).1 in
  let v' := with_variant_key v (variant_name (VariantKey v)) in
  ∃ m', meta_agrees m m' ∧ Variants m' !! variant_name (VariantKey v) = Some v' ∧
        store_GetMeta s1 now now k = Ret (Some (m', false)) ∧
        store_GetMeta s2 now now k = Ret (Some (m', true)) ∧
        store_GetVariant s1 now k (VariantKey v) = Ret (Some (v', b)) ∧
        store_GetVariant s2 now k (VariantKey v) = Ret (Some (v', b)).
Proof.
  intros Hu Hl s1 s2 v'.
  destruct (store_set_get_meta s t0 k m v b ttl now Hu Hl) as (m' & Hg & Hm & Hv).
  pose proof (store_set_get_variant s t0 k m v b ttl now Hu Hl) as Hgv. fold s1 in Hg, Hgv.
  destruct (usable_SetVariant s t0 k m v b ttl Hu) as (Hu1 & _). fold s1 in Hu1.
  exists m'. do 3 (split; [done|]).
  by destruct (soft_purge_reads s1 now k m' (VariantKey v) (v', b) Hu1 Hg Hgv).
Qed.
End Properties.

(** ** Witnesses and a counterexample *)
Definition demo_meta (tags : list str) : CacheMetadata := mkCacheMetadata (B "k") [] ∅ 0 0 0 0 tags.
Definition demo_variant (key : string) : VariantInfo := mkVariantInfo (B key) ∅ 200 ∅ [] 0 0 [] [].
Definition demo_store : Store :=
  (store_SetVariant (store_SetVariant New 0 (B "p=/a:") (Some (demo_meta [B "news"]))
     (demo_variant "") (B "hello") Second).1
     0 (B "p=/b:") (Some (demo_meta [B "news"; B "home"])) (demo_variant "gzip") (B "bye") Second).1.

Lemma demo_store_reachable : rtc store_step New demo_store.
Proof. eapply rtc_l; [constructor|]. eapply rtc_l; [constructor|]. apply rtc_refl. Qed.

Lemma New_usable : store_usable New.
Proof. split; [by repeat split|]. split; simpl; intros *; rewrite ?lookup_empty; [split; intros []|..]; done. Qed.

Lemma demo_store_usable : store_usable demo_store.
Proof. apply usable_SetVariant, usable_SetVariant, New_usable. Qed.

Lemma store_invariant_witness : store_ok demo_store.
Proof. exact (store_invariant demo_store demo_store_reachable). Defined.

Lemma store_refines_witness :
  store_GetVariant demo_store 5 (B "p=/b:") (B "gzip")
  = Ret (Some (demo_variant "gzip", B "bye")) ∧
  (store_PurgeByPattern demo_store (B "p=/?:*") false).2 = Ret 2%Z.
Proof.
  destruct demo_store_usable as [Hp Hok].
  destruct (store_refines demo_store 5 Hp Hok) as (_ & Hv & _ & _ & Hpat & _). split.
  - rewrite Hv. vm_compute. reflexivity.
  - specialize (Hpat (B "p=/?:*") false).
    destruct (store_PurgeByPattern demo_store (B "p=/?:*") false) as [s' r].
    destruct Hpat as [_ ->]. vm_compute. reflexivity.
Defined.

Lemma purge_by_tag_complete_witness :
  abs (store_PurgeByTag demo_store (B "home") false).1 !! B "p=/b:" = None ∧
  is_Some (abs (store_PurgeByTag demo_store (B "home") false).1 !! B "p=/a:").
Proof.
  destruct demo_store_usable as [Hp Hok].
  pose proof (purge_by_tag_complete demo_store (B "home") false Hp Hok) as H.
  destruct (store_PurgeByTag demo_store (B "home") false) as [s' r]. destruct H as (Ha & _).
  cbn [fst]. rewrite Ha, !purge_where_lookup. vm_compute. eauto.
Defined.

Lemma write_then_read_witness :
  store_GetVariant (store_SetVariant New 0 (B "k") (Some (demo_meta [])) (demo_variant "br") (B "x") Second).1
    7 (B "k") (B "br") = Ret (Some (demo_variant "br", B "x")).
Proof.
  destruct (write_then_read New 0 (B "k") (demo_meta []) (demo_variant "br") (B "x") Second 7)
    as (m' & _ & _ & _ & _ & H & _); [apply New_usable|by split|exact H].
Defined.

(** A defect: [SetVariant] never removes a key from the buckets of tags
    that its new metadata dropped, so a purge by tag also deletes an entry that
    does not carry the tag. *)
Theorem stale_tag_over_purges :
  let s1 := (store_SetVariant New 0 (B "k") (Some (demo_meta [B "old"])) (demo_variant "") [] 0).1 in
  let s2 := (store_SetVariant s1 0 (B "k") (Some (demo_meta [B "new"])) (demo_variant "") [] 0).1 in
  rtc store_step New s2 ∧
  (entry_tags <$> meta s2 !! B "k") = Some [B "new"] ∧
  meta (store_PurgeByTag s2 (B "old") false).1 !! B "k" = None.
Proof.
  split; [|split; vm_compute; reflexivity].
  eapply rtc_l; [constructor|]. eapply rtc_l; [constructor|]. apply rtc_refl.
Qed.
