(* ===== verification/Glob.v ===== *)
(** * Facts about the glob matcher of the store

    [matchGlob] works on runes; these lemmas bring it back to bytes: a literal
    part of a pattern is matched byte for byte, and a star takes any text
    without a newline. *)

From S2P Require Import Prelude GoStrings GoHttp Storage TestStore.

(** The bytes that a pattern takes literally. *)
Definition newline : ascii := Ascii.ascii_of_N 10.
Definition plain_byte (c : ascii) : bool :=
  is_ascii_byte c && negb (one_of "*?\" c) && negb (byte_eqb c newline).
Definition plain_str (s : str) : bool := forallb plain_byte s.

Lemma plain_str_app a b : plain_str (a ++ b) = plain_str a && plain_str b.
Proof. apply forallb_app. Qed.

Lemma plain_str_spec s : plain_str s = true ↔ ∀ c, c ∈ s → plain_byte c = true.
Proof.
  unfold plain_str. rewrite forallb_forall. split; intros H c Hc; apply H; by apply list_elem_of_In.
Qed.

Lemma ascii_byte_lt c : is_ascii_byte c = true → (byte_val c <? 128)%N = true.
Proof.
  assert (∀ d, implb (is_ascii_byte d) (byte_val d <? 128)%N = true) as H
    by (apply ascii_forall; vm_compute; reflexivity).
  specialize (H c). intros Hc. by rewrite Hc in H.
Qed.

Lemma runes_ascii_cons c s :
  is_ascii_byte c = true → runes (c :: s) = byte_val c :: runes s.
Proof. intros Hc. unfold runes. simpl. unfold decode_rune. by rewrite ascii_byte_lt. Qed.

Lemma glob_compile_plain c p :
  plain_byte c = true → glob_compile (c :: p) = GLit (byte_val c) :: glob_compile p.
Proof.
  intros H. assert (byte_eqb c "\" = false ∧ byte_eqb c "*" = false ∧ byte_eqb c "?" = false)
    as (H1 & H2 & H3).
  { assert (∀ d, implb (plain_byte d) (negb (byte_eqb d "\") && negb (byte_eqb d "*")
      && negb (byte_eqb d "?")) = true) as Hd by (apply ascii_forall; vm_compute; reflexivity).
    specialize (Hd c). rewrite H in Hd. simpl in Hd.
    apply andb_true_iff in Hd as [[?%negb_true_iff ?%negb_true_iff]%andb_true_iff ?%negb_true_iff]. done. }
  simpl. by rewrite H1, H2, H3.
Qed.

(** A literal prefix is matched byte for byte. *)
Lemma match_literal p q s :
  plain_str p = true → matchGlob (p ++ q) (p ++ s) = matchGlob q s.
Proof.
  unfold matchGlob. induction p as [|c p IH]; simpl app; [done|].
  simpl plain_str. intros [Hc Hp]%andb_true_iff. rewrite glob_compile_plain by done.
  rewrite runes_ascii_cons; [|by apply andb_true_iff in Hc as [[? _]%andb_true_iff _]].
  simpl glob_match. rewrite N.eqb_refl. by apply IH.
Qed.

(** ** No newline from other bytes *)
Lemma lor_high_10 a k b : (6 ≤ k)%N → N.lor (N.shiftl a k) b = 10%N → a = 0%N.
Proof.
  intros Hk H. destruct (N.eq_dec a 0) as [|Ha]; [done|]. exfalso.
  assert (N.testbit (N.lor (N.shiftl a k) b) (N.log2 a + k) = true) as Hb.
  { rewrite N.lor_spec, N.shiftl_spec_high' by lia.
    replace (N.log2 a + k - k)%N with (N.log2 a) by lia. by rewrite N.bit_log2. }
  rewrite H, N.bits_above_log2 in Hb; [done|]. change (N.log2 10) with 3%N. lia.
Qed.

Lemma lead_facts c n lo hi :
  utf8_lead (byte_val c) = Some (n, lo, hi) →
  (128 ≤ lo)%N ∧ (n = 2%nat ∧ N.land (byte_val c) 31 ≠ 0%N ∨
   n = 3%nat ∧ (N.land (byte_val c) 15 ≠ 0%N ∨ (160 ≤ lo)%N) ∨
   n = 4%nat ∧ (N.land (byte_val c) 7 ≠ 0%N ∨ (144 ≤ lo)%N)).
Proof.
  assert (∀ d, match utf8_lead (byte_val d) with
    | Some (n, lo, hi) => (128 <=? lo)%N &&
        ((n =? 2)%nat && negb (N.land (byte_val d) 31 =? 0)%N
         || (n =? 3)%nat && (negb (N.land (byte_val d) 15 =? 0)%N || (160 <=? lo)%N)
         || (n =? 4)%nat && (negb (N.land (byte_val d) 7 =? 0)%N || (144 <=? lo)%N))
    | None => true end = true) as H by (apply ascii_forall; vm_compute; reflexivity).
  specialize (H c). intros Hl. rewrite Hl in H.
  rewrite !andb_true_iff, !orb_true_iff, !andb_true_iff, !orb_true_iff, !negb_true_iff,
    !Nat.eqb_eq, !N.eqb_neq, !N.leb_le in H. tauto.
Qed.

Lemma low6_high c lo hi :
  in_bytes lo hi c = true → (hi ≤ 191)%N → (128 < lo)%N → low6 c ≠ 0%N.
Proof.
  unfold in_bytes, low6. intros [Hlo%N.leb_le Hhi%N.leb_le]%andb_true_iff Hh Hl.
  assert (∀ d, implb ((128 <? byte_val d) && (byte_val d <=? 191))%N
                     (negb (N.land (byte_val d) 63 =? 0)%N) = true) as H
    by (apply ascii_forall; vm_compute; reflexivity).
  specialize (H c). rewrite (proj2 (N.ltb_lt _ _)), (proj2 (N.leb_le _ _)) in H by lia.
  simpl in H. by apply negb_true_iff, N.eqb_neq in H.
Qed.

Lemma lead_hi c n lo hi : utf8_lead (byte_val c) = Some (n, lo, hi) → (hi ≤ 191)%N.
Proof.
  assert (∀ d, match utf8_lead (byte_val d) with Some (_, _, hi) => (hi <=? 191)%N
    | None => true end = true) as H by (apply ascii_forall; vm_compute; reflexivity).
  specialize (H c). intros Hl. rewrite Hl in H. by apply N.leb_le.
Qed.

Lemma decode_rune_dot c s : c ≠ newline → dot (decode_rune c s).1 = true.
Proof.
  intros Hc. unfold dot. apply negb_true_iff, N.eqb_neq. unfold decode_rune. case_if.
  { simpl. intros Hv. apply Hc. apply byte_val_inj. by rewrite Hv. }
  destruct (utf8_lead (byte_val c)) as [[[n lo] hi]|] eqn:El; [|done].
  pose proof (lead_hi _ _ _ _ El) as Hhi. apply lead_facts in El as [Hlo Hn].
  destruct Hn as [[-> Hb]|[[-> Hb]|[-> Hb]]].
  - destruct s as [|c1 s]; [done|]. case_if; [|done]. cbn [fst]. by intros ?%lor_high_10.
  - destruct s as [|c1 [|c2 s]]; try done. case_if; [|done]. cbn [fst].
    rewrite <- N.lor_assoc. intros H. pose proof H as H'. apply lor_high_10 in H'; [|done].
    rewrite H' in H. change (N.shiftl 0 12) with 0%N in H. rewrite N.lor_0_l in H.
    apply lor_high_10 in H; [|done]. destruct Hb as [|Hb]; [done|].
    revert H. eapply low6_high; [done..|lia].
  - destruct s as [|c1 [|c2 [|c3 s]]]; try done. case_if; [|done]. cbn [fst].
    rewrite <- !N.lor_assoc. intros H. pose proof H as H'. apply lor_high_10 in H'; [|done].
    rewrite H' in H. change (N.shiftl 0 18) with 0%N in H. rewrite N.lor_0_l in H.
    apply lor_high_10 in H; [|done]. destruct Hb as [|Hb]; [done|].
    revert H. eapply low6_high; [done..|lia].
Qed.

Lemma runes_dot s : newline ∉ s → Forall (λ r, dot r = true) (runes s).
Proof.
  unfold runes. generalize O as k. induction s as [|c s IH]; intros k Hn; simpl; [constructor|].
  assert (newline ∉ s ∧ (c ≠ newline)) as [Hs Hc] by set_solver. destruct k as [|k]; [|by apply IH].
  pose proof (decode_rune_dot c s Hc) as Hd. destruct (decode_rune c s) as [r w]. constructor; [done|].
  by apply IH.
Qed.

(** ** The star *)
Lemma star_skip g a b :
  Forall (λ r, dot r = true) a → glob_match g b = true → glob_match (GStar :: g) (a ++ b) = true.
Proof.
  intros Ha Hb. induction Ha as [|r a Hr _ IH].
  - simpl. destruct b; rewrite Hb; done.
  - simpl in *. rewrite Hr, IH. by rewrite orb_true_r.
Qed.

(** A final star takes the rest. *)
Lemma match_final_star s : newline ∉ s → matchGlob (B "*") s = true.
Proof.
  intros Hs. unfold matchGlob. change (glob_compile (B "*")) with [GStar].
  rewrite <- (app_nil_r (runes s)). apply star_skip; [by apply runes_dot|done].
Qed.

(** A decoded rune does not reach across an ASCII byte. *)
Lemma decode_rune_stop c a d b :
  is_ascii_byte d = true → decode_rune c (a ++ d :: b) = decode_rune c a.
Proof.
  intros Hd%ascii_byte_lt%N.ltb_lt. unfold decode_rune. case_if; [done|].
  destruct (utf8_lead (byte_val c)) as [[[n lo] hi]|] eqn:El; [|done].
  apply lead_facts in El as [Hlo _].
  assert (in_bytes lo hi d = false) as H1 by (unfold in_bytes; apply andb_false_iff; left; apply N.leb_gt; lia).
  assert (in_bytes 128 191 d = false) as H2 by (unfold in_bytes; apply andb_false_iff; left; apply N.leb_gt; lia).
  destruct n as [|[|[|[|[|n]]]]]; try done; destruct a as [|c1 [|c2 [|c3 a]]]; simpl;
    rewrite ?H1, ?H2, ?andb_false_r; try done; destruct b as [|d1 [|d2 b]]; simpl;
    by rewrite ?H1, ?H2, ?andb_false_r.
Qed.

Lemma decode_rune_width c a : (snd (decode_rune c a) - 1 ≤ length a)%nat.
Proof.
  unfold decode_rune. case_if; [simpl; lia|].
  destruct (utf8_lead (byte_val c)) as [[[n lo] hi]|]; [|simpl; lia].
  destruct n as [|[|[|[|[|n]]]]], a as [|c1 [|c2 [|c3 a]]]; simpl; try lia;
    case_if; simpl; lia.
Qed.

Lemma runes_app_ascii a d b :
  is_ascii_byte d = true → runes (a ++ d :: b) = runes a ++ runes (d :: b).
Proof.
  intros Hd. unfold runes.
  enough (∀ k, (k ≤ length a)%nat → runes_go k (a ++ d :: b) = runes_go k a ++ runes_go 0 (d :: b))
    as H by (apply H; lia).
  induction a as [|c a IH]; intros k Hk.
  - assert (k = 0%nat) as -> by (simpl in Hk; lia). done.
  - destruct k as [|k]; simpl app; cbn [runes_go].
    + rewrite decode_rune_stop by done. pose proof (decode_rune_width c a) as Hw.
      destruct (decode_rune c a) as [r w]. simpl in Hw |- *. f_equal. by apply IH.
    + apply IH. simpl in Hk. lia.
Qed.

(** A star in the middle takes any text up to an ASCII byte. *)
Lemma match_star a q d b :
  newline ∉ a → is_ascii_byte d = true → matchGlob q (d :: b) = true →
  matchGlob (B "*" ++ q) (a ++ d :: b) = true.
Proof.
  intros Ha Hd Hm. unfold matchGlob in *. change (glob_compile (B "*" ++ q)) with (GStar :: glob_compile q).
  rewrite runes_app_ascii by done. apply star_skip; [by apply runes_dot|done].
Qed.

(** ** The interface of a pattern matcher

    What the purge patterns need of a store's matcher: some bytes stand for
    themselves (among them those that URL escaping leaves, a bracket excepted), and a
    star takes any text without a newline. *)
Class GlobMatcher (g : str → str → bool) := {
  literal : ascii → bool;
  literal_plain : ∀ c, plain_byte c = true → c ≠ ("["%char) → literal c = true;
  match_prefix : ∀ p q s, forallb literal p = true → g (p ++ q) (p ++ s) = g q s;
  match_rest : ∀ s, newline ∉ s → g (B "*") s = true;
  match_middle : ∀ a q d b, newline ∉ a → is_ascii_byte d = true → g q (d :: b) = true →
    g (B "*" ++ q) (a ++ d :: b) = true;
}.

#[export] Instance matchGlob_matcher : GlobMatcher matchGlob := {|
  literal := plain_byte;
  literal_plain := λ c H _, H;
  match_prefix := match_literal;
  match_rest := match_final_star;
  match_middle := match_star;
|}.

(** Text that a matcher takes literally. *)
Definition literal_str (g : str → str → bool) {G : GlobMatcher g} (s : str) : bool := forallb literal s.

Section Matcher.
Context (g : str → str → bool) {G : GlobMatcher g}.

Lemma literal_str_app a b : literal_str g (a ++ b) = literal_str g a && literal_str g b.
Proof. apply forallb_app. Qed.

Lemma literal_prefix p q s : literal_str g p = true → g (p ++ q) (p ++ s) = g q s.
Proof. apply match_prefix. Qed.

Lemma plain_literal s : plain_str s = true → "["%char ∉ s → literal_str g s = true.
Proof.
  intros Hs Hb. apply forallb_forall. intros c Hc%list_elem_of_In.
  apply literal_plain; [by eapply plain_str_spec|]. intros ->. done.
Qed.
End Matcher.
