(* ===== verification/Redis.v ===== *)
(** * The Redis server, as the store uses it

    Redis, its Go client (rueidis) and the protobuf codec are not part of the
    repository, so they are parameters: [RedisServer] holds the commands that
    the store sends, [Proto] the codec.  What their documentation promises is stated in
    [RedisDoc] and [ProtoDoc], in terms of a keyspace: strings and hashes, where
    keys and hash fields may have a deadline.

    Every command sees the keyspace without what has expired by then ([evict]);
    the server's clock is that of the calls and does not go back.  A command may
    fail at any time, before or after it took effect; [up] says that it does not.
    [mem_server] is a small server that satisfies the documentation. *)

From S2P Require Import Prelude GoStrings GoHttp Storage TestStore Glob.
#[local] Unset Default Proof Using.

(** ** The keyspace *)
Record hfield := mkField { hf_value : str; hf_expire : option Z }.

Inductive rvalue :=
  | RString (s : str)
  | RHash (h : gmap str hfield).

Record rentry := mkEntry { re_value : rvalue; re_expire : option Z }.
Abbreviation keyspace := (gmap str rentry).

Definition alive (t : Z) (deadline : option Z) : bool :=
  match deadline with None => true | Some d => (t <? d)%Z end.

Definition live_fields (t : Z) (h : gmap str hfield) : gmap str hfield :=
  filter (λ kv, alive t (hf_expire kv.2) = true) h.

(** A hash without fields does not exist. *)
Definition evict_entry (t : Z) (e : rentry) : option rentry :=
  if negb (alive t (re_expire e)) then None else
  match re_value e with
  | RString _ => Some e
  | RHash h =>
      if bool_decide (live_fields t h = ∅) then None
      else Some (mkEntry (RHash (live_fields t h)) (re_expire e))
  end.

Definition evict (t : Z) (d : keyspace) : keyspace := omap (evict_entry t) d.

(** ** Commands and replies *)
Inductive expire_mode := NX | GT.

Inductive cmd :=
  | HGETALL (k : str)
  | HGET (k f : str)
  | GET (k : str)
  | HKEYS (k : str)
  | HEXISTS (k f : str)
  | SCAN (cursor : N) (pattern : str)
  | HSCAN (k : str) (cursor : N)
  | HSET (k : str) (fvs : list (str * str))
  | HEXPIRE (k : str) (secs : Z) (f : str)
  | HDEL (k f : str)
  | SETEX (k v : str) (secs : Z)
  | EXPIRE (k : str) (secs : Z) (mode : expire_mode)
  | UNLINK (ks : list str).

(** [RDone] is the reply of a write whose value nobody looks at. *)
Inductive reply :=
  | RNil
  | RError (e : str)
  | RDone
  | RInt (n : Z)
  | RBulk (s : str)
  | RMap (m : gmap str str)
  | RArray (l : list str)
  | RScan (cursor : N) (l : list str).

Definition WRONGTYPE : str := B "WRONGTYPE Operation against a key holding the wrong kind of value".

(** The hash under a key; a missing key is the empty hash. *)
Definition hash_of (d : keyspace) (k : str) : result (gmap str hfield) :=
  match d !! k with
  | None => Ok ∅
  | Some e => match re_value e with RHash h => Ok h | RString _ => Err WRONGTYPE end
  end.

(** Writing a hash keeps the deadline of its key. *)
Definition put_hash (d : keyspace) (k : str) (h : gmap str hfield) : keyspace :=
  if bool_decide (h = ∅) then delete k d
  else <[k := mkEntry (RHash h) (d !! k ≫= re_expire)]> d.

Definition on_hash (d : keyspace) (k : str) (f : gmap str hfield → keyspace * reply) : keyspace * reply :=
  match hash_of d k with Ok h => f h | Err e => (d, RError e) end.

Definition deadline (t secs : Z) : Z := (t + secs * Second)%Z.

Definition set_fields (h : gmap str hfield) (fvs : list (str * str)) : gmap str hfield :=
  foldl (λ h fv, <[fv.1 := mkField fv.2 None]> h) h fvs.

Definition set_expire (d : keyspace) (k : str) (new : Z) (mode : expire_mode) : keyspace :=
  match d !! k with
  | None => d
  | Some e =>
      let upd := <[k := mkEntry (re_value e) (Some new)]> d in
      match mode, re_expire e with
      | NX, None => upd
      | GT, Some old => if (old <? new)%Z then upd else d
      | NX, Some _ | GT, None => d
      end
  end.

(** What the documentation says of each command but the scans, on a keyspace without
    expired entries; [secs] is positive. *)
Definition run (d : keyspace) (t : Z) (c : cmd) : keyspace * reply :=
  match c with
  | HGETALL k => on_hash d k (λ h, (d, RMap (hf_value <$> h)))
  | HGET k f => on_hash d k (λ h, (d, match h !! f with Some x => RBulk (hf_value x) | None => RNil end))
  | GET k => (d, match d !! k with
                 | None => RNil
                 | Some e => match re_value e with RString s => RBulk s | RHash _ => RError WRONGTYPE end
                 end)
  | HKEYS k => on_hash d k (λ h, (d, RArray (fst <$> map_to_list h)))
  | HEXISTS k f => on_hash d k (λ h, (d, RInt (if bool_decide (is_Some (h !! f)) then 1 else 0)))
  | HSET k fvs => on_hash d k (λ h, (put_hash d k (set_fields h fvs), RDone))
  | HEXPIRE k secs f => on_hash d k (λ h,
      (match h !! f with
       | Some x => put_hash d k (<[f := mkField (hf_value x) (Some (deadline t secs))]> h)
       | None => d
       end, RDone))
  | HDEL k f => on_hash d k (λ h, (put_hash d k (delete f h), RDone))
  | SETEX k v secs => (<[k := mkEntry (RString v) (Some (deadline t secs))]> d, RDone)
  | EXPIRE k secs mode => (set_expire d k (deadline t secs) mode, RDone)
  | UNLINK ks => (foldr delete d ks, RDone)
  | SCAN _ _ | HSCAN _ _ => (d, RDone)
  end.

Definition is_read (c : cmd) : bool :=
  match c with
  | HGETALL _ | HGET _ _ | GET _ | HKEYS _ | HEXISTS _ _ => true
  | _ => false
  end.

Definition is_write (c : cmd) : bool :=
  match c with
  | HSET _ _ | HEXPIRE _ _ _ | HDEL _ _ | SETEX _ _ _ | EXPIRE _ _ _ | UNLINK _ => true
  | _ => false
  end.

(** The order of the names in an array is not specified. *)
Definition reply_ok (a b : reply) : Prop :=
  match a, b with
  | RArray l, RArray l' => l ≡ₚ l'
  | RArray _, _ | _, RArray _ => False
  | _, _ => a = b
  end.

(** ** Scans *)
Inductive scan_target :=
  | ScanKeys (pattern : str)
  | ScanHash (k : str).

Definition scan_cmd (s : scan_target) (cursor : N) : cmd :=
  match s with ScanKeys p => SCAN cursor p | ScanHash k => HSCAN k cursor end.

(** HSCAN returns alternating fields and values. *)
Fixpoint evens (l : list str) : list str :=
  match l with
  | [] => []
  | [x] => [x]
  | x :: _ :: l' => x :: evens l'
  end.

Definition returned (s : scan_target) (l : list str) : list str :=
  match s with ScanKeys _ => l | ScanHash _ => evens l end.

(** ** Parameters *)
Class RedisServer (R : Type) := {
  query : R → Z → cmd → reply;          (* a command that reads *)
  exec : R → Z → cmd → R * reply;       (* a command that writes *)
  redis_glob : str → str → bool;        (* the patterns of SCAN MATCH *)
  scan_bound : R → nat;                 (* calls that an iteration takes, if nothing is added meanwhile *)
  reply_error : reply → str;            (* the client's error for a reply of the wrong kind *)
}.

Class Proto := {
  marshal_meta : CacheMetadata → result str;
  unmarshal_meta : str → result CacheMetadata;
  marshal_variant : VariantInfo → result str;
  unmarshal_variant : str → result VariantInfo;
}.

(** What was encoded decodes to the same message. *)
Class ProtoDoc (P : Proto) := {
  meta_round_trip : ∀ m b, marshal_meta m = Ok b → unmarshal_meta b = Ok m;
  variant_round_trip : ∀ v b, marshal_variant v = Ok b → unmarshal_variant b = Ok v;
}.

(** Pattern characters with a meaning; the rules are those of the documentation
    of KEYS: [?] any byte, [*] any text, [[ae]] one of the listed bytes, and a backslash
    for a literal byte. *)
Definition glob_special (c : ascii) : bool := one_of "*?[\" c.

Class GlobDoc (g : str → str → bool) := {
  glob_nil : ∀ s, g [] s = is_nil s;
  glob_char : ∀ c p s, glob_special c = false →
    g (c :: p) s = match s with d :: s' => byte_eqb c d && g p s' | [] => false end;
  glob_any : ∀ p s, g ("?"%char :: p) s = match s with _ :: s' => g p s' | [] => false end;
  glob_escape : ∀ c p s,
    g ("\"%char :: c :: p) s = match s with d :: s' => byte_eqb c d && g p s' | [] => false end;
  glob_set : ∀ cs p s, cs ≠ [] → forallb (λ c, negb (one_of "^-]\" c)) cs = true →
    g ("["%char :: cs ++ "]"%char :: p) s
    = match s with d :: s' => existsb (byte_eqb d) cs && g p s' | [] => false end;
  glob_star : ∀ p s, g ("*"%char :: p) s = true ↔ ∃ a b, s = a ++ b ∧ g p b = true;
}.

(** A documented matcher serves the purge patterns. *)
Section DocMatcher.
Context (g : str → str → bool) {G : GlobDoc g}.

Lemma doc_prefix p q s : forallb (λ c, negb (glob_special c)) p = true → g (p ++ q) (p ++ s) = g q s.
Proof.
  induction p as [|c p IH]; [done|]. simpl. intros [Hc%negb_true_iff Hp]%andb_true_iff.
  rewrite glob_char by done. by rewrite byte_eqb_refl, IH.
Qed.

Lemma doc_star q a b : g q b = true → g (B "*" ++ q) (a ++ b) = true.
Proof. intros H. apply glob_star. eauto. Qed.

#[refine] Instance doc_matcher : GlobMatcher g := {|
  literal := λ c, negb (glob_special c);
  match_prefix := doc_prefix;
  match_middle := λ a q d b _ _, doc_star q a (d :: b);
|}.
Proof.
  - intros c Hp Hb. assert (implb (plain_byte c && negb (byte_eqb c "[")) (negb (glob_special c)) = true) as H
      by (revert c Hp Hb; intros c _ _; revert c; apply ascii_forall; vm_compute; reflexivity).
    rewrite Hp in H. apply byte_eqb_neq in Hb. by rewrite Hb in H.
  - intros s _. rewrite <- (app_nil_r s). change (B "*") with (B "*" ++ []). apply doc_star. apply glob_nil.
Defined.
End DocMatcher.
#[export] Existing Instance doc_matcher.

Section Iteration.
Context {R : Type} {RS : RedisServer R}.

Definition present (s : scan_target) (d : keyspace) (x : str) : Prop :=
  match s with
  | ScanKeys p => is_Some (d !! x) ∧ redis_glob p x = true
  | ScanHash k => ∃ h, hash_of d k = Ok h ∧ is_Some (h !! x)
  end.

(** The server has gone from [r] to [r'] by executing commands. *)
Definition evolves (r r' : R) : Prop := rtc (λ a b, ∃ t c, b = (exec a t c).1) r r'.

(** A full iteration from a cursor: the state at each call, and what the call returned. *)
Inductive iteration (s : scan_target) (t : Z) : R → N → list (R * list str) → Prop :=
  | iteration_last r c l :
      query r t (scan_cmd s c) = RScan 0 l → iteration s t r c [(r, l)]
  | iteration_more r c c' l r' steps :
      query r t (scan_cmd s c) = RScan c' l → c' ≠ 0%N → evolves r r' →
      iteration s t r' c' steps → iteration s t r c ((r, l) :: steps).

(** [n] calls of an iteration that has not come to its end, where [no_more]
    says that nothing is added to what is scanned. *)
Inductive unfinished (s : scan_target) (t : Z) (no_more : R → R → Prop) : R → N → nat → Prop :=
  | unfinished_0 r c : unfinished s t no_more r c 0
  | unfinished_S r c c' l r' n :
      query r t (scan_cmd s c) = RScan c' l → c' ≠ 0%N → evolves r r' → no_more r r' →
      unfinished s t no_more r' c' n → unfinished s t no_more r c (S n).
End Iteration.

(** ** The documentation *)
Class RedisDoc (R : Type) {RS : RedisServer R} := {
  up : R → Prop;
  data : R → keyspace;
  redis_globs :: GlobDoc redis_glob;
  (* a reply is an error or the documented one *)
  query_doc : ∀ r t c, is_read c = true →
    (∃ e, query r t c = RError e) ∨ reply_ok (query r t c) (run (evict t (data r)) t c).2;
  query_up : ∀ r t c, up r → is_read c = true → reply_ok (query r t c) (run (evict t (data r)) t c).2;
  (* a write has its effect or none *)
  exec_doc : ∀ r t c, is_write c = true →
    data (exec r t c).1 = data r ∨ data (exec r t c).1 = (run (evict t (data r)) t c).1;
  exec_up : ∀ r t c, up r → is_write c = true →
    up (exec r t c).1 ∧ data (exec r t c).1 = (run (evict t (data r)) t c).1 ∧
    (exec r t c).2 = (run (evict t (data r)) t c).2;
  (* what a scan returns is there *)
  scan_sound : ∀ r t s c c' l x, query r t (scan_cmd s c) = RScan c' l → x ∈ returned s l →
    present s (evict t (data r)) x;
  scan_up : ∀ r t s c, up r → (∀ k, s = ScanHash k → is_ok (hash_of (evict t (data r)) k) = true) →
    ∃ c' l, query r t (scan_cmd s c) = RScan c' l;
  (* "A full iteration always retrieves all the elements that were present in the
     collection from the start to the end of a full iteration." *)
  scan_complete : ∀ r t s steps x, iteration s t r 0 steps →
    (∀ r' l, (r', l) ∈ steps → present s (evict t (data r')) x) →
    ∃ r' l, (r', l) ∈ steps ∧ x ∈ returned s l;
  (* an iteration over a collection that does not grow ends *)
  scan_ends : ∀ r t s n,
    unfinished s t (λ a b, ∀ x, present s (evict t (data b)) x → present s (evict t (data a)) x) r 0 n →
    n ≤ scan_bound r;
}.
