(* ===== verification/RedisStore.v ===== *)
(** * The Redis store ([src/storage/redis/redis.go])

    Metadata is a hash per primary key (the index, one field per variant, a
    soft-purge mark), a body is a string per variant, and a tag is a hash of
    primary keys.  [RedisStorage] itself keeps only its client, prefix and logger,
    so an operation takes the server's state, the time of the call and the
    prefix.  Here the commands of one call run at one time; [RedisRace]
    interleaves those of many.  Loops over a scan cursor
    take as fuel the bound on the calls of an iteration; running out of it
    ([None]) does not happen on a documented server ([RedisLaws]).
    Left out: logging. *)

From S2P Require Import Prelude GoStrings GoHttp Storage TestStore Glob Redis.

Definition defaultPrefix := B "titip:".
Definition indexField := B "_index".
Definition softPurgedField := B "_soft_purged".
Definition variantPrefix := B "v:".

(** [strings.CutPrefix]. *)
Definition CutPrefix (s p : str) : option str :=
  if HasPrefix s p then Some (drop (length p) s) else None.

(** ** Options and construction *)
Record redis_config := mkRedisConfig { rc_prefix : str; rc_logger : option nat }.

Inductive redis_option :=
  | WithKeyPrefix (prefix : str)
  | WithLogger (logger : option nat).

Definition apply_redis_option (c : redis_config) (o : redis_option) : redis_config :=
  match o with
  | WithKeyPrefix p => mkRedisConfig p (rc_logger c)
  | WithLogger l => mkRedisConfig (rc_prefix c) l
  end.

(** [New]: the prefix and the logger ([0] is [slog.Default()]). *)
Definition redis_New (client : bool) (opts : list redis_option) : result (str * nat) :=
  if negb client then Err (B "redis: client is required") else
  let cfg := foldl apply_redis_option (mkRedisConfig defaultPrefix None) opts in
  Ok (rc_prefix cfg, default 0%nat (rc_logger cfg)).

Section RedisStore.
Context {R : Type} {RS : RedisServer R} {P : Proto} (prefix : str).

(** ** Names *)
Definition metaKey (primaryKey : str) : str := prefix ++ B "meta:" ++ primaryKey.
Definition bodyKey (primaryKey variantKey : str) : str :=
  prefix ++ B "body:" ++ primaryKey ++ B ":" ++ variantKey.
Definition tagKey (tagName : str) : str := prefix ++ B "tag:" ++ tagName.
Definition variantField (variantKey : str) : str := variantPrefix ++ variantKey.

(** ** Reading *)

(** The loop over the fields of the hash. *)
Definition add_variant (k b : str) (vs : gmap str VariantInfo) : gmap str VariantInfo :=
  match CutPrefix k variantPrefix, unmarshal_variant b with
  | Some after, Ok v => <[after := v]> vs
  | _, _ => vs
  end.
Definition hash_variants (m : gmap str str) : gmap str VariantInfo := map_fold add_variant ∅ m.

Definition redis_GetMeta (r : R) (t : Z) (primaryKey : str) : outcome (option (CacheMetadata * bool)) :=
  match query r t (HGETALL (metaKey primaryKey)) with
  | RNil => Ret None
  | RError e => Fail (B "redis: get meta: " ++ e)
  | RMap m =>
      match m !! indexField with
      | None => Ret None
      | Some indexBytes =>
          match unmarshal_meta indexBytes with
          | Err e => Fail (B "redis: unmarshal meta index: " ++ e)
          | Ok meta =>
              Ret (Some (with_variants meta (hash_variants m),
                         bool_decide (m !! softPurgedField = Some (B "1"))))
          end
      end
  | _ => Ret None
  end.

Definition redis_GetVariant (r : R) (t : Z) (primaryKey variantKey : str)
    : outcome (option (VariantInfo * str)) :=
  let variantKey := if is_nil variantKey then B "default" else variantKey in
  match query r t (HGET (metaKey primaryKey) (variantField variantKey)),
        query r t (GET (bodyKey primaryKey variantKey)) with
  | RNil, _ | _, RNil => Ret None
  | RError e, _ => Fail (B "redis: get variant meta: " ++ e)
  | _, RError e => Fail (B "redis: get variant body: " ++ e)
  | RBulk varBytes, rep =>
      match unmarshal_variant varBytes with
      | Err e => Fail (B "redis: unmarshal variant info: " ++ e)
      | Ok varInfo =>
          match rep with
          | RBulk bodyBytes => Ret (Some (varInfo, bodyBytes))
          | _ => Fail (B "redis: parse variant body bytes: " ++ reply_error rep)
          end
      end
  | rep, _ => Fail (B "redis: parse variant meta bytes: " ++ reply_error rep)
  end.

(** ** Writing *)
Fixpoint DoMulti (r : R) (t : Z) (cmds : list cmd) : R * list reply :=
  match cmds with
  | [] => (r, [])
  | c :: cmds' =>
      let '(r1, rep) := exec r t c in
      let '(r2, reps) := DoMulti r1 t cmds' in (r2, rep :: reps)
  end.

(** The index without the variants. *)
Definition leanMeta (meta : CacheMetadata) : CacheMetadata := with_variants meta ∅.

(** [int64(ttl.Seconds())], at least one second. *)
Definition ttlSeconds (ttl : Z) : Z := Z.max (seconds_int ttl) 1.

(** Both commands that set or extend the deadline of a key. *)
Definition expire_cmds (k : str) (secs : Z) : list cmd := [EXPIRE k secs NX; EXPIRE k secs GT].

Definition tag_cmds (primaryKey : str) (secs : Z) (tag : str) : list cmd :=
  if is_nil tag then [] else
  [HSET (tagKey tag) [(primaryKey, B "1")]; HEXPIRE (tagKey tag) secs primaryKey] ++ expire_cmds (tagKey tag) secs.

Definition set_cmds (primaryKey variantKey : str) (indexBytes varBytes body : str) (tags : list str) (secs : Z)
    : list cmd :=
  [HSET (metaKey primaryKey) [(indexField, indexBytes); (variantField variantKey, varBytes)];
   HEXPIRE (metaKey primaryKey) secs (variantField variantKey);
   HDEL (metaKey primaryKey) softPurgedField;
   SETEX (bodyKey primaryKey variantKey) body secs]
  ++ expire_cmds (metaKey primaryKey) secs ++ (tags ≫= tag_cmds primaryKey secs).

(** The first error of a pipeline, [i] being the position of its first reply. *)
Fixpoint pipeline_error (i : nat) (resps : list reply) : option str :=
  match resps with
  | [] => None
  | RError e :: _ => Some (B "redis: set variant pipeline at op " ++ itoa (Z.of_nat i) ++ B ": " ++ e)
  | _ :: resps' => pipeline_error (S i) resps'
  end.

Definition redis_SetVariant (r : R) (t : Z) (primaryKey : str) (meta : CacheMetadata) (variant : VariantInfo)
    (body : str) (ttl : Z) : R * outcome unit :=
  let variant := with_variant_key variant (variant_name (VariantKey variant)) in
  match marshal_meta (leanMeta meta) with
  | Err e => (r, Fail (B "redis: marshal meta index: " ++ e))
  | Ok indexBytes =>
      match marshal_variant variant with
      | Err e => (r, Fail (B "redis: marshal variant: " ++ e))
      | Ok varBytes =>
          let '(r', resps) :=
            DoMulti r t (set_cmds primaryKey (VariantKey variant) indexBytes varBytes body (Tags meta) (ttlSeconds ttl)) in
          (r', match pipeline_error 0 resps with Some e => Fail e | None => Ret tt end)
      end
  end.

(** ** Purging one entry *)
Definition body_keys (primaryKey : str) (fields : list str) : list str :=
  omap (λ k, bodyKey primaryKey <$> CutPrefix k variantPrefix) fields.

(** [Do(UNLINK)]: the error, if any. *)
Definition unlink (r : R) (t : Z) (ks : list str) : R * option str :=
  let '(r', rep) := exec r t (UNLINK ks) in
  (r', match rep with RError e => Some e | _ => None end).

Definition hardPurge (r : R) (t : Z) (primaryKey : str) : R * outcome Z :=
  match query r t (HKEYS (metaKey primaryKey)) with
  | RNil => (r, Ret 0%Z)
  | RError e => (r, Fail (B "redis: delete fetch keys: " ++ e))
  | RArray (k :: keys) =>
      let '(r', err) := unlink r t (metaKey primaryKey :: body_keys primaryKey (k :: keys)) in
      (r', match err with Some e => Fail (B "redis: delete execute: " ++ e) | None => Ret 1%Z end)
  | _ => (r, Ret 0%Z)
  end.

(** The Lua script, which runs atomically: the reply is a number, or an error. *)
Definition softPurgeScript (r : R) (t : Z) (key : str) : R * result Z :=
  match query r t (HEXISTS key indexField) with
  | RInt n =>
      if (n =? 1)%Z then
        let '(r', rep) := exec r t (HSET key [(softPurgedField, B "1")]) in
        (r', match rep with RError e => Err e | _ => Ok 1%Z end)
      else (r, Ok 0%Z)
  | RError e => (r, Err e)
  | rep => (r, Err (reply_error rep))
  end.

Definition softPurge (r : R) (t : Z) (primaryKey : str) : R * outcome Z :=
  let '(r', res) := softPurgeScript r t (metaKey primaryKey) in
  (r', match res with Ok n => Ret n | Err e => Fail (B "redis: soft purge: " ++ e) end).

Definition redis_Purge (r : R) (t : Z) (primaryKey : str) (soft : bool) : R * outcome Z :=
  if soft then softPurge r t primaryKey else hardPurge r t primaryKey.

(** The marked entries of a batch, and the first error. *)
Fixpoint softPurgeKeys (r : R) (t : Z) (metaKeys : list str) : R * (Z * option str) :=
  match metaKeys with
  | [] => (r, (0%Z, None))
  | k :: metaKeys' =>
      let '(r1, res) := softPurgeScript r t k in
      let '(r2, (count, firstErr)) := softPurgeKeys r1 t metaKeys' in
      (r2, match res with
           | Ok n => ((n + count)%Z, firstErr)
           | Err e => (count, Some e)
           end)
  end.

(** ** Loops over a cursor

    [scan_loop s step] repeats: scan, hand what was returned to [step], go on at the
    new cursor.  [None] is fuel that ran out; an error ends the loop. *)
Fixpoint scan_loop {A} (fuel : nat) (s : scan_target) (t : Z) (fail : reply → str)
    (step : R → A → list str → R * result A) (r : R) (acc : A) (cursor : N) : option (R * result A) :=
  match fuel with
  | O => None
  | S fuel' =>
      match query r t (scan_cmd s cursor) with
      | RScan cursor' l =>
          let '(r', res) := step r acc (returned s l) in
          match res with
          | Err e => Some (r', Err e)
          | Ok acc' =>
              if (cursor' =? 0)%N then Some (r', Ok acc')
              else scan_loop fuel' s t fail step r' acc' cursor'
          end
      | RNil => match s with ScanHash _ => Some (r, Ok acc) | ScanKeys _ => Some (r, Err (fail RNil)) end
      | rep => Some (r, Err (fail rep))
      end
  end.

Definition scan_all {A} (s : scan_target) (t : Z) (fail : reply → str)
    (step : R → A → list str → R * result A) (r : R) (acc : A) : option (R * result A) :=
  scan_loop (S (scan_bound r)) s t fail step r acc 0.

(** The error text of a failed scan: the server's error, or that of the client for a reply of another kind. *)
Definition scan_failure (e1 e2 : str) (rep : reply) : str :=
  match rep with RError e => e1 ++ e | RNil => e1 ++ reply_error RNil | _ => e2 ++ reply_error rep end.

(** ** Purging by tag *)

(** The keys to delete for a batch, from the HKEYS replies. *)
Fixpoint batch_keys (r : R) (t : Z) (primaryKeys : list str) : result (list str) :=
  match primaryKeys with
  | [] => Ok []
  | pk :: rest =>
      match query r t (HKEYS (metaKey pk)) with
      | RNil => batch_keys r t rest
      | RError e => Err (B "redis: purge tag fetch keys: " ++ e)
      | RArray varKeys =>
          match batch_keys r t rest with
          | Ok ks => Ok ((metaKey pk :: body_keys pk varKeys) ++ ks)
          | Err e => Err e
          end
      | rep => Err (B "redis: purge tag keys parse: " ++ reply_error rep)
      end
  end.

Definition tag_batch (soft : bool) (t : Z) (r : R) (processed : Z) (primaryKeys : list str) : R * result Z :=
  if is_nil primaryKeys then (r, Ok processed) else
  let done := Ok (processed + Z.of_nat (length primaryKeys))%Z in
  if soft then
    let '(r', (_, err)) := softPurgeKeys r t (metaKey <$> primaryKeys) in
    (r', match err with Some e => Err (B "redis: purge tag soft purge: " ++ e) | None => done end)
  else
    match batch_keys r t primaryKeys with
    | Err e => (r, Err e)
    | Ok [] => (r, done)
    | Ok delKeys =>
        let '(r', err) := unlink r t delKeys in
        (r', match err with Some e => Err (B "redis: purge tag execute: " ++ e) | None => done end)
    end.

(** Out of fuel: no answer of the code. *)
Definition no_answer {A} (r : R) : R * outcome A := (r, Panicked).

Definition redis_PurgeByTag (r : R) (t : Z) (tag : str) (soft : bool) : R * outcome Z :=
  match scan_all (ScanHash (tagKey tag)) t
          (scan_failure (B "redis: purge tag hscan: ") (B "redis: purge tag scan entry: ")) (tag_batch soft t) r 0%Z with
  | None => no_answer r
  | Some (r', Err e) => (r', Fail e)
  | Some (r', Ok processed) =>
      (if soft then r' else (unlink r' t [tagKey tag]).1, Ret processed)
  end.

(** ** Purging by pattern *)
Definition unlink_batch (t : Z) (r : R) (acc : Z * Z) (elements : list str) : R * result (Z * Z) :=
  if is_nil elements then (r, Ok acc) else
  let '(r', err) := unlink r t elements in
  (r', match err with
       | Some e => Err (B "redis: unlink: " ++ e)
       | None => Ok (acc.1 + Z.of_nat (length elements),
                     acc.2 + Z.of_nat (length (List.filter (λ k, Contains k (B ":meta:")) elements)))%Z
       end).

Definition scan_error : reply → str := scan_failure (B "redis: scan: ") (B "redis: scan entry: ").

(** [scanAndUnlink]: deleted keys, and those of them that are metadata. *)
Definition scanAndUnlink (r : R) (t : Z) (matchPattern : str) : option (R * result (Z * Z)) :=
  scan_all (ScanKeys matchPattern) t scan_error (unlink_batch t) r (0, 0)%Z.

Definition hard_patterns (pattern : str) : list str :=
  let isExplicitPrefix := HasPrefix pattern (B "meta:") || HasPrefix pattern (B "body:")
                          || HasPrefix pattern (B "tag:") || (pattern =s B "*") in
  if isExplicitPrefix then [prefix ++ pattern]
  else [prefix ++ B "meta:" ++ pattern; prefix ++ B "body:" ++ pattern ++ B "*"].

Fixpoint unlink_patterns (r : R) (t : Z) (patterns : list str) (primaryDeleted : Z) : R * outcome Z :=
  match patterns with
  | [] => (r, Ret primaryDeleted)
  | p :: rest =>
      match scanAndUnlink r t p with
      | None => no_answer r
      | Some (r', Err e) => (r', Fail e)
      | Some (r', Ok (_, pd)) => unlink_patterns r' t rest (primaryDeleted + pd)
      end
  end.

Definition hardPurgePattern (r : R) (t : Z) (pattern : str) : R * outcome Z :=
  unlink_patterns r t (hard_patterns pattern) 0.

(** A failed batch is logged and skipped. *)
Definition soft_batch (t : Z) (r : R) (count : Z) (elements : list str) : R * result Z :=
  let '(r', (n, _)) := softPurgeKeys r t elements in (r', Ok (count + n)%Z).

Definition softPurgePattern (r : R) (t : Z) (pattern : str) : R * outcome Z :=
  let fullPattern := prefix ++ B "meta:" ++ TrimPrefix pattern (B "meta:") in
  match scan_all (ScanKeys fullPattern) t scan_error (soft_batch t) r 0%Z with
  | None => no_answer r
  | Some (r', Err e) => (r', Fail e)
  | Some (r', Ok n) => (r', Ret n)
  end.

Definition redis_PurgeByPattern (r : R) (t : Z) (pattern : str) (soft : bool) : R * outcome Z :=
  if soft then softPurgePattern r t pattern else hardPurgePattern r t pattern.

Definition redis_PurgeAll (r : R) (t : Z) : R * outcome Z :=
  match scanAndUnlink r t (prefix ++ B "*") with
  | None => no_answer r
  | Some (r', Err e) => (r', Fail e)
  | Some (r', Ok (_, primaryDeleted)) => (r', Ret primaryDeleted)
  end.

Definition redis_storage : Storage R := {|
  GetMeta := redis_GetMeta;
  GetVariant := redis_GetVariant;
  SetVariant := redis_SetVariant;
  Purge := redis_Purge;
  PurgeByPattern := redis_PurgeByPattern;
  PurgeByTag := redis_PurgeByTag;
  PurgeAll := redis_PurgeAll;
|}.
End RedisStore.
