(* ===== verification/RedisFacts.v ===== *)
(** * Facts about the Redis keyspace and the loops of the store

    How eviction and the commands act on single keys and hash fields, the
    typing of the store's keys ([typed]) and that every command of the store keeps it,
    and what a finished scan loop has seen. *)

From S2P Require Import Prelude GoStrings GoHttp Storage TestStore Glob Redis RedisStore.
#[local] Unset Default Proof Using.

(** ** Eviction *)
Lemma lookup_evict t d k : evict t d !! k = d !! k ≫= evict_entry t.
Proof. apply lookup_omap. Qed.

Lemma live_fields_Some t h f x :
  live_fields t h !! f = Some x ↔ h !! f = Some x ∧ alive t (hf_expire x) = true.
Proof. unfold live_fields. by rewrite map_lookup_filter_Some. Qed.

Lemma live_fields_idem t h : live_fields t (live_fields t h) = live_fields t h.
Proof. apply map_eq. intros f. apply option_eq. intros x. rewrite !live_fields_Some. tauto. Qed.

Lemma evict_entry_Some t e e' :
  evict_entry t e = Some e' →
  alive t (re_expire e) = true ∧ re_expire e' = re_expire e ∧
  ((∃ s, re_value e = RString s ∧ re_value e' = RString s) ∨
   (∃ h, re_value e = RHash h ∧ re_value e' = RHash (live_fields t h) ∧ live_fields t h ≠ ∅)).
Proof.
  unfold evict_entry. destruct (alive t (re_expire e)) eqn:Ea; [|done]. destruct (re_value e) as [s|h] eqn:Ev; simpl.
  - intros [= <-]. eauto 10.
  - destruct (bool_decide _) eqn:Eb; [done|]. apply bool_decide_eq_false_1 in Eb. intros [= <-]. simpl. eauto 10.
Qed.

(** An entry without anything expired. *)
Definition settled (t : Z) (e : rentry) : Prop := evict_entry t e = Some e.

Lemma evict_settled t e e' : evict_entry t e = Some e' → settled t e'.
Proof.
  intros H. apply evict_entry_Some in H as (Ha & Hx & [(s & _ & Hs)|(h & _ & Hh & Hn)]);
    unfold settled, evict_entry; rewrite Hx, Ha; simpl.
  - by rewrite Hs.
  - rewrite Hh, live_fields_idem. rewrite bool_decide_eq_false_2 by done. by destruct e'; simpl in *; subst.
Qed.

Lemma settled_hash t h x :
  alive t x = true → h ≠ ∅ → (∀ f y, h !! f = Some y → alive t (hf_expire y) = true) →
  settled t (mkEntry (RHash h) x).
Proof.
  intros Hx Hh Hf. unfold settled, evict_entry. simpl. rewrite Hx. simpl.
  assert (live_fields t h = h) as ->; [|by rewrite bool_decide_eq_false_2].
  apply map_eq. intros f. apply option_eq. intros y. rewrite live_fields_Some. split; [by intros []|eauto].
Qed.

Lemma evict_lookup_settled t d k e : evict t d !! k = Some e → settled t e.
Proof. rewrite lookup_evict. intros (e0 & _ & H)%bind_Some. by eapply evict_settled. Qed.

Lemma evict_keeps t d k e : d !! k = Some e → settled t e → evict t d !! k = Some e.
Proof. intros Hd He. by rewrite lookup_evict, Hd. Qed.

Lemma evict_idem t d : evict t (evict t d) = evict t d.
Proof.
  apply map_eq. intros k. rewrite lookup_evict. destruct (evict t d !! k) as [e|] eqn:E; [|done].
  simpl. by eapply evict_lookup_settled.
Qed.

(** ** Fields *)

(** The hash under [k] has the field [f], at time [ts]. *)
Definition field_at (d : keyspace) (ts : Z) (k f : str) (x : hfield) : Prop :=
  ∃ e h, d !! k = Some e ∧ alive ts (re_expire e) = true ∧ re_value e = RHash h ∧
         h !! f = Some x ∧ alive ts (hf_expire x) = true.

Lemma field_at_hash d ts k h f x :
  hash_of (evict ts d) k = Ok h → h !! f = Some x ↔ field_at d ts k f x.
Proof.
  unfold hash_of, field_at. rewrite lookup_evict. destruct (d !! k) as [e|]; simpl.
  2: { intros [= <-]. rewrite lookup_empty. split; [done|]. by intros (? & ? & ? & _). }
  unfold evict_entry. destruct (alive ts (re_expire e)) eqn:Ea; simpl.
  2: { intros [= <-]. rewrite lookup_empty. split; [done|]. intros (e' & h & [= <-] & ? & _). congruence. }
  destruct (re_value e) as [s|h0] eqn:Ev; simpl.
  - rewrite Ev. intros [=].
  - destruct (bool_decide _) eqn:Eb; simpl.
    + intros [= <-]. apply bool_decide_eq_true_1 in Eb. rewrite lookup_empty. split; [done|].
      intros (e' & h & [= <-] & _ & Hh & Hf & Hx). rewrite Ev in Hh. injection Hh as ->.
      assert (live_fields ts h !! f = Some x) as H by (by apply live_fields_Some). by rewrite Eb, lookup_empty in H.
    + intros [= <-]. rewrite live_fields_Some. split.
      * intros [? ?]. eauto 10.
      * intros (e' & h & [= <-] & _ & Hh & Hf & Hx). rewrite Ev in Hh. by injection Hh as ->.
Qed.

Lemma field_at_evict t d ts k f x : field_at (evict t d) ts k f x → field_at d ts k f x ∧ field_at d t k f x.
Proof.
  intros (e & h & Hk & Ha & Hv & Hf & Hx). rewrite lookup_evict in Hk.
  apply bind_Some in Hk as (e0 & H0 & He). apply evict_entry_Some in He as (Ha0 & Hx0 & [(s & _ & Hs)|(h0 & H1 & H2 & _)]);
    [congruence|].
  assert (h = live_fields t h0) as -> by congruence. apply live_fields_Some in Hf as [Hf Hft].
  rewrite Hx0 in Ha. split; exists e0, h0; auto.
Qed.

Lemma field_at_settled d t e ts k f x h :
  d !! k = Some e → re_value e = RHash h → settled t e → field_at d ts k f x → h !! f = Some x.
Proof. intros Hd He _ (e' & h' & Hd' & _ & Hv & Hf & _). congruence. Qed.

(** ** Commands *)
Definition touched (c : cmd) : list str :=
  match c with
  | HSET k _ | HEXPIRE k _ _ | HDEL k _ | SETEX k _ _ | EXPIRE k _ _ => [k]
  | UNLINK ks => ks
  | _ => []
  end.

Lemma put_hash_ne d k h k' : k' ≠ k → put_hash d k h !! k' = d !! k'.
Proof.
  intros Hne. unfold put_hash. case_if; [by rewrite lookup_delete_ne|by rewrite lookup_insert_ne].
Qed.

Lemma put_hash_eq d k h :
  h ≠ ∅ → put_hash d k h !! k = Some (mkEntry (RHash h) (d !! k ≫= re_expire)).
Proof. intros Hh. unfold put_hash. rewrite bool_decide_eq_false_2 by done. by rewrite lookup_insert_eq. Qed.

Lemma foldr_delete_lookup (d : keyspace) ks k :
  foldr delete d ks !! k = if bool_decide (k ∈ ks) then None else d !! k.
Proof.
  induction ks as [|k0 ks IH]; simpl; [done|]. destruct (decide (k = k0)) as [->|Hne].
  - rewrite lookup_delete_eq. by rewrite bool_decide_eq_true_2 by set_solver.
  - rewrite lookup_delete_ne by done. rewrite IH. apply bool_decide_ext || f_equal.
    case_bool_decide as H1; case_bool_decide as H2; set_solver.
Qed.

Lemma run_untouched d t c k : k ∉ touched c → (run d t c).1 !! k = d !! k.
Proof.
  intros Hk. destruct c; simpl in *; unfold on_hash; try (by destruct (hash_of _ _)); try done.
  - destruct (hash_of _ _); [|done]. apply put_hash_ne. set_solver.
  - destruct (hash_of _ _); [|done]. simpl. destruct (_ !! f); [|done]. apply put_hash_ne. set_solver.
  - destruct (hash_of _ _); [|done]. apply put_hash_ne. set_solver.
  - apply lookup_insert_ne. set_solver.
  - unfold set_expire. destruct (d !! k0) as [e|]; [|done].
    destruct mode, (re_expire e); try done; [|case_if; [|done]]; apply lookup_insert_ne; set_solver.
  - rewrite foldr_delete_lookup. by rewrite bool_decide_eq_false_2.
Qed.

(** What a command at time [t] makes of a keyspace. *)
Definition step_data (t : Z) (d : keyspace) (c : cmd) : keyspace := (run (evict t d) t c).1.

Lemma step_keeps t d c k e :
  d !! k = Some e → settled t e → k ∉ touched c → step_data t d c !! k = Some e.
Proof. intros Hd He Hk. unfold step_data. rewrite run_untouched by done. by apply evict_keeps. Qed.

Lemma steps_keep t cmds d k e :
  d !! k = Some e → settled t e → (∀ c, c ∈ cmds → k ∉ touched c) → foldl (step_data t) d cmds !! k = Some e.
Proof.
  revert d. induction cmds as [|c cmds IH]; intros d Hd He Hk; [done|]. simpl. apply IH; [|done|set_solver].
  apply step_keeps; [done..|]. apply Hk. set_solver.
Qed.

(** ** Typing of the store's keys *)
Section Typed.
Context {P : Proto} (prefix : str).
Abbreviation metaKey := (metaKey prefix).
Abbreviation bodyKey := (bodyKey prefix).
Abbreviation tagKey := (tagKey prefix).

Lemma metaKey_inj a b : metaKey a = metaKey b → a = b.
Proof. by intros ?%app_inv_head%app_inv_head. Qed.
Lemma meta_not_body a b c : metaKey a ≠ bodyKey b c.
Proof. by intros ?%app_inv_head. Qed.
Lemma meta_not_tag a b : metaKey a ≠ tagKey b.
Proof. by intros ?%app_inv_head. Qed.
Lemma body_not_tag a b c : bodyKey a b ≠ tagKey c.
Proof. by intros ?%app_inv_head. Qed.
Lemma variantField_inj a b : variantField a = variantField b → a = b.
Proof. by intros ?%app_inv_head. Qed.
Lemma index_not_variant a : indexField ≠ variantField a.
Proof. done. Qed.
Lemma soft_not_variant a : softPurgedField ≠ variantField a.
Proof. done. Qed.
Lemma index_not_soft : indexField ≠ softPurgedField.
Proof. done. Qed.

Context (Q : VariantInfo → Prop).

(** The index and the variants of a metadata hash decode, the variants to
    messages with [Q]. *)
Definition field_ok (f v : str) : Prop :=
  (f = indexField → ∃ m, unmarshal_meta v = Ok m) ∧
  (∀ vk, f = variantField vk → ∃ x, unmarshal_variant v = Ok x ∧ Q x).

Definition value_ok (k : str) (v : rvalue) : Prop :=
  (∀ pk, k = metaKey pk → ∃ h, v = RHash h ∧ ∀ f x, h !! f = Some x → field_ok f (hf_value x)) ∧
  (∀ pk vk, k = bodyKey pk vk → ∃ s, v = RString s) ∧
  (∀ tag, k = tagKey tag → ∃ h, v = RHash h).

Definition typed (d : keyspace) : Prop := ∀ k e, d !! k = Some e → value_ok k (re_value e).

Lemma soft_field_ok : field_ok softPurgedField (B "1").
Proof. split; [by intros ?|]. by intros vk ?%soft_not_variant. Qed.

Lemma value_ok_hash k h h' :
  value_ok k (RHash h) →
  (∀ f x, h' !! f = Some x → (∃ y, h !! f = Some y ∧ hf_value y = hf_value x) ∨
                             (∀ pk, k = metaKey pk → field_ok f (hf_value x))) →
  value_ok k (RHash h').
Proof.
  intros (Hm & Hb & Ht) Hf. split; [|split].
  - intros pk Hk. exists h'. split; [done|]. intros f x Hx. destruct (Hm pk Hk) as (h0 & [= <-] & H0).
    destruct (Hf f x Hx) as [(y & Hy & <-)|H]; [by apply H0|by eapply H].
  - intros pk vk Hk. by destruct (Hb pk vk Hk).
  - intros tag _. by exists h'.
Qed.

Lemma typed_empty : typed ∅.
Proof. intros k e. by rewrite lookup_empty. Qed.

Lemma typed_evict t d : typed d → typed (evict t d).
Proof.
  intros Hd k e. rewrite lookup_evict. intros (e0 & H0 & He)%bind_Some. specialize (Hd k e0 H0).
  apply evict_entry_Some in He as (_ & _ & [(s & H1 & ->)|(h & H1 & -> & _)]); rewrite H1 in Hd; [done|].
  eapply value_ok_hash; [exact Hd|]. intros f x [Hx _]%live_fields_Some. left. eauto.
Qed.

Lemma typed_insert d k e : typed d → value_ok k (re_value e) → typed (<[k := e]> d).
Proof. intros Hd He k' e'. rewrite lookup_insert_Some. intros [[<- <-]|[_ ?]]; [done|by apply Hd]. Qed.

Lemma typed_put d k h : typed d → (h ≠ ∅ → value_ok k (RHash h)) → typed (put_hash d k h).
Proof.
  intros Hd Hh. unfold put_hash. case_if; [|apply typed_insert; [done|by apply Hh]].
  intros k' e' [_ ?]%lookup_delete_Some. by apply Hd.
Qed.

Lemma hash_of_typed d k h : typed d → hash_of d k = Ok h → is_Some (d !! k) → value_ok k (RHash h).
Proof.
  intros Hd Hh [e He]. specialize (Hd k e He). unfold hash_of in Hh. rewrite He in Hh.
  destruct (re_value e); [done|]. by injection Hh as ->.
Qed.

(** What the store's commands must respect. *)
Definition cmd_ok (d : keyspace) (c : cmd) : Prop :=
  match c with
  | HSET k fvs =>
      (∀ pk, k = metaKey pk → ∀ f v, (f, v) ∈ fvs → field_ok f v) ∧
      (is_Some (d !! k) ∨ ∀ pk vk, k ≠ bodyKey pk vk)
  | SETEX k _ _ => (∀ pk, k ≠ metaKey pk) ∧ (∀ tag, k ≠ tagKey tag)
  | _ => True
  end.

Lemma set_fields_Some h fvs f x :
  set_fields h fvs !! f = Some x → h !! f = Some x ∨ (f, hf_value x) ∈ fvs.
Proof.
  unfold set_fields. revert h. induction fvs as [|[f0 v0] fvs IH]; intros h; simpl; [by left|].
  intros [H|H]%IH; [|right; set_solver]. rewrite lookup_insert_Some in H. destruct H as [[<- <-]|[_ H]]; [right; set_solver|by left].
Qed.

Lemma hash_lookup_present d k h f : hash_of d k = Ok h → is_Some (h !! f) → is_Some (d !! k).
Proof.
  unfold hash_of. destruct (d !! k); [eauto|]. intros [= <-] [x Hx]. by rewrite lookup_empty in Hx.
Qed.

Lemma typed_run d t c : typed d → cmd_ok d c → typed (run d t c).1.
Proof.
  intros Hd Hc. destruct c; simpl in *; unfold on_hash; try (by destruct (hash_of _ _)); try done.
  - destruct (hash_of d k) as [h|] eqn:Hh; [|done]. destruct Hc as [Hf Hb]. apply typed_put; [done|]. intros _.
    destruct (d !! k) as [e|] eqn:Ek.
    + eapply value_ok_hash; [by eapply hash_of_typed|]. intros f x [H|H]%set_fields_Some; [eauto|]. right. eauto.
    + destruct Hb as [[]|Hb]; [done|]. split; [|split; [by intros pk vk ?%Hb|eauto]]. intros pk Hk. eexists. split; [done|].
      intros f x [H|H]%set_fields_Some; [|by eapply Hf]. unfold hash_of in Hh. rewrite Ek in Hh. injection Hh as <-.
      by rewrite lookup_empty in H.
  - destruct (hash_of d k) as [h|] eqn:Hh; [|done]. simpl. destruct (h !! f) as [x|] eqn:Hx; [|done].
    apply typed_put; [done|]. intros _. eapply value_ok_hash.
    { eapply hash_of_typed; [done..|]. by eapply hash_lookup_present. }
    intros f' y. rewrite lookup_insert_Some. intros [[<- <-]|[_ ?]]; left; eauto.
  - destruct (hash_of d k) as [h|] eqn:Hh; [|done]. apply typed_put; [done|]. intros Hne. eapply value_ok_hash.
    { eapply hash_of_typed; [done..|]. apply map_choose in Hne as (f' & x & [_ Hx]%lookup_delete_Some).
      by eapply hash_lookup_present. }
    intros f' y [_ ?]%lookup_delete_Some. left. eauto.
  - destruct Hc as [H1 H2]. apply typed_insert; [done|]. split; [by intros pk ?%H1|split; [simpl; eauto|by intros tag ?%H2]].
  - unfold set_expire. destruct (d !! k) as [e|] eqn:Ek; [|done]. specialize (Hd k e Ek) as He.
    destruct mode, (re_expire e); try done; [|case_if; [|done]]; by apply typed_insert.
  - intros k e. rewrite foldr_delete_lookup. case_bool_decide; [done|]. apply Hd.
Qed.
End Typed.

(** ** What every operation keeps

    [K] is kept by the deletions, the script and the pipeline of a write. *)
Section Keep.
Context {R : Type} {RS : RedisServer R} {P : Proto} (prefix : str) (K : R → Prop) (t : Z)
        (K_unlink : ∀ r ks, K r → K (exec r t (UNLINK ks)).1)
        (K_script : ∀ r k, K r → K (softPurgeScript r t k).1).

Lemma keep_unlink r ks : K r → K (unlink r t ks).1.
Proof. intros H. specialize (K_unlink r ks H). unfold unlink. by destruct (exec r t (UNLINK ks)). Qed.

Lemma keep_softPurgeKeys r ks : K r → K (softPurgeKeys r t ks).1.
Proof.
  revert r. induction ks as [|k ks IH]; intros r Hr; [done|]. simpl. specialize (K_script r k Hr).
  destruct (softPurgeScript r t k) as [r1 res]. specialize (IH r1 K_script). by destruct (softPurgeKeys r1 t ks) as [r2 []].
Qed.

Lemma keep_scan_loop {A} fuel s fail (step : R → A → list str → R * result A) r acc c r' res :
  (∀ r acc l, K r → K (step r acc l).1) → K r →
  scan_loop fuel s t fail step r acc c = Some (r', res) → K r'.
Proof.
  intros Hstep. revert r acc c. induction fuel as [|fuel IH]; intros r acc c Hr; simpl; [done|].
  destruct (query r t (scan_cmd s c)); try (by intros [= <- _]); [destruct s; by intros [= <- _]|].
  specialize (Hstep r acc (returned s l) Hr). destruct (step r acc (returned s l)) as [r1 [acc1|e]]; [|by intros [= <- _]].
  case_if; [by intros [= <- _]|by apply IH].
Qed.

Lemma keep_tag_batch soft r acc l : K r → K (tag_batch prefix soft t r acc l).1.
Proof.
  intros Hr. unfold tag_batch. case_if; [done|]. destruct soft.
  - pose proof (keep_softPurgeKeys r (RedisStore.metaKey prefix <$> l) Hr) as H. by destruct (softPurgeKeys _ _ _) as [? []].
  - destruct (batch_keys _ _ _ _) as [[|k ks]|e]; try done. pose proof (keep_unlink r (k :: ks) Hr) as H.
    by destruct (unlink _ _ _).
Qed.

Lemma keep_unlink_batch r acc l : K r → K (unlink_batch t r acc l).1.
Proof.
  intros Hr. unfold unlink_batch. case_if; [done|]. pose proof (keep_unlink r l Hr) as H. by destruct (unlink _ _ _).
Qed.

Lemma keep_soft_batch r acc l : K r → K (soft_batch t r acc l).1.
Proof.
  intros Hr. unfold soft_batch. pose proof (keep_softPurgeKeys r l Hr) as H. by destruct (softPurgeKeys _ _ _) as [? []].
Qed.

Lemma keep_Purge r pk soft : K r → K (redis_Purge prefix r t pk soft).1.
Proof.
  intros Hr. unfold redis_Purge. destruct soft.
  - unfold softPurge. specialize (K_script r (RedisStore.metaKey prefix pk) Hr). by destruct (softPurgeScript _ _ _).
  - unfold hardPurge. destruct (query _ _ _) as [| | | | | |[|k ks]|]; try done.
    pose proof (keep_unlink r (RedisStore.metaKey prefix pk :: body_keys prefix pk (k :: ks)) Hr) as H. by destruct (unlink _ _ _).
Qed.

Lemma keep_PurgeByTag r tag soft : K r → K (redis_PurgeByTag prefix r t tag soft).1.
Proof.
  intros Hr. unfold redis_PurgeByTag. destruct (scan_all _ _ _ _ _ _) as [[r' res]|] eqn:Es; [|done].
  apply keep_scan_loop in Es; [|intros; by apply keep_tag_batch|done].
  destruct res; [|done]. destruct soft; [done|]. by apply keep_unlink.
Qed.

Lemma keep_scanAndUnlink r p r' res : K r → scanAndUnlink r t p = Some (r', res) → K r'.
Proof. intros Hr. apply keep_scan_loop; [|done]. intros. by apply keep_unlink_batch. Qed.

Lemma keep_unlink_patterns r ps n : K r → K (unlink_patterns r t ps n).1.
Proof.
  revert r n. induction ps as [|p ps IH]; intros r n Hr; [done|]. simpl.
  destruct (scanAndUnlink r t p) as [[r' [[d pd]|e]]|] eqn:Es; [|by eapply keep_scanAndUnlink|done].
  apply IH. by eapply keep_scanAndUnlink.
Qed.

Lemma keep_PurgeByPattern r p soft : K r → K (redis_PurgeByPattern prefix r t p soft).1.
Proof.
  intros Hr. unfold redis_PurgeByPattern. destruct soft; [|by apply keep_unlink_patterns].
  unfold softPurgePattern. destruct (scan_all _ _ _ _ _ _) as [[r' [n|e]]|] eqn:Es; [| |done];
    (eapply keep_scan_loop in Es; [done| |done]); intros; by apply keep_soft_batch.
Qed.

Lemma keep_PurgeAll r : K r → K (redis_PurgeAll prefix r t).1.
Proof.
  intros Hr. unfold redis_PurgeAll. destruct (scanAndUnlink r t _) as [[r' [[d pd]|e]]|] eqn:Es; [..|done];
    by eapply keep_scanAndUnlink.
Qed.
End Keep.

(** ** Typing is kept, also by commands that fail *)
Section KeepTyped.
Context {R : Type} {RS : RedisServer R} {RD : RedisDoc R} {P : Proto} {PD : ProtoDoc P} (prefix : str).
Context (Q : VariantInfo → Prop).
Abbreviation typed_state := (λ r, typed prefix Q (data r)).

Lemma typed_exec r t c :
  is_write c = true → typed_state r → cmd_ok prefix Q (evict t (data r)) c → typed_state (exec r t c).1.
Proof.
  intros Hw Hr Hc. destruct (exec_doc r t c Hw) as [-> | ->]; [done|]. apply typed_run; [by apply typed_evict|done].
Qed.

Lemma typed_script t r k : typed_state r → typed_state (softPurgeScript r t k).1.
Proof.
  intros Hr. unfold softPurgeScript. destruct (query r t (HEXISTS k indexField)) eqn:Eq; try done.
  case_if; [|done]. subst n. pose proof (typed_exec r t (HSET k [(softPurgedField, B "1")]) eq_refl Hr) as H.
  destruct (exec r t _) as [r' rep]. apply H. split.
  - intros pk _ f v. rewrite list_elem_of_singleton. intros [= -> ->]. apply soft_field_ok.
  - left. destruct (query_doc r t (HEXISTS k indexField) eq_refl) as [[e He]|Hq]; [congruence|].
    rewrite Eq in Hq. simpl in Hq. unfold on_hash in Hq. destruct (hash_of _ k) as [h|] eqn:Eh; [|done].
    simpl in Hq. injection Hq as Hq. case_bool_decide as Hi; [|done]. by eapply hash_lookup_present.
Qed.

Lemma typed_DoMulti t cmds r :
  (∀ c, c ∈ cmds → is_write c = true ∧ ∀ d, cmd_ok prefix Q d c) → typed_state r → typed_state (DoMulti r t cmds).1.
Proof.
  revert r. induction cmds as [|c cmds IH]; intros r Hc Hr; [done|]. simpl.
  destruct (Hc c) as [Hw Hok]; [by left|]. pose proof (typed_exec r t c Hw Hr (Hok _)) as H1.
  destruct (exec r t c) as [r1 rep]. specialize (IH r1). destruct (DoMulti r1 t cmds) as [r2 reps].
  apply IH; [|done]. intros c' Hc'. apply Hc. by right.
Qed.

Lemma tag_cmds_elem pk secs tags c :
  c ∈ tags ≫= tag_cmds prefix pk secs →
  ∃ tag, tag ∈ tags ∧ tag ≠ [] ∧
    (c = HSET (tagKey prefix tag) [(pk, B "1")] ∨ c = HEXPIRE (tagKey prefix tag) secs pk ∨
     c = EXPIRE (tagKey prefix tag) secs NX ∨ c = EXPIRE (tagKey prefix tag) secs GT).
Proof.
  intros (tag & Ht & Hin)%list_elem_of_bind. exists tag. split; [done|]. unfold tag_cmds, expire_cmds in Ht.
  case_in Ht; [by apply not_elem_of_nil in Ht|]. apply is_nil_false in E. split; [done|].
  simpl in Ht. rewrite !elem_of_cons, elem_of_nil in Ht. tauto.
Qed.

Lemma set_cmds_ok pk vk ib vb body tags secs d c :
  field_ok Q indexField ib → field_ok Q (variantField vk) vb → c ∈ set_cmds prefix pk vk ib vb body tags secs →
  is_write c = true ∧ cmd_ok prefix Q d c.
Proof.
  intros Hi Hv Hc. unfold set_cmds, expire_cmds in Hc. rewrite !elem_of_app, !elem_of_cons, !elem_of_nil in Hc.
  destruct Hc as [[->|[->|[->|[->|[]]]]]|[[->|[->|[]]]|Ht]]; (split; [try done|]); try done.
  - split; [|right; intros ? ? ?; by eapply meta_not_body]. intros pk' _ f v Hf.
    rewrite !elem_of_cons, elem_of_nil in Hf. revert Hf. by intros [[= -> ->]|[[= -> ->]|[]]].
  - split; [intros pk' H; symmetry in H; by eapply meta_not_body|intros tag; apply body_not_tag].
  - by apply tag_cmds_elem in Ht as (tag & _ & _ & [->|[->|[->| ->]]]).
  - apply tag_cmds_elem in Ht as (tag & _ & _ & [->|[->|[->| ->]]]); try done.
    split; [intros pk' H; symmetry in H; by destruct (meta_not_tag prefix pk' tag)|].
    right. intros ? ? H. symmetry in H. by eapply body_not_tag.
Qed.

Lemma typed_SetVariant r t pk m v b ttl :
  Q (with_variant_key v (variant_name (VariantKey v))) →
  typed_state r → typed_state (redis_SetVariant prefix r t pk m v b ttl).1.
Proof.
  intros Hq Hr. unfold redis_SetVariant. destruct (marshal_meta _) as [ib|] eqn:Em; [|done].
  destruct (marshal_variant _) as [vb|] eqn:Ev; [|done].
  match goal with |- context [DoMulti r t ?cs] => pose proof (typed_DoMulti t cs r) as H end.
  destruct (DoMulti _ _ _) as [r' reps]. apply H; [|done]. intros c Hc. apply meta_round_trip in Em. apply variant_round_trip in Ev.
  split; [eapply (set_cmds_ok _ _ _ _ _ _ _ ∅)|intros d; eapply set_cmds_ok]; try exact Hc.
  1,3: (split; [eauto|by intros vk ?%index_not_variant]).
  1,2: (split; [by intros ?|]; intros vk _; eauto).
Qed.
End KeepTyped.
