(* ===== verification/RedisLaws.v ===== *)
(** * The Redis store keeps the storage contract

    On a documented server and codec, the Redis store implements the interface
    that the request pipeline is proved against ([StorageLaws], [StorageInv]): what
    is written can be read until its time to live, in whole seconds, has
    passed; purges remove what they address; loops over a cursor end.  Then what
    is particular to it: no key without a deadline is left behind, purging by
    tag and of everything, and where the prefix or a host is taken for a pattern. *)

From S2P Require Import Prelude GoStrings GoHttp Env Headers CacheKey Storage TestStore Glob Redis RedisStore RedisFacts.
#[local] Unset Default Proof Using.

(** The variants found in a hash. *)
Lemma hash_variants_lookup {P : Proto} m vk :
  hash_variants m !! vk
  = match m !! variantField vk with
    | Some b => match unmarshal_variant b with Ok v => Some v | Err _ => None end
    | None => None
    end.
Proof.
  unfold hash_variants. apply (map_fold_weak_ind (λ vs m, vs !! vk = match m !! variantField vk with
    | Some b => match unmarshal_variant b with Ok v => Some v | Err _ => None end | None => None end)).
  - by rewrite !lookup_empty.
  - intros k b m' vs Hk IH. unfold add_variant, CutPrefix. destruct (HasPrefix k variantPrefix) eqn:Ep.
    + apply HasPrefix_spec in Ep as [after ->]. rewrite drop_app_length.
      destruct (decide (after = vk)) as [->|Hne].
      * change (variantPrefix ++ vk) with (variantField vk) in *. rewrite lookup_insert_eq, Hk in *.
        destruct (unmarshal_variant b); [by rewrite lookup_insert_eq|done].
      * rewrite (lookup_insert_ne m') by (intros H%variantField_inj; by apply Hne).
        destruct (unmarshal_variant b); [by rewrite lookup_insert_ne|done].
    + rewrite (lookup_insert_ne m'); [done|]. intros ->. unfold variantField in Ep. by rewrite HasPrefix_app in Ep.
Qed.

Section Laws.
Context {R : Type} {RS : RedisServer R} {RD : RedisDoc R} {P : Proto} {PD : ProtoDoc P} (prefix : str).
Abbreviation metaKey := (metaKey prefix).
Abbreviation bodyKey := (bodyKey prefix).
Abbreviation tagKey := (tagKey prefix).
Abbreviation typed0 := (typed prefix (λ _, True)).

Definition redis_usable (r : R) : Prop := up r ∧ typed0 (data r).

(** ** Reads *)
Lemma meta_hash d t pk :
  typed0 d → ∃ h, hash_of (evict t d) (metaKey pk) = Ok h ∧
                  ∀ f x, h !! f = Some x → field_ok (λ _, True) f (hf_value x).
Proof.
  intros Hd%(typed_evict _ _ t). unfold hash_of. destruct (evict t d !! metaKey pk) as [e|] eqn:Ek.
  - destruct (Hd _ _ Ek) as (Hm & _ & _). destruct (Hm pk eq_refl) as (h & -> & Hf). eauto.
  - exists ∅. split; [done|]. intros f x. by rewrite lookup_empty.
Qed.

Lemma tag_hash d t tag : typed0 d → ∃ h, hash_of (evict t d) (tagKey tag) = Ok h.
Proof.
  intros Hd%(typed_evict _ _ t). unfold hash_of. destruct (evict t d !! tagKey tag) as [e|] eqn:Ek; [|eauto].
  destruct (Hd _ _ Ek) as (_ & _ & Ht). destruct (Ht tag eq_refl) as (h & ->). eauto.
Qed.

Lemma body_string d t pk vk e :
  typed0 d → evict t d !! bodyKey pk vk = Some e → ∃ s, re_value e = RString s.
Proof. intros Hd%(typed_evict _ _ t) Hk. destruct (Hd _ _ Hk) as (_ & Hb & _). by eapply Hb. Qed.

Lemma reply_ok_eq a b : reply_ok a b → (∀ l, b ≠ RArray l) → a = b.
Proof. destruct a, b; simpl; try done; try (by intros ->); intros _ H; exfalso; by eapply H. Qed.

Lemma query_HGETALL r t k h :
  up r → hash_of (evict t (data r)) k = Ok h → query r t (HGETALL k) = RMap (hf_value <$> h).
Proof.
  intros Hu Hh. pose proof (query_up r t (HGETALL k) Hu eq_refl) as H. simpl in H. unfold on_hash in H. rewrite Hh in H.
  by apply reply_ok_eq in H.
Qed.

Lemma query_HKEYS r t k h :
  up r → hash_of (evict t (data r)) k = Ok h →
  ∃ l, query r t (HKEYS k) = RArray l ∧ ∀ f, f ∈ l ↔ is_Some (h !! f).
Proof.
  intros Hu Hh. pose proof (query_up r t (HKEYS k) Hu eq_refl) as H. simpl in H. unfold on_hash in H. rewrite Hh in H.
  simpl in H. destruct (query r t (HKEYS k)) as [| | | | | |l|]; try done. simpl in H. exists l. split; [done|]. intros f.
  rewrite H, list_elem_of_fmap. split.
  - intros ([f' x] & -> & Hx%elem_of_map_to_list). eauto.
  - intros [x Hx]. exists (f, x). by rewrite elem_of_map_to_list.
Qed.

Lemma GetMeta_run r ts pk h :
  up r → hash_of (evict ts (data r)) (metaKey pk) = Ok h →
  redis_GetMeta prefix r ts pk
  = match h !! indexField with
    | None => Ret None
    | Some x =>
        match unmarshal_meta (hf_value x) with
        | Err e => Fail (B "redis: unmarshal meta index: " ++ e)
        | Ok m => Ret (Some (with_variants m (hash_variants (hf_value <$> h)),
                             bool_decide ((hf_value <$> h) !! softPurgedField = Some (B "1"))))
        end
    end.
Proof.
  intros Hu Hh. unfold redis_GetMeta. rewrite (query_HGETALL r ts _ h Hu Hh), lookup_fmap.
  by destruct (h !! indexField).
Qed.

(** There is an entry exactly when its hash has an index. *)
Lemma GetMeta_None r ts pk :
  redis_usable r →
  redis_GetMeta prefix r ts pk = Ret None ↔ ∀ x, ¬ field_at (data r) ts (metaKey pk) indexField x.
Proof.
  intros [Hu Hd]. destruct (meta_hash (data r) ts pk Hd) as (h & Hh & Hf). rewrite (GetMeta_run r ts pk h Hu Hh).
  pose proof (λ x, field_at_hash (data r) ts (metaKey pk) h indexField x Hh) as Hx.
  destruct (h !! indexField) as [x|] eqn:Ex.
  - destruct (Hf _ _ Ex) as [Hi _]. destruct (Hi eq_refl) as [m ->]. split; [done|]. intros H. by destruct (H x (proj1 (Hx x) eq_refl)).
  - split; [|done]. intros _ x Hc%Hx. done.
Qed.

Lemma GetMeta_total r ts pk : redis_usable r → ∃ x, redis_GetMeta prefix r ts pk = Ret x.
Proof.
  intros [Hu Hd]. destruct (meta_hash (data r) ts pk Hd) as (h & Hh & Hf). rewrite (GetMeta_run r ts pk h Hu Hh).
  destruct (h !! indexField) as [x|] eqn:Ex; [|eauto]. destruct (Hf _ _ Ex) as [Hi _]. destruct (Hi eq_refl) as [m ->]. eauto.
Qed.

Lemma query_HGET r t k f h :
  up r → hash_of (evict t (data r)) k = Ok h →
  query r t (HGET k f) = match h !! f with Some x => RBulk (hf_value x) | None => RNil end.
Proof.
  intros Hu Hh. pose proof (query_up r t (HGET k f) Hu eq_refl) as H. simpl in H. unfold on_hash in H. rewrite Hh in H.
  simpl in H. apply reply_ok_eq in H; [done|]. by destruct (h !! f).
Qed.

Lemma query_GET r t k :
  up r → (∀ e, evict t (data r) !! k = Some e → ∃ s, re_value e = RString s) →
  query r t (GET k) = match evict t (data r) !! k with
                      | Some e => match re_value e with RString s => RBulk s | RHash _ => RNil end
                      | None => RNil end.
Proof.
  intros Hu Hs. pose proof (query_up r t (GET k) Hu eq_refl) as H. simpl in H.
  destruct (evict t (data r) !! k) as [e|]; [|by apply reply_ok_eq in H].
  destruct (Hs e eq_refl) as [s Hv]. rewrite Hv in *. by apply reply_ok_eq in H.
Qed.

Lemma GetVariant_run r ts pk vk h :
  redis_usable r → hash_of (evict ts (data r)) (metaKey pk) = Ok h →
  redis_GetVariant prefix r ts pk vk
  = match h !! variantField (variant_name vk), evict ts (data r) !! bodyKey pk (variant_name vk) with
    | Some x, Some (mkEntry (RString b) _) =>
        match unmarshal_variant (hf_value x) with
        | Ok v => Ret (Some (v, b))
        | Err e => Fail (B "redis: unmarshal variant info: " ++ e)
        end
    | _, _ => Ret None
    end.
Proof.
  intros [Hu Hd] Hh. unfold redis_GetVariant. change (if is_nil vk then _ else vk) with (variant_name vk).
  rewrite (query_HGET r ts _ _ h Hu Hh), query_GET; [|done|intros e; by apply body_string].
  destruct (h !! variantField (variant_name vk)) as [x|]; [|done].
  destruct (evict ts (data r) !! bodyKey pk (variant_name vk)) as [[[b|hh] dl]|]; simpl; done.
Qed.

Lemma GetVariant_total r ts pk vk : redis_usable r → ∃ x, redis_GetVariant prefix r ts pk vk = Ret x.
Proof.
  intros Hr. pose proof Hr as [Hu Hd]. destruct (meta_hash (data r) ts pk Hd) as (h & Hh & Hf).
  rewrite (GetVariant_run r ts pk vk h Hr Hh). destruct (h !! variantField _) as [x|] eqn:Ex; [|eauto].
  destruct (_ !! bodyKey _ _) as [[[b|hh] dl]|]; [|eauto..].
  destruct (Hf _ _ Ex) as [_ Hv]. destruct (Hv _ eq_refl) as (v & -> & _). eauto.
Qed.

(** ** Writes *)
Lemma exec_step r t c :
  redis_usable r → is_write c = true → cmd_ok prefix (λ _, True) (evict t (data r)) c →
  redis_usable (exec r t c).1 ∧ data (exec r t c).1 = step_data t (data r) c ∧
  (exec r t c).2 = (run (evict t (data r)) t c).2.
Proof.
  intros [Hu Hd] Hw Hc. destruct (exec_up r t c Hu Hw) as (Hu' & Hd' & Hr). split; [|done]. split; [done|].
  by apply typed_exec.
Qed.

Lemma DoMulti_run t cmds r :
  redis_usable r → (∀ c, c ∈ cmds → is_write c = true ∧ ∀ d, cmd_ok prefix (λ _, True) d c) →
  redis_usable (DoMulti r t cmds).1 ∧ data (DoMulti r t cmds).1 = foldl (step_data t) (data r) cmds ∧
  ∀ rep, rep ∈ (DoMulti r t cmds).2 → ∃ d c, typed0 d ∧ c ∈ cmds ∧ rep = (run d t c).2.
Proof.
  revert r. induction cmds as [|c cmds IH]; intros r Hr Hc; simpl.
  { split; [done|]. split; [done|]. by intros rep ?%not_elem_of_nil. }
  destruct (Hc c) as [Hw Hok]; [by left|]. destruct (exec_step r t c Hr Hw (Hok _)) as (H1 & H2 & H3).
  destruct (exec r t c) as [r1 rep1]. simpl in *. destruct (IH r1) as (H4 & H5 & H6); [done|set_solver|].
  destruct (DoMulti r1 t cmds) as [r2 reps]. simpl in *. rewrite <- H2. split; [done|]. split; [done|].
  intros rep [->|Hrep]%elem_of_cons.
  - exists (evict t (data r)), c. destruct Hr as [_ Hd]. split; [by apply typed_evict|]. split; [by left|done].
  - destruct (H6 rep Hrep) as (d & c' & ? & ? & ?). exists d, c'. split; [done|]. split; [by right|done].
Qed.

(** No command of the pipeline fails on typed keys. *)
Lemma set_replies pk vk ib vb body tags secs d t c e :
  typed0 d → c ∈ set_cmds prefix pk vk ib vb body tags secs → (run d t c).2 ≠ RError e.
Proof.
  intros Hd Hc. assert (∀ pk, is_ok (hash_of d (metaKey pk)) = true) as Hm.
  { intros pk'. unfold hash_of. destruct (d !! metaKey pk') as [en|] eqn:Ek; [|done].
    destruct (Hd _ _ Ek) as (H & _ & _). by destruct (H pk' eq_refl) as (h & -> & _). }
  assert (∀ tag, is_ok (hash_of d (tagKey tag)) = true) as Ht.
  { intros tag. unfold hash_of. destruct (d !! tagKey tag) as [en|] eqn:Ek; [|done].
    destruct (Hd _ _ Ek) as (_ & _ & H). by destruct (H tag eq_refl) as (h & ->). }
  unfold set_cmds, expire_cmds in Hc. rewrite !elem_of_app, !elem_of_cons, !elem_of_nil in Hc.
  destruct Hc as [[->|[->|[->|[->|[]]]]]|[[->|[->|[]]]|Hc]]; simpl; unfold on_hash; try done.
  1-3: by specialize (Hm pk); destruct (hash_of d (metaKey pk)).
  apply tag_cmds_elem in Hc as (tag & _ & _ & [->|[->|[->| ->]]]); simpl; unfold on_hash; try done;
    by specialize (Ht tag); destruct (hash_of d (tagKey tag)).
Qed.

(** The commands that carry encoded messages respect the typing. *)
Lemma encoded_cmds_ok m v ib vb pk vk b tags secs c :
  marshal_meta m = Ok ib → marshal_variant v = Ok vb → c ∈ set_cmds prefix pk vk ib vb b tags secs →
  is_write c = true ∧ ∀ d, cmd_ok prefix (λ _, True) d c.
Proof.
  intros Em%meta_round_trip Ev%variant_round_trip Hc.
  assert (∀ d, is_write c = true ∧ cmd_ok prefix (λ _, True) d c) as H.
  { intros d. eapply set_cmds_ok; [| |exact Hc].
    - split; [eauto|by intros ? ?%index_not_variant].
    - split; [by intros ?|intros ? _; eauto]. }
  split; [apply (H ∅)|apply H].
Qed.

Lemma pipeline_no_error i reps : (∀ e, RError e ∉ reps) → pipeline_error i reps = None.
Proof.
  revert i. induction reps as [|rep reps IH]; intros i H; [done|]. simpl.
  destruct rep; try (apply IH; set_solver). by destruct (H e); left.
Qed.

Definition redis_storable (m : CacheMetadata) (v : VariantInfo) : Prop :=
  is_ok (marshal_meta (leanMeta m)) = true ∧
  is_ok (marshal_variant (with_variant_key v (variant_name (VariantKey v)))) = true.

Definition redis_lifetime (ttl : Z) : Z := (ttlSeconds ttl * Second)%Z.

(** A write runs its pipeline. *)
Lemma SetVariant_run r t pk m v b ttl ib vb :
  redis_usable r → marshal_meta (leanMeta m) = Ok ib →
  marshal_variant (with_variant_key v (variant_name (VariantKey v))) = Ok vb →
  redis_usable (redis_SetVariant prefix r t pk m v b ttl).1 ∧
  (redis_SetVariant prefix r t pk m v b ttl).2 = Ret tt ∧
  data (redis_SetVariant prefix r t pk m v b ttl).1
  = foldl (step_data t) (data r)
      (set_cmds prefix pk (variant_name (VariantKey v)) ib vb b (Tags m) (ttlSeconds ttl)).
Proof.
  intros Hr Em Ev. unfold redis_SetVariant. rewrite Em, Ev. simpl VariantKey.
  set (cs := set_cmds _ _ _ _ _ _ _ _). destruct (DoMulti_run t cs r Hr) as (H1 & H2 & H3).
  { intros c. by eapply encoded_cmds_ok. }
  destruct (DoMulti r t cs) as [r' reps]. simpl in *. split; [done|]. split; [|done].
  rewrite pipeline_no_error; [done|]. intros e He. destruct (H3 _ He) as (d & c & Hd & Hc & Heq).
  symmetry in Heq. revert Heq. by eapply set_replies.
Qed.

Lemma SetVariant_usable r t pk m v b ttl :
  redis_usable r →
  redis_usable (redis_SetVariant prefix r t pk m v b ttl).1 ∧
  (redis_SetVariant prefix r t pk m v b ttl).2 ≠ Panicked.
Proof.
  intros Hr. destruct (marshal_meta (leanMeta m)) as [ib|e] eqn:Em.
  2: { unfold redis_SetVariant. by rewrite Em. }
  destruct (marshal_variant (with_variant_key v (variant_name (VariantKey v)))) as [vb|e] eqn:Ev.
  2: { unfold redis_SetVariant. by rewrite Em, Ev. }
  destruct (SetVariant_run r t pk m v b ttl ib vb Hr Em Ev) as (? & -> & _). done.
Qed.

(** The commands of the pipeline, on the hash they write: [hash_is t d k h x]
    says that [k] holds [h] with deadline [x], none of it expired at [t]. *)
Definition hash_is (t : Z) (d : keyspace) (k : str) (h : gmap str hfield) (x : option Z) : Prop :=
  d !! k = Some (mkEntry (RHash h) x) ∧ settled t (mkEntry (RHash h) x).

Lemma hash_is_of t d k h x : hash_is t d k h x → hash_of (evict t d) k = Ok h ∧ evict t d !! k = Some (mkEntry (RHash h) x).
Proof. intros [Hd Hs]. unfold hash_of. rewrite (evict_keeps t d k _ Hd Hs). done. Qed.

Lemma settled_fields t h x f y : settled t (mkEntry (RHash h) x) → h !! f = Some y → alive t (hf_expire y) = true.
Proof.
  intros Hs%evict_entry_Some Hf. destruct Hs as (_ & _ & [(s & H & _)|(h' & [= <-] & [= Hh] & _)]); [done|].
  rewrite Hh in Hf. by apply live_fields_Some in Hf as [_ ?].
Qed.

Lemma settled_alive t h x : settled t (mkEntry (RHash h) x) → alive t x = true.
Proof. by intros (? & _)%evict_entry_Some. Qed.

Lemma step_HSET t d k fvs h :
  hash_of (evict t d) k = Ok h → fvs ≠ [] →
  hash_is t (step_data t d (HSET k fvs)) k (set_fields h fvs) (evict t d !! k ≫= re_expire).
Proof.
  intros Hh Hf. unfold step_data, hash_is. simpl. unfold on_hash. rewrite Hh. simpl.
  assert (set_fields h fvs ≠ ∅) as Hne.
  { unfold set_fields. destruct fvs as [|fv fvs] using rev_ind; [done|]. rewrite foldl_snoc. apply insert_non_empty. }
  split; [by apply put_hash_eq|]. apply settled_hash; [| done |].
  - destruct (evict t d !! k) as [e|] eqn:Ek; [|done]. simpl. apply evict_lookup_settled in Ek. by apply evict_entry_Some in Ek as (? & _).
  - assert (∀ f y, h !! f = Some y → alive t (hf_expire y) = true) as H0.
    { intros f y Hy. apply (field_at_hash d t k h f y Hh) in Hy. by destruct Hy as (e & h' & _ & _ & _ & _ & ?). }
    clear Hh Hne Hf. unfold set_fields. revert h H0. induction fvs as [|fv fvs IH]; intros h H0; [done|]. simpl.
    apply IH. intros f y. rewrite lookup_insert_Some. intros [[_ <-]|[_ ?]]; [done|eauto].
Qed.

Lemma deadline_alive t secs : (1 ≤ secs)%Z → alive t (Some (deadline t secs)) = true.
Proof. unfold alive, deadline, Second. lia. Qed.

Lemma step_HEXPIRE t d k h x f y secs :
  hash_is t d k h x → h !! f = Some y → (1 ≤ secs)%Z →
  hash_is t (step_data t d (HEXPIRE k secs f)) k (<[f := mkField (hf_value y) (Some (deadline t secs))]> h) x.
Proof.
  intros Hd Hy Hs. destruct (hash_is_of _ _ _ _ _ Hd) as [Hh Hk]. destruct Hd as [_ Hset].
  unfold step_data, hash_is. simpl. unfold on_hash. rewrite Hh. simpl. rewrite Hy.
  rewrite put_hash_eq by apply insert_non_empty. rewrite Hk. split; [done|]. apply settled_hash.
  - by eapply settled_alive.
  - apply insert_non_empty.
  - intros f' y'. rewrite lookup_insert_Some. intros [[_ <-]|[_ ?]]; [by apply deadline_alive|by eapply settled_fields].
Qed.

Lemma step_HDEL t d k h x f :
  hash_is t d k h x → delete f h ≠ ∅ → hash_is t (step_data t d (HDEL k f)) k (delete f h) x.
Proof.
  intros Hd Hne. destruct (hash_is_of _ _ _ _ _ Hd) as [Hh Hk]. destruct Hd as [_ Hset].
  unfold step_data, hash_is. simpl. unfold on_hash. rewrite Hh. simpl.
  rewrite put_hash_eq by done. rewrite Hk. split; [done|]. apply settled_hash; [by eapply settled_alive|done|].
  intros f' y' [_ ?]%lookup_delete_Some. by eapply settled_fields.
Qed.

Lemma step_other t d k h x c :
  hash_is t d k h x → k ∉ touched c → hash_is t (step_data t d c) k h x.
Proof. intros [Hd Hs] Hk. split; [by apply step_keeps|done]. Qed.

Lemma steps_other t d k h x cmds :
  hash_is t d k h x → (∀ c, c ∈ cmds → k ∉ touched c) → hash_is t (foldl (step_data t) d cmds) k h x.
Proof. intros [Hd Hs] Hk. split; [by apply steps_keep|done]. Qed.

Lemma steps_expire t d k h x secs :
  hash_is t d k h x → (1 ≤ secs)%Z →
  ∃ D, hash_is t (foldl (step_data t) d (expire_cmds k secs)) k h (Some D) ∧ (deadline t secs ≤ D)%Z.
Proof.
  intros Hd Hs. assert (∀ D, (deadline t secs ≤ D)%Z → settled t (mkEntry (RHash h) (Some D))) as Hset.
  { intros D HD. pose proof (deadline_alive t secs Hs) as Ha. apply settled_hash.
    - unfold alive in *. lia.
    - destruct Hd as [_ Hd]. apply evict_entry_Some in Hd as (_ & _ & [(s & ? & _)|(h' & [= <-] & [= <-] & ?)]); done.
    - intros f y. destruct Hd as [_ Hd]. by eapply settled_fields. }
  destruct (hash_is_of _ _ _ _ _ Hd) as [_ Hk]. simpl. unfold step_data at 2. simpl. unfold set_expire. rewrite Hk. simpl.
  destruct x as [old|].
  - unfold step_data. simpl. unfold set_expire. rewrite evict_idem, Hk. simpl. destruct (old <? deadline t secs)%Z eqn:El.
    + exists (deadline t secs). split; [|lia]. split; [by rewrite lookup_insert_eq|apply Hset; lia].
    + apply Z.ltb_ge in El. exists old. split; [|lia]. split; [done|by apply Hset].
  - unfold step_data. simpl. unfold set_expire.
    rewrite (evict_keeps t _ k (mkEntry (RHash h) (Some (deadline t secs)))); [|by rewrite lookup_insert_eq|apply Hset; lia].
    simpl. rewrite Z.ltb_irrefl. exists (deadline t secs). split; [|lia]. split; [|apply Hset; lia].
    apply evict_keeps; [by rewrite lookup_insert_eq|apply Hset; lia].
Qed.

Lemma ttlSeconds_pos ttl : (1 ≤ ttlSeconds ttl)%Z.
Proof. unfold ttlSeconds. lia. Qed.

Lemma typed_steps t d cs :
  typed0 d → (∀ c, c ∈ cs → ∀ d', cmd_ok prefix (λ _, True) d' c) → typed0 (foldl (step_data t) d cs).
Proof.
  revert d. induction cs as [|c cs IH]; intros d Hd Hc; [done|]. simpl. apply IH; [|set_solver].
  apply typed_run; [by apply typed_evict|]. apply Hc. by left.
Qed.

Lemma tag_cmds_ok pk secs tags c d : c ∈ tags ≫= tag_cmds prefix pk secs → cmd_ok prefix (λ _, True) d c.
Proof.
  intros (tag' & _ & _ & [->|[->|[->| ->]]])%tag_cmds_elem; try done. split.
  - intros pk' H. symmetry in H. by destruct (meta_not_tag prefix pk' tag').
  - right. intros ? ? H. symmetry in H. by eapply body_not_tag.
Qed.

(** The tag index after a write: the key is a field of every tag. *)
Lemma steps_tags t pk secs tags d tag :
  typed0 d → (1 ≤ secs)%Z → tag ∈ tags → tag ≠ [] →
  ∃ h D v, hash_is t (foldl (step_data t) d (tags ≫= tag_cmds prefix pk secs)) (tagKey tag) h (Some D) ∧
    (deadline t secs ≤ D)%Z ∧ h !! pk = Some (mkField v (Some (deadline t secs))).
Proof.
  intros Hd Hs.
  revert d Hd. induction tags as [|tg tags IH]; intros d Hd Hin Hne; [by apply not_elem_of_nil in Hin|].
  csimpl. rewrite foldl_app. destruct (decide (tag ∈ tags)) as [Hin'|Hn].
  { apply IH; [|done..]. apply typed_steps; [done|]. intros c Hc d1. apply (tag_cmds_ok pk secs [tg] c d1). csimpl. by rewrite app_nil_r. }
  assert (tag = tg) as <- by set_solver. clear IH Hin.
  destruct (tag_hash d t tag Hd) as [h0 Hh0]. apply is_nil_false in Hne.
  assert (tag_cmds prefix pk secs tag = [HSET (tagKey tag) [(pk, B "1")]; HEXPIRE (tagKey tag) secs pk]
    ++ expire_cmds (tagKey tag) secs) as -> by (unfold tag_cmds; by rewrite Hne). rewrite foldl_app.
  pose proof (step_HSET t d (tagKey tag) [(pk, B "1")] h0 Hh0 ltac:(done)) as H1.
  eapply (step_HEXPIRE t _ _ _ _ pk _ secs) in H1; [|apply lookup_insert_eq|done].
  apply (steps_expire t _ _ _ _ secs) in H1 as (D & H1 & HD); [|done].
  eexists _, D, _. split; [|split; [done|apply lookup_insert_eq]].
  apply steps_other; [exact H1|]. intros c (tag' & Ht' & _ & Hc)%tag_cmds_elem.
  assert (tagKey tag ≠ tagKey tag') by (intros ->%app_inv_head%app_inv_head; done).
  destruct Hc as [->|[->|[->| ->]]]; simpl; set_solver.
Qed.

(** What a write leaves: the hash of the entry and its body. *)
Lemma steps_set t d pk vk ib vb body tags secs :
  typed0 d → (1 ≤ secs)%Z →
  let d' := foldl (step_data t) d (set_cmds prefix pk vk ib vb body tags secs) in
  ∃ h D, hash_is t d' (metaKey pk) h (Some D) ∧ (deadline t secs ≤ D)%Z ∧
    h !! indexField = Some (mkField ib None) ∧
    h !! variantField vk = Some (mkField vb (Some (deadline t secs))) ∧ h !! softPurgedField = None ∧
    d' !! bodyKey pk vk = Some (mkEntry (RString body) (Some (deadline t secs))).
Proof.
  intros Hd Hs d'. destruct (meta_hash d t pk Hd) as (h0 & Hh0 & _). unfold d', set_cmds. rewrite !foldl_app.
  pose proof (step_HSET t d (metaKey pk) [(indexField, ib); (variantField vk, vb)] h0 Hh0 ltac:(done)) as H1.
  eapply (step_HEXPIRE t _ _ _ _ (variantField vk) _ secs) in H1; [|apply lookup_insert_eq|done].
  match type of H1 with hash_is _ _ _ ?h _ => set (h1 := h) in H1 end.
  assert (h1 !! indexField = Some (mkField ib None)) as Hi.
  { unfold h1. simpl. rewrite !lookup_insert_ne by (intros ?; by eapply index_not_variant). apply lookup_insert_eq. }
  assert (delete softPurgedField h1 !! indexField = Some (mkField ib None)) as Hi2.
  { rewrite lookup_delete_ne; [done|]. intros ?. by apply index_not_soft. }
  apply (step_HDEL t _ _ _ _ softPurgedField) in H1; [|intros He; by rewrite He, lookup_empty in Hi2].
  apply (step_other t _ _ _ _ (SETEX (bodyKey pk vk) body secs)) in H1.
  2: { simpl. rewrite list_elem_of_singleton. apply meta_not_body. }
  apply (steps_expire t _ _ _ _ secs) in H1 as (D & H1 & HD); [|done].
  exists (delete softPurgedField h1), D. split; [|split; [done|split; [done|split; [|split]]]].
  - apply steps_other; [exact H1|]. intros c (tag & _ & _ & Hc)%tag_cmds_elem. pose proof (meta_not_tag prefix pk tag).
    destruct Hc as [->|[->|[->| ->]]]; simpl; set_solver.
  - rewrite lookup_delete_ne by (intros ?; by eapply soft_not_variant). apply lookup_insert_eq.
  - apply lookup_delete_eq.
  - assert (settled t (mkEntry (RString body) (Some (deadline t secs)))) as Hset.
    { unfold settled, evict_entry. cbn [re_expire re_value]. by rewrite deadline_alive. }
    apply steps_keep; [|done|].
    + apply steps_keep; [|done|].
      * simpl. unfold step_data at 1. simpl. apply lookup_insert_eq.
      * intros c. unfold expire_cmds. rewrite !elem_of_cons, elem_of_nil. intros [->|[->|[]]]; simpl;
          rewrite list_elem_of_singleton; intros H; symmetry in H; by eapply meta_not_body.
    + intros c (tag & _ & _ & Hc)%tag_cmds_elem. pose proof (body_not_tag prefix pk vk tag).
      destruct Hc as [->|[->|[->| ->]]]; simpl; set_solver.
Qed.

(** Reading a hash that a write left. *)
Lemma hash_is_read t ts d k h x :
  hash_is t d k h x → alive ts x = true → live_fields ts h ≠ ∅ → hash_of (evict ts d) k = Ok (live_fields ts h).
Proof.
  intros [Hd _] Hx Hne. unfold hash_of. rewrite lookup_evict, Hd. simpl. unfold evict_entry. simpl. rewrite Hx. simpl.
  by rewrite bool_decide_eq_false_2.
Qed.

Lemma set_then_get r t pk m v b ttl ts :
  redis_usable r → redis_storable m v → live t (redis_lifetime ttl) ts →
  let r' := (redis_SetVariant prefix r t pk m v b ttl).1 in
  let v' := with_variant_key v (variant_name (VariantKey v)) in
  redis_usable r' ∧
  (∃ m', redis_GetMeta prefix r' ts pk = Ret (Some (m', false)) ∧ meta_agrees m m' ∧
         Variants m' !! variant_name (VariantKey v) = Some v') ∧
  redis_GetVariant prefix r' ts pk (VariantKey v) = Ret (Some (v', b)).
Proof.
  intros Hr [Em Ev] [_ Hts] r' v'. destruct (marshal_meta (leanMeta m)) as [ib|] eqn:Em'; [|done].
  destruct (marshal_variant _) as [vb|] eqn:Ev'; [|done].
  destruct (SetVariant_run r t pk m v b ttl ib vb Hr Em' Ev') as (Hr' & _ & Hdata). fold r' in Hr', Hdata.
  split; [done|]. pose proof Hr as [_ Hd]. pose proof Hr' as [Hu' _].
  destruct (steps_set t (data r) pk (variant_name (VariantKey v)) ib vb b (Tags m) (ttlSeconds ttl) Hd (ttlSeconds_pos ttl))
    as (h & D & Hh & HD & Hi & Hv & Hsp & Hb). rewrite <- Hdata in Hh, Hb.
  assert (ts < deadline t (ttlSeconds ttl))%Z as Hlt by done.
  assert (live_fields ts h !! indexField = Some (mkField ib None)) as Hi' by (by apply live_fields_Some).
  assert (live_fields ts h !! variantField (variant_name (VariantKey v))
          = Some (mkField vb (Some (deadline t (ttlSeconds ttl))))) as Hv'.
  { apply live_fields_Some. split; [done|]. simpl. lia. }
  assert (hash_of (evict ts (data r')) (metaKey pk) = Ok (live_fields ts h)) as Hread.
  { eapply hash_is_read; [exact Hh|simpl; lia|]. intros He. by rewrite He, lookup_empty in Hi'. }
  apply meta_round_trip in Em'. apply variant_round_trip in Ev'. split.
  - rewrite (GetMeta_run r' ts pk _ Hu' Hread), Hi'. cbn [hf_value]. rewrite Em'.
    eexists. split; [|split].
    + do 3 f_equal. apply bool_decide_eq_false_2. rewrite lookup_fmap. intros (x & Hx & _)%fmap_Some.
      apply live_fields_Some in Hx as [Hx _]. congruence.
    + done.
    + simpl. rewrite hash_variants_lookup, lookup_fmap, Hv'. simpl. by rewrite Ev'.
  - rewrite (GetVariant_run r' ts pk _ _ Hr' Hread), Hv'. rewrite lookup_evict, Hb. simpl. unfold evict_entry. simpl.
    assert ((ts <? deadline t (ttlSeconds ttl))%Z = true) as -> by lia. simpl. by rewrite Ev'.
Qed.

(** ** Deletions *)
Lemma evolves_exec r t c : evolves r (exec r t c).1.
Proof. apply rtc_once. eauto. Qed.

Lemma unlink_run r t ks :
  redis_usable r →
  redis_usable (unlink r t ks).1 ∧ (unlink r t ks).2 = None ∧ evolves r (unlink r t ks).1 ∧
  data (unlink r t ks).1 = foldr delete (evict t (data r)) ks.
Proof.
  intros Hr. destruct (exec_step r t (UNLINK ks) Hr eq_refl I) as (H1 & H2 & H3).
  pose proof (evolves_exec r t (UNLINK ks)) as He. unfold unlink. destruct (exec r t (UNLINK ks)) as [r' rep].
  simpl in *. subst rep. done.
Qed.

Lemma alive_earlier t ts x : (t ≤ ts)%Z → alive ts x = true → alive t x = true.
Proof. unfold alive. destruct x; lia. Qed.

Lemma field_at_earlier d t ts k f x : (t ≤ ts)%Z → field_at d ts k f x → field_at d t k f x.
Proof. intros Ht (e & h & ? & ? & ? & ? & ?). exists e, h. split_and!; eauto using alive_earlier. Qed.

(** Deleting keys brings no field back, and leaves none of the deleted keys. *)
Lemma field_at_delete t d ks ts k f x :
  field_at (foldr delete (evict t d) ks) ts k f x → k ∉ ks ∧ field_at d ts k f x ∧ field_at d t k f x.
Proof.
  intros (e & h & Hk & Ha & Hv & Hf & Hx). rewrite foldr_delete_lookup in Hk.
  case_bool_decide as Hin; [done|]. split; [done|]. apply field_at_evict. exists e, h. auto.
Qed.

(** What a purge of the keys in [D] must leave: no field is new, and from [t] on
    there is no index under a key of [D]. *)
Lemma purged_intro (St := redis_storage prefix) r r' t (D : str → bool) soft :
  redis_usable r → redis_usable r' →
  (∀ ts pk x, field_at (data r') ts (metaKey pk) indexField x → ∃ x, field_at (data r) ts (metaKey pk) indexField x) →
  (soft = false → ∀ ts pk x, (t ≤ ts)%Z → D pk = true → ¬ field_at (data r') ts (metaKey pk) indexField x) →
  purged t r r' D soft.
Proof.
  intros Hr Hr' Hold Hnew ts pk H. apply (GetMeta_None r' ts pk Hr'). intros x Hx. destruct H as [H|(Hs & HD & Ht)].
  - change (redis_GetMeta prefix r ts pk = Ret None) in H. destruct (Hold ts pk x Hx) as [y Hy].
    by apply (GetMeta_None r ts pk Hr) with (x := y) in H.
  - by eapply Hnew.
Qed.

Lemma hardPurge_law (St := redis_storage prefix) r t pk :
  redis_usable r →
  redis_usable (hardPurge prefix r t pk).1 ∧ (∃ n, (hardPurge prefix r t pk).2 = Ret n) ∧
  purged t r (hardPurge prefix r t pk).1 (λ k', k' =s pk) false.
Proof.
  intros Hr. pose proof Hr as [Hu Hd]. destruct (meta_hash (data r) t pk Hd) as (h & Hh & _).
  destruct (query_HKEYS r t (metaKey pk) h Hu Hh) as (l & Hq & Hl). unfold hardPurge. rewrite Hq. destruct l as [|f l].
  - split; [done|]. split; [eauto|]. apply purged_intro; [done..|eauto|]. intros _ ts pk' x Ht Hk Hx.
    apply str_eqb_eq in Hk as ->. apply (field_at_earlier _ _ _ _ _ _ Ht), (field_at_hash _ _ _ h _ _ Hh) in Hx.
    apply (not_elem_of_nil indexField). apply Hl. eauto.
  - set (ks := metaKey pk :: _). assert (metaKey pk ∈ ks) as Hks by (by left). clearbody ks.
    destruct (unlink_run r t ks Hr) as (H1 & H2 & _ & H4).
    destruct (unlink r t ks) as [r' err]. simpl in *. subst err. split; [done|]. split; [eauto|].
    apply purged_intro; [done..| |]; rewrite H4.
    + intros ts pk' x (_ & ? & _)%field_at_delete. eauto.
    + intros _ ts pk' x _ Hk (Hin & _)%field_at_delete. by apply str_eqb_eq in Hk as ->.
Qed.

(** ** The script *)
Lemma script_run r t k :
  redis_usable r →
  let p := softPurgeScript r t k in
  redis_usable p.1 ∧ (is_ok (hash_of (evict t (data r)) k) = true → ∃ n, p.2 = Ok n) ∧ evolves r p.1 ∧
  (data p.1 = data r ∨
   is_Some (evict t (data r) !! k) ∧ data p.1 = step_data t (data r) (HSET k [(softPurgedField, B "1")])).
Proof.
  intros Hr p. pose proof Hr as [Hu Hd]. unfold p, softPurgeScript.
  pose proof (query_up r t (HEXISTS k indexField) Hu eq_refl) as Hq. simpl in Hq. unfold on_hash in Hq.
  destruct (hash_of (evict t (data r)) k) as [h|] eqn:Eh; simpl in Hq; (apply reply_ok_eq in Hq; [|done]); rewrite Hq; simpl.
  2: { split; [done|]. split; [done|]. split; [apply rtc_refl|by left]. }
  case_bool_decide as Hi; simpl; [|split; [done|split; [eauto|split; [apply rtc_refl|by left]]]].
  assert (is_Some (evict t (data r) !! k)) as Hk by (by eapply hash_lookup_present).
  destruct (exec_step r t (HSET k [(softPurgedField, B "1")]) Hr eq_refl) as (H1 & H2 & H3).
  { split; [|by left]. intros pk _ f v. rewrite list_elem_of_singleton. intros [= -> ->]. apply soft_field_ok. }
  pose proof (evolves_exec r t (HSET k [(softPurgedField, B "1")])) as He. destruct (exec r t _) as [r' rep]. simpl in *.
  unfold on_hash in H3. rewrite Eh in H3. subst rep. split; [done|]. split; [eauto|]. split; [done|]. by right.
Qed.

(** Marking a hash changes no other field and no deadline. *)
Lemma field_at_mark t d k ts k' f x :
  is_Some (evict t d !! k) → f ≠ softPurgedField →
  field_at (step_data t d (HSET k [(softPurgedField, B "1")])) ts k' f x → field_at d ts k' f x ∧ field_at d t k' f x.
Proof.
  intros [e0 He0] Hf (e & h & Hk & Ha & Hv & Hh & Hx). apply field_at_evict. unfold step_data in Hk. simpl in Hk.
  unfold on_hash in Hk. destruct (hash_of (evict t d) k) as [h0|] eqn:Eh; [|by exists e, h].
  simpl in Hk. destruct (decide (k' = k)) as [->|Hne]; [|rewrite put_hash_ne in Hk by done; by exists e, h].
  rewrite put_hash_eq in Hk by apply insert_non_empty. injection Hk as <-. simpl in *. injection Hv as <-.
  rewrite lookup_insert_ne in Hh by done. rewrite He0 in Ha. unfold hash_of in Eh. rewrite He0 in Eh.
  destruct (re_value e0) as [s|h1] eqn:Ev; [done|]. injection Eh as ->. exists e0, h0. auto.
Qed.

(** ** Purges only take away

    No field (but the mark) is new at any time, and no key is new at [t]. *)
Definition shrinks (t : Z) (r r' : R) : Prop :=
  (∀ ts k f x, f ≠ softPurgedField → field_at (data r') ts k f x → field_at (data r) ts k f x) ∧
  (∀ k, is_Some (evict t (data r') !! k) → is_Some (evict t (data r) !! k)).

#[local] Instance shrinks_preorder t : PreOrder (shrinks t).
Proof.
  split; [by intros r; split|]. intros r1 r2 r3 [H1 H2] [H3 H4]. split; [|by intros k ?%H4%H2].
  intros ts k f x Hf ?%H3; [|done]. by apply H1.
Qed.

Lemma shrinks_unlink r t ks : redis_usable r → shrinks t r (unlink r t ks).1.
Proof.
  intros Hr. destruct (unlink_run r t ks Hr) as (_ & _ & _ & H). split; rewrite H.
  - by intros ts k f x _ (_ & ? & _)%field_at_delete.
  - intros k. rewrite lookup_evict, foldr_delete_lookup. case_bool_decide; [by intros []|].
    intros [e He]. destruct (evict t (data r) !! k); [eauto|done].
Qed.

Lemma shrinks_script r t k : redis_usable r → shrinks t r (softPurgeScript r t k).1.
Proof.
  intros Hr. destruct (script_run r t k Hr) as (_ & _ & _ & [H|[Hk H]]); split; rewrite H; try done.
  - intros ts k' f x Hf Hx. by apply (field_at_mark t) in Hx as [? _].
  - intros k'. rewrite lookup_evict. destruct (decide (k' = k)) as [->|Hne]; [done|]. unfold step_data.
    rewrite run_untouched by (simpl; set_solver). rewrite <- lookup_evict. by rewrite evict_idem.
Qed.

Lemma script_other r t k k' :
  redis_usable r → k' ≠ k → evict t (data (softPurgeScript r t k).1) !! k' = evict t (data r) !! k'.
Proof.
  intros Hr Hne. destruct (script_run r t k Hr) as (_ & _ & _ & [->|[_ ->]]); [done|].
  rewrite lookup_evict. unfold step_data. rewrite run_untouched by (simpl; set_solver).
  rewrite <- lookup_evict. by rewrite evict_idem.
Qed.

Lemma softPurgeKeys_run t ks r :
  redis_usable r →
  let p := softPurgeKeys r t ks in
  redis_usable p.1 ∧ evolves r p.1 ∧ shrinks t r p.1 ∧
  (∀ k, k ∉ ks → evict t (data p.1) !! k = evict t (data r) !! k) ∧
  ((∀ k, k ∈ ks → ∃ pk, k = metaKey pk) → p.2.2 = None).
Proof.
  revert r. induction ks as [|k ks IH]; intros r Hr p.
  { split; [done|]. split; [apply rtc_refl|]. split; [done|]. done. }
  destruct (script_run r t k Hr) as (H1 & H2 & H3 & _). pose proof (shrinks_script r t k Hr) as H4.
  pose proof (λ k', script_other r t k k' Hr) as H5. unfold p. simpl.
  destruct (softPurgeScript r t k) as [r1 res]. simpl in *. destruct (IH r1 H1) as (I1 & I2 & I3 & I4 & I5).
  destruct (softPurgeKeys r1 t ks) as [r2 [n err]]. simpl in *. split; [done|]. split; [by eapply rtc_trans|]. split; [by etrans|]. split.
  - intros k' Hk'. rewrite I4, H5 by set_solver. done.
  - intros Hm. destruct (Hm k) as [pk ->]; [by left|]. destruct Hr as [_ Hd].
    destruct (meta_hash (data r) t pk Hd) as (h & Hh & _). rewrite Hh in H2. destruct (H2 eq_refl) as [m ->].
    simpl. apply I5. set_solver.
Qed.

Lemma softPurge_law (St := redis_storage prefix) r t pk :
  redis_usable r →
  redis_usable (softPurge prefix r t pk).1 ∧ (∃ n, (softPurge prefix r t pk).2 = Ret n) ∧
  purged t r (softPurge prefix r t pk).1 (λ k', k' =s pk) true.
Proof.
  intros Hr. destruct (script_run r t (metaKey pk) Hr) as (H1 & H2 & _). destruct (shrinks_script r t (metaKey pk) Hr) as [H3 _].
  pose proof Hr as [_ Hd]. destruct (meta_hash (data r) t pk Hd) as (h & Hh & _). rewrite Hh in H2.
  destruct (H2 eq_refl) as [n Hn]. unfold softPurge. destruct (softPurgeScript r t (metaKey pk)) as [r' res]. simpl in *. subst res.
  split; [done|]. split; [eauto|]. apply purged_intro; try done. intros ts pk' x Hx. exists x. by apply H3.
Qed.

(** ** Scan loops *)
Section ScanLoop.
Context {A : Type} (s : scan_target) (t : Z) (fail : reply → str) (step : R → A → list str → R * result A).
Context (K : R → Prop) (T : R → R → Prop) {TP : PreOrder T} (D : list str → R → Prop).
Context (step_ok : ∀ r acc l, K r → (∀ x, x ∈ l → present s (evict t (data r)) x) →
           ∃ r' acc', step r acc l = (r', Ok acc') ∧ K r' ∧ evolves r r' ∧ T r r' ∧ D l r').
Context (D_keep : ∀ l r r', D l r → T r r' → D l r').
Context (T_present : ∀ r r', T r r' → ∀ x, present s (evict t (data r')) x → present s (evict t (data r)) x).
Context (scan_ok : ∀ r c, K r → ∃ c' l, query r t (scan_cmd s c) = RScan c' l).

Lemma scan_loop_run fuel r acc c :
  K r →
  (∃ r' acc' steps, scan_loop fuel s t fail step r acc c = Some (r', Ok acc') ∧ K r' ∧ T r r' ∧
     iteration s t r c steps ∧ ∀ ri l, (ri, l) ∈ steps → T ri r' ∧ D (returned s l) r') ∨
  unfinished s t (λ a b, ∀ x, present s (evict t (data b)) x → present s (evict t (data a)) x) r c fuel.
Proof.
  revert r acc c. induction fuel as [|fuel IH]; intros r acc c Hr; [right; constructor|].
  destruct (scan_ok r c Hr) as (c' & l & Hq). simpl. rewrite Hq.
  destruct (step_ok r acc (returned s l) Hr) as (r1 & acc1 & -> & Hr1 & He & HT & HD).
  { intros x. by eapply scan_sound. }
  destruct (c' =? 0)%N eqn:Ec.
  - left. apply N.eqb_eq in Ec as ->. eexists _, _, [(r, l)]. split; [done|]. split; [done|]. split; [done|].
    split; [by constructor|]. intros ri l'. rewrite list_elem_of_singleton. by intros [= -> ->].
  - apply N.eqb_neq in Ec. destruct (IH r1 acc1 c' Hr1) as [(r' & acc' & steps & -> & Hr' & HT' & Hit & Hst)|Hun].
    + left. eexists _, _, ((r, l) :: steps). split; [done|]. split; [done|]. split; [by etrans|].
      split; [by eapply iteration_more|]. intros ri l' [[= -> ->]|Hin]%elem_of_cons; [|by apply Hst].
      split; [by etrans|]. by eapply D_keep.
    + right. eapply unfinished_S; eauto.
Qed.

(** A loop over a cursor ends, and what was there all the time was handled. *)
Lemma scan_all_run r acc :
  K r → ∃ r' acc', scan_all s t fail step r acc = Some (r', Ok acc') ∧ K r' ∧ T r r' ∧
    ∀ x, (∀ ri, T ri r' → present s (evict t (data ri)) x) → ∃ l, x ∈ l ∧ D l r'.
Proof.
  intros Hr. destruct (scan_loop_run (S (scan_bound r)) r acc 0 Hr) as [(r' & acc' & steps & H1 & H2 & H3 & H4 & H5)|Hun].
  - exists r', acc'. split; [done|]. split; [done|]. split; [done|]. intros x Hx.
    destruct (scan_complete r t s steps x H4) as (ri & l & Hin & Hl).
    { intros ri l Hin. apply Hx. by eapply H5. }
    exists (returned s l). split; [done|]. by eapply H5.
  - apply scan_ends in Hun. lia.
Qed.
End ScanLoop.

(** [scanAndUnlink] deletes the keys that match, and no other. *)
Lemma evict_unlink r t ks k :
  redis_usable r → evict t (data (unlink r t ks).1) !! k = if bool_decide (k ∈ ks) then None else evict t (data r) !! k.
Proof.
  intros Hr. destruct (unlink_run r t ks Hr) as (_ & _ & _ & ->). rewrite lookup_evict, foldr_delete_lookup.
  case_bool_decide; [done|]. rewrite <- lookup_evict. by rewrite evict_idem.
Qed.

Lemma scanAndUnlink_run r t p :
  redis_usable r →
  ∃ r' n, scanAndUnlink r t p = Some (r', Ok n) ∧ redis_usable r' ∧ shrinks t r r' ∧
    ∀ k, evict t (data r') !! k = if redis_glob p k then None else evict t (data r) !! k.
Proof.
  intros Hr. set (T := λ r r', shrinks t r r' ∧ ∀ k, redis_glob p k = false → evict t (data r') !! k = evict t (data r) !! k).
  assert (PreOrder T) as HTP.
  { split; [by intros r0; split|]. intros r1 r2 r3 [H1 H2] [H3 H4]. split; [by etrans|].
    intros k Hk. by rewrite H4, H2. }
  destruct (scan_all_run (ScanKeys p) t scan_error (unlink_batch t) redis_usable T
    (λ l r', ∀ x, x ∈ l → evict t (data r') !! x = None)) with (r := r) (acc := (0, 0)%Z)
    as (r' & n & H1 & H2 & [H3 H4] & H5); [| | |by intros; apply scan_up; [apply H|]|done|].
  - intros r0 acc l H0 Hl. unfold unlink_batch. destruct l as [|x l]; simpl is_nil; cbv iota.
    { eexists _, _. split; [done|]. split; [done|]. split; [apply rtc_refl|]. split; [done|]. by intros x ?%not_elem_of_nil. }
    destruct (unlink_run r0 t (x :: l) H0) as (U1 & U2 & U3 & _). pose proof (shrinks_unlink r0 t (x :: l) H0) as U4.
    pose proof (λ k, evict_unlink r0 t (x :: l) k H0) as U5. destruct (unlink r0 t (x :: l)) as [r1 err].
    cbn [fst snd] in *. subst err. eexists _, _. split; [done|]. split; [done|]. split; [done|]. split; [split; [done|]|].
    + intros k Hk. rewrite U5. case_bool_decide as Hin; [|done]. destruct (Hl k Hin) as [_ Hm]. congruence.
    + intros k Hk. rewrite U5. by rewrite bool_decide_eq_true_2.
  - intros l r0 r1 Hl [[_ Hk] _] x Hx. destruct (evict t (data r1) !! x) eqn:E1; [|done].
    destruct (Hk x) as [e He]; [eauto|]. by rewrite (Hl x Hx) in He.
  - intros r0 r1 [[_ Hk] _] x [Hx Hm]. split; [by apply Hk|done].
  - exists r', n. split; [done|]. split; [done|]. split; [done|]. intros k. destruct (redis_glob p k) eqn:Hm; [|by apply H4].
    destruct (evict t (data r') !! k) as [e|] eqn:Ek; [|done]. exfalso.
    destruct (H5 k) as (l & Hin & Hl); [|by rewrite (Hl k Hin) in Ek].
    intros ri [[_ Hk] _]. split; [|done]. apply Hk. eauto.
Qed.

(** ** Purging by pattern *)
Definition redis_pattern_matches (pattern k : str) : bool :=
  existsb (λ p, redis_glob p (metaKey k)) (hard_patterns prefix pattern).

Lemma unlink_patterns_run t ps r n :
  redis_usable r →
  let p := unlink_patterns r t ps n in
  redis_usable p.1 ∧ (∃ m, p.2 = Ret m) ∧ shrinks t r p.1 ∧
  ∀ k, evict t (data p.1) !! k = if existsb (λ q, redis_glob q k) ps then None else evict t (data r) !! k.
Proof.
  revert r n. induction ps as [|q ps IH]; intros r n Hr; [split; [done|]; split; [eauto|done]|]. simpl.
  destruct (scanAndUnlink_run r t q Hr) as (r1 & [d pd] & -> & H1 & H2 & H3).
  destruct (IH r1 (n + pd)%Z H1) as (I1 & I2 & I3 & I4). split; [done|]. split; [done|]. split; [by etrans|].
  intros k. rewrite I4, H3. by destruct (existsb _ ps), (redis_glob q k).
Qed.

Lemma field_at_present d t ts k f x : (t ≤ ts)%Z → field_at d ts k f x → is_Some (evict t d !! k).
Proof.
  intros Ht Hx%(field_at_earlier _ _ _ _ _ _ Ht). destruct Hx as (e & h & Hk & Ha & Hv & Hf & Hx).
  rewrite lookup_evict, Hk. simpl. unfold evict_entry. rewrite Ha, Hv. simpl.
  rewrite bool_decide_eq_false_2; [eauto|]. intros He.
  assert (live_fields t h !! f = Some x) as H by (by apply live_fields_Some). by rewrite He, lookup_empty in H.
Qed.

Lemma hardPattern_law (St := redis_storage prefix) r t p :
  redis_usable r →
  redis_usable (hardPurgePattern prefix r t p).1 ∧ (∃ n, (hardPurgePattern prefix r t p).2 = Ret n) ∧
  purged t r (hardPurgePattern prefix r t p).1 (redis_pattern_matches p) false.
Proof.
  intros Hr. unfold hardPurgePattern. destruct (unlink_patterns_run t (hard_patterns prefix p) r 0 Hr) as (H1 & H2 & [H3 _] & H4).
  split; [done|]. split; [done|]. apply purged_intro; [done..| |].
  - intros ts pk x Hx. exists x. by apply H3.
  - intros _ ts pk x Ht Hm Hx. apply (field_at_present _ t) in Hx; [|done]. rewrite H4 in Hx.
    unfold redis_pattern_matches in Hm. rewrite Hm in Hx. by destruct Hx.
Qed.

Lemma softPattern_law (St := redis_storage prefix) r t p D :
  redis_usable r →
  redis_usable (softPurgePattern prefix r t p).1 ∧ (∃ n, (softPurgePattern prefix r t p).2 = Ret n) ∧
  purged t r (softPurgePattern prefix r t p).1 D true.
Proof.
  intros Hr. unfold softPurgePattern. set (q := prefix ++ _).
  destruct (scan_all_run (ScanKeys q) t scan_error (soft_batch t) redis_usable (shrinks t) (λ _ _, True))
    with (r := r) (acc := 0%Z) as (r' & n & -> & H2 & [H3 _] & _);
    [|done| |by intros; apply scan_up; [apply H|]|done|].
  - intros r0 acc l H0 _. unfold soft_batch. destruct (softPurgeKeys_run t l r0 H0) as (K1 & K2 & K3 & _).
    destruct (softPurgeKeys r0 t l) as [r1 [m err]]. eexists _, _. split; [done|]. done.
  - intros r0 r1 [_ Hk] x [Hx Hm]. split; [by apply Hk|done].
  - split; [done|]. split; [eauto|]. apply purged_intro; try done. intros ts pk x Hx. exists x. by apply H3.
Qed.

(** ** The contract *)
#[refine] Instance redis_laws : @StorageLaws R (redis_storage prefix) := {|
  usable := redis_usable;
  pattern_matches := redis_pattern_matches;
  storable := redis_storable;
  lifetime := redis_lifetime;
|}.
Proof.
  - intros r ts k Hr. by apply GetMeta_total.
  - intros r ts k vk Hr. by apply GetVariant_total.
  - intros r ts k soft Hr. destruct soft; [by apply softPurge_law|by apply hardPurge_law].
  - intros r ts p soft Hr. destruct soft; [by apply softPattern_law|by apply hardPattern_law].
  - intros r now k m v b ttl Hr. by apply SetVariant_usable.
  - intros r now k m v b ttl Hr [Em Ev]. simpl. destruct (marshal_meta (leanMeta m)) as [ib|] eqn:Em'; [|done].
    destruct (marshal_variant (with_variant_key v (variant_name (VariantKey v)))) as [vb|] eqn:Ev'; [|done].
    by destruct (SetVariant_run r now k m v b ttl ib vb Hr Em' Ev') as (_ & ? & _).
  - intros r t0 k m v b ttl now Hr Hs Hl. by destruct (set_then_get r t0 k m v b ttl now Hr Hs Hl) as (_ & ? & _).
  - intros r t0 k m v b ttl now Hr Hs Hl. by destruct (set_then_get r t0 k m v b ttl now Hr Hs Hl) as (_ & _ & ?).
Defined.

(** Variants with a property, also when commands fail. *)
#[refine] Instance redis_inv : @StorageInv R (redis_storage prefix) := {|
  all_variants := λ Q r, typed prefix Q (data r);
|}.
Proof.
  - intros Q r ts k m b vk v Hr Hg Hv. simpl in Hg. unfold redis_GetMeta in Hg.
    destruct (query r ts (HGETALL (metaKey k))) as [| | | | |hm| |] eqn:Eq; try done.
    destruct (hm !! indexField) as [ib|]; [|done]. destruct (unmarshal_meta ib) as [m0|]; [|done].
    injection Hg as <- _. simpl in Hv. rewrite hash_variants_lookup in Hv.
    destruct (hm !! variantField vk) as [vb|] eqn:Evb; [|done].
    destruct (query_doc r ts (HGETALL (metaKey k)) eq_refl) as [[e He]|Hq]; [congruence|]. rewrite Eq in Hq. simpl in Hq.
    unfold on_hash in Hq. destruct (hash_of (evict ts (data r)) (metaKey k)) as [h|] eqn:Eh; [|done]. simpl in Hq.
    injection Hq as ->. rewrite lookup_fmap in Evb. apply fmap_Some in Evb as (x & Hx & ->).
    pose proof (hash_lookup_present _ _ _ _ Eh (mk_is_Some _ _ Hx)) as Hp.
    destruct (hash_of_typed prefix Q _ _ _ (typed_evict prefix Q ts _ Hr) Eh Hp) as (Hm & _).
    destruct (Hm k eq_refl) as (h' & [= <-] & Hf). destruct (Hf _ _ Hx) as [_ Hvf].
    destruct (Hvf vk eq_refl) as (v0 & Hu & Hq0). rewrite Hu in Hv. by injection Hv as <-.
  - intros Q r ts k m v b ttl Hren Hr Hv _. apply typed_SetVariant; [by apply Hren|done].
  - intros Q r ts k soft Hr. apply (keep_Purge prefix (λ r, typed prefix Q (data r))); [| |done].
    + intros r0 ks H0. by apply typed_exec.
    + intros r0 k0. apply typed_script.
  - intros Q r ts p soft Hr. apply (keep_PurgeByPattern prefix (λ r, typed prefix Q (data r))); [| |done].
    + intros r0 ks H0. by apply typed_exec.
    + intros r0 k0. apply typed_script.
  - intros Q r ts tag soft Hr. apply (keep_PurgeByTag prefix (λ r, typed prefix Q (data r))); [| |done].
    + intros r0 ks H0. by apply typed_exec.
    + intros r0 k0. apply typed_script.
  - intros Q r ts Hr. apply (keep_PurgeAll prefix (λ r, typed prefix Q (data r))); [|done].
    intros r0 ks H0. by apply typed_exec.
Defined.

(** ** Purging by tag *)
Lemma batch_keys_run r t pks :
  redis_usable r →
  ∃ ks, batch_keys prefix r t pks = Ok ks ∧ (∀ pk, pk ∈ pks → metaKey pk ∈ ks) ∧
    (∀ k, k ∈ ks → ∃ pk, k = metaKey pk ∨ ∃ vk, k = bodyKey pk vk).
Proof.
  intros Hr. pose proof Hr as [Hu Hd]. induction pks as [|pk pks IH].
  { exists []. split; [done|]. split; intros ? ?%not_elem_of_nil; done. }
  destruct IH as (ks & Hks & H1 & H2). simpl. destruct (meta_hash (data r) t pk Hd) as (h & Hh & _).
  destruct (query_HKEYS r t (metaKey pk) h Hu Hh) as (l & -> & _). rewrite Hks. eexists. split; [done|]. split.
  - intros pk' [->|Hin]%elem_of_cons; [by left|]. right. apply elem_of_app. right. by apply H1.
  - intros k [->|Hin]%elem_of_cons; [eauto|]. apply elem_of_app in Hin as [Hin|Hin]; [|by apply H2].
    unfold body_keys in Hin. apply list_elem_of_omap in Hin as (f & _ & (vk & _ & ->)%fmap_Some). eauto.
Qed.

(** One batch: the entries of a hard purge are gone, and the tag's own hash is not touched. *)
Lemma tag_batch_run soft t tag r acc l :
  redis_usable r →
  ∃ r' acc', tag_batch prefix soft t r acc l = (r', Ok acc') ∧ redis_usable r' ∧ evolves r r' ∧ shrinks t r r' ∧
    evict t (data r') !! tagKey tag = evict t (data r) !! tagKey tag ∧
    (soft = false → ∀ pk, pk ∈ l → evict t (data r') !! metaKey pk = None).
Proof.
  intros Hr. unfold tag_batch. destruct l as [|x l]; simpl is_nil; cbv iota.
  { eexists _, _. split; [done|]. split; [done|]. split; [apply rtc_refl|]. split; [done|]. split; [done|].
    by intros _ pk ?%not_elem_of_nil. }
  destruct soft.
  - destruct (softPurgeKeys_run t (metaKey <$> x :: l) r Hr) as (K1 & K2 & K3 & K4 & K5).
    destruct (softPurgeKeys r t (metaKey <$> x :: l)) as [r1 [n err]]. cbn [fst snd] in *.
    rewrite K5 by (intros k (pk & -> & _)%list_elem_of_fmap; eauto).
    eexists _, _. split; [done|]. split; [done|]. split; [done|]. split; [done|]. split; [|done].
    apply K4. intros (pk & Hk & _)%list_elem_of_fmap. symmetry in Hk. by eapply meta_not_tag.
  - destruct (batch_keys_run r t (x :: l) Hr) as (ks & -> & H1 & H2). destruct ks as [|k ks].
    { specialize (H1 x ltac:(by left)). by apply not_elem_of_nil in H1. }
    destruct (unlink_run r t (k :: ks) Hr) as (U1 & U2 & U3 & _). pose proof (shrinks_unlink r t (k :: ks) Hr) as U4.
    pose proof (λ k', evict_unlink r t (k :: ks) k' Hr) as U5. destruct (unlink r t (k :: ks)) as [r1 err].
    cbn [fst snd] in *. subst err. eexists _, _. split; [done|]. split; [done|]. split; [done|]. split; [done|]. split.
    + rewrite U5. rewrite bool_decide_eq_false_2; [done|]. intros (pk & [Hk|[vk Hk]])%H2; symmetry in Hk;
        [by eapply meta_not_tag|by eapply body_not_tag].
    + intros _ pk Hpk. rewrite U5. by rewrite bool_decide_eq_true_2 by (by apply H1).
Qed.

Lemma PurgeByTag_run r t tag soft :
  redis_usable r →
  let p := redis_PurgeByTag prefix r t tag soft in
  redis_usable p.1 ∧ (∃ n, p.2 = Ret n) ∧ shrinks t r p.1 ∧
  (soft = false → ∀ pk x, field_at (data r) t (tagKey tag) pk x → evict t (data p.1) !! metaKey pk = None).
Proof.
  intros Hr. simpl. unfold redis_PurgeByTag. set (fl := scan_failure _ _).
  set (T := λ r r', shrinks t r r' ∧ evict t (data r') !! tagKey tag = evict t (data r) !! tagKey tag).
  assert (PreOrder T) as HTP.
  { split; [by intros r0; split|]. intros r1 r2 r3 [H1 H2] [H3 H4]. split; [by etrans|]. by rewrite H4. }
  destruct (scan_all_run (ScanHash (tagKey tag)) t fl (tag_batch prefix soft t) redis_usable T
    (λ l r', soft = false → ∀ pk, pk ∈ l → evict t (data r') !! metaKey pk = None)) with (r := r) (acc := 0%Z)
    as (r' & n & -> & H2 & [H3 H4] & H5); [| | | |done|].
  - intros r0 acc l H0 _. destruct (tag_batch_run soft t tag r0 acc l H0) as (r1 & a & ? & ? & ? & ? & ? & ?).
    exists r1, a. done.
  - intros l r0 r1 Hl [[_ Hk] _] Hs pk Hpk. destruct (evict t (data r1) !! metaKey pk) eqn:E1; [|done].
    destruct (Hk (metaKey pk)) as [e He]; [eauto|]. by rewrite (Hl Hs pk Hpk) in He.
  - intros r0 r1 [_ Ht] x (h & Hh & Hx). exists h. split; [|done]. unfold hash_of in *. by rewrite <- Ht.
  - intros r0 c H0. apply scan_up; [apply H0|]. intros k [= <-]. destruct H0 as [_ Hd].
    by destruct (tag_hash (data r0) t tag Hd) as [h ->].
  - assert (∀ pk x, soft = false → field_at (data r) t (tagKey tag) pk x → evict t (data r') !! metaKey pk = None) as Hgone.
    { intros pk x Hs Hx. destruct (H5 pk) as (l & Hin & Hl); [|by apply Hl]. intros ri [_ Hri].
      destruct Hr as [_ Hd]. destruct (tag_hash (data r) t tag Hd) as [h Hh]. exists h. split.
      - unfold hash_of in *. by rewrite <- Hri, H4.
      - exists x. by apply (field_at_hash _ _ _ h _ _ Hh). }
    destruct soft; [split; [done|]; split; [eauto|]; done|]. cbn [fst snd].
    destruct (unlink_run r' t [tagKey tag] H2) as (U1 & _ & _ & _). pose proof (shrinks_unlink r' t [tagKey tag] H2) as U2.
    split; [done|]. split; [eauto|]. split; [by etrans|]. intros _ pk x Hx. rewrite evict_unlink by done.
    case_bool_decide; [done|]. by eapply Hgone.
Qed.

(** ** Every key has a deadline *)
Definition expires (d : keyspace) (k : str) : Prop := ∀ e, d !! k = Some e → re_expire e ≠ None.

Lemma expires_evict t d k : expires d k → expires (evict t d) k.
Proof.
  intros H e. rewrite lookup_evict. intros (e0 & H0 & He)%bind_Some. apply evict_entry_Some in He as (_ & -> & _). by apply H.
Qed.

Lemma expires_untouched t d cs k : (∀ c, c ∈ cs → k ∉ touched c) → expires d k → expires (foldl (step_data t) d cs) k.
Proof.
  revert d. induction cs as [|c cs IH]; intros d Hc Hd; [done|]. simpl. apply IH; [set_solver|].
  intros e. unfold step_data. rewrite run_untouched by (apply Hc; by left). by apply expires_evict.
Qed.

Lemma expires_unlink r t ks k : redis_usable r → expires (data r) k → expires (data (unlink r t ks).1) k.
Proof.
  intros Hr H e. destruct (unlink_run r t ks Hr) as (_ & _ & _ & ->). rewrite foldr_delete_lookup.
  case_bool_decide; [done|]. by apply expires_evict.
Qed.

(** The mark goes to an existing hash only, and keeps its deadline. *)
Lemma expires_script r t k0 k : redis_usable r → expires (data r) k → expires (data (softPurgeScript r t k0).1) k.
Proof.
  intros Hr H. destruct (script_run r t k0 Hr) as (_ & _ & _ & [->|[[e0 He0] ->]]); [done|]. unfold step_data. simpl.
  unfold on_hash. apply (expires_evict t) in H. destruct (hash_of (evict t (data r)) k0) as [h|] eqn:Eh; [|done]. simpl.
  intros e. destruct (decide (k = k0)) as [->|Hne]; [|rewrite put_hash_ne by done; apply H].
  rewrite put_hash_eq by apply insert_non_empty. intros [= <-]. simpl. rewrite He0. simpl. by apply H.
Qed.

Lemma set_cmds_split pk vk ib vb b tags secs :
  set_cmds prefix pk vk ib vb b tags secs = set_cmds prefix pk vk ib vb b [] secs ++ (tags ≫= tag_cmds prefix pk secs).
Proof. reflexivity. Qed.

Lemma expires_SetVariant r t pk m v b ttl k :
  redis_usable r → expires (data r) k → expires (data (redis_SetVariant prefix r t pk m v b ttl).1) k.
Proof.
  intros Hr H. destruct (marshal_meta (leanMeta m)) as [ib|] eqn:Em; [|unfold redis_SetVariant; by rewrite Em].
  destruct (marshal_variant (with_variant_key v (variant_name (VariantKey v)))) as [vb|] eqn:Ev;
    [|unfold redis_SetVariant; by rewrite Em, Ev].
  destruct (SetVariant_run r t pk m v b ttl ib vb Hr Em Ev) as (_ & _ & ->). set (vk := variant_name _).
  pose proof Hr as [_ Hd].
  destruct (steps_set t (data r) pk vk ib vb b (Tags m) (ttlSeconds ttl) Hd (ttlSeconds_pos ttl))
    as (h & D & [Hh _] & _ & _ & _ & _ & Hb).
  destruct (decide (k = metaKey pk)) as [->|Hm]; [intros e; rewrite Hh; by intros [= <-]|].
  destruct (decide (k = bodyKey pk vk)) as [->|Hbk]; [intros e; rewrite Hb; by intros [= <-]|].
  destruct (decide (Exists (λ tag, tag ≠ [] ∧ k = tagKey tag) (Tags m))) as [Ht|Ht].
  - apply Exists_exists in Ht as (tag & Hin & Hne & ->). rewrite set_cmds_split, foldl_app.
    set (d1 := foldl (step_data t) (data r) _). assert (typed0 d1) as Hd1.
    { apply typed_steps; [done|]. intros c Hc. by eapply encoded_cmds_ok. }
    destruct (steps_tags t pk (ttlSeconds ttl) (Tags m) d1 tag Hd1 (ttlSeconds_pos ttl) Hin Hne) as (h1 & D1 & v1 & [Hh1 _] & _).
    intros e. rewrite Hh1. by intros [= <-].
  - apply expires_untouched; [|done]. intros c Hc. unfold set_cmds, expire_cmds in Hc.
    rewrite !elem_of_app, !elem_of_cons, !elem_of_nil in Hc.
    destruct Hc as [[->|[->|[->|[->|[]]]]]|[[->|[->|[]]]|Hc]]; simpl; rewrite ?list_elem_of_singleton; try done.
    apply tag_cmds_elem in Hc as (tag & Hin & Hne & Hc). assert (k ≠ tagKey tag) as Hk.
    { intros ->. apply Ht. apply Exists_exists. eauto. }
    destruct Hc as [->|[->|[->| ->]]]; simpl; by rewrite list_elem_of_singleton.
Qed.

(** The operations of the store, on a server that is up. *)
Inductive redis_step (r : R) : R → Prop :=
  | rstep_set t pk m v b ttl : redis_step r (redis_SetVariant prefix r t pk m v b ttl).1
  | rstep_purge t pk soft : redis_step r (redis_Purge prefix r t pk soft).1
  | rstep_pattern t p soft : redis_step r (redis_PurgeByPattern prefix r t p soft).1
  | rstep_tag t tag soft : redis_step r (redis_PurgeByTag prefix r t tag soft).1
  | rstep_all t : redis_step r (redis_PurgeAll prefix r t).1.

Lemma redis_step_keeps r r' k :
  redis_usable r ∧ expires (data r) k → redis_step r r' → redis_usable r' ∧ expires (data r') k.
Proof.
  intros H. assert (∀ t r ks, redis_usable r ∧ expires (data r) k →
    redis_usable (exec r t (UNLINK ks)).1 ∧ expires (data (exec r t (UNLINK ks)).1) k) as Hu.
  { intros t r0 ks [H0 H1]. pose proof (expires_unlink r0 t ks k H0 H1) as H2.
    destruct (exec_step r0 t (UNLINK ks) H0 eq_refl I) as (H3 & _). unfold unlink in H2. by destruct (exec r0 t (UNLINK ks)). }
  assert (∀ t r k0, redis_usable r ∧ expires (data r) k →
    redis_usable (softPurgeScript r t k0).1 ∧ expires (data (softPurgeScript r t k0).1) k) as Hs.
  { intros t r0 k0 [H0 H1]. destruct (script_run r0 t k0 H0) as (? & _). split; [done|by apply expires_script]. }
  pose proof (λ t, keep_Purge prefix (λ r, redis_usable r ∧ expires (data r) k) t (Hu t) (Hs t)) as K1.
  pose proof (λ t, keep_PurgeByPattern prefix (λ r, redis_usable r ∧ expires (data r) k) t (Hu t) (Hs t)) as K2.
  pose proof (λ t, keep_PurgeByTag prefix (λ r, redis_usable r ∧ expires (data r) k) t (Hu t) (Hs t)) as K3.
  pose proof (λ t, keep_PurgeAll prefix (λ r, redis_usable r ∧ expires (data r) k) t (Hu t)) as K4.
  destruct 1; [|by apply K1|by apply K2|by apply K3|by apply K4].
  destruct H as [H0 H1]. split; [by apply SetVariant_usable|by apply expires_SetVariant].
Qed.

Lemma deadlines_bounded (d : keyspace) : ∃ T, ∀ k e D, d !! k = Some e → re_expire e = Some D → (D ≤ T)%Z.
Proof.
  induction d as [|k e d Hk [T HT]] using map_ind.
  - exists 0%Z. intros k e D. by rewrite lookup_empty.
  - exists (Z.max T (default T (re_expire e))). intros k' e' D. rewrite lookup_insert_Some.
    intros [[<- <-]|[_ He]] HD; [rewrite HD; simpl; lia|]. specialize (HT k' e' D He HD). lia.
Qed.

(** Keys that all have a deadline are gone after some time. *)
Lemma expiring_ends d :
  (∀ k, expires d (prefix ++ k)) → ∃ T, ∀ t, (T ≤ t)%Z → ∀ k, evict t d !! (prefix ++ k) = None.
Proof.
  intros Hr. destruct (deadlines_bounded d) as [T HT]. exists T. intros t Ht k. rewrite lookup_evict.
  destruct (d !! (prefix ++ k)) as [e|] eqn:Ek; [|done]. simpl. unfold evict_entry.
  destruct (re_expire e) as [D|] eqn:Ex; [|by destruct (Hr k e)]. specialize (HT _ e D Ek Ex).
  simpl. assert ((t <? D)%Z = false) as -> by lia. done.
Qed.

(** ** Properties *)

(** C13: what is written to Redis is read back: on a documented server and codec,
    a write of messages that can be encoded succeeds, and until the time to live, cut to
    whole seconds (at least one), has passed, [GetMeta] returns the metadata with the
    variant and no soft-purge mark, and [GetVariant] the variant and its body. *)
Theorem redis_write_then_read r t pk m v b ttl ts :
  redis_usable r → redis_storable m v → live t (redis_lifetime ttl) ts →
  let r' := (redis_SetVariant prefix r t pk m v b ttl).1 in
  let v' := with_variant_key v (variant_name (VariantKey v)) in
  (redis_SetVariant prefix r t pk m v b ttl).2 = Ret tt ∧ redis_usable r' ∧
  (∃ m', redis_GetMeta prefix r' ts pk = Ret (Some (m', false)) ∧ meta_agrees m m' ∧
         Variants m' !! variant_name (VariantKey v) = Some v') ∧
  redis_GetVariant prefix r' ts pk (VariantKey v) = Ret (Some (v', b)).
Proof.
  intros Hr Hs Hl r' v'. split; [|by apply set_then_get]. destruct Hs as [Em Ev].
  destruct (marshal_meta (leanMeta m)) as [ib|] eqn:Em'; [|done].
  destruct (marshal_variant (with_variant_key v (variant_name (VariantKey v)))) as [vb|] eqn:Ev'; [|done].
  by destruct (SetVariant_run r t pk m v b ttl ib vb Hr Em' Ev') as (_ & ? & _).
Qed.

(** A field that lives until [ts] survives commands that do not touch its hash. *)
Lemma field_at_later t d ts k f x : (t ≤ ts)%Z → field_at d ts k f x → field_at (evict t d) ts k f x.
Proof.
  intros Ht (e & h & Hd & Ha & Hv & Hf & Hx). exists (mkEntry (RHash (live_fields t h)) (re_expire e)), (live_fields t h).
  assert (live_fields t h !! f = Some x) as Hl by (apply live_fields_Some; split; [done|by eapply alive_earlier]).
  split; [|done]. rewrite lookup_evict, Hd. simpl. unfold evict_entry. rewrite (alive_earlier t ts) by done. simpl. rewrite Hv.
  rewrite bool_decide_eq_false_2; [done|]. intros He. by rewrite He, lookup_empty in Hl.
Qed.

Lemma field_at_untouched t d ts k f x cs :
  (t ≤ ts)%Z → (∀ c, c ∈ cs → k ∉ touched c) → field_at d ts k f x → field_at (foldl (step_data t) d cs) ts k f x.
Proof.
  intros Ht. revert d. induction cs as [|c cs IH]; intros d Hc Hd; [done|]. simpl. apply IH; [set_solver|].
  destruct (field_at_later t d ts k f x Ht Hd) as (e & h & He & H). exists e, h. split; [|done].
  unfold step_data. rewrite run_untouched by (apply Hc; by left). exact He.
Qed.

(** The hash of the tag lists the key, and still does at [ts]. *)
Definition indexed (r : R) (ts : Z) (tag pk : str) : Prop := ∃ x, field_at (data r) ts (tagKey tag) pk x.

(** A write, no later than [ts], of an entry without the tag. *)
Inductive other_write (ts : Z) (tag : str) (r : R) : R → Prop :=
  | other_set t pk m v b ttl : (t ≤ ts)%Z → tag ∉ Tags m → other_write ts tag r (redis_SetVariant prefix r t pk m v b ttl).1.

Lemma write_indexes r t pk m v b ttl tag t1 :
  redis_usable r → redis_storable m v → tag ∈ Tags m → tag ≠ [] → live t (redis_lifetime ttl) t1 →
  redis_usable (redis_SetVariant prefix r t pk m v b ttl).1 ∧ indexed (redis_SetVariant prefix r t pk m v b ttl).1 t1 tag pk.
Proof.
  intros Hr [Em Ev] Hin Hne [_ Hl]. destruct (marshal_meta (leanMeta m)) as [ib|] eqn:Em'; [|done].
  destruct (marshal_variant (with_variant_key v (variant_name (VariantKey v)))) as [vb|] eqn:Ev'; [|done].
  destruct (SetVariant_run r t pk m v b ttl ib vb Hr Em' Ev') as (Hr1 & _ & Hdata). split; [done|].
  rewrite set_cmds_split, foldl_app in Hdata.
  destruct (steps_tags t pk (ttlSeconds ttl) (Tags m)
    (foldl (step_data t) (data r) (set_cmds prefix pk (variant_name (VariantKey v)) ib vb b [] (ttlSeconds ttl))) tag)
    as (h & D & y & [Hh _] & HD & Hy); [|apply ttlSeconds_pos|done..|].
  { destruct Hr as [_ Hd]. apply typed_steps; [done|]. intros c Hc. by eapply encoded_cmds_ok. }
  rewrite <- Hdata in Hh. assert (t1 < deadline t (ttlSeconds ttl))%Z as Hlt by done.
  exists (mkField y (Some (deadline t (ttlSeconds ttl)))). eexists _, h. split; [exact Hh|].
  split; [simpl; lia|]. split; [done|]. split; [done|simpl; lia].
Qed.

Lemma other_write_indexed ts tag pk r r' :
  redis_usable r ∧ indexed r ts tag pk → other_write ts tag r r' → redis_usable r' ∧ indexed r' ts tag pk.
Proof.
  intros [Hr [x Hx]] [t pk' m v b ttl Ht Hn].
  destruct (marshal_meta (leanMeta m)) as [ib|] eqn:Em; [|unfold redis_SetVariant; rewrite Em; simpl; split; [done|by exists x]].
  destruct (marshal_variant (with_variant_key v (variant_name (VariantKey v)))) as [vb|] eqn:Ev;
    [|unfold redis_SetVariant; rewrite Em, Ev; simpl; split; [done|by exists x]].
  destruct (SetVariant_run r t pk' m v b ttl ib vb Hr Em Ev) as (Hr' & _ & Hdata). split; [done|]. exists x.
  unfold indexed. rewrite Hdata. apply field_at_untouched; [done| |done]. intros c Hc. unfold set_cmds, expire_cmds in Hc.
  rewrite !elem_of_app, !elem_of_cons, !elem_of_nil in Hc.
  assert (tagKey tag ≠ metaKey pk' ∧ tagKey tag ≠ bodyKey pk' (variant_name (VariantKey v))) as [Hm Hb].
  { split; intros Heq; symmetry in Heq; [by apply meta_not_tag in Heq|by apply body_not_tag in Heq]. }
  destruct Hc as [[->|[->|[->|[->|[]]]]]|[[->|[->|[]]]|Hc]]; simpl; rewrite ?list_elem_of_singleton; try done.
  apply tag_cmds_elem in Hc as (tag' & Hin & Hne & Hc).
  assert (tagKey tag ≠ tagKey tag') as Hk by (intros ->%app_inv_head%app_inv_head; done).
  destruct Hc as [->|[->|[->| ->]]]; simpl; by rewrite list_elem_of_singleton.
Qed.

(** C28: purging by a tag removes what was stored under it: after a write with the tag, and any writes of
    entries without it, a hard purge of the tag within the lifetime of the entry ends, and from then
    on there is no entry; the scan of the tag's hash misses no key, whatever batches the server
    returns.  (A later write with the same tag may drop the key from its hash early, see
    [tag_index_expires_early]; and a write that overlaps the purge may survive it, see
    [tag_purge_forgets_new_entry].) *)
Theorem redis_tag_purge_complete r t pk m v b ttl tag t1 ts r1 :
  redis_usable r → redis_storable m v → tag ∈ Tags m → tag ≠ [] →
  live t (redis_lifetime ttl) t1 → (t1 ≤ ts)%Z →
  rtc (other_write t1 tag) (redis_SetVariant prefix r t pk m v b ttl).1 r1 →
  let p := redis_PurgeByTag prefix r1 t1 tag false in
  (∃ n, p.2 = Ret n) ∧ redis_GetMeta prefix p.1 ts pk = Ret None.
Proof.
  intros Hr Hs Hin Hne Hl Hts Hw p.
  assert (redis_usable r1 ∧ indexed r1 t1 tag pk) as [Hr1 [x0 Hidx]].
  { pose proof (write_indexes r t pk m v b ttl tag t1 Hr Hs Hin Hne Hl) as H. revert H.
    induction Hw as [r0|r0 r' r'' Hstep _ IH]; [done|]. intros H. apply IH. by eapply other_write_indexed. }
  destruct (PurgeByTag_run r1 t1 tag false Hr1) as (Hp & Hret & _ & Hgone). fold p in Hp, Hret, Hgone.
  split; [done|]. apply (GetMeta_None p.1 ts pk Hp). intros x Hx.
  apply (field_at_present _ t1) in Hx; [|done]. rewrite (Hgone eq_refl pk x0 Hidx) in Hx. by destruct Hx.
Qed.

(** Purging everything is exact: with a prefix without pattern characters,
    [PurgeAll] ends, no key of the prefix is left, and no other key is touched. *)
Theorem redis_purge_all_exact r t :
  redis_usable r → forallb (λ c, negb (glob_special c)) prefix = true →
  let p := redis_PurgeAll prefix r t in
  (∃ n, p.2 = Ret n) ∧
  ∀ k, evict t (data p.1) !! k = if HasPrefix k prefix then None else evict t (data r) !! k.
Proof.
  intros Hr Hp p. unfold p, redis_PurgeAll.
  destruct (scanAndUnlink_run r t (prefix ++ B "*") Hr) as (r' & [d n] & -> & _ & _ & Hk). split; [eauto|].
  intros k. cbn [fst]. rewrite Hk. assert (redis_glob (prefix ++ B "*") k = HasPrefix k prefix) as ->; [|done].
  clear -Hp RD. revert k. induction prefix as [|c q IH]; intros k.
  - simpl. assert (redis_glob (B "*") k = true) as ->; [|by destruct k]. apply glob_star. exists k, [].
    split; [by rewrite app_nil_r|]. apply glob_nil.
  - simpl in Hp. apply andb_true_iff in Hp as [Hc%negb_true_iff Hq]. simpl app. rewrite (glob_char c) by done.
    destruct k as [|d' k]; [done|]. simpl. rewrite IH by done. unfold byte_eqb. by rewrite Ascii.eqb_sym.
Qed.

(** Nothing is kept for ever: whatever operations ran, in whatever order and
    at whatever times, as long as the server is up there is a time from which on no key of the store
    is left, because every key it creates has a deadline (also the ones that a soft purge or
    a tag writes). *)
Theorem redis_eventually_empty r0 r :
  redis_usable r0 → (∀ k, expires (data r0) (prefix ++ k)) → rtc redis_step r0 r →
  ∃ T, ∀ t, (T ≤ t)%Z → ∀ k, evict t (data r) !! (prefix ++ k) = None.
Proof.
  intros Hu He Hs. assert (∀ k, expires (data r) (prefix ++ k)) as Hr.
  { intros k. specialize (He k). assert (redis_usable r0 ∧ expires (data r0) (prefix ++ k)) as H by done. clear Hu He.
    induction Hs as [r|r1 r2 r3 H12 _ IH]; [by destruct H|]. apply IH. by eapply redis_step_keeps. }
  by apply expiring_ends.
Qed.

(** A defect: a write is a plain pipeline, not a transaction.  If the connection is lost
    after its first command, the metadata is there without a body and without a deadline: it is
    found at every later time. *)
Theorem interrupted_write_never_expires r t pk m v b ttl ib vb :
  redis_usable r → marshal_meta (leanMeta m) = Ok ib →
  marshal_variant (with_variant_key v (variant_name (VariantKey v))) = Ok vb →
  evict t (data r) !! metaKey pk = None → evict t (data r) !! bodyKey pk (variant_name (VariantKey v)) = None →
  let cmds := set_cmds prefix pk (variant_name (VariantKey v)) ib vb b (Tags m) (ttlSeconds ttl) in
  let r1 := (DoMulti r t (take 1 cmds)).1 in
  ∀ ts, (∃ x, redis_GetMeta prefix r1 ts pk = Ret (Some x)) ∧
        redis_GetVariant prefix r1 ts pk (VariantKey v) = Ret None.
Proof.
  intros Hr Em Ev Hk Hb cmds r1 ts. pose proof (meta_round_trip _ _ Em) as Em'. pose proof (variant_round_trip _ _ Ev) as Ev'.
  set (vk := variant_name (VariantKey v)) in *. set (fvs := [(indexField, ib); (variantField vk, vb)]).
  assert (hash_of (evict t (data r)) (metaKey pk) = Ok ∅) as Hh by (unfold hash_of; by rewrite Hk).
  pose proof (step_HSET t (data r) (metaKey pk) fvs ∅ Hh ltac:(done)) as H1. rewrite Hk in H1. simpl in H1.
  destruct (DoMulti_run t (take 1 cmds) r Hr) as (Hr1 & Hd1 & _).
  { intros c Hc. apply elem_of_take in Hc as (i & Hc & _). apply list_elem_of_lookup_2 in Hc. by eapply encoded_cmds_ok. }
  fold r1 in Hr1, Hd1. change (data r1 = step_data t (data r) (HSET (metaKey pk) fvs)) in Hd1. rewrite <- Hd1 in H1.
  assert (live_fields ts (set_fields ∅ fvs) !! indexField = Some (mkField ib None)) as Hi.
  { apply live_fields_Some. split; [|done]. unfold fvs, set_fields. simpl.
    rewrite lookup_insert_ne by (intros H; symmetry in H; by eapply index_not_variant). apply lookup_insert_eq. }
  assert (hash_of (evict ts (data r1)) (metaKey pk) = Ok (live_fields ts (set_fields ∅ fvs))) as Hread.
  { eapply hash_is_read; [exact H1|done|]. intros He. by rewrite He, lookup_empty in Hi. }
  split.
  - destruct Hr1 as [Hu _]. rewrite (GetMeta_run r1 ts pk _ Hu Hread), Hi. simpl. rewrite Em'. eauto.
  - rewrite (GetVariant_run r1 ts pk _ _ Hr1 Hread). fold vk. rewrite lookup_evict, Hd1. unfold step_data.
    rewrite run_untouched; [|simpl; rewrite list_elem_of_singleton; intros H; symmetry in H; by eapply meta_not_body].
    rewrite Hb. cbn [mbind option_bind]. by repeat case_match.
Qed.
End Laws.
