(* ===== verification/Purge.v ===== *)
(** * Purge targets ([src/purge.go])

    How a purge target (a path or a URL) becomes an exact primary key or a
    glob pattern over primary keys.  The properties relate the result to the
    keys that [generatePrimaryKey] gives to requests, through the pattern
    matcher of the store. *)

From S2P Require Import Prelude GoStrings GoHttp Env Headers CacheKey Storage TestStore Glob.

#[local] Unset Default Proof Using.

Section Purge.
Context {E : GoEnv} (g : str → str → bool) {G : GlobMatcher g}.

(** The parsing prologue of both functions: the URL and the scheme that the
    target names. *)
Definition parse_target (target : str) : option (URL * str) :=
  if HasPrefix target (B "/") then (λ u, (u, [])) <$> url_Parse target
  else
    let scheme := if HasPrefix target (B "https://") then B "https"
                  else if HasPrefix target (B "http://") then B "http" else [] in
    let rawTarget := if Contains target (B "://") then target else B "http://" ++ target in
    (λ u, (u, scheme)) <$> url_Parse rawTarget.

(** "p=" and the escaped clean path. *)
Definition target_path (u : URL) (cfg : CacheKey) : str :=
  let rawPath := if is_nil (u_Path u) then B "/" else u_Path u in
  B "p=" ++ writeEscapedPath (cleanPath cfg rawPath).

Definition scheme_segment (cfg : CacheKey) (scheme : str) : str :=
  if IncludeProtocol cfg && negb (is_nil scheme) then B "s=" ++ scheme ++ B ":" else [].

(** [fakeReq]: [Panicked] is the nil dereference of a URL that does not parse. *)
Definition target_query (u : URL) (cfg : CacheKey) : outcome str :=
  if negb (ExcludeQuery cfg) && negb (is_nil (u_RawQuery u)) then
    match url_Parse (B "http://x?" ++ u_RawQuery u) with
    | Some fakeURL => Ret (buildQueryString (u_RawQuery fakeURL) cfg)
    | None => Panicked
    end
  else Ret [].

Definition buildPurgeOperation (target : str) (cfg : option CacheKey) : outcome (bool * list str) :=
  if is_nil target then Ret (false, []) else
  let cfg := default zeroCacheKey cfg in
  match parse_target target with
  | None => Fail (B "parse")
  | Some (parsed, scheme) =>
    let host := normalizeHost (u_Host parsed) scheme in
    let buf := target_path parsed cfg in
    match target_query parsed cfg with
    | Panicked => Panicked
    | Fail e => Fail e
    | Ret qs =>
        if negb (is_nil qs) then
          let buf := buf ++ B ":" in
          if ExcludeHost cfg || negb (is_nil host) then
            let buf := buf ++ (if negb (ExcludeHost cfg) && negb (is_nil host)
                               then B "h=" ++ host ++ B ":" else [])
                           ++ scheme_segment cfg scheme ++ B "qs=" ++ qs in
            if is_nil (IncludedHeaderNames cfg) && is_nil (IncludedCookieNames cfg)
            then Ret (true, [buf ++ B ":m=GET:"])
            else Ret (false, [buf ++ B ":*"])
          else
            Ret (false, [buf ++ B "h=*:" ++ scheme_segment cfg scheme ++ B "qs=" ++ qs ++ B ":*"])
        else
          let buf := buf ++ B ":" in
          if negb (ExcludeHost cfg) && negb (is_nil host)
          then Ret (false, [buf ++ B "h=" ++ host ++ B ":" ++ scheme_segment cfg scheme ++ B "*"])
          else Ret (false, [buf ++ B "*"])
    end
  end.

Definition buildPurgePrefixOperation (prefix : str) (cfg : option CacheKey) : result (list str) :=
  if is_nil prefix then Err (B "empty prefix is not allowed") else
  let cfg := default zeroCacheKey cfg in
  match parse_target prefix with
  | None => Err (B "parse")
  | Some (parsed, scheme) =>
      let host := normalizeHost (u_Host parsed) scheme in
      let buf := target_path parsed cfg ++ B "*" in
      if negb (ExcludeHost cfg) && negb (is_nil host)
      then Ok [buf ++ B ":h=" ++ host ++ B ":" ++ scheme_segment cfg scheme ++ B "*"]
      else Ok [buf]
  end.

(** ** Requests that a target addresses *)
Definition target_raw_path (u : URL) : str := if is_nil (u_Path u) then B "/" else u_Path u.

(** [r] has the path of the target, and its host, scheme and query where the
    target gives one; [qs] is the query component of the target. *)
Record addressed (cfg : CacheKey) (u : URL) (scheme qs : str) (r : Request) : Prop := {
  ad_path : cleanPath cfg (raw_path r) = cleanPath cfg (target_raw_path u);
  ad_has_host : ExcludeHost cfg = false →
    effective_host r ≠ [] ∧ normalizeHost (effective_host r) (resolveScheme r) ≠ [];
  ad_host : ExcludeHost cfg = false → normalizeHost (u_Host u) scheme ≠ [] →
    normalizeHost (effective_host r) (resolveScheme r) = normalizeHost (u_Host u) scheme;
  ad_scheme : IncludeProtocol cfg = true → scheme ≠ [] → resolveScheme r = scheme;
  ad_query : qs ≠ [] → key_query r cfg = B "qs=" ++ qs ++ B ":";
}.

(** ** Facts: literal text *)
Abbreviation lit := (literal_str g).

Lemma escape_literal m s :
  m = encodePathSegment ∨ m = encodeQueryComponent → lit (escape m s) = true.
Proof.
  intros Hm. assert (∀ c, c ∈ escape m s → plain_byte c && negb (byte_eqb c "[") = true) as H.
  { intros c Hc. apply negb_false_iff. revert c Hc.
    apply (escape_avoids m (λ c, negb (plain_byte c && negb (byte_eqb c "[")))).
    destruct Hm as [->| ->]; vm_compute; reflexivity. }
  apply plain_literal.
  - apply plain_str_spec. by intros c [? _]%H%andb_true_iff.
  - intros [_ ?]%H%andb_true_iff. done.
Qed.

(** Text all of whose bytes are literal. *)
Lemma lit_spec s : lit s = true ↔ ∀ c, c ∈ s → literal c = true.
Proof. unfold literal_str. rewrite forallb_forall. split; intros H c Hc; apply H; by apply list_elem_of_In. Qed.

Lemma writeEscapedPath_literal p : lit (writeEscapedPath p) = true.
Proof.
  apply lit_spec. intros c [->|(w & _ & Hw)]%writeEscapedPath_elem; [by apply literal_plain|].
  revert c Hw. apply lit_spec, escape_literal. by left.
Qed.

(** Literal text of the source. *)
Lemma lit_B s : plain_str (B s) && negb (Contains (B s) (B "[")) = true → lit (B s) = true.
Proof.
  intros [H1 H2%negb_true_iff]%andb_true_iff. apply plain_literal; [done|]. by apply Contains_nil_false.
Qed.

Lemma buildQueryString_literal q cfg : lit (buildQueryString q cfg) = true.
Proof.
  destruct (buildQueryString_shape q cfg) as [l ->]. apply lit_spec.
  intros c [Hc|(w & Hw & Hc)]%elem_of_join; [apply list_elem_of_singleton in Hc as ->; by apply literal_plain|].
  apply list_elem_of_fmap in Hw as ([k v] & -> & _). revert c Hc. apply lit_spec.
  unfold encode_param. rewrite !literal_str_app. unfold QueryEscape.
  rewrite !escape_literal by (by right). by rewrite lit_B.
Qed.

Lemma resolveScheme_literal r : lit (resolveScheme r) = true.
Proof. unfold resolveScheme. by repeat case_match; apply lit_B. Qed.

Lemma target_query_literal u cfg qs : target_query u cfg = Ret qs → lit qs = true.
Proof.
  unfold target_query. case_if; [|by intros [= <-]].
  destruct (url_Parse _); [|done]. intros [= <-]. apply buildQueryString_literal.
Qed.

(** ** Facts: keys *)
Lemma key_path_addressed cfg u scheme qs r :
  addressed cfg u scheme qs r → key_path r cfg = target_path u cfg ++ B ":".
Proof.
  intros H. unfold key_path, target_path. fold (raw_path r) (target_raw_path u).
  by rewrite (ad_path _ _ _ _ _ H), <- app_assoc.
Qed.

Lemma key_host_present r cfg :
  ExcludeHost cfg = false → effective_host r ≠ [] →
  normalizeHost (effective_host r) (resolveScheme r) ≠ [] →
  key_host r cfg = B "h=" ++ normalizeHost (effective_host r) (resolveScheme r) ++ B ":".
Proof.
  intros Hx H1 H2. unfold key_host. rewrite Hx. fold (effective_host r).
  apply is_nil_false in H1, H2. by rewrite H1, H2.
Qed.

Lemma scheme_segment_addressed cfg u scheme qs r :
  addressed cfg u scheme qs r → (IncludeProtocol cfg = true → scheme ≠ []) →
  key_scheme r cfg = scheme_segment cfg scheme.
Proof.
  intros H Hs. unfold key_scheme, scheme_segment. destruct (IncludeProtocol cfg) eqn:Ei; [|done].
  specialize (Hs eq_refl). rewrite (ad_scheme _ _ _ _ _ H Ei Hs). apply is_nil_false in Hs. by rewrite Hs.
Qed.

Lemma scheme_segment_literal cfg u scheme qs r :
  addressed cfg u scheme qs r → lit (scheme_segment cfg scheme) = true.
Proof.
  intros H. unfold scheme_segment.
  destruct (IncludeProtocol cfg) eqn:Hi, (is_nil scheme) eqn:Hs; simpl andb; cbv iota; try done.
  apply is_nil_false in Hs.
  rewrite <- (ad_scheme _ _ _ _ _ H Hi Hs), !literal_str_app, resolveScheme_literal, !lit_B by done. done.
Qed.

Lemma key_host_addressed cfg u scheme qs r :
  addressed cfg u scheme qs r → ExcludeHost cfg = false → normalizeHost (u_Host u) scheme ≠ [] →
  key_host r cfg = B "h=" ++ normalizeHost (u_Host u) scheme ++ B ":".
Proof.
  intros H Hx Hh. destruct (ad_has_host _ _ _ _ _ H Hx) as [H1 H2].
  by rewrite key_host_present, (ad_host _ _ _ _ _ H Hx Hh).
Qed.

(** What follows the query component in a key. *)
Definition key_tail (r : Request) (cfg : CacheKey) : str :=
  key_method r ++ (slices_sort (IncludedHeaderNames cfg) ≫= key_header r)
  ++ (slices_sort (IncludedCookieNames cfg) ≫= key_cookie r).

Lemma generatePrimaryKey_parts r cfg :
  generatePrimaryKey r (Some cfg)
  = key_path r cfg ++ key_host r cfg ++ key_scheme r cfg ++ key_query r cfg ++ key_tail r cfg.
Proof. done. Qed.

(** The path is escaped byte by byte, so escaping keeps prefixes. *)
Definition esc1 (c : ascii) : str :=
  if byte_eqb c "/" then ["/"%char] else escape_byte encodePathSegment c.

Lemma writeEscapedPath_bytes t : writeEscapedPath ("/"%char :: t) = "/"%char :: (t ≫= esc1).
Proof.
  rewrite writeEscapedPath_eq. f_equal. induction t as [|c t IH]; [done|]. csimpl. unfold esc1 at 1.
  destruct (byte_eqb c "/") eqn:Ec; csimpl.
  - rewrite <- IH. pose proof (SplitSeq_not_nil t "/"). destruct (SplitSeq t "/") as [|w ws]; [done|].
    csimpl. done.
  - rewrite <- IH. pose proof (SplitSeq_not_nil t "/"). destruct (SplitSeq t "/") as [|w ws]; [done|].
    csimpl. destruct ws; csimpl; by rewrite <- ?app_assoc.
Qed.

(** ** Facts: patterns *)
Lemma Ret_keys_inj (b : bool) (l l' : list str) : Ret (b, l) = Ret (b, l') → l' = l.
Proof. congruence. Qed.
Lemma Ok_keys_inj (l l' : list str) : Ok l = Ok l' → l' = l.
Proof. congruence. Qed.

Lemma target_path_literal u cfg : lit (target_path u cfg) = true.
Proof. unfold target_path. by rewrite literal_str_app, writeEscapedPath_literal, lit_B. Qed.

(** Matching the literal parts that a pattern and a key share. *)
Ltac glob_literals :=
  repeat (rewrite (literal_prefix g) by (first [assumption | apply target_path_literal | apply lit_B; reflexivity])).

(** A part of a text without newlines has none. *)
Ltac no_newline H := revert H; rewrite ?elem_of_app; clear; tauto.

(** The optional scheme of the pattern, then a star. *)
Lemma scheme_star cfg scheme r rest :
  (IncludeProtocol cfg = true → scheme ≠ [] → resolveScheme r = scheme) →
  newline ∉ key_scheme r cfg ++ rest →
  g (scheme_segment cfg scheme ++ B "*") (key_scheme r cfg ++ rest) = true.
Proof.
  intros Hs Hnl. unfold scheme_segment, key_scheme in *.
  destruct (IncludeProtocol cfg) eqn:Hi, (is_nil scheme) eqn:Hn; try (by apply match_rest).
  apply is_nil_false in Hn. rewrite (Hs eq_refl Hn) in *. simpl andb. cbv iota.
  pose proof (resolveScheme_literal r) as Hp. rewrite (Hs eq_refl Hn) in Hp.
  rewrite (literal_prefix g); [apply match_rest; set_solver|].
  by rewrite !literal_str_app, Hp, !lit_B.
Qed.

(** Patterns start with the path component. *)
Lemma target_path_start u cfg rest : HasPrefix (target_path u cfg ++ rest) (B "p=") = true.
Proof. apply HasPrefix_spec. unfold target_path. rewrite <- app_assoc. by eexists. Qed.

Lemma pattern_without_query cfg u scheme qs r keys :
  addressed cfg u scheme qs r → lit (normalizeHost (u_Host u) scheme) = true →
  newline ∉ generatePrimaryKey r (Some cfg) →
  (if negb (ExcludeHost cfg) && negb (is_nil (normalizeHost (u_Host u) scheme))
   then Ret (false, [(target_path u cfg ++ B ":") ++ B "h=" ++ normalizeHost (u_Host u) scheme
                     ++ B ":" ++ scheme_segment cfg scheme ++ B "*"])
   else Ret (false, [(target_path u cfg ++ B ":") ++ B "*"])) = Ret (false, keys) →
  ∃ p, keys = [p] ∧ HasPrefix p (B "p=") = true ∧ g p (generatePrimaryKey r (Some cfg)) = true.
Proof.
  intros Ha Hpl Hnl H. rewrite generatePrimaryKey_parts in *.
  rewrite (key_path_addressed cfg u scheme qs r Ha) in *. rewrite <- ?app_assoc in *. case_in H.
  - btrue E0. apply Ret_keys_inj in H as ->. eexists. split; [done|]. split; [rewrite <- ?app_assoc; apply target_path_start|].
    rewrite (key_host_addressed cfg u scheme qs r Ha) in * by (by apply is_nil_false || done).
    rewrite <- ?app_assoc in *. glob_literals. apply scheme_star; [apply (ad_scheme _ _ _ _ _ Ha)|].
    no_newline Hnl.
  - apply Ret_keys_inj in H as ->. eexists. split; [done|]. split; [rewrite <- ?app_assoc; apply target_path_start|]. rewrite <- ?app_assoc in *. glob_literals.
    apply match_rest. no_newline Hnl.
Qed.

Lemma pattern_with_host cfg u scheme qs r :
  addressed cfg u scheme qs r → lit (normalizeHost (u_Host u) scheme) = true →
  lit qs = true → qs ≠ [] → (IncludeProtocol cfg = true → scheme ≠ []) →
  ExcludeHost cfg || negb (is_nil (normalizeHost (u_Host u) scheme)) = true →
  newline ∉ generatePrimaryKey r (Some cfg) →
  g (((target_path u cfg ++ B ":")
      ++ (if negb (ExcludeHost cfg) && negb (is_nil (normalizeHost (u_Host u) scheme))
          then B "h=" ++ normalizeHost (u_Host u) scheme ++ B ":" else [])
      ++ scheme_segment cfg scheme ++ B "qs=" ++ qs) ++ B ":*")
    (generatePrimaryKey r (Some cfg)) = true.
Proof.
  intros Ha Hpl Hqp Hqs Hs Hh Hnl. rewrite generatePrimaryKey_parts in *.
  rewrite (key_path_addressed cfg u scheme qs r Ha), (ad_query _ _ _ _ _ Ha Hqs) in *.
  rewrite (scheme_segment_addressed cfg u scheme qs r Ha Hs) in *.
  pose proof (scheme_segment_literal cfg u scheme qs r Ha) as Hsp.
  change (B ":*") with (B ":" ++ B "*"). destruct (ExcludeHost cfg) eqn:Hx;
    simpl negb in *; simpl orb in Hh; simpl andb; cbv iota.
  - assert (key_host r cfg = []) as Hkh by (unfold key_host; by rewrite Hx). rewrite Hkh in *.
    rewrite <- ?app_assoc, ?app_nil_l in *. glob_literals. apply match_rest. no_newline Hnl.
  - rewrite Hh. cbv iota. apply negb_true_iff, is_nil_false in Hh.
    rewrite (key_host_addressed cfg u scheme qs r Ha Hx Hh) in *.
    rewrite <- ?app_assoc in *. glob_literals. apply match_rest. no_newline Hnl.
Qed.

Lemma pattern_all_hosts cfg u scheme qs r :
  addressed cfg u scheme qs r → lit qs = true → qs ≠ [] → ExcludeHost cfg = false →
  newline ∉ generatePrimaryKey r (Some cfg) →
  g ((target_path u cfg ++ B ":") ++ B "h=*:" ++ scheme_segment cfg scheme
             ++ B "qs=" ++ qs ++ B ":*") (generatePrimaryKey r (Some cfg)) = true.
Proof.
  intros Ha Hqp Hqs Hx Hnl. rewrite generatePrimaryKey_parts in *.
  rewrite (key_path_addressed cfg u scheme qs r Ha), (ad_query _ _ _ _ _ Ha Hqs) in *.
  destruct (ad_has_host _ _ _ _ _ Ha Hx) as [H1 H2]. rewrite (key_host_present r cfg Hx H1 H2) in *.
  pose proof (scheme_segment_literal cfg u scheme qs r Ha) as Hsp.
  change (B ":*") with (B ":" ++ B "*"). change (B "h=*:") with (B "h=" ++ B "*" ++ B ":").
  set (h := normalizeHost (effective_host r) (resolveScheme r)) in *. rewrite <- ?app_assoc in *.
  glob_literals.
  destruct (IncludeProtocol cfg && is_nil scheme) eqn:Ei.
  - apply andb_true_iff in Ei as [Hi Hn]. unfold scheme_segment, key_scheme in *.
    rewrite Hi, Hn in *. simpl andb. cbv iota. rewrite <- ?app_assoc in *.
    rewrite app_nil_l, (app_assoc h), (app_assoc (h ++ _)), (app_assoc ((h ++ _) ++ _)).
    apply match_middle; [no_newline Hnl|done|].
    change (":"%char :: ?x) with (B ":" ++ x). glob_literals. apply match_rest. no_newline Hnl.
  - rewrite (scheme_segment_addressed cfg u scheme qs r Ha) in *
      by (intros Hi ->; by rewrite Hi in Ei).
    apply match_middle; [no_newline Hnl|done|].
    change (":"%char :: ?x) with (B ":" ++ x). rewrite <- ?app_assoc. glob_literals.
    apply match_rest. no_newline Hnl.
Qed.

(** ** Properties *)

(** A target with a query (and, unless keys ignore it, a host) is turned into
    exactly the primary key of the GET and HEAD requests it addresses, when no
    header or cookie enters keys and, for keys with a scheme, the target names it. *)
Theorem exact_purge_key target cfg u scheme qs r :
  target ≠ [] → parse_target target = Some (u, scheme) → target_query u cfg = Ret qs → qs ≠ [] →
  addressed cfg u scheme qs r → (IncludeProtocol cfg = true → scheme ≠ []) →
  (ExcludeHost cfg = true ∨ normalizeHost (u_Host u) scheme ≠ []) →
  IncludedHeaderNames cfg = [] → IncludedCookieNames cfg = [] →
  r_Method r ∈ [MethodGet; MethodHead; []] →
  buildPurgeOperation target (Some cfg) = Ret (true, [generatePrimaryKey r (Some cfg)]).
Proof.
  intros Ht Hp Hq Hqs Ha Hs Hh Hhn Hck Hm. unfold buildPurgeOperation. simpl.
  apply is_nil_false in Ht. pose proof Hqs as Hqs'. apply is_nil_false in Hqs'.
  rewrite Ht, Hp, Hq, Hqs', Hhn, Hck. simpl.
  assert (ExcludeHost cfg || negb (is_nil (normalizeHost (u_Host u) scheme)) = true) as ->.
  { destruct Hh as [->|Hh]; [done|]. apply is_nil_false in Hh. rewrite Hh. by rewrite orb_true_r. }
  do 3 f_equal. rewrite generatePrimaryKey_parts, (key_path_addressed cfg u scheme qs r Ha).
  rewrite (ad_query _ _ _ _ _ Ha Hqs), (scheme_segment_addressed cfg u scheme qs r Ha Hs).
  assert (key_tail r cfg = B "m=GET:") as ->.
  { unfold key_tail. rewrite Hhn, Hck. csimpl. rewrite !app_nil_r. unfold key_method.
    rewrite !elem_of_cons, elem_of_nil in Hm. destruct Hm as [->|[->|[->|[]]]]; reflexivity. }
  assert (key_host r cfg = if negb (ExcludeHost cfg) && negb (is_nil (normalizeHost (u_Host u) scheme))
                           then B "h=" ++ normalizeHost (u_Host u) scheme ++ B ":" else []) as ->.
  { destruct (ExcludeHost cfg) eqn:Hx; simpl; [unfold key_host; by rewrite Hx|].
    destruct Hh as [|Hh]; [done|]. rewrite (key_host_addressed cfg u scheme qs r) by done.
    apply is_nil_false in Hh. by rewrite Hh. }
  rewrite <- !app_assoc. reflexivity.
Qed.

(** A target without an exact key: its pattern, which starts like a key. *)
Lemma purge_pattern_matches target cfg u scheme qs r keys :
  target ≠ [] → parse_target target = Some (u, scheme) → target_query u cfg = Ret qs →
  addressed cfg u scheme qs r →
  (IncludeProtocol cfg = true → qs ≠ [] →
     scheme ≠ [] ∨ (ExcludeHost cfg = false ∧ normalizeHost (u_Host u) scheme = [])) →
  lit (normalizeHost (u_Host u) scheme) = true →
  newline ∉ generatePrimaryKey r (Some cfg) →
  buildPurgeOperation target (Some cfg) = Ret (false, keys) →
  ∃ p, keys = [p] ∧ HasPrefix p (B "p=") = true ∧ g p (generatePrimaryKey r (Some cfg)) = true.
Proof.
  intros Ht Hp Hq Ha Hs Hpl Hnl. unfold buildPurgeOperation. simpl default.
  apply is_nil_false in Ht. rewrite Ht, Hp, Hq.
  pose proof (target_query_literal u cfg qs Hq) as Hqp.
  destruct (is_nil qs) eqn:Eqs; simpl negb; cbv iota.
  - intros H. eapply (pattern_without_query cfg u scheme qs); done.
  - apply is_nil_false in Eqs.
    destruct (ExcludeHost cfg || negb (is_nil (normalizeHost (u_Host u) scheme))) eqn:Eh.
    + case_if; [done|]. intros ->%Ret_keys_inj. eexists. split; [done|]. split; [rewrite <- ?app_assoc; apply target_path_start|].
      apply pattern_with_host; try done. intros Hi. destruct (Hs Hi Eqs) as [?|[Hx Hn]]; [done|].
      rewrite Hx, Hn in Eh. done.
    + intros ->%Ret_keys_inj. eexists. split; [done|]. split; [rewrite <- ?app_assoc; apply target_path_start|]. apply orb_false_iff in Eh as [Hx Hn].
      apply negb_false_iff, is_nil_true in Hn. by apply pattern_all_hosts.
Qed.

(** Every other target becomes one pattern, and that pattern matches the
    primary key of every request it addresses, whatever the method, the
    headers and the cookies; so a purge by this pattern reaches all of them. *)
Theorem purge_pattern_complete target cfg u scheme qs r keys :
  target ≠ [] → parse_target target = Some (u, scheme) → target_query u cfg = Ret qs →
  addressed cfg u scheme qs r →
  (IncludeProtocol cfg = true → qs ≠ [] →
     scheme ≠ [] ∨ (ExcludeHost cfg = false ∧ normalizeHost (u_Host u) scheme = [])) →
  lit (normalizeHost (u_Host u) scheme) = true →
  newline ∉ generatePrimaryKey r (Some cfg) →
  buildPurgeOperation target (Some cfg) = Ret (false, keys) →
  ∃ p, keys = [p] ∧ g p (generatePrimaryKey r (Some cfg)) = true.
Proof.
  intros Ht Hp Hq Ha Hs Hpl Hnl Hb.
  destruct (purge_pattern_matches target cfg u scheme qs r keys Ht Hp Hq Ha Hs Hpl Hnl Hb) as (p & -> & _ & Hm). eauto.
Qed.

(** The pattern of a prefix matches the key of every request whose clean
    path extends the clean prefix as a byte string (and has its host and scheme
    where the prefix gives them). *)
Theorem prefix_pattern_complete prefix cfg u scheme r t rest keys :
  prefix ≠ [] → parse_target prefix = Some (u, scheme) →
  cleanPath cfg (target_raw_path u) = "/"%char :: t →
  cleanPath cfg (raw_path r) = "/"%char :: t ++ rest →
  (ExcludeHost cfg = false → normalizeHost (u_Host u) scheme ≠ [] →
     effective_host r ≠ [] ∧
     normalizeHost (effective_host r) (resolveScheme r) = normalizeHost (u_Host u) scheme) →
  (IncludeProtocol cfg = true → scheme ≠ [] → resolveScheme r = scheme) →
  lit (normalizeHost (u_Host u) scheme) = true →
  newline ∉ generatePrimaryKey r (Some cfg) →
  buildPurgePrefixOperation prefix (Some cfg) = Ok keys →
  ∃ p, keys = [p] ∧ g p (generatePrimaryKey r (Some cfg)) = true.
Proof.
  intros Hne Hp Ht Hr Hh Hs Hpl Hnl. unfold buildPurgePrefixOperation. simpl default.
  apply is_nil_false in Hne. rewrite Hne, Hp. rewrite generatePrimaryKey_parts in *.
  assert (key_path r cfg = target_path u cfg ++ (rest ≫= esc1) ++ B ":") as Hk.
  { unfold key_path, target_path. fold (raw_path r) (target_raw_path u).
    rewrite Hr, Ht, !writeEscapedPath_bytes, bind_app. simpl. by rewrite <- !app_assoc. }
  rewrite Hk in *. rewrite <- ?app_assoc in *.
  destruct (ExcludeHost cfg) eqn:Hx; simpl negb; simpl andb; cbv iota.
  { intros ->%Ok_keys_inj. eexists. split; [done|]. glob_literals. apply match_rest. no_newline Hnl. }
  destruct (is_nil (normalizeHost (u_Host u) scheme)) eqn:En; simpl negb; cbv iota.
  { intros ->%Ok_keys_inj. eexists. split; [done|]. glob_literals. apply match_rest. no_newline Hnl. }
  apply is_nil_false in En. destruct (Hh eq_refl En) as [H1 H2].
  assert (key_host r cfg = B "h=" ++ normalizeHost (u_Host u) scheme ++ B ":") as Hkh
    by (rewrite key_host_present, H2; congruence).
  rewrite Hkh in *. intros ->%Ok_keys_inj. eexists. split; [done|]. rewrite <- ?app_assoc in *.
  glob_literals. apply (match_middle (rest ≫= esc1) _ ":"); [no_newline Hnl|done|].
  change (":"%char :: ?x) with (B ":" ++ x). change (B ":h=") with (B ":" ++ B "h=").
  rewrite <- ?app_assoc. glob_literals. apply scheme_star; [done|no_newline Hnl].
Qed.
End Purge.

Definition demo_purge (t : string) cfg := buildPurgeOperation (B t) (Some cfg).
Definition cfg_proto : CacheKey := mkCacheKey true false false false [] [] false [] [] false ∅.

(** The examples of the source's comments. *)
Lemma purge_doc_examples :
  demo_purge "/api/products" zeroCacheKey = Ret (false, [B "p=/api/products:*"]) ∧
  demo_purge "https://example.com/api/products" zeroCacheKey
  = Ret (false, [B "p=/api/products:h=example.com:*"]) ∧
  demo_purge "https://example.com/api?id=42" zeroCacheKey
  = Ret (true, [B "p=/api:h=example.com:qs=id=42:m=GET:"]) ∧
  demo_purge "/api?id=42" zeroCacheKey = Ret (false, [B "p=/api:h=*:qs=id=42:*"]) ∧
  demo_purge "/" zeroCacheKey = Ret (false, [B "p=/:*"]) ∧
  buildPurgePrefixOperation (B "/assets/") None = Ok [B "p=/assets/*"].
Proof. vm_compute. repeat split. Qed.

(** ** Witnesses and counterexamples *)
Definition demo_url : URL := mkURL (B "https") (B "example.com") (B "/api") (B "id=42").
Definition demo_req : Request :=
  mkRequest MethodHead (Some (mkURL [] [] (B "/x/../api") (B "id=%34%32"))) (B "Example.com:443") ∅ true.

Lemma demo_addressed : addressed zeroCacheKey demo_url (B "https") (B "id=42") demo_req.
Proof. split; vm_compute; try reflexivity; try congruence. split; congruence. Qed.

Lemma exact_purge_key_witness :
  demo_purge "https://example.com/api?id=42" zeroCacheKey
  = Ret (true, [generatePrimaryKey demo_req (Some zeroCacheKey)]).
Proof.
  apply (exact_purge_key (B "https://example.com/api?id=42") zeroCacheKey demo_url (B "https") (B "id=42")
    demo_req); [vm_compute; congruence|vm_compute; reflexivity|vm_compute; reflexivity|vm_compute; congruence
    |apply demo_addressed|vm_compute; congruence|right; vm_compute; congruence
    |reflexivity|reflexivity|by right; left].
Defined.

Definition demo_page : Request := demo_get "/img/a.png" "example.com:8080" "v=3".

Lemma purge_pattern_complete_witness :
  matchGlob (B "p=/img/a.png:*") (generatePrimaryKey demo_page (Some zeroCacheKey)) = true.
Proof.
  destruct (purge_pattern_complete matchGlob (B "/img/a.png") zeroCacheKey (mkURL [] [] (B "/img/a.png") []) [] []
    demo_page [B "p=/img/a.png:*"]) as (p & [= <-] & H).
  - vm_compute; congruence.
  - vm_compute; reflexivity.
  - vm_compute; reflexivity.
  - split; vm_compute; try reflexivity; try congruence. split; congruence.
  - intros H. vm_compute in H. congruence.
  - vm_compute; reflexivity.
  - apply (bool_decide_unpack _). vm_compute. exact I.
  - vm_compute; reflexivity.
  - exact H.
Defined.

Lemma prefix_pattern_complete_witness :
  matchGlob (B "p=/img*:h=example.com:8080:*") (generatePrimaryKey demo_page (Some zeroCacheKey)) = true.
Proof.
  destruct (prefix_pattern_complete matchGlob (B "example.com:8080/img") zeroCacheKey
    (mkURL (B "http") (B "example.com:8080") (B "/img") []) [] demo_page (B "img") (B "/a.png")
    [B "p=/img*:h=example.com:8080:*"]) as (p & [= <-] & H).
  - vm_compute; congruence.
  - vm_compute; reflexivity.
  - vm_compute; reflexivity.
  - vm_compute; reflexivity.
  - intros _ _. vm_compute. split; [congruence|reflexivity].
  - intros H. vm_compute in H. congruence.
  - vm_compute; reflexivity.
  - apply (bool_decide_unpack _). vm_compute. exact I.
  - vm_compute; reflexivity.
  - exact H.
Defined.

(** A defect: when keys carry the scheme, a target without one ("host/path?query")
    is still turned into an exact key, but that key has no scheme segment, so no request
    has it: the purge deletes nothing. *)
Theorem schemeless_exact_purge_misses :
  let key := B "p=/api:h=example.com:qs=id=42:m=GET:" in
  demo_purge "example.com/api?id=42" cfg_proto = Ret (true, [key]) ∧
  ∀ r, generatePrimaryKey r (Some cfg_proto) ≠ key.
Proof.
  split; [vm_compute; reflexivity|]. intros r Hk.
  assert (Contains (generatePrimaryKey r (Some cfg_proto)) (B "s=http") = true) as Hc.
  { apply Contains_spec. rewrite generatePrimaryKey_parts.
    exists (key_path r cfg_proto ++ key_host r cfg_proto). unfold key_scheme. simpl IncludeProtocol. cbv iota.
    assert (∃ b, B "s=" ++ resolveScheme r ++ B ":" = B "s=http" ++ b) as [b ->].
    { unfold resolveScheme. repeat case_match; eexists; reflexivity. }
    eexists. by rewrite <- !app_assoc. }
  rewrite Hk in Hc. vm_compute in Hc. congruence.
Qed.

(** A defect: a colon in a path is not encoded, so purging "/a" also
    selects the entries of the unrelated path "/a:b". *)
Theorem path_purge_over_matches :
  demo_purge "/a" zeroCacheKey = Ret (false, [B "p=/a:*"]) ∧
  matchGlob (B "p=/a:*") (generatePrimaryKey (demo_get "/a:b" "example.com" "") (Some zeroCacheKey)) = true.
Proof. vm_compute. split; reflexivity. Qed.
