(* ===== verification/RedisDemo.v ===== *)
(** * A documented Redis server, and the store on it

    [mem_server] is an executable server that satisfies [RedisDoc]: a keyspace, and
    scans in two batches (names of even length, then names of odd length).
    [demo_proto] is an executable codec.  On them the theorems of [RedisLaws] are applied to
    concrete writes, and runs show where the store does not do what it means to. *)

From S2P Require Import Prelude GoStrings GoHttp Env Headers CacheKey Storage TestStore Glob Redis RedisStore RedisFacts RedisLaws Purge.
#[local] Unset Default Proof Using.

(** ** Patterns *)
Fixpoint mem_glob (p s : str) {struct p} : bool :=
  match p with
  | [] => is_nil s
  | c :: p' =>
      if byte_eqb c "*" then
        (fix star (s : str) : bool :=
           mem_glob p' s || match s with [] => false | _ :: s' => star s' end) s
      else if byte_eqb c "?" then match s with [] => false | _ :: s' => mem_glob p' s' end
      else if byte_eqb c "\" then
        match p', s with c' :: p'', d :: s' => byte_eqb c' d && mem_glob p'' s' | _, _ => false end
      else if byte_eqb c "[" then
        match s with
        | [] => false
        | d :: s' =>
            (fix set (hit : bool) (q : str) : bool :=
               match q with
               | [] => false
               | c' :: q' => if byte_eqb c' "]" then hit && mem_glob q' s' else set (hit || byte_eqb d c') q'
               end) false p'
        end
      else match s with d :: s' => byte_eqb c d && mem_glob p' s' | [] => false end
  end.

#[export] Instance mem_glob_doc : GlobDoc mem_glob.
Proof.
  split.
  - done.
  - intros c p s Hc. assert (byte_eqb c "*" = false ∧ byte_eqb c "?" = false ∧ byte_eqb c "\" = false ∧ byte_eqb c "[" = false)
      as (H1 & H2 & H3 & H4).
    { assert (∀ d, implb (negb (glob_special d)) (negb (byte_eqb d "*") && negb (byte_eqb d "?") && negb (byte_eqb d "\")
        && negb (byte_eqb d "[")) = true) as Hd by (apply ascii_forall; vm_compute; reflexivity).
      specialize (Hd c). rewrite Hc in Hd. simpl in Hd. rewrite !andb_true_iff, !negb_true_iff in Hd. tauto. }
    simpl. by rewrite H1, H2, H3, H4.
  - done.
  - intros c p [|d s]; done.
  - intros cs p [|d s] Hne Hcs; [done|]. simpl mem_glob. clear Hne.
    match goal with |- ?f false (cs ++ _) = _ =>
      enough (∀ hit, f hit (cs ++ "]"%char :: p) = (hit || existsb (byte_eqb d) cs) && mem_glob p s) as H by apply H end.
    induction cs as [|c cs IH]; intros hit; simpl; [by rewrite orb_false_r|].
    simpl in Hcs. apply andb_true_iff in Hcs as [Hc Hcs].
    assert (byte_eqb c "]" = false) as ->.
    { assert (∀ d, implb (negb (one_of "^-]\" d)) (negb (byte_eqb d "]")) = true) as Hd
        by (apply ascii_forall; vm_compute; reflexivity).
      specialize (Hd c). rewrite Hc in Hd. simpl in Hd. by apply negb_true_iff in Hd. }
    rewrite IH by done. by rewrite orb_assoc.
  - intros p s. simpl mem_glob. induction s as [|d s IH].
    + rewrite orb_false_r. split; [intros H; by exists [], []|]. intros (a & b & Hab & Hb).
      symmetry in Hab. by apply app_nil in Hab as [-> ->].
    + rewrite orb_true_iff, IH. split.
      * intros [H|(a & b & -> & Hb)]; [by exists [], (d :: s)|by exists (d :: a), b].
      * intros (a & b & Hab & Hb). destruct a as [|c a]; simpl in Hab; [subst b; by left|].
        injection Hab as <- ->. right. eauto.
Defined.

(** ** The server *)

(** The names of one batch: even length at cursor 0, odd length after it. *)
Definition in_batch (cursor : N) (x : str) : bool :=
  if (cursor =? 0)%N then Nat.even (length x) else negb (Nat.even (length x)).
Definition next_cursor (cursor : N) : N := if (cursor =? 0)%N then 1 else 0.

Definition mem_query (d : keyspace) (t : Z) (c : cmd) : reply :=
  let d' := evict t d in
  match c with
  | SCAN cur p => RScan (next_cursor cur)
      (List.filter (λ k, mem_glob p k && in_batch cur k) (fst <$> map_to_list d'))
  | HSCAN k cur =>
      match hash_of d' k with
      | Ok h => RScan (next_cursor cur)
          (List.filter (λ f, in_batch cur f) (fst <$> map_to_list h) ≫= λ f, [f; default [] (hf_value <$> h !! f)])
      | Err e => RError e
      end
  | _ => (run d' t c).2
  end.

#[export] Instance mem_server : RedisServer keyspace := {|
  query := mem_query;
  exec := λ d t c, run (evict t d) t c;
  redis_glob := mem_glob;
  scan_bound := λ _, 1%nat;
  reply_error := λ _, B "unexpected reply";
|}.

Lemma evens_pairs l (g : str → str) : evens (l ≫= λ f, [f; g f]) = l.
Proof. induction l as [|x l IH]; csimpl; [done|]. by rewrite IH. Qed.

Lemma mem_scan_shape d t s c c' l :
  mem_query d t (scan_cmd s c) = RScan c' l →
  c' = next_cursor c ∧ ∀ x, x ∈ returned s l ↔ present s (evict t d) x ∧ in_batch c x = true.
Proof.
  destruct s as [p|k]; simpl.
  - intros [= <- <-]. split; [done|]. intros x. rewrite elem_of_bool_filter, andb_true_iff, list_elem_of_fmap. split.
    + intros [([k e] & -> & Hk%elem_of_map_to_list) [? ?]]. simpl. eauto.
    + intros [[[e He] ?] ?]. split; [|done]. exists (x, e). by rewrite elem_of_map_to_list.
  - destruct (hash_of (evict t d) k) as [h|] eqn:Eh; [|done]. intros [= <- <-]. split; [done|]. intros x.
    rewrite (evens_pairs _ (λ f, default [] (hf_value <$> h !! f))), elem_of_bool_filter, list_elem_of_fmap. split.
    + intros [([f e] & -> & Hf%elem_of_map_to_list) ?]. split; [|done]. exists h. simpl. eauto.
    + intros [(h' & Hh & [e He]) ?]. split; [|done]. exists (x, e). rewrite elem_of_map_to_list.
      split; [done|]. congruence.
Qed.

Lemma reply_ok_refl a : reply_ok a a.
Proof. destruct a; simpl; done || reflexivity. Qed.

#[export, refine] Instance mem_doc : RedisDoc keyspace := {| up := λ _, True; data := λ d, d |}.
Proof.
  - intros d t c Hc. right. destruct c; try done; apply reply_ok_refl.
  - intros d t c _ Hc. destruct c; try done; apply reply_ok_refl.
  - intros d t c _. by right.
  - done.
  - intros d t s c c' l x H Hx. apply mem_scan_shape in H as [_ H]. by apply H.
  - intros d t s c _ Hk. destruct s as [p|k]; simpl; [eauto|]. specialize (Hk k eq_refl).
    destruct (hash_of (evict t d) k); [eauto|done].
  - intros d t s steps x Hit Hp. inversion Hit as [? ? l Hq|? ? c' l d' st Hq Hc' _ Hit']; subst.
    + by apply mem_scan_shape in Hq as [? _].
    + pose proof Hq as Hq1. apply mem_scan_shape in Hq as [-> Hl]. destruct (in_batch 0 x) eqn:Eb.
      * exists d, l. split; [by left|]. apply Hl. split; [|done]. apply (Hp d l). by left.
      * inversion Hit' as [? ? l2 Hq2|? ? c2 l2 d2 st2 Hq2 Hc2 _ _]; subst.
        -- apply mem_scan_shape in Hq2 as [_ Hl2]. exists d', l2. split; [by right; left|]. apply Hl2.
           split; [apply (Hp d' l2); by right; left|]. unfold in_batch in *. simpl in *. by rewrite Eb.
        -- apply mem_scan_shape in Hq2 as [-> _]. done.
  - intros d t s n Hun. simpl. inversion Hun as [|? ? c' l d' m Hq Hc' _ _ Hun']; subst; [lia|].
    apply mem_scan_shape in Hq as [-> _]. inversion Hun' as [|? ? c2 l2 d2 m2 Hq2 Hc2 _ _ _]; subst; [lia|].
    by apply mem_scan_shape in Hq2 as [-> _].
Defined.

(** ** A codec *)
Fixpoint bits (p : positive) : str :=
  match p with xH => [] | xO p => "0"%char :: bits p | xI p => "1"%char :: bits p end.
Fixpoint of_bits (s : str) : positive :=
  match s with [] => xH | c :: s => if byte_eqb c "0" then xO (of_bits s) else xI (of_bits s) end.

Lemma of_bits_bits p : of_bits (bits p) = p.
Proof. by induction p as [p IH|p IH|]; simpl; rewrite ?IH. Qed.

#[local] Instance EsiFragment_dec : EqDecision EsiFragment.
Proof. solve_decision. Defined.
#[local] Instance VariantInfo_dec : EqDecision VariantInfo.
Proof. solve_decision. Defined.
#[local] Instance CacheMetadata_dec : EqDecision CacheMetadata.
Proof. solve_decision. Defined.

#[local, refine] Instance EsiFragment_countable : Countable EsiFragment :=
  inj_countable' (λ f, (StartPos f, EndPos f, Src f, Alt f, OnError f, MaxDepth f, TimeoutMs f, InnerStartPos f, InnerEndPos f))
    (λ '(a, b, c, d, e, f, g, h, i), mkEsiFragment a b c d e f g h i) _.
Proof. by intros []. Defined.
#[local, refine] Instance VariantInfo_countable : Countable VariantInfo :=
  inj_countable' (λ v, (VariantKey v, VaryHeaders v, StatusCode v, ResponseHeaders v, Etag v, LastModifiedUnixNano v,
                        RawBodySize v, EsiFragments v, StorageCompression v))
    (λ '(a, b, c, d, e, f, g, h, i), mkVariantInfo a b c d e f g h i) _.
Proof. by intros []. Defined.
#[local, refine] Instance CacheMetadata_countable : Countable CacheMetadata :=
  inj_countable' (λ m, (PrimaryKey m, VaryHeaderNames m, Variants m, CreatedAtUnixNano m, ExpiresAtUnixNano m,
                        StaleUntilUnixNano m, CorrectedInitialAgeSeconds m, Tags m))
    (λ '(a, b, c, d, e, f, g, h), mkCacheMetadata a b c d e f g h) _.
Proof. by intros []. Defined.

Definition decode_bits {A} `{Countable A} (s : str) : result A :=
  match decode (of_bits s) with Some a => Ok a | None => Err (B "proto: cannot parse") end.

#[export] Instance demo_proto : Proto := {|
  marshal_meta := λ m, Ok (bits (encode m));
  unmarshal_meta := decode_bits;
  marshal_variant := λ v, Ok (bits (encode v));
  unmarshal_variant := decode_bits;
|}.

#[export] Instance demo_proto_doc : ProtoDoc demo_proto.
Proof.
  split.
  - intros m b [= <-]. simpl. unfold decode_bits. by rewrite of_bits_bits, decode_encode.
  - intros v b [= <-]. simpl. unfold decode_bits. by rewrite of_bits_bits, decode_encode.
Defined.

(** ** Purge targets on Redis *)
Section RedisTargets.
Context {E : GoEnv} {R : Type} {RS : RedisServer R} {RD : RedisDoc R} (prefix : str).

(** A pattern over keys is looked for among the metadata keys. *)
Lemma redis_pattern_key p k :
  forallb (λ c, negb (glob_special c)) prefix = true → HasPrefix p (B "p=") = true →
  redis_pattern_matches prefix p k = redis_glob p k.
Proof.
  intros Hlit [q ->]%HasPrefix_spec. assert (hard_patterns prefix (B "p=" ++ q)
    = [prefix ++ B "meta:" ++ B "p=" ++ q; prefix ++ B "body:" ++ (B "p=" ++ q) ++ B "*"]) as Hp.
  { unfold hard_patterns. assert (((B "p=" ++ q) =s B "*") = false) as -> by (apply str_eqb_neq; by destruct q). done. }
  unfold redis_pattern_matches. rewrite Hp. unfold existsb.
  unfold metaKey. rewrite (doc_prefix redis_glob prefix (B "meta:" ++ B "p=" ++ q) (B "meta:" ++ k) Hlit).
  rewrite (doc_prefix redis_glob prefix (B "body:" ++ _) (B "meta:" ++ k) Hlit).
  rewrite (doc_prefix redis_glob (B "meta:") _ _ eq_refl). 
  change (B "body:" ++ ?x) with ("b"%char :: B "ody:" ++ x). rewrite (glob_char "b"%char _ _ eq_refl).
  by rewrite !orb_false_r.
Qed.

(** Invalidation reaches Redis: the pattern that a purge target becomes selects,
    among the keys of the store, the metadata of every request that the target addresses,
    when prefix and host have no pattern characters. *)
Theorem redis_purge_reaches target cfg u scheme qs r keys :
  forallb (λ c, negb (glob_special c)) prefix = true →
  target ≠ [] → parse_target target = Some (u, scheme) → target_query u cfg = Ret qs →
  addressed cfg u scheme qs r →
  (IncludeProtocol cfg = true → qs ≠ [] →
     scheme ≠ [] ∨ (ExcludeHost cfg = false ∧ normalizeHost (u_Host u) scheme = [])) →
  forallb (λ c, negb (glob_special c)) (normalizeHost (u_Host u) scheme) = true →
  newline ∉ generatePrimaryKey r (Some cfg) →
  buildPurgeOperation target (Some cfg) = Ret (false, keys) →
  ∃ p, keys = [p] ∧ redis_pattern_matches prefix p (generatePrimaryKey r (Some cfg)) = true.
Proof.
  intros Hlit Ht Hp Hq Ha Hs Hh Hnl Hb.
  destruct (purge_pattern_matches redis_glob (G := doc_matcher redis_glob) target cfg u scheme qs r keys Ht Hp Hq Ha Hs Hh Hnl Hb) as (p & -> & Hst & Hm).
  exists p. split; [done|]. by rewrite redis_pattern_key.
Qed.

End RedisTargets.

(** A defect: the host of a target is put into the pattern as it is.  An IPv6
    host is written in brackets, which Redis takes for a set of bytes: on every documented server the pattern
    does not select the entry of that very URL, so that purging it, by hand or after a POST,
    leaves the entry in place. *)
Theorem ipv6_purge_misses {R} {RS : RedisServer R} {RD : RedisDoc R} prefix :
  forallb (λ c, negb (glob_special c)) prefix = true →
  buildPurgeOperation (B "http://[::1]:8080/a") (Some zeroCacheKey) = Ret (false, [B "p=/a:h=[::1]:8080:*"]) ∧
  generatePrimaryKey (demo_get "/a" "[::1]:8080" "") (Some zeroCacheKey) = B "p=/a:h=[::1]:8080:m=GET:" ∧
  redis_pattern_matches prefix (B "p=/a:h=[::1]:8080:*") (B "p=/a:h=[::1]:8080:m=GET:") = false.
Proof.
  intros Hlit. split; [vm_compute; reflexivity|]. split; [vm_compute; reflexivity|].
  rewrite redis_pattern_key by done. change (B "p=/a:h=[::1]:8080:*") with (B "p=/a:h=" ++ "["%char :: B "::1" ++ "]"%char :: B ":8080:*").
  change (B "p=/a:h=[::1]:8080:m=GET:") with (B "p=/a:h=" ++ B "[::1]:8080:m=GET:").
  rewrite (doc_prefix redis_glob (B "p=/a:h=") _ _ eq_refl). rewrite glob_set by done. reflexivity.
Qed.

(** ** Witnesses *)
Definition pfx := defaultPrefix.
Definition rset (d : keyspace) (sec : Z) (pk : string) (tags : list str) (vk body : string) (ttl : Z) : keyspace :=
  (redis_SetVariant pfx d (sec * Second) (B pk) (demo_meta tags) (demo_variant vk) (B body) (ttl * Second)).1.

Lemma empty_usable : redis_usable (R := keyspace) pfx ∅.
Proof. split; [exact I|]. apply typed_empty. Qed.

Lemma rset_usable d sec pk tags vk body ttl :
  redis_usable (R := keyspace) pfx d → redis_usable (R := keyspace) pfx (rset d sec pk tags vk body ttl).
Proof.
  intros H. exact (proj1 (SetVariant_usable pfx d (sec * Second) (B pk) (demo_meta tags) (demo_variant vk) (B body)
    (ttl * Second) H)).
Qed.

Lemma demo_storable tags vk : redis_storable (demo_meta tags) (demo_variant vk).
Proof. by split. Qed.

Lemma redis_write_then_read_witness :
  redis_GetVariant pfx (rset ∅ 100 "k" [] "" "hello" 60) (159 * Second) (B "k") []
  = Ret (Some (demo_variant "default", B "hello")).
Proof.
  destruct (redis_write_then_read pfx (∅ : keyspace) (100 * Second) (B "k") (demo_meta []) (demo_variant "") (B "hello")
    (60 * Second) (159 * Second) empty_usable (demo_storable _ _)) as (_ & _ & _ & H); [vm_compute; split; reflexivity|exact H].
Defined.

Lemma redis_tag_purge_complete_witness :
  let d := rset (rset ∅ 100 "k" [B "news"] "" "hello" 60) 105 "j" [B "sport"] "" "goal" 60 in
  redis_GetMeta pfx (redis_PurgeByTag pfx d (110 * Second) (B "news") false).1 (120 * Second) (B "k") = Ret None.
Proof.
  intros d. destruct (redis_tag_purge_complete pfx (∅ : keyspace) (100 * Second) (B "k") (demo_meta [B "news"]) (demo_variant "") (B "hello")
    (60 * Second) (B "news") (110 * Second) (120 * Second) d empty_usable (demo_storable _ _)) as [_ H];
    [by left|done|vm_compute; split; reflexivity|vm_compute; congruence| |exact H].
  apply rtc_once, other_set; [vm_compute; congruence|]. intros [Heq|[]%not_elem_of_nil]%elem_of_cons. discriminate Heq.
Defined.

Lemma redis_purge_all_exact_witness :
  let d := <[B "session:1" := mkEntry (RString (B "s")) None]> (rset ∅ 100 "k" [B "news"] "" "hello" 60) in
  evict (110 * Second) (redis_PurgeAll pfx d (110 * Second)).1 !! B "titip:tag:news" = None ∧
  evict (110 * Second) (redis_PurgeAll pfx d (110 * Second)).1 !! B "session:1" = Some (mkEntry (RString (B "s")) None).
Proof.
  intros d. destruct (redis_purge_all_exact pfx d (110 * Second)%Z) as [_ H]; [|reflexivity|].
  - split; [exact I|]. apply typed_insert; [|by split; [|split]; intros *].
    exact (proj2 (rset_usable ∅ 100 "k" [B "news"] "" "hello" 60 empty_usable)).
  - split; [exact (H (B "titip:tag:news"))|]. etransitivity; [exact (H (B "session:1"))|]. vm_compute. reflexivity.
Defined.

Lemma redis_eventually_empty_witness :
  ∃ T, ∀ t, (T ≤ t)%Z → ∀ k,
    evict t (redis_Purge pfx (rset ∅ 100 "k" [B "news"] "" "hello" 60) (110 * Second) (B "k") true).1 !! (pfx ++ k) = None.
Proof.
  pose proof (redis_eventually_empty pfx (∅ : keyspace)
    (redis_Purge pfx (rset ∅ 100 "k" [B "news"] "" "hello" 60) (110 * Second) (B "k") true).1 empty_usable) as H.
  apply H.
  - intros k e. simpl. rewrite lookup_empty. discriminate.
  - refine (rtc_l _ _ (rset ∅ 100 "k" [B "news"] "" "hello" 60) _ _ (rtc_once _ _ _)).
    + exact (rstep_set pfx (∅ : keyspace) (100 * Second) (B "k") (demo_meta [B "news"]) (demo_variant "") (B "hello") (60 * Second)).
    + exact (rstep_purge pfx (rset ∅ 100 "k" [B "news"] "" "hello" 60) (110 * Second) (B "k") true).
Defined.

Lemma interrupted_write_never_expires_witness :
  let cmds := set_cmds pfx (B "k") (B "default") (bits (encode (leanMeta (demo_meta []))))
                (bits (encode (demo_variant "default"))) (B "hello") [] 60 in
  let r1 := (DoMulti (∅ : keyspace) 0 (take 1 cmds)).1 in
  (∃ x, redis_GetMeta pfx r1 (10 ^ 30) (B "k") = Ret (Some x)) ∧ redis_GetVariant pfx r1 (10 ^ 30) (B "k") [] = Ret None.
Proof.
  exact (interrupted_write_never_expires pfx (∅ : keyspace) 0 (B "k") (demo_meta []) (demo_variant "") (B "hello")
    (60 * Second) _ _ empty_usable eq_refl eq_refl (lookup_empty _) (lookup_empty _) (10 ^ 30)).
Defined.

Lemma redis_purge_reaches_witness :
  redis_pattern_matches (R := keyspace) pfx (B "p=/img/a.png:*") (generatePrimaryKey demo_page (Some zeroCacheKey)) = true.
Proof.
  destruct (redis_purge_reaches (R := keyspace) pfx (B "/img/a.png") zeroCacheKey (mkURL [] [] (B "/img/a.png") []) [] []
    demo_page [B "p=/img/a.png:*"]) as (p & [= <-] & H).
  - reflexivity.
  - vm_compute; congruence.
  - vm_compute; reflexivity.
  - vm_compute; reflexivity.
  - split; vm_compute; try reflexivity; try congruence. split; congruence.
  - intros H. vm_compute in H. congruence.
  - reflexivity.
  - apply (bool_decide_unpack _). vm_compute. exact I.
  - vm_compute; reflexivity.
  - exact H.
Defined.

Lemma ipv6_purge_misses_witness :
  redis_pattern_matches (R := keyspace) pfx (B "p=/a:h=[::1]:8080:*") (B "p=/a:h=[::1]:8080:m=GET:") = false.
Proof. apply (ipv6_purge_misses (R := keyspace) pfx). reflexivity. Defined.

(** ** Runs that show defects *)

(** A defect: the index of a tag forgets a key too early.  Every write of a
    variant gives the key's field in the tag's hash the time to live of that write, also a shorter one.
    A variant stored for 1000 seconds and a sibling stored for 10 seconds: after 20 seconds the tag's
    hash is empty, a hard purge of the tag removes nothing, and the first variant
    is still served. *)
Theorem tag_index_expires_early :
  let d1 := rset ∅ 0 "k" [B "news"] "en" "english" 1000 in
  let d2 := rset d1 1 "k" [B "news"] "fr" "french" 10 in
  let purge d := redis_PurgeByTag pfx d (20 * Second) (B "news") false in
  (purge d1).2 = Ret 1%Z ∧ redis_GetVariant pfx (purge d1).1 (21 * Second) (B "k") (B "en") = Ret None ∧
  (purge d2).2 = Ret 0%Z ∧
  redis_GetVariant pfx (purge d2).1 (21 * Second) (B "k") (B "en") = Ret (Some (demo_variant "en", B "english")).
Proof. vm_compute. repeat split. Qed.

(** A defect: body keys of different entries can be the same.  The key joins the primary key
    and the variant key with a colon, and both may contain one: a path can spell the end of
    another entry's key and the start of its variant.  Whoever requests that path
    replaces the body of the other entry. *)
Theorem body_keys_collide prefix :
  let r1 := mkRequest MethodGet (Some (mkURL [] [] (B "/a") [])) (B "x")
              {[ B "Accept-Language" := [B "zz:h=x:m=GET::default"] ]} false in
  let r2 := demo_get "/a:h=x:m=GET::accept-language=zz" "x" "" in
  let pk r := generatePrimaryKey r (Some zeroCacheKey) in
  pk r1 ≠ pk r2 ∧
  bodyKey prefix (pk r1) (generateVariantKey r1 [B "Accept-Language"]) = bodyKey prefix (pk r2) (B "default").
Proof.
  split; [vm_compute; congruence|]. unfold bodyKey. f_equal.
Qed.

(** A defect: a prefix is used as a pattern.  With the prefix "a?:", [PurgeAll] deletes the keys of "ab:". *)
Theorem prefix_is_a_pattern :
  (redis_PurgeAll (B "a?:") {[ B "ab:meta:k" := mkEntry (RString []) None ]} 0).1 = ∅.
Proof. vm_compute. reflexivity. Qed.

(** A defect: entries are counted by ":meta:" in their key, so with a prefix that does not end in a colon
    [PurgeAll] reports that nothing was purged. *)
Theorem purge_all_counts_nothing :
  let d := (redis_SetVariant (B "titip") (∅ : keyspace) 0 (B "k") (demo_meta []) (demo_variant "") (B "x") Second).1 in
  (redis_PurgeAll (B "titip") d 0).2 = Ret 0%Z ∧ (redis_PurgeAll (B "titip") d 0).1 = ∅ ∧ size d = 2%nat.
Proof. vm_compute. repeat split. Qed.

(** The lifetime on the server is whole seconds: up to a second less than the time to live, never less than one
    second, and, because [Seconds] rounds to a [float64], sometimes a nanosecond more. *)
Example lifetime_is_whole_seconds :
  redis_lifetime 1999999999 = Second ∧ redis_lifetime 1 = Second ∧
  redis_lifetime (31535999 * Second + 999999999) = (31536000 * Second)%Z.
Proof. vm_compute. repeat split. Qed.
