(* ===== verification/RedisRace.v ===== *)
(** * Concurrent calls to the Redis store ([src/storage/redis/redis.go])

    [RedisStore] runs the commands of one call at one time.  A call is a pipeline, a sequence or a
    loop of commands, though, and the commands of other calls, of this process or of others, run between
    them.  Here a call is a program that sends commands and goes on with their replies; run
    alone it is the operation of [RedisStore] ([alone_is_sequential]), and [step] interleaves any number of
    calls, command by command, at times that do not go back.  Only the Lua script of a soft purge is atomic.
    A loop over a scan cursor takes the number of its rounds at its start: the bound of the server when
    it is alone, any number when it is not.  [RedisRaceLaws] has what holds of the interleavings. *)

From S2P Require Import Prelude GoStrings GoHttp Storage TestStore Glob Redis RedisStore RedisFacts.
#[local] Unset Default Proof Using.

(** ** Programs *)
Inductive prog (A : Type) :=
  | Done (a : A)
  | Send (c : cmd) (k : reply → prog A)
  | Script (key : str) (k : result Z → prog A)
  | Rounds (k : nat → prog A).
Arguments Done {A} a. Arguments Send {A} c k. Arguments Script {A} key k. Arguments Rounds {A} k.

Fixpoint prog_bind {A B} (p : prog A) (f : A → prog B) : prog B :=
  match p with
  | Done a => f a
  | Send c k => Send c (λ rep, prog_bind (k rep) f)
  | Script key k => Script key (λ res, prog_bind (k res) f)
  | Rounds k => Rounds (λ n, prog_bind (k n) f)
  end.

(** [DoMulti]. *)
Fixpoint pipeline (cmds : list cmd) : prog (list reply) :=
  match cmds with
  | [] => Done []
  | c :: cmds' => Send c (λ rep, prog_bind (pipeline cmds') (λ reps, Done (rep :: reps)))
  end.

(** What the calls of the storage interface return. *)
Inductive answer :=
  | AMeta (o : outcome (option (CacheMetadata * bool)))
  | AVariant (o : outcome (option (VariantInfo * str)))
  | AWritten (o : outcome unit)
  | ACount (o : outcome Z).

(** The calls that are interleaved. *)
Inductive call :=
  | CallGetMeta (primaryKey : str)
  | CallGetVariant (primaryKey variantKey : str)
  | CallSetVariant (primaryKey : str) (meta : CacheMetadata) (variant : VariantInfo) (body : str) (ttl : Z)
  | CallPurge (primaryKey : str) (soft : bool)
  | CallPurgeByPattern (pattern : str) (soft : bool)
  | CallPurgeByTag (tag : str) (soft : bool)
  | CallPurgeAll.

Section Race.
Context {R : Type} {RS : RedisServer R} {P : Proto} (prefix : str).
Abbreviation metaKey := (RedisStore.metaKey prefix).
Abbreviation bodyKey := (RedisStore.bodyKey prefix).

(** ** The operations as programs *)
Definition p_GetMeta (primaryKey : str) : prog answer :=
  Send (HGETALL (metaKey primaryKey)) (λ rep, Done (AMeta
    match rep with
    | RError e => Fail (B "redis: get meta: " ++ e)
    | RMap m =>
        match m !! indexField with
        | None => Ret None
        | Some indexBytes =>
            match unmarshal_meta indexBytes with
            | Err e => Fail (B "redis: unmarshal meta index: " ++ e)
            | Ok meta => Ret (Some (with_variants meta (hash_variants m), bool_decide (m !! softPurgedField = Some (B "1"))))
            end
        end
    | _ => Ret None
    end)).

(** The replies of the two commands of [GetVariant]. *)
Definition variant_answer (rep1 rep2 : reply) : outcome (option (VariantInfo * str)) :=
  match rep1, rep2 with
  | RNil, _ | _, RNil => Ret None
  | RError e, _ => Fail (B "redis: get variant meta: " ++ e)
  | _, RError e => Fail (B "redis: get variant body: " ++ e)
  | RBulk varBytes, rep =>
      match unmarshal_variant varBytes with
      | Err e => Fail (B "redis: unmarshal variant info: " ++ e)
      | Ok varInfo =>
          match rep with
          | RBulk bodyBytes => Ret (Some (varInfo, bodyBytes))
          | _ => Fail (B "redis: parse variant body bytes: " ++ reply_error rep)
          end
      end
  | rep, _ => Fail (B "redis: parse variant meta bytes: " ++ reply_error rep)
  end.

Definition p_GetVariant (primaryKey variantKey : str) : prog answer :=
  let variantKey := if is_nil variantKey then B "default" else variantKey in
  Send (HGET (metaKey primaryKey) (variantField variantKey)) (λ rep1,
  Send (GET (bodyKey primaryKey variantKey)) (λ rep2, Done (AVariant (variant_answer rep1 rep2)))).

Definition p_SetVariant (primaryKey : str) (meta : CacheMetadata) (variant : VariantInfo) (body : str) (ttl : Z)
    : prog answer :=
  let variant := with_variant_key variant (variant_name (VariantKey variant)) in
  match marshal_meta (leanMeta meta), marshal_variant variant with
  | Err e, _ => Done (AWritten (Fail (B "redis: marshal meta index: " ++ e)))
  | _, Err e => Done (AWritten (Fail (B "redis: marshal variant: " ++ e)))
  | Ok indexBytes, Ok varBytes =>
      prog_bind (pipeline (set_cmds prefix primaryKey (VariantKey variant) indexBytes varBytes body (Tags meta) (ttlSeconds ttl)))
        (λ resps, Done (AWritten match pipeline_error 0 resps with Some e => Fail e | None => Ret tt end))
  end.

Definition p_unlink (ks : list str) : prog (option str) :=
  Send (UNLINK ks) (λ rep, Done match rep with RError e => Some e | _ => None end).

Definition p_hardPurge (primaryKey : str) : prog answer :=
  Send (HKEYS (metaKey primaryKey)) (λ rep,
    match rep with
    | RError e => Done (ACount (Fail (B "redis: delete fetch keys: " ++ e)))
    | RArray (k :: keys) =>
        prog_bind (p_unlink (metaKey primaryKey :: body_keys prefix primaryKey (k :: keys))) (λ err, Done (ACount
          match err with Some e => Fail (B "redis: delete execute: " ++ e) | None => Ret 1%Z end))
    | _ => Done (ACount (Ret 0%Z))
    end).

Definition p_softPurge (primaryKey : str) : prog answer :=
  Script (metaKey primaryKey) (λ res, Done (ACount
    match res with Ok n => Ret n | Err e => Fail (B "redis: soft purge: " ++ e) end)).

(** [ExecMulti]: one script per key, of which each is atomic. *)
Fixpoint p_softPurgeKeys (metaKeys : list str) : prog (Z * option str) :=
  match metaKeys with
  | [] => Done (0%Z, None)
  | k :: metaKeys' => Script k (λ res, prog_bind (p_softPurgeKeys metaKeys') (λ '(count, firstErr), Done
      match res with Ok n => ((n + count)%Z, firstErr) | Err e => (count, Some e) end))
  end.

(** The keys to delete, from the replies of a pipeline of HKEYS. *)
Fixpoint reply_keys (replies : list (str * reply)) : result (list str) :=
  match replies with
  | [] => Ok []
  | (pk, rep) :: rest =>
      match rep with
      | RNil => reply_keys rest
      | RError e => Err (B "redis: purge tag fetch keys: " ++ e)
      | RArray varKeys =>
          match reply_keys rest with
          | Ok ks => Ok ((metaKey pk :: body_keys prefix pk varKeys) ++ ks)
          | Err e => Err e
          end
      | rep => Err (B "redis: purge tag keys parse: " ++ reply_error rep)
      end
  end.

Definition p_tag_batch (soft : bool) (processed : Z) (primaryKeys : list str) : prog (result Z) :=
  if is_nil primaryKeys then Done (Ok processed) else
  let done := Ok (processed + Z.of_nat (length primaryKeys))%Z in
  if soft then
    prog_bind (p_softPurgeKeys (metaKey <$> primaryKeys)) (λ '(_, err), Done
      match err with Some e => Err (B "redis: purge tag soft purge: " ++ e) | None => done end)
  else
    prog_bind (pipeline ((λ pk, HKEYS (metaKey pk)) <$> primaryKeys)) (λ reps,
      match reply_keys (zip primaryKeys reps) with
      | Err e => Done (Err e)
      | Ok [] => Done done
      | Ok delKeys => prog_bind (p_unlink delKeys) (λ err, Done
          match err with Some e => Err (B "redis: purge tag execute: " ++ e) | None => done end)
      end).

(** The loop over a cursor, of at most [fuel] rounds. *)
Fixpoint p_scan_loop {A} (fuel : nat) (s : scan_target) (fail : reply → str)
    (step : A → list str → prog (result A)) (acc : A) (cursor : N) : prog (option (result A)) :=
  match fuel with
  | O => Done None
  | S fuel' => Send (scan_cmd s cursor) (λ rep,
      match rep with
      | RScan cursor' l => prog_bind (step acc (returned s l)) (λ res,
          match res with
          | Err e => Done (Some (Err e))
          | Ok acc' => if (cursor' =? 0)%N then Done (Some (Ok acc')) else p_scan_loop fuel' s fail step acc' cursor'
          end)
      | RNil => Done (Some match s with ScanHash _ => Ok acc | ScanKeys _ => Err (fail RNil) end)
      | rep => Done (Some (Err (fail rep)))
      end)
  end.

Definition p_scan_all {A} (s : scan_target) (fail : reply → str)
    (step : A → list str → prog (result A)) (acc : A) : prog (option (result A)) :=
  Rounds (λ n, p_scan_loop n s fail step acc 0).

Definition p_PurgeByTag (tag : str) (soft : bool) : prog answer :=
  prog_bind (p_scan_all (ScanHash (tagKey prefix tag))
               (scan_failure (B "redis: purge tag hscan: ") (B "redis: purge tag scan entry: ")) (p_tag_batch soft) 0%Z)
    (λ res, match res with
            | None => Done (ACount Panicked)
            | Some (Err e) => Done (ACount (Fail e))
            | Some (Ok processed) =>
                if soft then Done (ACount (Ret processed))
                else prog_bind (p_unlink [tagKey prefix tag]) (λ _, Done (ACount (Ret processed)))
            end).

Definition p_unlink_batch (acc : Z * Z) (elements : list str) : prog (result (Z * Z)) :=
  if is_nil elements then Done (Ok acc) else
  prog_bind (p_unlink elements) (λ err, Done
    match err with
    | Some e => Err (B "redis: unlink: " ++ e)
    | None => Ok (acc.1 + Z.of_nat (length elements),
                  acc.2 + Z.of_nat (length (List.filter (λ k, Contains k (B ":meta:")) elements)))%Z
    end).

Definition p_scanAndUnlink (matchPattern : str) : prog (option (result (Z * Z))) :=
  p_scan_all (ScanKeys matchPattern) scan_error p_unlink_batch (0, 0)%Z.

Fixpoint p_unlink_patterns (patterns : list str) (primaryDeleted : Z) : prog answer :=
  match patterns with
  | [] => Done (ACount (Ret primaryDeleted))
  | p :: rest => prog_bind (p_scanAndUnlink p) (λ res,
      match res with
      | None => Done (ACount Panicked)
      | Some (Err e) => Done (ACount (Fail e))
      | Some (Ok (_, pd)) => p_unlink_patterns rest (primaryDeleted + pd)
      end)
  end.

Definition p_soft_batch (count : Z) (elements : list str) : prog (result Z) :=
  prog_bind (p_softPurgeKeys elements) (λ '(n, _), Done (Ok (count + n)%Z)).

Definition p_softPurgePattern (pattern : str) : prog answer :=
  prog_bind (p_scan_all (ScanKeys (prefix ++ B "meta:" ++ TrimPrefix pattern (B "meta:"))) scan_error p_soft_batch 0%Z)
    (λ res, Done (ACount match res with None => Panicked | Some (Err e) => Fail e | Some (Ok n) => Ret n end)).

Definition p_PurgeAll : prog answer :=
  prog_bind (p_scanAndUnlink (prefix ++ B "*"))
    (λ res, Done (ACount match res with None => Panicked | Some (Err e) => Fail e | Some (Ok (_, n)) => Ret n end)).

Definition prog_of (c : call) : prog answer :=
  match c with
  | CallGetMeta pk => p_GetMeta pk
  | CallGetVariant pk vk => p_GetVariant pk vk
  | CallSetVariant pk m v b ttl => p_SetVariant pk m v b ttl
  | CallPurge pk soft => if soft then p_softPurge pk else p_hardPurge pk
  | CallPurgeByPattern p soft => if soft then p_softPurgePattern p else p_unlink_patterns (hard_patterns prefix p) 0
  | CallPurgeByTag tag soft => p_PurgeByTag tag soft
  | CallPurgeAll => p_PurgeAll
  end.

(** ** Running *)

(** One command at the server. *)
Definition serve (r : R) (t : Z) (c : cmd) : R * reply :=
  if is_write c then exec r t c else (r, query r t c).

(** A program with the server to itself. *)
Fixpoint alone {A} (p : prog A) (r : R) (t : Z) : R * A :=
  match p with
  | Done a => (r, a)
  | Send c k => let '(r', rep) := serve r t c in alone (k rep) r' t
  | Script key k => let '(r', res) := softPurgeScript r t key in alone (k res) r' t
  | Rounds k => alone (k (S (scan_bound r))) r t
  end.

(** Many: the server, its time, and the calls begun, with what is left of each. *)
Record race := mkRace { server : R; time : Z; calls : list (call * prog answer) }.

Inductive step : race → race → Prop :=
  | step_call r t cs c : step (mkRace r t cs) (mkRace r t (cs ++ [(c, prog_of c)]))
  | step_command r t t' cs i call c k :
      cs !! i = Some (call, Send c k) → (t ≤ t')%Z →
      step (mkRace r t cs) (mkRace (serve r t' c).1 t' (<[i := (call, k (serve r t' c).2)]> cs))
  | step_script r t t' cs i call key k :
      cs !! i = Some (call, Script key k) → (t ≤ t')%Z →
      step (mkRace r t cs)
        (mkRace (softPurgeScript r t' key).1 t' (<[i := (call, k (softPurgeScript r t' key).2)]> cs))
  | step_rounds r t cs i call k n :
      cs !! i = Some (call, Rounds k) → step (mkRace r t cs) (mkRace r t (<[i := (call, k n)]> cs)).

Definition begin (r : R) (t : Z) : race := mkRace r t [].
Definition reachable (r : R) (t : Z) (s : race) : Prop := rtc step (begin r t) s.

(** What an operation of [RedisStore] gives. *)
Definition sequential (c : call) (r : R) (t : Z) : R * answer :=
  match c with
  | CallGetMeta pk => (r, AMeta (redis_GetMeta prefix r t pk))
  | CallGetVariant pk vk => (r, AVariant (redis_GetVariant prefix r t pk vk))
  | CallSetVariant pk m v b ttl => let '(r', o) := redis_SetVariant prefix r t pk m v b ttl in (r', AWritten o)
  | CallPurge pk soft => let '(r', o) := redis_Purge prefix r t pk soft in (r', ACount o)
  | CallPurgeByPattern p soft => let '(r', o) := redis_PurgeByPattern prefix r t p soft in (r', ACount o)
  | CallPurgeByTag tag soft => let '(r', o) := redis_PurgeByTag prefix r t tag soft in (r', ACount o)
  | CallPurgeAll => let '(r', o) := redis_PurgeAll prefix r t in (r', ACount o)
  end.

(** ** Facts: programs run alone *)
Lemma alone_bind {A B} (p : prog A) (f : A → prog B) r t :
  alone (prog_bind p f) r t = let '(r', a) := alone p r t in alone (f a) r' t.
Proof.
  revert r. induction p as [a|c k IH|key k IH|k IH]; intros r; simpl; [done| | |apply IH].
  - destruct (serve r t c) as [r' rep]. apply IH.
  - destruct (softPurgeScript r t key) as [r' res]. apply IH.
Qed.

Lemma alone_pipeline cmds r t : forallb is_write cmds = true → alone (pipeline cmds) r t = DoMulti r t cmds.
Proof.
  revert r. induction cmds as [|c cmds IH]; intros r; simpl; [done|]. intros [Hc Hcs]%andb_true_iff.
  unfold serve. rewrite Hc. destruct (exec r t c) as [r1 rep]. rewrite alone_bind, IH by done.
  by destruct (DoMulti r1 t cmds).
Qed.

Lemma alone_reads cmds r t :
  forallb (λ c, negb (is_write c)) cmds = true → alone (pipeline cmds) r t = (r, query r t <$> cmds).
Proof.
  induction cmds as [|c cmds IH]; simpl; [done|]. intros [Hc%negb_true_iff Hcs]%andb_true_iff.
  unfold serve. by rewrite Hc, alone_bind, IH.
Qed.

Lemma set_cmds_writes pk vk ib vb body tags secs : forallb is_write (set_cmds prefix pk vk ib vb body tags secs) = true.
Proof.
  simpl. apply forallb_forall. intros c Hc%list_elem_of_In.
  destruct (tag_cmds_elem prefix pk secs tags c Hc) as (tag & _ & _ & [->|[->|Hx]]); [done..|].
  by destruct Hx as [->| ->].
Qed.

Lemma alone_unlink ks r t : alone (p_unlink ks) r t = unlink r t ks.
Proof. unfold p_unlink, unlink. simpl. unfold serve. simpl. by destruct (exec r t (UNLINK ks)) as [? []]. Qed.

Lemma alone_softPurgeKeys ks r t : alone (p_softPurgeKeys ks) r t = softPurgeKeys r t ks.
Proof.
  revert r. induction ks as [|k ks IH]; intros r; [done|]. simpl. destruct (softPurgeScript r t k) as [r1 res].
  rewrite alone_bind, IH. by destruct (softPurgeKeys r1 t ks) as [r2 []].
Qed.

Lemma reply_keys_batch pks r t :
  reply_keys (zip pks (query r t <$> ((λ pk, HKEYS (metaKey pk)) <$> pks))) = batch_keys prefix r t pks.
Proof. induction pks as [|pk pks IH]; [done|]. csimpl. rewrite IH. by destruct (query _ _ _). Qed.

Lemma alone_tag_batch soft r t acc l : alone (p_tag_batch soft acc l) r t = tag_batch prefix soft t r acc l.
Proof.
  unfold p_tag_batch, tag_batch. case_if; [done|]. destruct soft.
  - rewrite alone_bind, alone_softPurgeKeys. by destruct (softPurgeKeys _ _ _) as [? []].
  - rewrite alone_bind, alone_reads by (clear; by induction l). rewrite reply_keys_batch.
    destruct (batch_keys _ _ _ _) as [[|k ks]|e]; try done. rewrite alone_bind, alone_unlink. by destruct (unlink _ _ _).
Qed.

Lemma alone_unlink_batch r t acc l : alone (p_unlink_batch acc l) r t = unlink_batch t r acc l.
Proof.
  unfold p_unlink_batch, unlink_batch. case_if; [done|]. rewrite alone_bind, alone_unlink. by destruct (unlink _ _ _).
Qed.

Lemma alone_soft_batch r t acc l : alone (p_soft_batch acc l) r t = soft_batch t r acc l.
Proof.
  unfold p_soft_batch, soft_batch. rewrite alone_bind, alone_softPurgeKeys. by destruct (softPurgeKeys _ _ _) as [? []].
Qed.

Lemma alone_scan_loop {A} s t fail pstep (step : R → A → list str → R * result A) fuel r acc c r' res :
  (∀ r acc l, alone (pstep acc l) r t = step r acc l) →
  scan_loop fuel s t fail step r acc c = Some (r', res) →
  alone (p_scan_loop fuel s fail pstep acc c) r t = (r', Some res).
Proof.
  intros Hstep. revert r acc c. induction fuel as [|fuel IH]; intros r acc c; simpl; [done|].
  assert (is_write (scan_cmd s c) = false) as Hw by (by destruct s). unfold serve. rewrite Hw.
  destruct (query r t (scan_cmd s c)); try (by intros [= <- <-]); [destruct s; by intros [= <- <-]|].
  rewrite alone_bind, Hstep. destruct (step r acc (returned s l)) as [r1 [acc1|e]]; [|by intros [= <- <-]].
  case_if; [by intros [= <- <-]|by apply IH].
Qed.

(** A scan that comes to its end, before [f]. *)
Lemma alone_scan_all {A B} s t fail pstep (step : R → A → list str → R * result A) r acc r' res
    (f : option (result A) → prog B) :
  (∀ r acc l, alone (pstep acc l) r t = step r acc l) → scan_all s t fail step r acc = Some (r', res) →
  alone (prog_bind (p_scan_all s fail pstep acc) f) r t = alone (f (Some res)) r' t.
Proof.
  intros Hs H. rewrite alone_bind. unfold p_scan_all.
  change (alone (Rounds _) r t) with (alone (p_scan_loop (S (scan_bound r)) s fail pstep acc 0) r t).
  by rewrite (alone_scan_loop _ _ _ _ step _ _ _ _ r' res).
Qed.

Lemma alone_unlink_patterns ps n r t :
  (unlink_patterns r t ps n).2 ≠ Panicked →
  alone (p_unlink_patterns ps n) r t = let '(r', o) := unlink_patterns r t ps n in (r', ACount o).
Proof.
  revert r n. induction ps as [|p ps IH]; intros r n; [done|]. cbn [unlink_patterns p_unlink_patterns].
  destruct (scanAndUnlink r t p) as [[r' res]|] eqn:E; [|done]. intros H.
  unfold p_scanAndUnlink. rewrite (alone_scan_all _ _ _ _ _ _ _ _ _ _ (λ r acc l, alone_unlink_batch r t acc l) E).
  destruct res as [[d pd]|e]; [by apply IH|done].
Qed.

(** Run alone, a call is the operation of [RedisStore]: the same server state and the
    same answer, also where commands fail, provided that its scans come to their end. *)
Theorem alone_is_sequential c r t :
  (sequential c r t).2 ≠ ACount Panicked → alone (prog_of c) r t = sequential c r t.
Proof.
  destruct c as [pk|pk vk|pk m v b ttl|pk []|p []|tag soft|]; cbn [prog_of sequential redis_Purge redis_PurgeByPattern]; intros Hc.
  - unfold redis_GetMeta, serve. simpl. by destruct (query _ _ _).
  - unfold redis_GetVariant, serve, variant_answer. simpl.
    destruct (query r t (HGET _ _)); try done; by destruct (query r t (GET _)).
  - clear Hc. unfold p_SetVariant, redis_SetVariant. destruct (marshal_meta (leanMeta m)) as [ib|e]; [|done].
    destruct (marshal_variant _) as [vb|e]; [|done]. rewrite alone_bind, alone_pipeline by apply set_cmds_writes.
    by destruct (DoMulti _ _ _).
  - clear Hc. unfold softPurge. simpl. by destruct (softPurgeScript _ _ _).
  - clear Hc. unfold hardPurge, p_hardPurge. cbn [alone]. unfold serve. cbn [is_write].
    destruct (query r t _) as [| | | | | |[|k l]|]; try done. rewrite alone_bind, alone_unlink. by destruct (unlink _ _ _).
  - unfold softPurgePattern in *. destruct (scan_all _ _ _ _ _ _) as [[r' res]|] eqn:E; [|done].
    unfold p_softPurgePattern. rewrite (alone_scan_all _ _ _ _ _ _ _ _ _ _ (λ r acc l, alone_soft_batch r t acc l) E).
    by destruct res.
  - unfold hardPurgePattern in *. apply alone_unlink_patterns.
    destruct (unlink_patterns _ _ _ _) as [r' o]. simpl in *. congruence.
  - unfold redis_PurgeByTag in *. destruct (scan_all _ _ _ _ _ _) as [[r' res]|] eqn:E; [|done]. unfold p_PurgeByTag.
    rewrite (alone_scan_all _ _ _ _ _ _ _ _ _ _ (λ r acc l, alone_tag_batch soft r t acc l) E).
    destruct res as [n|e]; [|done]. destruct soft; [done|]. rewrite alone_bind, alone_unlink. by destruct (unlink _ _ _).
  - unfold redis_PurgeAll in *. destruct (scanAndUnlink _ _ _) as [[r' res]|] eqn:E; [|done].
    unfold p_PurgeAll, p_scanAndUnlink. rewrite (alone_scan_all _ _ _ _ _ _ _ _ _ _ (λ r acc l, alone_unlink_batch r t acc l) E).
    by destruct res as [[]|].
Qed.
End Race.

Arguments race R : clear implicits.
