(* ===== verification/RedisRaceLaws.v ===== *)
(** * What holds of interleaved calls to Redis

    [reads_are_writes]: whatever is interleaved, and whatever commands fail, an answer is made of what
    the calls begun so far have written.  [no_key_is_forgotten]: as long as the server is up, a key without a
    deadline is one to which a running call still owes it.  [torn_read] and
    [tag_purge_forgets_new_entry] show what the interleavings do allow: the metadata of one write with the
    body of another, and an entry that the index of its tag has lost. *)

From S2P Require Import Prelude GoStrings GoHttp Storage TestStore Glob Redis RedisStore RedisFacts RedisLaws RedisDemo RedisRace.
#[local] Unset Default Proof Using.

(** ** What programs send *)
Fixpoint every {A} (Qc : cmd → Prop) (Qs : str → Prop) (p : prog A) : Prop :=
  match p with
  | Done _ => True
  | Send c k => Qc c ∧ ∀ rep, every Qc Qs (k rep)
  | Script key k => Qs key ∧ ∀ res, every Qc Qs (k res)
  | Rounds k => ∀ n, every Qc Qs (k n)
  end.

(** The program sends [EXPIRE k NX] whatever the replies are. *)
Fixpoint owes {A} (key : str) (p : prog A) : Prop :=
  match p with
  | Done _ => False
  | Send c k => (∃ secs, c = EXPIRE key secs NX) ∨ ∀ rep, owes key (k rep)
  | Script _ k => ∀ res, owes key (k res)
  | Rounds k => ∀ n, owes key (k n)
  end.

(** Whoever writes a hash also gives it a deadline. *)
Fixpoint covered {A} (p : prog A) : Prop :=
  match p with
  | Done _ => True
  | Send c k => (∀ key fvs, c = HSET key fvs → ∀ rep, owes key (k rep)) ∧ ∀ rep, covered (k rep)
  | Script _ k => ∀ res, covered (k res)
  | Rounds k => ∀ n, covered (k n)
  end.

(** Commands that store no value. *)
Definition quiet (c : cmd) : Prop := match c with HSET _ _ | SETEX _ _ _ => False | _ => True end.

Section Programs.
Context {A B' : Type}.

Lemma every_weaken Qc Qs Qc' Qs' (p : prog A) :
  (∀ c, Qc c → Qc' c) → (∀ k, Qs k → Qs' k) → every Qc Qs p → every Qc' Qs' p.
Proof. intros Hc Hs. induction p; simpl; intros Hp; destruct_and?; split_and?; eauto. Qed.

Lemma every_bind Qc Qs (p : prog A) (f : A → prog B') :
  every Qc Qs p → (∀ a, every Qc Qs (f a)) → every Qc Qs (prog_bind p f).
Proof. intros Hp Hf. induction p; simpl in *; destruct_and?; split_and?; eauto. Qed.

Lemma owes_bind key (p : prog A) (f : A → prog B') : owes key p → owes key (prog_bind p f).
Proof. induction p; simpl; [done| |eauto..]. intros [?|?]; eauto. Qed.

Lemma covered_bind (p : prog A) (f : A → prog B') : covered p → (∀ a, covered (f a)) → covered (prog_bind p f).
Proof.
  intros Hp Hf. induction p as [a|c k IH|key k IH|k IH]; simpl in *; [done| |eauto..]. destruct Hp as [Hc Hk].
  split; [|eauto]. intros key fvs E rep. by eapply owes_bind, Hc.
Qed.

Lemma quiet_covered Qs (p : prog A) : every quiet Qs p → covered p.
Proof.
  induction p as [a|c k IH|key k IH|k IH]; simpl; [done| | |eauto].
  - intros [Hc Hk]. split; [by intros key fvs ->|eauto].
  - intros [_ Hk]. eauto.
Qed.
End Programs.
#[local] Hint Resolve every_bind : core.

Lemma every_pipeline Qc Qs cmds : (∀ c, c ∈ cmds → Qc c) → every Qc Qs (pipeline cmds).
Proof.
  induction cmds as [|c cmds IH]; intros H; [done|]. simpl. split; [apply H; by left|]. intros rep.
  apply every_bind; [apply IH; set_solver|done].
Qed.

Lemma owes_pipeline key secs cmds : EXPIRE key secs NX ∈ cmds → owes key (pipeline cmds).
Proof.
  induction cmds as [|c cmds IH]; [by intros ?%not_elem_of_nil|]. intros [<-|H]%elem_of_cons; simpl; [eauto|].
  right. intros rep. by apply owes_bind, IH.
Qed.

(** Every HSET of a pipeline is followed by an EXPIRE NX. *)
Fixpoint covers (cmds : list cmd) : Prop :=
  match cmds with
  | [] => True
  | c :: cmds' => (∀ key fvs, c = HSET key fvs → ∃ secs, EXPIRE key secs NX ∈ cmds') ∧ covers cmds'
  end.

Lemma covers_app l1 l2 : covers l1 → covers l2 → covers (l1 ++ l2).
Proof.
  intros H1 H2. induction l1 as [|c l1 IH]; [done|]. destruct H1 as [Hc H1]. split; [|by apply IH].
  intros key fvs E. destruct (Hc key fvs E) as [secs ?]. exists secs. set_solver.
Qed.

Lemma covered_pipeline cmds : covers cmds → covered (pipeline cmds).
Proof.
  induction cmds as [|c cmds IH]; [done|]. intros [Hc H]. simpl. split.
  - intros key fvs E rep. destruct (Hc key fvs E) as [secs ?]. by eapply owes_bind, owes_pipeline.
  - intros rep. apply covered_bind; [by apply IH|done].
Qed.

(** ** Keyspaces whose values have a source *)
Section Sourced.
Context (prefix : str) (F : str → str → str → Prop) (S : str → str → Prop).

(** Every field and string of the store's keys is one of [F] and [S]. *)
Definition sourced (d : keyspace) : Prop :=
  ∀ k e, d !! (prefix ++ k) = Some e →
  match re_value e with
  | RString s => S (prefix ++ k) s
  | RHash h => ∀ f x, h !! f = Some x → F (prefix ++ k) f (hf_value x)
  end.

Lemma sourced_evict t d : sourced d → sourced (evict t d).
Proof.
  intros Hd k e. rewrite lookup_evict. intros (e0 & H0 & He)%bind_Some. specialize (Hd k e0 H0).
  apply evict_entry_Some in He as (_ & _ & [(s & H1 & ->)|(h & H1 & -> & _)]); rewrite H1 in Hd; [done|].
  intros f x [Hx _]%live_fields_Some. by apply Hd.
Qed.

Lemma sourced_insert d k e :
  sourced d → match re_value e with RString s => S k s | RHash h => ∀ f x, h !! f = Some x → F k f (hf_value x) end →
  sourced (<[k := e]> d).
Proof. intros Hd He k' e'. rewrite lookup_insert_Some. intros [[-> <-]|[_ ?]]; [done|by apply Hd]. Qed.

Lemma sourced_hash d k h f x :
  sourced d → hash_of d (prefix ++ k) = Ok h → h !! f = Some x → F (prefix ++ k) f (hf_value x).
Proof.
  intros Hd. unfold hash_of. destruct (d !! (prefix ++ k)) as [e|] eqn:Ek.
  - specialize (Hd k e Ek). destruct (re_value e); [done|]. intros [= ->]. apply Hd.
  - intros [= <-]. by rewrite lookup_empty.
Qed.

Lemma sourced_put d k h :
  sourced d → (∀ k', k = prefix ++ k' → ∀ f x, h !! f = Some x → F k f (hf_value x)) → sourced (put_hash d k h).
Proof.
  intros Hd Hh k' e. unfold put_hash. case_if.
  - intros [_ ?]%lookup_delete_Some. by apply Hd.
  - rewrite lookup_insert_Some. intros [[-> <-]|[_ ?]]; [|by apply Hd]. simpl. by eapply Hh.
Qed.

Lemma sourced_run d t c :
  sourced d → (∀ k fvs, c = HSET k fvs → ∀ f v, (f, v) ∈ fvs → F k f v) →
  (∀ k v secs, c = SETEX k v secs → S k v) → sourced (run d t c).1.
Proof.
  intros Hd HF HS. destruct c; simpl; unfold on_hash; try (by destruct (hash_of _ _)); try done.
  - destruct (hash_of d k) as [h|] eqn:Eh; [|done]. apply sourced_put; [done|]. intros k' -> f x [H|H]%set_fields_Some.
    + by eapply sourced_hash.
    + by eapply HF.
  - destruct (hash_of d k) as [h|] eqn:Eh; [|done]. simpl. destruct (h !! f) as [y|] eqn:Ey; [|done].
    apply sourced_put; [done|]. intros k' -> f' x. rewrite lookup_insert_Some.
    intros [[<- <-]|[_ ?]]; simpl; by eapply sourced_hash.
  - destruct (hash_of d k) as [h|] eqn:Eh; [|done]. apply sourced_put; [done|].
    intros k' -> f' x [_ ?]%lookup_delete_Some. by eapply sourced_hash.
  - apply sourced_insert; [done|]. by eapply HS.
  - unfold set_expire. destruct (d !! k) as [e|] eqn:Ek; [|done]. intros k' e' H.
    enough (∃ e0, d !! (prefix ++ k') = Some e0 ∧ re_value e0 = re_value e') as (e0 & H0 & <-) by (by apply Hd).
    destruct mode, (re_expire e); simpl in H; try case_in H; try (by eauto);
      rewrite lookup_insert_Some in H; destruct H as [[<- <-]|[_ ?]]; eauto.
  - intros k' e. rewrite foldr_delete_lookup. case_bool_decide; [done|]. apply Hd.
Qed.
End Sourced.

(** ** What the calls write and read *)
Section Provenance.
Context {R : Type} {RS : RedisServer R} {P : Proto} (prefix : str).
Abbreviation metaKey := (RedisStore.metaKey prefix).
Abbreviation bodyKey := (RedisStore.bodyKey prefix).
Abbreviation tagKey := (RedisStore.tagKey prefix).
Abbreviation prog_of := (prog_of prefix).

(** The write commands of a call. *)
Definition stores (c : call) (w : cmd) : Prop :=
  match c with
  | CallSetVariant pk m v b ttl => ∃ ib vb,
      marshal_meta (leanMeta m) = Ok ib ∧
      marshal_variant (with_variant_key v (variant_name (VariantKey v))) = Ok vb ∧
      w ∈ set_cmds prefix pk (variant_name (VariantKey v)) ib vb b (Tags m) (ttlSeconds ttl)
  | _ => False
  end.

(** The keys that a call may mark as soft-purged; by tag or pattern, those that its scan finds. *)
Definition marks (c : call) (key : str) : Prop :=
  match c with
  | CallPurge pk soft => soft = true ∧ key = metaKey pk
  | CallPurgeByPattern _ soft | CallPurgeByTag _ soft => soft = true
  | _ => False
  end.

Definition field_from (W : list call) (k f v : str) : Prop :=
  (∃ c fvs, c ∈ W ∧ stores c (HSET k fvs) ∧ (f, v) ∈ fvs) ∨ (f = softPurgedField ∧ ∃ c, c ∈ W ∧ marks c k).
Definition string_from (W : list call) (k v : str) : Prop := ∃ c secs, c ∈ W ∧ stores c (SETEX k v secs).
Definition from (W : list call) (d : keyspace) : Prop := sourced prefix (field_from W) (string_from W) d.

Lemma field_from_mono W W' k f v : W ⊆ W' → field_from W k f v → field_from W' k f v.
Proof. unfold field_from. intros HW [(c & fvs & ? & ?)|(? & c & ? & ?)]; [left; exists c, fvs|right; split; [done|exists c]]; auto. Qed.

Lemma from_mono W W' d : W ⊆ W' → from W d → from W' d.
Proof.
  intros HW Hd k e He. specialize (Hd k e He). destruct (re_value e).
  - destruct Hd as (c & secs & ? & ?). exists c, secs. auto.
  - intros f x Hx. eapply field_from_mono; [done|]. by apply Hd.
Qed.

(** What an answer must be made of. *)
Definition justified (W : list call) (c : call) (a : answer) : Prop :=
  match c, a with
  | CallGetMeta pk, AMeta (Ret (Some (meta, soft))) =>
      (∃ m v b ttl, CallSetVariant pk m v b ttl ∈ W ∧ meta = with_variants (leanMeta m) (Variants meta)) ∧
      (∀ vk v', Variants meta !! vk = Some v' → ∃ m v b ttl, CallSetVariant pk m v b ttl ∈ W ∧
         variant_name (VariantKey v) = vk ∧ v' = with_variant_key v vk) ∧
      (soft = true → ∃ c', c' ∈ W ∧ marks c' (metaKey pk))
  | CallGetVariant pk vk, AVariant (Ret (Some (v', b))) =>
      (∃ m v b0 ttl, CallSetVariant pk m v b0 ttl ∈ W ∧
         variant_name (VariantKey v) = variant_name vk ∧ v' = with_variant_key v (variant_name vk)) ∧
      (∃ pk' m v ttl, CallSetVariant pk' m v b ttl ∈ W ∧
         bodyKey pk' (variant_name (VariantKey v)) = bodyKey pk (variant_name vk))
  | _, _ => True
  end.

(** The replies that a server may give, to whom the calls [W] have written. *)
Definition possible (W : list call) (c : cmd) (rep : reply) : Prop :=
  is_read c = true → (∃ e, rep = RError e) ∨ ∃ d t, from W d ∧ reply_ok rep (run d t c).2.

(** Whatever is written meanwhile, the answer of the program is justified. *)
Fixpoint safe (W : list call) (c : call) (p : prog answer) : Prop :=
  match p with
  | Done a => justified W c a
  | Send w k => ∀ W' rep, W ⊆ W' → possible W' w rep → safe W' c (k rep)
  | Script _ k => ∀ W' res, W ⊆ W' → safe W' c (k res)
  | Rounds k => ∀ n, safe W c (k n)
  end.

Lemma justified_mono W W' c a : W ⊆ W' → justified W c a → justified W' c a.
Proof.
  intros HW. destruct c as [pk|pk vk|pk m0 v0 b0 ttl0|pk s0|p s0|tag s0|], a as [[[[meta soft]|]| |]|[[[v' b]|]| |]| |]; try done; simpl.
  - intros ((m & v & b & ttl & ? & ?) & Hv & Hs). split; [exists m, v, b, ttl; auto|]. split.
    + intros vk v' E. destruct (Hv vk v' E) as (m1 & v1 & b1 & ttl1 & ? & ?). exists m1, v1, b1, ttl1. auto.
    + intros E. destruct (Hs E) as (c' & ? & ?). exists c'. auto.
  - intros ((m & v & b0 & ttl & ? & ?) & (pk' & m1 & v1 & ttl1 & ? & ?)).
    split; [exists m, v, b0, ttl; auto|exists pk', m1, v1, ttl1; auto].
Qed.

Lemma safe_mono W W' c p : W ⊆ W' → safe W c p → safe W' c p.
Proof.
  revert W W'. induction p as [a|w k IH|key k IH|k IH]; intros W W' HW Hp; simpl in *.
  - by eapply justified_mono.
  - intros W2 rep HW2. apply Hp. by etrans.
  - intros W2 res HW2. apply Hp. by etrans.
  - intros n. by eapply IH.
Qed.

Lemma safe_trivial W c p : (∀ W a, justified W c a) → safe W c p.
Proof. intros H. revert W. induction p; simpl; auto. Qed.

(** *** Reading back *)
Lemma stores_HSET c pk fvs :
  stores c (HSET (metaKey pk) fvs) → ∃ m v b ttl ib vb, c = CallSetVariant pk m v b ttl ∧
    marshal_meta (leanMeta m) = Ok ib ∧ marshal_variant (with_variant_key v (variant_name (VariantKey v))) = Ok vb ∧
    fvs = [(indexField, ib); (variantField (variant_name (VariantKey v)), vb)].
Proof.
  destruct c as [| |pk' m v b ttl| | | |]; try done. intros (ib & vb & Hi & Hv & Hc). unfold set_cmds, expire_cmds in Hc.
  rewrite !elem_of_app, !elem_of_cons, !elem_of_nil in Hc.
  destruct Hc as [[[= ->%metaKey_inj ->]|[?|[?|[?|[]]]]]|[[?|[?|[]]]|Hc]]; try done; [by exists m, v, b, ttl, ib, vb|].
  apply tag_cmds_elem in Hc as (tag & _ & _ & [[= H _]|[?|[?|?]]]); try done. by apply meta_not_tag in H.
Qed.

Lemma stores_SETEX c k s secs :
  stores c (SETEX k s secs) → ∃ pk m v ttl, c = CallSetVariant pk m v s ttl ∧ k = bodyKey pk (variant_name (VariantKey v)).
Proof.
  destruct c as [| |pk m v b ttl| | | |]; try done. intros (ib & vb & _ & _ & Hc). unfold set_cmds, expire_cmds in Hc.
  rewrite !elem_of_app, !elem_of_cons, !elem_of_nil in Hc.
  destruct Hc as [[?|[?|[?|[[= -> -> _]|[]]]]]|[[?|[?|[]]]|Hc]]; try done; [by exists pk, m, v, ttl|].
  by apply tag_cmds_elem in Hc as (tag & _ & _ & [?|[?|[?|?]]]).
Qed.

Lemma index_from W pk x :
  field_from W (metaKey pk) indexField x →
  ∃ m v b ttl, CallSetVariant pk m v b ttl ∈ W ∧ marshal_meta (leanMeta m) = Ok x.
Proof.
  intros [(c & fvs & Hc & Hs & Hf)|[? _]]; [|done].
  apply stores_HSET in Hs as (m & v & b & ttl & ib & vb & -> & Hi & _ & ->).
  rewrite !elem_of_cons, elem_of_nil in Hf. destruct Hf as [[= ->]|[[=]|[]]]. by exists m, v, b, ttl.
Qed.

Lemma variant_from W pk vk x :
  field_from W (metaKey pk) (variantField vk) x →
  ∃ m v b ttl, CallSetVariant pk m v b ttl ∈ W ∧ variant_name (VariantKey v) = vk ∧
               marshal_variant (with_variant_key v vk) = Ok x.
Proof.
  intros [(c & fvs & Hc & Hs & Hf)|[? _]]; [|done].
  apply stores_HSET in Hs as (m & v & b & ttl & ib & vb & -> & _ & Hv & ->).
  rewrite !elem_of_cons, elem_of_nil in Hf. destruct Hf as [[=]|[[= -> ->]|[]]]. by exists m, v, b, ttl.
Qed.

Lemma soft_from W pk x : field_from W (metaKey pk) softPurgedField x → ∃ c, c ∈ W ∧ marks c (metaKey pk).
Proof.
  intros [(c & fvs & Hc & Hs & Hf)|[_ ?]]; [|done].
  apply stores_HSET in Hs as (m & v & b & ttl & ib & vb & -> & _ & _ & ->).
  rewrite !elem_of_cons, elem_of_nil in Hf. by destruct Hf as [[=]|[[=]|[]]].
Qed.

(** *** The programs of the calls *)
#[local] Instance is_set_dec c : Decision (∃ pk m v b ttl, c = CallSetVariant pk m v b ttl).
Proof. destruct c; try (right; intros (? & ? & ? & ? & ? & ?); discriminate). left. eauto 10. Defined.

Lemma quiet_softPurgeKeys (Qs : str → Prop) ks : (∀ k, k ∈ ks → Qs k) → every quiet Qs (p_softPurgeKeys ks).
Proof.
  induction ks as [|k ks IH]; intros H; [done|]. simpl. split; [apply H; by left|]. intros res.
  apply every_bind; [apply IH; set_solver|by intros []].
Qed.

Lemma quiet_unlink (Qs : str → Prop) ks : every quiet Qs (p_unlink ks).
Proof. by split. Qed.

Lemma quiet_scan_all {A} (Qs : str → Prop) s fail (step : A → list str → prog (result A)) acc :
  (∀ acc l, every quiet Qs (step acc l)) → every quiet Qs (p_scan_all s fail step acc).
Proof.
  intros Hs n. generalize 0%N as cursor. revert acc. induction n as [|n IH]; intros acc cursor; [done|]. simpl.
  split; [by destruct s|]. intros rep. destruct rep; try done. apply every_bind; [apply Hs|]. intros [acc'|e]; [|done].
  by case_if.
Qed.

Lemma quiet_tag_batch (Qs : str → Prop) soft acc l :
  (soft = true → ∀ k, Qs k) → every quiet Qs (p_tag_batch prefix soft acc l).
Proof.
  intros Hs. unfold p_tag_batch. case_if; [done|]. destruct soft.
  - apply every_bind; [apply quiet_softPurgeKeys; auto|by intros []].
  - apply every_bind.
    + apply every_pipeline. by intros c (pk & -> & _)%list_elem_of_fmap.
    + intros reps. destruct (reply_keys _ _) as [[|k ks]|e]; done.
Qed.

Lemma quiet_unlink_batch (Qs : str → Prop) acc l : every quiet Qs (p_unlink_batch acc l).
Proof. unfold p_unlink_batch. case_if; [done|]. apply every_bind; [apply quiet_unlink|done]. Qed.

Lemma quiet_unlink_patterns (Qs : str → Prop) ps n : every quiet Qs (p_unlink_patterns ps n).
Proof.
  revert n. induction ps as [|p ps IH]; intros n; [done|]. cbn [p_unlink_patterns].
  apply every_bind; [apply quiet_scan_all, quiet_unlink_batch|]. by intros [[[]|]|].
Qed.

(** Only a write stores values. *)
Lemma quiet_call c : (∀ pk m v b ttl, c ≠ CallSetVariant pk m v b ttl) → every quiet (marks c) (prog_of c).
Proof.
  intros Hc. destruct c as [pk|pk vk|pk m v b ttl|pk []|p []|tag soft|]; cbn [RedisRace.prog_of]; try (by edestruct Hc);
    try (by repeat (split; [done|intros ?])).
  - split; [done|]. by intros [| | | | | |[|k l]|].
  - apply every_bind; [|done]. apply quiet_scan_all. intros acc l. apply every_bind; [by apply quiet_softPurgeKeys|by intros []].
  - apply quiet_unlink_patterns.
  - apply every_bind; [apply quiet_scan_all; intros; by apply quiet_tag_batch|].
    intros [[n|e]|]; try done. destruct soft; [done|]. apply every_bind; [apply quiet_unlink|done].
  - apply every_bind; [apply quiet_scan_all, quiet_unlink_batch|done].
Qed.

Definition sends (c : call) (p : prog answer) : Prop := every (λ w, quiet w ∨ stores c w) (marks c) p.

Lemma sends_call c : sends c (prog_of c).
Proof.
  destruct (decide (∃ pk m v b ttl, c = CallSetVariant pk m v b ttl)) as [(pk & m & v & b & ttl & ->)|Hc].
  - cbn [RedisRace.prog_of]. unfold sends, p_SetVariant. destruct (marshal_meta _) as [ib|] eqn:Ei; [|done].
    destruct (marshal_variant _) as [vb|] eqn:Ev; [|done]. apply every_bind; [|done]. apply every_pipeline.
    intros w Hw. right. by exists ib, vb.
  - eapply every_weaken; [| |apply quiet_call]; [tauto|done|]. intros pk m v b ttl ->. apply Hc. eauto 10.
Qed.

Lemma covers_set pk vk ib vb b tags secs : covers (set_cmds prefix pk vk ib vb b tags secs).
Proof.
  rewrite set_cmds_split. apply covers_app.
  - simpl. repeat split; try done. intros key fvs [= -> _]. exists secs. set_solver.
  - induction tags as [|tag tags IH]; [done|]. csimpl. apply covers_app; [|done]. unfold tag_cmds. case_if; [done|].
    simpl. repeat split; try done. intros key fvs [= -> _]. exists secs. set_solver.
Qed.

Lemma covered_call c : covered (prog_of c).
Proof.
  destruct (decide (∃ pk m v b ttl, c = CallSetVariant pk m v b ttl)) as [(pk & m & v & b & ttl & ->)|Hc].
  - cbn [RedisRace.prog_of]. unfold p_SetVariant. destruct (marshal_meta _) as [ib|]; [|done].
    destruct (marshal_variant _) as [vb|]; [|done]. apply covered_bind; [|done]. apply covered_pipeline, covers_set.
  - eapply quiet_covered, quiet_call. intros pk m v b ttl ->. apply Hc. eauto 10.
Qed.
End Provenance.

(** ** Invariants of the interleavings *)
Section Invariants.
Context {R : Type} {RS : RedisServer R} {RD : RedisDoc R} {P : Proto} {PD : ProtoDoc P} (prefix : str).
Abbreviation metaKey := (RedisStore.metaKey prefix).
Abbreviation bodyKey := (RedisStore.bodyKey prefix).
Abbreviation prog_of := (prog_of prefix).
Abbreviation justified := (justified prefix).
Abbreviation safe := (safe prefix).
Abbreviation from := (from prefix).
Abbreviation possible := (possible prefix).
Abbreviation step := (RedisRace.step prefix).
Abbreviation reachable := (RedisRace.reachable prefix).

Lemma GetMeta_justified W pk : safe W (CallGetMeta pk) (p_GetMeta prefix pk).
Proof.
  intros W' rep _ Hp. destruct (Hp eq_refl) as [[e ->]|(d & t & Hd & Hr)]; [done|]. simpl in Hr. unfold on_hash in Hr.
  destruct (hash_of d (metaKey pk)) as [h|e] eqn:Eh; simpl in Hr; (apply reply_ok_eq in Hr; [|done]); subst rep; [|done].
  rewrite !lookup_fmap. destruct (h !! indexField) as [xi|] eqn:Ei; [|done]. simpl.
  assert (∀ f x, h !! f = Some x → field_from prefix W' (metaKey pk) f (hf_value x)) as Hf.
  { intros f x Hx. by eapply (sourced_hash prefix). }
  destruct (index_from prefix W' pk _ (Hf _ _ Ei)) as (m & v & b & ttl & Hc & Hm%meta_round_trip). rewrite Hm. simpl.
  split; [by exists m, v, b, ttl|]. split.
  - intros vk v'. rewrite hash_variants_lookup, lookup_fmap. destruct (h !! variantField vk) as [x|] eqn:Ex; [|done]. simpl.
    destruct (variant_from prefix W' pk vk _ (Hf _ _ Ex)) as (m1 & v1 & b1 & ttl1 & ? & ? & Hv%variant_round_trip).
    rewrite Hv. intros [= <-]. by exists m1, v1, b1, ttl1.
  - intros Hs%bool_decide_eq_true_1. destruct (h !! softPurgedField) as [x|] eqn:Ex; [|done].
    eapply soft_from. by apply Hf.
Qed.

Lemma GetVariant_justified W pk vk : safe W (CallGetVariant pk vk) (p_GetVariant prefix pk vk).
Proof.
  unfold p_GetVariant. fold (variant_name vk). intros W1 rep1 _ H1 W2 rep2 HW H2. simpl.
  destruct (H1 eq_refl) as [[e1 ->]|(d1 & t1 & Hd1 & Hr1)]; [by destruct rep2|]. simpl in Hr1. unfold on_hash in Hr1.
  destruct (hash_of d1 (metaKey pk)) as [h|e] eqn:Eh; simpl in Hr1;
    (apply reply_ok_eq in Hr1; [|by try case_match]); subst rep1; [|by destruct rep2].
  destruct (h !! variantField (variant_name vk)) as [x|] eqn:Ex; [|done].
  assert (field_from prefix W1 (metaKey pk) (variantField (variant_name vk)) (hf_value x)) as Hf by (by eapply (sourced_hash prefix)).
  destruct (variant_from prefix W1 pk _ _ Hf) as (m1 & v1 & b1 & ttl1 & Hc1 & Hk & Hv%variant_round_trip).
  destruct (H2 eq_refl) as [[e2 ->]|(d2 & t2 & Hd2 & Hr2)]; [done|]. simpl in Hr2.
  apply reply_ok_eq in Hr2; [|intros l; by repeat case_match]. subst rep2.
  destruct (d2 !! bodyKey pk (variant_name vk)) as [e|] eqn:Ed; [|done].
  specialize (Hd2 _ e Ed). destruct (re_value e) as [s|h2]; [|done]. unfold variant_answer. rewrite Hv. simpl.
  destruct Hd2 as (c2 & secs & Hc2 & (pk2 & m2 & v2 & ttl2 & -> & Hb)%stores_SETEX).
  split; [exists m1, v1, b1, ttl1; auto|by exists pk2, m2, v2, ttl2].
Qed.

Lemma safe_call W c : safe W c (prog_of c).
Proof. destruct c; [apply GetMeta_justified|apply GetVariant_justified|by apply safe_trivial..]. Qed.

(** A command and a script write what is expected of their call. *)
Lemma serve_from W r t c w :
  c ∈ W → quiet w ∨ stores prefix c w → from W (data r) → from W (data (serve r t w).1).
Proof.
  intros Hc Hw Hd. unfold serve. destruct (is_write w) eqn:Ew; [|done].
  destruct (exec_doc r t w Ew) as [-> | ->]; [done|]. apply sourced_run; [by apply sourced_evict|..].
  - intros k fvs -> f v Hf. left. exists c, fvs. by destruct Hw.
  - intros k v secs ->. exists c, secs. by destruct Hw.
Qed.

Lemma script_from W r t c key : c ∈ W → marks prefix c key → from W (data r) → from W (data (softPurgeScript r t key).1).
Proof.
  intros Hc Hm Hd. unfold softPurgeScript. destruct (query r t _) as [| | | n | | | |]; try done. case_if; [|done].
  assert (from W (data (exec r t (HSET key [(softPurgedField, B "1")])).1)) as H; [|by destruct (exec r t _)].
  destruct (exec_doc r t (HSET key [(softPurgedField, B "1")]) eq_refl) as [-> | ->]; [done|].
  apply sourced_run; [by apply sourced_evict| |done]. intros k fvs [= <- <-] f v. rewrite list_elem_of_singleton.
  intros [= -> ->]. right. eauto.
Qed.

Lemma serve_possible W r t w : from W (data r) → possible W w (serve r t w).2.
Proof.
  intros Hd Hw. unfold serve. assert (is_write w = false) as -> by (by destruct w). simpl.
  destruct (query_doc r t w Hw) as [?|?]; [by left|]. right. exists (evict t (data r)), t.
  split; [by apply sourced_evict|done].
Qed.

(** The calls begun. *)
Definition begun (s : race R) : list call := fst <$> calls s.

Definition provenance (s : race R) : Prop :=
  from (begun s) (data (server s)) ∧
  ∀ i c p, calls s !! i = Some (c, p) → sends prefix c p ∧ safe (begun s) c p.

Lemma begun_insert r t (cs : list (call * prog answer)) i c p p' :
  cs !! i = Some (c, p) → begun (mkRace r t (<[i := (c, p')]> cs)) = fst <$> cs.
Proof. intros H. unfold begun. simpl. rewrite list_fmap_insert. apply list_insert_id. by rewrite list_lookup_fmap, H. Qed.

(** One call goes on. *)
Lemma provenance_goes_on r t r' t' cs i c p p' :
  provenance (mkRace r t cs) → cs !! i = Some (c, p) →
  from (fst <$> cs) (data r') → sends prefix c p' → safe (fst <$> cs) c p' →
  provenance (mkRace r' t' (<[i := (c, p')]> cs)).
Proof.
  intros [_ Hp] Hi Hf Hs Hj. unfold provenance. rewrite (begun_insert _ _ _ _ _ _ _ Hi). split; [done|].
  intros j c1 p1. simpl. rewrite list_lookup_insert_Some. intros [(<- & [= <- <-] & _)|[_ Hj1]]; [done|]. by apply (Hp j).
Qed.

Lemma step_provenance s s' : provenance s → step s s' → provenance s'.
Proof.
  intros Hs. destruct 1 as [r t cs c|r t t' cs i c w k Hi _|r t t' cs i c key k Hi _|r t cs i c k n Hi].
  - destruct Hs as [Hd Hp]. unfold provenance, begun in *. simpl in *. rewrite fmap_app. simpl.
    assert (cs.*1 ⊆ cs.*1 ++ [c]) as HW by (intros ? ?; apply elem_of_app; by left). split; [by eapply from_mono|].
    intros i c1 p1 [H|[_ H]]%lookup_app_Some.
    + destruct (Hp i c1 p1 H). split; [done|]. by eapply safe_mono.
    + apply list_lookup_singleton_Some in H as [_ [= <- <-]]. split; [apply sends_call|apply safe_call].
  - destruct (Hs) as [Hd Hp]. destruct (Hp i _ _ Hi) as [[Hw Hk] Hj]. simpl in Hd, Hj.
    assert (c ∈ cs.*1) as Hc by (apply list_elem_of_fmap; exists (c, Send w k); split; [done|by eapply list_elem_of_lookup_2]).
    eapply provenance_goes_on; [done..|by eapply serve_from|apply Hk|]. apply Hj; [done|]. by apply serve_possible.
  - destruct (Hs) as [Hd Hp]. destruct (Hp i _ _ Hi) as [[Hw Hk] Hj]. simpl in Hd, Hj.
    assert (c ∈ cs.*1) as Hc by (apply list_elem_of_fmap; exists (c, Script key k); split; [done|by eapply list_elem_of_lookup_2]).
    eapply provenance_goes_on; [done..|by eapply script_from|apply Hk|by apply Hj].
  - destruct (Hs) as [Hd Hp]. destruct (Hp i _ _ Hi) as [Hw Hj]. eapply provenance_goes_on; [done..|apply Hw|apply Hj].
Qed.

(** C11: Nothing is made up: calls that run at the same time may interleave their commands in
    any order, and commands may fail before or after they took effect; still, from a server without
    keys of the store, what a finished read returns comes from calls begun by then.  The metadata is the index of a
    write of that primary key, each of its variants one of a write of that variant, and it is
    soft-purged only if such a purge was made.  A variant is that of a write of
    it, and its body that of a write to the same body key. *)
Theorem reads_are_writes r t s c a :
  (∀ k, data r !! (prefix ++ k) = None) → reachable r t s → (c, Done a) ∈ calls s → justified (begun s) c a.
Proof.
  intros Hr Hs [i Hi]%list_elem_of_lookup_1. assert (provenance s) as [_ Hp].
  - refine (rtc_ind_r _ (begin r t) _ _ s Hs).
    + split; [intros k e; simpl; by rewrite Hr|done].
    + intros s1 s2 _ H12 H1. by eapply step_provenance.
  - by destruct (Hp i c (Done a) Hi).
Qed.
(** *** Deadlines *)

(** What a command has to do with the deadline of a key. *)
Lemma deadline_cases c key :
  (∃ fvs, c = HSET key fvs) ∨ (∃ secs, c = EXPIRE key secs NX) ∨
  ((∀ fvs, c ≠ HSET key fvs) ∧ (∀ secs, c ≠ EXPIRE key secs NX)).
Proof.
  destruct c as [| | | | | | |k fvs| | | |k secs []|]; try (by right; right).
  - destruct (decide (k = key)) as [->|]; [by left; eauto|]. right; right. split; congruence.
  - destruct (decide (k = key)) as [->|]; [right; left; eauto|]. right; right. split; congruence.
Qed.

Lemma expires_put d k h key : (k = key → is_Some (d !! k) ∨ h = ∅) → expires d key → expires (put_hash d k h) key.
Proof.
  intros Hk Hd e. destruct (decide (key = k)) as [->|Hne]; [|by rewrite put_hash_ne; auto].
  unfold put_hash. case_if; [by rewrite lookup_delete_eq|]. rewrite lookup_insert_eq. intros [= <-]. simpl.
  destruct (Hk eq_refl) as [[e0 He0]| ->]; [|done]. rewrite He0. simpl. by apply Hd.
Qed.

Lemma run_expires d t c key : (∀ fvs, c ≠ HSET key fvs) → expires d key → expires (run d t c).1 key.
Proof.
  intros Hc Hd. destruct c; simpl; unfold on_hash; try (by destruct (hash_of _ _)); try done.
  - destruct (hash_of d k) as [h|]; [|done]. apply expires_put; [|done]. intros ->. by destruct (Hc fvs).
  - destruct (hash_of d k) as [h|] eqn:Eh; [|done]. simpl. destruct (h !! f) as [x|] eqn:Ex; [|done].
    apply expires_put; [|done]. intros _. left. by eapply hash_lookup_present.
  - destruct (hash_of d k) as [h|] eqn:Eh; [|done]. apply expires_put; [|done]. intros _.
    unfold hash_of in Eh. destruct (d !! k); [left; eauto|]. right. injection Eh as <-. apply delete_empty.
  - intros e. rewrite lookup_insert_Some. intros [[_ <-]|[_ ?]]; [done|by apply Hd].
  - unfold set_expire. destruct (d !! k) as [e0|]; [|done].
    destruct mode, (re_expire e0); try case_if; try done; intros e; rewrite lookup_insert_Some;
      (intros [[_ <-]|[_ ?]]; [done|by apply Hd]).
  - intros e. rewrite foldr_delete_lookup. case_bool_decide; [done|]. apply Hd.
Qed.

Lemma run_EXPIRE_NX d t key secs : expires (run d t (EXPIRE key secs NX)).1 key.
Proof.
  simpl. unfold set_expire. destruct (d !! key) as [e0|] eqn:E; [|intros e; by rewrite E].
  destruct (re_expire e0) eqn:Ee; [intros e; rewrite E; intros [= <-]; by rewrite Ee|].
  intros e. rewrite lookup_insert_eq. by intros [= <-].
Qed.

Lemma serve_up r t c : up r → up (serve r t c).1 ∧
  (is_write c = false ∧ (serve r t c).1 = r ∨
   is_write c = true ∧ data (serve r t c).1 = (run (evict t (data r)) t c).1).
Proof.
  intros Hu. unfold serve. destruct (is_write c) eqn:E; [|by auto]. destruct (exec_up r t c Hu E) as (? & ? & _). auto.
Qed.

Lemma serve_expires r t c key :
  up r → (∀ fvs, c ≠ HSET key fvs) → expires (data r) key → expires (data (serve r t c).1) key.
Proof.
  intros Hu Hc Hr. destruct (serve_up r t c Hu) as [_ [[_ ->]|[_ ->]]]; [done|]. by apply run_expires, expires_evict.
Qed.

(** The script marks an existing hash, whose deadline stays. *)
Lemma script_up r t k key :
  up r → up (softPurgeScript r t k).1 ∧ (expires (data r) key → expires (data (softPurgeScript r t k).1) key).
Proof.
  intros Hu. unfold softPurgeScript. pose proof (query_up r t (HEXISTS k indexField) Hu eq_refl) as Hq.
  destruct (query r t (HEXISTS k indexField)) as [| | | n | | | |]; try done. case_if; [|done]. subst n.
  destruct (exec_up r t (HSET k [(softPurgedField, B "1")]) Hu eq_refl) as (Hu' & Hd' & _).
  destruct (exec r t (HSET k [(softPurgedField, B "1")])) as [r' rep]. simpl in *. split; [done|]. intros Hr. rewrite Hd'.
  unfold on_hash in *. apply (expires_evict t) in Hr. destruct (hash_of (evict t (data r)) k) as [h|] eqn:Eh; [|done].
  apply expires_put; [|done]. intros _. left. simpl in Hq. case_bool_decide as Hi; [|done]. by eapply hash_lookup_present.
Qed.

Definition paid (s : race R) : Prop :=
  up (server s) ∧ (∀ c p, (c, p) ∈ calls s → covered p) ∧
  ∀ k, expires (data (server s)) (prefix ++ k) ∨ ∃ c p, (c, p) ∈ calls s ∧ owes (prefix ++ k) p.

(** One call goes on: it settles what it owed, or still owes it. *)
Lemma paid_goes_on r t r' t' cs i c p p' :
  paid (mkRace r t cs) → cs !! i = Some (c, p) → up r' → covered p' →
  (∀ key, (expires (data r) key → expires (data r') key ∨ owes key p') ∧
          (owes key p → expires (data r') key ∨ owes key p')) →
  paid (mkRace r' t' (<[i := (c, p')]> cs)).
Proof.
  intros (_ & Hc & Hk) Hi Hu Hc' H. simpl in *. split; [done|]. split.
  - intros c1 p1 [j Hj]%list_elem_of_lookup_1. revert Hj. simpl. rewrite list_lookup_insert_Some.
    intros [(_ & [= <- <-] & _)|[_ Hj]]; [done|]. by eapply Hc, list_elem_of_lookup_2.
  - intros k. simpl. assert (owes (prefix ++ k) p' → ∃ c1 p1, (c1, p1) ∈ <[i:=(c, p')]> cs ∧ owes (prefix ++ k) p1) as Hnew.
    { intros Ho. exists c, p'. split; [|done]. apply (list_elem_of_lookup_2 _ i), list_lookup_insert_eq.
      by eapply lookup_lt_Some. }
    destruct (H (prefix ++ k)) as [H1 H2]. destruct (Hk k) as [He|(c1 & p1 & [j Hj]%list_elem_of_lookup_1 & Ho)].
    + destruct (H1 He); [by left|right; by apply Hnew].
    + destruct (decide (j = i)) as [->|Hne].
      * rewrite Hi in Hj. injection Hj as <- <-. destruct (H2 Ho); [by left|right; by apply Hnew].
      * right. exists c1, p1. split; [|done]. apply (list_elem_of_lookup_2 _ j). by rewrite list_lookup_insert_ne.
Qed.

Lemma step_paid s s' : paid s → step s s' → paid s'.
Proof.
  intros Hs. destruct 1 as [r t cs c|r t t' cs i c w k Hi _|r t t' cs i c key k Hi _|r t cs i c k n Hi].
  - destruct Hs as (Hu & Hc & Hk). simpl in *. split; [done|]. split; simpl.
    + intros c1 p1 [?|[= -> ->]%list_elem_of_singleton]%elem_of_app; [by eapply Hc|apply covered_call].
    + intros k. destruct (Hk k) as [?|(c1 & p1 & ? & ?)]; [by left|]. right. exists c1, p1. split; [set_solver|done].
  - destruct (Hs) as (Hu & Hc & Hk). destruct (Hc c (Send w k)) as [Hset Hrest]; [by eapply list_elem_of_lookup_2|].
    simpl in Hu. destruct (serve_up r t' w Hu) as [Hu' Hd]. eapply paid_goes_on; [done..|apply Hrest|]. intros key.
    destruct (deadline_cases w key) as [[fvs ->]|[[secs ->]|[Hn1 Hn2]]].
    + split; right; by eapply Hset.
    + destruct Hd as [[? _]|[_ Hd]]; [done|]. rewrite Hd. split; left; apply run_EXPIRE_NX.
    + split; [left; by apply serve_expires|]. intros [[secs ->]|Ho]; [by destruct (Hn2 secs)|]. right. apply Ho.
  - destruct (Hs) as (Hu & Hc & Hk). pose proof (Hc c (Script key k) ltac:(by eapply list_elem_of_lookup_2)) as Hrest.
    eapply paid_goes_on; [done..|by apply (script_up r t' key [])|apply Hrest|]. intros k1. split.
    + intros He. left. by apply (script_up r t' key k1).
    + intros Ho. right. apply Ho.
  - destruct (Hs) as (Hu & Hc & Hk). pose proof (Hc c (Rounds k) ltac:(by eapply list_elem_of_lookup_2)) as Hrest.
    eapply paid_goes_on; [done..|apply Hrest|]. intros k1. split; [by left|]. intros Ho. right. apply Ho.
Qed.

(** C12: No key is forgotten: however calls interleave their commands, as long as the
    server is up, a key of the store that has no deadline is owed one by a call that still runs.
    When all calls have ended, every key has its deadline, and after some time nothing is left. *)
Theorem no_key_is_forgotten r t s :
  up r → (∀ k, expires (data r) (prefix ++ k)) → reachable r t s →
  (∀ k, expires (data (server s)) (prefix ++ k) ∨ ∃ c p, (c, p) ∈ calls s ∧ owes (prefix ++ k) p) ∧
  ((∀ c p, (c, p) ∈ calls s → ∃ a, p = Done a) →
   ∃ T, ∀ ts, (T ≤ ts)%Z → ∀ k, evict ts (data (server s)) !! (prefix ++ k) = None).
Proof.
  intros Hu He Hs. assert (paid s) as (_ & _ & Hk).
  - refine (rtc_ind_r _ (begin r t) _ _ s Hs).
    + split; [done|]. split; [by intros c p ?%not_elem_of_nil|]. intros k. left. apply He.
    + intros s1 s2 _ H12 H1. by eapply step_paid.
  - split; [done|]. intros Hdone. apply expiring_ends. intros k.
    destruct (Hk k) as [?|(c & p & Hc & Ho)]; [done|]. by destruct (Hdone c p Hc) as [a ->].
Qed.
End Invariants.

(** ** Runs *)

Definition old_variant := mkVariantInfo (B "default") ∅ 200 ∅ (B "v1") 0 3 [] [].
Definition new_variant := mkVariantInfo (B "default") ∅ 404 ∅ (B "v2") 0 3 [] [].
Definition write_call v b := CallSetVariant (B "k") (demo_meta []) v (B b) (60 * Second).
Definition read_call := CallGetVariant (B "k") [].

(** Call [i] takes its next step (a scan has three rounds); a call begins. *)
Definition advance (s : race keyspace) (i : nat) : race keyspace :=
  match calls s !! i with
  | Some (c, Send w k) =>
      mkRace (serve (server s) (time s) w).1 (time s) (<[i := (c, k (serve (server s) (time s) w).2)]> (calls s))
  | Some (c, Rounds k) => mkRace (server s) (time s) (<[i := (c, k 3%nat)]> (calls s))
  | _ => s
  end.
Definition start (c : call) (s : race keyspace) : race keyspace :=
  mkRace (server s) (time s) (calls s ++ [(c, prog_of pfx c)]).

Lemma advance_steps s i : rtc (RedisRace.step (R := keyspace) pfx) s (advance s i).
Proof.
  unfold advance. destruct s as [r t cs]. simpl. destruct (cs !! i) as [[c [a|w k|key k|k]]|] eqn:E; try apply rtc_refl.
  - apply rtc_once, (step_command pfx r t t cs i c w k E). lia.
  - by apply rtc_once, (step_rounds pfx r t cs i c k 3).
Qed.
Lemma start_steps c s : rtc (RedisRace.step (R := keyspace) pfx) s (start c s).
Proof. destruct s as [r t cs]. apply rtc_once, (step_call pfx). Qed.

Definition torn : race keyspace :=
  let written := foldl advance (start (write_call old_variant "old") (begin (∅ : keyspace) 0)) (repeat 0%nat 6) in
  let reading := advance (start read_call written) 1 in
  advance (foldl advance (start (write_call new_variant "new") reading) (repeat 2%nat 6)) 1.

Lemma advances_steps l s : rtc (RedisRace.step (R := keyspace) pfx) s (foldl advance s l).
Proof. revert s. induction l as [|i l IH]; intros s; [apply rtc_refl|]. simpl. etrans; [apply advance_steps|apply IH]. Qed.

(** A defect: [GetVariant] reads the metadata and the body with two commands that are not a
    transaction.  A write of the same variant between them gives the metadata of the old
    response, with its ETag and status, together with the body of the new one, although no such
    response was ever stored; the handler checks no more than the size. *)
Theorem torn_read :
  reachable (R := keyspace) pfx ∅ 0 torn ∧ snd <$> calls torn !! 1%nat = Some (Done (AVariant (Ret (Some (old_variant, B "new"))))).
Proof.
  split; [|vm_compute; reflexivity]. unfold reachable, torn. etrans; [|apply advance_steps]. etrans; [|apply advances_steps].
  etrans; [|apply start_steps]. etrans; [|apply advance_steps]. etrans; [|apply start_steps].
  etrans; [|apply advances_steps]. apply start_steps.
Qed.

Lemma reads_are_writes_witness : justified pfx (begun torn) read_call (AVariant (Ret (Some (old_variant, B "new")))).
Proof.
  apply (reads_are_writes pfx (∅ : keyspace) 0 torn).
  - intros k. simpl. by rewrite lookup_empty.
  - apply torn_read.
  - apply (list_elem_of_lookup_2 _ 1). vm_compute. reflexivity.
Defined.

Definition ended (cp : call * prog answer) : bool := match cp.2 with Done _ => true | _ => false end.

Lemma no_key_is_forgotten_witness :
  ∃ T, ∀ ts, (T ≤ ts)%Z → ∀ k, evict ts (data (server torn)) !! (pfx ++ k) = None.
Proof.
  destruct (no_key_is_forgotten pfx (∅ : keyspace) 0 torn) as [_ H].
  - exact I.
  - intros k e. simpl. rewrite lookup_empty. discriminate.
  - apply torn_read.
  - apply H. intros c p [i Hi]%list_elem_of_lookup_1. revert Hi.
    assert (ended <$> calls torn = [true; true; true]) as He by (vm_compute; reflexivity).
    intros Hi. assert ((ended <$> calls torn) !! i = Some (ended (c, p))) as Hp by (by rewrite list_lookup_fmap, Hi).
    rewrite He in Hp. do 3 (destruct i as [|i]; [injection Hp as Hp; destruct p; [eauto|discriminate..]|]). discriminate.
Defined.

Lemma alone_is_sequential_witness :
  alone (prog_of pfx (CallPurgeByTag (B "news") false)) (rset ∅ 100 "k" [B "news"] "" "hello" 60) (110 * Second)
  = ((∅ : keyspace), ACount (Ret 1%Z)).
Proof.
  rewrite (alone_is_sequential pfx (CallPurgeByTag (B "news") false) (rset ∅ 100 "k" [B "news"] "" "hello" 60) (110 * Second));
    [vm_compute; reflexivity|vm_compute; discriminate].
Defined.

(** A defect: a hard purge by tag ends with the deletion of the tag's hash.  An entry that is written
    under the tag after the last batch was read, and before that, is in the store but no longer in the
    index of its tag: it is served, and later purges of the tag do not find it. *)
Definition news_call := CallSetVariant (B "k") (demo_meta [B "news"]) (demo_variant "") (B "hello") (60 * Second).
Definition overtaken : race keyspace :=
  let scanned := foldl advance (start (CallPurgeByTag (B "news") false) (begin (∅ : keyspace) 0)) (repeat 0%nat 3) in
  advance (foldl advance (start news_call scanned) (repeat 1%nat 10)) 0.

Theorem tag_purge_forgets_new_entry :
  reachable (R := keyspace) pfx ∅ 0 overtaken ∧ ended <$> calls overtaken = [true; true] ∧
  let later := redis_PurgeByTag pfx (server overtaken) Second (B "news") false in
  later.2 = Ret 0%Z ∧
  redis_GetVariant pfx later.1 (2 * Second) (B "k") [] = Ret (Some (demo_variant "default", B "hello")).
Proof.
  split.
  - unfold reachable, overtaken. etrans; [|apply advance_steps]. etrans; [|apply advances_steps].
    etrans; [|apply start_steps]. etrans; [|apply advances_steps]. apply start_steps.
  - split; [vm_compute; reflexivity|]. split; vm_compute; reflexivity.
Qed.
