(* ===== verification/Ssrf.v ===== *)
(** * The SSRF guard of outbound fragment requests ([src/esi/ssrf.go])

    Addresses ([net/netip]): an IPv4 address is a number below [2^32], an IPv6 address a
    number below [2^128] with a zone; parsing and the class predicates are
    written out from the standard library.  [isIPBlocked] is compared with a table of
    ranges, [matchHost] with a specification of host patterns, and the transport's dial
    function is shown to connect to allowed hosts and addresses only.  The URL check
    [validateURLScheme] is in [Esi]. *)

From Stdlib Require Import Btauto.
From S2P Require Import Prelude GoStrings GoHttp Env.
#[local] Open Scope Z_scope.
#[local] Ltac Zify.zify_post_hook ::= Z.div_mod_to_equations.

(** ** Addresses *)
Inductive Addr :=
  | AddrV4 (n : Z)
  | AddrV6 (n : Z) (zone : str).

Definition valid_addr (a : Addr) : Prop :=
  match a with AddrV4 n => 0 ≤ n < 2 ^ 32 | AddrV6 n _ => 0 ≤ n < 2 ^ 128 end.

(** Byte [i] of an IPv4 address, the first 16 bits and the first byte of an IPv6 address. *)
Definition v4byte (i n : Z) : Z := Z.land (Z.shiftr n (24 - 8 * i)) 255.
Definition v6u16 (n : Z) : Z := Z.shiftr n 112.
Definition v6byte (n : Z) : Z := Z.shiftr n 120.

Definition Is4In6 (a : Addr) : bool :=
  match a with AddrV4 _ => false | AddrV6 n _ => Z.shiftr n 32 =? 65535 end.

Definition Unmap (a : Addr) : Addr :=
  match a with
  | AddrV6 n _ => if Is4In6 a then AddrV4 (Z.land n (2 ^ 32 - 1)) else a
  | AddrV4 _ => a
  end.

(** Equality with [0.0.0.0] or [::], which has no zone. *)
Definition IsUnspecified (a : Addr) : bool :=
  match a with AddrV4 n => n =? 0 | AddrV6 n zone => (n =? 0) && is_nil zone end.

Definition IsLoopback (a : Addr) : bool :=
  match Unmap a with AddrV4 n => v4byte 0 n =? 127 | AddrV6 n _ => n =? 1 end.

Definition IsLinkLocalUnicast (a : Addr) : bool :=
  match Unmap a with
  | AddrV4 n => (v4byte 0 n =? 169) && (v4byte 1 n =? 254)
  | AddrV6 n _ => Z.land (v6u16 n) 0xffc0 =? 0xfe80
  end.

Definition IsLinkLocalMulticast (a : Addr) : bool :=
  match Unmap a with
  | AddrV4 n => (v4byte 0 n =? 224) && (v4byte 1 n =? 0) && (v4byte 2 n =? 0)
  | AddrV6 n _ => Z.land (v6u16 n) 0xff0f =? 0xff02
  end.

Definition IsMulticast (a : Addr) : bool :=
  match Unmap a with
  | AddrV4 n => Z.land (v4byte 0 n) 0xf0 =? 0xe0
  | AddrV6 n _ => v6byte n =? 0xff
  end.

Definition IsPrivate (a : Addr) : bool :=
  match Unmap a with
  | AddrV4 n => (v4byte 0 n =? 10) || ((v4byte 0 n =? 172) && (Z.land (v4byte 1 n) 0xf0 =? 16))
                || ((v4byte 0 n =? 192) && (v4byte 1 n =? 168))
  | AddrV6 n _ => Z.land (v6byte n) 0xfe =? 0xfc
  end.

(** ** Prefixes: an address with its length; an address with a zone is in none *)
Record Prefix := mkPrefix { pf_addr : Addr; pf_bits : Z }.

Definition PrefixContains (p : Prefix) (a : Addr) : bool :=
  match pf_addr p, a with
  | AddrV4 b, AddrV4 n => Z.shiftr (Z.lxor n b) (32 - pf_bits p) =? 0
  | AddrV6 b _, AddrV6 n zone => is_nil zone && (Z.shiftr (Z.lxor n b) (128 - pf_bits p) =? 0)
  | _, _ => false
  end.

Definition ip4 (a b c d : Z) : Z := ((a * 256 + b) * 256 + c) * 256 + d.

Definition blockedCIDRs : list Prefix :=
  [mkPrefix (AddrV4 (ip4 0 0 0 0)) 8;
   mkPrefix (AddrV4 (ip4 100 64 0 0)) 10;
   mkPrefix (AddrV4 (ip4 192 0 0 0)) 24;
   mkPrefix (AddrV4 (ip4 198 18 0 0)) 15;
   mkPrefix (AddrV4 (ip4 240 0 0 0)) 4;
   mkPrefix (AddrV6 (0xfc00 * 2 ^ 112) []) 7].

Definition isIPBlocked (ip : Addr) : bool :=
  let ip := Unmap ip in
  if IsUnspecified ip || IsLoopback ip || IsLinkLocalUnicast ip || IsLinkLocalMulticast ip
     || IsMulticast ip || IsPrivate ip
  then true
  else existsb (λ prefix, PrefixContains prefix ip) blockedCIDRs.

(** ** [netip.ParseAddr] *)

(** The fields of a dotted address; an octet is empty exactly when no digit was read. *)
Fixpoint parseIPv4Fields (s : str) (val : Z) (digLen : nat) (fields : list Z) : option (list Z) :=
  match s with
  | [] => if (length fields <? 3)%nat then None else Some (fields ++ [val])
  | c :: s' =>
      if is_digit c then
        if (digLen =? 1)%nat && (val =? 0) then None else
        let val := val * 10 + digit_val c in
        if 255 <? val then None else parseIPv4Fields s' val (S digLen) fields
      else if byte_eqb c "." then
        if (digLen =? 0)%nat || is_nil s' then None
        else if (length fields =? 3)%nat then None
        else parseIPv4Fields s' 0 0 (fields ++ [val])
      else None
  end.

Definition fields_value (l : list Z) : Z := foldl (λ acc x, acc * 256 + x) 0 l.

Definition parseIPv4 (s : str) : option Addr := AddrV4 ∘ fields_value <$> parseIPv4Fields s 0 0 [].

(** The hex digits at the start: their value, their number and the rest. *)
Fixpoint hex_group (s : str) (off : nat) (acc : Z) : option (Z * nat * str) :=
  match s with
  | [] => Some (acc, off, [])
  | c :: s' =>
      match unhex c with
      | None => Some (acc, off, s)
      | Some d =>
          let acc := acc * 16 + Z.of_N d in
          if (3 <? off)%nat || (65535 <? acc) then None else hex_group s' (S off) acc
      end
  end.

(** The loop over groups of 16 bits: the groups read, the place of [::], and what is left. *)
Fixpoint ipv6_groups (fuel : nat) (s : str) (groups : list Z) (ellipsis : option nat)
    : option (list Z * option nat * str) :=
  match fuel with
  | O => Some (groups, ellipsis, s)
  | S fuel' =>
      match hex_group s 0 0 with
      | None | Some (_, O, _) => None
      | Some (acc, _, rest) =>
          match rest with
          | [] => Some (groups ++ [acc], ellipsis, [])
          | c :: rest' =>
              if byte_eqb c "." then
                if bool_decide (ellipsis = None) && negb (length groups =? 6)%nat then None
                else if (6 <? length groups)%nat then None
                else match parseIPv4Fields s 0 0 [] with
                     | Some [a; b; c; d] => Some (groups ++ [a * 256 + b; c * 256 + d], ellipsis, [])
                     | _ => None
                     end
              else if byte_eqb c ":" then
                match rest' with
                | [] => None
                | c2 :: rest2 =>
                    if byte_eqb c2 ":" then
                      match ellipsis with
                      | Some _ => None
                      | None =>
                          let ellipsis := Some (S (length groups)) in
                          if is_nil rest2 then Some (groups ++ [acc], ellipsis, [])
                          else ipv6_groups fuel' rest2 (groups ++ [acc]) ellipsis
                      end
                    else ipv6_groups fuel' rest' (groups ++ [acc]) ellipsis
                end
              else None
          end
      end
  end.

Definition groups_value (l : list Z) : Z := foldl (λ acc x, acc * 65536 + x) 0 l.

(** What the code does after the loop. *)
Definition ipv6_finish (zone : str) (r : list Z * option nat * str) : option Addr :=
  let '(groups, ellipsis, rest) := r in
  if negb (is_nil rest) then None else
  match ellipsis with
  | None => if (length groups <? 8)%nat then None else Some (AddrV6 (groups_value groups) zone)
  | Some e =>
      if (length groups <? 8)%nat then
        Some (AddrV6 (groups_value (take e groups ++ replicate (8 - length groups) 0 ++ drop e groups)) zone)
      else None
  end.

Definition parseIPv6 (s : str) : option Addr :=
  let '(s, zone, has_zone) := Cut s "%" in
  if has_zone && is_nil zone then None else
  if HasPrefix s (B "::") then
    if is_nil (drop 2 s) then Some (AddrV6 0 zone)
    else ipv6_groups 8 (drop 2 s) [] (Some 0%nat) ≫= ipv6_finish zone
  else ipv6_groups 8 s [] None ≫= ipv6_finish zone.

(** The first of the three characters decides. *)
Fixpoint parse_kind (s : str) : option ascii :=
  match s with
  | [] => None
  | c :: s' => if one_of ".:%" c then Some c else parse_kind s'
  end.

Definition ParseAddr (s : str) : option Addr :=
  match parse_kind s with
  | Some c => if byte_eqb c "." then parseIPv4 s else if byte_eqb c ":" then parseIPv6 s else None
  | None => None
  end.

Example parse_examples :
  ParseAddr (B "127.0.0.1") = Some (AddrV4 0x7f000001) ∧ ParseAddr (B "010.0.0.1") = None ∧
  ParseAddr (B "::ffff:10.1.2.3") = Some (AddrV6 0xffff0a010203 []) ∧
  ParseAddr (B "fe80::1%eth0") = Some (AddrV6 (0xfe80 * 2 ^ 112 + 1) (B "eth0")) ∧
  ParseAddr (B "1:2:3:4:5:6:7:8") = Some (AddrV6 0x00010002000300040005000600070008 []) ∧
  ParseAddr (B "1::8:9") = Some (AddrV6 (2 ^ 112 + 0x80009) []) ∧ ParseAddr (B "1:2:3:4:5:6:7::8") = None ∧
  ParseAddr (B "1::2::3") = None ∧ ParseAddr (B "12345::") = None ∧ ParseAddr (B "::%") = None ∧
  ParseAddr (B "localhost") = None.
Proof. vm_compute. repeat split. Qed.

(** ** Host and port *)
Fixpoint LastIndexByte (s : str) (c : ascii) : option nat :=
  match s with
  | [] => None
  | d :: s' => match LastIndexByte s' c with
               | Some i => Some (S i)
               | None => if byte_eqb d c then Some 0%nat else None
               end
  end.

(** [net.AddrError]. *)
Definition AddrError {A} (err addr : str) : result A := Err (B "address " ++ addr ++ B ": " ++ err).

(** [net.SplitHostPort]. *)
Definition SplitHostPort (hostport : str) : result (str * str) :=
  let missingPort := AddrError (B "missing port in address") hostport in
  let tooManyColons := AddrError (B "too many colons in address") hostport in
  let unbracketed (j k : nat) (r : result (str * str)) :=
    if Contains (drop j hostport) (B "[") then AddrError (B "unexpected '[' in address") hostport
    else if Contains (drop k hostport) (B "]") then AddrError (B "unexpected ']' in address") hostport
    else r in
  match LastIndexByte hostport ":" with
  | None => missingPort
  | Some i =>
      let port := drop (S i) hostport in
      if HasPrefix hostport (B "[") then
        match IndexByte hostport "]" with
        | None => AddrError (B "missing ']' in address") hostport
        | Some e =>
            if (S e =? length hostport)%nat then missingPort
            else if (S e =? i)%nat then unbracketed 1%nat (S e) (Ok (take (e - 1) (drop 1 hostport), port))
            else if HasPrefix (drop (S e) hostport) (B ":") then tooManyColons
            else missingPort
        end
      else
        let host := take i hostport in
        if Contains host (B ":") then tooManyColons
        else unbracketed 0%nat 0%nat (Ok (host, port))
  end.

Definition JoinHostPort (host port : str) : str :=
  if Contains host (B ":") then B "[" ++ host ++ B "]:" ++ port else host ++ B ":" ++ port.

Example split_examples :
  SplitHostPort (B "a.com:80") = Ok (B "a.com", B "80") ∧ SplitHostPort (B "[::1]:80") = Ok (B "::1", B "80") ∧
  SplitHostPort (B "a.com") = Err (B "address a.com: missing port in address") ∧
  SplitHostPort (B "::1") = Err (B "address ::1: too many colons in address") ∧
  SplitHostPort (B "[::1]") = Err (B "address [::1]: missing port in address") ∧
  SplitHostPort (B "[::1]:8:0") = Err (B "address [::1]:8:0: too many colons in address") ∧
  SplitHostPort (B "[::1:80") = Err (B "address [::1:80: missing ']' in address") ∧
  SplitHostPort (B ":80") = Ok ([], B "80").
Proof. vm_compute. repeat split. Qed.

Section Guard.
Context {E : GoEnv}.

(** ** Host patterns *)
Definition strip_port (h : str) : str :=
  match SplitHostPort h with Ok (host, _) => host | _ => h end.

(** One pattern, after trimming, lower case and without port. *)
Definition pattern_ok (h p : str) : bool :=
  (p =s B "*") || (p =s h)
  || (HasPrefix p (B "*.")
      && ((HasSuffix h (drop 1 p) && (length (drop 1 p) <? length h)%nat) || (h =s drop 2 p))).

Fixpoint match_patterns (h : str) (patterns : list str) : bool :=
  match patterns with
  | [] => false
  | pattern :: rest =>
      let p := ToLower (TrimSpace pattern) in
      if is_nil p then match_patterns h rest
      else if pattern_ok h (strip_port p) then true
      else match_patterns h rest
  end.

Definition matchHost (host : str) (patterns : list str) : bool :=
  if is_nil patterns then true
  else match_patterns (ToLower (TrimSpace (strip_port host))) patterns.

(** ** The transport *)
Record ssrfConfig := mkSsrf {
  BlockPrivateIPs : bool;
  AllowedHosts : list str;
  AllowPrivateIPsForAllowedHosts : bool;
}.

(** The errors are the sentinels that the code wraps with a text for the log. *)
Definition errSSRFBlocked := B "esi: request blocked by ssrf protection".
Definition errHostNotAllowed := B "esi: host is not allowed".

(** The hook that the dialer calls with the address it is about to connect to: an error stops it. *)
Definition Control (cfg : ssrfConfig) (network address : str) : option str :=
  if negb (BlockPrivateIPs cfg) then None else
  match ParseAddr (strip_port address) with
  | None => None
  | Some ip => if isIPBlocked ip then Some errSSRFBlocked else None
  end.

(** [net.Dialer.DialContext]: a timeout, a hook, a network and an address give the address that the
    dialer connected to, or an error. *)
Context (dial : Z → option (str → str → option str) → str → str → result str).

Definition dial_timeout (dialTimeout : Z) : Z := if dialTimeout <=? 0 then 10 * Second else dialTimeout.

(** The [DialContext] of the transport that [newSSRFSafeTransport] builds. *)
Definition DialContext (cfg : ssrfConfig) (dialTimeout : Z) (network addr : str) : result str :=
  let dialTimeout := dial_timeout dialTimeout in
  match SplitHostPort addr with
  | Err e => Err e
  | Ok (host, port) =>
      let checked := dial dialTimeout (Some (Control cfg)) network (JoinHostPort host port) in
      if is_nil (AllowedHosts cfg) then checked
      else if negb (matchHost host (AllowedHosts cfg)) then Err errHostNotAllowed
      else if AllowPrivateIPsForAllowedHosts cfg then dial dialTimeout None network addr
      else checked
  end.
End Guard.

(** ** The table of blocked ranges *)
Definition in_range_z (n : Z) (r : Z * Z) : bool := (r.1 <=? n) && (n <=? r.2).
Definition in_table (t : list (Z * Z)) (n : Z) : bool := existsb (in_range_z n) t.

Definition blocked_v4 : list (Z * Z) :=
  [(ip4 0 0 0 0, ip4 0 255 255 255);            (* this network *)
   (ip4 10 0 0 0, ip4 10 255 255 255);          (* private *)
   (ip4 100 64 0 0, ip4 100 127 255 255);       (* carrier-grade NAT *)
   (ip4 127 0 0 0, ip4 127 255 255 255);        (* loopback *)
   (ip4 169 254 0 0, ip4 169 254 255 255);      (* link-local, cloud metadata *)
   (ip4 172 16 0 0, ip4 172 31 255 255);        (* private *)
   (ip4 192 0 0 0, ip4 192 0 0 255);            (* protocol assignments *)
   (ip4 192 168 0 0, ip4 192 168 255 255);      (* private *)
   (ip4 198 18 0 0, ip4 198 19 255 255);        (* benchmarks *)
   (ip4 224 0 0 0, ip4 239 255 255 255);        (* multicast *)
   (ip4 240 0 0 0, ip4 255 255 255 255)].       (* reserved, broadcast *)

Definition blocked_v6 : list (Z * Z) :=
  [(1, 1);                                                       (* loopback *)
   (0xfc00 * 2 ^ 112, 0xfe00 * 2 ^ 112 - 1);                     (* unique local *)
   (0xfe80 * 2 ^ 112, 0xfec0 * 2 ^ 112 - 1);                     (* link-local *)
   (0xff00 * 2 ^ 112, 2 ^ 128 - 1)].                             (* multicast *)

(** ** Facts: bits *)
Lemma forall_byte (f : Z → bool) :
  forallb f (seqZ 0 256) = true → ∀ x, 0 ≤ x < 256 → f x = true.
Proof.
  rewrite forallb_forall. intros H x Hx. apply H. apply list_elem_of_In. apply elem_of_seqZ. lia.
Qed.

Lemma forall_u16 (f : Z → bool) :
  forallb (λ h, forallb (λ l, f (h * 256 + l)) (seqZ 0 256)) (seqZ 0 256) = true →
  ∀ x, 0 ≤ x < 65536 → f x = true.
Proof.
  intros H x Hx. replace x with (x / 256 * 256 + x mod 256) by lia.
  apply (forall_byte (λ l, f (x / 256 * 256 + l))); [|lia].
  apply (forall_byte (λ h, forallb (λ l, f (h * 256 + l)) (seqZ 0 256))); [done|lia].
Qed.

Lemma land_f0 x : 0 ≤ x < 256 → Z.land x 0xf0 = x - x mod 16.
Proof.
  intros Hx. apply Z.eqb_eq. revert x Hx.
  apply (forall_byte (λ x, Z.land x 0xf0 =? x - x mod 16)). vm_compute. reflexivity.
Qed.

Lemma land_fe x : 0 ≤ x < 256 → Z.land x 0xfe = x - x mod 2.
Proof.
  intros Hx. apply Z.eqb_eq. revert x Hx.
  apply (forall_byte (λ x, Z.land x 0xfe =? x - x mod 2)). vm_compute. reflexivity.
Qed.

Lemma land_ffc0 x : 0 ≤ x < 65536 → Z.land x 0xffc0 = x - x mod 64.
Proof.
  intros Hx. apply Z.eqb_eq. revert x Hx.
  apply (forall_u16 (λ x, Z.land x 0xffc0 =? x - x mod 64)). vm_compute. reflexivity.
Qed.

Lemma land_ff0f x : 0 ≤ x < 65536 → (Z.land x 0xff0f =? 0xff02) = true → x / 256 = 255.
Proof.
  intros Hx H. apply Z.eqb_eq. assert (implb (Z.land x 0xff0f =? 0xff02) (x / 256 =? 255) = true) as Hi; [|by rewrite H in Hi].
  clear H. revert x Hx. apply (forall_u16 (λ x, implb (Z.land x 0xff0f =? 0xff02) (x / 256 =? 255))).
  vm_compute. reflexivity.
Qed.

Lemma shiftr_div n k : 0 ≤ k → Z.shiftr n k = n / 2 ^ k.
Proof. apply Z.shiftr_div_pow2. Qed.

Lemma prefix_test n b k : 0 ≤ k → (Z.shiftr (Z.lxor n b) k =? 0) = (n / 2 ^ k =? b / 2 ^ k).
Proof.
  intros Hk. apply eq_true_iff_eq. rewrite !Z.eqb_eq, Z.shiftr_lxor, Z.lxor_eq_0_iff, !shiftr_div by done. done.
Qed.

Lemma v4byte_div i n : 0 ≤ i ≤ 3 → v4byte i n = (n / 2 ^ (24 - 8 * i)) mod 256.
Proof. intros Hi. unfold v4byte. change 255 with (Z.ones 8). by rewrite Z.land_ones, shiftr_div by lia. Qed.

(** ** Facts: the two families *)
Ltac bool_lia := apply eq_true_iff_eq; rewrite ?orb_true_iff, ?andb_true_iff, ?Z.eqb_eq, ?Z.leb_le; unfold ip4; lia.

Definition blocked4 (n : Z) : bool := in_table blocked_v4 n.

Lemma isIPBlocked_v4 n : 0 ≤ n < 2 ^ 32 → isIPBlocked (AddrV4 n) = blocked4 n.
Proof.
  intros Hn. unfold isIPBlocked, IsUnspecified, IsLoopback, IsLinkLocalUnicast, IsLinkLocalMulticast, IsMulticast, IsPrivate.
  cbn [Unmap]. unfold blockedCIDRs, existsb, PrefixContains. cbn [pf_addr pf_bits].
  rewrite !prefix_test, !v4byte_div by lia. rewrite !land_f0 by (apply Z.mod_pos_bound; lia).
  unfold blocked4, in_table, blocked_v4, existsb, in_range_z. cbn [fst snd].
  set (a := n / 2 ^ 24). set (b := n / 2 ^ 16 mod 256). set (c := n / 2 ^ 8 mod 256). set (d := n mod 256).
  assert (n = ip4 a b c d ∧ 0 ≤ a < 256 ∧ 0 ≤ b < 256 ∧ 0 ≤ c < 256 ∧ 0 ≤ d < 256) as (Hd & Ha & Hb & Hc & Hdd)
    by (unfold a, b, c, d, ip4; lia).
  change (n / 2 ^ (24 - 8 * 0)) with a. change (n / 2 ^ (24 - 8 * 1) mod 256) with b.
  change (n / 2 ^ (24 - 8 * 2) mod 256) with c. rewrite (Z.mod_small a) by lia.
  assert (((ip4 0 0 0 0 <=? n) && (n <=? ip4 0 255 255 255)) = (n / 2 ^ (32 - 8) =? ip4 0 0 0 0 / 2 ^ (32 - 8))) as ->
    by bool_lia.
  assert (((ip4 10 0 0 0 <=? n) && (n <=? ip4 10 255 255 255)) = (a =? 10)) as -> by bool_lia.
  assert (((ip4 100 64 0 0 <=? n) && (n <=? ip4 100 127 255 255)) = (n / 2 ^ (32 - 10) =? ip4 100 64 0 0 / 2 ^ (32 - 10))) as ->
    by bool_lia.
  assert (((ip4 127 0 0 0 <=? n) && (n <=? ip4 127 255 255 255)) = (a =? 127)) as -> by bool_lia.
  assert (((ip4 169 254 0 0 <=? n) && (n <=? ip4 169 254 255 255)) = ((a =? 169) && (b =? 254))) as -> by bool_lia.
  assert (((ip4 172 16 0 0 <=? n) && (n <=? ip4 172 31 255 255)) = ((a =? 172) && (b - b mod 16 =? 16))) as -> by bool_lia.
  assert (((ip4 192 0 0 0 <=? n) && (n <=? ip4 192 0 0 255)) = (n / 2 ^ (32 - 24) =? ip4 192 0 0 0 / 2 ^ (32 - 24))) as ->
    by bool_lia.
  assert (((ip4 192 168 0 0 <=? n) && (n <=? ip4 192 168 255 255)) = ((a =? 192) && (b =? 168))) as -> by bool_lia.
  assert (((ip4 198 18 0 0 <=? n) && (n <=? ip4 198 19 255 255)) = (n / 2 ^ (32 - 15) =? ip4 198 18 0 0 / 2 ^ (32 - 15))) as ->
    by bool_lia.
  assert (((ip4 224 0 0 0 <=? n) && (n <=? ip4 239 255 255 255)) = (a - a mod 16 =? 224)) as -> by bool_lia.
  assert (((ip4 240 0 0 0 <=? n) && (n <=? ip4 255 255 255 255)) = (n / 2 ^ (32 - 4) =? ip4 240 0 0 0 / 2 ^ (32 - 4))) as ->
    by bool_lia.
  assert ((n =? 0) = true → (n / 2 ^ (32 - 8) =? ip4 0 0 0 0 / 2 ^ (32 - 8)) = true) as H0
    by (rewrite !Z.eqb_eq; unfold ip4; lia).
  assert ((a =? 224) && (b =? 0) && (c =? 0) = true → (a - a mod 16 =? 224) = true) as H1
    by (rewrite !andb_true_iff, !Z.eqb_eq; lia).
  clear -H0 H1. destruct (n =? 0); [rewrite (H0 eq_refl); simpl; by rewrite ?orb_true_r|]. clear H0.
  destruct ((a =? 224) && (b =? 0) && (c =? 0)).
  - rewrite (H1 eq_refl). rewrite ?orb_true_r. simpl. by rewrite ?orb_true_r.
  - clear H1. btauto.
Qed.

Lemma isIPBlocked_v6 n zone :
  0 ≤ n < 2 ^ 128 → Is4In6 (AddrV6 n zone) = false →
  isIPBlocked (AddrV6 n zone) = ((n =? 0) && is_nil zone) || in_table blocked_v6 n.
Proof.
  intros Hn H46. unfold isIPBlocked, IsLoopback, IsLinkLocalUnicast, IsLinkLocalMulticast, IsMulticast, IsPrivate.
  unfold Unmap. rewrite !H46. unfold IsUnspecified, blockedCIDRs, existsb, PrefixContains. cbn [pf_addr pf_bits].
  rewrite !prefix_test by lia. unfold v6u16, v6byte. rewrite !shiftr_div by lia.
  set (h := n / 2 ^ 112). assert (0 ≤ h < 65536) as Hh by (unfold h; lia).
  assert (n / 2 ^ 120 = h / 256) as Hb by (unfold h; lia). rewrite Hb.
  rewrite land_ffc0 by done. rewrite land_fe by lia.
  unfold in_table, blocked_v6, existsb, in_range_z. cbn [fst snd].
  assert (((1 <=? n) && (n <=? 1)) = (n =? 1)) as -> by bool_lia.
  assert (((0xfc00 * 2 ^ 112 <=? n) && (n <=? 0xfe00 * 2 ^ 112 - 1)) = (h / 256 - (h / 256) mod 2 =? 0xfc)) as ->
    by (apply eq_true_iff_eq; rewrite andb_true_iff, Z.eqb_eq, !Z.leb_le; unfold h; lia).
  assert (((0xfe80 * 2 ^ 112 <=? n) && (n <=? 0xfec0 * 2 ^ 112 - 1)) = (h - h mod 64 =? 0xfe80)) as ->
    by (apply eq_true_iff_eq; rewrite andb_true_iff, Z.eqb_eq, !Z.leb_le; unfold h; lia).
  assert (((0xff00 * 2 ^ 112 <=? n) && (n <=? 2 ^ 128 - 1)) = (h / 256 =? 0xff)) as ->
    by (apply eq_true_iff_eq; rewrite andb_true_iff, Z.eqb_eq, !Z.leb_le; unfold h; lia).
  assert ((n / 2 ^ (128 - 7) =? 0xfc00 * 2 ^ 112 / 2 ^ (128 - 7)) = (h / 256 - (h / 256) mod 2 =? 0xfc)) as ->
    by (apply eq_true_iff_eq; rewrite !Z.eqb_eq; unfold h; lia).
  pose proof (land_ff0f h Hh) as Hm.
  assert ((Z.land h 0xff0f =? 0xff02) = true → (h / 256 =? 0xff) = true) as H1 by (intros H; apply Z.eqb_eq; by apply Hm).
  clear -H1. destruct (Z.land h 0xff0f =? 0xff02).
  - rewrite (H1 eq_refl). rewrite ?orb_true_r. simpl. by rewrite ?orb_true_r.
  - clear H1. btauto.
Qed.

Lemma isIPBlocked_eq a :
  valid_addr a →
  isIPBlocked a
  = match a with
    | AddrV4 n => in_table blocked_v4 n
    | AddrV6 n zone =>
        if Is4In6 a then in_table blocked_v4 (n mod 2 ^ 32)
        else ((n =? 0) && is_nil zone) || in_table blocked_v6 n
    end.
Proof.
  destruct a as [n|n zone]; intros Hv; [by apply isIPBlocked_v4|].
  destruct (Is4In6 (AddrV6 n zone)) eqn:E4; [|by apply isIPBlocked_v6].
  assert (isIPBlocked (AddrV6 n zone) = isIPBlocked (AddrV4 (n mod 2 ^ 32))) as ->.
  { assert (Unmap (AddrV6 n zone) = AddrV4 (n mod 2 ^ 32)) as Hu.
    { unfold Unmap. rewrite E4. change (2 ^ 32 - 1) with (Z.ones 32). by rewrite Z.land_ones by lia. }
    unfold isIPBlocked. rewrite Hu. reflexivity. }
  apply isIPBlocked_v4. apply Z.mod_pos_bound. lia.
Qed.

(** C29: the address filter is its table: for every address, [isIPBlocked] says yes exactly when the
    address is in one of the listed ranges, where an IPv4 address in IPv6 form
    is looked up as IPv4; the only exception is [::] with a zone. *)
Theorem isIPBlocked_table a :
  valid_addr a →
  isIPBlocked a
  = match a with
    | AddrV4 n => in_table blocked_v4 n
    | AddrV6 n zone =>
        if Is4In6 a then in_table blocked_v4 (n mod 2 ^ 32)
        else ((n =? 0) && is_nil zone) || in_table blocked_v6 n
    end.
Proof. apply isIPBlocked_eq. Qed.

(** A defect: [::] is the local host to connect to, and blocked; with any zone
    ("::%1") it is still the local host, but it is not blocked, because the
    comparison with the unspecified address includes the zone. *)
Theorem zoned_unspecified_not_blocked zone :
  zone ≠ [] → isIPBlocked (AddrV6 0 []) = true ∧ isIPBlocked (AddrV6 0 zone) = false ∧
  ParseAddr (B "::%1") = Some (AddrV6 0 (B "1")).
Proof.
  intros Hz. split; [reflexivity|]. split; [|vm_compute; reflexivity].
  rewrite isIPBlocked_v6 by (done || lia). apply is_nil_false in Hz. by rewrite Hz.
Qed.

(** ** Facts: parsing *)
Definition byte_list (l : list Z) : Prop := Forall (λ x, 0 ≤ x < 256) l.
Definition u16_list (l : list Z) : Prop := Forall (λ x, 0 ≤ x < 65536) l.

Lemma parseIPv4Fields_bytes s val k fields l :
  0 ≤ val < 256 → byte_list fields → (length fields ≤ 3)%nat →
  parseIPv4Fields s val k fields = Some l → byte_list l ∧ length l = 4%nat.
Proof.
  revert val k fields. induction s as [|c s IH]; intros val k fields Hv Hf Hlen; simpl.
  - case_if; [done|]. intros [= <-]. split; [apply Forall_app; split; [done|by constructor]|].
    rewrite length_app. simpl. apply Nat.ltb_ge in E. lia.
  - destruct (is_digit c) eqn:Ed.
    + case_if; [done|]. case_if; [done|]. apply IH; [|done..].
      assert (0 ≤ digit_val c) by (unfold digit_val; lia). lia.
    + destruct (byte_eqb c "."); [|done]. case_if; [done|]. case_if; [done|]. apply IH; [lia| |].
      * apply Forall_app. split; [done|by constructor].
      * rewrite length_app. simpl. apply Nat.eqb_neq in E0. lia.
Qed.

Lemma foldl_digits b l acc n :
  0 < b → Forall (λ x, 0 ≤ x < b) l → 0 ≤ acc < b ^ n → 0 ≤ n →
  0 ≤ foldl (λ acc x, acc * b + x) acc l < b ^ (n + Z.of_nat (length l)).
Proof.
  intros Hb Hl. revert acc n. induction Hl as [|x l Hx _ IH]; intros acc n Ha Hn; simpl.
  - by rewrite Z.add_0_r.
  - replace (n + Z.of_nat (S (length l))) with ((n + 1) + Z.of_nat (length l)) by lia.
    apply IH; [|lia]. rewrite Z.pow_add_r, Z.pow_1_r by lia. nia.
Qed.

Lemma hex_group_range s off acc v k rest :
  0 ≤ acc < 65536 → hex_group s off acc = Some (v, k, rest) → 0 ≤ v < 65536.
Proof.
  revert off acc. induction s as [|c s IH]; intros off acc Ha; simpl; [by intros [= <- _ _]|].
  destruct (unhex c) as [d|]; [|by intros [= <- _ _]]. case_if; [done|]. apply orb_false_iff in E as [_ E].
  apply Z.ltb_ge in E. apply IH. lia.
Qed.

Lemma ipv6_groups_u16 fuel s groups e g e' rest :
  u16_list groups → (length groups + fuel ≤ 8)%nat → ipv6_groups fuel s groups e = Some (g, e', rest) →
  u16_list g ∧ (length g ≤ 8)%nat.
Proof.
  revert s groups e. induction fuel as [|fuel IH]; intros s groups e Hg Hlen; simpl.
  { intros [= <- _ _]. split; [done|lia]. }
  destruct (hex_group s 0 0) as [[[acc k] rst]|] eqn:Eh; [|done]. apply hex_group_range in Eh; [|lia].
  assert (u16_list (groups ++ [acc]) ∧ (length (groups ++ [acc]) = S (length groups))%nat) as [Hg' Hl'].
  { split; [apply Forall_app; split; [done|by constructor]|rewrite length_app; simpl; lia]. }
  destruct k as [|k]; [done|]. destruct rst as [|c rst]; [intros [= <- _ _]; split; [done|lia]|].
  destruct (byte_eqb c ".").
  - case_if; [done|]. destruct (6 <? length groups)%nat eqn:E6; [done|]. apply Nat.ltb_ge in E6.
    destruct (parseIPv4Fields s 0 0 []) as [fs|] eqn:Ef; [|done].
    apply parseIPv4Fields_bytes in Ef as [Hb _]; [|lia|constructor|simpl; lia].
    destruct fs as [|a [|b [|x [|y [|? ?]]]]]; try done. intros [= <- _ _].
    unfold byte_list in Hb. rewrite !Forall_cons in Hb. split; [|rewrite length_app; simpl; lia]. apply Forall_app. split; [done|].
    repeat constructor; lia.
  - destruct (byte_eqb c ":"); [|done]. destruct rst as [|c2 rst2]; [done|]. destruct (byte_eqb c2 ":").
    + destruct e; [done|]. case_if; [intros [= <- _ _]; split; [done|lia]|]. apply IH; [done|lia].
    + apply IH; [done|lia].
Qed.

Lemma ParseAddr_ok s a : ParseAddr s = Some a → valid_addr a.
Proof.
  unfold ParseAddr. destruct (parse_kind s) as [c|]; [|done]. destruct (byte_eqb c ".").
  - unfold parseIPv4. intros (l & Hl & ->)%fmap_Some. apply parseIPv4Fields_bytes in Hl as [Hb Hl]; [|lia|constructor|simpl; lia].
    pose proof (foldl_digits 256 l 0 0 ltac:(lia) Hb ltac:(simpl; lia) ltac:(lia)) as H. rewrite Hl in H. exact H.
  - destruct (byte_eqb c ":"); [|done]. unfold parseIPv6. destruct (Cut s "%") as [[s0 zone] hz]. case_if; [done|].
    assert (∀ s1 e, ipv6_groups 8 s1 [] e ≫= ipv6_finish zone = Some a → valid_addr a) as Hmain.
    { intros s1 e ([[g e'] rest] & Hg & Hf)%bind_Some. apply ipv6_groups_u16 in Hg as [Hu Hlen]; [|constructor|simpl; lia].
      assert (∀ l, u16_list l → length l = 8%nat → 0 ≤ groups_value l < 2 ^ 128) as Hval.
      { intros l Hl H8. pose proof (foldl_digits 65536 l 0 0 ltac:(lia) Hl ltac:(simpl; lia) ltac:(lia)) as H.
        rewrite H8 in H. exact H. }
      unfold ipv6_finish in Hf. case_in Hf; [done|]. destruct e' as [e'|]; case_in Hf; try done; injection Hf as <-; apply Hval.
      - apply Forall_app. split; [by apply Forall_take|]. apply Forall_app. split; [|by apply Forall_drop].
        apply Forall_replicate. lia.
      - rewrite !length_app, length_take, length_replicate, length_drop. apply Nat.ltb_lt in E1. lia.
      - done.
      - apply Nat.ltb_ge in E1. lia. }
    case_if; [|apply Hmain]. case_if; [|apply Hmain]. intros [= <-]. simpl. lia.
Qed.

(** Parsing is well typed: what [ParseAddr] accepts is an address of its family's width, so the
    table applies to every address that the dialer's hook can see. *)
Theorem ParseAddr_valid s a : ParseAddr s = Some a → valid_addr a.
Proof. apply ParseAddr_ok. Qed.

(** ** Facts: host and port *)
Lemma LastIndexByte_None s c : c ∉ s → LastIndexByte s c = None.
Proof.
  induction s as [|d s IH]; [done|]. intros Hn. simpl. rewrite IH by set_solver.
  destruct (byte_eqb d c) eqn:Ed; [|done]. apply byte_eqb_eq in Ed. set_solver.
Qed.

Lemma LastIndexByte_app a c b : c ∉ b → LastIndexByte (a ++ c :: b) c = Some (length a).
Proof.
  intros Hb. induction a as [|d a IH]; simpl; [|by rewrite IH].
  rewrite LastIndexByte_None by done. by rewrite byte_eqb_refl.
Qed.

Lemma IndexByte_here a c b : c ∉ a → IndexByte (a ++ c :: b) c = Some (length a).
Proof.
  unfold IndexByte. induction a as [|d a IH]; intros Ha; simpl app; cbn [Index HasPrefix].
  - by rewrite byte_eqb_refl.
  - assert (byte_eqb d c = false) as -> by (apply byte_eqb_neq; set_solver). simpl. by rewrite IH by set_solver.
Qed.

Lemma Contains_byte s c : Contains s [c] = bool_decide (c ∈ s).
Proof.
  destruct (Contains s [c]) eqn:Ec.
  - symmetry. apply bool_decide_eq_true_2. apply Contains_spec in Ec as (a & b & ->). set_solver.
  - symmetry. apply bool_decide_eq_false_2. by apply Contains_nil_false.
Qed.

Lemma Contains_false s c : c ∉ s → Contains s [c] = false.
Proof. apply Contains_nil_false. Qed.

Lemma drop_bracket a c (b : str) : drop (S (length a)) (a ++ c :: b) = b.
Proof. replace (S (length a)) with (length a + 1)%nat by lia. by rewrite drop_app_add. Qed.

Lemma drop_bracket2 a c d (b : str) : drop (S (S (length a))) (a ++ c :: d :: b) = b.
Proof. replace (S (S (length a))) with (length a + 2)%nat by lia. by rewrite drop_app_add. Qed.

Lemma LastIndexByte_bracket a c d (b : str) : d ∉ b → LastIndexByte (a ++ c :: d :: b) d = Some (S (length a)).
Proof.
  intros Hb. change (a ++ c :: d :: b) with (a ++ [c] ++ d :: b). rewrite app_assoc, LastIndexByte_app by done.
  f_equal. rewrite length_app. simpl. lia.
Qed.

(** A host and a port as the code passes them on: no bracket in either, no colon in the port. *)
Definition clean_host (h : str) : Prop := "["%char ∉ h ∧ "]"%char ∉ h.
Definition clean_port (p : str) : Prop := ":"%char ∉ p ∧ "["%char ∉ p ∧ "]"%char ∉ p.

(** Splitting undoes joining: the address that the dial function hands on, [JoinHostPort] of the
    parts it checked, splits into the same host and port again, with or without
    colons in the host. *)
Theorem split_join_host_port h p :
  clean_host h → clean_port p → SplitHostPort (JoinHostPort h p) = Ok (h, p).
Proof.
  intros [Hh1 Hh2] (Hp1 & Hp2 & Hp3). unfold JoinHostPort. destruct (Contains h (B ":")) eqn:Ec; unfold SplitHostPort.
  - change (B "[" ++ h ++ B "]:" ++ p) with (("["%char :: h) ++ "]"%char :: ":"%char :: p).
    rewrite LastIndexByte_bracket, IndexByte_here by set_solver. cbn [length].
    assert (length (("["%char :: h) ++ "]"%char :: ":"%char :: p) = S (S (S (length h + length p)))) as ->
      by (rewrite length_app; simpl; lia).
    assert ((S (S (length h)) =? S (S (S (length h + length p))))%nat = false) as -> by (apply Nat.eqb_neq; lia).
    rewrite Nat.eqb_refl. change (HasPrefix _ (B "[")) with true. cbv iota.
    change (drop 1 _) with (h ++ "]"%char :: ":"%char :: p).
    rewrite (drop_bracket ("["%char :: h)).
    change (B "[") with ["["%char]. change (B "]") with ["]"%char]. rewrite !Contains_false by set_solver.
    rewrite (drop_bracket2 ("["%char :: h)). simpl. by rewrite Nat.sub_0_r, take_app_length.
  - change (h ++ B ":" ++ p) with (h ++ ":"%char :: p). rewrite LastIndexByte_app by done.
    assert (HasPrefix (h ++ ":"%char :: p) (B "[") = false) as ->.
    { destruct h as [|c h]; [done|]. simpl. rewrite andb_true_r. apply byte_eqb_neq. set_solver. }
    rewrite take_app_length, Ec, drop_bracket. simpl drop.
    change (B "[") with ["["%char]. change (B "]") with ["]"%char]. by rewrite !Contains_false by set_solver.
Qed.

Lemma split_join_host_port_witness : SplitHostPort (JoinHostPort (B "::1") (B "80")) = Ok (B "::1", B "80").
Proof.
  apply (split_join_host_port (B "::1") (B "80")); unfold clean_host, clean_port;
    repeat split; apply (bool_decide_eq_true_1 _); vm_compute; reflexivity.
Defined.

Lemma isIPBlocked_table_witness :
  isIPBlocked (AddrV6 (0xffff * 2 ^ 32 + ip4 10 0 0 1) []) = true ∧ isIPBlocked (AddrV4 (ip4 8 8 8 8)) = false.
Proof.
  split.
  - rewrite (isIPBlocked_table (AddrV6 (0xffff * 2 ^ 32 + ip4 10 0 0 1) [])); [vm_compute; reflexivity|].
    unfold valid_addr, ip4. lia.
  - rewrite (isIPBlocked_table (AddrV4 (ip4 8 8 8 8))); [vm_compute; reflexivity|]. unfold valid_addr, ip4. lia.
Defined.

Lemma ParseAddr_valid_witness : valid_addr (AddrV6 (0xffff * 2 ^ 32 + ip4 10 0 0 1) []).
Proof. apply (ParseAddr_valid (B "::ffff:10.0.0.1")). vm_compute. reflexivity. Defined.

(** ** Facts: host patterns and the transport *)
Section GuardFacts.
Context {E : GoEnv}.

(** What one pattern, trimmed and in lower case, admits: everything, one host, or a domain with
    everything below it. *)
Inductive admits : str → str → Prop :=
  | admits_any h : admits (B "*") h
  | admits_host h : admits h h
  | admits_root h : admits (B "*." ++ h) h
  | admits_sub root sub : sub ≠ [] → admits (B "*." ++ root) (sub ++ B "." ++ root).

Lemma pattern_ok_spec h p : pattern_ok h p = true ↔ admits p h.
Proof.
  unfold pattern_ok. rewrite !orb_true_iff, !andb_true_iff, !orb_true_iff, andb_true_iff.
  rewrite !str_eqb_eq, HasPrefix_spec, HasSuffix_spec, Nat.ltb_lt. split.
  - intros [[-> | ->]|([r ->] & [([sub Hs] & Hlen)|Hr])]; try constructor.
    + change (drop 1 (B "*." ++ r)) with (B "." ++ r) in *. rewrite Hs. apply admits_sub. intros ->. rewrite Hs in Hlen. simpl in Hlen. lia.
    + change (drop 2 (B "*." ++ r)) with r in Hr. rewrite Hr. constructor.
  - destruct 1 as [h|h|h|root sub Hsub]; [by left; left|by left; right| |]; right; split.
    + by exists h.
    + by right.
    + by exists root.
    + left. split; [by exists sub|]. rewrite length_app. destruct sub; [done|]. simpl. lia.
Qed.

Lemma match_patterns_spec h ps :
  match_patterns h ps = true ↔
  ∃ p, p ∈ ps ∧ ToLower (TrimSpace p) ≠ [] ∧ admits (strip_port (ToLower (TrimSpace p))) h.
Proof.
  induction ps as [|q ps IH]; simpl; [split; [done|]; intros (p & Hp & _); set_solver|].
  destruct (is_nil (ToLower (TrimSpace q))) eqn:En; [|destruct (pattern_ok h (strip_port (ToLower (TrimSpace q)))) eqn:Ep].
  - apply is_nil_true in En. rewrite IH. split; intros (p & Hp & Hn & Ha); [exists p; set_solver|].
    exists p. rewrite elem_of_cons in Hp. destruct Hp as [->|Hp]; done.
  - split; [intros _|done]. exists q. apply is_nil_false in En. apply pattern_ok_spec in Ep. set_solver.
  - rewrite IH. split; intros (p & Hp & Hn & Ha); [exists p; set_solver|].
    exists p. rewrite elem_of_cons in Hp. destruct Hp as [->|Hp]; [|done]. apply pattern_ok_spec in Ha. congruence.
Qed.

(** A host is allowed: some non-blank pattern admits it, both without port, trimmed and in lower
    case. *)
Definition host_allowed (host : str) (ps : list str) : Prop :=
  ∃ p, p ∈ ps ∧ ToLower (TrimSpace p) ≠ [] ∧
       admits (strip_port (ToLower (TrimSpace p))) (ToLower (TrimSpace (strip_port host))).

Lemma matchHost_iff host ps : matchHost host ps = true ↔ ps = [] ∨ host_allowed host ps.
Proof.
  unfold matchHost. destruct ps as [|p ps]; simpl is_nil; cbv iota; [split; auto|].
  rewrite match_patterns_spec. split; [by right|]. intros [?|?]; done.
Qed.

(** [matchHost] means what its patterns mean: with no patterns every host passes; otherwise the
    host passes exactly when some non-blank pattern is "*", is the host, or is "*." followed by the
    host or by a parent domain of it.  A suffix that is not cut at a dot
    ("evilpartner.com" for "*.partner.com") never passes. *)
Theorem matchHost_spec host ps : matchHost host ps = true ↔ ps = [] ∨ host_allowed host ps.
Proof. apply matchHost_iff. Qed.

(** What the documentation of [net.Dialer] promises: a connection is made only after the hook has
    accepted its address, and for a named or literal host that address is a literal one.  (For an empty
    host "the local system is assumed", and the hook gets [":port"].) *)
Class DialerDoc (dial : Z → option (str → str → option str) → str → str → result str) : Prop := {
  dial_hooked t c network addr a : dial t (Some c) network addr = Ok a → ∃ network', c network' a = None;
  dial_literal t c network host port a :
    host ≠ [] → dial t c network (JoinHostPort host port) = Ok a → ∃ ip, ParseAddr (strip_port a) = Some ip;
}.

Definition in_blocked_table (a : Addr) : bool :=
  match a with
  | AddrV4 n => in_table blocked_v4 n
  | AddrV6 n zone => if Is4In6 a then in_table blocked_v4 (n mod 2 ^ 32) else in_table blocked_v6 n
  end.

Lemma blocked_table_sound a : valid_addr a → in_blocked_table a = true → isIPBlocked a = true.
Proof.
  intros Hv Ht. rewrite isIPBlocked_eq by done. unfold in_blocked_table in Ht. destruct a as [n|n zone]; [exact Ht|].
  destruct (Is4In6 (AddrV6 n zone)); [exact Ht|]. rewrite Ht. apply orb_true_r.
Qed.

Lemma Control_safe cfg network a ip :
  BlockPrivateIPs cfg = true → Control cfg network a = None → ParseAddr (strip_port a) = Some ip → in_blocked_table ip = false.
Proof.
  unfold Control. intros -> Hc Hp. rewrite Hp in Hc. simpl in Hc. destruct (isIPBlocked ip) eqn:Eb; [done|].
  destruct (in_blocked_table ip) eqn:Et; [|done]. apply blocked_table_sound in Et; [congruence|]. by eapply ParseAddr_ok.
Qed.

(** C16: outbound connections stay inside the configuration: whatever the resolver answers, a
    connection that the transport hands out goes to an allowed host when there is a list of
    allowed hosts, and, when private addresses are blocked and not exempted for that list and the
    address names a host, to an address outside every range of the table.  (An address without a
    host escapes the guard: [empty_host_unguarded].) *)
Theorem dial_safe dial `{!DialerDoc dial} cfg timeout network addr a :
  DialContext dial cfg timeout network addr = Ok a →
  (AllowedHosts cfg ≠ [] →
   ∃ host port, SplitHostPort addr = Ok (host, port) ∧ host_allowed host (AllowedHosts cfg)) ∧
  (BlockPrivateIPs cfg = true → AllowedHosts cfg = [] ∨ AllowPrivateIPsForAllowedHosts cfg = false →
   (∀ port, SplitHostPort addr ≠ Ok ([], port)) →
   ∃ ip, ParseAddr (strip_port a) = Some ip ∧ in_blocked_table ip = false).
Proof.
  unfold DialContext. destruct (SplitHostPort addr) as [[host port]|] eqn:Es; [|done].
  assert (∀ t, dial t (Some (Control cfg)) network (JoinHostPort host port) = Ok a → BlockPrivateIPs cfg = true →
          (∀ port', Ok (host, port) ≠ @Ok _ ([], port')) →
          ∃ ip, ParseAddr (strip_port a) = Some ip ∧ in_blocked_table ip = false) as Hsafe.
  { intros t Hd Hb Hh. assert (host ≠ []) as Hne by (intros ->; by apply (Hh port)).
    destruct (dial_literal _ _ _ _ _ _ Hne Hd) as [ip Hip]. destruct (dial_hooked _ _ _ _ _ Hd) as [net' Hc].
    exists ip. split; [done|]. by eapply Control_safe. }
  destruct (is_nil (AllowedHosts cfg)) eqn:En.
  - apply is_nil_true in En. intros Hd. split; [done|]. intros Hb _. by eapply Hsafe.
  - apply is_nil_false in En. destruct (matchHost host (AllowedHosts cfg)) eqn:Em; [|done]. simpl.
    apply matchHost_iff in Em as [?|Ha]; [done|]. intros Hd. split; [eauto|].
    intros Hb [?|Hx]; [done|]. rewrite Hx in Hd. by eapply Hsafe.
Qed.

(** A defect: an address without a host is not guarded.  The hook cannot parse [":port"] as a literal
    address and lets the dialer proceed, whatever is blocked, and the dialer assumes the local
    system: a fragment URL such as ["http://:8080/"] reaches the local host. *)
Theorem empty_host_unguarded dial cfg timeout network port :
  AllowedHosts cfg = [] → SplitHostPort (B ":" ++ port) = Ok ([], port) → ParseAddr (strip_port (B ":" ++ port)) = None →
  Control cfg network (B ":" ++ port) = None ∧
  DialContext dial cfg timeout network (B ":" ++ port)
  = dial (dial_timeout timeout) (Some (Control cfg)) network (B ":" ++ port).
Proof.
  intros Ha Hs Hp. split; [unfold Control; rewrite Hp; by destruct (BlockPrivateIPs cfg)|].
  unfold DialContext. by rewrite Hs, Ha.
Qed.
End GuardFacts.

(** A dialer that resolves every name to one address and honours the hook. *)
Definition demo_dial (resolved : str) (timeout : Z) (c : option (str → str → option str)) (network addr : str) : result str :=
  match c with
  | None => Ok resolved
  | Some c => match c network resolved with None => Ok resolved | Some e => Err e end
  end.

Lemma demo_dial_doc resolved ip : ParseAddr (strip_port resolved) = Some ip → DialerDoc (demo_dial resolved).
Proof.
  intros Hp. split.
  - intros t c network addr a. simpl. destruct (c network resolved) eqn:Ec; [done|]. intros [= <-]. eauto.
  - intros t [c|] network host port a _; simpl; [destruct (c network resolved); [done|]|]; intros [= <-]; eauto.
Qed.

Lemma dial_safe_witness :
  (∃ ip, ParseAddr (strip_port (B "93.184.216.34:443")) = Some ip ∧ in_blocked_table ip = false) ∧
  DialContext (demo_dial (B "10.0.0.7:443")) (mkSsrf true [B "*.partner.com"] false) 0 (B "tcp") (B "api.partner.com:443")
  = Err errSSRFBlocked.
Proof.
  split; [|vm_compute; reflexivity].
  refine (proj2 (dial_safe (demo_dial (B "93.184.216.34:443")) (mkSsrf true [B "*.partner.com"] false) 0 (B "tcp")
                   (B "API.partner.com:443") (B "93.184.216.34:443") _) eq_refl (or_intror eq_refl) _).
  - apply (demo_dial_doc _ (AddrV4 (ip4 93 184 216 34))). vm_compute. reflexivity.
  - vm_compute. reflexivity.
  - intros port. vm_compute. discriminate.
Defined.

(** With private addresses blocked, [":8080"] is dialled. *)
Lemma empty_host_unguarded_run :
  DialContext (demo_dial (B ":8080")) (mkSsrf true [] false) 0 (B "tcp") (B ":8080") = Ok (B ":8080").
Proof. vm_compute. reflexivity. Qed.

Lemma zoned_unspecified_not_blocked_witness :
  isIPBlocked (AddrV6 0 (B "eth0")) = false ∧
  Control (mkSsrf true [] false) (B "tcp6") (B "[::%eth0]:80") = None.
Proof.
  split; [|vm_compute; reflexivity]. apply (zoned_unspecified_not_blocked (B "eth0")). discriminate.
Defined.
