(* ===== verification/Scanner.v ===== *)
(** * The ESI scanner ([src/esi/scanner.go])

    [Scan] walks a document by byte positions and returns the fragments to
    replace.  An index expression out of range is a panic, kept as a result.
    The loop and the recursion into comment blocks run on one fuel, which [Scan]
    sets to the length of the document plus one; [scan_sound] shows that this
    never runs out. *)

From S2P Require Import Prelude GoStrings GoHttp Storage.

Definition tagESIIncludeOpen := B "<esi:include".
Definition tagESIIncludeClose := B "</esi:include>".
Definition tagESIRemoveOpen := B "<esi:remove".
Definition tagESIRemoveClose := B "</esi:remove>".
Definition tagESICommentOpen := B "<esi:comment".
Definition tagESICommentClose := B "</esi:comment>".
Definition tagESIInlineComment := B "<!--esi".
Definition tagHTMLCommentClose := B "-->".

Definition attrSrc := B "src".
Definition attrAlt := B "alt".
Definition attrTimeout := B "timeout".
Definition attrMaxDepth := B "max-depth".
Definition attrOnError := B "onerror".

Definition dquote : ascii := Ascii.ascii_of_N 34.
Definition squote : ascii := Ascii.ascii_of_N 39.

Definition isASCIIWhitespace (c : ascii) : bool :=
  byte_eqb c " " || byte_eqb c (Ascii.ascii_of_N 9) || byte_eqb c (Ascii.ascii_of_N 10)
  || byte_eqb c (Ascii.ascii_of_N 13).

(** ** [time.ParseDuration] *)
Fixpoint leadingInt (x : Z) (s : str) : option (Z * str) :=
  match s with
  | c :: s' =>
      if is_digit c then
        if (2 ^ 63 / 10 <? x)%Z then None else
        let x := (x * 10 + Z.of_N (byte_val c) - 48)%Z in
        if (2 ^ 63 <? x)%Z then None else leadingInt x s'
      else Some (x, s)
  | [] => Some (x, s)
  end.

(** The fraction's digits, the power of ten they are over, and the rest. *)
Fixpoint leadingFraction (overflow : bool) (x k : Z) (s : str) : Z * Z * str :=
  match s with
  | c :: s' =>
      if is_digit c then
        if overflow then leadingFraction overflow x k s'
        else if ((2 ^ 63 - 1) / 10 <? x)%Z then leadingFraction true x k s'
        else let y := (x * 10 + Z.of_N (byte_val c) - 48)%Z in
             if (2 ^ 63 <? y)%Z then leadingFraction true x k s'
             else leadingFraction false y (k + 1) s'
      else (x, k, s)
  | [] => (x, k, s)
  end.

Definition unit_of (u : str) : option Z :=
  if u =s B "ns" then Some 1%Z
  else if u =s B "us" then Some 1000%Z
  else if u =s Ascii.ascii_of_N 194 :: Ascii.ascii_of_N 181 :: B "s" then Some 1000%Z
  else if u =s Ascii.ascii_of_N 206 :: Ascii.ascii_of_N 188 :: B "s" then Some 1000%Z
  else if u =s B "ms" then Some 1000000%Z
  else if u =s B "s" then Some Second
  else if u =s B "m" then Some (60 * Second)%Z
  else if u =s B "h" then Some (3600 * Second)%Z
  else None.

(** [uint64(float64(f) * (float64(unit) / scale))], in rounded [float64] steps;
    [scale] is the power of ten [10 ^ k], exact in [float64] for [k <= 22]. *)
Definition fraction_nanos (f k unit : Z) : Z :=
  let '(m1, e1) := f64_round f 1 in
  let '(m2, e2) := f64_round unit (10 ^ k) in
  let e := (e1 + e2)%Z in
  f64_trunc (if (0 <=? e)%Z then f64_round (m1 * m2 * 2 ^ e) 1
             else f64_round (m1 * m2) (2 ^ (- e))).

Fixpoint duration_go (fuel : nat) (d : Z) (s : str) : option Z :=
  match fuel with
  | O => None
  | S fuel =>
    if is_nil s then Some d else
    match s with
    | [] => Some d
    | c :: _ =>
      if negb (byte_eqb c "." || is_digit c) then None else
      match leadingInt 0 s with
      | None => None
      | Some (v, s1) =>
        let pre := negb (length s1 =? length s)%nat in
        let '(f, k, s2, post) :=
          match s1 with
          | c1 :: s1' =>
              if byte_eqb c1 "." then
                let '(f, k, s2) := leadingFraction false 0 0 s1' in
                (f, k, s2, negb (length s2 =? length s1')%nat)
              else (0%Z, 0%Z, s1, false)
          | [] => (0%Z, 0%Z, s1, false)
          end in
        if negb pre && negb post then None else
        let '(u, s3) := span (λ c, negb (byte_eqb c "." || is_digit c)) s2 in
        if is_nil u then None else
        match unit_of u with
        | None => None
        | Some unit =>
          if (2 ^ 63 / unit <? v)%Z then None else
          let v := (v * unit)%Z in
          let v := if (0 <? f)%Z then (v + fraction_nanos f k unit)%Z else v in
          if (2 ^ 63 <? v)%Z then None else
          let d := (d + v)%Z in
          if (2 ^ 63 <? d)%Z then None else duration_go fuel d s3
        end
      end
    end
  end.

Definition ParseDuration (s : str) : option Z :=
  let '(neg, s) :=
    match s with
    | c :: s' => if byte_eqb c "-" then (true, s') else if byte_eqb c "+" then (false, s') else (false, s)
    | [] => (false, s)
    end in
  if s =s B "0" then Some 0%Z else
  if is_nil s then None else
  match duration_go (S (length s)) 0 s with
  | None => None
  | Some d => if neg then Some (- d)%Z
              else if (2 ^ 63 - 1 <? d)%Z then None else Some d
  end.

(** [d.Milliseconds()] truncates toward zero; here [d] is positive. *)
Definition parseTimeout (b : str) : Z :=
  let s := TrimSpace b in
  if is_nil s then 0%Z else
  match ParseDuration s with
  | Some d => if (d <=? 0)%Z then 0%Z else (d / 1000000)%Z
  | None =>
    match ParseDuration (s ++ B "s") with
    | Some d => if (d <=? 0)%Z then 0%Z else (d / 1000000)%Z
    | None => 0%Z
    end
  end.

(** ** Tag headers *)

(** [scanTagHeaderEnd]: [inQuote] is the open quote, [prev] the byte before
    position [i].  [None] is the offset -1. *)
Fixpoint tag_end_go (prev : ascii) (inQuote : option ascii) (i : nat) (s : str) : option (nat * bool) :=
  match s with
  | [] => None
  | c :: s' =>
      match inQuote with
      | Some q => tag_end_go c (if byte_eqb c q then None else inQuote) (S i) s'
      | None =>
          if byte_eqb c dquote || byte_eqb c squote then tag_end_go c (Some c) (S i) s'
          else if byte_eqb c ">" then Some (S i, byte_eqb prev "/")
          else tag_end_go c None (S i) s'
      end
  end.

Definition scanTagHeaderEnd (b : str) (tagStart : nat) : option (nat * bool) :=
  match drop tagStart b with
  | [] => None
  | c :: s => tag_end_go c None (S tagStart) s
  end.

Fixpoint skip_space (s : str) : str :=
  match s with
  | c :: s' => if isASCIIWhitespace c then skip_space s' else s
  | [] => []
  end.

(** The unquoted value at the front of [s]. *)
Fixpoint unquoted_value (s : str) : str :=
  match s with
  | [] => []
  | c :: s' =>
      if isASCIIWhitespace c || byte_eqb c ">" then []
      else if byte_eqb c "/" && match s' with [] => true | d :: _ => byte_eqb d ">" end then []
      else c :: unquoted_value s'
  end.

(** The loop of [extractAttributeRaw] at position [idx] of [tagHeader]. *)
Fixpoint attribute_go (fuel : nat) (tagHeader attrName : str) (idx : nat) : str :=
  match fuel with
  | O => []
  | S fuel =>
    if (length tagHeader <=? idx)%nat then [] else
    match Index (drop idx tagHeader) attrName with
    | None => []
    | Some matchIdx =>
      let attrStart := (idx + matchIdx)%nat in
      let validBefore := (attrStart =? 0)%nat
        || from_option isASCIIWhitespace false (tagHeader !! pred attrStart) in
      let afterIdx := (attrStart + length attrName)%nat in
      if negb validBefore || (length tagHeader <=? afterIdx)%nat
      then attribute_go fuel tagHeader attrName afterIdx
      else
        match skip_space (drop afterIdx tagHeader) with
        | c :: rest =>
            if byte_eqb c "=" then
              match skip_space rest with
              | [] => []
              | quote :: val =>
                  if byte_eqb quote dquote || byte_eqb quote squote then
                    match IndexByte val quote with
                    | None => val
                    | Some valEndRel => take valEndRel val
                    end
                  else unquoted_value (quote :: val)
              end
            else attribute_go fuel tagHeader attrName afterIdx
        | [] => attribute_go fuel tagHeader attrName afterIdx
        end
    end
  end.

Definition extractAttributeRaw (tagHeader attrName : str) : str :=
  attribute_go (S (length tagHeader)) tagHeader attrName 0.
Definition extractAttribute (tagHeader attrName : str) : str := extractAttributeRaw tagHeader attrName.

(** A fragment that only removes the bytes from [s] to [e]. *)
Definition strip_fragment (s e : nat) : EsiFragment :=
  mkEsiFragment (Z.of_nat s) (Z.of_nat e) [] [] [] 0 0 0 0.

Definition parseESIInclude (b : str) (tagStart : nat) : option EsiFragment * nat :=
  match scanTagHeaderEnd b tagStart with
  | None => (None, S tagStart)
  | Some (tagEndOffset, isSelfClosing) =>
      let hdrEnd := if isSelfClosing then (tagEndOffset - 2)%nat else (tagEndOffset - 1)%nat in
      let tagHeader := take (hdrEnd - tagStart) (drop tagStart b) in
      let src := extractAttribute tagHeader attrSrc in
      let alt := extractAttribute tagHeader attrAlt in
      let timeoutRaw := extractAttributeRaw tagHeader attrTimeout in
      let maxDepthRaw := extractAttributeRaw tagHeader attrMaxDepth in
      let onError := extractAttribute tagHeader attrOnError in
      let timeoutMs := if is_nil timeoutRaw then 0%Z else parseTimeout timeoutRaw in
      let maxDepth := if is_nil maxDepthRaw then 0%Z
                      else default 0%Z (ParseUint (TrimSpace maxDepthRaw) 32) in
      let frag e i1 i2 := mkEsiFragment (Z.of_nat tagStart) (Z.of_nat e) src alt onError
                            maxDepth timeoutMs (Z.of_nat i1) (Z.of_nat i2) in
      if isSelfClosing then (Some (frag tagEndOffset 0%nat 0%nat), tagEndOffset)
      else
        match Index (drop tagEndOffset b) tagESIIncludeClose with
        | Some closeIdx =>
            let bodyEnd := (tagEndOffset + closeIdx)%nat in
            let fullEnd := (bodyEnd + length tagESIIncludeClose)%nat in
            (Some (frag fullEnd tagEndOffset bodyEnd), fullEnd)
        | None => (Some (frag tagEndOffset 0%nat 0%nat), tagEndOffset)
        end
  end.

(** ** The scan *)
Inductive scan_result :=
  | Scanned (l : list EsiFragment)
  | IndexPanic
  | NoFuel.

Definition scan_cons (pre : list EsiFragment) (r : scan_result) : scan_result :=
  match r with Scanned l => Scanned (pre ++ l) | _ => r end.

(** The fragments of a comment block, moved to their place in the document. *)
Definition shift_fragment (off : nat) (f : EsiFragment) : EsiFragment :=
  let o := Z.of_nat off in
  let inner := (0 <? InnerStartPos f)%Z in
  mkEsiFragment (StartPos f + o) (EndPos f + o) (Src f) (Alt f) (OnError f) (MaxDepth f) (TimeoutMs f)
    (if inner then InnerStartPos f + o else InnerStartPos f)%Z
    (if inner then InnerEndPos f + o else InnerEndPos f)%Z.

Definition has_esi (b : str) : bool := Contains b (B "<esi:") || Contains b tagESIInlineComment.

(** What one position of the loop decides: where to go on, with the fragments
    found, or a comment block to scan first. *)
Inductive scan_move :=
  | Goto (pos : nat) (frags : list EsiFragment)
  | Block (contentStart commentCloseStart : nat)
  | Crash.

Definition at_tag (b : str) (tagStart : nat) (tag : str) : bool := HasPrefix (drop tagStart b) tag.

Definition comment_move (b : str) (tagStart : nat) : scan_move :=
  if at_tag b tagStart tagESICommentOpen then
    match b !! (tagStart + length tagESICommentOpen)%nat with
    | None => Crash
    | Some nextChar =>
        if isASCIIWhitespace nextChar || byte_eqb nextChar "/" || byte_eqb nextChar ">" then
          match scanTagHeaderEnd b tagStart with
          | Some (endOffset, true) => Goto endOffset [strip_fragment tagStart endOffset]
          | Some (endOffset, false) =>
              match Index (drop endOffset b) tagESICommentClose with
              | Some closeIdx =>
                  let tagEnd := (endOffset + closeIdx + length tagESICommentClose)%nat in
                  Goto tagEnd [strip_fragment tagStart tagEnd]
              | None => Goto (S tagStart) []
              end
          | None => Goto (S tagStart) []
          end
        else Goto (S tagStart) []
    end
  else Goto (S tagStart) [].

Definition remove_move (b : str) (tagStart : nat) : scan_move :=
  if at_tag b tagStart tagESIRemoveOpen then
    match b !! (tagStart + length tagESIRemoveOpen)%nat with
    | None => Crash
    | Some nextChar =>
        if isASCIIWhitespace nextChar || byte_eqb nextChar ">" then
          match Index (drop tagStart b) tagESIRemoveClose with
          | Some closeIdx =>
              let tagEnd := (tagStart + closeIdx + length tagESIRemoveClose)%nat in
              Goto tagEnd [strip_fragment tagStart tagEnd]
          | None => comment_move b tagStart
          end
        else comment_move b tagStart
    end
  else comment_move b tagStart.

Definition include_move (b : str) (tagStart : nat) : scan_move :=
  if at_tag b tagStart tagESIIncludeOpen then
    match b !! (tagStart + length tagESIIncludeOpen)%nat with
    | None => Crash
    | Some nextChar =>
        if isASCIIWhitespace nextChar || byte_eqb nextChar "/" || byte_eqb nextChar ">" then
          let '(frag, nextPos) := parseESIInclude b tagStart in
          Goto nextPos (option_list frag)
        else remove_move b tagStart
    end
  else remove_move b tagStart.

Definition tag_move (b : str) (tagStart : nat) : scan_move :=
  if at_tag b tagStart tagESIInlineComment then
    let contentStart := (tagStart + length tagESIInlineComment)%nat in
    match Index (drop contentStart b) tagHTMLCommentClose with
    | Some closeIdx => Block contentStart (contentStart + closeIdx)%nat
    | None => Goto contentStart [strip_fragment tagStart contentStart]
    end
  else include_move b tagStart.

(** The loop of [Scan] at position [pos]. *)
Fixpoint scan_loop (fuel : nat) (b : str) (pos : nat) : scan_result :=
  match fuel with
  | O => NoFuel
  | S fuel =>
    if (length b <=? pos)%nat then Scanned [] else
    match IndexByte (drop pos b) "<" with
    | None => Scanned []
    | Some nextIdx =>
      let tagStart := (pos + nextIdx)%nat in
      match tag_move b tagStart with
      | Crash => IndexPanic
      | Goto pos' frags => scan_cons frags (scan_loop fuel b pos')
      | Block contentStart commentCloseStart =>
          let innerBlock := take (commentCloseStart - contentStart) (drop contentStart b) in
          let commentCloseEnd := (commentCloseStart + length tagHTMLCommentClose)%nat in
          match (if has_esi innerBlock then scan_loop fuel innerBlock 0 else Scanned []) with
          | Scanned inner =>
              scan_cons ([strip_fragment tagStart contentStart] ++ (shift_fragment contentStart <$> inner)
                         ++ [strip_fragment commentCloseStart commentCloseEnd])
                        (scan_loop fuel b commentCloseEnd)
          | r => r
          end
      end
    end
  end.

Definition Scan (b : str) : scan_result :=
  if has_esi b then scan_loop (S (length b)) b 0 else Scanned [].

Lemma scan_example :
  Scan (B "a<esi:include src='/x' timeout=1.5 max-depth=2/>b<!--esi c-->d<esi:remove>z</esi:remove>")
  = Scanned [mkEsiFragment 1 48 (B "/x") [] [] 2 1500 0 0; strip_fragment 49 56; strip_fragment 58 61;
             strip_fragment 62 88].
Proof. vm_compute. reflexivity. Qed.

(** ** Well-formed fragments

    Fragments in document order, disjoint, within [lo, hi], each at least one byte
    long; the inner range of a paired include lies inside its fragment. *)
Definition inner_ok (f : EsiFragment) : Prop :=
  (InnerStartPos f = 0 ∧ InnerEndPos f = 0)%Z ∨
  (0 < InnerStartPos f ∧ StartPos f < InnerStartPos f ≤ InnerEndPos f ∧ InnerEndPos f < EndPos f)%Z.

Fixpoint frags_ok (lo hi : Z) (l : list EsiFragment) : Prop :=
  match l with
  | [] => (lo ≤ hi)%Z
  | f :: l' => (lo ≤ StartPos f < EndPos f)%Z ∧ inner_ok f ∧ frags_ok (EndPos f) hi l'
  end.

(** An opening tag at the very end of the document, or right before the end of
    a comment. *)
Definition open_tags : list str := [tagESIIncludeOpen; tagESIRemoveOpen; tagESICommentOpen].
Definition truncated_tag (b : str) : Prop :=
  ∃ pre tag post, tag ∈ open_tags ∧ b = pre ++ tag ++ post ∧
                  (post = [] ∨ HasPrefix post tagHTMLCommentClose = true).

(** ** Facts *)
Lemma frags_ok_le lo hi l : frags_ok lo hi l → (lo ≤ hi)%Z.
Proof.
  revert lo. induction l as [|f l IH]; intros lo; simpl; [done|].
  intros (? & _ & ?%IH). lia.
Qed.

Lemma frags_ok_app lo mid hi l1 l2 :
  frags_ok lo mid l1 → frags_ok mid hi l2 → frags_ok lo hi (l1 ++ l2).
Proof.
  revert lo. induction l1 as [|f l1 IH]; intros lo; simpl.
  - intros Hle H2. destruct l2 as [|f l2]; simpl in *; [lia|]. destruct H2 as (? & ? & ?).
    split; [lia|done].
  - intros (? & ? & ?) ?. split; [done|]. split; [done|]. by apply IH.
Qed.

Lemma frags_ok_shift o lo hi l :
  (0 ≤ lo)%Z → frags_ok lo hi l →
  frags_ok (lo + Z.of_nat o) (hi + Z.of_nat o) (shift_fragment o <$> l).
Proof.
  revert lo. induction l as [|f l IH]; intros lo Hlo; csimpl; [lia|].
  intros (Hf & Hi & Hl). split; [simpl; lia|]. split; [|apply IH; [lia|done]].
  unfold inner_ok, shift_fragment in *. simpl.
  destruct Hi as [[-> ->]|(H0 & H1 & H2)]; [by left|]. right.
  assert ((0 <? InnerStartPos f)%Z = true) as -> by lia. lia.
Qed.

Lemma strip_ok lo s e : (lo ≤ Z.of_nat s)%Z → (s < e)%nat → frags_ok lo (Z.of_nat e) [strip_fragment s e].
Proof. intros. simpl. split; [lia|]. split; [by left|lia]. Qed.

Lemma tag_end_go_spec prev q i s e sc :
  tag_end_go prev q i s = Some (e, sc) → (i < e ≤ i + length s)%nat.
Proof.
  revert prev q i. induction s as [|c s IH]; intros prev q i; simpl; [done|].
  destruct q as [q|]; [intros ?%IH; lia|].
  case_if; [intros ?%IH; lia|]. case_if; [intros [= <- _]; lia|]. intros ?%IH; lia.
Qed.

Lemma scanTagHeaderEnd_spec b t e sc :
  scanTagHeaderEnd b t = Some (e, sc) → (S t < e ≤ length b)%nat.
Proof.
  unfold scanTagHeaderEnd. destruct (drop t b) as [|c s] eqn:Hd; [done|].
  intros H%tag_end_go_spec. assert (length (drop t b) = S (length s)) as Hl by (by rewrite Hd).
  rewrite length_drop in Hl. lia.
Qed.

Lemma Index_drop_bound b t p i :
  Index (drop t b) p = Some i → (t ≤ length b)%nat → (t + i + length p ≤ length b)%nat.
Proof. intros [H _]%Index_Some Ht. rewrite length_drop in H. lia. Qed.

Lemma at_tag_bound b t tag :
  at_tag b t tag = true → tag ≠ [] → (t + length tag ≤ length b)%nat.
Proof.
  unfold at_tag. intros [k Hk]%HasPrefix_spec Hne.
  assert (length (drop t b) = length tag + length k)%nat as Hl by (by rewrite Hk, length_app).
  rewrite length_drop in Hl. destruct tag; [done|]. simpl in *. lia.
Qed.

(** What a move promises: progress, within the document, fragments in order. *)
Definition move_ok (b : str) (t : nat) (m : scan_move) : Prop :=
  match m with
  | Goto p fs => (t < p ≤ length b)%nat ∧ frags_ok (Z.of_nat t) (Z.of_nat p) fs
  | Block cs cc => (t < cs ≤ cc)%nat ∧ (cc + length tagHTMLCommentClose ≤ length b)%nat
  | Crash => ∃ tag, tag ∈ open_tags ∧ drop t b = tag
  end.

Lemma crash_at b t tag :
  at_tag b t tag = true → tag ≠ [] → b !! (t + length tag)%nat = None → drop t b = tag.
Proof.
  intros H Hne Hn. pose proof (at_tag_bound b t tag H Hne). unfold at_tag in H.
  apply HasPrefix_spec in H as [k Hk]. apply lookup_ge_None in Hn.
  assert (length (drop t b) = length tag + length k)%nat as Hl by (by rewrite Hk, length_app).
  rewrite length_drop in Hl. destruct k; [by rewrite app_nil_r in Hk|]. simpl in Hl. lia.
Qed.

Lemma comment_move_ok b t : (t < length b)%nat → move_ok b t (comment_move b t).
Proof.
  intros Ht. unfold comment_move. destruct (at_tag _ _ _) eqn:Ea; [|split; [lia|simpl; lia]].
  destruct (b !! _) as [c|] eqn:Ec.
  2: { exists tagESICommentOpen. split; [by right; right; left|]. by apply crash_at. }
  case_if; [|split; [lia|simpl; lia]].
  destruct (scanTagHeaderEnd b t) as [[e []]|] eqn:Es.
  - apply scanTagHeaderEnd_spec in Es. split; [lia|]. apply strip_ok; lia.
  - apply scanTagHeaderEnd_spec in Es. destruct (Index _ _) as [i|] eqn:Ei; [|split; [lia|simpl; lia]].
    apply Index_drop_bound in Ei; [|lia]. split; [lia|]. apply strip_ok; lia.
  - split; [lia|simpl; lia].
Qed.

Lemma remove_move_ok b t : (t < length b)%nat → move_ok b t (remove_move b t).
Proof.
  intros Ht. unfold remove_move. destruct (at_tag _ _ _) eqn:Ea; [|by apply comment_move_ok].
  destruct (b !! _) as [c|] eqn:Ec.
  2: { exists tagESIRemoveOpen. split; [by right; left|]. by apply crash_at. }
  case_if; [|by apply comment_move_ok].
  destruct (Index _ _) as [i|] eqn:Ei; [|by apply comment_move_ok].
  apply Index_drop_bound in Ei; [|lia]. change (length tagESIRemoveClose) with 13%nat in *.
  split; [lia|]. apply strip_ok; lia.
Qed.

Lemma parseESIInclude_ok b t f p :
  (t < length b)%nat → parseESIInclude b t = (f, p) → move_ok b t (Goto p (option_list f)).
Proof.
  intros Ht. unfold parseESIInclude.
  destruct (scanTagHeaderEnd b t) as [[e sc]|] eqn:Es; [|intros [= <- <-]; split; [lia|simpl; lia]].
  apply scanTagHeaderEnd_spec in Es. destruct sc.
  - intros [= <- <-]. split; [lia|]. simpl. split; [lia|]. split; [by left|lia].
  - destruct (Index _ _) as [i|] eqn:Ei; intros [= <- <-].
    + apply Index_drop_bound in Ei; [|lia]. change (length tagESIIncludeClose) with 14%nat in *.
      split; [lia|]. simpl. split; [lia|]. split; [|lia]. right. simpl. lia.
    + split; [lia|]. simpl. split; [lia|]. split; [by left|lia].
Qed.

Lemma tag_move_ok b t : (t < length b)%nat → move_ok b t (tag_move b t).
Proof.
  intros Ht. unfold tag_move. destruct (at_tag b t tagESIInlineComment) eqn:Ea.
  - apply at_tag_bound in Ea; [|done]. change (length tagESIInlineComment) with 7%nat in *.
    destruct (Index _ _) as [i|] eqn:Ei.
    + apply Index_drop_bound in Ei; [|lia]. split; lia.
    + split; [lia|]. apply strip_ok; lia.
  - unfold include_move. destruct (at_tag b t tagESIIncludeOpen) eqn:Ei; [|by apply remove_move_ok].
    destruct (b !! _) as [c|] eqn:Ec.
    2: { exists tagESIIncludeOpen. split; [by left|]. by apply crash_at. }
    case_if; [|by apply remove_move_ok].
    destruct (parseESIInclude b t) as [f p] eqn:Ep. by apply parseESIInclude_ok.
Qed.

(** A truncated tag inside a comment block is one of the document. *)
Lemma truncated_block x inner y :
  truncated_tag inner → truncated_tag (x ++ inner ++ tagHTMLCommentClose ++ y).
Proof.
  intros (pre & tag & post & Hin & -> & Hp). exists (x ++ pre), tag, (post ++ tagHTMLCommentClose ++ y).
  split; [done|]. split; [by rewrite <- !app_assoc|]. right. destruct Hp as [->|Hp].
  - rewrite app_nil_l. apply HasPrefix_app.
  - apply HasPrefix_spec in Hp as [k ->]. rewrite <- app_assoc. apply HasPrefix_app.
Qed.

Lemma IndexByte_app c pre rest : c ∉ pre → IndexByte (pre ++ c :: rest) c = Some (length pre).
Proof.
  unfold IndexByte. induction pre as [|x pre IH]; intros Hn.
  - simpl. by rewrite byte_eqb_refl.
  - cbn [app Index]. rewrite IH by set_solver.
    assert (HasPrefix (x :: pre ++ c :: rest) [c] = false) as ->; [|done].
    apply not_true_is_false. intros [k [= ->]]%HasPrefix_spec. set_solver.
Qed.

Lemma IndexByte_drop_bound b pos c i :
  IndexByte (drop pos b) c = Some i → (pos ≤ length b)%nat → (pos + i < length b)%nat.
Proof. intros H Hp. pose proof (Index_drop_bound b pos [c] i H Hp). simpl in *. lia. Qed.

(** The block that [Index] cuts out, and what surrounds it. *)
Lemma block_split b cs cc :
  Index (drop cs b) tagHTMLCommentClose = Some (cc - cs)%nat → (cs ≤ cc)%nat →
  ∃ y, b = take cs b ++ take (cc - cs) (drop cs b) ++ tagHTMLCommentClose ++ y.
Proof.
  intros [_ H]%Index_Some Hle. exists (drop (cc - cs + length tagHTMLCommentClose) (drop cs b)).
  rewrite <- H. by rewrite take_drop.
Qed.

Lemma Block_inj a b c d : Block a b = Block c d → c = a ∧ d = b.
Proof. by intros [=]. Qed.

Lemma tag_move_block b t cs cc :
  tag_move b t = Block cs cc → Index (drop cs b) tagHTMLCommentClose = Some (cc - cs)%nat ∧ (cs ≤ cc)%nat.
Proof.
  unfold tag_move. destruct (at_tag b t tagESIInlineComment).
  - destruct (Index _ _) as [i|] eqn:Ei; [|done]. intros [-> ->]%Block_inj. split; [|lia].
    rewrite Ei. f_equal. lia.
  - unfold include_move, remove_move, comment_move. repeat (case_match; try done).
Qed.

(** The outcome of the loop from [pos], given enough fuel. *)
Definition scan_ok (b : str) (pos : nat) (r : scan_result) : Prop :=
  match r with
  | Scanned l => frags_ok (Z.of_nat pos) (Z.of_nat (length b)) l
  | IndexPanic => truncated_tag b
  | NoFuel => False
  end.

Lemma scan_ok_cons b pos p fs r :
  frags_ok (Z.of_nat pos) (Z.of_nat p) fs → scan_ok b p r → scan_ok b pos (scan_cons fs r).
Proof. destruct r; simpl; [apply frags_ok_app|done|done]. Qed.

Lemma frags_ok_weaken lo lo' hi l : (lo' ≤ lo)%Z → frags_ok lo hi l → frags_ok lo' hi l.
Proof.
  intros Hle. destruct l; simpl; [lia|]. intros (? & ? & ?). split; [lia|done].
Qed.

Lemma scan_loop_ok fuel b pos :
  (pos ≤ length b)%nat → (length b - pos < fuel)%nat → scan_ok b pos (scan_loop fuel b pos).
Proof.
  revert b pos. induction fuel as [|fuel IH]; intros b pos Hp Hf; [lia|]. simpl.
  destruct (length b <=? pos)%nat eqn:El; [simpl; lia|]. apply Nat.leb_gt in El.
  destruct (IndexByte (drop pos b) "<") as [i|] eqn:Ei; [|simpl; lia].
  apply IndexByte_drop_bound in Ei; [|done]. set (t := (pos + i)%nat) in *.
  pose proof (tag_move_ok b t Ei) as Hm. destruct (tag_move b t) as [p fs|cs cc|] eqn:Em.
  - destruct Hm as [Hp' Hfs]. apply (scan_ok_cons b pos p); [|apply IH; lia].
    eapply frags_ok_weaken; [|exact Hfs]. lia.
  - apply tag_move_block in Em as [Hidx Hle]. destruct Hm as [Ht Hcc].
    change (length tagHTMLCommentClose) with 3%nat in *.
    destruct (block_split b cs cc Hidx Hle) as [y Hb].
    set (inner := take (cc - cs) (drop cs b)) in *.
    assert (length inner = (cc - cs)%nat) as Hli by (unfold inner; rewrite length_take, length_drop; lia).
    assert (scan_ok inner 0 (if has_esi inner then scan_loop fuel inner 0 else Scanned [])) as Hin.
    { case_if; [apply IH; lia|simpl; lia]. }
    destruct (if has_esi inner then _ else _) as [l| |]; [|rewrite Hb; by apply truncated_block|done].
    apply (scan_ok_cons b pos (cc + 3)); [|apply IH; lia].
    refine (frags_ok_app _ (Z.of_nat cs) _ [strip_fragment t cs] _ _ _); [apply strip_ok; lia|].
    apply (frags_ok_app _ (Z.of_nat cc)); [|apply strip_ok; lia].
    simpl in Hin. apply (frags_ok_shift cs) in Hin; [|lia]. rewrite Hli in Hin.
    replace (Z.of_nat (cc - cs) + Z.of_nat cs)%Z with (Z.of_nat cc) in Hin by lia. exact Hin.
  - destruct Hm as (tag & Htag & Hd). exists (take t b), tag, []. split; [done|].
    split; [|by left]. by rewrite app_nil_r, <- Hd, take_drop.
Qed.

Lemma Scan_ok b : scan_ok b 0 (Scan b).
Proof. unfold Scan. case_if; [|simpl; lia]. apply (scan_loop_ok (S (length b)) b 0); lia. Qed.

(** ** Properties *)

(** C37: scanning terminates on every document, and its fragments are in
    document order, disjoint, inside the document, with inner ranges inside
    their tags; the only way to fail is an opening tag cut off at the end of the
    document or of a comment, where the code indexes past the end. *)
Theorem scan_sound b :
  match Scan b with
  | Scanned l => frags_ok 0 (Z.of_nat (length b)) l
  | IndexPanic => truncated_tag b
  | NoFuel => False
  end.
Proof. exact (Scan_ok b). Qed.

(** A defect: a document that ends in an opening tag makes the scanner
    panic (index out of range) instead of returning no fragment. *)
Theorem scan_truncated_panics pre tag :
  "<"%char ∉ pre → tag ∈ open_tags → Scan (pre ++ tag) = IndexPanic.
Proof.
  intros Hpre Htag. unfold Scan.
  assert (∃ s, tag = B "<esi:" ++ s) as [s Hs].
  { unfold open_tags in Htag. rewrite !elem_of_cons, elem_of_nil in Htag.
    destruct Htag as [->|[->|[->|[]]]]; by eexists. }
  assert (has_esi (pre ++ tag) = true) as ->.
  { unfold has_esi. apply orb_true_iff. left. apply Contains_spec. exists pre, s. by rewrite Hs. }
  cbn [scan_loop]. rewrite drop_0.
  assert (tag ≠ []) as Hne by (by rewrite Hs).
  assert ((length (pre ++ tag) <=? 0)%nat = false) as ->.
  { apply Nat.leb_gt. rewrite length_app. destruct tag; [done|simpl; lia]. }
  assert (IndexByte (pre ++ tag) "<" = Some (length pre)) as ->.
  { rewrite Hs. by apply IndexByte_app. }
  rewrite Nat.add_0_l.
  assert (tag_move (pre ++ tag) (length pre) = Crash) as ->; [|done].
  unfold tag_move, include_move, remove_move, comment_move, at_tag. rewrite drop_app_length.
  unfold open_tags in Htag. rewrite !elem_of_cons, elem_of_nil in Htag.
  destruct Htag as [->|[->|[->|[]]]]; simpl; rewrite lookup_ge_None_2; try done; rewrite length_app; simpl; lia.
Qed.

Lemma scan_truncated_panics_witness : Scan (B "hi<esi:remove") = IndexPanic.
Proof.
  apply (scan_truncated_panics (B "hi") tagESIRemoveOpen); [|by right; left].
  apply (bool_decide_unpack _). vm_compute. exact I.
Defined.
