(* ===== verification/Esi.v ===== *)
(** * The ESI processor ([src/esi/processor.go], URL checks of [src/esi/ssrf.go])

    Header handling, fragment fetching with recursion, fallbacks, and splicing.
    Parameters are the in-process fetcher (a callback of the embedding program) and the HTTP client
    ([http_Do]), both called with the execution state of the fragment, which the context of the
    request carries to a processor that answers it in turn; a deadline that cuts a fetch off is an error they return, and
    [alt_budget] says whether time is left to try the alternative of a fragment ([Budget] computes it);
    what is recorded of fragments is in [EsiMetrics].
    Here the fragments of a document are fetched one after the other; the goroutines that do so
    concurrently ([Workers]), and share the fetch of equal URLs ([Flight], [FlightFetch]), give
    the same results. *)

From S2P Require Import Prelude GoStrings GoHttp Env Headers Storage Scanner.

Definition headerSurrogateCapability := B "Surrogate-Capability".
Definition headerContentLength := B "Content-Length".

(** The ESI configuration; the in-process fetcher and the HTTP client are
    arguments of the processing functions instead. *)
Record esiConfig := mkEsiConfig {
  requireSurrogateControl : bool;
  maxDepth : Z;
  maxTimeout : Z;
  maxConcurrentRequests : Z;
  allowPrivateIPs : bool;
  allowedHosts : list str;
  allowPrivateIPsForAllowedHosts : bool;
  maxResponseSize : Z;
  disableForwardCookies : bool;
  preserveETag : bool;
  includeErrorMarker : str;
}.

(** The defaults of [NewProcessor]. *)
Definition defaultEsiConfig : esiConfig :=
  mkEsiConfig true 3 (30 * Second) 8 false [] false (10 * 1024 * 1024) false false [].

Inductive fetcher_result :=
  | Fetched (body : str) (headers : Header)
  | FallbackToHTTP
  | FetchFailed
  | FetchPanicked.

(** [*http.Response]: status, headers, and the body or a read error. *)
Record Response := mkResponse {
  resp_StatusCode : Z;
  resp_Header : Header;
  resp_Body : result str;
}.

(** [Result]: the assembled body and the cookies of the fragments. *)
Record Result := mkResult {
  res_Body : str;
  res_setCookies : list str;
}.

Definition visitedNode := list str.
Definition visited_contains (n : visitedNode) (target : str) : bool := slices_contains n target.

Record esiExecutionState := mkState {
  st_depth : Z;
  st_maxDepth : Z;
  st_visited : visitedNode;
}.

Record fragmentResult := mkFragmentResult {
  fr_spec : EsiFragment;
  fr_body : str;
  fr_err : bool;
  fr_setCookies : list str;
}.

(** ** Pure helpers *)
Definition esi10 : str := [dquote] ++ B "ESI/1.0" ++ [dquote].
Definition surrogateCapabilityTitip : str := B "titip=" ++ esi10.

Definition addSurrogateCapability (h : Header) (deviceToken : str) : Header :=
  let capability := if is_nil deviceToken || (deviceToken =s B "titip") then surrogateCapabilityTitip
                    else deviceToken ++ B "=" ++ esi10 in
  let existing := h_Get h headerSurrogateCapability in
  if is_nil existing then h_Set h headerSurrogateCapability capability
  else if negb (Contains existing capability)
  then h_Set h headerSurrogateCapability (existing ++ B ", " ++ capability)
  else h.

Definition cloneRequestHeader (h : Header) : Header :=
  match default [] (h !! headerSurrogateCapability) with
  | [] => <[headerSurrogateCapability := [surrogateCapabilityTitip]]> h
  | existing :: _ =>
      if Contains existing surrogateCapabilityTitip then h
      else <[headerSurrogateCapability := [existing ++ B ", " ++ surrogateCapabilityTitip]]> h
  end.

Definition containsESI (s : str) : bool := Contains s (B "ESI/1.0") || Contains s (B "esi/1.0").

Definition safeSlice (body : str) (start stop : Z) : str :=
  if (start <=? 0)%Z || (stop <=? start)%Z || (Z.of_nat (length body) <? stop)%Z then []
  else take (Z.to_nat (stop - start)) (drop (Z.to_nat start) body).

Fixpoint hasDuplicateURLs (fragments : list EsiFragment) : bool :=
  match fragments with
  | [] => false
  | f :: rest =>
      (negb (is_nil (Src f)) && existsb (λ other, Src f =s Src other) rest) || hasDuplicateURLs rest
  end.

Definition stripDefaultPort (h : str) : str := TrimSuffix (TrimSuffix h (B ":80")) (B ":443").

(** [spliceFragments]: [lastPos] and the output so far run through the loop. *)
Definition slice (b : str) (i j : Z) : str := take (Z.to_nat (j - i)) (drop (Z.to_nat i) b).

Definition splice_step (parent : str) (acc : Z * str) (res : fragmentResult) : Z * str :=
  let '(lastPos, out) := acc in
  let start := StartPos (fr_spec res) in
  let stop := EndPos (fr_spec res) in
  let parentLen := Z.of_nat (length parent) in
  if (start <? lastPos)%Z || (parentLen <? start)%Z || (parentLen <? stop)%Z || (stop <? start)%Z
  then acc
  else (stop, out ++ slice parent lastPos start ++ fr_body res).

Definition spliceFragments (parent : str) (results : list fragmentResult) : str :=
  if is_nil results then parent else
  let '(lastPos, out) := foldl (splice_step parent) (0%Z, []) results in
  if (lastPos <? Z.of_nat (length parent))%Z then out ++ drop (Z.to_nat lastPos) parent else out.

Section Esi.
Context {E : GoEnv}.

Definition CanProcess (cfg : esiConfig) (h : Header) : bool :=
  if negb (requireSurrogateControl cfg) then true else
  match h !! headerSurrogateControl with
  | Some vals => existsb containsESI vals
  | None =>
      match List.find (λ kv, EqualFold kv.1 headerSurrogateControl) (range h) with
      | Some (_, vv) => existsb containsESI vv
      | None => false
      end
  end.

(** The values of Surrogate-Control and the key they are stored under. *)
Definition surrogate_entry (h : Header) : option (str * list str) :=
  match h !! headerSurrogateControl with
  | Some vals => Some (headerSurrogateControl, vals)
  | None => List.find (λ kv, EqualFold kv.1 headerSurrogateControl) (range h)
  end.

Definition remaining_directives (vals : list str) : list str :=
  vals ≫= λ val,
    if negb (containsESI val) then [val]
    else List.filter (λ t, negb (is_nil t) && negb (containsESI t)) (TrimSpace <$> SplitSeq val ",").

Definition CleanSurrogateControl (h : Header) : Header :=
  match surrogate_entry h with
  | None => h
  | Some (key, vals) =>
      if negb (existsb containsESI vals) then h else
      let remaining := remaining_directives vals in
      let h := if key <>s headerSurrogateControl then delete key h else h in
      if is_nil remaining then delete headerSurrogateControl h
      else <[headerSurrogateControl := [join (B ", ") remaining]]> h
  end.

Definition ReconcileHeaders (cfg : esiConfig) (h : Header) (res : option Result) : Header :=
  let h := CleanSurrogateControl h in
  let h :=
    if preserveETag cfg then
      let etag := h_Get h headerETag in
      if negb (is_nil etag) && negb (HasPrefix etag (B "W/")) && negb (HasPrefix etag (B "w/"))
      then h_Set h headerETag (B "W/" ++ etag) else h
    else h_Del (h_Del h headerETag) headerLastModified in
  match res with
  | None => h
  | Some res =>
      let h := if is_nil (h_Get h headerContentLength) then h
               else h_Set h headerContentLength (itoa (Z.of_nat (length (res_Body res)))) in
      foldl (λ h cookie, h_Add h headerSetCookie cookie) h (res_setCookies res)
  end.

Definition resolveFallback (cfg : esiConfig) (innerBody onError : str) : str :=
  if negb (is_nil innerBody) then innerBody
  else if EqualFold onError (B "continue") then []
  else includeErrorMarker cfg.

Definition validateURLScheme (rawURL : str) : result URL :=
  if is_nil rawURL then Err (B "esi: invalid or dangerous url scheme: empty url") else
  if HasPrefix rawURL (B "/") then
    if HasPrefix rawURL (B "//")
    then Err (B "esi: invalid or dangerous url scheme: scheme-relative url not permitted")
    else if negb (ContainsAny rawURL (B "?#%")) then Ok (mkURL [] [] rawURL [])
    else match url_Parse rawURL with
         | None => Err (B "esi: invalid or dangerous url scheme: parse")
         | Some parsed => Ok parsed
         end
  else
    match url_Parse rawURL with
    | None => Err (B "esi: invalid or dangerous url scheme: parse")
    | Some parsed =>
        let scheme := ToLower (u_Scheme parsed) in
        if (scheme <>s B "http") && (scheme <>s B "https")
        then Err (B "esi: invalid or dangerous url scheme: not permitted")
        else Ok parsed
    end.

(** ** Fetching *)
Context (cfg : esiConfig)
        (internalFetcher : option (esiExecutionState → str → Request → fetcher_result))
        (http_Do : esiExecutionState → Request → result Response)
        (alt_budget : EsiFragment → bool).

Definition too_large (body : str) : bool :=
  (0 <? maxResponseSize cfg)%Z && (maxResponseSize cfg <? Z.of_nat (length body))%Z.

Definition forwarded_cookies (h : Header) : list str :=
  if disableForwardCookies cfg then [] else default [] (h !! headerSetCookie).

Definition fetchViaCustomFetcher (fetcher : esiExecutionState → str → Request → fetcher_result) (parentReq : Request)
    (targetPath : str) (state : esiExecutionState) : fetcher_result :=
  match fetcher state targetPath (req_with_header parentReq (cloneRequestHeader (r_Header parentReq))) with
  | Fetched body headers => if too_large body then FetchFailed else Fetched body headers
  | r => r
  end.

(** The headers of an outbound request for a URL of host [host]. *)
Definition outbound_header (parentReq : Request) (host : str) : Header :=
  let h := h_Set ∅ (B "Accept-Encoding") (B "identity") in
  let h := addSurrogateCapability h (B "titip") in
  let ph := r_Header parentReq in
  let ua := h_Get ph (B "User-Agent") in
  let h := if is_nil ua then h else h_Set h (B "User-Agent") ua in
  let al := h_Get ph (B "Accept-Language") in
  let h := if is_nil al then h else h_Set h (B "Accept-Language") al in
  let isSameHost := is_nil host
    || EqualFold (stripDefaultPort host) (stripDefaultPort (r_Host parentReq)) in
  if isSameHost then
    let h := foldl (λ h c, h_Add h (B "Cookie") c) h (h_Values ph (B "Cookie")) in
    let auth := h_Get ph headerAuthorization in
    if is_nil auth then h else h_Set h headerAuthorization auth
  else h.

(** [http.NewRequestWithContext] drops an empty port from the host. *)
Definition NewRequest (target : str) (h : str → Header) : option Request :=
  (λ u, let host := TrimSuffix (u_Host u) (B ":") in
        mkRequest (B "GET") (Some (mkURL (u_Scheme u) host (u_Path u) (u_RawQuery u))) host (h host) false)
  <$> url_Parse target.

Definition fetchOutboundHTTP (parentReq : Request) (targetURL : str) (state : esiExecutionState) : result (str * list str) :=
  match NewRequest targetURL (outbound_header parentReq) with
  | None => Err (B "parse")
  | Some req =>
    match http_Do state req with
    | Err e => Err e
    | Ok resp =>
        if (400 <=? resp_StatusCode resp)%Z then Err (B "http fragment returned status") else
        match resp_Body resp with
        | Err e => Err e
        | Ok full =>
            let body := if (0 <? maxResponseSize cfg)%Z
                        then take (Z.to_nat (maxResponseSize cfg + 1)) full else full in
            if too_large body then Err (B "fragment body size exceeds max")
            else Ok (body, forwarded_cookies (resp_Header resp))
        end
    end
  end.

Definition getOutboundURL (parentReq : Request) (parsed : URL) : str :=
  if is_nil (u_Host parsed) then
    let https := r_TLS parentReq
      || EqualFold (h_Get (r_Header parentReq) headerXForwardedProto) (B "https") in
    (if https then B "https" else B "http") ++ B "://" ++ r_Host parentReq ++ url_RequestURI parsed
  else url_String parsed.

Definition fetchFragment (parentReq : Request) (targetURL : str) (state : esiExecutionState) : result (str * list str) :=
  match validateURLScheme targetURL with
  | Err e => Err e
  | Ok parsed =>
    let isSameHost := is_nil (u_Host parsed)
      || (negb (is_nil (r_Host parentReq)) && EqualFold (u_Host parsed) (r_Host parentReq)) in
    match (if isSameHost then internalFetcher else None) with
    | Some fetcher =>
        let uri := url_RequestURI parsed in
        let targetPath := if is_nil uri then B "/" else uri in
        match fetchViaCustomFetcher fetcher parentReq targetPath state with
        | Fetched body headers => Ok (body, forwarded_cookies headers)
        | FallbackToHTTP => fetchOutboundHTTP parentReq (getOutboundURL parentReq parsed) state
        | FetchFailed | FetchPanicked => Err (B "fetch failed")
        end
    | None => fetchOutboundHTTP parentReq (getOutboundURL parentReq parsed) state
    end
  end.

(** ** Execution

    [None] is lack of fuel.  A panic of the scanner on a nested body is recovered in
    [executeFragment], which then uses the fallback. *)
Definition fallback_result (parentBody : str) (frag : EsiFragment) : fragmentResult :=
  mkFragmentResult frag
    (resolveFallback cfg (safeSlice parentBody (InnerStartPos frag) (InnerEndPos frag)) (OnError frag))
    true [].

Definition static_result (parentBody : str) (frag : EsiFragment) : fragmentResult :=
  mkFragmentResult frag
    (resolveFallback cfg (safeSlice parentBody (InnerStartPos frag) (InnerEndPos frag)) (OnError frag))
    false [].

Definition effectiveMaxDepth (frag : EsiFragment) (state : esiExecutionState) : Z :=
  if (0 <? MaxDepth frag)%Z && (MaxDepth frag <? st_maxDepth state)%Z
  then MaxDepth frag else st_maxDepth state.

(** The state of the fetch of [url] for [frag], and of the fragments in its body. *)
Definition childState (frag : EsiFragment) (state : esiExecutionState) (url : str) : esiExecutionState :=
  mkState (st_depth state + 1) (effectiveMaxDepth frag state) (url :: st_visited state).

Fixpoint executeFragment (fuel : nat) (parentReq : Request) (parentBody : str) (frag : EsiFragment)
    (state : esiExecutionState) : option fragmentResult :=
  match fuel with
  | O => None
  | S fuel =>
    if is_nil (Src frag) then Some (static_result parentBody frag) else
    let max := effectiveMaxDepth frag state in
    if (max <=? st_depth state)%Z then Some (fallback_result parentBody frag)
    else if visited_contains (st_visited state) (Src frag) then Some (fallback_result parentBody frag)
    else
      (* expandNestedESI on a fetched body *)
      let expand (url : str) (raw : str * list str) : option fragmentResult :=
        match Scan raw.1 with
        | NoFuel => None
        | IndexPanic => Some (fallback_result parentBody frag)
        | Scanned [] => Some (mkFragmentResult frag raw.1 false raw.2)
        | Scanned frags =>
            results ← mapM (λ f, executeFragment fuel parentReq raw.1 f (childState frag state url)) frags;
            Some (mkFragmentResult frag (spliceFragments raw.1 results) false
                    (raw.2 ++ (results ≫= fr_setCookies)))
        end in
      match fetchFragment parentReq (Src frag) (childState frag state (Src frag)) with
      | Ok raw => expand (Src frag) raw
      | Err _ =>
          if negb (is_nil (Alt frag)) && alt_budget frag then
            match fetchFragment parentReq (Alt frag) (childState frag state (Alt frag)) with
            | Ok raw => expand (Alt frag) raw
            | Err _ => Some (fallback_result parentBody frag)
            end
          else Some (fallback_result parentBody frag)
      end
  end.

Definition executeFragments (fuel : nat) (parentReq : Request) (parentBody : str)
    (fragments : list EsiFragment) (state : esiExecutionState)
    : option (list fragmentResult * list str) :=
  results ← mapM (λ f, executeFragment fuel parentReq parentBody f state) fragments;
  Some (results, results ≫= fr_setCookies).

(** The initial state of a document: depth zero, the request's own path visited. *)
Definition initial_state (parentReq : Request) : esiExecutionState :=
  mkState 0 (maxDepth cfg)
    (match r_URL parentReq with
     | Some u => if is_nil (u_Path u) then [] else [u_Path u]
     | None => [] end).

(** The fuel is the number of levels the depth limit leaves, plus one. *)
Definition enough_fuel (state : esiExecutionState) : nat :=
  S (Z.to_nat (st_maxDepth state - st_depth state)).

Definition ProcessFragments (parentReq : Request) (parentBody : str) (fragments : list EsiFragment)
    (execState : option esiExecutionState) : option Result :=
  let state := default (initial_state parentReq) execState in
  '(results, allCookies) ← executeFragments (enough_fuel state) parentReq parentBody fragments state;
  Some (mkResult (spliceFragments parentBody results) allCookies).
End Esi.

(** ** Facts: splicing *)

(** A text cut into pieces: each piece of literal text is followed by an insert. *)
Fixpoint weave (segs : list (str * str)) (final : str) : str :=
  match segs with
  | [] => final
  | (text, insert) :: segs' => text ++ insert ++ weave segs' final
  end.

Lemma slice_split b i j :
  (0 ≤ i ≤ j)%Z → (j ≤ Z.of_nat (length b))%Z →
  drop (Z.to_nat i) b = slice b i j ++ drop (Z.to_nat j) b.
Proof.
  intros Hi Hj. unfold slice.
  rewrite <- (take_drop (Z.to_nat (j - i)) (drop (Z.to_nat i) b)) at 1. f_equal.
  rewrite drop_drop. f_equal. lia.
Qed.

(** The literal texts before each fragment, from [pos] on, and the text after the last. *)
Fixpoint texts_from (parent : str) (pos : Z) (specs : list EsiFragment) : list str :=
  match specs with
  | [] => []
  | f :: specs' => slice parent pos (StartPos f) :: texts_from parent (EndPos f) specs'
  end.
Fixpoint last_end (pos : Z) (specs : list EsiFragment) : Z :=
  match specs with [] => pos | f :: specs' => last_end (EndPos f) specs' end.

Lemma last_end_ok lo hi specs : frags_ok lo hi specs → (lo ≤ last_end lo specs ≤ hi)%Z.
Proof.
  revert lo. induction specs as [|f specs IH]; intros lo; simpl; [lia|].
  intros (? & _ & ?%IH). lia.
Qed.

Lemma weave_parent parent pos specs :
  (0 ≤ pos)%Z → frags_ok pos (Z.of_nat (length parent)) specs →
  drop (Z.to_nat pos) parent
  = weave (zip (texts_from parent pos specs) ((λ f, slice parent (StartPos f) (EndPos f)) <$> specs))
          (drop (Z.to_nat (last_end pos specs)) parent).
Proof.
  revert pos. induction specs as [|f specs IH]; intros pos Hp; csimpl; [done|].
  intros (Hf & _ & Hok). pose proof (frags_ok_le _ _ _ Hok).
  rewrite (slice_split parent pos (StartPos f)) by lia.
  rewrite (slice_split parent (StartPos f) (EndPos f)) by lia. rewrite <- IH by (lia || done). done.
Qed.

Lemma splice_fold parent pos out results :
  (0 ≤ pos)%Z → frags_ok pos (Z.of_nat (length parent)) (fr_spec <$> results) →
  let '(p, o) := foldl (splice_step parent) (pos, out) results in
  p = last_end pos (fr_spec <$> results) ∧
  o ++ drop (Z.to_nat p) parent
  = out ++ weave (zip (texts_from parent pos (fr_spec <$> results)) (fr_body <$> results))
                 (drop (Z.to_nat p) parent).
Proof.
  revert pos out. induction results as [|r results IH]; intros pos out Hp; csimpl; [done|].
  intros (Hf & _ & Hok). pose proof (frags_ok_le _ _ _ Hok).
  assert ((StartPos (fr_spec r) <? pos)%Z || (Z.of_nat (length parent) <? StartPos (fr_spec r))%Z
    || (Z.of_nat (length parent) <? EndPos (fr_spec r))%Z
    || (EndPos (fr_spec r) <? StartPos (fr_spec r))%Z = false) as Hc
    by (rewrite !orb_false_iff; repeat split; apply Z.ltb_ge; lia).
  rewrite Hc.
  specialize (IH (EndPos (fr_spec r)) (out ++ slice parent pos (StartPos (fr_spec r)) ++ fr_body r)).
  destruct (foldl _ _ results) as [p o]. destruct IH as [-> ->]; [lia|done|].
  split; [done|]. by rewrite <- !app_assoc.
Qed.

(** ** Facts: execution *)
Lemma mapM_is_Some {A C} (f : A → option C) l : (∀ x, x ∈ l → is_Some (f x)) → is_Some (mapM f l).
Proof.
  intros H. apply mapM_is_Some_2. apply Forall_forall. exact H.
Qed.

Section Facts.
Context {E : GoEnv} (cfg : esiConfig)
        (internalFetcher : option (esiExecutionState → str → Request → fetcher_result))
        (http_Do : esiExecutionState → Request → result Response)
        (alt_budget : EsiFragment → bool).

Lemma effectiveMaxDepth_le frag state : (effectiveMaxDepth frag state ≤ st_maxDepth state)%Z.
Proof. unfold effectiveMaxDepth. destruct (_ && _) eqn:Ec; [|lia]. btrue Ec. lia. Qed.

Lemma executeFragment_total fuel req body frag state :
  (Z.to_nat (st_maxDepth state - st_depth state) < fuel)%nat →
  is_Some (executeFragment cfg internalFetcher http_Do alt_budget fuel req body frag state).
Proof.
  revert body frag state. induction fuel as [|fuel IH]; intros body frag state Hf; [lia|]. simpl.
  case_if; [done|]. pose proof (effectiveMaxDepth_le frag state) as Hm.
  destruct (effectiveMaxDepth frag state <=? st_depth state)%Z eqn:Ed; [done|]. apply Z.leb_gt in Ed.
  case_if; [done|].
  assert (∀ url raw, is_Some (match Scan raw.1 with
    | Scanned [] => Some (mkFragmentResult frag raw.1 false raw.2)
    | Scanned ((_ :: _) as frags) =>
        results ← mapM (λ f, executeFragment cfg internalFetcher http_Do alt_budget fuel req raw.1 f
          (childState frag state url)) frags;
        Some (mkFragmentResult frag (spliceFragments raw.1 results) false
                (raw.2 ++ (results ≫= fr_setCookies)))
    | IndexPanic => Some (fallback_result cfg body frag)
    | NoFuel => None end)) as Hexp.
  { intros url raw. pose proof (Scan_ok raw.1) as Hs.
    destruct (Scan raw.1) as [[|f fs]| |]; [done| |done|done].
    assert (is_Some (mapM (λ f, executeFragment cfg internalFetcher http_Do alt_budget fuel req raw.1 f
      (childState frag state url)) (f :: fs)))
      as [rs ->]; [|done].
    apply mapM_is_Some. intros x _. apply IH. simpl. lia. }
  destruct (fetchFragment _ _ _ _ (Src frag) _); [apply Hexp|]. case_if; [|done].
  destruct (fetchFragment _ _ _ _ (Alt frag) _); [apply Hexp|done].
Qed.

(** ** Properties *)

(** With fragments in order and inside the document, splicing replaces
    each tag by the body of its fragment and keeps every other byte, in order. *)
Theorem splice_replaces_tags parent results :
  frags_ok 0 (Z.of_nat (length parent)) (fr_spec <$> results) →
  ∃ texts final, length texts = length results ∧
    parent = weave (zip texts ((λ r, slice parent (StartPos (fr_spec r)) (EndPos (fr_spec r))) <$> results)) final ∧
    spliceFragments parent results = weave (zip texts (fr_body <$> results)) final.
Proof.
  intros Hok. exists (texts_from parent 0 (fr_spec <$> results)).
  exists (drop (Z.to_nat (last_end 0 (fr_spec <$> results))) parent). split; [|split].
  - generalize 0%Z as p. clear. induction results as [|r results IH]; intros p; csimpl; [done|].
    f_equal. apply IH.
  - pose proof (weave_parent parent 0 (fr_spec <$> results) ltac:(lia) Hok) as H.
    rewrite drop_0, <- list_fmap_compose in H. exact H.
  - unfold spliceFragments. pose proof (last_end_ok _ _ _ Hok) as Hle.
    destruct (is_nil results) eqn:En; [apply is_nil_true in En as ->; done|].
    pose proof (splice_fold parent 0 [] results ltac:(lia) Hok) as H.
    destruct (foldl _ _ _) as [p o]. destruct H as [-> H]. case_if; [exact H|].
    rewrite (drop_ge parent) in H |- * by lia. by rewrite app_nil_r in H.
Qed.

(** Processing terminates for every document and every behaviour of the
    fetchers: nesting stops at the configured depth, and circular includes, failing or
    panicking fragments and scanner panics in nested bodies all end in the
    fallback. *)
Theorem esi_processing_total req body fragments state :
  is_Some (ProcessFragments cfg internalFetcher http_Do alt_budget req body fragments state).
Proof.
  unfold ProcessFragments, executeFragments.
  set (st := default (initial_state cfg req) state).
  assert (is_Some (mapM (λ f, executeFragment cfg internalFetcher http_Do alt_budget
    (enough_fuel st) req body f st) fragments)) as [rs ->]; [|done].
  apply mapM_is_Some. intros f _. apply executeFragment_total. unfold enough_fuel. lia.
Qed.

(** The host of a page and of a URL are the same: up to the case of letters and a default port, of
    either scheme (":443:80" is what taking off both leaves of a malformed host). *)
Definition default_port (p : str) : Prop := p ∈ [[]; B ":80"; B ":443"; B ":443:80"].
Definition same_host (a b : str) : Prop :=
  ∃ n p m q, a = n ++ p ∧ b = m ++ q ∧ default_port p ∧ default_port q ∧ EqualFold n m = true.

Lemma TrimSuffix_cases h suf : h = TrimSuffix h suf ∨ h = TrimSuffix h suf ++ suf.
Proof.
  unfold TrimSuffix. destruct (HasSuffix h suf) eqn:Eh; [right|by left].
  apply HasSuffix_spec in Eh as [l ->]. rewrite length_app. replace (length l + length suf - length suf) with (length l) by lia.
  by rewrite take_app_length.
Qed.

Lemma stripDefaultPort_cases h : ∃ p, h = stripDefaultPort h ++ p ∧ default_port p.
Proof.
  unfold stripDefaultPort, default_port. destruct (TrimSuffix_cases h (B ":80")) as [H1|H1], (TrimSuffix_cases (TrimSuffix h (B ":80")) (B ":443")) as [H2|H2].
  - exists []. rewrite app_nil_r, <- H2, <- H1. split; [done|set_solver].
  - exists (B ":443"). rewrite <- H2, <- H1. split; [done|set_solver].
  - exists (B ":80"). rewrite <- H2. split; [done|set_solver].
  - exists (B ":443:80"). split; [|set_solver]. rewrite H1 at 1. rewrite H2 at 1. by rewrite <- app_assoc.
Qed.

Lemma stripDefaultPort_same a b : EqualFold (stripDefaultPort a) (stripDefaultPort b) = true → same_host a b.
Proof.
  intros H. destruct (stripDefaultPort_cases a) as (p & Ha & Hp), (stripDefaultPort_cases b) as (q & Hb & Hq).
  by exists (stripDefaultPort a), p, (stripDefaultPort b), q.
Qed.

(** C38: cookies and credentials of the client are sent only to its own host: an outbound request
    with a host that carries a cookie or an Authorization goes to the host that the page was
    requested from, up to the case of letters and a default port. *)
Theorem no_credentials_to_other_hosts parentReq target req :
  NewRequest target (outbound_header parentReq) = Some req →
  r_Host req ≠ [] →
  h_Values (r_Header req) (B "Cookie") ≠ [] ∨ h_Get (r_Header req) headerAuthorization ≠ [] →
  same_host (r_Host req) (r_Host parentReq).
Proof.
  intros Hreq Hne Hcred. apply stripDefaultPort_same.
  destruct (EqualFold (stripDefaultPort (r_Host req)) (stripDefaultPort (r_Host parentReq))) eqn:Hf; [done|].
  exfalso. enough (h_Values (r_Header req) (B "Cookie") = [] ∧ h_Get (r_Header req) headerAuthorization = []) as [? ?]
    by (by destruct Hcred).
  clear Hcred. revert Hreq Hne Hf.
  unfold NewRequest. destruct (url_Parse target) as [u|]; [|done]. intros [= <-]. simpl.
  intros Hne Hf. unfold outbound_header. apply is_nil_false in Hne. rewrite Hne, Hf.
  cbn [orb]. cbv iota.
  set (h0 := addSurrogateCapability _ _).
  assert (∀ k, k = B "Cookie" ∨ k = headerAuthorization → h_Values h0 k = []) as H0.
  { intros k [->| ->]; vm_compute; reflexivity. }
  assert (∀ h n v k, k = B "Cookie" ∨ k = headerAuthorization →
    n = B "User-Agent" ∨ n = B "Accept-Language" → h_Values (h_Set h n v) k = h_Values h k) as Hset.
  { intros h n v k Hk Hn. apply h_Values_Set_ne. destruct Hk as [->| ->], Hn as [->| ->]; vm_compute; congruence. }
  assert (∀ k, k = B "Cookie" ∨ k = headerAuthorization → h_Values
    (if is_nil (h_Get (r_Header parentReq) (B "Accept-Language"))
     then if is_nil (h_Get (r_Header parentReq) (B "User-Agent")) then h0
          else h_Set h0 (B "User-Agent") (h_Get (r_Header parentReq) (B "User-Agent"))
     else h_Set (if is_nil (h_Get (r_Header parentReq) (B "User-Agent")) then h0
          else h_Set h0 (B "User-Agent") (h_Get (r_Header parentReq) (B "User-Agent")))
          (B "Accept-Language") (h_Get (r_Header parentReq) (B "Accept-Language"))) k = []) as Hall.
  { intros k Hk. repeat case_if; rewrite ?Hset by auto; by apply H0. }
  split; [by apply Hall; left|]. unfold h_Get at 1. by rewrite Hall by (by right).
Qed.

Lemma remaining_clean vals v : v ∈ remaining_directives vals → containsESI v = false.
Proof.
  unfold remaining_directives. intros (val & Hv & _)%list_elem_of_bind.
  destruct (containsESI val) eqn:Ev; simpl in Hv.
  - apply elem_of_bool_filter in Hv as [_ Hv]. apply andb_true_iff in Hv as [_ Hv]. by apply negb_true_iff.
  - by apply list_elem_of_singleton in Hv as ->.
Qed.

Lemma join_remaining_clean vals : containsESI (join (B ", ") (remaining_directives vals)) = false.
Proof.
  apply not_true_is_false. intros H. unfold containsESI in H. apply orb_true_iff in H as [H|H];
    apply Contains_join_comma in H as (w & Hw%remaining_clean & Hc);
    try (apply (bool_decide_unpack _); vm_compute; exact I);
    unfold containsESI in Hw; by rewrite Hc, ?orb_true_r in Hw.
Qed.

(** After cleaning, the Surrogate-Control header names ESI no more, and
    no other header has changed. *)
Theorem surrogate_control_cleaned h :
  (∀ v, v ∈ default [] (CleanSurrogateControl h !! headerSurrogateControl) → containsESI v = false) ∧
  (∀ k, EqualFold k headerSurrogateControl = false → CleanSurrogateControl h !! k = h !! k).
Proof.
  assert (EqualFold headerSurrogateControl headerSurrogateControl = true) as Hrefl
    by (vm_compute; reflexivity).
  unfold CleanSurrogateControl. destruct (surrogate_entry h) as [[key vals]|] eqn:Es.
  2: { split; [|done]. unfold surrogate_entry in Es.
       destruct (h !! headerSurrogateControl); [done|]. intros v Hv. by apply not_elem_of_nil in Hv. }
  assert (EqualFold key headerSurrogateControl = true ∧
    (h !! headerSurrogateControl = Some vals ∨ h !! headerSurrogateControl = None)) as [Hkey Hh].
  { unfold surrogate_entry in Es. destruct (h !! headerSurrogateControl) as [vs|].
    - injection Es as <- <-. split; [done|by left].
    - apply find_some in Es as [_ Es]. split; [done|by right]. }
  destruct (existsb containsESI vals) eqn:Ev; simpl negb; cbv iota.
  2: { split; [|done]. rewrite existsb_false in Ev. intros v Hv.
       destruct Hh as [Hh|Hh]; rewrite Hh in Hv; simpl in Hv; [by apply Ev|by apply not_elem_of_nil in Hv]. }
  set (h1 := if key <>s headerSurrogateControl then delete key h else h).
  assert (∀ k, EqualFold k headerSurrogateControl = false → h1 !! k = h !! k) as H1.
  { intros k Hk. unfold h1. case_if; [|done]. apply lookup_delete_ne. congruence. }
  destruct (is_nil (remaining_directives vals)) eqn:En; split.
  - intros v. rewrite lookup_delete_eq. intros Hv. by apply not_elem_of_nil in Hv.
  - intros k Hk. rewrite lookup_delete_ne by congruence. by apply H1.
  - intros v. rewrite lookup_insert_eq. intros ->%list_elem_of_singleton. apply join_remaining_clean.
  - intros k Hk. rewrite lookup_insert_ne by congruence. by apply H1.
Qed.
End Facts.

(** ** Witnesses *)
Definition demo_doc : str := B "<p>1<esi:include src=/x/>2<esi:remove>z</esi:remove>3</p>".
Definition demo_results : list fragmentResult :=
  match Scan demo_doc with
  | Scanned l => (λ f, mkFragmentResult f (B "[" ++ Src f ++ B "]") false []) <$> l
  | _ => []
  end.

Lemma splice_replaces_tags_witness :
  spliceFragments demo_doc demo_results = B "<p>1[/x]2[]3</p>" ∧
  ∃ texts final, spliceFragments demo_doc demo_results = weave (zip texts (fr_body <$> demo_results)) final.
Proof.
  split; [vm_compute; reflexivity|].
  destruct (splice_replaces_tags demo_doc demo_results) as (texts & final & _ & _ & H).
  - vm_compute. repeat split; try congruence; left; split; reflexivity.
  - by exists texts, final.
Defined.

Lemma no_credentials_to_other_hosts_witness :
  let parent := mkRequest (B "GET") None (B "shop.example") {[ B "Cookie" := [B "sid=1"] ]} false in
  (∃ req, NewRequest (B "https://Shop.example:443/x") (outbound_header parent) = Some req ∧
          h_Values (r_Header req) (B "Cookie") = [B "sid=1"] ∧ same_host (r_Host req) (B "shop.example")) ∧
  (∃ req, NewRequest (B "https://cdn.example/x") (outbound_header parent) = Some req ∧
          h_Values (r_Header req) (B "Cookie") = []).
Proof.
  intros parent. split; [|eexists; split; vm_compute; reflexivity].
  eexists. split; [vm_compute; reflexivity|]. split; [vm_compute; reflexivity|].
  refine (no_credentials_to_other_hosts parent (B "https://Shop.example:443/x") _ _ _ _);
    [vm_compute; reflexivity|vm_compute; congruence|left; vm_compute; congruence].
Defined.
