(* ===== verification/Workers.v ===== *)
(** * The fragment workers ([executeFragments], [fragmentRunner] of [src/esi/processor.go])

    The fragments of one document are fetched by one goroutine each, the last one by the
    caller itself, at most [maxConcurrentRequests] at a time; a semaphore is made only if
    there are more fragments than that.  [step] is one atomic action of one goroutine.  What
    [executeFragment] writes for a fragment is [Esi.executeFragment]'s result, and it
    returns always (it recovers its panics). *)

From S2P Require Import Prelude GoStrings GoHttp Env Headers Storage Scanner Esi.

(** ** Data *)

(** A goroutine of [exec]: waiting for a slot, fetching, done with it (the slot is not yet given
    back), and back in [exec]'s caller. *)
Inductive stage := Blocked | Executing | Executed | Released.

(** A fragment of the loop: not reached; without [src], and filled in place; handed to a
    goroutine, or to the caller ([main]); and its goroutine has gone. *)
Inductive slot := Idle | Filled | Busy (main : bool) (st : stage) | Gone.

(** Where the caller is: in the loop, executing the last fragment, in [wg.Wait], back. *)
Inductive phase := Loop (i : nat) | RunsLast | Waiting | Returned.

Record runner := mkRunner {
  pc : phase;
  sem : option nat;                      (* capacity; [None] is a nil channel *)
  held : nat;                            (* values in the channel *)
  wg : nat;
  workers : list slot;
  results : list (option fragmentResult);  (* [None] is the zero value *)
}.

Section Workers.
Context (cfg : esiConfig) (parentBody : str) (exec : EsiFragment → fragmentResult).

Definition maxWorkers : nat :=
  if (maxConcurrentRequests cfg <=? 0)%Z then 8 else Z.to_nat (maxConcurrentRequests cfg).

(** The state when the loop starts. *)
Definition start (fragments : list EsiFragment) : runner :=
  let n := length fragments in
  mkRunner (match n with 0 => Returned | _ => Loop 0 end)
    (if maxWorkers <? n then Some maxWorkers else None) 0 0 (replicate n Idle) (replicate n None).

Definition set_slot (i : nat) (x : slot) (s : runner) : runner :=
  mkRunner (pc s) (sem s) (held s) (wg s) (<[i := x]> (workers s)) (results s).
Definition set_result (i : nat) (r : fragmentResult) (s : runner) : runner :=
  mkRunner (pc s) (sem s) (held s) (wg s) (workers s) (<[i := Some r]> (results s)).
Definition set_pc (p : phase) (s : runner) : runner :=
  mkRunner p (sem s) (held s) (wg s) (workers s) (results s).
Definition set_wg (n : nat) (s : runner) : runner :=
  mkRunner (pc s) (sem s) (held s) n (workers s) (results s).
(** [r.sem <- struct{}{}] and [<-r.sem]; a nil [sem] is skipped. *)
Definition take_slot (s : runner) : runner :=
  mkRunner (pc s) (sem s) (match sem s with Some _ => S (held s) | None => held s end) (wg s) (workers s) (results s).
Definition free_slot (s : runner) : runner :=
  mkRunner (pc s) (sem s) (match sem s with Some _ => pred (held s) | None => held s end) (wg s) (workers s) (results s).
Definition has_room (s : runner) : Prop := match sem s with Some cap => held s < cap | None => True end.

(** What ends up in the result of a fragment. *)
Definition result_of (f : EsiFragment) : fragmentResult :=
  if is_nil (Src f) then static_result cfg parentBody f else exec f.

Variable fragments : list EsiFragment.

(** After fragment [i] the loop goes on; after the last one, the caller waits. *)
Definition next_pc (i : nat) : phase := if S i =? length fragments then Waiting else Loop (S i).

Inductive step : runner → runner → Prop :=
  | step_fill s i f :
      pc s = Loop i → fragments !! i = Some f → is_nil (Src f) = true →
      step s (set_pc (next_pc i) (set_slot i Filled (set_result i (static_result cfg parentBody f) s)))
  | step_spawn s i f :
      pc s = Loop i → fragments !! i = Some f → is_nil (Src f) = false → S i ≠ length fragments →
      step s (set_pc (Loop (S i)) (set_slot i (Busy false Blocked) (set_wg (S (wg s)) s)))
  | step_last s i f :
      pc s = Loop i → fragments !! i = Some f → is_nil (Src f) = false → S i = length fragments →
      step s (set_pc RunsLast (set_slot i (Busy true Blocked) s))
  | step_acquire s i m :
      workers s !! i = Some (Busy m Blocked) → has_room s →
      step s (set_slot i (Busy m Executing) (take_slot s))
  | step_execute s i m f :
      workers s !! i = Some (Busy m Executing) → fragments !! i = Some f →
      step s (set_slot i (Busy m Executed) (set_result i (exec f) s))
  | step_release s i m :
      workers s !! i = Some (Busy m Executed) →
      step s (set_slot i (Busy m Released) (free_slot s))
  | step_done s i :
      workers s !! i = Some (Busy false Released) →
      step s (set_slot i Gone (set_wg (pred (wg s)) s))
  | step_last_done s i :
      pc s = RunsLast → workers s !! i = Some (Busy true Released) →
      step s (set_pc Waiting (set_slot i Gone s))
  | step_return s :
      pc s = Waiting → wg s = 0 → step s (set_pc Returned s).

Definition reachable (s : runner) : Prop := rtc step (start fragments) s.

(** The results and the cookies that [executeFragments] returns. *)
Definition returned (s : runner) : option (list fragmentResult * list str) :=
  rs ← mapM id (results s); Some (rs, rs ≫= fr_setCookies).

(** ** The invariant *)
Definition holds (x : slot) : nat := match x with Busy _ Executing | Busy _ Executed => 1 | _ => 0 end.
Definition running (x : slot) : nat := match x with Busy _ Executing => 1 | _ => 0 end.
Definition spawned (x : slot) : nat := match x with Busy false _ => 1 | _ => 0 end.
Definition mains (x : slot) : nat := match x with Busy true _ => 1 | _ => 0 end.

Definition reached (p : phase) (i : nat) : Prop := match p with Loop j => i < j | _ => True end.

(** A fragment, its slot and its result fit. *)
Definition slot_ok (p : phase) (i : nat) (f : EsiFragment) (x : slot) (r : option fragmentResult) : Prop :=
  match x with
  | Idle => r = None ∧ ¬ reached p i
  | Filled | Gone => r = Some (result_of f) ∧ reached p i
  | Busy _ st => is_nil (Src f) = false ∧ reached p i ∧
      match st with Blocked | Executing => r = None | _ => r = Some (result_of f) end
  end.

Record Inv (s : runner) : Prop := {
  inv_sem : sem s = if maxWorkers <? length fragments then Some maxWorkers else None;
  inv_workers : length (workers s) = length fragments;
  inv_results : length (results s) = length fragments;
  inv_held : ∀ cap, sem s = Some cap → held s = tally holds (workers s) ∧ held s ≤ cap;
  inv_wg : wg s = tally spawned (workers s);
  inv_main : tally mains (workers s) = match pc s with RunsLast => 1 | _ => 0 end;
  inv_pc : match pc s with Loop i => i < length fragments | _ => True end;
  inv_slot : ∀ i f x r, fragments !! i = Some f → workers s !! i = Some x → results s !! i = Some r →
    slot_ok (pc s) i f x r;
  inv_returned : pc s = Returned → wg s = 0;
}.

(** ** Facts: the invariant holds *)
Lemma start_Inv : Inv (start fragments).
Proof.
  split; simpl; rewrite ?length_replicate; try done.
  - intros cap _. rewrite tally_replicate. simpl. lia.
  - rewrite tally_replicate. simpl. lia.
  - rewrite tally_replicate. destruct (length fragments); simpl; lia.
  - destruct (length fragments); [done|lia].
  - intros i f x r Hf [-> _]%lookup_replicate [-> _]%lookup_replicate. split; [done|].
    apply lookup_lt_Some in Hf. destruct (length fragments); [lia|]. simpl. lia.
Qed.

Lemma slot_ok_reached p p' i f x r : (reached p i ↔ reached p' i) → slot_ok p i f x r → slot_ok p' i f x r.
Proof. intros H. destruct x as [| |m st|]; simpl; tauto. Qed.

(** Slot [i] and its result change; the others are as before. *)
Lemma slots_update p' s i f y z (rs' : list (option fragmentResult)) :
  Inv s → fragments !! i = Some f →
  (∀ j, j ≠ i → rs' !! j = results s !! j) → rs' !! i = Some z → slot_ok p' i f y z →
  (∀ j, j < length fragments → j ≠ i → (reached (pc s) j ↔ reached p' j)) →
  ∀ j g x r, fragments !! j = Some g → <[i := y]> (workers s) !! j = Some x → rs' !! j = Some r → slot_ok p' j g x r.
Proof.
  intros Hs Hf Hrs Hi Hok Hre j g x r Hg Hx Hr. destruct (decide (j = i)) as [-> | Hne].
  - rewrite list_lookup_insert_eq in Hx by (rewrite (inv_workers _ Hs); by eapply lookup_lt_Some).
    rewrite Hi in Hr. by simplify_eq.
  - rewrite list_lookup_insert_ne in Hx by done. rewrite Hrs in Hr by done.
    eapply slot_ok_reached; [|by eapply inv_slot]. apply Hre; [by eapply lookup_lt_Some|done].
Qed.

(** The slot and the result of fragment [i] in a good state. *)
Lemma slot_at s i f : Inv s → fragments !! i = Some f →
  ∃ x r, workers s !! i = Some x ∧ results s !! i = Some r ∧ slot_ok (pc s) i f x r.
Proof.
  intros Hs Hf. pose proof (lookup_lt_Some _ _ _ Hf) as Hlt.
  destruct (lookup_lt_is_Some_2 (workers s) i) as [x Hx]; [by rewrite (inv_workers _ Hs)|].
  destruct (lookup_lt_is_Some_2 (results s) i) as [r Hr]; [by rewrite (inv_results _ Hs)|].
  exists x, r. split; [done|]. split; [done|]. by eapply inv_slot.
Qed.

Lemma frag_at s i x : Inv s → workers s !! i = Some x → is_Some (fragments !! i).
Proof. intros Hs Hx. apply lookup_lt_is_Some. rewrite <- (inv_workers _ Hs). by eapply lookup_lt_Some. Qed.

(** At the head of the loop, the fragment is idle. *)
Lemma loop_idle s i f : Inv s → pc s = Loop i → fragments !! i = Some f →
  workers s !! i = Some Idle ∧ results s !! i = Some None.
Proof.
  intros Hs Hp Hf. destruct (slot_at s i f Hs Hf) as (x & r & Hx & Hr & Hok). rewrite Hp in Hok.
  destruct x; simpl in Hok; [by destruct Hok as [-> _]|lia..].
Qed.

Lemma reached_loop i j : j < length fragments → j ≠ i → (reached (Loop i) j ↔ reached (next_pc i) j).
Proof. intros Hj Hne. unfold next_pc. destruct (Nat.eqb_spec (S i) (length fragments)); simpl; [split; [done|lia]|lia]. Qed.

Lemma reached_next i : reached (next_pc i) i.
Proof. unfold next_pc. case_match; simpl; [done|lia]. Qed.

Lemma result_static f : is_nil (Src f) = true → result_of f = static_result cfg parentBody f.
Proof. intros H. unfold result_of. by rewrite H. Qed.
Lemma result_exec f : is_nil (Src f) = false → result_of f = exec f.
Proof. intros H. unfold result_of. by rewrite H. Qed.

Lemma next_cases i : next_pc i = Waiting ∧ S i = length fragments ∨ next_pc i = Loop (S i) ∧ S i ≠ length fragments.
Proof. unfold next_pc. destruct (Nat.eqb_spec (S i) (length fragments)); auto. Qed.

(** The caller executes a fragment only after the loop. *)
Lemma main_runs s i st : Inv s → workers s !! i = Some (Busy true st) → pc s = RunsLast.
Proof.
  intros Hs Hw. pose proof (tally_weight mains _ _ _ Hw) as H. rewrite (inv_main _ Hs) in H. simpl in H.
  destruct (pc s); [lia|done|lia..].
Qed.

Definition main_weight (p : phase) : nat := match p with RunsLast => 1 | _ => 0 end.
Definition phase_ok (p : phase) (n : nat) : Prop :=
  match p with Loop i => i < length fragments | Returned => n = 0 | _ => True end.

(** One slot moves, with its result, the counters and the caller. *)
Lemma Inv_move s i f x y p' held' wg' rs' z :
  Inv s → fragments !! i = Some f → workers s !! i = Some x →
  length rs' = length fragments → (∀ j, j ≠ i → rs' !! j = results s !! j) → rs' !! i = Some z → slot_ok p' i f y z →
  (∀ j, j < length fragments → j ≠ i → (reached (pc s) j ↔ reached p' j)) →
  (∀ cap, sem s = Some cap → held' + holds x = held s + holds y ∧ held' ≤ cap) →
  wg' + spawned x = wg s + spawned y → main_weight p' + mains x = main_weight (pc s) + mains y →
  phase_ok p' wg' →
  Inv (mkRunner p' (sem s) held' wg' (<[i := y]> (workers s)) rs').
Proof.
  intros Hs Hf Hw Hl Hrs Hz Hok Hre Hheld Hwg Hmain Hp. destruct Hs as [H1 H2 H3 H4 H5 H6 H7 H8 H9].
  fold (main_weight (pc s)) in H6. split; simpl; rewrite ?length_insert; try done.
  - intros cap Hcap. moved. destruct (H4 cap Hcap), (Hheld cap Hcap). lia.
  - moved. lia.
  - fold (main_weight p'). moved. lia.
  - by destruct p'.
  - by eapply slots_update.
  - by intros ->.
Qed.

(** The same, for a step that leaves the results alone. *)
Lemma Inv_move_slot s i f x y p' held' wg' :
  Inv s → fragments !! i = Some f → workers s !! i = Some x →
  (∀ r, slot_ok (pc s) i f x r → slot_ok p' i f y r) →
  (∀ j, j < length fragments → j ≠ i → (reached (pc s) j ↔ reached p' j)) →
  (∀ cap, sem s = Some cap → held' + holds x = held s + holds y ∧ held' ≤ cap) →
  wg' + spawned x = wg s + spawned y → main_weight p' + mains x = main_weight (pc s) + mains y →
  phase_ok p' wg' →
  Inv (mkRunner p' (sem s) held' wg' (<[i := y]> (workers s)) (results s)).
Proof.
  intros Hs Hf Hw Hok. destruct (slot_at s i f Hs Hf) as (x' & r & Hx & Hr & Hok'). rewrite Hw in Hx. injection Hx as <-.
  intros. eapply Inv_move; try done; [apply Hs|by apply Hok].
Qed.

Lemma phase_at s : Inv s → phase_ok (pc s) (wg s).
Proof. intros Hs. pose proof (inv_pc s Hs). pose proof (inv_returned s Hs). destruct (pc s); simpl; auto. Qed.

(** Slots that hold a place in the semaphore do not outnumber it. *)
Lemma held_pos s i x : Inv s → workers s !! i = Some x → ∀ cap, sem s = Some cap → holds x ≤ held s ≤ cap.
Proof. intros Hs Hw cap Hc. destruct (inv_held s Hs cap Hc) as [-> ?]. split; [by eapply tally_weight|done]. Qed.

Lemma spawned_pos s i x : Inv s → workers s !! i = Some x → spawned x ≤ wg s.
Proof. intros Hs Hw. rewrite (inv_wg s Hs). by eapply tally_weight. Qed.

Ltac counts Hs Hw :=
  let cap := fresh in let Hc := fresh in
  first [ intros cap Hc; rewrite ?Hc in *; pose proof (held_pos _ _ _ Hs Hw cap Hc); simpl in *; lia
        | pose proof (spawned_pos _ _ _ Hs Hw); simpl in *; lia ].

(** A worker's step: the caller stays where it is, or goes to wait. *)
Ltac worker Hs Hf Hw := eapply (Inv_move_slot _ _ _ _ _ _ _ _ Hs Hf Hw);
  [intros r (? & ? & ?); by simplify_eq/= | | | | |]; simpl.

Lemma runner_step_Inv s s' : Inv s → step s s' → Inv s'.
Proof.
  intros Hs Hstep. pose proof (phase_at s Hs) as Hph.
  destruct Hstep as [s i f Hp Hf He|s i f Hp Hf He Hn|s i f Hp Hf He Hn|s i m Hw Hroom|s i m f Hw Hf|s i m Hw|s i Hw
    |s i Hp Hw|s Hp Hz]; unfold set_pc, set_slot, set_wg, set_result, take_slot, free_slot in *; simpl.
  - destruct (loop_idle s i f Hs Hp Hf) as [Hw Hr]. pose proof (lookup_lt_Some _ _ _ Hf). rewrite Hp in Hph.
    eapply (Inv_move s i f Idle Filled _ _ _ _ (Some (result_of f)) Hs Hf Hw); simpl.
    + rewrite length_insert. apply Hs.
    + intros j Hne. by rewrite list_lookup_insert_ne.
    + rewrite result_static by done. apply list_lookup_insert_eq. by eapply lookup_lt_Some.
    + split; [done|apply reached_next].
    + intros j Hj Hne. rewrite Hp. by apply reached_loop.
    + counts Hs Hw.
    + done.
    + rewrite Hp. by destruct (next_cases i) as [[-> _]|[-> _]].
    + destruct (next_cases i) as [[-> _]|[-> ?]]; simpl; [done|lia].
  - destruct (loop_idle s i f Hs Hp Hf) as [Hw Hr]. pose proof (lookup_lt_Some _ _ _ Hf).
    eapply (Inv_move_slot s i f Idle _ _ _ _ Hs Hf Hw); simpl; try done; try (by counts Hs Hw).
    + intros r [-> _]. split; [done|]. split; [simpl; lia|done].
    + intros j Hj Hne. rewrite Hp. simpl. lia.
    + by rewrite Hp.
  - destruct (loop_idle s i f Hs Hp Hf) as [Hw Hr].
    eapply (Inv_move_slot s i f Idle _ _ _ _ Hs Hf Hw); simpl; try done; try (by counts Hs Hw).
    + by intros r [-> _].
    + intros j Hj Hne. rewrite Hp. simpl. lia.
    + by rewrite Hp.
  - destruct (frag_at s i _ Hs Hw) as [f Hf]. worker Hs Hf Hw; try done; [|by destruct m..].
    unfold has_room in Hroom. counts Hs Hw.
  - destruct (slot_at s i f Hs Hf) as (x & r & Hx & Hr & Hok). rewrite Hw in Hx. injection Hx as <-.
    destruct Hok as (He & Hre & _).
    eapply (Inv_move s i f _ (Busy m Executed) _ _ _ _ (Some (result_of f)) Hs Hf Hw); simpl; try done; try (by destruct m).
    + rewrite length_insert. apply Hs.
    + intros j Hne. by rewrite list_lookup_insert_ne.
    + rewrite result_exec by done. apply list_lookup_insert_eq. by eapply lookup_lt_Some.
    + counts Hs Hw.
  - destruct (frag_at s i _ Hs Hw) as [f Hf]. worker Hs Hf Hw; try done; [|by destruct m..]. counts Hs Hw.
  - destruct (frag_at s i _ Hs Hw) as [f Hf]. worker Hs Hf Hw; try done; try (by counts Hs Hw).
    destruct (pc s); simpl in *; lia.
  - destruct (frag_at s i _ Hs Hw) as [f Hf]. worker Hs Hf Hw; rewrite ?Hp; try done; by counts Hs Hw.
  - destruct Hs as [H1 H2 H3 H4 H5 H6 H7 H8 H9]. rewrite Hp in *. by split.
Qed.

Lemma runner_reachable_Inv s : reachable s → Inv s.
Proof. intros H. eapply (rtc_ind_r Inv); [apply start_Inv| |exact H]. intros s1 s2 _ Hstep Hs. by eapply runner_step_Inv. Qed.

(** ** Facts: progress *)

(** What is left to do, at most five steps per fragment and three of the caller. *)
Definition slot_work (x : slot) : nat :=
  match x with
  | Idle => 5
  | Busy _ Blocked => 4 | Busy _ Executing => 3 | Busy _ Executed => 2 | Busy _ Released => 1
  | Filled | Gone => 0
  end.
Definition phase_work (p : phase) : nat := match p with Loop _ => 3 | RunsLast => 2 | Waiting => 1 | Returned => 0 end.
Definition work (s : runner) : nat := tally slot_work (workers s) + phase_work (pc s).

Lemma step_work s s' : Inv s → step s s' → work s' < work s.
Proof.
  intros Hs Hstep.
  destruct Hstep as [s i f Hp Hf He|s i f Hp Hf He Hn|s i f Hp Hf He Hn|s i m Hw Hroom|s i m f Hw Hf|s i m Hw|s i Hw
    |s i Hp Hw|s Hp Hz]; unfold work; simpl; rewrite ?Hp;
    try destruct (loop_idle s i f Hs Hp Hf) as [Hw _]; try (moved; simpl; lia).
  destruct (next_cases i) as [[-> _]|[-> _]]; moved; simpl; lia.
Qed.

(** A busy fragment can move, or waits for a place that another one holds. *)
Lemma busy_moves s i m st : 0 < maxWorkers → Inv s → workers s !! i = Some (Busy m st) → ∃ s', step s s'.
Proof.
  intros Hmax Hs Hw.
  assert (∀ j m', workers s !! j = Some (Busy m' Executing) ∨ workers s !! j = Some (Busy m' Executed) → ∃ s', step s s')
    as Hholder.
  { intros j m' [Hj | Hj]; [|eexists; by eapply step_release]. destruct (frag_at s j _ Hs Hj) as [f Hf].
    eexists. by eapply step_execute. }
  destruct st; [| by eapply Hholder; left | by eapply Hholder; right |].
  - destruct (sem s) as [cap|] eqn:Hsem; [|eexists; eapply step_acquire; [done|unfold has_room; by rewrite Hsem]].
    destruct (decide (held s < cap)) as [Hlt | Hge]; [eexists; eapply step_acquire; [done|unfold has_room; by rewrite Hsem]|].
    destruct (inv_held s Hs cap Hsem) as [Hh _].
    assert (cap = maxWorkers) as -> by (rewrite (inv_sem s Hs) in Hsem; case_match; congruence).
    destruct (tally_pos holds (workers s)) as (j & x & Hj & Hx); [lia|].
    destruct x as [| |m' [| | |]|]; simpl in Hx; try lia; eapply Hholder; eauto.
  - destruct m; [|eexists; by eapply step_done]. eexists. eapply step_last_done; [by eapply main_runs|done].
Qed.

Lemma maxWorkers_pos : 0 < maxWorkers.
Proof. unfold maxWorkers. case_match eqn:E0; [lia|]. apply Z.leb_gt in E0. lia. Qed.

Lemma runner_progress s : Inv s → pc s = Returned ∨ ∃ s', step s s'.
Proof.
  intros Hs. pose proof maxWorkers_pos as Hmax. pose proof (phase_at s Hs) as Hp. destruct (pc s) as [i| | |] eqn:Hpc; simpl in Hp.
  - right. destruct (lookup_lt_is_Some_2 fragments i Hp) as [f Hf]. destruct (is_nil (Src f)) eqn:He.
    + eexists. by eapply step_fill.
    + destruct (decide (S i = length fragments)); eexists; [by eapply step_last|by eapply step_spawn].
  - right. pose proof (inv_main s Hs) as Hm. rewrite Hpc in Hm.
    destruct (tally_pos mains (workers s)) as (j & x & Hj & Hx); [lia|].
    destruct x as [| |m st|]; simpl in Hx; try lia. by eapply busy_moves.
  - right. destruct (decide (wg s = 0)) as [Hz | Hz]; [eexists; by eapply step_return|].
    pose proof (inv_wg s Hs) as Hg. destruct (tally_pos spawned (workers s)) as (j & x & Hj & Hx); [lia|].
    destruct x as [| |m st|]; simpl in Hx; try lia. by eapply busy_moves.
  - by left.
Qed.

(** When the caller returns, every fragment is filled in. *)
Lemma returned_results s : Inv s → pc s = Returned → results s = Some <$> (result_of <$> fragments).
Proof.
  intros Hs Hp. apply list_eq_same_length with (n := length fragments); [by rewrite !length_fmap|apply Hs|].
  intros i r r' Hi Hr Hr'. rewrite !list_lookup_fmap in Hr'.
  destruct (lookup_lt_is_Some_2 fragments i Hi) as [f Hf]. rewrite Hf in Hr'. injection Hr' as <-.
  destruct (slot_at s i f Hs Hf) as (x & r' & Hx & Hrr & Hok). rewrite Hr in Hrr. injection Hrr as <-. rewrite Hp in Hok.
  destruct x as [| |m st|]; simpl in Hok; [by destruct Hok as [_ []]|by destruct Hok| |by destruct Hok].
  exfalso. destruct m.
  - apply main_runs in Hx; [congruence|done].
  - pose proof (spawned_pos s i _ Hs Hx) as H. rewrite (inv_returned s Hs Hp) in H. simpl in H. lia.
Qed.

(** Some run ends. *)
Lemma run_ends : ∃ s, reachable s ∧ pc s = Returned.
Proof.
  assert (∀ n s, work s < n → reachable s → ∃ s', reachable s' ∧ pc s' = Returned) as H.
  { induction n as [|n IH]; intros s Hn Hs; [lia|]. pose proof (runner_reachable_Inv s Hs) as Hi.
    destruct (runner_progress s Hi) as [Hp | [s' Hstep]]; [by exists s|].
    pose proof (step_work s s' Hi Hstep). apply (IH s'); [lia|]. by eapply rtc_r. }
  apply (H (S (work (start fragments))) (start fragments)); [lia|apply rtc_refl].
Qed.

(** ** Properties *)

(** Never more than [maxConcurrentRequests] (eight when it is not positive) fragments of a
    document are being fetched at one time, in every interleaving, with or without a semaphore. *)
Theorem workers_bounded s (H : reachable s) : tally running (workers s) ≤ maxWorkers.
Proof.
  apply runner_reachable_Inv in H as Hs. transitivity (tally holds (workers s)).
  { apply tally_le. intros [| |m []|]; simpl; lia. }
  pose proof (inv_sem s Hs) as Hsem. destruct (Nat.ltb_spec maxWorkers (length fragments)).
  - by destruct (inv_held s Hs _ Hsem) as [<- ?].
  - transitivity (length (workers s)); [apply tally_le_length; intros [| |m []|]; simpl; lia|]. by rewrite (inv_workers s Hs).
Qed.

(** C24: Fetching the fragments of a document ends.  However the goroutines are scheduled, there
    are at most five steps per fragment and three of the caller, and as long as
    the caller has not returned somebody can move: no deadlock on the semaphore or the
    wait group, also when the fragments outnumber the places. *)
Theorem workers_finish n s (H : nsteps step n (start fragments) s) :
  n ≤ 5 * length fragments + 3 ∧ (pc s = Returned ∨ ∃ s', step s s').
Proof.
  assert (n + work s ≤ work (start fragments) ∧ Inv s) as [Hn Hs].
  { remember (start fragments) as s0 eqn:H0. assert (Inv s0) as Hi by (subst; apply start_Inv). clear H0.
    induction H as [s0|n s0 s1 s2 Hstep _ IH]; [by split|]. pose proof (step_work _ _ Hi Hstep).
    destruct IH as [? ?]; [by eapply runner_step_Inv|]. split; [lia|done]. }
  split; [|by apply runner_progress]. transitivity (work (start fragments)); [lia|].
  unfold work, start. simpl. rewrite tally_replicate. destruct (length fragments); simpl; lia.
Qed.
End Workers.

(** ** Concurrency changes nothing *)
Section Refinement.
Context {E : GoEnv} (cfg : esiConfig) (internalFetcher : option (esiExecutionState → str → Request → fetcher_result))
        (http_Do : esiExecutionState → Request → result Response) (alt_budget : EsiFragment → bool).
Context (fuel : nat) (parentReq : Request) (parentBody : str) (state : esiExecutionState).

(** What [executeFragment] writes for a fragment. *)
Definition fetched (f : EsiFragment) : fragmentResult :=
  default (fallback_result cfg parentBody f)
    (executeFragment cfg internalFetcher http_Do alt_budget fuel parentReq parentBody f state).

(** C9: The workers implement the sequential loop.  In every interleaving, when the caller returns,
    the results and the cookies are those of fetching the fragments one after the
    other in document order, as [Esi.executeFragments] does. *)
Theorem workers_refine fragments s
    (Hfuel : (Z.to_nat (st_maxDepth state - st_depth state) < fuel)%nat)
    (H : reachable cfg parentBody fetched fragments s) (Hp : pc s = Returned) :
  executeFragments cfg internalFetcher http_Do alt_budget fuel parentReq parentBody fragments state = returned s.
Proof.
  unfold returned. rewrite (returned_results cfg parentBody fetched fragments s) by (done || by apply runner_reachable_Inv).
  unfold executeFragments. f_equal. clear H Hp.
  assert (mapM id (Some <$> (result_of cfg parentBody fetched <$> fragments)) = Some (result_of cfg parentBody fetched <$> fragments)) as ->.
  { apply mapM_Some. rewrite Forall2_fmap_l. apply Forall_Forall2_diag, Forall_forall. done. }
  apply mapM_Some. rewrite Forall2_fmap_r. apply Forall_Forall2_diag, Forall_forall. intros f _.
  destruct (executeFragment_total cfg internalFetcher http_Do alt_budget fuel parentReq parentBody f state Hfuel) as [r Hr].
  unfold result_of, fetched. simpl. destruct (is_nil (Src f)) eqn:He; [|by rewrite Hr]. destruct fuel; [lia|]. simpl. by rewrite He.
Qed.
End Refinement.

(** ** Witnesses: three includes, two places *)
Definition two_places : esiConfig :=
  mkEsiConfig false 3 (30 * Second) 2 false [] false 1024 false false [].
Definition tag (src : string) : EsiFragment := mkEsiFragment 0 0 (B src) [] [] 0 0 0 0.
Definition three_tags : list EsiFragment := [tag "/a"; tag "/b"; tag "/c"].
Definition some_page (f : EsiFragment) : fragmentResult := mkFragmentResult f (Src f) false [].

Definition three_started : runner :=
  set_slot 0 (Busy false Executing) (take_slot (set_pc (Loop 1) (set_slot 0 (Busy false Blocked)
    (set_wg 1 (start two_places three_tags))))).

Lemma three_started_steps : nsteps (step two_places [] some_page three_tags) 2 (start two_places three_tags) three_started.
Proof.
  econstructor; [apply (step_spawn _ _ _ _ _ 0 (tag "/a")); done|].
  econstructor; [|constructor]. apply step_acquire; [done|]. vm_compute. lia.
Qed.

Lemma workers_bounded_witness :
  tally running (workers three_started) = 1 ∧ tally running (workers three_started) ≤ maxWorkers two_places.
Proof.
  split; [reflexivity|]. apply (workers_bounded two_places [] some_page three_tags).
  apply rtc_nsteps. exists 2. exact three_started_steps.
Defined.

Lemma workers_finish_witness :
  2 ≤ 5 * length three_tags + 3 ∧ (pc three_started = Returned ∨ ∃ s', step two_places [] some_page three_tags three_started s').
Proof. exact (workers_finish two_places [] some_page three_tags 2 three_started three_started_steps). Defined.

Lemma workers_refine_witness :
  ∃ s, returned s = Some ((λ f, mkFragmentResult f (Src f) false []) <$> three_tags, []).
Proof.
  set (page := λ (_ : esiExecutionState) (path : str) (_ : Request), Fetched path ∅).
  set (req := mkRequest (B "GET") None (B "example.com") ∅ false).
  destruct (run_ends two_places [] (fetched two_places (Some page) (λ _ _, Err []) (λ _, true) 4 req [] (mkState 0 3 [])) three_tags)
    as (s & Hs & Hp).
  exists s. rewrite <- (workers_refine two_places (Some page) (λ _ _, Err []) (λ _, true) 4 req [] (mkState 0 3 []) three_tags s
    ltac:(simpl; lia) Hs Hp).
  vm_compute. reflexivity.
Defined.
