(* ===== verification/Budget.v ===== *)
(** * Time budgets of fragments ([ProcessFragments], [executeFragment] and
      [fetchOutboundHTTP] of [src/esi/processor.go])

    The deadlines of the contexts that fragments are fetched under, as functions of the
    clock.  [None] is a context without a deadline; a deadline cuts off what runs under it.  [Esi]
    takes the outcome of a cut fetch, and whether an alternative is tried ([alt_budget]), as given;
    here is where they come from. *)

From S2P Require Import Prelude GoStrings GoHttp Env Headers Storage Scanner Esi.
#[local] Open Scope Z_scope.

(** ** Contexts *)

(** [context.WithTimeout]: the deadline of the parent if it is earlier. *)
Definition WithTimeout (parent : option Z) (now d : Z) : option Z :=
  Some (match parent with Some p => Z.min p (now + d) | None => now + d end).

(** [ctx.Err() != nil] for a context that is not cancelled otherwise. *)
Definition expired (deadline : option Z) (now : Z) : bool :=
  match deadline with Some d => d <=? now | None => false end.

(** No later than. *)
Definition within (d bound : option Z) : Prop :=
  match d, bound with
  | _, None => True
  | Some d, Some b => d <= b
  | None, Some _ => False
  end.

#[export] Instance within_preorder : PreOrder within.
Proof. split; [intros [d|]; simpl; lia|]. intros [a|] [b|] [c|]; simpl; lia. Qed.

Section Budget.
Context (cfg : esiConfig).

(** The context of a document. *)
Definition document_deadline (parent : option Z) (now : Z) : option Z :=
  match parent with
  | None => if 0 <? maxTimeout cfg then WithTimeout None now (maxTimeout cfg) else None
  | Some _ => parent
  end.

Definition tagTimeout (frag : EsiFragment) : Z := mul_dur (TimeoutMs frag) Millisecond.

Definition effectiveTimeout (frag : EsiFragment) : Z :=
  if (0 <? tagTimeout frag) && (tagTimeout frag <? maxTimeout cfg) then tagTimeout frag else maxTimeout cfg.

(** [fragCtx]: that of the document, or a shorter one. *)
Definition fragment_deadline (parent : option Z) (frag : EsiFragment) (now : Z) : option Z :=
  if 0 <? tagTimeout frag then
    match parent with
    | Some d => if now + tagTimeout frag <? d then WithTimeout parent now (tagTimeout frag) else parent
    | None => WithTimeout parent now (tagTimeout frag)
    end
  else
    match parent with
    | None => if 0 <? effectiveTimeout frag then WithTimeout parent now (effectiveTimeout frag) else parent
    | Some _ => parent
    end.

(** What is left for the alternative when the fetch, begun at [fetchStart], failed at [now]. *)
Definition remainingBudget (frag : EsiFragment) (fetchStart now : Z) : Z :=
  sub_dur (effectiveTimeout frag) (sub_dur now fetchStart).

(** The alternative is tried. *)
Definition tries_alt (deadline : option Z) (frag : EsiFragment) (fetchStart now : Z) : bool :=
  negb (is_nil (Alt frag)) && negb (expired deadline now) && (0 <? remainingBudget frag fetchStart now).

(** The context of an outbound request made at [now] with a time budget, under the context of its fetch; an
    in-process fetch runs under that context itself. *)
Definition outbound_deadline (fetch_ctx : option Z) (now timeout : Z) : option Z :=
  WithTimeout fetch_ctx now timeout.

(** [fetchWithFlight], called at [now] with the fragment's context and a time budget.  A document that names a URL
    twice ([shared]) has a flight group, whose fetches run under the document's context and
    with the whole [maxTimeout]; the fragment waits for them under its own. *)
Definition fetch_deadline (shared : bool) (parent frag_deadline : option Z) (now timeout : Z) : option Z :=
  if shared then outbound_deadline parent now (maxTimeout cfg) else outbound_deadline frag_deadline now timeout.

Definition earliest (a b : option Z) : option Z :=
  match a, b with
  | Some a, Some b => Some (Z.min a b)
  | Some a, None => Some a
  | None, _ => b
  end.

(** When the fragment goes on at the latest: the select of a shared fetch also ends with the fragment's context. *)
Definition goes_on (shared : bool) (frag_deadline fetch : option Z) : option Z :=
  if shared then earliest frag_deadline fetch else fetch.








End Budget.



(** In a document that repeats a URL the alternative gets the whole [max_timeout] again: the fetch of
    the source fails after 29 of 30 seconds, and the alternative may run until the 59th. *)
Example shared_alternative_overruns :
  let frag := mkEsiFragment 0 10 (B "/a") (B "/b") [] 0 0 0 0 in
  let deadline := fragment_deadline defaultEsiConfig (Some (60 * Second)) frag 0 in
  tries_alt defaultEsiConfig deadline frag 0 (29 * Second) = true ∧
  remainingBudget defaultEsiConfig frag 0 (29 * Second) = Second ∧
  goes_on true deadline (fetch_deadline defaultEsiConfig true (Some (60 * Second)) deadline (29 * Second) Second)
  = Some (59 * Second).
Proof. vm_compute. repeat split. Qed.

(** The README says that [max_timeout] is the maximum time budget of a fragment.  A request
    with a deadline of its own makes the code skip it, and so does the timeout of a tag: an
    in-process fetch of ten minutes is allowed under a [max_timeout] of thirty seconds. *)
Example in_process_outlives_max_timeout :
  let document := document_deadline defaultEsiConfig (Some (600 * Second)) 0 in
  fragment_deadline defaultEsiConfig document (mkEsiFragment 0 10 (B "/a") [] [] 0 0 0 0) 0 = Some (600 * Second) ∧
  fragment_deadline defaultEsiConfig document (mkEsiFragment 0 10 (B "/a") [] [] 0 300000 0 0) 0 = Some (300 * Second) ∧
  maxTimeout defaultEsiConfig = 30 * Second.
Proof. vm_compute. repeat split. Qed.
