(* ===== verification/Flight.v ===== *)
(** * Shared fetches of equal fragment URLs ([flightGroup] of [src/esi/processor.go])

    A document that names a URL twice gets a [flightGroup]: concurrent fragments of
    one URL wait for one fetch, and the outcome is remembered for the fragments that
    come later.  The heap of trackers, the cancelled contexts, the running calls and
    the waiting fragments are explicit; [step] is one atomic action of one goroutine
    (a locked section, the return of a fetch, a delivery, a deadline).
    [golang.org/x/sync/singleflight] is the class [SingleFlight]. *)

From S2P Require Import Prelude GoStrings.

(** ** [singleflight.Group]

    What the package documents: [DoChan] runs its function unless a call for the key
    is in flight, in which case the caller shares that call's result; [Forget] makes
    the next [DoChan] start a new call; a call that has returned is in flight no more.
    The name of a new call is chosen by the caller. *)
Class SingleFlight := {
  sf_group : Type;
  sf_new : sf_group;
  sf_current : sf_group → str → option nat;
  sf_DoChan : str → nat → sf_group → nat * sf_group;
  sf_Forget : str → sf_group → sf_group;
  sf_Returned : nat → sf_group → sf_group;
  sf_current_new k : sf_current sf_new k = None;
  sf_DoChan_call k c g : (sf_DoChan k c g).1 = default c (sf_current g k);
  sf_DoChan_current k c g k' :
    sf_current (sf_DoChan k c g).2 k' =
    (if decide (k' = k) then Some (default c (sf_current g k)) else sf_current g k');
  sf_Forget_current k g k' :
    sf_current (sf_Forget k g) k' = (if decide (k' = k) then None else sf_current g k');
  sf_Returned_current c g k' :
    sf_current (sf_Returned c g) k' =
    (if decide (sf_current g k' = Some c) then None else sf_current g k');
}.

(** ** Data *)
Record rawFetchResult := mkRaw { raw_body : str; raw_cookies : list str; raw_mode : str }.

(** Pointers are names: of a [*flightTracker], of the context its [cancel] cancels. *)
Record flightTracker := mkTracker { cancel : nat; listeners : Z }.

(** [singleflight.Result]: [Val] is an interface, [nil] or a [*rawFetchResult]. *)
Record sfResult := mkSfResult { Val : option (option rawFetchResult); sfErr : option str }.

Definition rawPair (r : option rawFetchResult) (e : option str) : sfResult := mkSfResult (Some r) e.

(** What a caller of [fetchWithFlight] gets. *)
Abbreviation outcome := (option rawFetchResult * option str)%type.

(** The functions [do] hands to [DoChan]: the fetch under the context [ctx], and the
    placeholder of a caller that joins. *)
Inductive flight_fn := FetchFn (key : str) (ctx : nat) | NilFn.

(** A call of the group: its function runs, it has returned, its result is sent. *)
Inductive call_stage := Running | Finished (r : sfResult) | Sent (r : sfResult).

Record call := mkCall { call_fn : flight_fn; call_stage_of : call_stage }.

(** The channel a caller waits on: buffered with a result, or fed by a call. *)
Inductive channel := Ready (r : sfResult) | Awaits (c : nat).

Record waiter := mkWaiter { w_key : str; w_tracker : option nat; w_ch : channel }.

Section Flight.
Context {SF : SingleFlight}.

Record flightGroup := mkFlightGroup {
  trackers : gmap str nat;
  results : gmap str (option rawFetchResult);
  errors : gmap str (option str);
  sf : sf_group;
}.

Definition newFlightGroup : flightGroup := mkFlightGroup ∅ ∅ ∅ sf_new.

(** The group with everything its goroutines share; [log] keeps what callers were given. *)
Record world := mkWorld {
  fg : flightGroup;
  heap : gmap nat flightTracker;
  cancelled : gset nat;
  calls : gmap nat call;
  waiting : gmap nat waiter;
  next : nat;
  log : list (nat * str * outcome);
}.

Definition new_world : world := mkWorld newFlightGroup ∅ ∅ ∅ ∅ 0 [].

(** ** Operations *)

(** [DoChan] with a function: a call starts only if the group has none for the key. *)
Definition DoChan (key : str) (fn : flight_fn) (s : world) : channel * world :=
  let g := fg s in
  let '(c, sf') := sf_DoChan key (next s) (sf g) in
  (Awaits c,
   mkWorld (mkFlightGroup (trackers g) (results g) (errors g) sf') (heap s) (cancelled s)
     (if decide (c = next s) then <[c := mkCall fn Running]> (calls s) else calls s)
     (waiting s) (S (next s)) (log s)).

Definition set_trackers (m : gmap str nat) (s : world) : world :=
  mkWorld (mkFlightGroup m (results (fg s)) (errors (fg s)) (sf (fg s)))
    (heap s) (cancelled s) (calls s) (waiting s) (next s) (log s).

Definition set_heap (m : gmap nat flightTracker) (s : world) : world :=
  mkWorld (fg s) m (cancelled s) (calls s) (waiting s) (next s) (log s).

(** [flightGroup.do]; the new tracker, its context and its call take the next name. *)
Definition do (key : str) (s : world) : option nat * channel * world :=
  match results (fg s) !! key with
  | Some res => (None, Ready (rawPair res (default None (errors (fg s) !! key))), s)
  | None =>
    match trackers (fg s) !! key with
    | None =>
        let tracker := next s in
        let s1 := set_heap (<[tracker := mkTracker tracker 1]> (heap s))
                    (set_trackers (<[key := tracker]> (trackers (fg s))) s) in
        let '(ch, s2) := DoChan key (FetchFn key tracker) s1 in
        (Some tracker, ch, s2)
    | Some tracker =>
        let s1 := set_heap (alter (λ t, mkTracker (cancel t) (listeners t + 1)) tracker (heap s)) s in
        let '(ch, s2) := DoChan key NilFn s1 in
        (Some tracker, ch, s2)
    end
  end.

(** The locked section at the end of the fetch function. *)
Definition record_result (key : str) (res : option rawFetchResult) (err : option str)
    (g : flightGroup) : flightGroup :=
  mkFlightGroup (delete key (trackers g)) (<[key := res]> (results g)) (<[key := err]> (errors g)) (sf g).

(** [flightGroup.release]. *)
Definition release (key : str) (tracker : option nat) (s : world) : world :=
  match tracker with
  | None => s
  | Some p =>
    match heap s !! p with
    | None => s
    | Some t =>
        let t' := mkTracker (cancel t) (listeners t - 1) in
        let g := fg s in
        let h := <[p := t']> (heap s) in
        if (listeners t' <=? 0)%Z then
          mkWorld
            (mkFlightGroup
               (if decide (trackers g !! key = Some p) then delete key (trackers g) else trackers g)
               (results g) (errors g) (sf_Forget key (sf g)))
            h ({[ cancel t' ]} ∪ cancelled s) (calls s) (waiting s) (next s) (log s)
        else set_heap h s
    end
  end.

(** What [fetchWithFlight] makes of the received result. *)
Definition received (r : sfResult) : outcome :=
  match sfErr r with
  | Some e => (None, Some e)
  | None =>
      match Val r with
      | Some p => (p, None)
      | None => (None, Some (B "esi: invalid flight result type"))
      end
  end.

Definition set_waiting (m : gmap nat waiter) (s : world) : world :=
  mkWorld (fg s) (heap s) (cancelled s) (calls s) m (next s) (log s).

(** [fetchWithFlight] up to its [select] ... *)
Definition enter (w : nat) (key : str) (s : world) : world :=
  let '(t, ch, s') := do key s in
  set_waiting (<[w := mkWaiter key t ch]> (waiting s')) s'.

(** ... and either branch of the [select]: the tracker is released, the caller returns. *)
Definition leave (w : nat) (u : waiter) (o : outcome) (s : world) : world :=
  let s' := release (w_key u) (w_tracker u) s in
  mkWorld (fg s') (heap s') (cancelled s') (calls s') (delete w (waiting s')) (next s')
    ((w, w_key u, o) :: log s').

(** The value a channel holds. *)
Definition channel_value (s : world) (ch : channel) : option sfResult :=
  match ch with
  | Ready r => Some r
  | Awaits c =>
      match calls s !! c with
      | Some (mkCall _ (Sent r)) => Some r
      | _ => None
      end
  end.

Definition set_call (c : nat) (x : call) (g : flightGroup) (s : world) : world :=
  mkWorld g (heap s) (cancelled s) (<[c := x]> (calls s)) (waiting s) (next s) (log s).

(** [fetch key cut res err]: a fetch of [key] may return [(res, err)] when its context
    was cancelled by the group ([cut]) or not.  [late] are the errors of an expired or
    cancelled context of the caller's own. *)
Variable fetch : str → bool → option rawFetchResult → option str → Prop.
Variable late : str → Prop.

Definition is_cut (s : world) (ctx : nat) : bool := bool_decide (ctx ∈ cancelled s).

Inductive step : world → world → Prop :=
  | step_enter s w key :
      waiting s !! w = None → step s (enter w key s)
  | step_fetch s c key ctx res err :
      calls s !! c = Some (mkCall (FetchFn key ctx) Running) →
      fetch key (is_cut s ctx) res err →
      step s (set_call c (mkCall (FetchFn key ctx) (Finished (rawPair res err)))
                (record_result key res err (fg s)) s)
  | step_placeholder s c :
      calls s !! c = Some (mkCall NilFn Running) →
      step s (set_call c (mkCall NilFn (Finished (mkSfResult None None))) (fg s) s)
  | step_send s c fn r :
      calls s !! c = Some (mkCall fn (Finished r)) →
      step s (set_call c (mkCall fn (Sent r))
                (mkFlightGroup (trackers (fg s)) (results (fg s)) (errors (fg s))
                   (sf_Returned c (sf (fg s)))) s)
  | step_receive s w u r :
      waiting s !! w = Some u → channel_value s (w_ch u) = Some r →
      step s (leave w u (received r) s)
  | step_deadline s w u e :
      waiting s !! w = Some u → late e →
      step s (leave w u (None, Some e) s).

Definition reachable : world → Prop := rtc step new_world.

(** ** The invariant *)
Definition waits_on (p : nat) (u : waiter) : bool := bool_decide (w_tracker u = Some p).

Definition count (p : nat) (m : gmap nat waiter) : nat :=
  size (filter (λ kv : nat * waiter, waits_on p kv.2 = true) m).

Lemma count_insert p w u m :
  m !! w = None → count p (<[w := u]> m) = ((if waits_on p u then 1 else 0) + count p m)%nat.
Proof.
  intros Hw. unfold count. destruct (waits_on p u) eqn:Hu.
  - rewrite map_filter_insert_True by done. apply map_size_insert_None.
    rewrite map_lookup_filter_None. left. exact Hw.
  - by rewrite map_filter_insert_not' by (cbn; rewrite ?Hu; naive_solver).
Qed.

Lemma count_delete p w u m :
  m !! w = Some u → count p m = ((if waits_on p u then 1 else 0) + count p (delete w m))%nat.
Proof.
  intros Hw. rewrite <- (insert_delete_id m w u Hw) at 1.
  apply count_insert, lookup_delete_eq.
Qed.

Lemma count_none p m : (∀ w u, m !! w = Some u → w_tracker u ≠ Some p) → count p m = 0%nat.
Proof.
  intros H. unfold count. apply map_size_empty_iff, map_empty_filter_2.
  intros w u Hw. cbn. unfold waits_on. rewrite bool_decide_eq_true. by eapply H.
Qed.

Lemma count_zero p m w u : count p m = 0%nat → m !! w = Some u → w_tracker u ≠ Some p.
Proof.
  intros Hc Hw Ht. rewrite (count_delete p w u m Hw) in Hc. unfold waits_on in Hc.
  by rewrite bool_decide_eq_true_2 in Hc.
Qed.

(** A result a fetch of [key] may return. *)
Definition produced (key : str) (r : sfResult) : Prop :=
  ∃ b res err, fetch key b res err ∧ r = rawPair res err.

Definition call_ok (s : world) (c : nat) (x : call) : Prop :=
  ∃ key, call_fn x = FetchFn key c ∧ is_Some (heap s !! c) ∧
    match call_stage_of x with
    | Running => True
    | Finished r | Sent r => produced key r ∧ is_Some (results (fg s) !! key)
    end.

Definition tracker_ok (s : world) (p : nat) (t : flightTracker) : Prop :=
  cancel t = p ∧ listeners t = Z.of_nat (count p (waiting s)) ∧ (p < next s)%nat.

Definition waiter_ok (s : world) (u : waiter) : Prop :=
  match w_tracker u with
  | None => ∃ r, w_ch u = Ready r ∧ produced (w_key u) r
  | Some p => w_ch u = Awaits p ∧ ∃ st, calls s !! p = Some (mkCall (FetchFn (w_key u) p) st)
  end.

(** A URL without a result: one tracker, which is the call in flight, and which every
    caller waits on. *)
Definition key_open (s : world) (key : str) : Prop :=
  trackers (fg s) !! key = sf_current (sf (fg s)) key ∧
  ∀ w u, waiting s !! w = Some u → w_key u = key →
    is_Some (w_tracker u) ∧ w_tracker u = trackers (fg s) !! key.

Definition in_flight (s : world) (key : str) (p : nat) : Prop :=
  results (fg s) !! key = None ∧
  calls s !! p = Some (mkCall (FetchFn key p) Running) ∧
  ∃ t, heap s !! p = Some t ∧ (0 < listeners t)%Z.

Definition log_ok (e : nat * str * outcome) : Prop :=
  (∃ r, produced e.1.2 r ∧ e.2 = received r) ∨ (∃ err, late err ∧ e.2 = (None, Some err)).

Record Inv (s : world) : Prop := mkInv {
  inv_calls : ∀ c x, calls s !! c = Some x → call_ok s c x;
  inv_heap : ∀ p t, heap s !! p = Some t → tracker_ok s p t;
  inv_cancelled : ∀ p, p ∈ cancelled s → ∃ t, heap s !! p = Some t ∧ listeners t = 0%Z;
  inv_waiting : ∀ w u, waiting s !! w = Some u → waiter_ok s u;
  inv_open : ∀ key, results (fg s) !! key = None → key_open s key;
  inv_trackers : ∀ key p, trackers (fg s) !! key = Some p → in_flight s key p;
  inv_results : ∀ key res, results (fg s) !! key = Some res →
    produced key (rawPair res (default None (errors (fg s) !! key)));
  inv_log : ∀ e, e ∈ log s → log_ok e;
}.

Lemma Inv_new : Inv new_world.
Proof.
  split; cbn; try (intros *; rewrite lookup_empty; done).
  - intros key _. split; cbn.
    + by rewrite lookup_empty, sf_current_new.
    + intros w u H. by rewrite lookup_empty in H.
  - intros e H. by apply not_elem_of_nil in H.
Qed.

(** *** [do] *)

(** What [do] returns, by case: a remembered result, a new tracker, or the one in flight. *)
Lemma do_cases key s (I : Inv s) :
  match results (fg s) !! key with
  | Some res => do key s = (None, Ready (rawPair res (default None (errors (fg s) !! key))), s)
  | None =>
    match trackers (fg s) !! key with
    | None => do key s =
        (Some (next s), Awaits (next s),
         mkWorld (mkFlightGroup (<[key := next s]> (trackers (fg s))) (results (fg s)) (errors (fg s))
                    (sf_DoChan key (next s) (sf (fg s))).2)
           (<[next s := mkTracker (next s) 1]> (heap s)) (cancelled s)
           (<[next s := mkCall (FetchFn key (next s)) Running]> (calls s))
           (waiting s) (S (next s)) (log s))
    | Some p => do key s =
        (Some p, Awaits p,
         mkWorld (mkFlightGroup (trackers (fg s)) (results (fg s)) (errors (fg s))
                    (sf_DoChan key (next s) (sf (fg s))).2)
           (alter (λ t, mkTracker (cancel t) (listeners t + 1)) p (heap s)) (cancelled s)
           (calls s) (waiting s) (S (next s)) (log s))
    end
  end.
Proof.
  destruct (results (fg s) !! key) eqn:Hr; [by unfold do; rewrite Hr |].
  destruct (inv_open s I key Hr) as [Hcur _].
  destruct (trackers (fg s) !! key) as [p |] eqn:Ht.
  - destruct (inv_trackers s I key p Ht) as (_ & _ & t & Hp & _).
    destruct (inv_heap s I p t Hp) as (_ & _ & Hlt).
    unfold do. rewrite Hr, Ht. unfold DoChan. cbn.
    pose proof (sf_DoChan_call key (next s) (sf (fg s))) as Hc. rewrite <- Hcur in Hc.
    destruct (sf_DoChan key (next s) (sf (fg s))) as [c g]. cbn in *. subst c.
    by rewrite decide_False by lia.
  - unfold do. rewrite Hr, Ht. unfold DoChan. cbn.
    pose proof (sf_DoChan_call key (next s) (sf (fg s))) as Hc. rewrite <- Hcur in Hc.
    destruct (sf_DoChan key (next s) (sf (fg s))) as [c g]. cbn in *. subst c.
    by rewrite decide_True.
Qed.

(** A waiter's tracker and call have names below [next]. *)
Lemma waiter_fresh s w u : Inv s → waiting s !! w = Some u → w_tracker u ≠ Some (next s).
Proof.
  intros I Hw Ht. pose proof (inv_waiting s I w u Hw) as H. unfold waiter_ok in H.
  rewrite Ht in H. destruct H as (_ & st & Hc).
  destruct (inv_calls s I _ _ Hc) as (k & _ & [t Hh] & _).
  destruct (inv_heap s I _ _ Hh) as (_ & _ & Hlt). lia.
Qed.

Lemma heap_fresh s : Inv s → heap s !! next s = None.
Proof.
  intros I. destruct (heap s !! next s) as [t |] eqn:H; [| done].
  destruct (inv_heap s I _ _ H) as (_ & _ & Hlt). lia.
Qed.

Lemma call_fresh s : Inv s → calls s !! next s = None.
Proof.
  intros I. destruct (calls s !! next s) as [x |] eqn:H; [| done].
  destruct (inv_calls s I _ _ H) as (_ & _ & [t Hh] & _). by rewrite heap_fresh in Hh.
Qed.

Lemma Inv_enter_cached w key res s :
  Inv s → waiting s !! w = None → results (fg s) !! key = Some res →
  Inv (set_waiting (<[w := mkWaiter key None
    (Ready (rawPair res (default None (errors (fg s) !! key))))]> (waiting s)) s).
Proof.
  intros I Hw Hr. split; cbn; try apply I.
  - intros p t Hp. destruct (inv_heap s I p t Hp) as (H1 & H2 & H3).
    split_and!; [done | | done]. cbn. by rewrite count_insert.
  - intros w' u [[<- <-] | [Hne Hu]]%lookup_insert_Some; [| by apply (inv_waiting s I w')].
    eexists. split; [done |]. by apply (inv_results s I).
  - intros k Hk. destruct (inv_open s I k Hk) as [H1 H2]. split; [done |]. cbn.
    intros w' u [[<- <-] | [Hne Hu]]%lookup_insert_Some; [cbn; congruence | by eapply H2].
Qed.

Lemma Inv_enter_new w key s :
  Inv s → waiting s !! w = None → results (fg s) !! key = None → trackers (fg s) !! key = None →
  Inv (mkWorld (mkFlightGroup (<[key := next s]> (trackers (fg s))) (results (fg s)) (errors (fg s))
                  (sf_DoChan key (next s) (sf (fg s))).2)
         (<[next s := mkTracker (next s) 1]> (heap s)) (cancelled s)
         (<[next s := mkCall (FetchFn key (next s)) Running]> (calls s))
         (<[w := mkWaiter key (Some (next s)) (Awaits (next s))]> (waiting s)) (S (next s)) (log s)).
Proof.
  intros I Hw Hr Ht. pose proof (heap_fresh s I) as Hh. pose proof (call_fresh s I) as Hc.
  destruct (inv_open s I key Hr) as [Hcur Hwait]. split; cbn; try apply I.
  - intros c x [[<- <-] | [Hne Hx]]%lookup_insert_Some.
    + eexists. cbn. split_and!; [done | by rewrite lookup_insert_eq | done].
    + destruct (inv_calls s I c x Hx) as (k & H1 & H2 & H3).
      eexists. cbn. split_and!; [done | by rewrite lookup_insert_ne | done].
  - intros p t [[<- <-] | [Hne Hp]]%lookup_insert_Some; unfold tracker_ok; cbn;
      rewrite count_insert by done; unfold waits_on; cbn.
    + rewrite bool_decide_true by done.
      rewrite count_none; [split_and!; [done | done | lia] |].
      intros w' u Hu. by eapply waiter_fresh.
    + destruct (inv_heap s I p t Hp) as (H1 & H2 & H3).
      rewrite bool_decide_false by congruence. split_and!; [done | done | lia].
  - intros p Hp. destruct (inv_cancelled s I p Hp) as (t & H1 & H2).
    exists t. split; [| done]. rewrite lookup_insert_ne; congruence.
  - intros w' u [[<- <-] | [Hne Hu]]%lookup_insert_Some; unfold waiter_ok; cbn.
    + split; [done |]. eexists. apply lookup_insert_eq.
    + pose proof (inv_waiting s I w' u Hu) as Hok. unfold waiter_ok in Hok.
      pose proof (waiter_fresh s w' u I Hu) as Hfr.
      destruct (w_tracker u) as [p |]; [| done]. destruct Hok as (H1 & st & H2).
      split; [done |]. exists st. rewrite lookup_insert_ne; congruence.
  - intros k Hk. destruct (inv_open s I k Hk) as [H1 H2].
    split; cbn; rewrite ?sf_DoChan_current, ?lookup_insert.
    + rewrite <- Hcur, Ht. repeat case_decide; subst; try done.
    + intros w' u [[<- <-] | [Hne Hu]]%lookup_insert_Some; cbn; [by intros ->; rewrite decide_True |].
      intros Hk'. case_decide; [| by eapply (H2 w' u)].
      destruct (Hwait w' u Hu) as [[p Hp] Heq]; congruence.
  - intros k p [[<- <-] | [Hne Hp]]%lookup_insert_Some; unfold in_flight; cbn.
    + split_and!; [done | by apply lookup_insert_eq | eexists; split; [apply lookup_insert_eq | done]].
    + destruct (inv_trackers s I k p Hp) as (H1 & H2 & t & H3 & H4).
      rewrite !lookup_insert_ne by congruence. split_and!; [done | done | by exists t].
Qed.

Lemma Inv_enter_join w key p s :
  Inv s → waiting s !! w = None → results (fg s) !! key = None → trackers (fg s) !! key = Some p →
  Inv (mkWorld (mkFlightGroup (trackers (fg s)) (results (fg s)) (errors (fg s))
                  (sf_DoChan key (next s) (sf (fg s))).2)
         (alter (λ t, mkTracker (cancel t) (listeners t + 1)) p (heap s)) (cancelled s)
         (calls s) (<[w := mkWaiter key (Some p) (Awaits p)]> (waiting s)) (S (next s)) (log s)).
Proof.
  intros I Hw Hr Ht. destruct (inv_open s I key Hr) as [Hcur Hwait].
  destruct (inv_trackers s I key p Ht) as (_ & Hcall & t0 & Hp0 & Hpos).
  split; cbn; try apply I.
  - intros c x Hx. destruct (inv_calls s I c x Hx) as (k & H1 & H2 & H3).
    eexists. cbn. split_and!; [done | | done].
    rewrite lookup_alter. case_decide; [subst; by rewrite Hp0 | done].
  - intros q t. rewrite lookup_alter. unfold tracker_ok. cbn. rewrite count_insert by done.
    unfold waits_on. cbn. case_decide.
    + subst q. rewrite Hp0. cbn. intros [= <-]. cbn.
      destruct (inv_heap s I p t0 Hp0) as (H1 & H2 & H3).
      rewrite bool_decide_true by done. split_and!; [done | lia | lia].
    + intros Hq. destruct (inv_heap s I q t Hq) as (H1 & H2 & H3).
      rewrite bool_decide_false by congruence. split_and!; [done | done | lia].
  - intros q Hq. destruct (inv_cancelled s I q Hq) as (t & H1 & H2).
    exists t. split; [| done]. rewrite lookup_alter_ne; [done |]. intros ->. rewrite Hp0 in H1.
    injection H1 as ->. lia.
  - intros w' u [[<- <-] | [Hne Hu]]%lookup_insert_Some; [| by apply (inv_waiting s I w' u)].
    unfold waiter_ok. cbn. split; [done | by eexists].
  - intros k Hk. destruct (inv_open s I k Hk) as [H1 H2].
    split; cbn; rewrite ?sf_DoChan_current.
    + rewrite <- Hcur, Ht. case_decide; subst; done.
    + intros w' u [[<- <-] | [Hne Hu]]%lookup_insert_Some; cbn; [intros <-; by rewrite Ht |].
      by eapply H2.
  - intros k q Hq. destruct (inv_trackers s I k q Hq) as (H1 & H2 & t & H3 & H4).
    unfold in_flight. cbn. split_and!; [done | done |].
    rewrite lookup_alter. case_decide; [subst; rewrite H3; cbn; eexists; split; [done | cbn; lia] | by exists t].
Qed.

Lemma Inv_enter w key s : Inv s → waiting s !! w = None → Inv (enter w key s).
Proof.
  intros I Hw. pose proof (do_cases key s I) as H. unfold enter.
  destruct (results (fg s) !! key) eqn:Hr; [rewrite H; by apply Inv_enter_cached |].
  destruct (trackers (fg s) !! key) eqn:Ht; rewrite H.
  - by apply (Inv_enter_join w key n s).
  - by apply (Inv_enter_new w key s).
Qed.

(** *** The calls *)
Lemma Inv_fetch c key ctx res err b s :
  Inv s → calls s !! c = Some (mkCall (FetchFn key ctx) Running) → fetch key b res err →
  Inv (set_call c (mkCall (FetchFn key ctx) (Finished (rawPair res err))) (record_result key res err (fg s)) s).
Proof.
  intros I Hc Hf. destruct (inv_calls s I c _ Hc) as (k0 & Hk0 & Hh & _).
  cbn in Hk0. injection Hk0 as <- ->.
  assert (Hprod : produced key (rawPair res err)) by by exists b, res, err.
  split; cbn; try apply I.
  - intros c' x [[<- <-] | [Hne Hx]]%lookup_insert_Some.
    + eexists. cbn. split_and!; [done | done | done |]. by rewrite lookup_insert_eq.
    + destruct (inv_calls s I c' x Hx) as (k & H1 & H2 & H3). exists k. cbn.
      split_and!; [done | done |]. destruct (call_stage_of x); [done | |];
        (split; [apply H3 |]; rewrite lookup_insert; case_decide; [done | apply H3]).
  - intros w u Hu. pose proof (inv_waiting s I w u Hu) as H. unfold waiter_ok in *. cbn.
    destruct (w_tracker u) as [p |]; [| done]. destruct H as (H1 & st & H2). split; [done |].
    rewrite lookup_insert. case_decide; [| by exists st]. subst p. rewrite Hc in H2.
    injection H2 as <- _. by eexists.
  - intros k [Hk Hne]%lookup_insert_None. destruct (inv_open s I k Hk) as [H1 H2].
    split; cbn; rewrite lookup_delete_ne by done; done.
  - intros k p [Hne Hp]%lookup_delete_Some. destruct (inv_trackers s I k p Hp) as (H1 & H2 & H3).
    unfold in_flight. cbn. rewrite !lookup_insert_ne; [done | | done]. intros ->. congruence.
  - intros k r [[<- <-] | [Hne Hr]]%lookup_insert_Some.
    + by rewrite lookup_insert_eq.
    + rewrite lookup_insert_ne by done. by apply (inv_results s I).
Qed.

Lemma Inv_send c fn r s :
  Inv s → calls s !! c = Some (mkCall fn (Finished r)) →
  Inv (set_call c (mkCall fn (Sent r))
         (mkFlightGroup (trackers (fg s)) (results (fg s)) (errors (fg s)) (sf_Returned c (sf (fg s)))) s).
Proof.
  intros I Hc. destruct (inv_calls s I c _ Hc) as (key & Hfn & Hh & Hprod & Hres). cbn in *. subst fn.
  split; cbn; try apply I.
  - intros c' x [[<- <-] | [Hne Hx]]%lookup_insert_Some; [| by apply (inv_calls s I)].
    exists key. by split_and!.
  - intros w u Hu. pose proof (inv_waiting s I w u Hu) as H. unfold waiter_ok in *. cbn.
    destruct (w_tracker u) as [p |]; [| done]. destruct H as (H1 & st & H2). split; [done |].
    rewrite lookup_insert. case_decide; [| by exists st]. subst p. rewrite Hc in H2.
    injection H2 as <- _. by eexists.
  - intros k Hk. destruct (inv_open s I k Hk) as [H1 H2]. split; cbn; [| done].
    rewrite sf_Returned_current, <- H1. case_decide as Hcase; [| done].
    destruct (inv_trackers s I k c Hcase) as (_ & H3 & _). congruence.
  - intros k p Hp. destruct (inv_trackers s I k p Hp) as (H1 & H2 & H3).
    unfold in_flight. cbn. rewrite lookup_insert_ne by congruence. done.
Qed.

(** No placeholder ever runs. *)
Lemma no_placeholder s c st : Inv s → calls s !! c ≠ Some (mkCall NilFn st).
Proof. intros I Hc. destruct (inv_calls s I c _ Hc) as (k & H & _). done. Qed.

(** *** [release] *)
Lemma log_ok_cons w u o s :
  Inv s → log_ok (w, w_key u, o) → ∀ e, e ∈ (w, w_key u, o) :: log s → log_ok e.
Proof. intros I Ho e [-> | He]%elem_of_cons; [done | by apply (inv_log s I)]. Qed.

Lemma Inv_leave_cached w u o s :
  Inv s → waiting s !! w = Some u → w_tracker u = None → log_ok (w, w_key u, o) →
  Inv (leave w u o s).
Proof.
  intros I Hw Ht Ho. unfold leave. rewrite Ht. cbn. split; cbn; try apply I.
  - intros p t Hp. destruct (inv_heap s I p t Hp) as (H1 & H2 & H3).
    split_and!; [done | | done]. rewrite H2, (count_delete p w u) by done. unfold waits_on.
    rewrite Ht. cbn. by rewrite bool_decide_false.
  - intros w' u' [_ Hu]%lookup_delete_Some. by apply (inv_waiting s I w').
  - intros k Hk. destruct (inv_open s I k Hk) as [H1 H2]. split; [done |]. cbn.
    intros w' u' [_ Hu]%lookup_delete_Some. by apply (H2 w').
  - by apply log_ok_cons.
Qed.

(** The count of the tracker that a caller gives up. *)
Lemma tracker_of_waiter s w u p :
  Inv s → waiting s !! w = Some u → w_tracker u = Some p →
  ∃ t, heap s !! p = Some t ∧ cancel t = p ∧ (p < next s)%nat ∧
    listeners t = (1 + Z.of_nat (count p (delete w (waiting s))))%Z.
Proof.
  intros I Hw Ht. pose proof (inv_waiting s I w u Hw) as H. unfold waiter_ok in H. rewrite Ht in H.
  destruct H as (_ & st & Hc). destruct (inv_calls s I _ _ Hc) as (_ & _ & [t Hh] & _).
  destruct (inv_heap s I p t Hh) as (H1 & H2 & H3). exists t. split_and!; [done | done | done |].
  rewrite H2, (count_delete p w u) by done. unfold waits_on. rewrite Ht, bool_decide_true by done. lia.
Qed.

Lemma tracker_ok_leave s w u p q t :
  Inv s → waiting s !! w = Some u → w_tracker u = Some p → p ≠ q → heap s !! q = Some t →
  cancel t = q ∧ listeners t = Z.of_nat (count q (delete w (waiting s))) ∧ (q < next s)%nat.
Proof.
  intros I Hw Ht Hne Hq. destruct (inv_heap s I q t Hq) as (H1 & H2 & H3).
  split_and!; [done | | done]. rewrite H2, (count_delete q w u) by done.
  unfold waits_on. rewrite Ht, bool_decide_false by congruence. done.
Qed.

(** Others still wait on the tracker: only its count changes. *)
Lemma Inv_leave_shared w u p t o s :
  Inv s → waiting s !! w = Some u → w_tracker u = Some p → heap s !! p = Some t →
  (1 < listeners t)%Z → log_ok (w, w_key u, o) →
  Inv (mkWorld (fg s) (<[p := mkTracker (cancel t) (listeners t - 1)]> (heap s)) (cancelled s) (calls s)
         (delete w (waiting s)) (next s) ((w, w_key u, o) :: log s)).
Proof.
  intros I Hw Ht Hp Hl Ho.
  destruct (tracker_of_waiter s w u p I Hw Ht) as (t' & Hp' & Hc & Hlt & Hn).
  rewrite Hp in Hp'. injection Hp' as <-. split; cbn; try apply I.
  - intros c x Hx. destruct (inv_calls s I c x Hx) as (k & H1 & H2 & H3). exists k. cbn.
    split_and!; [done | | done]. rewrite lookup_insert. by case_decide.
  - intros q tq [[<- <-] | [Hne Hq]]%lookup_insert_Some; unfold tracker_ok; cbn;
      [split_and!; [done | lia | done] | by eapply tracker_ok_leave].
  - intros q Hq. destruct (inv_cancelled s I q Hq) as (tq & H1 & H2). exists tq.
    split; [| done]. rewrite lookup_insert_ne; [done |]. intros ->. rewrite Hp in H1.
    injection H1 as ->. lia.
  - intros w' u' [_ Hu]%lookup_delete_Some. by apply (inv_waiting s I w' u').
  - intros k Hk. destruct (inv_open s I k Hk) as [H1 H2]. split; [done |]. cbn.
    intros w' u' [_ Hu]%lookup_delete_Some. by apply (H2 w').
  - intros k q Hq. destruct (inv_trackers s I k q Hq) as (H1 & H2 & tq & H3 & H4).
    unfold in_flight. cbn. split_and!; [done | done |]. rewrite lookup_insert. case_decide; [| by exists tq].
    eexists. split; [done |]. cbn. lia.
  - by apply log_ok_cons.
Qed.

(** The last caller leaves: the context is cancelled and the URL forgotten. *)
Lemma Inv_leave_last w u p t o s :
  Inv s → waiting s !! w = Some u → w_tracker u = Some p → heap s !! p = Some t →
  (listeners t - 1 <= 0)%Z → log_ok (w, w_key u, o) →
  Inv (mkWorld
         (mkFlightGroup
            (if decide (trackers (fg s) !! w_key u = Some p) then delete (w_key u) (trackers (fg s))
             else trackers (fg s))
            (results (fg s)) (errors (fg s)) (sf_Forget (w_key u) (sf (fg s))))
         (<[p := mkTracker (cancel t) (listeners t - 1)]> (heap s)) ({[ cancel t ]} ∪ cancelled s) (calls s)
         (delete w (waiting s)) (next s) ((w, w_key u, o) :: log s)).
Proof.
  intros I Hw Ht Hp Hl Ho.
  destruct (tracker_of_waiter s w u p I Hw Ht) as (t' & Hp' & Hc & Hlt & Hn).
  rewrite Hp in Hp'. injection Hp' as <-.
  assert (Hz : count p (delete w (waiting s)) = 0%nat) by lia.
  split; cbn; try apply I.
  - intros c x Hx. destruct (inv_calls s I c x Hx) as (k & H1 & H2 & H3). exists k. cbn.
    split_and!; [done | | done]. rewrite lookup_insert. by case_decide.
  - intros q tq [[<- <-] | [Hne Hq]]%lookup_insert_Some; unfold tracker_ok; cbn;
      [split_and!; [done | lia | done] | by eapply tracker_ok_leave].
  - intros q [Hq%elem_of_singleton | Hq]%elem_of_union.
    + rewrite Hc in Hq. subst q. rewrite lookup_insert_eq. eexists. split; [done |]. cbn. lia.
    + destruct (inv_cancelled s I q Hq) as (tq & H1 & H2). rewrite lookup_insert. case_decide; [| by exists tq].
      eexists. split; [done |]. cbn. lia.
  - intros w' u' [_ Hu]%lookup_delete_Some. by apply (inv_waiting s I w' u').
  - intros k Hk. destruct (inv_open s I k Hk) as [H1 H2]. split; cbn.
    + rewrite sf_Forget_current. destruct (decide (k = w_key u)) as [Hkey | Hkey].
      * subst k. destruct (H2 w u Hw eq_refl) as [_ Heq]. rewrite <- Heq, Ht, decide_True by done.
        apply lookup_delete_eq.
      * case_decide; [by rewrite lookup_delete_ne | done].
    + intros w' u' [Hne Hu]%lookup_delete_Some Hk'. destruct (H2 w' u' Hu Hk') as [Hs Heq].
      split; [done |]. rewrite Heq. case_decide as Hcase; [| done].
      destruct (decide (k = w_key u)) as [-> |]; [| by rewrite lookup_delete_ne].
      exfalso. apply (count_zero p _ w' u' Hz); [by apply lookup_delete_Some | congruence].
  - intros k q Hq. assert (Hk : trackers (fg s) !! k = Some q)
      by (case_decide; [by apply lookup_delete_Some in Hq as [_ ?] | done]).
    destruct (inv_trackers s I k q Hk) as (H1 & H2 & tq & H3 & H4).
    unfold in_flight. cbn. split_and!; [done | done |]. rewrite lookup_insert_ne; [by exists tq |].
    intros <-. pose proof (inv_waiting s I w u Hw) as Hok. unfold waiter_ok in Hok.
    rewrite Ht in Hok. destruct Hok as (_ & st & Hcall). rewrite H2 in Hcall. injection Hcall as Hkey _.
    subst k. rewrite decide_True in Hq by done. by rewrite lookup_delete_eq in Hq.
  - by apply log_ok_cons.
Qed.

Lemma Inv_leave w u o s :
  Inv s → waiting s !! w = Some u → log_ok (w, w_key u, o) → Inv (leave w u o s).
Proof.
  intros I Hw Ho. destruct (w_tracker u) as [p |] eqn:Ht; [| by apply Inv_leave_cached].
  destruct (tracker_of_waiter s w u p I Hw Ht) as (t & Hp & _). unfold leave. rewrite Ht.
  unfold release. rewrite Hp. cbn -[decide]. destruct (listeners t - 1 <=? 0)%Z eqn:Hl.
  - apply Z.leb_le in Hl. by apply (Inv_leave_last w u p t o s).
  - apply Z.leb_gt in Hl. apply (Inv_leave_shared w u p t o s); [done.. | lia | done].
Qed.

Lemma channel_value_produced s w u r :
  Inv s → waiting s !! w = Some u → channel_value s (w_ch u) = Some r → produced (w_key u) r.
Proof.
  intros I Hw Hch. pose proof (inv_waiting s I w u Hw) as H. unfold waiter_ok in H.
  destruct (w_tracker u) as [p |].
  - destruct H as (Heq & st & Hc). rewrite Heq in Hch. cbn in Hch. rewrite Hc in Hch.
    destruct st; try done. injection Hch as ->.
    destruct (inv_calls s I _ _ Hc) as (k & Hk & _ & Hp & _). cbn in Hk. by injection Hk as ->.
  - destruct H as (r' & Heq & Hp). rewrite Heq in Hch. by injection Hch as ->.
Qed.

Lemma Inv_step s s' : Inv s → step s s' → Inv s'.
Proof.
  intros I H. destruct H.
  - by apply Inv_enter.
  - by eapply Inv_fetch.
  - exfalso. by eapply no_placeholder.
  - by apply Inv_send.
  - apply Inv_leave; [done | done |]. left. exists r. split; [| done]. by eapply channel_value_produced.
  - apply Inv_leave; [done | done |]. right. by exists e.
Qed.

Lemma Inv_steps s s' : Inv s → rtc step s s' → Inv s'.
Proof. intros I H. induction H; [done | eauto using Inv_step]. Qed.

Lemma reachable_Inv s : reachable s → Inv s.
Proof. apply Inv_steps, Inv_new. Qed.

(** ** What the group promises *)

(** C14: Fragments of one document that name the same URL share one fetch.  Whatever the
    interleaving of callers, fetches, deliveries and deadlines: as long as no result is
    known for a URL, everyone who waits for it waits for one and the same running fetch;
    a fetch somebody waits for is never cancelled by another caller's deadline; the
    listener count of a tracker is exactly the number of callers that hold it; and the
    placeholder function of a joining caller never runs. *)
Theorem equal_urls_share_one_fetch s (H : reachable s) :
  (∀ w u w' u', waiting s !! w = Some u → waiting s !! w' = Some u' → w_key u = w_key u' →
    results (fg s) !! w_key u = None →
    w_ch u = w_ch u' ∧
    ∃ p, w_ch u = Awaits p ∧ calls s !! p = Some (mkCall (FetchFn (w_key u) p) Running)) ∧
  (∀ w u p, waiting s !! w = Some u → w_tracker u = Some p → p ∉ cancelled s) ∧
  (∀ p t, heap s !! p = Some t →
    listeners t = Z.of_nat (size (filter (λ kv : nat * waiter, waits_on p kv.2 = true) (waiting s)))) ∧
  (∀ c st, calls s !! c ≠ Some (mkCall NilFn st)).
Proof.
  apply reachable_Inv in H. split_and!.
  - intros w u w' u' Hw Hw' Hk Hr. destruct (inv_open s H _ Hr) as [_ Ho].
    destruct (Ho w u Hw eq_refl) as [[p Hp] He]. destruct (Ho w' u' Hw' (eq_sym Hk)) as [_ He'].
    pose proof (inv_waiting s H w u Hw) as H1. pose proof (inv_waiting s H w' u' Hw') as H2.
    unfold waiter_ok in H1, H2. rewrite He', <- He, Hp in H2. rewrite Hp in H1.
    destruct H1 as (H1 & st & Hc), H2 as (H2 & _). split; [congruence |]. exists p. split; [done |].
    destruct (inv_trackers s H (w_key u) p) as (_ & Hcall & _); [congruence | done].
  - intros w u p Hw Ht Hin. destruct (tracker_of_waiter s w u p H Hw Ht) as (t & Hp & _ & _ & Hn).
    destruct (inv_cancelled s H p Hin) as (t' & Hp' & Hz). rewrite Hp in Hp'. injection Hp' as <-. lia.
  - intros p t Hp. by apply (inv_heap s H p t Hp).
  - intros c st. by apply no_placeholder.
Qed.

(** Every caller of the group is given what some fetch of its own URL returned (the
    value, or the error if there is one), or the error of its own expired deadline: never
    another URL's page, a zero value, or an internal error of the group. *)
Theorem shared_outcome_is_a_fetch s w key o (H : reachable s) (Hlog : (w, key, o) ∈ log s) :
  (∃ cut res err, fetch key cut res err ∧
    o = match err with Some e => (None, Some e) | None => (res, None) end) ∨
  (∃ e, late e ∧ o = (None, Some e)).
Proof.
  apply reachable_Inv in H. destruct (inv_log s H _ Hlog) as [(r & Hp & Ho) | Hl]; [left | by right].
  destruct Hp as (b & res & err & Hf & ->). exists b, res, err. split; [done |].
  cbn in Ho. rewrite Ho. unfold received. by destruct err.
Qed.

(** *** Nobody waits for ever *)

Lemma receive_from s w u r :
  waiting s !! w = Some u → channel_value s (w_ch u) = Some r →
  ∃ s', rtc step s s' ∧ waiting s' !! w = None ∧ (w, w_key u, received r) ∈ log s'.
Proof.
  intros Hw Hr. exists (leave w u (received r) s). split_and!.
  - apply rtc_once. by apply step_receive.
  - cbn. apply lookup_delete_eq.
  - cbn. apply list_elem_of_here.
Qed.

(** No caller is stuck: from every reachable state in which a caller waits, the
    other goroutines can bring it its result by running the fetch it waits for, without
    its own deadline passing, provided fetches return. *)
Theorem no_caller_is_stuck s w u (H : reachable s) (Hw : waiting s !! w = Some u)
    (Hfetch : ∀ key cut, ∃ res err, fetch key cut res err) :
  ∃ s' r, rtc step s s' ∧ waiting s' !! w = None ∧ produced (w_key u) r ∧
    (w, w_key u, received r) ∈ log s'.
Proof.
  assert (Hdone : ∀ s1 r, reachable s1 → rtc step s s1 → waiting s1 !! w = Some u →
    channel_value s1 (w_ch u) = Some r → ∃ s' r, rtc step s s' ∧ waiting s' !! w = None ∧
      produced (w_key u) r ∧ (w, w_key u, received r) ∈ log s').
  { intros s1 r H1 Hs Hw1 Hr. destruct (receive_from s1 w u r Hw1 Hr) as (s' & Hs' & Hw' & Hl).
    exists s', r. split_and!; [by etrans | done | | done].
    eapply channel_value_produced; [by apply reachable_Inv | done..]. }
  assert (Hsend : ∀ s1 p fn r, reachable s1 → rtc step s s1 → waiting s1 !! w = Some u →
    w_ch u = Awaits p → calls s1 !! p = Some (mkCall fn (Finished r)) →
    ∃ s' r, rtc step s s' ∧ waiting s' !! w = None ∧
      produced (w_key u) r ∧ (w, w_key u, received r) ∈ log s').
  { intros s1 p fn r H1 Hs Hw1 Hch Hc. pose proof (step_send s1 p fn r Hc) as Hst.
    eapply Hdone; [eapply rtc_r; [exact H1 | exact Hst] | eapply rtc_r; [exact Hs | exact Hst] | done |].
    rewrite Hch. cbn. by rewrite lookup_insert_eq. }
  pose proof (reachable_Inv s H) as I. pose proof (inv_waiting s I w u Hw) as Hok. unfold waiter_ok in Hok.
  destruct (w_tracker u) as [p |].
  - destruct Hok as (Hch & st & Hc). destruct st as [| r | r].
    + destruct (Hfetch (w_key u) (is_cut s p)) as (res & err & Hf).
      pose proof (step_fetch s p _ _ res err Hc Hf) as Hst.
      eapply (Hsend _ p); [by eapply rtc_r | by eapply rtc_once | done | done | by apply lookup_insert_eq].
    + by eapply (Hsend s p).
    + eapply (Hdone s r); [done | done | done |]. rewrite Hch. cbn. by rewrite Hc.
  - destruct Hok as (r & Hch & _). eapply (Hdone s r); [done | done | done |]. by rewrite Hch.
Qed.

(** *** An abandoned fetch *)

Lemma enter_new w key s :
  Inv s → results (fg s) !! key = None → trackers (fg s) !! key = None →
  let s1 := enter w key s in
  waiting s1 = <[w := mkWaiter key (Some (next s)) (Awaits (next s))]> (waiting s) ∧
  results (fg s1) = results (fg s) ∧
  heap s1 !! next s = Some (mkTracker (next s) 1) ∧
  calls s1 = <[next s := mkCall (FetchFn key (next s)) Running]> (calls s).
Proof.
  intros I Hr Ht. pose proof (do_cases key s I) as H. rewrite Hr, Ht in H.
  unfold enter. rewrite H. cbn. by rewrite lookup_insert_eq.
Qed.

Lemma leave_alone w key p o s :
  heap s !! p = Some (mkTracker p 1) →
  let s1 := leave w (mkWaiter key (Some p) (Awaits p)) o s in
  waiting s1 = delete w (waiting s) ∧ results (fg s1) = results (fg s) ∧
  calls s1 = calls s ∧ p ∈ cancelled s1.
Proof.
  intros Hp. unfold leave, release. cbn. rewrite Hp. cbn. split_and!; [done.. |].
  by apply elem_of_union_l, elem_of_singleton.
Qed.

Lemma enter_cached w key res s :
  results (fg s) !! key = Some res →
  enter w key s = set_waiting (<[w := mkWaiter key None
    (Ready (rawPair res (default None (errors (fg s) !! key))))]> (waiting s)) s.
Proof. intros H. unfold enter, do. by rewrite H. Qed.

(** A defect: A fetch that was cut off because its caller's own (short) deadline
    passed leaves its cancellation error as the remembered result of the URL.  From any
    state in which a URL is idle: one caller asks for it and gives up at its deadline,
    the cancelled fetch returns its error, and a second caller, whose deadline has not
    passed, is given that error at once; the only fetch ever started is the abandoned
    one.  A fetch for the second caller was never tried. *)
Theorem abandoned_fetch_poisons s w1 w2 key e d
    (H : reachable s) (Hr : results (fg s) !! key = None) (Ht : trackers (fg s) !! key = None)
    (Hw1 : waiting s !! w1 = None) (Hw2 : waiting s !! w2 = None)
    (Hcut : fetch key true None (Some e)) (Hd : late d) :
  ∃ s', rtc step s s' ∧ head (log s') = Some (w2, key, (None, Some e)) ∧
    waiting s' = waiting s ∧ dom (calls s') = {[ next s ]} ∪ dom (calls s) ∧
    call_fn <$> (calls s' !! next s) = Some (FetchFn key (next s)) ∧ next s ∈ cancelled s'.
Proof.
  destruct (enter_new w1 key s (reachable_Inv s H) Hr Ht) as (Hwait & Hres & Hheap & Hcalls).
  pose proof (step_enter s w1 key Hw1) as S1. set (s1 := enter w1 key s) in *.
  set (u1 := mkWaiter key (Some (next s)) (Awaits (next s))) in *.
  destruct (leave_alone w1 key (next s) (None, Some d) s1 Hheap) as (Hwait2 & Hres2 & Hcalls2 & Hcan).
  pose proof (step_deadline s1 w1 u1 d ltac:(rewrite Hwait; apply lookup_insert_eq) Hd) as S2.
  fold u1 in Hwait2, Hres2, Hcalls2, Hcan. set (s2 := leave w1 u1 (None, Some d) s1) in *.
  rewrite Hcalls in Hcalls2. rewrite Hwait, delete_insert_id in Hwait2 by done.
  assert (Hc2 : calls s2 !! next s = Some (mkCall (FetchFn key (next s)) Running))
    by (rewrite Hcalls2; apply lookup_insert_eq).
  pose proof (step_fetch s2 (next s) key (next s) None (Some e) Hc2) as S3.
  unfold is_cut in S3. rewrite bool_decide_true in S3 by done. specialize (S3 Hcut).
  set (s3 := set_call _ _ _ s2) in S3.
  assert (Hr3 : results (fg s3) !! key = Some None) by (cbn; apply lookup_insert_eq).
  assert (He3 : errors (fg s3) !! key = Some (Some e)) by (cbn; apply lookup_insert_eq).
  assert (Hw3 : waiting s3 = waiting s) by (cbn; exact Hwait2).
  pose proof (enter_cached w2 key None s3 Hr3) as E4. rewrite He3 in E4. cbn [default] in E4.
  pose proof (step_enter s3 w2 key ltac:(by rewrite Hw3)) as S4. rewrite E4 in S4. clear E4.
  set (u2 := mkWaiter key None (Ready (rawPair None (Some e)))) in *.
  set (s4 := set_waiting _ s3) in S4.
  pose proof (step_receive s4 w2 u2 (rawPair None (Some e)) ltac:(apply lookup_insert_eq) eq_refl) as S5.
  eexists. split_and!.
  - eapply rtc_l; [exact S1 |]. eapply rtc_l; [exact S2 |]. eapply rtc_l; [exact S3 |].
    eapply rtc_l; [exact S4 |]. by apply rtc_once.
  - done.
  - change (delete w2 (<[w2 := u2]> (waiting s3)) = waiting s). by rewrite Hw3, delete_insert_id.
  - change (dom (<[next s := mkCall (FetchFn key (next s)) (Finished (rawPair None (Some e)))]> (calls s2))
      = {[next s]} ∪ dom (calls s)). rewrite Hcalls2, insert_insert_eq. by rewrite dom_insert_L.
  - cbn. by rewrite lookup_insert_eq.
  - cbn. exact Hcan.
Qed.

(** *** Without deadlines

    The group cancels a fetch when its last caller gives up.  A caller that waits for the
    result gives up after the fetch has returned. *)
Definition no_cut (s : world) : Prop :=
  ∀ p fn, p ∈ cancelled s → calls s !! p ≠ Some (mkCall fn Running).

Lemma enter_calls w key s :
  Inv s → cancelled (enter w key s) = cancelled s ∧
  ∀ p, p ≠ next s → calls (enter w key s) !! p = calls s !! p.
Proof.
  intros I. pose proof (do_cases key s I) as H. unfold enter.
  destruct (results (fg s) !! key); [by rewrite H |].
  destruct (trackers (fg s) !! key); rewrite H; [done |].
  split; [done |]. intros p Hp. cbn. by rewrite lookup_insert_ne by congruence.
Qed.

Lemma leave_cancelled w u o s p :
  Inv s → waiting s !! w = Some u → p ∈ cancelled (leave w u o s) →
  p ∈ cancelled s ∨ w_tracker u = Some p.
Proof.
  intros I Hw. unfold leave, release. destruct (w_tracker u) as [q |] eqn:Ht; [| by left].
  destruct (tracker_of_waiter s w u q I Hw Ht) as (t & Hq & Hc & _). rewrite Hq. cbn -[decide].
  case_match; cbn -[decide]; [| by left]. rewrite Hc.
  intros [Hp%elem_of_singleton | Hp]%elem_of_union; [right; congruence | by left].
Qed.

Lemma leave_calls w u o s : calls (leave w u o s) = calls s.
Proof. unfold leave, release. destruct (w_tracker u); [| done]. case_match; [| done]. by case_match. Qed.

Lemma no_cut_step s s' : (∀ e, ¬ late e) → Inv s → no_cut s → step s s' → no_cut s'.
Proof.
  intros Hlate I Hn Hs p fn Hp. destruct Hs as [s w key Hw | s c key ctx res err Hc Hf | s c Hc | s c f r Hc
    | s w u r Hw Hr | s w u e Hw He].
  - destruct (enter_calls w key s I) as [Hcan Hcalls]. rewrite Hcan in Hp.
    rewrite Hcalls; [by apply Hn |]. intros ->. destruct (inv_cancelled s I _ Hp) as (t & Ht & _).
    by rewrite heap_fresh in Ht.
  - cbn in Hp |- *. rewrite lookup_insert. case_decide; [congruence | by apply Hn].
  - cbn in Hp |- *. rewrite lookup_insert. case_decide; [congruence | by apply Hn].
  - cbn in Hp |- *. rewrite lookup_insert. case_decide; [congruence | by apply Hn].
  - destruct (leave_cancelled w u _ s p I Hw Hp) as [Hp' | Ht]; [rewrite leave_calls; by apply Hn |].
    pose proof (inv_waiting s I w u Hw) as Hok. unfold waiter_ok in Hok. rewrite Ht in Hok.
    destruct Hok as (Hch & st & Hc). rewrite Hch in Hr. cbn in Hr. rewrite leave_calls, Hc.
    rewrite Hc in Hr. intros [= _ ->]. done.
  - by apply Hlate in He.
Qed.

Lemma reachable_no_cut s : (∀ e, ¬ late e) → reachable s → no_cut s.
Proof.
  intros Hlate. apply (rtc_ind_r (λ s, no_cut s)).
  - intros p fn Hp. cbn in Hp. by apply not_elem_of_empty in Hp.
  - intros s1 s2 Hr Hs Hn. by apply (no_cut_step s1); [| apply reachable_Inv | |].
Qed.

End Flight.

(** Then only fetches that ran to their end are seen. *)
Lemma reachable_uncut `{SingleFlight} fetch late s :
  (∀ e, ¬ late e) → reachable fetch late s → reachable (λ k b r e, b = false ∧ fetch k b r e) late s.
Proof.
  intros Hlate. apply (rtc_ind_r (λ s, reachable (λ k b r e, b = false ∧ fetch k b r e) late s)).
  - apply rtc_refl.
  - intros s1 s2 Hr Hs IH. eapply rtc_r; [exact IH |]. destruct Hs as [s0 w key Hw | s0 c key ctx res err Hc Hf
      | s0 c Hc | s0 c f r Hc | s0 w u r Hw Hv | s0 w u e Hw He].
    + by apply step_enter.
    + apply step_fetch; [done |]. split; [| done]. unfold is_cut. apply bool_decide_eq_false. intros Hin.
      pose proof (reachable_Inv _ _ _ Hr) as I. destruct (inv_calls _ _ _ I c _ Hc) as (k & Hk & _).
      cbn in Hk. injection Hk as _ <-. by apply (reachable_no_cut fetch late s0 Hlate Hr ctx (FetchFn key ctx)).
    + by apply step_placeholder.
    + by apply step_send.
    + by apply step_receive.
    + by apply step_deadline.
Qed.

(** ** A group over a finite map *)
Lemma map_current_insert (g : gmap str nat) k v k' :
  <[k := v]> g !! k' = if decide (k' = k) then Some v else g !! k'.
Proof. rewrite lookup_insert. repeat case_decide; congruence. Qed.

Lemma map_current_delete (g : gmap str nat) k k' :
  delete k g !! k' = if decide (k' = k) then None else g !! k'.
Proof. rewrite lookup_delete. repeat case_decide; congruence. Qed.

Lemma map_current_filter (g : gmap str nat) c k' :
  filter (λ kv : str * nat, kv.2 ≠ c) g !! k' = if decide (g !! k' = Some c) then None else g !! k'.
Proof.
  case_decide as H.
  - rewrite map_lookup_filter_None. right. intros x Hx. rewrite H in Hx. injection Hx as <-. cbn. tauto.
  - destruct (g !! k') as [x |] eqn:Hx.
    + apply map_lookup_filter_Some. split; [done |]. cbn. congruence.
    + apply map_lookup_filter_None. by left.
Qed.

#[export] Instance map_flight : SingleFlight := {|
  sf_group := gmap str nat;
  sf_new := ∅;
  sf_current g k := g !! k;
  sf_DoChan k c g := (default c (g !! k), <[k := default c (g !! k)]> g);
  sf_Forget k g := delete k g;
  sf_Returned c g := filter (λ kv : str * nat, kv.2 ≠ c) g;
  sf_current_new k := lookup_empty k;
  sf_DoChan_call k c g := eq_refl;
  sf_DoChan_current k c g k' := map_current_insert g k _ k';
  sf_Forget_current k g k' := map_current_delete g k k';
  sf_Returned_current c g k' := map_current_filter g c k';
|}.

Definition demo_key : str := B "/menu".
Definition demo_page : rawFetchResult := mkRaw (B "<ul></ul>") [] (B "in_process").
Definition canceled : str := B "context canceled".
Definition deadline : str := B "context deadline exceeded".

(** A fetch that succeeds unless its context is cancelled. *)
Definition demo_fetch (key : str) (cut : bool) (res : option rawFetchResult) (err : option str) : Prop :=
  if cut then res = None ∧ err = Some canceled else res = Some demo_page ∧ err = None.
Definition demo_late (e : str) : Prop := e = deadline.

Definition two_callers : world := enter 1 demo_key (enter 0 demo_key new_world).
Definition demo_waiter : waiter := mkWaiter demo_key (Some 0) (Awaits 0).

Lemma two_callers_reachable : reachable demo_fetch demo_late two_callers.
Proof.
  eapply rtc_r; [apply rtc_once |]; apply step_enter; reflexivity.
Qed.

Lemma two_callers_wait :
  waiting two_callers !! 0 = Some demo_waiter ∧ waiting two_callers !! 1 = Some demo_waiter.
Proof. by vm_compute. Qed.

Lemma equal_urls_share_one_fetch_witness :
  reachable demo_fetch demo_late two_callers ∧ w_key demo_waiter = demo_key ∧
  (∃ p, w_ch demo_waiter = Awaits p ∧
    calls two_callers !! p = Some (mkCall (FetchFn demo_key p) Running)) ∧
  0 ∉ cancelled two_callers.
Proof.
  split; [exact two_callers_reachable |]. split; [reflexivity |].
  destruct (equal_urls_share_one_fetch demo_fetch demo_late two_callers two_callers_reachable)
    as (H1 & H2 & _). destruct two_callers_wait as [Hw0 Hw1]. split.
  - destruct (H1 0 demo_waiter 1 demo_waiter Hw0 Hw1 eq_refl eq_refl) as [_ H]. exact H.
  - exact (H2 0 demo_waiter 0 Hw0 eq_refl).
Defined.

(** The first caller's fetch returns, its result is sent and received. *)
Definition after_fetch : world :=
  set_call 0 (mkCall (FetchFn demo_key 0) (Finished (rawPair (Some demo_page) None)))
    (record_result demo_key (Some demo_page) None (fg two_callers)) two_callers.
Definition after_send : world :=
  set_call 0 (mkCall (FetchFn demo_key 0) (Sent (rawPair (Some demo_page) None)))
    (mkFlightGroup (trackers (fg after_fetch)) (results (fg after_fetch)) (errors (fg after_fetch))
       (sf_Returned 0 (sf (fg after_fetch)))) after_fetch.
Definition after_receive : world :=
  leave 1 demo_waiter (received (rawPair (Some demo_page) None)) after_send.

Lemma after_receive_reachable : reachable demo_fetch demo_late after_receive.
Proof.
  eapply rtc_r; [eapply rtc_r; [eapply rtc_r; [exact two_callers_reachable |] |] |].
  - apply (step_fetch demo_fetch demo_late two_callers 0 demo_key 0 (Some demo_page) None);
      [reflexivity | done].
  - apply (step_send demo_fetch demo_late after_fetch 0). reflexivity.
  - apply (step_receive demo_fetch demo_late after_send 1 demo_waiter); reflexivity.
Qed.

Lemma shared_outcome_is_a_fetch_witness :
  (1, demo_key, (Some demo_page, None)) ∈ log after_receive ∧
  ∃ cut res err, demo_fetch demo_key cut res err ∧ (Some demo_page, None : option str) =
    match err with Some e => (None, Some e) | None => (res, None) end.
Proof.
  assert (Hlog : (1, demo_key, (Some demo_page, None)) ∈ log after_receive) by apply list_elem_of_here.
  split; [exact Hlog |].
  destruct (shared_outcome_is_a_fetch demo_fetch demo_late after_receive 1 demo_key _
              after_receive_reachable Hlog) as [H | (e & _ & He)]; [exact H | done].
Defined.

Lemma demo_fetch_returns key cut : ∃ res err, demo_fetch key cut res err.
Proof. destruct cut; eexists _, _; done. Qed.

Lemma no_caller_is_stuck_witness :
  ∃ s' r, rtc (step demo_fetch demo_late) two_callers s' ∧ waiting s' !! 1 = None ∧
    produced demo_fetch demo_key r ∧ (1, demo_key, received r) ∈ log s'.
Proof.
  exact (no_caller_is_stuck demo_fetch demo_late two_callers 1 demo_waiter two_callers_reachable
    (proj2 two_callers_wait) demo_fetch_returns).
Defined.

Lemma abandoned_fetch_poisons_witness :
  ∃ s', rtc (step demo_fetch demo_late) new_world s' ∧
    head (log s') = Some (1, demo_key, (None, Some canceled)) ∧ demo_late deadline ∧
    dom (calls s') = {[ 0 ]}.
Proof.
  destruct (abandoned_fetch_poisons demo_fetch demo_late new_world 0 1 demo_key canceled deadline
    (rtc_refl _ _) eq_refl eq_refl eq_refl eq_refl (conj eq_refl eq_refl) eq_refl)
    as (s' & Hs & Hl & _ & Hd & _).
  exists s'. split; [exact Hs |]. split; [exact Hl |]. split; [reflexivity |].
  rewrite Hd. reflexivity.
Defined.
