(* ===== verification/FlightFetch.v ===== *)
(** * Shared fetches are fetches ([fetchWithFlight] of [src/esi/processor.go])

    [Esi] fetches every fragment by [fetchFragment]; the code does so through the
    flight group of [Flight] when a document names a URL twice.  Here the fetches of
    the group are [fetchFragment]'s, run under the execution state of the tag that asked first, and the
    two agree: sharing changes neither the body nor the cookies nor the error that a
    fragment is given, when the tags of a URL allow the same depth. *)

From S2P Require Import Prelude GoStrings GoHttp Env Headers Storage Scanner Esi Flight.

Section FlightFetch.
Context {E : GoEnv} {SF : SingleFlight}.
Context (cfg : esiConfig) (internalFetcher : option (esiExecutionState → str → Request → fetcher_result))
        (http_Do : esiExecutionState → Request → result Response) (parentReq : Request).
(** The fragments of a document, and the state that it is processed under. *)
Context (fragments : list EsiFragment) (state : esiExecutionState).

(** A tag asks for its source, or for its alternative. *)
Definition asks (f : EsiFragment) (url : str) : Prop := url = Src f ∨ url = Alt f.

(** The fetch that a tag would make on its own. *)
Definition fetch_for (f : EsiFragment) (url : str) : result (str * list str) :=
  fetchFragment cfg internalFetcher http_Do parentReq url (childState f state url).

(** What [fetchFragment] returned, as the pair of the code; [mode] labels the way it took. *)
Definition returns (r : result (str * list str)) (res : option rawFetchResult) (err : option str) : Prop :=
  match r with
  | Ok (body, cookies) => ∃ mode, res = Some (mkRaw body cookies mode) ∧ err = None
  | Err e => res = None ∧ err = Some e
  end.

(** The function [fetchWithFlight] hands to the group, with the state of one of the tags that ask for the
    URL, whichever comes first: a fetch whose context is cancelled may end with an error instead. *)
Definition shared_fetch (key : str) (cut : bool) (res : option rawFetchResult) (err : option str) : Prop :=
  ∃ f, f ∈ fragments ∧ asks f key ∧
    (returns (fetch_for f key) res err ∨ (cut = true ∧ res = None ∧ ∃ e, err = Some e)).

Lemma received_returns r res err : returns r res err → returns r (received (rawPair res err)).1 (received (rawPair res err)).2.
Proof. unfold returns, received. destruct r as [[b c] | e]; [by intros (m & -> & ->); exists m | by intros [-> ->]]. Qed.

(** Tags that allow the same depth fetch a URL alike. *)
Lemma fetch_for_depth f g key :
  effectiveMaxDepth g state = effectiveMaxDepth f state → fetch_for g key = fetch_for f key.
Proof. unfold fetch_for, childState. by intros ->. Qed.

Lemma page_is_fetched g key cut res err r :
  returns (fetch_for g key) res err ∨ (cut = true ∧ res = None ∧ ∃ e, err = Some e) →
  (received (rawPair res err)).1 = Some r → fetch_for g key = Ok (raw_body r, raw_cookies r).
Proof.
  intros [Hf|(_ & -> & e & ->)]; [|done]. unfold returns in Hf. destruct (fetch_for g key) as [[body cookies]|e].
  - destruct Hf as (mode & -> & ->). simpl. by intros [= <-].
  - by destruct Hf as [-> ->].
Qed.

(** C39: Sharing is invisible.  In every interleaving of the fragments of a document, what a tag is
    given as a page is what [fetchFragment] returns for its URL under the execution state of some
    tag of that URL.  When the tags of the URL allow the same depth, it is what a fetch of
    the tag's own would have given it, and when no deadline passes, that holds of the errors
    too.  (Tags with different limits do share: [sharing_ignores_max_depth].) *)
Theorem sharing_changes_nothing late s i f key o
    (H : reachable shared_fetch late s) (Hlog : (i, key, o) ∈ log s) (Hi : fragments !! i = Some f) (Hk : asks f key) :
  (∀ r, o.1 = Some r → ∃ g, g ∈ fragments ∧ asks g key ∧ fetch_for g key = Ok (raw_body r, raw_cookies r)) ∧
  ((∀ g, g ∈ fragments → asks g key → effectiveMaxDepth g state = effectiveMaxDepth f state) →
   (∀ r, o.1 = Some r → fetch_for f key = Ok (raw_body r, raw_cookies r)) ∧
   ((∀ e, ¬ late e) → returns (fetch_for f key) o.1 o.2)).
Proof.
  assert (∀ r, o.1 = Some r → ∃ g, g ∈ fragments ∧ asks g key ∧ fetch_for g key = Ok (raw_body r, raw_cookies r)) as Hpage.
  { intros r Hr. destruct (inv_log _ _ _ (reachable_Inv _ _ _ H) _ Hlog) as [(x & (b & res & err & Hf & ->) & Ho) | (e & _ & Ho)];
      cbn in Ho; subst o; [| done]. destruct Hf as (g & Hg & Ha & Hf). exists g. split; [done|]. split; [done|].
    by eapply page_is_fetched. }
  split; [done|]. intros Hd. split.
  - intros r (g & Hg & Ha & Hf)%Hpage. by rewrite <- (fetch_for_depth f g) by auto.
  - intros Hlate. apply (reachable_uncut _ _ _ Hlate), reachable_Inv in H.
    destruct (inv_log _ _ _ H _ Hlog) as [(x & (b & res & err & [-> Hf] & ->) & Ho) | (e & He & _)];
      [| by apply Hlate in He].
    cbn in Ho. destruct Hf as (g & Hg & Ha & Hf). subst o. apply received_returns.
    rewrite (fetch_for_depth f g) in Hf by auto. by destruct Hf as [Hf | (? & _)].
Qed.
End FlightFetch.

(** ** Witness: two includes of one page, answered in process

    The page includes another, which the in-process server fills in under the state it is handed. *)
Definition item_fetcher (_ : esiExecutionState) (_ : str) (_ : Request) : fetcher_result := Fetched (B "tea") ∅.
Definition no_http (_ : esiExecutionState) (r : Request) : result Response := Err (B "no route").
Definition menu_page : Request := mkRequest (B "GET") None (B "shop.example") ∅ false.
Definition menu_body : str := B "menu:<esi:include src=" ++ [dquote] ++ B "/item" ++ [dquote] ++ B "/>".
Definition menu_fetcher (state : esiExecutionState) (targetPath : str) (r : Request) : fetcher_result :=
  match Scan menu_body with
  | Scanned frags =>
      match ProcessFragments defaultEsiConfig (Some item_fetcher) no_http (λ _, true) r menu_body frags (Some state) with
      | Some res => Fetched (res_Body res) ∅
      | None => FetchFailed
      end
  | _ => FetchPanicked
  end.

(** A tag with a depth limit. *)
Definition menu_tag (depth : Z) : EsiFragment := mkEsiFragment 0 0 demo_key [] [] depth 0 0 0.
Definition at_top : esiExecutionState := mkState 0 3 [].
Definition menu_fetch (d1 d2 : Z) :=
  shared_fetch defaultEsiConfig (Some menu_fetcher) no_http menu_page [menu_tag d1; menu_tag d2] at_top.
Definition menu_result : rawFetchResult := mkRaw (B "menu:tea") [] (B "in_process").

Definition menu_fetched : world :=
  set_call 0 (mkCall (FetchFn demo_key 0) (Finished (rawPair (Some menu_result) None)))
    (record_result demo_key (Some menu_result) None (fg two_callers)) two_callers.
Definition menu_sent : world :=
  set_call 0 (mkCall (FetchFn demo_key 0) (Sent (rawPair (Some menu_result) None)))
    (mkFlightGroup (trackers (fg menu_fetched)) (results (fg menu_fetched)) (errors (fg menu_fetched))
       (sf_Returned 0 (sf (fg menu_fetched)))) menu_fetched.
Definition menu_received : world :=
  leave 1 demo_waiter (received (rawPair (Some menu_result) None)) menu_sent.

(** The first tag's fetch fills both. *)
Lemma menu_reachable d1 d2 :
  fetch_for defaultEsiConfig (Some menu_fetcher) no_http menu_page at_top (menu_tag d1) demo_key = Ok (B "menu:tea", []) →
  reachable (menu_fetch d1 d2) (λ _, False) menu_received.
Proof.
  intros Hd. eapply rtc_r; [eapply rtc_r; [eapply rtc_r; [eapply rtc_r; [apply rtc_once |] |] |] |].
  - apply (step_enter (menu_fetch d1 d2) (λ _, False) new_world 0 demo_key). reflexivity.
  - apply (step_enter (menu_fetch d1 d2) (λ _, False) _ 1 demo_key). reflexivity.
  - apply (step_fetch (menu_fetch d1 d2) (λ _, False) two_callers 0 demo_key 0 (Some menu_result) None); [reflexivity |].
    exists (menu_tag d1). split; [left|]. split; [by left|]. left. rewrite Hd. exists (B "in_process"). auto.
  - apply (step_send (menu_fetch d1 d2) (λ _, False) menu_fetched 0). reflexivity.
  - apply (step_receive (menu_fetch d1 d2) (λ _, False) menu_sent 1 demo_waiter); reflexivity.
Qed.

Lemma menu_log : (1, demo_key, (Some menu_result, None)) ∈ log menu_received.
Proof. apply list_elem_of_here. Qed.

Lemma sharing_changes_nothing_witness :
  (1, demo_key, (Some menu_result, None)) ∈ log menu_received ∧
  fetch_for defaultEsiConfig (Some menu_fetcher) no_http menu_page at_top (menu_tag 2) demo_key = Ok (B "menu:tea", []).
Proof.
  split; [exact menu_log |].
  refine (proj1 (proj2 (sharing_changes_nothing defaultEsiConfig (Some menu_fetcher) no_http menu_page
    [menu_tag 2; menu_tag 2] at_top (λ _, False) menu_received 1 (menu_tag 2) demo_key _
    (menu_reachable 2 2 _) menu_log eq_refl _) _) menu_result eq_refl).
  - vm_compute. reflexivity.
  - left. reflexivity.
  - intros g Hg _. repeat (apply elem_of_cons in Hg as [->|Hg]; [reflexivity|]). by apply not_elem_of_nil in Hg.
Defined.

(** A defect: a tag with a max-depth of its own is given a page that was fetched under another tag's limit.
    The second tag allows no include inside the page; alone it is given the page without, but in a
    document with a first tag that allows one it is given the page with the included part. *)
Example sharing_ignores_max_depth :
  reachable (menu_fetch 2 1) (λ _, False) menu_received ∧ (1, demo_key, (Some menu_result, None)) ∈ log menu_received ∧
  raw_body menu_result = B "menu:tea" ∧
  fetch_for defaultEsiConfig (Some menu_fetcher) no_http menu_page at_top (menu_tag 1) demo_key = Ok (B "menu:", []).
Proof.
  split; [apply menu_reachable; vm_compute; reflexivity|]. split; [exact menu_log|].
  split; [reflexivity|]. vm_compute. reflexivity.
Qed.
