(* ===== verification/Compress.v ===== *)
(** * Storage compression ([src/compress.go])

    A codec is a record of operations.  The identity codec and the choice of codec are here; the
    LZ4 and Zstandard codecs, their pools and buffers are in [Codecs]. *)

From S2P Require Import Prelude GoStrings GoHttp Env Headers.

(** The [Compressor] interface; [None] is an error. *)
Record Compressor := mkCompressor {
  Name : str;
  Compress : str → option str;
  Decompress : str → option str;
}.

(** What a client of a codec relies on. *)
Definition lossless (c : Compressor) : Prop :=
  ∀ src dst, Compress c src = Some dst → Decompress c dst = Some src.

Definition StorageCompressionLZ4 := B "lz4".
Definition StorageCompressionZstd := B "zstd".
Definition StorageCompressionNone := B "none".
Definition minCompressionSize : Z := 256.

Definition noneCompressor : Compressor := mkCompressor StorageCompressionNone Some Some.

Section Codec.
Context {U : GoUnicode}.

Definition isPrecompressedContentType (ct : str) : bool :=
  if is_nil ct then false else
  let '(base, _, _) := Cut ct ";" in
  let ct := TrimSpace (ToLower base) in
  if HasPrefix ct (B "text/") || (ct =s B "application/json") || (ct =s B "application/javascript")
     || (ct =s B "application/xml") then false
  else if HasPrefix ct (B "image/") || HasPrefix ct (B "video/") || HasPrefix ct (B "audio/") then
    (ct <>s B "image/svg+xml") && (ct <>s B "image/x-icon") && (ct <>s B "image/vnd.microsoft.icon")
  else
    Contains ct (B "zip") || Contains ct (B "gzip") || Contains ct (B "compressed")
    || Contains ct (B "zstd") || Contains ct (B "brotli") || Contains ct (B "pdf")
    || Contains ct (B "/tar") || Contains ct (B "/x-tar").

Definition resolveCompressor (configured : option Compressor) (headers : Header) (bodyLen : Z)
    : Compressor :=
  if (bodyLen <? minCompressionSize)%Z then noneCompressor
  else if negb (is_nil (h_Get headers headerContentEncoding)) then noneCompressor
  else if isPrecompressedContentType (h_Get headers headerContentType) then noneCompressor
  else match configured with None => noneCompressor | Some c => c end.

Lemma resolveCompressor_cases configured headers n :
  resolveCompressor configured headers n = noneCompressor ∨
  configured = Some (resolveCompressor configured headers n).
Proof. unfold resolveCompressor. repeat case_if; auto. destruct configured; auto. Qed.
End Codec.
