(* ===== verification/Config.v ===== *)
(** * Configuration ([src/config.go], [New] of [src/titip.go], [src/esi/config.go])

    Options are functions on the configuration that may fail; [titip_New] applies
    them in order to the defaults.  Of loggers, metric registries and clients only the check
    for nil is kept: they are not read by the modelled code. *)

From S2P Require Import Prelude GoStrings GoHttp Env Headers CacheKey Scanner Esi Compress.

(** ** Options of a purge

    The purges take the mode that the options of the call end in. *)
Inductive PurgeOption := WithSoftPurge.
Definition purge_soft (opts : list PurgeOption) : bool :=
  foldl (λ _ opt, match opt with WithSoftPurge => true end) false opts.

(** ** Configuration *)
Inductive CacheStatusMode := CacheStatusSimple | CacheStatusRFC9211 | CacheStatusNone.

Definition statusHit := B "HIT".
Definition statusMiss := B "MISS".
Definition statusExpired := B "EXPIRED".
Definition statusRevalidated := B "REVALIDATED".
Definition statusUpdating := B "UPDATING".
Definition statusStale := B "STALE".
Definition statusBypass := B "BYPASS".
Definition statusDynamic := B "DYNAMIC".

Definition rfc9211Prefix := B "titip; ".
Definition rfc9211Hit := rfc9211Prefix ++ B "hit".
Definition rfc9211HitTTLPrefix := rfc9211Prefix ++ B "hit; ttl=".
Definition rfc9211FwdMethod := rfc9211Prefix ++ B "fwd=method".
Definition rfc9211FwdWebsocket := rfc9211Prefix ++ B "fwd=bypass; detail=websocket-upgrade".
Definition rfc9211FwdSSE := rfc9211Prefix ++ B "fwd=bypass; detail=sse-stream".
Definition rfc9211FwdSSEResponse := rfc9211Prefix ++ B "fwd=bypass; detail=sse-response".
Definition rfc9211FwdRange := rfc9211Prefix ++ B "fwd=bypass; detail=range-request".
Definition rfc9211FwdNoStore := rfc9211Prefix ++ B "fwd=request; detail=no-store".
Definition rfc9211FwdMaxAgeZero := rfc9211Prefix ++ B "fwd=request; detail=max-age-0".
Definition rfc9211FwdPragmaNoCache := rfc9211Prefix ++ B "fwd=request; detail=pragma-no-cache".
Definition rfc9211FwdStorageFallback := rfc9211Prefix ++ B "fwd=bypass; detail=storage-fallback".
Definition rfc9211FwdPreconditionFailed := rfc9211Prefix ++ B "fwd=bypass; detail=precondition-failed".
Definition rfc9211FwdOriginPanic := rfc9211Prefix ++ B "fwd=bypass; detail=origin-panic".
Definition rfc9211MissOnlyIfCached := rfc9211Prefix ++ B "miss; detail=only-if-cached".
Definition rfc9211MissOnlyIfCachedExpired := rfc9211Prefix ++ B "miss; detail=only-if-cached-expired".
Definition rfc9211UpdatingSWR := rfc9211Prefix ++ B "hit; stale; detail=swr".
Definition rfc9211StaleIfError := rfc9211Prefix ++ B "hit; stale; detail=stale-if-error".

(** ** Configuration records *)
Record serverTimingConfig := mkTiming {
  timing_active : bool;
  cookieName : str;
  cookieValue : str;
}.

(** An error of an option, and whether it wraps [ErrInvalidOption]. *)
Record option_error := mkOptErr { err_text : str; err_invalid : bool }.
Definition opt_err (text : str) : option_error := mkOptErr text false.
Inductive checked (A : Type) := Valid (a : A) | Invalid (e : option_error).
Arguments Valid {A} a.
Arguments Invalid {A} e.

(** An option that attaches an object, and refuses nil. *)
Definition attached {A C} (what : string) (x : option A) (c : C) : checked C :=
  match x with None => Invalid (opt_err (B what ++ B " cannot be nil")) | Some _ => Valid c end.

(** [esi.Option]; [None] is a nil function. *)
Definition esi_Option : Type := esiConfig → checked esiConfig.

Record config := mkConfig {
  storageTimeout : Z;
  storageCompression : str;
  compressors : gmap str Compressor;
  cacheKey : CacheKey;
  tagHeaderName : str;
  cacheStatusMode : CacheStatusMode;
  respectClientCacheControl : bool;
  convertHeadToGet : bool;
  autoInvalidateMutatingMethods : bool;
  backgroundFetchTimeout : Z;
  esiOptions : option (list (option esi_Option));
  serverTiming : serverTimingConfig;
}.

(** Updates of one field. *)
Definition set_storageTimeout x (c : config) : config :=
  mkConfig x (storageCompression c) (compressors c) (cacheKey c) (tagHeaderName c) (cacheStatusMode c)
  (respectClientCacheControl c) (convertHeadToGet c) (autoInvalidateMutatingMethods c)
  (backgroundFetchTimeout c) (esiOptions c) (serverTiming c).
Definition set_storageCompression x (c : config) : config :=
  mkConfig (storageTimeout c) x (compressors c) (cacheKey c) (tagHeaderName c) (cacheStatusMode c)
  (respectClientCacheControl c) (convertHeadToGet c) (autoInvalidateMutatingMethods c)
  (backgroundFetchTimeout c) (esiOptions c) (serverTiming c).
Definition set_compressors x (c : config) : config :=
  mkConfig (storageTimeout c) (storageCompression c) x (cacheKey c) (tagHeaderName c) (cacheStatusMode c)
  (respectClientCacheControl c) (convertHeadToGet c) (autoInvalidateMutatingMethods c)
  (backgroundFetchTimeout c) (esiOptions c) (serverTiming c).
Definition set_cacheKey x (c : config) : config :=
  mkConfig (storageTimeout c) (storageCompression c) (compressors c) x (tagHeaderName c)
  (cacheStatusMode c) (respectClientCacheControl c) (convertHeadToGet c) (autoInvalidateMutatingMethods c)
  (backgroundFetchTimeout c) (esiOptions c) (serverTiming c).
Definition set_tagHeaderName x (c : config) : config :=
  mkConfig (storageTimeout c) (storageCompression c) (compressors c) (cacheKey c) x (cacheStatusMode c)
  (respectClientCacheControl c) (convertHeadToGet c) (autoInvalidateMutatingMethods c)
  (backgroundFetchTimeout c) (esiOptions c) (serverTiming c).
Definition set_cacheStatusMode x (c : config) : config :=
  mkConfig (storageTimeout c) (storageCompression c) (compressors c) (cacheKey c) (tagHeaderName c) x
  (respectClientCacheControl c) (convertHeadToGet c) (autoInvalidateMutatingMethods c)
  (backgroundFetchTimeout c) (esiOptions c) (serverTiming c).
Definition set_respectClientCacheControl x (c : config) : config :=
  mkConfig (storageTimeout c) (storageCompression c) (compressors c) (cacheKey c) (tagHeaderName c)
  (cacheStatusMode c) x (convertHeadToGet c) (autoInvalidateMutatingMethods c) (backgroundFetchTimeout c)
  (esiOptions c) (serverTiming c).
Definition set_convertHeadToGet x (c : config) : config :=
  mkConfig (storageTimeout c) (storageCompression c) (compressors c) (cacheKey c) (tagHeaderName c)
  (cacheStatusMode c) (respectClientCacheControl c) x (autoInvalidateMutatingMethods c)
  (backgroundFetchTimeout c) (esiOptions c) (serverTiming c).
Definition set_autoInvalidateMutatingMethods x (c : config) : config :=
  mkConfig (storageTimeout c) (storageCompression c) (compressors c) (cacheKey c) (tagHeaderName c)
  (cacheStatusMode c) (respectClientCacheControl c) (convertHeadToGet c) x (backgroundFetchTimeout c)
  (esiOptions c) (serverTiming c).
Definition set_backgroundFetchTimeout x (c : config) : config :=
  mkConfig (storageTimeout c) (storageCompression c) (compressors c) (cacheKey c) (tagHeaderName c)
  (cacheStatusMode c) (respectClientCacheControl c) (convertHeadToGet c) (autoInvalidateMutatingMethods c)
  x (esiOptions c) (serverTiming c).
Definition set_esiOptions x (c : config) : config :=
  mkConfig (storageTimeout c) (storageCompression c) (compressors c) (cacheKey c) (tagHeaderName c)
  (cacheStatusMode c) (respectClientCacheControl c) (convertHeadToGet c) (autoInvalidateMutatingMethods c)
  (backgroundFetchTimeout c) x (serverTiming c).
Definition set_serverTiming x (c : config) : config :=
  mkConfig (storageTimeout c) (storageCompression c) (compressors c) (cacheKey c) (tagHeaderName c)
  (cacheStatusMode c) (respectClientCacheControl c) (convertHeadToGet c) (autoInvalidateMutatingMethods c)
  (backgroundFetchTimeout c) (esiOptions c) x.
Definition esi_set_requireSurrogateControl x (c : esiConfig) : esiConfig :=
  mkEsiConfig x (maxDepth c) (maxTimeout c) (maxConcurrentRequests c) (allowPrivateIPs c) (allowedHosts c)
  (allowPrivateIPsForAllowedHosts c) (maxResponseSize c) (disableForwardCookies c) (preserveETag c)
  (includeErrorMarker c).
Definition esi_set_maxDepth x (c : esiConfig) : esiConfig :=
  mkEsiConfig (requireSurrogateControl c) x (maxTimeout c) (maxConcurrentRequests c) (allowPrivateIPs c)
  (allowedHosts c) (allowPrivateIPsForAllowedHosts c) (maxResponseSize c) (disableForwardCookies c)
  (preserveETag c) (includeErrorMarker c).
Definition esi_set_maxTimeout x (c : esiConfig) : esiConfig :=
  mkEsiConfig (requireSurrogateControl c) (maxDepth c) x (maxConcurrentRequests c) (allowPrivateIPs c)
  (allowedHosts c) (allowPrivateIPsForAllowedHosts c) (maxResponseSize c) (disableForwardCookies c)
  (preserveETag c) (includeErrorMarker c).
Definition esi_set_maxConcurrentRequests x (c : esiConfig) : esiConfig :=
  mkEsiConfig (requireSurrogateControl c) (maxDepth c) (maxTimeout c) x (allowPrivateIPs c)
  (allowedHosts c) (allowPrivateIPsForAllowedHosts c) (maxResponseSize c) (disableForwardCookies c)
  (preserveETag c) (includeErrorMarker c).
Definition esi_set_allowPrivateIPs x (c : esiConfig) : esiConfig :=
  mkEsiConfig (requireSurrogateControl c) (maxDepth c) (maxTimeout c) (maxConcurrentRequests c) x
  (allowedHosts c) (allowPrivateIPsForAllowedHosts c) (maxResponseSize c) (disableForwardCookies c)
  (preserveETag c) (includeErrorMarker c).
Definition esi_set_allowedHosts x (c : esiConfig) : esiConfig :=
  mkEsiConfig (requireSurrogateControl c) (maxDepth c) (maxTimeout c) (maxConcurrentRequests c)
  (allowPrivateIPs c) x (allowPrivateIPsForAllowedHosts c) (maxResponseSize c) (disableForwardCookies c)
  (preserveETag c) (includeErrorMarker c).
Definition esi_set_allowPrivateIPsForAllowedHosts x (c : esiConfig) : esiConfig :=
  mkEsiConfig (requireSurrogateControl c) (maxDepth c) (maxTimeout c) (maxConcurrentRequests c)
  (allowPrivateIPs c) (allowedHosts c) x (maxResponseSize c) (disableForwardCookies c) (preserveETag c)
  (includeErrorMarker c).
Definition esi_set_maxResponseSize x (c : esiConfig) : esiConfig :=
  mkEsiConfig (requireSurrogateControl c) (maxDepth c) (maxTimeout c) (maxConcurrentRequests c)
  (allowPrivateIPs c) (allowedHosts c) (allowPrivateIPsForAllowedHosts c) x (disableForwardCookies c)
  (preserveETag c) (includeErrorMarker c).
Definition esi_set_disableForwardCookies x (c : esiConfig) : esiConfig :=
  mkEsiConfig (requireSurrogateControl c) (maxDepth c) (maxTimeout c) (maxConcurrentRequests c)
  (allowPrivateIPs c) (allowedHosts c) (allowPrivateIPsForAllowedHosts c) (maxResponseSize c) x
  (preserveETag c) (includeErrorMarker c).
Definition esi_set_preserveETag x (c : esiConfig) : esiConfig :=
  mkEsiConfig (requireSurrogateControl c) (maxDepth c) (maxTimeout c) (maxConcurrentRequests c)
  (allowPrivateIPs c) (allowedHosts c) (allowPrivateIPsForAllowedHosts c) (maxResponseSize c)
  (disableForwardCookies c) x (includeErrorMarker c).
Definition esi_set_includeErrorMarker x (c : esiConfig) : esiConfig :=
  mkEsiConfig (requireSurrogateControl c) (maxDepth c) (maxTimeout c) (maxConcurrentRequests c)
  (allowPrivateIPs c) (allowedHosts c) (allowPrivateIPsForAllowedHosts c) (maxResponseSize c)
  (disableForwardCookies c) (preserveETag c) x.

(** ** Options of the middleware *)
Definition Option : Type := config → checked config.

Section Options.
Context {U : GoUnicode}.
(** [Duration.String] and [strconv.Quote], in error texts. *)
Context (duration_String : Z → str) (Quote : str → str).

Definition WithoutConvertHeadToGet : Option := λ c, Valid (set_convertHeadToGet false c).
Definition WithAutoInvalidateMutatingMethods : Option :=
  λ c, Valid (set_autoInvalidateMutatingMethods true c).

Definition WithStorageTimeout (d : Z) : Option := λ c,
  if (d <=? 0)%Z then Invalid (opt_err (B "storage timeout must be positive, got " ++ duration_String d))
  else Valid (set_storageTimeout d c).

(** The mode is a Go [int]. *)
Definition mode_of_int (mode : Z) : option CacheStatusMode :=
  if (mode =? 0)%Z then Some CacheStatusSimple
  else if (mode =? 1)%Z then Some CacheStatusRFC9211
  else if (mode =? 2)%Z then Some CacheStatusNone
  else None.
Definition WithCacheStatus (mode : Z) : Option := λ c,
  match mode_of_int mode with
  | None => Invalid (opt_err (B "invalid cache status mode " ++ itoa mode))
  | Some m => Valid (set_cacheStatusMode m c)
  end.

(** The logger and the registry ([None] is nil) are attached to the configuration; they are not
    kept here, since nothing else of this file reads them ([Metrics] starts from the registry). *)
Definition WithLogger {A} (l : option A) : Option := attached "logger" l.
Definition WithMetrics {A} (reg : option A) : Option := attached "metrics registerer" reg.

Definition WithRespectClientCacheControl : Option := λ c, Valid (set_respectClientCacheControl true c).
Definition WithCacheKey (k : CacheKey) : Option := λ c, Valid (set_cacheKey k c).

Definition WithTagHeader (name : str) : Option := λ c,
  let trimmed := TrimSpace name in
  if is_nil trimmed then Invalid (opt_err (B "tag header name cannot be empty"))
  else Valid (set_tagHeaderName trimmed c).

Definition WithBackgroundFetchTimeout (d : Z) : Option := λ c,
  if (d <? 0)%Z then Invalid (opt_err (B "background fetch timeout cannot be negative, got " ++ duration_String d))
  else Valid (set_backgroundFetchTimeout d c).

Definition WithESI (opts : list (option esi_Option)) : Option := λ c,
  if existsb (λ o, match o with None => true | Some _ => false end) opts
  then Invalid (opt_err (B "ESI option cannot be nil"))
  else Valid (set_esiOptions (Some (default [] (esiOptions c) ++ opts)) c).

Definition WithServerTiming : Option := λ c,
  Valid (set_serverTiming (mkTiming true (cookieName (serverTiming c)) (cookieValue (serverTiming c))) c).

Definition WithServerTimingCookie (name value : str) : Option := λ c,
  let trimmedName := TrimSpace name in
  let trimmedVal := TrimSpace value in
  if is_nil trimmedName || is_nil trimmedVal
  then Invalid (opt_err (B "server timing cookie name and value cannot be empty"))
  else Valid (set_serverTiming (mkTiming true trimmedName trimmedVal) c).

Definition WithStorageCompression (name : str) : Option := λ c,
  let trimmed := ToLower (TrimSpace name) in
  if is_nil trimmed then Invalid (opt_err (B "storage compression name cannot be empty"))
  else Valid (set_storageCompression trimmed c).

(** [None] is a nil interface. *)
Definition WithStorageCompressor (comp : option Compressor) : Option := λ c,
  match comp with
  | None => Invalid (opt_err (B "compressor cannot be nil"))
  | Some comp =>
      let name := ToLower (TrimSpace (Name comp)) in
      if is_nil name then Invalid (opt_err (B "compressor name cannot be empty"))
      else match compressors c !! name with
           | Some _ => Invalid (opt_err (B "compressor " ++ Quote name ++ B " already registered"))
           | None => Valid (set_compressors (<[name := comp]> (compressors c)) c)
           end
  end.
End Options.

(** ** Options of the ESI processor *)
Module EsiOptions.
Section EsiOptions.
Context (duration_String : Z → str).

Definition WithoutSurrogateControlRequirement : esi_Option := λ c, Valid (esi_set_requireSurrogateControl false c).
Definition WithMaxDepth (depth : Z) : esi_Option := λ c,
  if (depth =? 0)%Z then Invalid (opt_err (B "max depth must be greater than 0, got " ++ itoa depth))
  else Valid (esi_set_maxDepth depth c).
Definition WithMaxTimeout (timeout : Z) : esi_Option := λ c,
  if (timeout <=? 0)%Z then Invalid (opt_err (B "max timeout must be positive, got " ++ duration_String timeout))
  else Valid (esi_set_maxTimeout timeout c).
Definition WithMaxConcurrentRequests (limit : Z) : esi_Option := λ c,
  if (limit <=? 0)%Z then Invalid (opt_err (B "max concurrent requests must be positive, got " ++ itoa limit))
  else Valid (esi_set_maxConcurrentRequests limit c).
Definition WithAllowPrivateIPs : esi_Option := λ c, Valid (esi_set_allowPrivateIPs true c).
Definition WithAllowedHosts (hosts : list str) : esi_Option := λ c,
  if existsb (λ h, is_nil (TrimSpace h)) hosts then Invalid (opt_err (B "allowed host cannot be empty"))
  else Valid (esi_set_allowedHosts hosts c).
Definition WithAllowPrivateIPsForAllowedHosts : esi_Option := λ c, Valid (esi_set_allowPrivateIPsForAllowedHosts true c).
Definition WithMaxResponseSize (size : Z) : esi_Option := λ c,
  if (size <? 0)%Z then Invalid (opt_err (B "max response size cannot be negative, got " ++ itoa size))
  else Valid (esi_set_maxResponseSize size c).
Definition WithoutForwardCookies : esi_Option := λ c, Valid (esi_set_disableForwardCookies true c).
Definition WithIncludeErrorMarker (marker : str) : esi_Option := λ c, Valid (esi_set_includeErrorMarker marker c).
Definition WithInternalFetcher {A} (fetcher : option A) : esi_Option := attached "internal fetcher" fetcher.
Definition esi_WithLogger {A} (logger : option A) : esi_Option := attached "logger" logger.
Definition esi_WithMetrics {A} (reg : option A) : esi_Option := attached "metrics registerer" reg.
Definition WithHTTPClient {A} (client : option A) : esi_Option := attached "http client" client.
Definition WithPreserveETag : esi_Option := λ c, Valid (esi_set_preserveETag true c).
End EsiOptions.
End EsiOptions.

(** ** Construction *)

(** The loop over the options; [prefix] is the text of [ErrInvalidOption]. *)
Fixpoint apply_options {C : Type} (label : str) (opts : list (option (C → checked C))) (c : C) : checked C :=
  match opts with
  | [] => Valid c
  | None :: _ => Invalid (mkOptErr (label ++ B ": option cannot be nil") true)
  | Some opt :: rest =>
      match opt c with
      | Valid c' => apply_options label rest c'
      | Invalid e => Invalid (if err_invalid e then e else mkOptErr (label ++ B ": " ++ err_text e) true)
      end
  end.

Definition NewProcessor (opts : list (option esi_Option)) : checked esiConfig :=
  apply_options (B "esi: invalid option") opts defaultEsiConfig.

Section New.
(** The LZ4 and Zstandard codecs, and [strconv.Quote]. *)
Context (lz4 zstd : Compressor) (Quote : str → str).

Definition defaultConfig : config :=
  mkConfig (5 * Second) StorageCompressionLZ4
    (<[StorageCompressionLZ4 := lz4]> (<[StorageCompressionNone := noneCompressor]>
       {[StorageCompressionZstd := zstd]}))
    zeroCacheKey headerCacheTag CacheStatusSimple false true false (125 * Second) None (mkTiming false [] []).

Definition ErrInvalidOption := B "titip: invalid option".

(** [New] with a storage: the configuration and that of the ESI processor, if any. *)
Definition titip_New (opts : list (option Option)) : checked (config * option esiConfig) :=
  match apply_options ErrInvalidOption opts defaultConfig with
  | Invalid e => Invalid e
  | Valid cfg =>
      match compressors cfg !! storageCompression cfg with
      | None => Invalid (mkOptErr (ErrInvalidOption ++ B ": unknown storage compression "
                                   ++ Quote (storageCompression cfg)) true)
      | Some _ =>
          match esiOptions cfg with
          | None => Valid (cfg, None)
          | Some eopts =>
              match NewProcessor eopts with
              | Valid e => Valid (cfg, Some e)
              | Invalid e => Invalid (mkOptErr (ErrInvalidOption ++ B ": ESI configuration: " ++ err_text e) true)
              end
          end
      end
  end.
End New.

(** * Properties *)
Section Facts.
Context {U : GoUnicode}.
Context (lz4 zstd : Compressor) (Quote : str → str) (duration_String : Z → str).

(** The options that the package offers. *)
Inductive library_option : Option → Prop :=
  | lo_head : library_option WithoutConvertHeadToGet
  | lo_mutating : library_option WithAutoInvalidateMutatingMethods
  | lo_timeout d : library_option (WithStorageTimeout duration_String d)
  | lo_status m : library_option (WithCacheStatus m)
  | lo_client : library_option WithRespectClientCacheControl
  | lo_key k : library_option (WithCacheKey k)
  | lo_tag n : library_option (WithTagHeader n)
  | lo_background d : library_option (WithBackgroundFetchTimeout duration_String d)
  | lo_esi opts : library_option (WithESI opts)
  | lo_timing : library_option WithServerTiming
  | lo_cookie n v : library_option (WithServerTimingCookie n v)
  | lo_compression n : library_option (WithStorageCompression n)
  | lo_logger A (l : option A) : library_option (WithLogger l)
  | lo_metrics A (reg : option A) : library_option (WithMetrics reg)
  | lo_compressor comp : library_option (WithStorageCompressor Quote comp).

(** What every configuration satisfies. *)
Record config_ok (c : config) : Prop := {
  ok_timeout : (0 < storageTimeout c)%Z;
  ok_background : (0 ≤ backgroundFetchTimeout c)%Z;
  ok_tag : tagHeaderName c ≠ [];
  ok_lz4 : compressors c !! StorageCompressionLZ4 = Some lz4;
  ok_zstd : compressors c !! StorageCompressionZstd = Some zstd;
  ok_none : compressors c !! StorageCompressionNone = Some noneCompressor;
  ok_names : ∀ name comp, compressors c !! name = Some comp →
    name ≠ [] ∧ (name ∈ [StorageCompressionLZ4; StorageCompressionZstd; StorageCompressionNone] ∨
                 name = ToLower (TrimSpace (Name comp)));
  ok_timing : timing_active (serverTiming c) = false → cookieName (serverTiming c) = [];
}.

Lemma default_ok : config_ok (defaultConfig lz4 zstd).
Proof.
  split; try done.
  intros name comp. simpl. rewrite !lookup_insert_Some, lookup_singleton_Some.
  intros [[<- _]|[_ [[<- _]|[_ [<- _]]]]]; (split; [done|left; set_solver]).
Qed.

Lemma option_ok opt c c' : library_option opt → config_ok c → opt c = Valid c' → config_ok c'.
Proof.
  intros Ho Hc. destruct Ho; unfold WithoutConvertHeadToGet, WithAutoInvalidateMutatingMethods, WithStorageTimeout,
    WithCacheStatus, WithRespectClientCacheControl, WithCacheKey, WithTagHeader, WithBackgroundFetchTimeout,
    WithESI, WithServerTiming, WithServerTimingCookie, WithStorageCompression, WithStorageCompressor, WithLogger, WithMetrics, attached;
    simpl; try case_match; try done; try (intros [= <-]; destruct Hc; split; by simpl).
  - intros [= <-]. destruct Hc; split; simpl; try done. lia.
  - intros [= <-]. destruct Hc; split; simpl; try done. by apply is_nil_false.
  - intros [= <-]. destruct Hc; split; simpl; try done. lia.
  - destruct (is_nil (ToLower _)) eqn:En; [done|]. apply is_nil_false in En.
    destruct (compressors c !! _) eqn:Ec; [done|]. intros [= <-]. destruct Hc.
    split; simpl; try done; try (rewrite lookup_insert_ne; [done|congruence]).
    intros name comp'. rewrite lookup_insert_Some. intros [[<- <-]|[_ ?]]; auto.
Qed.

Lemma options_ok opts c c' :
  Forall (λ o, ∀ opt, o = Some opt → library_option opt) opts → config_ok c →
  apply_options ErrInvalidOption opts c = Valid c' → config_ok c'.
Proof.
  intros Hl. revert c. induction Hl as [|[opt|] opts Ho _ IH]; intros c Hc; simpl; [by intros [= <-]| |done].
  destruct (opt c) as [c1|] eqn:E1; [|done]. apply IH. eapply option_ok; [by apply Ho|done..].
Qed.

(** A configuration that [New] accepts, from any sequence of the package's
    options, is well formed: timeouts are in range, the codec for new entries is
    registered, the built-in codecs are the built-in ones, and every other
    codec is registered under its own name in lower case. *)
Theorem new_config_ok opts cfg e :
  Forall (λ o, ∀ opt, o = Some opt → library_option opt) opts →
  titip_New lz4 zstd Quote opts = Valid (cfg, e) →
  config_ok cfg ∧ is_Some (compressors cfg !! storageCompression cfg) ∧
  (is_Some e ↔ is_Some (esiOptions cfg)).
Proof.
  intros Hl. unfold titip_New. destruct (apply_options _ _ _) as [c|] eqn:Ea; [|done].
  pose proof (options_ok _ _ _ Hl default_ok Ea) as Hc.
  destruct (compressors c !! storageCompression c) eqn:Es; [|done].
  destruct (esiOptions c) as [eo|] eqn:Ee.
  - destruct (NewProcessor eo); [|done]. intros [= <- <-]. rewrite Es, Ee. split; [done|]. split; [eauto|]. split; eauto.
  - intros [= <- <-]. rewrite Es, Ee. split; [done|]. split; [eauto|]. split; intros [? ?]; done.
Qed.
End Facts.

(** ** Server timing ([enabled] of [src/server_timing.go]) *)
Definition timing_enabled (cfg : serverTimingConfig) (r : Request) : bool :=
  if negb (timing_active cfg) then false
  else if is_nil (cookieName cfg) then true
  else match r_Cookie r (cookieName cfg) with Some v => v =s cookieValue cfg | None => false end.

(** ** Witness *)
Definition upper_codec : Compressor := mkCompressor (B "Brotli") Some Some.

Lemma new_config_ok_witness :
  let opts := [Some (WithTagHeader (B " Surrogate-Key ")); Some (WithStorageCompressor id (Some upper_codec));
               Some (WithStorageCompression (B "BROTLI"))] in
  ∃ cfg, titip_New noneCompressor noneCompressor id opts = Valid (cfg, None) ∧
         config_ok noneCompressor noneCompressor cfg ∧ storageCompression cfg = B "brotli".
Proof.
  intros opts. destruct (titip_New noneCompressor noneCompressor id opts) as [[cfg e]|] eqn:En.
  2: { exfalso. vm_compute in En. discriminate En. }
  exists cfg. destruct (new_config_ok noneCompressor noneCompressor id itoa opts cfg e) as [Hc _]; [|exact En|].
  - repeat constructor; intros opt [= <-]; constructor.
  - split; [|split; [exact Hc|]].
    + rewrite <- En. vm_compute in En. injection En as <- <-. reflexivity.
    + vm_compute in En. injection En as <- <-. reflexivity.
Defined.
