(* ===== verification/Handler.v ===== *)
(** * The request pipeline ([src/handler.go], [src/handler_context.go],
      [src/handler_esi.go], purges and shutdown of [src/titip.go])

    [ServeHTTP] runs a state machine over a request context.  Effects are those of
    the monad [M]: the storage, the clock, the response writer of the client, the
    request context, calls of the origin, background jobs, and a trace of what was done; a Go
    panic is the result [None].

    Left out: logging, the Server-Timing header (off by default), contexts and
    their deadlines (a storage call that times out is a storage error), the wait of [Close]
    ([Shutdown]), the collectors behind the recorded statuses ([Metrics]), and
    buffer pools.  A nil map is an empty map; the one place where Go tells them
    apart (a 304 that adds headers to a stored response without any) is not
    modelled.  The origin handler is a function of the number of earlier calls, the
    request and the writer it is given: it may answer each call differently,
    write anything, and panic.  Concurrency enters in three ways: a background
    job is queued and may run at any later time; a request may join a flight
    that another one leads, whose result is then an argument ([joined]); and
    [waiters] says whether the flight a request leads is shared.  Where these arguments come
    from, with many clients in any interleaving, is [Coalesce]. *)

From S2P Require Import Prelude GoStrings GoHttp Env Headers Freshness CacheKey Storage Purge Scanner Esi Compress Config.

(** The labels of the request metric. *)
Definition labelStatusHit := B "hit".
Definition labelStatusMiss := B "miss".
Definition labelStatusStaleHit := B "stale_hit".
Definition labelStatusRevalidated := B "revalidated".
Definition labelStatusBypass := B "bypass".
Definition labelStatusError := B "error".

Definition defaultVariantKey := B "default".

(** ** State *)
Record requestContext := mkCtx {
  cx_r : Request;
  reqCC : option RequestCacheDirectives;
  primaryKey : str;
  variantKey : str;
  cx_meta : option CacheMetadata;
  isSoftPurged : bool;
  varInfo : option VariantInfo;
  nowNano : Z;
  isVaryMiss : bool;
}.

(** [acquireRequestContext] on a reset context. *)
Definition acquireRequestContext (r : Request) (now : Z) : requestContext :=
  mkCtx r None [] [] None false None (UnixNano now) false.

(** The states of the machine, one per [stateFn]. *)
Inductive stateFn :=
  | stateCheckBypass | stateLookupMetadata | stateMatchVariant | stateEvaluateFreshness
  | stateServe304 | stateServe412 | stateServeCachedHit | stateServeSWR
  | stateFetchOriginMiss | stateFetchOriginRevalidate | stateBypassOrigin.

(** What the middleware does, in order. *)
Inductive event :=
  | EvOrigin (r : Request)
  | EvGetMeta (k : str)
  | EvGetVariant (k vk : str)
  | EvSet (k : str) (m : CacheMetadata) (v : VariantInfo) (body : str) (ttl : Z)
  | EvPurge (k : str) (soft : bool)
  | EvPurgePattern (p : str) (soft : bool)
  | EvPurgeTag (t : str) (soft : bool)
  | EvPurgeAll
  | EvSpawn (r : Request) (pk vk : str)
  | EvRecord (status : str)
  | EvRecordPurge (purgeType mode status : str) (count : Z).

Record World (S : Type) := mkWorld {
  wd_store : S;
  wd_tick : nat;               (* clock readings so far *)
  wd_calls : nat;              (* origin calls so far *)
  wd_w : Writer;
  wd_ctx : requestContext;
  wd_closed : bool;
  wd_jobs : list (Request * str * str);   (* background revalidations to run *)
  wd_trace : list event;
}.
Arguments mkWorld {S}.
Arguments wd_store {S}. Arguments wd_tick {S}. Arguments wd_calls {S}. Arguments wd_w {S}.
Arguments wd_ctx {S}. Arguments wd_closed {S}. Arguments wd_jobs {S}. Arguments wd_trace {S}.

(** ** The monad *)
Definition M (S A : Type) : Type := World S → World S * option A.

Definition ret {S A} (a : A) : M S A := λ w, (w, Some a).
Definition bind {S A C} (m : M S A) (f : A → M S C) : M S C :=
  λ w, match m w with (w', Some a) => f a w' | (w', None) => (w', None) end.
Definition panic {S A} : M S A := λ w, (w, None).
Definition get {S A} (f : World S → A) : M S A := λ w, (w, Some (f w)).

Declare Scope handler_scope.
Delimit Scope handler_scope with hs.
Notation "x <- m ;; k" := (bind m (λ x, k)) (at level 100, m at next level, right associativity) : handler_scope.
Notation "m ;;; k" := (bind m (λ _, k)) (at level 100, right associativity) : handler_scope.
#[local] Open Scope handler_scope.

Definition upd_w {S} (f : Writer → Writer) : M S unit := λ w,
  (mkWorld (wd_store w) (wd_tick w) (wd_calls w) (f (wd_w w)) (wd_ctx w) (wd_closed w) (wd_jobs w)
     (wd_trace w), Some tt).
Definition upd_ctx {S} (f : requestContext → requestContext) : M S unit := λ w,
  (mkWorld (wd_store w) (wd_tick w) (wd_calls w) (wd_w w) (f (wd_ctx w)) (wd_closed w) (wd_jobs w)
     (wd_trace w), Some tt).
Definition emit {S} (e : event) : M S unit := λ w,
  (mkWorld (wd_store w) (wd_tick w) (wd_calls w) (wd_w w) (wd_ctx w) (wd_closed w) (wd_jobs w)
     (wd_trace w ++ [e]), Some tt).
Definition upd_store {S} (s : S) : M S unit := λ w,
  (mkWorld s (wd_tick w) (wd_calls w) (wd_w w) (wd_ctx w) (wd_closed w) (wd_jobs w)
     (wd_trace w), Some tt).
Definition add_job {S} (j : Request * str * str) : M S unit := λ w,
  (mkWorld (wd_store w) (wd_tick w) (wd_calls w) (wd_w w) (wd_ctx w) (wd_closed w) (wd_jobs w ++ [j])
     (wd_trace w), Some tt).
Definition count_call {S} : M S nat := λ w,
  (mkWorld (wd_store w) (wd_tick w) (1 + wd_calls w) (wd_w w) (wd_ctx w) (wd_closed w) (wd_jobs w)
     (wd_trace w), Some (wd_calls w)).
Definition next_tick {S} : M S nat := λ w,
  (mkWorld (wd_store w) (1 + wd_tick w) (wd_calls w) (wd_w w) (wd_ctx w) (wd_closed w) (wd_jobs w)
     (wd_trace w), Some (wd_tick w)).

(** [defer func() { if p := recover(); p != nil { h } }()] around [m]. *)
Definition recovering {S A} (m : M S A) (h : M S A) : M S A := λ w,
  match m w with (w', None) => h w' | r => r end.

(** Context updates. *)
Definition set_reqCC d (c : requestContext) :=
  mkCtx (cx_r c) d (primaryKey c) (variantKey c) (cx_meta c) (isSoftPurged c) (varInfo c) (nowNano c) (isVaryMiss c).
Definition set_primaryKey k (c : requestContext) :=
  mkCtx (cx_r c) (reqCC c) k (variantKey c) (cx_meta c) (isSoftPurged c) (varInfo c) (nowNano c) (isVaryMiss c).
Definition set_variantKey k (c : requestContext) :=
  mkCtx (cx_r c) (reqCC c) (primaryKey c) k (cx_meta c) (isSoftPurged c) (varInfo c) (nowNano c) (isVaryMiss c).
Definition set_meta m soft (c : requestContext) :=
  mkCtx (cx_r c) (reqCC c) (primaryKey c) (variantKey c) m soft (varInfo c) (nowNano c) (isVaryMiss c).
Definition set_varInfo v (c : requestContext) :=
  mkCtx (cx_r c) (reqCC c) (primaryKey c) (variantKey c) (cx_meta c) (isSoftPurged c) v (nowNano c) (isVaryMiss c).
Definition set_nowNano n (c : requestContext) :=
  mkCtx (cx_r c) (reqCC c) (primaryKey c) (variantKey c) (cx_meta c) (isSoftPurged c) (varInfo c) n (isVaryMiss c).
Definition set_isVaryMiss b (c : requestContext) :=
  mkCtx (cx_r c) (reqCC c) (primaryKey c) (variantKey c) (cx_meta c) (isSoftPurged c) (varInfo c) (nowNano c) b.

(** ** Pure helpers *)
Definition isMutatingMethod (method : str) : bool :=
  slices_contains [B "POST"; B "PUT"; B "DELETE"; B "PATCH"] method.

Definition isHopByHopHeader (k : str) : bool :=
  slices_contains [B "Connection"; B "Keep-Alive"; B "Proxy-Authenticate"; B "Proxy-Authorization";
                   B "Proxy-Connection"; B "Te"; B "Trailers"; B "Transfer-Encoding"; B "Upgrade"]
                  (CanonicalHeaderKey k).

Definition remainingTTL (expiresAtUnixNano now : Z) : Z :=
  let rem := wrap64 (expiresAtUnixNano - now) in if (rem <? 0)%Z then 0%Z else rem.

Definition calcAge (m : CacheMetadata) (now : Z) : Z :=
  let residentSec := Z.max (Z.quot (wrap64 (now - CreatedAtUnixNano m)) Second) 0 in
  wrap64 (CorrectedInitialAgeSeconds m + residentSec).

Definition calcAgeString (m : option CacheMetadata) (now : Z) : str :=
  match m with None => B "0" | Some m => itoa (calcAge m now) end.

(** [for _, v := range vv { dst.Add(k, v) }]. *)
Definition add_values (dst : Header) (k : str) (vv : list str) : Header :=
  foldl (λ h v, h_Add h k v) dst vv.

Section Pure.
Context {E : GoEnv}.

Definition copyAllHeaders (dst src : Header) : Header :=
  foldl (λ h kv, add_values h kv.1 kv.2) dst (range src).

Definition copyNonHopHeaders (dst src : Header) : Header :=
  foldl (λ h kv, if isHopByHopHeader kv.1 then h else add_values h kv.1 kv.2) dst (range src).

(** The headers named in Connection. *)
Definition connTokens (h : Header) : list str :=
  let conn := h_Get h (B "Connection") in
  if is_nil conn then []
  else List.filter (λ t, negb (is_nil t))
         ((λ t, CanonicalHeaderKey (TrimSpace t)) <$> SplitSeq conn ",").

Definition storable_header (h : Header) (k : str) : bool :=
  let canon := CanonicalHeaderKey k in
  negb (isHopByHopHeader canon || (canon =s B "Set-Cookie")) && negb (slices_contains (connTokens h) canon).

Definition protoHeadersFromHTTP (h : Header) : Header :=
  filter (λ kv, storable_header h kv.1 = true) h.

(** [evaluatePreconditionsHeaders]: [None] is "proceed". *)
Definition evaluatePreconditionsHeaders (r : Request) (etag : str) (lastModifiedUnixNano : Z) : option Z :=
  let h := r_Header r in
  let ifMatch := h_Get h headerIfMatch in
  let ifUnmodSince := h_Get h headerIfUnmodifiedSince in
  let failed :=
    if negb (is_nil ifMatch) then
      negb (TrimSpace ifMatch =s B "*") && negb (existsb (λ tag, strongETagMatches tag etag) (SplitSeq ifMatch ","))
    else if negb (is_nil ifUnmodSince) && (0 <? lastModifiedUnixNano)%Z then
      match parseDate ifUnmodSince with
      | Some clientTime =>
          negb (IsZero clientTime)
          && After (truncate_second lastModifiedUnixNano) (truncate_second clientTime)
      | None => false
      end
    else false in
  if failed then Some 412%Z else
  let ifNoneMatch := h_Get h headerIfNoneMatch in
  let ifModSince := h_Get h headerIfModifiedSince in
  if negb (is_nil ifNoneMatch) then
    if TrimSpace ifNoneMatch =s B "*" then Some 304%Z
    else if negb (is_nil etag) && existsb (λ tag, weakETagMatches tag etag) (SplitSeq ifNoneMatch ",")
    then Some 304%Z else None
  else if negb (is_nil ifModSince) && (0 <? lastModifiedUnixNano)%Z then
    match parseDate ifModSince with
    | Some clientTime =>
        if negb (IsZero clientTime)
           && negb (After (truncate_second lastModifiedUnixNano) (truncate_second clientTime))
        then Some 304%Z else None
    | None => None
    end
  else None.

Definition evaluatePreconditions (r : Request) (v : VariantInfo) : option Z :=
  evaluatePreconditionsHeaders r (Etag v) (LastModifiedUnixNano v).

Definition sanitizePurgeURI (targetURI : str) (r : Request) : str :=
  let trimmed := TrimSpace targetURI in
  if is_nil trimmed then [] else
  let scheme := resolveScheme r in
  let reqHost := normalizeHost (r_Host r) scheme in
  if HasPrefix trimmed (B "/") then scheme ++ B "://" ++ r_Host r ++ trimmed
  else match url_Parse trimmed with
       | None => []
       | Some parsed =>
           let parsedHost := normalizeHost (u_Host parsed) (u_Scheme parsed) in
           if negb (is_nil parsedHost) && negb (EqualFold parsedHost reqHost) then [] else trimmed
       end.

(** Last-Modified as the [int64] of its instant, zero if absent or malformed. *)
Definition last_modified (h : Header) : Z :=
  match parseDate (h_Get h headerLastModified) with
  | Some lm => if IsZero lm then 0%Z else UnixNano lm
  | None => 0%Z
  end.
End Pure.

(** The middleware: its configuration and what its ESI processor is made of. *)
Record Titip := mkTitip {
  t_config : config;
  esiProcessor : option esiConfig;
  esi_fetcher : option (esiExecutionState → str → Request → fetcher_result);
  esi_http : esiExecutionState → Request → result Response;
  esi_alt_budget : EsiFragment → bool;
  esi_parent : option esiExecutionState;   (* set when the request is itself a fragment *)
  esi_time : str;                          (* the printed duration of ESI processing *)
}.

Record staleFallback := mkStale {
  sf_varInfo : VariantInfo;
  sf_body : str;
  sf_meta : option CacheMetadata;
}.

Record fetchResult := mkFetch {
  fx_statusCode : Z;
  is304Origin : bool;
  isFallback : bool;
  fallback : option staleFallback;
  fx_headers : Header;
  fx_body : str;
  fx_fragments : list EsiFragment;
}.

(** A count and an error: Go returns both. *)
Abbreviation purge_result := (Z * option str)%type.

Section Handler.
Context {E : GoEnv} {CO : CacheObject} {S : Type} {St : Storage S}.
Context (t : Titip) (now : nat → Z) (next : nat → Request → Writer → Writer * bool).
Abbreviation cfg := (t_config t).

(** ** Effects *)
Definition time_Now : M S Z := n <- next_tick ;; ret (now n).

(** Storage calls; the time of a call is a clock reading. *)
Definition lift {A} (o : outcome A) : M S (result A) :=
  match o with Ret a => ret (Ok a) | Fail e => ret (Err e) | Panicked => panic end.

Definition storage_GetMeta (k : str) : M S (result (option (CacheMetadata * bool))) :=
  emit (EvGetMeta k) ;;; ts <- time_Now ;; s <- get wd_store ;; lift (GetMeta s ts k).

Definition storage_GetVariant (k vk : str) : M S (result (option (VariantInfo * str))) :=
  emit (EvGetVariant k vk) ;;; ts <- time_Now ;; s <- get wd_store ;; lift (GetVariant s ts k vk).

Definition storage_SetVariant (k : str) (m : CacheMetadata) (v : VariantInfo) (body : str) (ttl : Z)
    : M S (result unit) :=
  emit (EvSet k m v body ttl) ;;; ts <- time_Now ;; s <- get wd_store ;;
  let '(s', o) := SetVariant s ts k m v body ttl in upd_store s' ;;; lift o.

Definition storage_Purge (k : str) (soft : bool) : M S (result Z) :=
  emit (EvPurge k soft) ;;; ts <- time_Now ;; s <- get wd_store ;;
  let '(s', o) := Purge s ts k soft in upd_store s' ;;; lift o.

Definition storage_PurgeByPattern (p : str) (soft : bool) : M S (result Z) :=
  emit (EvPurgePattern p soft) ;;; ts <- time_Now ;; s <- get wd_store ;;
  let '(s', o) := PurgeByPattern s ts p soft in upd_store s' ;;; lift o.

Definition storage_PurgeByTag (tag : str) (soft : bool) : M S (result Z) :=
  emit (EvPurgeTag tag soft) ;;; ts <- time_Now ;; s <- get wd_store ;;
  let '(s', o) := PurgeByTag s ts tag soft in upd_store s' ;;; lift o.

Definition storage_PurgeAll : M S (result Z) :=
  emit EvPurgeAll ;;; ts <- time_Now ;; s <- get wd_store ;;
  let '(s', o) := PurgeAll s ts in upd_store s' ;;; lift o.

(** [next.ServeHTTP(rec, r)] into a fresh recorder, and whether it panicked. *)
Definition origin_record (r : Request) : M S (Writer * bool) :=
  emit (EvOrigin r) ;;; n <- count_call ;; ret (next n r new_writer).

(** [next.ServeHTTP(ctx.w, r)]. *)
Definition origin_direct (r : Request) : M S unit :=
  emit (EvOrigin r) ;;; n <- count_call ;; w <- get wd_w ;;
  let '(w', panicked) := next n r w in
  upd_w (λ _, w') ;;; if panicked then panic else ret tt.

(** A recorder: status (200 unless set), headers, body. *)
Definition rec_Code (rec : Writer) : Z := default 200%Z (w_Code rec).

Definition w_header (f : Header → Header) : M S unit := upd_w (λ w, w_with_header w (f (w_Header w))).
Definition w_write_header (code : Z) : M S unit := upd_w (λ w, WriteHeader w code).
Definition w_write (b : str) : M S unit := upd_w (λ w, Write w b).
Definition w_error (msg : str) (code : Z) : M S unit := upd_w (λ w, http_Error w msg code).

Definition recordRequest (status : str) : M S unit := emit (EvRecord status).
Definition recordPurge (purgeType mode status : str) (count : Z) : M S unit :=
  emit (EvRecordPurge purgeType mode status count).

Definition emitCacheStatus (simpleStatus rfc9211Value : str) : M S unit :=
  match cacheStatusMode cfg with
  | CacheStatusRFC9211 =>
      if is_nil rfc9211Value then ret tt else w_header (λ h, h_Add h headerCacheStatus rfc9211Value)
  | CacheStatusSimple => w_header (λ h, h_Set h headerCacheStatus simpleStatus)
  | CacheStatusNone => ret tt
  end.

(** A detail text that is only built in RFC 9211 mode. *)
Definition rfc_detail (d : str) : str :=
  match cacheStatusMode cfg with CacheStatusRFC9211 => rfc9211Prefix ++ d | _ => [] end.

Definition copyProtoHeaders (protoHeaders : Header) : M S unit :=
  w_header (λ h, copyAllHeaders h protoHeaders).

(** ** ESI hooks *)
Definition inspectAndPrepareESI (h : Header) (body : str) : M S (Header * list EsiFragment) :=
  match esiProcessor t with
  | None => ret (h, [])
  | Some e =>
      if negb (CanProcess e h) then ret (h, []) else
      match Scan body with
      | Scanned l => ret (CleanSurrogateControl h, l)
      | IndexPanic | NoFuel => panic
      end
  end.

Definition esi_detail (detail : str) (n : nat) : str :=
  match cacheStatusMode cfg with
  | CacheStatusRFC9211 =>
      detail ++ B "; detail=" ++ [dquote] ++ B "esi-includes=" ++ itoa (Z.of_nat n) ++ B ";time="
      ++ esi_time t ++ [dquote]
  | _ => detail
  end.

Definition processESI (parentBody : str) (fragments : list EsiFragment) (statusCode : Z)
    (simpleStatus rfc9211Detail : str) : M S unit :=
  r <- get (λ w, cx_r (wd_ctx w)) ;;
  p <- (match esiProcessor t with
        | Some e =>
            match ProcessFragments e (esi_fetcher t) (esi_http t) (esi_alt_budget t) r parentBody
                    fragments (esi_parent t) with
            | None => w_header (λ h, ReconcileHeaders e h None) ;;; ret (parentBody, rfc9211Detail)
            | Some res =>
                w_header (λ h, ReconcileHeaders e h (Some res)) ;;;
                ret (res_Body res, esi_detail rfc9211Detail (length fragments))
            end
        | None => w_header CleanSurrogateControl ;;; ret (parentBody, rfc9211Detail)
        end) ;;
  emitCacheStatus simpleStatus p.2 ;;;
  w_write_header statusCode ;;;
  if r_Method r <>s MethodHead then w_write p.1 else ret tt.

Definition adjustESIHeaders (v : VariantInfo) : M S unit :=
  match esiProcessor t with
  | None => ret tt
  | Some e => if is_nil (EsiFragments v) then ret tt else w_header (λ h, ReconcileHeaders e h None)
  end.

Definition has_esi_fragments (v : VariantInfo) : bool :=
  match esiProcessor t with Some _ => negb (is_nil (EsiFragments v)) | None => false end.

Definition may_check_preconditions (v : VariantInfo) : bool :=
  negb (has_esi_fragments v) || match esiProcessor t with Some e => preserveETag e | None => true end.

(** ** Storing and loading bodies *)
Definition codec_of (v : VariantInfo) : option Compressor :=
  compressors cfg !! (if is_nil (StorageCompression v) then StorageCompressionLZ4 else StorageCompression v).

(** [Decompress] and the check of the size. *)
Definition decompressed (v : VariantInfo) (compBody : str) : option str :=
  comp ← codec_of v; body ← Decompress comp compBody;
  if (Z.of_nat (length body) =? RawBodySize v)%Z then Some body else None.

Definition loadDecompressed : M S (option (VariantInfo * str)) :=
  ctx <- get wd_ctx ;;
  res <- storage_GetVariant (primaryKey ctx) (variantKey ctx) ;;
  match res with
  | Err _ | Ok None => ret None
  | Ok (Some (v, compBody)) =>
      if (0 <? RawBodySize v)%Z && is_nil compBody then ret None else
      match codec_of v with
      | None => ret None
      | Some _ =>
          match decompressed v compBody with
          | Some body => ret (Some (v, body))
          | None => storage_Purge (primaryKey ctx) true ;;; ret None
          end
      end
  end.

(** The compressed body and the name of its codec. *)
Definition compress_body (headers : Header) (bodyBytes : str) : str * str :=
  if is_nil bodyBytes then ([], StorageCompressionNone) else
  let comp := resolveCompressor (compressors cfg !! storageCompression cfg) headers
                (Z.of_nat (length bodyBytes)) in
  match Compress comp bodyBytes with
  | Some c => (c, Name comp)
  | None => (bodyBytes, StorageCompressionNone)
  end.

Definition storage_ttl (f : freshnessInfo) : Z :=
  let staleWindow := Z.max (StaleWhileRevalidateTTL f) (StaleIfErrorTTL f) in
  let storageTTL := add_dur (EffectiveTTL f) staleWindow in
  if (storageTTL <=? 0)%Z then EffectiveTTL f else storageTTL.

Definition new_variant_key (r : Request) (vk : str) (varNames : list str) : str :=
  let varKey := if is_nil vk || (vk =s defaultVariantKey) then generateVariantKey r varNames else vk in
  if is_nil varKey then defaultVariantKey else varKey.

Definition new_meta (pk : str) (headers : Header) (f : freshnessInfo) (respTime : Z) : CacheMetadata :=
  let expires := UnixNano (time_Add respTime (EffectiveTTL f)) in
  mkCacheMetadata pk (extractVaryHeaderNames headers) ∅ (UnixNano respTime) expires
    (if (0 <? StaleWhileRevalidateTTL f)%Z then wrap64 (expires + StaleWhileRevalidateTTL f) else 0%Z)
    (Z.quot (CorrectedInitialAge f) Second) (extractTags headers (tagHeaderName cfg)).

Definition new_variant (varKey : str) (statusCode : Z) (headers : Header) (bodyBytes : str)
    (fragments : list EsiFragment) (compName : str) : VariantInfo :=
  mkVariantInfo varKey ∅ (wrap32 statusCode) (protoHeadersFromHTTP headers) (h_Get headers headerETag)
    (last_modified headers) (Z.of_nat (length bodyBytes)) fragments compName.

Definition saveVariantToStorage (pk vk : str) (statusCode : Z) (r : Request) (headers : Header)
    (bodyBytes : str) (fragments : list EsiFragment) (f : freshnessInfo) (respTime : Z) : M S unit :=
  let '(compBytes, compName) := compress_body headers bodyBytes in
  let varKey := new_variant_key r vk (extractVaryHeaderNames headers) in
  storage_SetVariant pk (new_meta pk headers f respTime)
    (new_variant varKey statusCode headers bodyBytes fragments compName) compBytes (storage_ttl f) ;;;
  ret tt.

(** [calculateFreshness] with its own reading of the clock. *)
Definition freshness_of (code : Z) (reqHeaders respHeaders : Header) (reqTime respTime : Z)
    : M S freshnessInfo :=
  clock <- time_Now ;; ret (calculateFreshness code reqHeaders respHeaders reqTime respTime respTime clock).

(** A response may be stored: cacheable, not shut down, not a plain HEAD. *)
Definition should_cache (f : freshnessInfo) (closed : bool) (method : str) : bool :=
  if (method =s MethodHead) && negb (convertHeadToGet cfg) then false
  else IsCacheable f && negb closed.

Definition spawnSWR : M S unit :=
  closed <- get wd_closed ;;
  if closed then ret tt else
  ctx <- get wd_ctx ;;
  emit (EvSpawn (cx_r ctx) (primaryKey ctx) (variantKey ctx)) ;;;
  add_job (cx_r ctx, primaryKey ctx, variantKey ctx).

(** ** Purging ([Titip.Purge] and its siblings) *)

Definition purgeModeString (soft : bool) : str := if soft then B "soft" else B "hard".

(** A storage call of a purge: its count is recorded and returned, an error too. *)
Definition purged_result (purgeType mode label : str) (res : result Z) : M S purge_result :=
  match res with
  | Err e => recordPurge purgeType mode (B "error") 0 ;;; ret (0%Z, Some (label ++ e))
  | Ok n => recordPurge purgeType mode (B "success") n ;;; ret (n, None)
  end.

(** The loop over patterns; [label] starts the error text. *)
Fixpoint purge_patterns (purgeType label : str) (soft : bool) (patterns : list str) (totalCount : Z)
    : M S purge_result :=
  match patterns with
  | [] => recordPurge purgeType (purgeModeString soft) (B "success") totalCount ;;; ret (totalCount, None)
  | pattern :: rest =>
      res <- storage_PurgeByPattern pattern soft ;;
      match res with
      | Ok n => purge_patterns purgeType label soft rest (wrap64 (totalCount + n))
      | Err e =>
          recordPurge purgeType (purgeModeString soft) (B "error") totalCount ;;;
          ret (totalCount, Some (label ++ e))
      end
  end.

Definition titip_Purge (target : str) (soft : bool) : M S purge_result :=
  let mode := purgeModeString soft in
  match buildPurgeOperation target (Some (cacheKey cfg)) with
  | Panicked => panic
  | Fail e => recordPurge (B "url") mode (B "error") 0 ;;; ret (0%Z, Some (B "titip: purge parse: " ++ e))
  | Ret (isExact, keys) =>
      match keys with
      | [] => ret (0%Z, None)
      | key :: _ =>
          if isExact then
            res <- storage_Purge key soft ;; purged_result (B "url") mode (B "titip: purge path: ") res
          else purge_patterns (B "url") (B "titip: purge path pattern: ") soft keys 0
      end
  end.

Definition titip_PurgePrefix (prefix : str) (soft : bool) : M S purge_result :=
  match buildPurgePrefixOperation prefix (Some (cacheKey cfg)) with
  | Err e =>
      recordPurge (B "prefix") (purgeModeString soft) (B "error") 0 ;;;
      ret (0%Z, Some (B "titip: purge prefix: " ++ e))
  | Ok [] => ret (0%Z, None)
  | Ok keys => purge_patterns (B "prefix") (B "titip: purge prefix pattern: ") soft keys 0
  end.

Definition titip_PurgeTag (tag : str) (soft : bool) : M S purge_result :=
  res <- storage_PurgeByTag tag soft ;;
  purged_result (B "tag") (purgeModeString soft) (B "titip: purge tag: ") res.

Definition titip_PurgeAll : M S purge_result :=
  res <- storage_PurgeAll ;; purged_result (B "all") (B "hard") (B "titip: purge all: ") res.

(** ** Mutating requests *)
Definition purge_location (loc : str) (r : Request) : M S unit :=
  if is_nil loc then ret tt else
  let safeLoc := sanitizePurgeURI loc r in
  if is_nil safeLoc then ret tt else titip_Purge safeLoc false ;;; ret tt.

(** The URL that a mutating request invalidates. *)
Definition mutating_target (r : Request) (u : URL) : str :=
  let reqTarget := url_String u in
  if is_nil reqTarget || negb (Contains reqTarget (B "://"))
  then resolveScheme r ++ B "://" ++ r_Host r ++ url_RequestURI u
  else reqTarget.

Definition handleMutatingRequest (r : Request) : M S unit :=
  if negb (autoInvalidateMutatingMethods cfg) then origin_direct r else
  p <- origin_record r ;;
  let '(rec, panicked) := p in
  if panicked : bool then panic else
  w_header (λ h, copyAllHeaders h (w_Header rec)) ;;;
  w_write_header (rec_Code rec) ;;;
  (if is_nil (w_Body rec) then ret tt else w_write (w_Body rec)) ;;;
  if (200 <=? rec_Code rec)%Z && (rec_Code rec <? 400)%Z then
    match r_URL r with
    | None => panic
    | Some u =>
        titip_Purge (mutating_target r u) false ;;;
        purge_location (h_Get (w_Header rec) headerLocation) r ;;;
        purge_location (h_Get (w_Header rec) headerContentLocation) r
    end
  else ret tt.

(** ** The states *)
Definition bypass (detail : str) : M S (option stateFn) :=
  recordRequest labelStatusBypass ;;; emitCacheStatus statusBypass detail ;;;
  ret (Some stateBypassOrigin).

(** Client Cache-Control and Pragma. *)
Definition check_client_directives (r : Request) : M S (option stateFn) :=
  if negb (respectClientCacheControl cfg) then ret (Some stateLookupMetadata) else
  let cc := join (B ", ") (h_Values (r_Header r) headerCacheControl) in
  let pragma := h_Get (r_Header r) headerPragma in
  if negb (is_nil cc) then
    match ParseRequestCacheControl cc with
    | Err _ => ret (Some stateLookupMetadata)
    | Ok d =>
        upd_ctx (set_reqCC (Some d)) ;;;
        if req_NoStore d || req_NoCache d then bypass rfc9211FwdNoStore
        else if (req_MaxAge d =? 0)%Z then bypass rfc9211FwdMaxAgeZero
        else ret (Some stateLookupMetadata)
    end
  else if EqualFold (TrimSpace pragma) (B "no-cache") then bypass rfc9211FwdPragmaNoCache
  else ret (Some stateLookupMetadata).

Definition run_CheckBypass : M S (option stateFn) :=
  recovering
    (r <- get (λ w, cx_r (wd_ctx w)) ;;
     let h := r_Header r in
     if containsToken (h_Get h headerUpgrade) upgradeWebSocket then bypass rfc9211FwdWebsocket
     else if Contains (ToLower (h_Get h headerAccept)) contentTypeEventStream then bypass rfc9211FwdSSE
     else if negb (is_nil (h_Get h headerRange)) then bypass rfc9211FwdRange
     else if isMutatingMethod (r_Method r) then
       recordRequest labelStatusBypass ;;; emitCacheStatus statusBypass rfc9211FwdMethod ;;;
       handleMutatingRequest r ;;; ret None
     else if negb (r_Method r =s MethodGet) && negb (r_Method r =s MethodHead)
     then bypass rfc9211FwdMethod
     else check_client_directives r)
    (w_error (B "Internal Server Error") 500 ;;; ret None).

Definition only_if_cached (ctx : requestContext) : bool :=
  match reqCC ctx with Some d => req_OnlyIfCached d | None => false end.

Definition gateway_timeout (detail : str) : M S (option stateFn) :=
  recordRequest labelStatusMiss ;;; emitCacheStatus statusMiss detail ;;;
  w_error (B "Gateway Timeout") 504 ;;; ret None.

Definition run_LookupMetadata : M S (option stateFn) :=
  r <- get (λ w, cx_r (wd_ctx w)) ;;
  let pk := generatePrimaryKey r (Some (cacheKey cfg)) in
  upd_ctx (set_primaryKey pk) ;;;
  res <- storage_GetMeta pk ;;
  match res with
  | Err _ =>
      recordRequest labelStatusError ;;; emitCacheStatus statusBypass rfc9211FwdStorageFallback ;;;
      ret (Some stateBypassOrigin)
  | Ok None =>
      upd_ctx (set_meta None false) ;;;
      ctx <- get wd_ctx ;;
      if only_if_cached ctx then gateway_timeout rfc9211MissOnlyIfCached
      else upd_ctx (set_isVaryMiss false) ;;; ret (Some stateFetchOriginMiss)
  | Ok (Some (m, soft)) => upd_ctx (set_meta (Some m) soft) ;;; ret (Some stateMatchVariant)
  end.

Definition run_MatchVariant : M S (option stateFn) :=
  ctx <- get wd_ctx ;;
  match cx_meta ctx with
  | None => panic
  | Some m =>
      let vk := generateVariantKey (cx_r ctx) (VaryHeaderNames m) in
      let vk := if is_nil vk then defaultVariantKey else vk in
      upd_ctx (set_variantKey vk) ;;;
      match Variants m !! vk with
      | None =>
          if only_if_cached ctx then gateway_timeout rfc9211MissOnlyIfCached
          else upd_ctx (set_isVaryMiss true) ;;; ret (Some stateFetchOriginMiss)
      | Some v => upd_ctx (set_varInfo (Some v)) ;;; ret (Some stateEvaluateFreshness)
      end
  end.

Definition run_EvaluateFreshness : M S (option stateFn) :=
  ts <- time_Now ;;
  upd_ctx (set_nowNano (UnixNano ts)) ;;;
  ctx <- get wd_ctx ;;
  if isSoftPurged ctx then ret (Some stateFetchOriginRevalidate) else
  match cx_meta ctx, varInfo ctx with
  | Some m, Some v =>
      if (nowNano ctx <=? ExpiresAtUnixNano m)%Z then
        match (if may_check_preconditions v then evaluatePreconditions (cx_r ctx) v else None) with
        | Some status =>
            if (status =? 304)%Z then ret (Some stateServe304)
            else if (status =? 412)%Z then ret (Some stateServe412)
            else ret (Some stateServeCachedHit)
        | None => ret (Some stateServeCachedHit)
        end
      else if (ExpiresAtUnixNano m <? StaleUntilUnixNano m)%Z && (nowNano ctx <=? StaleUntilUnixNano m)%Z
      then ret (Some stateServeSWR)
      else if respectClientCacheControl cfg
              && Contains (join (B ", ") (h_Values (r_Header (cx_r ctx)) headerCacheControl)) (B "only-if-cached")
      then gateway_timeout rfc9211MissOnlyIfCachedExpired
      else ret (Some stateFetchOriginRevalidate)
  | _, _ => panic
  end.

Definition set_age (m : option CacheMetadata) (ts : Z) : M S unit :=
  w_header (λ h, h_Set h headerAge (calcAgeString m ts)).

Definition run_Serve304 : M S (option stateFn) :=
  ctx <- get wd_ctx ;;
  match varInfo ctx with
  | None => panic
  | Some v =>
      recordRequest labelStatusHit ;;; emitCacheStatus statusHit rfc9211Hit ;;;
      copyProtoHeaders (ResponseHeaders v) ;;; adjustESIHeaders v ;;;
      set_age (cx_meta ctx) (nowNano ctx) ;;; w_write_header 304 ;;; ret None
  end.

Definition run_Serve412 : M S (option stateFn) :=
  recordRequest labelStatusBypass ;;; emitCacheStatus statusBypass rfc9211FwdPreconditionFailed ;;;
  w_error (B "Precondition Failed") 412 ;;; ret None.

(** The remaining lifetime in seconds, as the Cache-Status header prints it. *)
Definition ttl_text (m : CacheMetadata) (ts : Z) : str :=
  rfc9211HitTTLPrefix ++ itoa (Z.quot (remainingTTL (ExpiresAtUnixNano m) ts) Second).

Definition run_ServeCachedHit : M S (option stateFn) :=
  ctx <- get wd_ctx ;;
  match cx_meta ctx, varInfo ctx with
  | Some m, Some v0 =>
      if (r_Method (cx_r ctx) =s MethodHead) || (RawBodySize v0 =? 0)%Z then
        recordRequest labelStatusHit ;;; emitCacheStatus statusHit (ttl_text m (nowNano ctx)) ;;;
        copyProtoHeaders (ResponseHeaders v0) ;;; adjustESIHeaders v0 ;;;
        w_write_header (StatusCode v0) ;;; ret None
      else
        loaded <- loadDecompressed ;;
        match loaded with
        | None => ret (Some stateFetchOriginMiss)
        | Some (v, body) =>
            recordRequest labelStatusHit ;;; copyProtoHeaders (ResponseHeaders v) ;;;
            set_age (Some m) (nowNano ctx) ;;;
            if has_esi_fragments v then
              processESI body (EsiFragments v) (StatusCode v) statusHit (ttl_text m (nowNano ctx)) ;;; ret None
            else
              emitCacheStatus statusHit (ttl_text m (nowNano ctx)) ;;;
              w_write_header (StatusCode v) ;;; w_write body ;;; ret None
        end
  | _, _ => panic
  end.

Definition run_ServeSWR : M S (option stateFn) :=
  ctx <- get wd_ctx ;;
  match varInfo ctx with
  | None => panic
  | Some v0 =>
      if (r_Method (cx_r ctx) =s MethodHead) || (RawBodySize v0 =? 0)%Z then
        recordRequest labelStatusStaleHit ;;; copyProtoHeaders (ResponseHeaders v0) ;;;
        set_age (cx_meta ctx) (nowNano ctx) ;;; emitCacheStatus statusUpdating rfc9211UpdatingSWR ;;;
        w_write_header (StatusCode v0) ;;; spawnSWR ;;; ret None
      else
        loaded <- loadDecompressed ;;
        match loaded with
        | None => ret (Some stateFetchOriginMiss)
        | Some (v, body) =>
            recordRequest labelStatusStaleHit ;;; copyProtoHeaders (ResponseHeaders v) ;;;
            set_age (cx_meta ctx) (nowNano ctx) ;;;
            if has_esi_fragments v then
              processESI body (EsiFragments v) (StatusCode v) statusUpdating rfc9211UpdatingSWR ;;;
              spawnSWR ;;; ret None
            else
              emitCacheStatus statusUpdating rfc9211UpdatingSWR ;;;
              w_write_header (StatusCode v) ;;;
              (if r_Method (cx_r ctx) <>s MethodHead then w_write body else ret tt) ;;;
              spawnSWR ;;; ret None
        end
  end.

(** ** Fetching on a miss *)
Definition has_conditional_headers (r : Request) : bool :=
  negb (is_nil (h_Get (r_Header r) headerIfNoneMatch)) || negb (is_nil (h_Get (r_Header r) headerIfModifiedSince)).

(** HEAD becomes GET when so configured. *)
Definition origin_method (r : Request) : Request :=
  if (r_Method r =s MethodHead) && convertHeadToGet cfg then req_with_method r MethodGet else r.

Definition with_capability (r : Request) : Request :=
  match esiProcessor t with
  | Some _ => req_with_header r (addSurrogateCapability (r_Header r) (B "titip"))
  | None => r
  end.

Definition miss_request (r : Request) : Request :=
  let q := origin_method r in
  let q := if has_conditional_headers r
           then req_with_header q (h_Del (h_Del (r_Header q) headerIfNoneMatch) headerIfModifiedSince)
           else q in
  with_capability q.

(** Status line and body of an origin response for the client. *)
Definition write_response (r : Request) (code : Z) (body : str) : M S (option stateFn) :=
  w_write_header code ;;;
  (if r_Method r <>s MethodHead then w_write body else ret tt) ;;; ret None.

Definition serve_set_cookie (r : Request) (code : Z) (headers : Header) (body : str) : M S (option stateFn) :=
  recordRequest labelStatusBypass ;;; w_header (λ h, copyAllHeaders h headers) ;;;
  emitCacheStatus statusDynamic
    (rfc_detail (B "fwd=bypass; fwd-status=" ++ itoa code ++ B "; detail=set-cookie")) ;;;
  write_response r code body.

Definition serve_event_stream (r : Request) (code : Z) (headers : Header) (body : str) : M S (option stateFn) :=
  recordRequest labelStatusBypass ;;; emitCacheStatus statusDynamic rfc9211FwdSSEResponse ;;;
  w_header (λ h, copyAllHeaders h headers) ;;; write_response r code body.

(** The answer to a miss, from what the origin wrote ([reqTime] is before its call). *)
Definition answer_miss (ctx : requestContext) (reqTime : Z) (p : Writer * bool) : M S (option stateFn) :=
  let r := cx_r ctx in
  respTime <- time_Now ;;
  let '(rec, panicked) := p in
  if panicked : bool then
    recordRequest labelStatusError ;;; emitCacheStatus statusBypass rfc9211FwdOriginPanic ;;;
    w_error (B "Internal Server Error") 500 ;;; ret None
  else
  let code := rec_Code rec in
  let bodyBytes := w_Body rec in
  if negb (is_nil (h_Values (w_Header rec) headerSetCookie)) then
    serve_set_cookie r code (w_Header rec) bodyBytes
  else if Contains (ToLower (h_Get (w_Header rec) headerContentType)) contentTypeEventStream then
    serve_event_stream r code (w_Header rec) bodyBytes
  else
  esi <- inspectAndPrepareESI (w_Header rec) bodyBytes ;;
  let '(headers, fragments) := esi in
  f <- freshness_of code (r_Header r) headers reqTime respTime ;;
  closed <- get wd_closed ;;
  let shouldCache := should_cache f closed (r_Method r) in
  (if shouldCache
   then saveVariantToStorage (primaryKey ctx) (variantKey ctx) code r headers bodyBytes fragments f respTime
   else ret tt) ;;;
  w_header (λ h, copyNonHopHeaders h headers) ;;;
  let missReason := if isVaryMiss ctx then B "fwd=vary-miss" else B "fwd=uri-miss" in
  let stored := shouldCache && (0 <? EffectiveTTL f)%Z in
  let simpleStatus := if stored then statusMiss else statusDynamic in
  let detail :=
    if stored then rfc_detail (missReason ++ B "; fwd-status=" ++ itoa code ++ B "; stored; ttl="
                               ++ itoa (seconds_int (EffectiveTTL f)))
    else rfc_detail (B "fwd=bypass; fwd-status=" ++ itoa code) in
  recordRequest (if stored then labelStatusMiss else labelStatusBypass) ;;;
  if negb (is_nil fragments) then
    processESI bodyBytes fragments code simpleStatus detail ;;; ret None
  else
  emitCacheStatus simpleStatus detail ;;;
  if has_conditional_headers r && (200 <=? code)%Z && (code <? 300)%Z
     && match evaluatePreconditionsHeaders r (h_Get headers headerETag) (last_modified headers) with
        | Some status => (status =? 304)%Z
        | None => false
        end
  then w_write_header 304 ;;; ret None
  else write_response r code bodyBytes.

Definition run_FetchOriginMiss : M S (option stateFn) :=
  ctx <- get wd_ctx ;;
  reqTime <- time_Now ;;
  p <- origin_record (miss_request (cx_r ctx)) ;;
  answer_miss ctx reqTime p.

(** ** Revalidation *)

(** Conditional request for the stale variant.  [http_FormatTime] prints its date. *)
Definition revalidation_request (r : Request) (staleVar : option VariantInfo) : Request :=
  let q := origin_method r in
  let q :=
    match staleVar with
    | None => q
    | Some v =>
        let h := r_Header q in
        let h := if is_nil (Etag v) then h else h_Set h headerIfNoneMatch (Etag v) in
        let h := if (0 <? LastModifiedUnixNano v)%Z
                 then h_Set h headerIfModifiedSince (http_FormatTime (LastModifiedUnixNano v)) else h in
        req_with_header q h
    end in
  with_capability q.

Definition with_response_headers (v : VariantInfo) (h : Header) : VariantInfo :=
  mkVariantInfo (VariantKey v) (VaryHeaders v) (StatusCode v) h (Etag v) (LastModifiedUnixNano v)
    (RawBodySize v) (EsiFragments v) (StorageCompression v).
Definition with_validators (v : VariantInfo) (etag : str) (lm : Z) : VariantInfo :=
  mkVariantInfo (VariantKey v) (VaryHeaders v) (StatusCode v) (ResponseHeaders v) etag lm
    (RawBodySize v) (EsiFragments v) (StorageCompression v).
Definition with_expiry (m : CacheMetadata) (expires staleUntil : Z) : CacheMetadata :=
  mkCacheMetadata (PrimaryKey m) (VaryHeaderNames m) (Variants m) (CreatedAtUnixNano m) expires staleUntil
    (CorrectedInitialAgeSeconds m) (Tags m).

(** The headers that a 304 may replace. *)
Definition mergeable (k : str) : bool :=
  let canon := CanonicalHeaderKey k in negb (isHopByHopHeader canon) && negb (canon =s B "Set-Cookie").

(** A variant that a store has read back without headers has a nil map: neither [proto.Unmarshal]
    nor [proto.Clone] makes an empty one. *)
Definition nil_headers (v : VariantInfo) : bool := bool_decide (ResponseHeaders v = ∅).

(** The merged headers of a 304, and the stored variant it updates.  [None]: the assignment into
    the nil map of a variant without headers panics. *)
Definition merge_304 (staleVar : VariantInfo) (headers : Header) : option (Header * VariantInfo) :=
  if nil_headers staleVar && existsb (λ kv, mergeable kv.1) (range headers) then None else
  let merged := copyAllHeaders ∅ (ResponseHeaders staleVar) in
  let merged := foldl (λ h kv, if mergeable kv.1 then <[CanonicalHeaderKey kv.1 := kv.2]> h else h)
                  merged (range headers) in
  let stored := foldl (λ h kv, if mergeable kv.1 then <[kv.1 := kv.2]> h else h)
                  (ResponseHeaders staleVar) (range headers) in
  let etag := h_Get headers headerETag in
  let lm := h_Get headers headerLastModified in
  let merged := if is_nil etag then merged else h_Set merged headerETag etag in
  let lmNano := if is_nil lm then 0%Z else last_modified headers in
  let hasLm := negb (is_nil lm) && match parseDate lm with Some d => negb (IsZero d) | None => false end in
  let merged := if hasLm then h_Set merged headerLastModified lm else merged in
  Some (merged, with_validators (with_response_headers staleVar stored)
             (if is_nil etag then Etag staleVar else etag)
             (if hasLm then lmNano else LastModifiedUnixNano staleVar)).

(** The refreshed expiry of a revalidated entry. *)
Definition refresh_expiry (m : CacheMetadata) (f : freshnessInfo) (respTime : Z) : CacheMetadata :=
  let expires := UnixNano (time_Add respTime (EffectiveTTL f)) in
  with_expiry m expires
    (if (0 <? StaleWhileRevalidateTTL f)%Z then wrap64 (expires + StaleWhileRevalidateTTL f) else expires).

Definition stale_result (v : VariantInfo) (body : str) (m : option CacheMetadata) (code : Z) : fetchResult :=
  mkFetch code false true (Some (mkStale v body m)) ∅ [] [].

(** The double check: an entry that another flight has refreshed meanwhile. *)
Definition recheck_storage (pk vk : str) : M S (option fetchResult) :=
  res <- storage_GetMeta pk ;;
  match res with
  | Ok (Some (latestMeta, false)) =>
      ts <- time_Now ;;
      if (UnixNano ts <? ExpiresAtUnixNano latestMeta)%Z then
        res <- storage_GetVariant pk vk ;;
        match res with
        | Ok (Some (latestVar, compBody)) =>
            if (RawBodySize latestVar =? 0)%Z || negb (is_nil compBody)
            then ret (Some (stale_result latestVar compBody (Some latestMeta) (StatusCode latestVar)))
            else ret None
        | _ => ret None
        end
      else ret None
  | _ => ret None
  end.

(** An upstream 304: refresh the stored variant and its expiry. *)
Definition handle_304 (ctx : requestContext) (staleVar : VariantInfo) (staleBody : str) (headers : Header)
    (reqTime respTime : Z) : M S fetchResult :=
  match merge_304 staleVar headers with
  | None => panic
  | Some (merged, staleVar) =>
  f <- freshness_of 200 (r_Header (cx_r ctx)) merged reqTime respTime ;;
  closed <- get wd_closed ;;
  match cx_meta ctx with
  | None => panic
  | Some m =>
      if (0 <? EffectiveTTL f)%Z && negb closed then
        let m' := refresh_expiry m f respTime in
        upd_ctx (set_meta (Some m') (isSoftPurged ctx)) ;;;
        storage_SetVariant (primaryKey ctx) m' staleVar staleBody (storage_ttl f) ;;;
        ret (mkFetch 200 true false (Some (mkStale staleVar staleBody (Some m'))) ∅ [] [])
      else ret (mkFetch 200 true false (Some (mkStale staleVar staleBody (Some m))) ∅ [] [])
  end
  end.

(** The function run by the flight. *)
Definition revalidate_flight (staleBody : str) : M S fetchResult :=
  ctx <- get wd_ctx ;;
  let r := cx_r ctx in
  let staleVar := varInfo ctx in
  fresh <- recheck_storage (primaryKey ctx) (variantKey ctx) ;;
  match fresh with
  | Some res => ret res
  | None =>
    reqTime <- time_Now ;;
    p <- origin_record (revalidation_request r staleVar) ;;
    let '(rec, panicked) := p in
    if panicked : bool then
      ret (match staleVar with
           | Some v => stale_result v staleBody (cx_meta ctx) 0
           | None => mkFetch 500 false false None ∅ [] []
           end)
    else
    respTime <- time_Now ;;
    let code := rec_Code rec in
    match (if is_nil staleBody then None else staleVar), (code =? 304)%Z, (500 <=? code)%Z with
    | Some v, true, _ => handle_304 ctx v staleBody (w_Header rec) reqTime respTime
    | Some v, false, true => ret (stale_result v staleBody (cx_meta ctx) code)
    | _, _, _ =>
      esi <- inspectAndPrepareESI (w_Header rec) (w_Body rec) ;;
      let '(headers, fragments) := esi in
      f <- freshness_of code (r_Header r) headers reqTime respTime ;;
      closed <- get wd_closed ;;
      (if should_cache f closed (r_Method r)
       then saveVariantToStorage (primaryKey ctx) (variantKey ctx) code r headers (w_Body rec) fragments f respTime
       else ret tt) ;;;
      ret (mkFetch code false false None headers (w_Body rec) fragments)
    end
  end.

Definition collapsed_token (shared : bool) : str := if shared then B "; collapsed" else [].

Definition refreshed_detail (shared : bool) : str :=
  rfc_detail (B "fwd=stale; fwd-status=304" ++ collapsed_token shared ++ B "; stored; detail=304-refreshed").

(** A cached body, after a 304 or as a fallback; [false]: it could not be
    decompressed. *)
Definition serve_fallback (r : Request) (res : fetchResult) (fb : staleFallback) (shared : bool) : M S bool :=
  let v := sf_varInfo fb in
  let set_fallback_age : M S unit :=
    match sf_meta fb with
    | Some m => ts <- time_Now ;; set_age (Some m) (UnixNano ts)
    | None => ret tt
    end in
  match (if is304Origin res && may_check_preconditions v then evaluatePreconditions r v else None) with
  | Some 304%Z =>
      recordRequest labelStatusRevalidated ;;; emitCacheStatus statusRevalidated (refreshed_detail shared) ;;;
      copyProtoHeaders (ResponseHeaders v) ;;; adjustESIHeaders v ;;; set_fallback_age ;;;
      w_write_header 304 ;;; ret true
  | _ =>
    match decompressed v (sf_body fb) with
    | None => ret false
    | Some body =>
        copyProtoHeaders (ResponseHeaders v) ;;; set_fallback_age ;;;
        if has_esi_fragments v then
          (if is304Origin res then
             recordRequest labelStatusRevalidated ;;;
             processESI body (EsiFragments v) (StatusCode v) statusRevalidated (refreshed_detail shared)
           else
             recordRequest labelStatusStaleHit ;;;
             processESI body (EsiFragments v) (StatusCode v) statusStale rfc9211StaleIfError) ;;; ret true
        else
          (if is304Origin res then
             recordRequest labelStatusRevalidated ;;; emitCacheStatus statusRevalidated (refreshed_detail shared)
           else
             let fwdStatus := if (fx_statusCode res =? 0)%Z then 500%Z else fx_statusCode res in
             recordRequest labelStatusStaleHit ;;;
             emitCacheStatus statusStale (rfc_detail (B "hit; stale; fwd=stale; fwd-status=" ++ itoa fwdStatus
                                                      ++ B "; detail=stale-if-error"))) ;;;
          w_write_header (StatusCode v) ;;;
          (if r_Method r <>s MethodHead then w_write body else ret tt) ;;; ret true
    end
  end.

(** The origin's headers for one of the callers of a flight. *)
Definition copyFlightHeaders (shared : bool) (dst src : Header) : Header :=
  foldl (λ h kv, if shared && (CanonicalHeaderKey kv.1 =s B "Set-Cookie") then h
                 else add_values h kv.1 kv.2) dst (range src).

Definition serve_fetched (r : Request) (res : fetchResult) (shared : bool) : M S (option stateFn) :=
  let detail := rfc_detail (B "fwd=stale; fwd-status=" ++ itoa (fx_statusCode res) ++ collapsed_token shared
                            ++ B "; stored; detail=soft-refreshed") in
  if negb (is_nil (fx_fragments res)) then
    recordRequest labelStatusMiss ;;; w_header (λ h, copyNonHopHeaders h (fx_headers res)) ;;;
    processESI (fx_body res) (fx_fragments res) (fx_statusCode res) statusExpired detail ;;; ret None
  else if negb (fx_statusCode res =? 0)%Z then
    w_header (λ h, copyFlightHeaders shared h (fx_headers res)) ;;;
    recordRequest labelStatusMiss ;;; emitCacheStatus statusExpired detail ;;;
    write_response r (fx_statusCode res) (fx_body res)
  else ret None.

Definition serve_flight (r : Request) (res : fetchResult) (shared : bool) : M S (option stateFn) :=
  match (if isFallback res || is304Origin res then fallback res else None) with
  | Some fb =>
      served <- serve_fallback r res fb shared ;;
      if served : bool then ret None else serve_fetched r res shared
  | None => serve_fetched r res shared
  end.

(** [joined] is the result of a flight that another request started and this
    one waits for; [None]: this request runs the flight itself, and [waiters] says
    whether others wait for it. *)
Context (joined : option fetchResult) (waiters : bool).

Definition run_FetchOriginRevalidate : M S (option stateFn) :=
  ctx <- get wd_ctx ;;
  staleBody <- (match varInfo ctx with
                | None => ret []
                | Some _ =>
                    res <- storage_GetVariant (primaryKey ctx) (variantKey ctx) ;;
                    ret (match res with Ok (Some (_, body)) => body | _ => [] end)
                end) ;;
  p <- (match joined with
        | Some res => ret (res, true)
        | None => res <- revalidate_flight staleBody ;; ret (res, waiters)
        end) ;;
  serve_flight (cx_r ctx) p.1 p.2.

Definition run_BypassOrigin : M S (option stateFn) :=
  r <- get (λ w, cx_r (wd_ctx w)) ;; origin_direct r ;;; ret None.

Definition run_state (s : stateFn) : M S (option stateFn) :=
  match s with
  | stateCheckBypass => run_CheckBypass
  | stateLookupMetadata => run_LookupMetadata
  | stateMatchVariant => run_MatchVariant
  | stateEvaluateFreshness => run_EvaluateFreshness
  | stateServe304 => run_Serve304
  | stateServe412 => run_Serve412
  | stateServeCachedHit => run_ServeCachedHit
  | stateServeSWR => run_ServeSWR
  | stateFetchOriginMiss => run_FetchOriginMiss
  | stateFetchOriginRevalidate => run_FetchOriginRevalidate
  | stateBypassOrigin => run_BypassOrigin
  end.

(** The loop of [ServeHTTP]: [Some false] is lack of fuel. *)
Fixpoint run_machine (fuel : nat) (s : stateFn) : M S bool :=
  match fuel with
  | O => ret false
  | Datatypes.S fuel =>
      s' <- run_state s ;;
      match s' with None => ret true | Some s' => run_machine fuel s' end
  end.

(** One request: the context is acquired, and the machine runs. *)
Definition ServeHTTP (r : Request) : M S bool :=
  ts <- time_Now ;;
  upd_ctx (λ _, acquireRequestContext r ts) ;;;
  run_machine 7 stateCheckBypass.

(** ** Background revalidation and shutdown *)
Definition revalidateOriginAsync (r : Request) (pk vk : str) : M S unit :=
  recovering
    (reqTime <- time_Now ;;
     p <- origin_record (with_capability (origin_method r)) ;;
     let '(rec, panicked) := p in
     if panicked : bool then panic else
     respTime <- time_Now ;;
     esi <- inspectAndPrepareESI (w_Header rec) (w_Body rec) ;;
     let '(headers, fragments) := esi in
     f <- freshness_of (rec_Code rec) (r_Header r) headers reqTime respTime ;;
     closed <- get wd_closed ;;
     if should_cache f closed (r_Method r)
     then saveVariantToStorage pk vk (rec_Code rec) r headers (w_Body rec) fragments f respTime
     else ret tt)
    (ret tt).

(** Run the oldest waiting job. *)
Definition run_job : M S unit := λ w,
  match wd_jobs w with
  | [] => (w, Some tt)
  | (r, pk, vk) :: jobs =>
      revalidateOriginAsync r pk vk
        (mkWorld (wd_store w) (wd_tick w) (wd_calls w) (wd_w w) (wd_ctx w) (wd_closed w) jobs (wd_trace w))
  end.

(** [Close] refuses new background work before it waits for the running jobs. *)
Definition titip_Close : M S unit := λ w,
  (mkWorld (wd_store w) (wd_tick w) (wd_calls w) (wd_w w) (wd_ctx w) true (wd_jobs w) (wd_trace w), Some tt).
End Handler.
