(* ===== verification/HandlerLogic.v ===== *)
(** * A program logic for the request pipeline

    [ok I P m Q] says that [m], started in a world that satisfies [I], extends the
    trace by events that satisfy [P], ends in a world that satisfies [I] even when it
    panics, and returns only values that satisfy [Q].  [machine_ok] proves one
    such judgement for the whole pipeline, over any invariant of the stored
    variants; the properties of the pipeline instantiate it. *)

From S2P Require Import Prelude GoStrings GoHttp Env Headers Freshness CacheKey Storage Purge Scanner Esi Compress Config Handler.
#[local] Open Scope handler_scope.
#[local] Unset Default Proof Using.

Section Logic.
Context {S : Type} (I : World S → Prop) (P : event → Prop).

Definition ok {A} (m : M S A) (Q : A → Prop) : Prop :=
  ∀ w, I w → ∃ evs, wd_trace (m w).1 = wd_trace w ++ evs ∧ Forall P evs ∧ I (m w).1 ∧
                    ∀ a, (m w).2 = Some a → Q a.

Lemma ok_ret {A} (a : A) (Q : A → Prop) : Q a → ok (ret a) Q.
Proof. intros Hq w Hw. exists []. simpl. rewrite app_nil_r. repeat split; [constructor|done|]. by intros ? [= <-]. Qed.

Lemma ok_panic {A} (Q : A → Prop) : ok panic Q.
Proof. intros w Hw. exists []. simpl. rewrite app_nil_r. repeat split; [constructor|done|done]. Qed.

Lemma ok_get {A} (f : World S → A) (Q : A → Prop) : (∀ w, I w → Q (f w)) → ok (get f) Q.
Proof.
  intros Hq w Hw. exists []. simpl. rewrite app_nil_r. repeat split; [constructor|done|].
  intros ? [= <-]. by apply Hq.
Qed.

Lemma ok_bind {A C} (m : M S A) (f : A → M S C) Q R :
  ok m Q → (∀ a, Q a → ok (f a) R) → ok (bind m f) R.
Proof.
  intros Hm Hf w Hw. destruct (Hm w Hw) as (e1 & Ht & He & Hi & Hq). unfold bind.
  destruct (m w) as [w' [a|]]; simpl in *; [|by exists e1].
  destruct (Hf a (Hq a eq_refl) w' Hi) as (e2 & Ht2 & He2 & Hi2 & Hr).
  exists (e1 ++ e2). rewrite Ht2, Ht, <- app_assoc. split; [done|].
  split; [by apply Forall_app|done].
Qed.

Lemma ok_seq {A C} (m : M S A) (f : A → M S C) R :
  ok m (λ _, True) → (∀ a, ok (f a) R) → ok (bind m f) R.
Proof. intros Hm Hf. eapply ok_bind; [exact Hm|]. intros a _. apply Hf. Qed.

Lemma ok_weaken {A} (m : M S A) (Q R : A → Prop) : (∀ a, Q a → R a) → ok m Q → ok m R.
Proof. intros Hqr Hm w Hw. destruct (Hm w Hw) as (e & ? & ? & ? & Hq).
  exists e. do 3 (split; [done|]). intros a Ha. by apply Hqr, Hq. Qed.

Lemma ok_recovering {A} (m h : M S A) Q : ok m Q → ok h Q → ok (recovering m h) Q.
Proof.
  intros Hm Hh w Hw. destruct (Hm w Hw) as (e1 & Ht & He & Hi & Hq). unfold recovering.
  destruct (m w) as [w' [a|]]; simpl in *; [by exists e1|].
  destruct (Hh w' Hi) as (e2 & Ht2 & He2 & Hi2 & Hr).
  exists (e1 ++ e2). rewrite Ht2, Ht, <- app_assoc. split; [done|]. split; [by apply Forall_app|done].
Qed.

(** A primitive that adds no event. *)
Lemma ok_silent {A} (m : M S A) (Q : A → Prop) :
  (∀ w, I w → wd_trace (m w).1 = wd_trace w ∧ I (m w).1 ∧ ∀ a, (m w).2 = Some a → Q a) → ok m Q.
Proof.
  intros H w Hw. destruct (H w Hw) as (Ht & Hi & Hq). exists []. rewrite app_nil_r. auto.
Qed.
End Logic.

(** ** Invariants of the stored variants *)

(** What the pipeline does to variants: it builds them from responses, and
    updates them by a 304. *)
Class VariantInv `{GoEnv} (Q : VariantInfo → Prop) := {
  vi_rename : ∀ v k, Q v → Q (with_variant_key v k);
  vi_new : ∀ k code h body frags comp, Q (new_variant k code h body frags comp);
  vi_merge : ∀ v h merged v', Q v → merge_304 v h = Some (merged, v') → Q v';
}.

Section Pipeline.
Context {E : GoEnv} {CO : CacheObject} {S : Type} {St : Storage S} {SI : StorageInv S}.
Context (t : Titip) (now : nat → Z) (next : nat → Request → Writer → Writer * bool).
Context (joined : option fetchResult) (waiters : bool).
Context (Q : VariantInfo → Prop) {VI : VariantInv Q}.
(** What is known of the closed flag. *)
Context (C : bool → Prop).

Definition ctx_inv (c : requestContext) : Prop :=
  (∀ v, varInfo c = Some v → Q v) ∧
  (∀ m vk v, cx_meta c = Some m → Variants m !! vk = Some v → Q v).

Definition inv (w : World S) : Prop :=
  C (wd_closed w) ∧ all_variants Q (wd_store w) ∧ ctx_inv (wd_ctx w).

(** Writes happen only before shutdown, and carry variants that satisfy [Q]. *)
Definition event_ok (e : event) : Prop :=
  match e with
  | EvSet _ _ v _ _ => C false ∧ Q v
  | EvSpawn _ _ _ => C false
  | _ => True
  end.

Abbreviation OK m R := (ok inv event_ok m R).
Abbreviation tt_post := (λ _, True).

(** ** Primitives *)
Lemma ok_upd_w f : OK (upd_w f) tt_post.
Proof. apply ok_silent. done. Qed.
Lemma ok_next_tick : OK next_tick tt_post.
Proof. apply ok_silent. done. Qed.
Lemma ok_count_call : OK count_call tt_post.
Proof. apply ok_silent. done. Qed.
Lemma ok_add_job j : OK (add_job j) tt_post.
Proof. apply ok_silent. done. Qed.
Lemma ok_upd_store s : all_variants Q s → OK (upd_store s) tt_post.
Proof. intros Hs. apply ok_silent. intros w (? & _ & ?). done. Qed.
Lemma ok_upd_ctx f : (∀ c, ctx_inv c → ctx_inv (f c)) → OK (upd_ctx f) tt_post.
Proof. intros Hf. apply ok_silent. intros w (? & ? & ?). repeat split; try done; by apply Hf. Qed.
Lemma ok_emit e : event_ok e → OK (emit e) tt_post.
Proof. intros He w Hw. exists [e]. simpl. repeat split; try done; [by apply Forall_singleton|apply Hw..]. Qed.
Lemma ok_get_any {A} (f : World S → A) : OK (get f) tt_post.
Proof. by apply ok_get. Qed.

Lemma ok_lift {A} (o : outcome A) : OK (lift o) (λ r, match r with Ok a => o = Ret a | Err _ => True end).
Proof. destruct o; simpl; [by apply ok_ret|by apply ok_ret|apply ok_panic]. Qed.

Lemma ok_lift_any {A} (o : outcome A) : OK (lift o) tt_post.
Proof. eapply ok_weaken; [|apply ok_lift]. done. Qed.

(** One step of the judgement: bind, branch, or a known primitive. *)
Ltac ok_prim := first
  [ apply ok_upd_w | apply ok_next_tick | apply ok_count_call | apply ok_add_job
  | apply ok_emit; done | apply ok_lift_any | apply ok_get_any | apply ok_panic
  | apply ok_ret; done ].

Ltac ok_step :=
  match goal with
  | |- ok _ _ (bind _ _) _ => apply ok_seq; [|intros ?]
  | |- ok _ _ (if ?b then _ else _) _ => destruct b eqn:?
  | |- ok _ _ (let '(_, _) := ?p in _) _ => destruct p eqn:?
  | |- ok _ _ (match ?x with _ => _ end) _ => destruct x eqn:?
  | _ => ok_prim
  end.

Lemma ok_time_Now : OK (time_Now now) tt_post.
Proof. unfold time_Now. repeat ok_step. Qed.

Lemma ok_GetMeta k :
  OK (storage_GetMeta now k) (λ r, match r with
    | Ok (Some (m, _)) => ∀ vk v, Variants m !! vk = Some v → Q v | _ => True end).
Proof.
  unfold storage_GetMeta. ok_step; [ok_prim|]. apply ok_seq; [apply ok_time_Now|intros ts].
  eapply (ok_bind _ _ _ _ (λ s, all_variants Q s)); [apply ok_get; by intros w (_ & ? & _)|].
  intros s Hs. eapply ok_weaken; [|apply ok_lift]. simpl. intros [[[m b]|]|] Hr; try done.
  intros vk v. by eapply inv_get.
Qed.

Lemma ok_GetVariant k vk : OK (storage_GetVariant now k vk) tt_post.
Proof.
  unfold storage_GetVariant. ok_step; [ok_prim|]. apply ok_seq; [apply ok_time_Now|intros ts].
  repeat ok_step.
Qed.

Lemma ok_storage_SetVariant k m v b ttl :
  C false → Q v → (∀ vk v, Variants m !! vk = Some v → Q v) → OK (storage_SetVariant now k m v b ttl) tt_post.
Proof.
  intros HC Hv Hm. unfold storage_SetVariant. ok_step; [by apply ok_emit|].
  apply ok_seq; [apply ok_time_Now|intros ts].
  eapply (ok_bind _ _ _ _ (λ s, all_variants Q s)); [apply ok_get; by intros w (_ & ? & _)|].
  intros s Hs. pose proof (inv_set Q s ts k m v b ttl vi_rename Hs Hv Hm) as Hset.
  destruct (SetVariant s ts k m v b ttl) as [s' o].
  apply ok_seq; [by apply ok_upd_store|intros _; apply ok_lift_any].
Qed.

Lemma ok_Purge k soft : OK (storage_Purge now k soft) tt_post.
Proof.
  unfold storage_Purge. ok_step; [ok_prim|]. apply ok_seq; [apply ok_time_Now|intros ts].
  eapply (ok_bind _ _ _ _ (λ s, all_variants Q s)); [apply ok_get; by intros w (_ & ? & _)|].
  intros s Hs. pose proof (inv_purge Q s ts k soft Hs) as Hp. destruct (Purge s ts k soft) as [s' o].
  apply ok_seq; [by apply ok_upd_store|intros _; apply ok_lift_any].
Qed.

Lemma ok_PurgeByPattern p soft : OK (storage_PurgeByPattern now p soft) tt_post.
Proof.
  unfold storage_PurgeByPattern. ok_step; [ok_prim|]. apply ok_seq; [apply ok_time_Now|intros ts].
  eapply (ok_bind _ _ _ _ (λ s, all_variants Q s)); [apply ok_get; by intros w (_ & ? & _)|].
  intros s Hs. pose proof (inv_pattern Q s ts p soft Hs) as Hp. destruct (PurgeByPattern s ts p soft) as [s' o].
  apply ok_seq; [by apply ok_upd_store|intros _; apply ok_lift_any].
Qed.

Lemma ok_origin_record r : OK (origin_record next r) tt_post.
Proof. unfold origin_record. repeat ok_step. Qed.

Lemma ok_origin_direct r : OK (origin_direct next r) tt_post.
Proof. unfold origin_direct. repeat ok_step. Qed.

(** ** Helpers *)
Ltac ok_known := first
  [ apply ok_time_Now | apply ok_GetVariant | apply ok_Purge | apply ok_PurgeByPattern
  | apply ok_origin_record | apply ok_origin_direct ].
Ltac ok_auto := repeat first [ok_step | ok_known].

Lemma ok_emitCacheStatus a b : OK (emitCacheStatus t a b) tt_post.
Proof. unfold emitCacheStatus, w_header. ok_auto. Qed.

Lemma ok_processESI body frags code a b : OK (processESI t body frags code a b) tt_post.
Proof.
  unfold processESI, w_header, w_write_header, w_write.
  apply ok_seq; [ok_prim|intros r]. apply ok_seq; [ok_auto|intros p].
  apply ok_seq; [apply ok_emitCacheStatus|intros _]. ok_auto.
Qed.

Lemma ok_adjustESIHeaders v : OK (adjustESIHeaders t v) tt_post.
Proof. unfold adjustESIHeaders, w_header. ok_auto. Qed.

Lemma ok_inspectESI h body : OK (inspectAndPrepareESI t h body) tt_post.
Proof. unfold inspectAndPrepareESI. ok_auto. Qed.

Lemma ok_loadDecompressed : OK (loadDecompressed t now) tt_post.
Proof. unfold loadDecompressed. ok_auto. Qed.

Lemma ok_freshness_of code h1 h2 t1 t2 : OK (freshness_of now code h1 h2 t1 t2) tt_post.
Proof. unfold freshness_of. ok_auto. Qed.

Lemma ok_save pk vk code r h body frags f rt :
  C false → OK (saveVariantToStorage t now pk vk code r h body frags f rt) tt_post.
Proof.
  intros HC. unfold saveVariantToStorage. destruct (compress_body t h body) as [c n].
  apply ok_seq; [|intros _; by apply ok_ret]. apply ok_storage_SetVariant; [done|apply vi_new|].
  intros vk' v. simpl. by rewrite lookup_empty.
Qed.

(** The guarded write: only before shutdown. *)
Lemma ok_guarded_save {A} f r (m : M S unit) (k : M S A) R :
  (C false → OK m tt_post) → OK k R →
  OK (closed <- get wd_closed ;;
      (if should_cache t f closed (r_Method r) then m else ret tt) ;;; k) R.
Proof.
  intros Hm Hk. eapply (ok_bind _ _ _ _ C); [apply ok_get; by intros w (? & _)|]. intros closed HC.
  apply ok_seq; [|done]. destruct (should_cache _ _ _ _) eqn:Es; [|by apply ok_ret].
  apply Hm. unfold should_cache in Es. destruct closed; [|done].
  destruct (_ && _) in Es; [done|]. by rewrite andb_false_r in Es.
Qed.

(** ** The states *)

(** Every transition goes to a state of lower rank. *)
Definition rank (s : stateFn) : nat :=
  match s with
  | stateCheckBypass => 6 | stateLookupMetadata => 5 | stateMatchVariant => 4
  | stateEvaluateFreshness => 3
  | stateServe304 | stateServe412 | stateServeCachedHit | stateServeSWR | stateFetchOriginRevalidate => 2
  | stateFetchOriginMiss => 1 | stateBypassOrigin => 0
  end.

Definition below (s : stateFn) (o : option stateFn) : Prop := ∀ s', o = Some s' → (rank s' < rank s)%nat.

Lemma below_None s : below s None.
Proof. by intros s'. Qed.
Lemma below_Some s s' : (rank s' < rank s)%nat → below s (Some s').
Proof. by intros H s2 [= <-]. Qed.

Ltac ok_done := apply ok_ret; first [apply below_None | apply below_Some; simpl; lia].
Ltac ok_ctx := apply ok_upd_ctx; let c := fresh in intros c; exact (λ H, H).
Ltac ok_helpers := first
  [ apply ok_emitCacheStatus | apply ok_processESI | apply ok_adjustESIHeaders | apply ok_inspectESI
  | apply ok_loadDecompressed | apply ok_freshness_of ].
Ltac ok_all := repeat first [ok_done | ok_ctx | ok_helpers | ok_known | ok_step].
Ltac unfold_writers := unfold recordRequest, copyProtoHeaders, set_age, w_header, w_write_header, w_write,
  w_error, write_response, gateway_timeout, bypass.

Lemma ok_recorded {A} ty mode st n (a : A) : OK (recordPurge ty mode st n ;;; ret a) tt_post.
Proof. apply ok_seq; [by apply ok_emit|intros _; by apply ok_ret]. Qed.

Lemma ok_purged_result ty mode label res : OK (purged_result ty mode label res) tt_post.
Proof. destruct res; apply ok_recorded. Qed.

Lemma ok_purge_patterns ty label soft ps n : OK (purge_patterns now ty label soft ps n) tt_post.
Proof.
  revert n. induction ps as [|p ps IH]; intros n; [apply ok_recorded|].
  apply ok_seq; [apply ok_PurgeByPattern|intros [m|e]]; [apply IH|apply ok_recorded].
Qed.

Lemma ok_titip_Purge target soft : OK (titip_Purge t now target soft) tt_post.
Proof.
  unfold titip_Purge. destruct (buildPurgeOperation _ _) as [[ex keys]| |]; [|apply ok_recorded|apply ok_panic].
  destruct keys as [|key keys]; [by apply ok_ret|]. destruct ex; [|apply ok_purge_patterns].
  apply ok_seq; [apply ok_Purge|intros; apply ok_purged_result].
Qed.

Lemma ok_purge_location loc r : OK (purge_location t now loc r) tt_post.
Proof.
  unfold purge_location. case_if; [by apply ok_ret|]. case_if; [by apply ok_ret|].
  apply ok_seq; [apply ok_titip_Purge|intros _; by apply ok_ret].
Qed.

Lemma ok_handleMutating r : OK (handleMutatingRequest t now next r) tt_post.
Proof.
  unfold handleMutatingRequest. unfold_writers.
  case_if; [apply ok_origin_direct|]. apply ok_seq; [apply ok_origin_record|intros [rec pn]].
  destruct pn; [apply ok_panic|]. apply ok_seq; [ok_all|intros _]. apply ok_seq; [ok_all|intros _].
  apply ok_seq; [ok_all|intros _]. case_if; [|by apply ok_ret]. destruct (r_URL r); [|apply ok_panic].
  apply ok_seq; [apply ok_titip_Purge|intros _].
  apply ok_seq; [apply ok_purge_location|intros _; apply ok_purge_location].
Qed.

Lemma ok_CheckBypass : OK (run_CheckBypass t now next) (below stateCheckBypass).
Proof.
  unfold run_CheckBypass, check_client_directives. unfold_writers.
  apply ok_recovering; [|ok_all]. apply ok_seq; [ok_prim|intros r].
  repeat first [ok_done | ok_ctx | ok_helpers | apply ok_handleMutating | ok_step].
Qed.

Lemma ok_LookupMetadata : OK (run_LookupMetadata t now) (below stateLookupMetadata).
Proof.
  unfold run_LookupMetadata. unfold_writers. apply ok_seq; [ok_prim|intros r].
  apply ok_seq; [ok_ctx|intros _]. eapply ok_bind; [apply ok_GetMeta|].
  intros [[[m soft]|]|e] Hm; [| |ok_all].
  - apply ok_seq; [|intros _; ok_done]. apply ok_upd_ctx. intros c [H1 _]. split; [done|].
    simpl. intros m' vk v [= <-]. apply Hm.
  - apply ok_seq; [|intros _; ok_all]. apply ok_upd_ctx. intros c [H1 _]. split; [done|]. done.
Qed.

Lemma ok_MatchVariant : OK (run_MatchVariant t) (below stateMatchVariant).
Proof.
  unfold run_MatchVariant. unfold_writers.
  eapply (ok_bind _ _ _ _ ctx_inv); [apply ok_get; by intros w (_ & _ & ?)|]. intros ctx [_ Hm].
  destruct (cx_meta ctx) as [m|] eqn:Em; [|apply ok_panic]. apply ok_seq; [ok_ctx|intros _].
  set (vk := if is_nil _ then _ else _).
  destruct (Variants m !! vk) as [v|] eqn:Ev; [|ok_all].
  apply ok_seq; [|intros _; ok_done]. apply ok_upd_ctx. intros c [_ Hc]. split; [|done].
  simpl. intros v' [= <-]. by eapply Hm.
Qed.

Lemma ok_EvaluateFreshness : OK (run_EvaluateFreshness t now) (below stateEvaluateFreshness).
Proof. unfold run_EvaluateFreshness. unfold_writers. ok_all. Qed.

Lemma ok_Serve304 : OK (run_Serve304 t) (below stateServe304).
Proof. unfold run_Serve304. unfold_writers. ok_all. Qed.

Lemma ok_Serve412 : OK (run_Serve412 t) (below stateServe412).
Proof. unfold run_Serve412. unfold_writers. ok_all. Qed.

Lemma ok_ServeCachedHit : OK (run_ServeCachedHit t now) (below stateServeCachedHit).
Proof. unfold run_ServeCachedHit. unfold_writers. ok_all. Qed.

Lemma ok_spawnSWR : OK spawnSWR tt_post.
Proof.
  unfold spawnSWR. eapply (ok_bind _ _ _ _ C); [apply ok_get; by intros w (? & _)|].
  intros [] HC; [by apply ok_ret|]. apply ok_seq; [ok_prim|intros ctx].
  apply ok_seq; [by apply ok_emit|intros _; ok_prim].
Qed.

Lemma ok_ServeSWR : OK (run_ServeSWR t now) (below stateServeSWR).
Proof.
  unfold run_ServeSWR. unfold_writers.
  repeat first [ok_done | apply ok_spawnSWR | ok_helpers | ok_step].
Qed.

Lemma ok_answer_miss ctx reqTime p : OK (answer_miss t now ctx reqTime p) (below stateFetchOriginMiss).
Proof.
  unfold answer_miss, serve_set_cookie, serve_event_stream. unfold_writers.
  apply ok_seq; [apply ok_time_Now|intros t1]. destruct p as [rec pn].
  destruct pn; [ok_all|]. case_if; [ok_all|]. case_if; [ok_all|].
  apply ok_seq; [apply ok_inspectESI|intros [h fr]]. apply ok_seq; [apply ok_freshness_of|intros f].
  eapply (ok_bind _ _ _ _ C); [apply ok_get; by intros w (? & _)|]. intros closed HC.
  apply ok_seq; [|intros _; ok_all].
  destruct (should_cache _ _ _ _) eqn:Es; [|by apply ok_ret]. apply ok_save.
  unfold should_cache in Es. destruct closed; [|done].
  destruct (_ && _) in Es; [done|]. by rewrite andb_false_r in Es.
Qed.

Lemma ok_FetchOriginMiss : OK (run_FetchOriginMiss t now next) (below stateFetchOriginMiss).
Proof.
  unfold run_FetchOriginMiss. apply ok_seq; [ok_prim|intros ctx]. apply ok_seq; [apply ok_time_Now|intros t0].
  apply ok_seq; [apply ok_origin_record|intros p]. apply ok_answer_miss.
Qed.

Lemma ok_handle_304 ctx v body h t0 t1 :
  ctx_inv ctx → Q v → OK (handle_304 now ctx v body h t0 t1) tt_post.
Proof.
  intros [_ Hm] Hv. unfold handle_304. pose proof (vi_merge v h) as Hv'.
  destruct (merge_304 v h) as [[merged v']|]; [|apply ok_panic]. specialize (Hv' merged v' Hv eq_refl). apply ok_seq; [apply ok_freshness_of|intros f].
  eapply (ok_bind _ _ _ _ C); [apply ok_get; by intros w (? & _)|]. intros closed HC.
  destruct (cx_meta ctx) as [m|] eqn:Em; [|apply ok_panic]. case_if; [|by apply ok_ret].
  destruct closed; [done|]. apply ok_seq.
  - apply ok_upd_ctx. intros c [H1 _]. split; [done|]. simpl. intros m' vk v2 [= <-]. simpl. by eapply Hm.
  - intros _. apply ok_seq; [|intros _; by apply ok_ret]. apply ok_storage_SetVariant; [done..|].
    simpl. intros vk v2. by eapply Hm.
Qed.

Lemma ok_recheck pk vk : OK (recheck_storage now pk vk) tt_post.
Proof.
  unfold recheck_storage. apply ok_seq; [|intros [[[m []]|]|e]; ok_all].
  eapply ok_weaken; [|apply ok_GetMeta]. done.
Qed.

Lemma ok_flight body : OK (revalidate_flight t now next body) tt_post.
Proof.
  unfold revalidate_flight.
  eapply (ok_bind _ _ _ _ ctx_inv); [apply ok_get; by intros w (_ & _ & ?)|]. intros ctx Hc.
  apply ok_seq; [apply ok_recheck|intros [res|]]; [by apply ok_ret|].
  apply ok_seq; [apply ok_time_Now|intros t0]. apply ok_seq; [apply ok_origin_record|intros [rec pn]].
  destruct pn; [by apply ok_ret|]. apply ok_seq; [apply ok_time_Now|intros t1].
  assert (OK (esi <- inspectAndPrepareESI t (w_Header rec) (w_Body rec) ;;
    let '(headers, fragments) := esi in
    f <- freshness_of now (rec_Code rec) (r_Header (cx_r ctx)) headers t0 t1 ;;
    closed <- get wd_closed ;;
    (if should_cache t f closed (r_Method (cx_r ctx))
     then saveVariantToStorage t now (primaryKey ctx) (variantKey ctx) (rec_Code rec) (cx_r ctx) headers
            (w_Body rec) fragments f t1 else ret tt) ;;;
    ret (mkFetch (rec_Code rec) false false None headers (w_Body rec) fragments)) tt_post) as Hfetch.
  { apply ok_seq; [apply ok_inspectESI|intros [h fr]]. apply ok_seq; [apply ok_freshness_of|intros f].
    apply ok_guarded_save; [apply ok_save|by apply ok_ret]. }
  destruct (is_nil body); [exact Hfetch|]. destruct (varInfo ctx) as [v|] eqn:Ev; [|exact Hfetch].
  destruct (rec_Code rec =? 304)%Z; [apply ok_handle_304; [done|by apply Hc]|].
  destruct (500 <=? rec_Code rec)%Z; [by apply ok_ret|exact Hfetch].
Qed.

Lemma ok_serve_fetched r res shared :
  OK (serve_fetched t r res shared) (below stateFetchOriginRevalidate).
Proof. unfold serve_fetched. unfold_writers. ok_all. Qed.

Lemma ok_serve_fallback r res fb shared : OK (serve_fallback t now r res fb shared) tt_post.
Proof.
  unfold serve_fallback. unfold_writers.
  repeat first [ok_helpers | ok_known | ok_step].
Qed.

Lemma ok_FetchOriginRevalidate :
  OK (run_FetchOriginRevalidate t now next joined waiters) (below stateFetchOriginRevalidate).
Proof.
  unfold run_FetchOriginRevalidate, serve_flight. apply ok_seq; [ok_prim|intros ctx].
  apply ok_seq; [ok_all|intros body].
  apply ok_seq; [destruct joined; [by apply ok_ret|]; apply ok_seq; [apply ok_flight|intros; by apply ok_ret]|].
  intros [res shared]. simpl. destruct (if _ || _ then _ else _) as [fb|]; [|apply ok_serve_fetched].
  apply ok_seq; [apply ok_serve_fallback|intros []]; [ok_done|apply ok_serve_fetched].
Qed.

Lemma ok_BypassOrigin : OK (run_BypassOrigin next) (below stateBypassOrigin).
Proof. unfold run_BypassOrigin. ok_all. Qed.

Lemma ok_run_state s : OK (run_state t now next joined waiters s) (below s).
Proof.
  destruct s; simpl;
    [apply ok_CheckBypass|apply ok_LookupMetadata|apply ok_MatchVariant|apply ok_EvaluateFreshness
    |apply ok_Serve304|apply ok_Serve412|apply ok_ServeCachedHit|apply ok_ServeSWR|apply ok_FetchOriginMiss
    |apply ok_FetchOriginRevalidate|apply ok_BypassOrigin].
Qed.

Lemma ok_run_machine fuel s :
  (rank s < fuel)%nat → OK (run_machine t now next joined waiters fuel s) (λ b, b = true).
Proof.
  revert s. induction fuel as [|fuel IH]; intros s Hr; [lia|]. simpl.
  eapply ok_bind; [apply ok_run_state|]. intros [s'|] Hs; [|by apply ok_ret].
  apply IH. specialize (Hs s' eq_refl). lia.
Qed.

(** The whole pipeline: it terminates, it keeps the invariant, and its events
    are as [event_ok] says. *)
Lemma machine_ok r : OK (ServeHTTP t now next joined waiters r) (λ b, b = true).
Proof.
  unfold ServeHTTP. apply ok_seq; [apply ok_time_Now|intros ts].
  apply ok_seq; [|intros _; apply ok_run_machine; simpl; lia].
  apply ok_upd_ctx. intros c _. split; [done|]. done.
Qed.

Lemma async_ok r pk vk : OK (revalidateOriginAsync t now next r pk vk) tt_post.
Proof.
  unfold revalidateOriginAsync. apply ok_recovering; [|by apply ok_ret].
  apply ok_seq; [apply ok_time_Now|intros t0]. apply ok_seq; [apply ok_origin_record|intros [rec pn]].
  destruct pn; [apply ok_panic|]. apply ok_seq; [apply ok_time_Now|intros t1].
  apply ok_seq; [apply ok_inspectESI|intros [h fr]]. apply ok_seq; [apply ok_freshness_of|intros f].
  eapply (ok_bind _ _ _ _ C); [apply ok_get; by intros w (? & _)|]. intros closed HC.
  destruct (should_cache _ _ _ _) eqn:Es; [|by apply ok_ret]. apply ok_save.
  unfold should_cache in Es. destruct closed; [|done].
  destruct (_ && _) in Es; [done|]. by rewrite andb_false_r in Es.
Qed.

(** ** The purge API *)
Lemma ok_PurgeByTag tag soft : OK (storage_PurgeByTag now tag soft) tt_post.
Proof.
  unfold storage_PurgeByTag. ok_step; [ok_prim|]. apply ok_seq; [apply ok_time_Now|intros ts].
  eapply (ok_bind _ _ _ _ (λ s, all_variants Q s)); [apply ok_get; by intros w (_ & ? & _)|].
  intros s Hs. pose proof (inv_tag Q s ts tag soft Hs) as Hp. destruct (PurgeByTag s ts tag soft) as [s' o].
  apply ok_seq; [by apply ok_upd_store|intros _; apply ok_lift_any].
Qed.

Lemma ok_PurgeAll : OK (storage_PurgeAll now) tt_post.
Proof.
  unfold storage_PurgeAll. ok_step; [ok_prim|]. apply ok_seq; [apply ok_time_Now|intros ts].
  eapply (ok_bind _ _ _ _ (λ s, all_variants Q s)); [apply ok_get; by intros w (_ & ? & _)|].
  intros s Hs. pose proof (inv_all Q s ts Hs) as Hp. destruct (PurgeAll s ts) as [s' o].
  apply ok_seq; [by apply ok_upd_store|intros _; apply ok_lift_any].
Qed.

Lemma ok_titip_PurgePrefix prefix soft : OK (titip_PurgePrefix t now prefix soft) tt_post.
Proof.
  unfold titip_PurgePrefix. destruct (buildPurgePrefixOperation _ _) as [[|key keys]|e];
    [by apply ok_ret|apply ok_purge_patterns|apply ok_recorded].
Qed.

Lemma ok_titip_PurgeTag tag soft : OK (titip_PurgeTag now tag soft) tt_post.
Proof. apply ok_seq; [apply ok_PurgeByTag|intros; apply ok_purged_result]. Qed.

Lemma ok_titip_PurgeAll : OK (titip_PurgeAll now) tt_post.
Proof. apply ok_seq; [apply ok_PurgeAll|intros; apply ok_purged_result]. Qed.

Lemma ok_run_job : OK (run_job t now next) tt_post.
Proof.
  intros w (Hc & Hs & Hx). unfold run_job. destruct (wd_jobs w) as [|[[r pk] vk] jobs].
  - by apply (ok_ret inv event_ok tt).
  - set (w2 := mkWorld _ _ _ _ _ _ _ _). exact (async_ok r pk vk w2 (conj Hc (conj Hs Hx))).
Qed.

Lemma ok_Close : C true → OK titip_Close tt_post.
Proof. intros HC. apply ok_silent. by intros w (_ & ? & ?). Qed.
End Pipeline.

(** ** The running system

    One step: a request with a new writer (leading a flight or joining one), a
    background job, a purge, or [Close]; each with its own clock, origin and ESI
    environment. *)
Section System.
Context {E : GoEnv} {CO : CacheObject} {S : Type} {St : Storage S}.

Definition with_writer (w : World S) (wr : Writer) : World S :=
  mkWorld (wd_store w) (wd_tick w) (wd_calls w) wr (wd_ctx w) (wd_closed w) (wd_jobs w) (wd_trace w).

Inductive system_step (w : World S) : World S → Prop :=
  | step_request t now next joined waiters r wr :
      system_step w (ServeHTTP t now next joined waiters r (with_writer w wr)).1
  | step_job t now next : system_step w (run_job t now next w).1
  | step_purge t now target soft : system_step w (titip_Purge t now target soft w).1
  | step_prefix t now pre soft : system_step w (titip_PurgePrefix t now pre soft w).1
  | step_tag now tag soft : system_step w (titip_PurgeTag now tag soft w).1
  | step_all now : system_step w (titip_PurgeAll now w).1
  | step_close : system_step w (titip_Close w).1.

Context {SI : StorageInv S} (Q : VariantInfo → Prop) {VI : VariantInv Q} (C : bool → Prop).

Lemma system_step_ok w w' :
  C true → inv Q C w → system_step w w' →
  ∃ evs, wd_trace w' = wd_trace w ++ evs ∧ Forall (event_ok Q C) evs ∧ inv Q C w'.
Proof.
  intros HC Hw Hstep. destruct Hstep.
  - destruct (machine_ok t now next joined waiters Q C r (with_writer w wr) Hw) as (e & ? & ? & ? & _). eauto.
  - destruct (ok_run_job t now next Q C w Hw) as (e & ? & ? & ? & _). eauto.
  - destruct (ok_titip_Purge t now Q C target soft w Hw) as (e & ? & ? & ? & _). eauto.
  - destruct (ok_titip_PurgePrefix t now Q C pre soft w Hw) as (e & ? & ? & ? & _). eauto.
  - destruct (ok_titip_PurgeTag now Q C tag soft w Hw) as (e & ? & ? & ? & _). eauto.
  - destruct (ok_titip_PurgeAll now Q C w Hw) as (e & ? & ? & ? & _). eauto.
  - destruct (ok_Close Q C HC w Hw) as (e & ? & ? & ? & _). eauto.
Qed.

Lemma system_ok w w' :
  C true → inv Q C w → rtc system_step w w' →
  ∃ evs, wd_trace w' = wd_trace w ++ evs ∧ Forall (event_ok Q C) evs ∧ inv Q C w'.
Proof.
  intros HC Hw Hs. induction Hs as [w|w w1 w2 H1 _ IH].
  - exists []. rewrite app_nil_r. repeat split; try apply Hw; constructor.
  - destruct (system_step_ok w w1 HC Hw H1) as (e1 & Ht1 & He1 & Hi1).
    destruct (IH Hi1) as (e2 & Ht2 & He2 & Hi2). exists (e1 ++ e2).
    rewrite Ht2, Ht1, app_assoc. split; [done|]. split; [by apply Forall_app|done].
Qed.
End System.
