(* ===== verification/HandlerQuiet.v ===== *)
(** * Quiet parts of the pipeline

    Most of the pipeline's helpers record no request, write nothing to the client, call no
    origin and keep the request.  [ok I P m _] (see [HandlerLogic]) is proved here once for every helper
    and every invariant [I] that only looks at the response, the number of origin calls and the
    request; helpers that write, record or call need [I] or [P] to allow it. *)

From S2P Require Import Prelude GoStrings GoHttp Env Headers Freshness CacheKey Storage Purge Scanner Esi Compress Config Handler HandlerLogic.
#[local] Open Scope handler_scope.
#[local] Unset Default Proof Using.

(** Not the record of a request. *)
Definition no_record (e : event) : Prop := ∀ s, e ≠ EvRecord s.

(** An invariant of the response, the origin calls and the request. *)
Definition outer {S} (I : World S → Prop) : Prop :=
  ∀ w w', wd_w w = wd_w w' → wd_calls w = wd_calls w' → cx_r (wd_ctx w) = cx_r (wd_ctx w') → I w → I w'.

(** It does not look at the response; nor at the number of calls. *)
Definition allows_writes {S} (I : World S → Prop) : Prop := ∀ f w, I w → I (upd_w f w).1.
Definition allows_calls {S} (I : World S → Prop) : Prop := ∀ w, I w → I (count_call w).1.

(** The response of the client satisfies [F]. *)
Definition keeps {S} (F : Writer → Prop) (w : World S) : Prop := F (wd_w w).

Lemma keeps_outer {S} F : outer (S := S) (keeps F).
Proof. intros w w' H _ _. unfold keeps. by rewrite H. Qed.
Lemma keeps_calls {S} F : allows_calls (S := S) (keeps F).
Proof. by intros w H. Qed.
Lemma keeps_writes {S} : allows_writes (S := S) (keeps (λ _, True)).
Proof. by intros f w H. Qed.

#[export] Hint Resolve keeps_outer keeps_calls keeps_writes : titip.

Section Quiet.
Context {E : GoEnv} {CO : CacheObject} {S : Type} {St : Storage S}.
Context (t : Titip) (now : nat → Z) (next : nat → Request → Writer → Writer * bool).
Context (I : World S → Prop) (P : event → Prop) (Io : outer I) (Pq : ∀ e, no_record e → P e).

Abbreviation Q m := (ok I P m (λ _, True)).

Lemma q_ret {A} (a : A) : Q (ret a).
Proof. by apply ok_ret. Qed.
Lemma q_panic {A} : Q (panic (A := A)).
Proof. apply ok_panic. Qed.
Lemma q_get {A} (f : World S → A) : Q (get f).
Proof. by apply ok_get. Qed.

(** Primitives that leave the outer parts alone. *)
Lemma q_inner {A} (m : M S A) :
  (∀ w, wd_trace (m w).1 = wd_trace w ∧ wd_w w = wd_w (m w).1 ∧ wd_calls w = wd_calls (m w).1 ∧
        cx_r (wd_ctx w) = cx_r (wd_ctx (m w).1)) → Q m.
Proof.
  intros H. apply ok_silent. intros w Hw. destruct (H w) as (Ht & H1 & H2 & H3).
  split; [done|]. split; [|done]. by apply (Io w).
Qed.

Lemma q_upd_ctx f : (∀ c, cx_r (f c) = cx_r c) → Q (upd_ctx f).
Proof. intros Hf. apply q_inner. intros w. simpl. by rewrite Hf. Qed.
Lemma q_upd_store s : Q (upd_store s).
Proof. by apply q_inner. Qed.
Lemma q_next_tick : Q next_tick.
Proof. by apply q_inner. Qed.
Lemma q_add_job j : Q (add_job j).
Proof. by apply q_inner. Qed.
Lemma q_emit e : P e → Q (emit e).
Proof.
  intros He w Hw. exists [e]. simpl. split; [done|]. split; [by apply Forall_singleton|].
  split; [by apply (Io w)|done].
Qed.
Lemma q_lift {A} (o : outcome A) : Q (lift o).
Proof. destruct o; [apply q_ret|apply q_ret|apply q_panic]. Qed.

Ltac q_prim := first
  [ apply q_ret | apply q_panic | apply q_get | apply q_upd_ctx; done | apply q_upd_store | apply q_next_tick
  | apply q_add_job | apply q_emit, Pq; intros ? ?; discriminate | apply q_lift ].
Ltac q_step :=
  match goal with
  | |- ok _ _ (bind _ _) _ => apply ok_seq; [|intros ?]
  | |- ok _ _ (if ?b then _ else _) _ => destruct b
  | |- ok _ _ (let '(_, _) := ?p in _) _ => destruct p
  | |- ok _ _ (match ?x with _ => _ end) _ => destruct x
  | _ => q_prim
  end.
Ltac q_all := repeat q_step.

Lemma q_now : Q (time_Now now).
Proof. unfold time_Now. q_all. Qed.
Lemma q_GetMeta k : Q (storage_GetMeta now k).
Proof. unfold storage_GetMeta, time_Now. q_all. Qed.
Lemma q_GetVariant k vk : Q (storage_GetVariant now k vk).
Proof. unfold storage_GetVariant, time_Now. q_all. Qed.
Lemma q_SetVariant k m v b ttl : Q (storage_SetVariant now k m v b ttl).
Proof. unfold storage_SetVariant, time_Now. q_all. Qed.
Lemma q_Purge k soft : Q (storage_Purge now k soft).
Proof. unfold storage_Purge, time_Now. q_all. Qed.
Lemma q_PurgeByPattern p soft : Q (storage_PurgeByPattern now p soft).
Proof. unfold storage_PurgeByPattern, time_Now. q_all. Qed.

Ltac q_known := first
  [ apply q_now | apply q_GetMeta | apply q_GetVariant | apply q_SetVariant | apply q_Purge
  | apply q_PurgeByPattern ].
Ltac q_auto := repeat first [q_known | q_step].

Lemma q_inspectESI h b : Q (inspectAndPrepareESI t h b).
Proof. unfold inspectAndPrepareESI. q_auto. Qed.
Lemma q_load : Q (loadDecompressed t now).
Proof. unfold loadDecompressed. q_auto. Qed.
Lemma q_freshness code h1 h2 t1 t2 : Q (freshness_of now code h1 h2 t1 t2).
Proof. unfold freshness_of. q_auto. Qed.
Lemma q_save pk vk code r h b fr f rt : Q (saveVariantToStorage t now pk vk code r h b fr f rt).
Proof. unfold saveVariantToStorage. q_auto. Qed.
Lemma q_spawn : Q spawnSWR.
Proof. unfold spawnSWR. q_auto. Qed.
Lemma q_recheck pk vk : Q (recheck_storage now pk vk).
Proof. unfold recheck_storage. q_auto. Qed.
Lemma q_handle_304 ctx v b h t0 t1 : Q (handle_304 now ctx v b h t0 t1).
Proof. unfold handle_304. repeat first [apply q_freshness | q_known | q_step]. Qed.

(** *** Purges *)
Lemma q_recordPurge {A} ty mode st n (a : A) : Q (recordPurge ty mode st n ;;; ret a).
Proof. unfold recordPurge. q_auto. Qed.
Lemma q_purged_result ty mode label res : Q (purged_result ty mode label res).
Proof. destruct res; apply q_recordPurge. Qed.
Lemma q_patterns ty label soft ps n : Q (purge_patterns now ty label soft ps n).
Proof.
  revert n. induction ps as [|p ps IH]; intros n; [apply q_recordPurge|]. simpl.
  repeat first [apply IH | apply q_recordPurge | q_known | q_step].
Qed.
Lemma q_titip_Purge target soft : Q (titip_Purge t now target soft).
Proof.
  unfold titip_Purge.
  repeat first [apply q_purged_result | apply q_patterns | apply q_recordPurge | q_known | q_step].
Qed.
Lemma q_location loc r : Q (purge_location t now loc r).
Proof. unfold purge_location. repeat first [apply q_titip_Purge | q_step]. Qed.

(** *** The origin *)
Section Calls.
Context (Ic : allows_calls I).

Lemma q_count_call : Q count_call.
Proof. apply ok_silent. intros w Hw. split; [done|]. split; [by apply Ic|done]. Qed.
Lemma q_origin r : Q (origin_record next r).
Proof. unfold origin_record. repeat first [apply q_count_call | q_step]. Qed.
Lemma q_flight b : Q (revalidate_flight t now next b).
Proof.
  unfold revalidate_flight.
  repeat first [apply q_recheck | apply q_handle_304 | apply q_inspectESI | apply q_freshness | apply q_save
    | apply q_origin | q_known | q_step].
Qed.
End Calls.

(** *** Writers *)
Section Writes.
Context (Iw : allows_writes I).

Lemma q_upd_w f : Q (upd_w f).
Proof. apply ok_silent. intros w Hw. split; [done|]. split; [by apply Iw|done]. Qed.

Ltac q_write := unfold processESI, adjustESIHeaders, emitCacheStatus, copyProtoHeaders, set_age, write_response,
  w_header, w_write_header, w_write, w_error; repeat first [apply q_upd_w | q_known | q_step].

Lemma q_status a b : Q (emitCacheStatus t a b).
Proof. q_write. Qed.
Lemma q_process body fr code a b : Q (processESI t body fr code a b).
Proof. q_write. Qed.

(** The end of a shared flight; it records. *)
Context (Pany : ∀ e, P e).

Lemma q_record status : Q (recordRequest status).
Proof. by apply q_emit. Qed.
Lemma q_serve_fetched r res shared : Q (serve_fetched t r res shared).
Proof. unfold serve_fetched. q_write; try apply q_record; try apply q_process; q_write. Qed.
Lemma q_serve_fallback r res fb shared : Q (serve_fallback t now r res fb shared).
Proof. unfold serve_fallback. q_write; try apply q_record; q_write. Qed.
Lemma q_serve_flight r res shared : Q (serve_flight t now r res shared).
Proof.
  unfold serve_flight. destruct (if _ || _ then _ else _); [|apply q_serve_fetched].
  apply ok_seq; [apply q_serve_fallback|intros []; [apply q_ret|apply q_serve_fetched]].
Qed.

Context (Ic : allows_calls I).
Lemma q_direct r : Q (origin_direct next r).
Proof. unfold origin_direct. repeat first [apply q_upd_w | apply (q_count_call Ic) | q_step]. Qed.
End Writes.
End Quiet.
