(* ===== verification/HandlerProps.v ===== *)
(** * Properties of the request pipeline: termination, shutdown, what is stored

    Instances of the judgement of [HandlerLogic], the bypass and fail-open paths, and
    the conditional requests of RFC 9110.  [Demo] below is a small installation of the
    middleware on the in-memory store, on which the theorems are run. *)

From S2P Require Import Prelude GoStrings GoHttp Env Headers Freshness CacheKey Storage TestStore Purge Scanner Esi Compress Config Handler HandlerLogic.
#[local] Open Scope handler_scope.
#[local] Unset Default Proof Using.

(** ** A concrete installation *)
Module Demo.
Definition rev_codec : Compressor := mkCompressor StorageCompressionLZ4 (λ s, Some (rev s)) (λ s, Some (rev s)).

Definition config_with (convert : bool) : config :=
  mkConfig (5 * Second) StorageCompressionLZ4
    (<[StorageCompressionNone := noneCompressor]> {[StorageCompressionLZ4 := rev_codec]})
    zeroCacheKey (B "Surrogate-Key") CacheStatusSimple true convert true (125 * Second) None
    (mkTiming false [] []).
Definition demo_config : config := config_with true.

Definition plain_titip : Titip :=
  mkTitip demo_config None None (λ _ _, Err []) (λ _, true) None [].

(** The clock: one millisecond per reading, from 2001-09-09. *)
Definition clock_from (start : Z) (n : nat) : Z := (start + Z.of_nat n * Millisecond)%Z.
Definition epoch : Z := (1000000000 * Second)%Z.

Definition hdr (l : list (string * string)) : Header :=
  foldl (λ h kv, h_Add h (B kv.1) (B kv.2)) ∅ l.

(** A GET of [/page] with some headers. *)
Definition request (method : string) (path : string) (l : list (string * string)) : Request :=
  mkRequest (B method) (Some (mkURL [] [] (B path) [])) (B "example.com") (hdr l) false.

(** An origin response. *)
Definition respond (code : Z) (l : list (string * string)) (body : string) (w : Writer) : Writer * bool :=
  let h := foldl (λ h kv, h_Add h (B kv.1) (B kv.2)) (w_Header w) l in
  (Write (WriteHeader (w_with_header w h) code) (B body), false).

Definition world (s : Store) (closed : bool) : World Store :=
  mkWorld s 0 0 new_writer (acquireRequestContext (request "GET" "/" []) 0) closed [] [].

(** One request at time [at_], with a fresh writer, on the store left by [w]. *)
Definition serve_at (t : Titip) (start : Z) (next : Request → Writer → Writer * bool) (r : Request)
    (w : World Store) : World Store :=
  let w' := mkWorld (wd_store w) 0 0 new_writer (wd_ctx w) (wd_closed w) (wd_jobs w) [] in
  (ServeHTTP t (clock_from start) (λ _, next) None false r w').1.

(** What the client sees: status, some header, body. *)
Definition seen (k : string) (w : World Store) : option Z * str * str :=
  (w_Code (wd_w w), match w_sent (wd_w w) with Some (_, h) => h_Get h (B k) | None => [] end, w_Body (wd_w w)).

Definition cacheable_page : Request → Writer → Writer * bool :=
  λ _, respond 200 [("Cache-Control", "max-age=60")] "hello".
End Demo.
Import Demo.

(** A first request is a miss, the next one within the lifetime a hit. *)
Example miss_then_hit_run :
  let w1 := serve_at plain_titip epoch cacheable_page (request "GET" "/page" []) (world New false) in
  let w2 := serve_at plain_titip (epoch + 30 * Second) (λ _, respond 500 [] "down")
              (request "GET" "/page" []) w1 in
  seen "Cache-Status" w1 = (Some 200%Z, B "MISS", B "hello") ∧
  seen "Cache-Status" w2 = (Some 200%Z, B "HIT", B "hello") ∧
  seen "Age" w2 = (Some 200%Z, B "29", B "hello").
Proof. vm_compute. repeat split. Qed.

(** ** Instances of the pipeline judgement *)
#[export] Instance any_variant `{GoEnv} : VariantInv (λ _, True).
Proof. by split. Qed.

(** The header names that no stored response may have, of the cookies and of the fixed
    hop-by-hop list; the headers that a Connection field nominates are [nominated]. *)
Definition never_stored : list str :=
  [B "Set-Cookie"; B "Connection"; B "Keep-Alive"; B "Proxy-Authenticate"; B "Proxy-Authorization";
   B "Proxy-Connection"; B "Te"; B "Trailers"; B "Transfer-Encoding"; B "Upgrade"].
Definition storable_key (k : str) : Prop := CanonicalHeaderKey k ∉ never_stored.
(** A name listed in the (first) Connection field of [h]. *)
Definition nominated (h : Header) (k : str) : Prop :=
  ∃ tok, tok ∈ SplitSeq (h_Get h (B "Connection")) "," ∧ TrimSpace tok ≠ [] ∧
         CanonicalHeaderKey (TrimSpace tok) = CanonicalHeaderKey k.
Definition storable_only (v : VariantInfo) : Prop :=
  ∀ k vv, ResponseHeaders v !! k = Some vv → storable_key k.

Lemma str_mem_false l x : slices_contains l x = false → x ∉ l.
Proof. apply bool_decide_eq_false_1. Qed.

(** The two tests of the code, in either order. *)
Lemma tests_storable k :
  isHopByHopHeader (CanonicalHeaderKey k) = false → (CanonicalHeaderKey k =s B "Set-Cookie") = false → storable_key k.
Proof.
  unfold storable_key, isHopByHopHeader. rewrite CanonicalHeaderKey_idem. intros H1 H2.
  apply not_elem_of_cons. split; [intros Hk; by rewrite Hk, str_eqb_refl in H2|by apply str_mem_false].
Qed.

Lemma mergeable_storable k : mergeable k = true → storable_key k.
Proof.
  unfold mergeable. rewrite andb_true_iff, !negb_true_iff. intros [H1 H2]. by apply tests_storable.
Qed.

Lemma proto_storable `{GoEnv} h k vv : protoHeadersFromHTTP h !! k = Some vv → storable_key k.
Proof.
  unfold protoHeadersFromHTTP. rewrite map_lookup_filter_Some. simpl. unfold storable_header.
  intros [_ [Hk _]%andb_true_iff]. apply negb_true_iff, orb_false_iff in Hk as [? ?]. by apply tests_storable.
Qed.

Lemma CanonicalHeaderKey_nonnil k : CanonicalHeaderKey k = [] → k = [].
Proof. destruct k; [done|]. unfold CanonicalHeaderKey. by destruct (forallb _ _). Qed.

Lemma proto_not_nominated `{GoEnv} h k vv : protoHeadersFromHTTP h !! k = Some vv → ¬ nominated h k.
Proof.
  unfold protoHeadersFromHTTP. rewrite map_lookup_filter_Some. simpl. unfold storable_header.
  intros [_ [_ Hk%negb_true_iff%str_mem_false]%andb_true_iff] (tok & Hin & Hne & Heq). apply Hk. clear Hk.
  unfold connTokens. destruct (is_nil (h_Get h (B "Connection"))) eqn:En.
  - assert (h_Get h (B "Connection") = []) as Hz by (by destruct (h_Get h (B "Connection"))).
    rewrite Hz in Hin. change (SplitSeq [] ",") with [[] : str] in Hin. by apply list_elem_of_singleton in Hin as ->.
  - rewrite <- Heq. apply list_elem_of_In, filter_In. split.
    + apply list_elem_of_In. by apply (list_elem_of_fmap_2 (λ t, CanonicalHeaderKey (TrimSpace t))).
    + destruct (CanonicalHeaderKey (TrimSpace tok)) eqn:Ec; [|done]. by apply CanonicalHeaderKey_nonnil in Ec.
Qed.

Lemma merge_fold_storable (l : list (str * list str)) (h : Header) :
  (∀ k vv, h !! k = Some vv → storable_key k) →
  ∀ k vv, foldl (λ h kv, if mergeable kv.1 then <[kv.1 := kv.2]> h else h) h l !! k = Some vv →
          storable_key k.
Proof.
  revert h. induction l as [|[k0 v0] l IH]; intros h Hh; simpl; [done|]. apply IH.
  destruct (mergeable k0) eqn:Em; simpl; [|done].
  intros k vv. rewrite lookup_insert_Some. intros [[<- _]|[_ ?]]; [by apply mergeable_storable|eauto].
Qed.

#[export] Instance storable_variants `{GoEnv} : VariantInv storable_only.
Proof.
  split; [done| |].
  - intros k code h body frags comp k' vv. apply proto_storable.
  - intros v h merged v' Hv. unfold merge_304. case_match; [done|]. intros [= _ <-]. simpl.
    intros k vv. by apply merge_fold_storable.
Qed.

Section Props.
Context {E : GoEnv} {CO : CacheObject} {S : Type} {St : Storage S}.
Context (t : Titip) (now : nat → Z) (next : nat → Request → Writer → Writer * bool).
Context (joined : option fetchResult) (waiters : bool).

Lemma trivial_world (C : bool → Prop) (w : World S) : C (wd_closed w) → inv (λ _, True) C w.
Proof. intros HC. split; [done|]. split; [|split]; done. Qed.

(** C35: [ServeHTTP] terminates: from any storage state, with any
    request, clock, storage and origin, the state machine stops within seven steps (or a
    panic ends it). *)
Theorem serve_terminates r w :
  (ServeHTTP t now next joined waiters r w).2 = Some true ∨
  (ServeHTTP t now next joined waiters r w).2 = None.
Proof.
  pose proof (machine_ok t now next joined waiters (λ _, True) (λ _, True) r w) as H.
  destruct H as (_ & _ & _ & _ & Hb); [by apply trivial_world|].
  destruct ((ServeHTTP t now next joined waiters r w).2) as [[]|]; [by left|by specialize (Hb false eq_refl)|by right].
Qed.

(** The storing of a response, or the start of a background job: all that adds to the storage.
    Soft-purge marks and deletions are not counted. *)
Definition stores_or_spawns (e : event) : bool :=
  match e with EvSet _ _ _ _ _ | EvSpawn _ _ _ => true | _ => false end.

Lemma no_stores_filter evs :
  Forall (event_ok (λ _, True) (λ b, b = true)) evs → List.filter stores_or_spawns evs = [].
Proof. induction 1 as [|e evs He _ IH]; simpl; [done|]. by destruct e; simpl in *; try naive_solver. Qed.

(** C34: after [Close], whatever happens next (requests, joined flights, jobs that are still queued,
    purges), no response and no refreshed expiry is stored ([SetVariant] is not called), and no
    new background work is started.  (Purges, the invalidation by mutating requests and the
    soft-purge mark of a corrupt entry still reach the storage.) *)
Theorem closed_stores_nothing (w w' : World S) :
  wd_closed w = true → rtc system_step w w' →
  ∃ evs, wd_trace w' = wd_trace w ++ evs ∧ List.filter stores_or_spawns evs = [] ∧ wd_closed w' = true.
Proof.
  intros Hc Hs.
  destruct (system_ok (λ _, True) (λ b, b = true) w w' eq_refl) as (evs & Ht & Hev & (Hc' & _));
    [by apply trivial_world|done|].
  exists evs. split; [done|]. split; [by apply no_stores_filter|done].
Qed.

(** Saving a response stores at most one variant, whose headers are those of [protoHeadersFromHTTP]. *)
Lemma save_events pk vk code r h body frags f rt (w : World S) :
  ∃ evs, wd_trace (saveVariantToStorage t now pk vk code r h body frags f rt w).1 = wd_trace w ++ evs ∧
    ∀ k md v b ttl, EvSet k md v b ttl ∈ evs → ResponseHeaders v = protoHeadersFromHTTP h.
Proof.
  unfold saveVariantToStorage. destruct (compress_body t h body) as [c n]. set (v := new_variant _ _ _ _ _ _).
  unfold storage_SetVariant, time_Now, next_tick, bind, emit, get, upd_store, ret, lift. simpl.
  destruct (SetVariant _ _ _ _ _ _ _) as [s o]. exists [EvSet pk (new_meta t pk h f rt) v c (storage_ttl f)].
  split; [by destruct o|]. intros k md v' b ttl [= -> -> -> -> ->]%list_elem_of_singleton. done.
Qed.

(** C4: the cache never stores or keeps a cookie, or a header of the hop-by-hop list: if no stored
    variant has one, none has one after any sequence of requests, background refreshes and
    purges, whatever the origins send, 304 responses included.  And when a
    response is saved, no header that its Connection field nominates is saved with it (a 304 that
    refreshes a stored variant may still add such a header: [merge_304_keeps_nominated]). *)
Theorem no_cookies_stored {SI : StorageInv S} (w w' : World S) :
  inv storable_only (λ _, True) w → rtc system_step w w' →
  all_variants storable_only (wd_store w') ∧
  (∃ evs, wd_trace w' = wd_trace w ++ evs ∧
    ∀ k md v b ttl, EvSet k md v b ttl ∈ evs → storable_only v) ∧
  (∀ pk vk code r h body frags f rt (w0 : World S), ∃ evs,
    wd_trace (saveVariantToStorage t now pk vk code r h body frags f rt w0).1 = wd_trace w0 ++ evs ∧
    ∀ k md v b ttl name vv, EvSet k md v b ttl ∈ evs → ResponseHeaders v !! name = Some vv →
      ¬ nominated h name ∧ h !! name = Some vv).
Proof.
  intros Hw Hs. destruct (system_ok storable_only (λ _, True) w w' I Hw Hs) as (evs & Ht & Hev & (_ & ? & _)).
  split; [done|]. split.
  - exists evs. split; [done|]. intros k md v b ttl Hin. rewrite Forall_forall in Hev. by apply (Hev _ Hin).
  - intros pk vk code r h body frags f rt w0. destruct (save_events pk vk code r h body frags f rt w0) as (e & He & Hv).
    exists e. split; [done|]. intros k md v b ttl name vv Hin Hl. rewrite (Hv _ _ _ _ _ Hin) in Hl.
    split; [by eapply proto_not_nominated|]. by apply map_lookup_filter_Some in Hl as [? _].
Qed.
End Props.

(** ** Conditional requests (RFC 9110, section 13.2.2) *)
Section Preconditions.
Context {E : GoEnv}.
Context (r : Request) (etag : str) (lm : Z).
Abbreviation field k := (h_Get (r_Header r) k).

(** Entity tags: strong comparison wants the same tag, not weak; weak
    comparison ignores the weakness of both. *)
Definition strong_match (a b : str) : Prop := a = b ∧ a ≠ [] ∧ has_weak_prefix a = false.
Definition weak_match (a b : str) : Prop := a ≠ [] ∧ b ≠ [] ∧ strip_weak a = strip_weak b.
(** A field that lists [etag], up to [m], or is "*". *)
Definition lists (m : str → str → Prop) (value : str) : Prop :=
  ∃ tag, tag ∈ SplitSeq value "," ∧ m (TrimSpace tag) (TrimSpace etag).
Definition is_star (value : str) : Prop := TrimSpace value = B "*".

(** The date of a field, when it is present and well formed. *)
Definition field_date (k : str) (d : Z) : Prop :=
  field k ≠ [] ∧ parseDate (field k) = Some d ∧ d ≠ zero_time.

Definition if_match_fails : Prop :=
  field headerIfMatch ≠ [] ∧ ¬ is_star (field headerIfMatch) ∧ ¬ lists strong_match (field headerIfMatch).
Definition if_unmodified_since_fails : Prop :=
  field headerIfMatch = [] ∧ (0 < lm)%Z ∧
  ∃ d, field_date headerIfUnmodifiedSince d ∧ (truncate_second d < truncate_second lm)%Z.
Definition if_none_match_fails : Prop :=
  field headerIfNoneMatch ≠ [] ∧
  (is_star (field headerIfNoneMatch) ∨ etag ≠ [] ∧ lists weak_match (field headerIfNoneMatch)).
Definition if_modified_since_fails : Prop :=
  field headerIfNoneMatch = [] ∧ (0 < lm)%Z ∧
  ∃ d, field_date headerIfModifiedSince d ∧ (truncate_second lm ≤ truncate_second d)%Z.

Lemma weakETagMatches_true c s :
  weakETagMatches c s = true ↔ weak_match (TrimSpace c) (TrimSpace s).
Proof.
  unfold weakETagMatches, weak_match. destruct (TrimSpace c) as [|a x]; simpl; [naive_solver|].
  destruct (TrimSpace s) as [|b y]; simpl; [naive_solver|]. rewrite str_eqb_eq. naive_solver.
Qed.

Lemma lists_true (f : str → str → bool) (m : str → str → Prop) value :
  (∀ c, f c etag = true ↔ m (TrimSpace c) (TrimSpace etag)) →
  existsb (λ tag, f tag etag) (SplitSeq value ",") = true ↔ lists m value.
Proof.
  intros Hf. unfold lists. rewrite existsb_exists. split; intros (x & Hx & H); exists x.
  - apply list_elem_of_In in Hx. by rewrite <- Hf.
  - apply list_elem_of_In in Hx. by rewrite Hf.
Qed.

Lemma lists_strong value :
  existsb (λ tag, strongETagMatches tag etag) (SplitSeq value ",") = true ↔ lists strong_match value.
Proof. apply lists_true. intros c. apply strongETagMatches_true. Qed.

Lemma lists_weak value :
  existsb (λ tag, weakETagMatches tag etag) (SplitSeq value ",") = true ↔ lists weak_match value.
Proof. apply lists_true. intros c. apply weakETagMatches_true. Qed.

(** The date comparisons of the code, as relations. *)
Lemma date_test k (f : Z → bool) :
  field k ≠ [] →
  match parseDate (field k) with Some d => negb (IsZero d) && f d | None => false end = true ↔
  ∃ d, field_date k d ∧ f d = true.
Proof.
  intros Hk. unfold field_date, IsZero. destruct (parseDate (field k)) as [d|]; [|naive_solver].
  rewrite andb_true_iff, negb_true_iff, Z.eqb_neq. naive_solver.
Qed.

(** The two tests of the code. *)
Definition test_412 : bool :=
  if negb (is_nil (field headerIfMatch)) then
    negb (TrimSpace (field headerIfMatch) =s B "*")
    && negb (existsb (λ tag, strongETagMatches tag etag) (SplitSeq (field headerIfMatch) ","))
  else negb (is_nil (field headerIfUnmodifiedSince)) && (0 <? lm)%Z
    && match parseDate (field headerIfUnmodifiedSince) with
       | Some d => negb (IsZero d) && After (truncate_second lm) (truncate_second d) | None => false end.
Definition test_304 : bool :=
  if negb (is_nil (field headerIfNoneMatch)) then
    (TrimSpace (field headerIfNoneMatch) =s B "*")
    || negb (is_nil etag) && existsb (λ tag, weakETagMatches tag etag) (SplitSeq (field headerIfNoneMatch) ",")
  else negb (is_nil (field headerIfModifiedSince)) && (0 <? lm)%Z
    && match parseDate (field headerIfModifiedSince) with
       | Some d => negb (IsZero d) && negb (After (truncate_second lm) (truncate_second d)) | None => false end.

Lemma evaluate_tests :
  evaluatePreconditionsHeaders r etag lm
  = if test_412 then Some 412%Z else if test_304 then Some 304%Z else None.
Proof.
  unfold evaluatePreconditionsHeaders, test_412, test_304.
  destruct (negb (is_nil (field headerIfMatch)));
    [destruct (negb (_ =s _) && _); [done|]
    |destruct (negb (is_nil (field headerIfUnmodifiedSince)) && _); simpl;
     [destruct (match parseDate _ with Some _ => _ | None => _ end); [done|]|]].
  all: destruct (negb (is_nil (field headerIfNoneMatch)));
    [by destruct (_ =s _)
    |destruct (negb (is_nil (field headerIfModifiedSince)) && _); simpl; [by destruct (parseDate _)|done]].
Qed.

Lemma test_412_spec : test_412 = true ↔ if_match_fails ∨ if_unmodified_since_fails.
Proof.
  unfold test_412, if_match_fails, if_unmodified_since_fails, is_star.
  destruct (is_nil (field headerIfMatch)) eqn:Ei; simpl.
  - apply is_nil_true in Ei. rewrite andb_true_iff, andb_true_iff, negb_is_nil, Z.ltb_lt. split.
    + intros [[Hn Hl] Hd]. apply date_test in Hd as (d & Hd & Ha); [|done]. right.
      split; [done|]. split; [done|]. exists d. split; [done|]. by apply Z.ltb_lt.
    + intros [[? _]|(_ & Hl & d & Hd & Ha)]; [done|]. pose proof Hd as (Hn & _). split; [done|].
      apply date_test; [done|]. exists d. split; [done|]. by apply Z.ltb_lt.
  - apply is_nil_false in Ei. rewrite andb_true_iff, !negb_true_iff, str_eqb_neq, <- not_true_iff_false, lists_strong.
    naive_solver.
Qed.

Lemma test_304_spec : test_304 = true ↔ if_none_match_fails ∨ if_modified_since_fails.
Proof.
  unfold test_304, if_none_match_fails, if_modified_since_fails, is_star.
  destruct (is_nil (field headerIfNoneMatch)) eqn:Ei; simpl.
  - apply is_nil_true in Ei. rewrite andb_true_iff, andb_true_iff, negb_is_nil, Z.ltb_lt. unfold After.
    split.
    + intros [[Hn Hl] Hd]. apply (date_test _ (λ d, negb (_ <? _)%Z)) in Hd as (d & Hd & Ha); [|done]. right.
      split; [done|]. split; [done|]. exists d. split; [done|]. by apply negb_true_iff, Z.ltb_ge in Ha.
    + intros [[? _]|(_ & Hl & d & Hd & Ha)]; [done|]. pose proof Hd as (Hn & _). split; [done|].
      apply (date_test _ (λ d, negb (_ <? _)%Z)); [done|]. exists d. split; [done|].
      by apply negb_true_iff, Z.ltb_ge.
  - apply is_nil_false in Ei. rewrite orb_true_iff, andb_true_iff, negb_is_nil, str_eqb_eq, lists_weak.
    naive_solver.
Qed.

(** C6: conditional requests follow the order of RFC 9110, section 13.2.2:
    412 exactly when If-Match fails, or, without If-Match, If-Unmodified-Since
    does; otherwise 304 exactly when If-None-Match fails, or, without If-None-Match,
    If-Modified-Since does; otherwise the request proceeds. *)
Theorem preconditions_rfc9110 :
  let failed := if_match_fails ∨ if_unmodified_since_fails in
  let unmodified := if_none_match_fails ∨ if_modified_since_fails in
  let o := evaluatePreconditionsHeaders r etag lm in
  (o = Some 412%Z ↔ failed) ∧ (o = Some 304%Z ↔ ¬ failed ∧ unmodified) ∧ (o = None ↔ ¬ failed ∧ ¬ unmodified).
Proof.
  intros failed unmodified o. unfold o. rewrite evaluate_tests.
  pose proof test_412_spec as H1. pose proof test_304_spec as H2. fold failed in H1. fold unmodified in H2.
  destruct test_412, test_304; naive_solver.
Qed.
End Preconditions.

(** A defect: lists of entity tags are split at every comma, also at one
    inside a quoted tag, which RFC 9110 allows: a client that sends the
    entity's own tag in If-Match is refused with 412. *)
Theorem etag_comma_refused :
  let tag := [dquote] ++ B "v1,gz" ++ [dquote] in
  let r := mkRequest (B "GET") (Some (mkURL [] [] (B "/page") [])) (B "example.com")
             (h_Set ∅ headerIfMatch tag) false in
  strong_match tag tag ∧ evaluatePreconditionsHeaders r tag 0 = Some 412%Z.
Proof. split; [|vm_compute; reflexivity]. repeat split; vm_compute; congruence. Qed.
