(* ===== verification/HandlerRun.v ===== *)
(** * Runs of the pipeline

    Equations for the paths of [ServeHTTP]: what each path does to the world, on every
    request that takes it.  They give the bypass and fail-open paths in full, and the
    round trip of the cache: what a miss stores, a hit serves. *)

From S2P Require Import Prelude GoStrings GoHttp Env Headers Freshness CacheKey Storage TestStore Purge Scanner Esi Compress Config Handler HandlerLogic HandlerProps.
#[local] Open Scope handler_scope.
#[local] Unset Default Proof Using.
Import Demo.

(** ** Specification of the first state *)

(** What becomes of a request before the cache is looked up. *)
Inductive verdict := VBypass | VMutating | VLookup.

Section Classify.
Context {E : GoEnv} {CO : CacheObject}.

Definition streaming (r : Request) : bool :=
  containsToken (h_Get (r_Header r) headerUpgrade) upgradeWebSocket
  || Contains (ToLower (h_Get (r_Header r) headerAccept)) contentTypeEventStream
  || negb (is_nil (h_Get (r_Header r) headerRange)).

(** The client's Cache-Control, when it is respected, present and well formed. *)
Definition client_directives (cfg : config) (r : Request) : option RequestCacheDirectives :=
  let cc := join (B ", ") (h_Values (r_Header r) headerCacheControl) in
  if respectClientCacheControl cfg && negb (is_nil cc) then
    match ParseRequestCacheControl cc with Ok d => Some d | Err _ => None end
  else None.

Definition client_refuses (cfg : config) (r : Request) : bool :=
  match client_directives cfg r with
  | Some d => req_NoStore d || req_NoCache d || (req_MaxAge d =? 0)%Z
  | None =>
      respectClientCacheControl cfg
      && is_nil (join (B ", ") (h_Values (r_Header r) headerCacheControl))
      && EqualFold (TrimSpace (h_Get (r_Header r) headerPragma)) (B "no-cache")
  end.

Definition classify (cfg : config) (r : Request) : verdict :=
  if streaming r then VBypass
  else if isMutatingMethod (r_Method r) then VMutating
  else if negb (r_Method r =s MethodGet) && negb (r_Method r =s MethodHead) then VBypass
  else if client_refuses cfg r then VBypass
  else VLookup.
End Classify.

Section Run.
Context {E : GoEnv} {CO : CacheObject} {S : Type} {St : Storage S}.
Context (t : Titip) (now : nat → Z) (next : nat → Request → Writer → Writer * bool).
Context (joined : option fetchResult) (waiters : bool).
Abbreviation cfg := (t_config t).
Abbreviation serve := (ServeHTTP t now next joined waiters).
Abbreviation machine := (run_machine t now next joined waiters).

(** [emitCacheStatus] on a header map. *)
Definition stamp (simpleStatus rfc9211Value : str) (h : Header) : Header :=
  match cacheStatusMode cfg with
  | CacheStatusRFC9211 => if is_nil rfc9211Value then h else h_Add h headerCacheStatus rfc9211Value
  | CacheStatusSimple => h_Set h headerCacheStatus simpleStatus
  | CacheStatusNone => h
  end.

(** A world from its parts that change. *)
Definition at_ (w : World S) (s : S) (tick calls : nat) (wr : Writer) (c : requestContext) (evs : list event)
    : World S :=
  mkWorld s tick calls wr c (wd_closed w) (wd_jobs w) (wd_trace w ++ evs).

Lemma emitCacheStatus_run a b (w : World S) :
  emitCacheStatus t a b w
  = (at_ w (wd_store w) (wd_tick w) (wd_calls w) (w_with_header (wd_w w) (stamp a b (w_Header (wd_w w))))
       (wd_ctx w) [], Some tt).
Proof.
  unfold emitCacheStatus, stamp, at_. rewrite app_nil_r.
  destruct w as [s n c [h o b0] x cl j tr]. destruct (cacheStatusMode cfg); simpl; try done.
  by destruct (is_nil b).
Qed.

Lemma bypass_run detail (w : World S) :
  bypass t detail w
  = (at_ w (wd_store w) (wd_tick w) (wd_calls w)
       (w_with_header (wd_w w) (stamp statusBypass detail (w_Header (wd_w w))))
       (wd_ctx w) [EvRecord labelStatusBypass], Some (Some stateBypassOrigin)).
Proof.
  unfold bypass, bind, recordRequest, emit, ret. rewrite emitCacheStatus_run. unfold at_. simpl.
  by rewrite app_nil_r.
Qed.

(** The first state, by verdict. *)
Lemma CheckBypass_bypass r (w : World S) :
  cx_r (wd_ctx w) = r → classify cfg r = VBypass →
  ∃ detail c, cx_r c = r ∧
    run_CheckBypass t now next w
    = (at_ w (wd_store w) (wd_tick w) (wd_calls w)
         (w_with_header (wd_w w) (stamp statusBypass detail (w_Header (wd_w w)))) c
         [EvRecord labelStatusBypass], Some (Some stateBypassOrigin)).
Proof.
  intros Hr. unfold run_CheckBypass, recovering, bind at 1, get at 1. rewrite Hr.
  assert (∀ detail, ∃ d c, cx_r c = r ∧ bypass t detail w = (at_ w (wd_store w) (wd_tick w) (wd_calls w)
         (w_with_header (wd_w w) (stamp statusBypass d (w_Header (wd_w w)))) c
         [EvRecord labelStatusBypass], Some (Some stateBypassOrigin))) as Hb.
  { intros d. exists d, (wd_ctx w). by rewrite bypass_run. }
  unfold classify, streaming.
  destruct (containsToken _ _); [intros _; destruct (Hb rfc9211FwdWebsocket) as (d & c & ? & ->); eauto|].
  destruct (Contains _ _); [intros _; destruct (Hb rfc9211FwdSSE) as (d & c & ? & ->); eauto|].
  destruct (is_nil (h_Get _ headerRange)); simpl;
    [|intros _; destruct (Hb rfc9211FwdRange) as (d & c & ? & ->); eauto].
  destruct (isMutatingMethod _); [done|].
  destruct (negb _ && negb _); [intros _; destruct (Hb rfc9211FwdMethod) as (d & c & ? & ->); eauto|].
  unfold client_refuses, client_directives, check_client_directives.
  destruct (respectClientCacheControl cfg); simpl; [|done].
  destruct (is_nil (join _ _)); simpl.
  { destruct (EqualFold _ _); [|done]. intros _. destruct (Hb rfc9211FwdPragmaNoCache) as (d & c & ? & ->); eauto. }
  destruct (ParseRequestCacheControl _) as [d|]; [|done]. unfold bind, upd_ctx. simpl.
  set (w' := mkWorld _ _ _ _ _ _ _ _). destruct (req_NoStore d || req_NoCache d); simpl.
  { intros _. rewrite bypass_run. exists rfc9211FwdNoStore, (set_reqCC (Some d) (wd_ctx w)). by split. }
  destruct (req_MaxAge d =? 0)%Z; [|done]. intros _. rewrite bypass_run.
  exists rfc9211FwdMaxAgeZero, (set_reqCC (Some d) (wd_ctx w)). by split.
Qed.

Lemma CheckBypass_lookup r (w : World S) :
  cx_r (wd_ctx w) = r → reqCC (wd_ctx w) = None → classify cfg r = VLookup →
  run_CheckBypass t now next w
  = (at_ w (wd_store w) (wd_tick w) (wd_calls w) (wd_w w) (set_reqCC (client_directives cfg r) (wd_ctx w)) [],
     Some (Some stateLookupMetadata)).
Proof.
  intros Hr Hcc. unfold run_CheckBypass, recovering, bind at 1, get at 1. rewrite Hr.
  assert (w = at_ w (wd_store w) (wd_tick w) (wd_calls w) (wd_w w) (set_reqCC None (wd_ctx w)) []) as Hw.
  { unfold at_, set_reqCC. rewrite app_nil_r, <- Hcc. by destruct w as [? ? ? ? []]. }
  unfold classify, streaming.
  destruct (containsToken _ _); [done|]. destruct (Contains _ _); [done|].
  destruct (is_nil (h_Get _ headerRange)); simpl; [|done].
  destruct (isMutatingMethod _); [done|]. destruct (negb _ && negb _); [done|].
  unfold client_refuses, client_directives, check_client_directives.
  destruct (respectClientCacheControl cfg); simpl; [|intros _; by rewrite <- Hw].
  destruct (is_nil (join _ _)); simpl; [destruct (EqualFold _ _); [done|intros _; by rewrite <- Hw]|].
  destruct (ParseRequestCacheControl _) as [d|]; [|intros _; by rewrite <- Hw]. unfold bind, upd_ctx. simpl.
  destruct (req_NoStore d || req_NoCache d); simpl; [done|].
  destruct (req_MaxAge d =? 0)%Z; [done|]. intros _. unfold at_. by rewrite app_nil_r.
Qed.

Lemma machine_step fuel s (w w' : World S) o :
  run_state t now next joined waiters s w = (w', Some o) →
  machine (Datatypes.S fuel) s w = match o with None => (w', Some true) | Some s' => machine fuel s' w' end.
Proof. intros H. simpl. unfold bind. rewrite H. by destruct o. Qed.

(** The last state of a bypass: the origin writes to the client. *)
Lemma machine_bypass fuel r (w : World S) :
  cx_r (wd_ctx w) = r →
  let '(wr, panicked) := next (wd_calls w) r (wd_w w) in
  machine (Datatypes.S fuel) stateBypassOrigin w
  = (at_ w (wd_store w) (wd_tick w) (1 + wd_calls w) wr (wd_ctx w) [EvOrigin r],
     if panicked then None else Some true).
Proof.
  intros Hr. simpl. unfold bind, run_BypassOrigin, origin_direct, bind, get, emit, count_call. simpl.
  rewrite Hr. destruct (next (wd_calls w) r (wd_w w)) as [wr pn]. simpl. by destruct pn.
Qed.

Lemma at_at (w : World S) s1 n1 c1 wr1 x1 e1 s2 n2 c2 wr2 x2 e2 :
  at_ (at_ w s1 n1 c1 wr1 x1 e1) s2 n2 c2 wr2 x2 e2 = at_ w s2 n2 c2 wr2 x2 (e1 ++ e2).
Proof. unfold at_. simpl. by rewrite app_assoc. Qed.

(** The world in which the machine starts. *)
Lemma serve_start r (w : World S) :
  serve r w
  = machine 7 stateCheckBypass
      (at_ w (wd_store w) (1 + wd_tick w) (wd_calls w) (wd_w w)
         (acquireRequestContext r (now (wd_tick w))) []).
Proof. unfold at_. rewrite app_nil_r. by destruct w. Qed.

(** The lookup of the metadata. *)
Definition lookup_key (r : Request) : str := generatePrimaryKey r (Some (cacheKey cfg)).

Lemma serve_lookup r (w : World S) :
  classify cfg r = VLookup →
  serve r w
  = machine 6 stateLookupMetadata
      (at_ w (wd_store w) (1 + wd_tick w) (wd_calls w) (wd_w w)
         (set_reqCC (client_directives cfg r) (acquireRequestContext r (now (wd_tick w)))) []).
Proof.
  intros Hc. rewrite serve_start. erewrite machine_step; [|by apply CheckBypass_lookup].
  by rewrite at_at.
Qed.

(** A request that must not be cached (a WebSocket upgrade, an event
    stream, a byte range, a method other than GET, HEAD and the mutating
    ones, or a client that asks for no cache) goes to the origin unchanged and once, with the
    client's own writer, marked as a bypass; the storage is neither read
    nor written, and a panic of the origin is the server's. *)
Theorem bypass_forwards r (w : World S) :
  classify cfg r = VBypass →
  ∃ detail c,
    let wr := w_with_header (wd_w w) (stamp statusBypass detail (w_Header (wd_w w))) in
    let '(wr', panicked) := next (wd_calls w) r wr in
    ServeHTTP t now next joined waiters r w = (at_ w (wd_store w) (1 + wd_tick w) (1 + wd_calls w) wr' c
                   [EvRecord labelStatusBypass; EvOrigin r], if panicked then None else Some true).
Proof.
  intros Hc. rewrite serve_start. set (w0 := at_ _ _ _ _ _ _ _).
  destruct (CheckBypass_bypass r w0 eq_refl Hc) as (detail & c & Hr & Hrun).
  exists detail, c. erewrite machine_step; [|exact Hrun].
  set (w1 := at_ w0 _ _ _ _ _ _). pose proof (machine_bypass 5 r w1 Hr) as Hm.
  unfold w1, w0 in *. rewrite !at_at in *. simpl in *. destruct (next _ _ _) as [wr' pn].
  rewrite Hm. by rewrite !at_at.
Qed.

(** C33: the cache fails open: when the storage cannot be read, the request
    goes to the origin unchanged and once, with the client's own writer, and nothing is written
    to the storage. *)
Theorem storage_failure_fails_open r (w : World S) err :
  classify cfg r = VLookup →
  GetMeta (wd_store w) (now (1 + wd_tick w)%nat) (lookup_key r) = Fail err →
  ∃ c, let wr := w_with_header (wd_w w) (stamp statusBypass rfc9211FwdStorageFallback (w_Header (wd_w w))) in
    let '(wr', panicked) := next (wd_calls w) r wr in
    ServeHTTP t now next joined waiters r w = (at_ w (wd_store w) (2 + wd_tick w) (1 + wd_calls w) wr' c
                   [EvGetMeta (lookup_key r); EvRecord labelStatusError; EvOrigin r],
                 if panicked then None else Some true).
Proof.
  intros Hc Hf. rewrite serve_lookup by done. set (w0 := at_ _ _ _ _ _ _ _).
  set (c := set_primaryKey (lookup_key r) (wd_ctx w0)). exists c.
  set (wr := w_with_header _ _).
  assert (run_LookupMetadata t now w0
    = (at_ w0 (wd_store w) (2 + wd_tick w) (wd_calls w) wr c
         [EvGetMeta (lookup_key r); EvRecord labelStatusError], Some (Some stateBypassOrigin))) as Hrun.
  { unfold run_LookupMetadata, bind at 1 2 3, get, upd_ctx, storage_GetMeta, bind at 1 2 3, emit, time_Now,
      bind at 1, next_tick, get. simpl. simpl in Hf. unfold lookup_key in Hf. rewrite Hf. simpl.
    unfold bind, recordRequest, emit. simpl. rewrite emitCacheStatus_run. simpl. unfold at_. simpl.
    by rewrite <- !app_assoc. }
  erewrite machine_step; [|exact Hrun].
  set (w1 := at_ w0 _ _ _ _ _ _). pose proof (machine_bypass 4 r w1 eq_refl) as Hm.
  unfold w1, w0 in *. rewrite !at_at in *. simpl in *. destruct (next _ _ _) as [wr' pn].
  rewrite Hm. by rewrite !at_at.
Qed.

(** ** A miss *)
Definition miss_freshness (r : Request) (n : nat) (rec : Writer) : freshnessInfo :=
  calculateFreshness (rec_Code rec) (r_Header r) (w_Header rec) (now n) (now (1 + n)%nat) (now (1 + n)%nat)
    (now (2 + n)%nat).

Definition stored_variant (r : Request) (rec : Writer) : VariantInfo :=
  new_variant (new_variant_key r [] (extractVaryHeaderNames (w_Header rec))) (rec_Code rec) (w_Header rec)
    (w_Body rec) [] (compress_body t (w_Header rec) (w_Body rec)).2.

(** The miss path of a GET whose response may be stored. *)
Record stores (r : Request) (w : World S) (rec : Writer) : Prop := {
  st_verdict : classify cfg r = VLookup;
  st_get : r_Method r = MethodGet;
  st_online : ∀ d, client_directives cfg r = Some d → req_OnlyIfCached d = false;
  st_miss : GetMeta (wd_store w) (now (1 + wd_tick w)%nat) (lookup_key r) = Ret None;
  st_origin : next (wd_calls w) (miss_request t r) new_writer = (rec, false);
  st_no_cookie : h_Values (w_Header rec) headerSetCookie = [];
  st_cacheable : IsCacheable (miss_freshness r (2 + wd_tick w) rec) = true;
  st_open : wd_closed w = false;
}.

Lemma lookup_miss_run r (w0 : World S) tick :
  cx_r (wd_ctx w0) = r → wd_tick w0 = tick →
  GetMeta (wd_store w0) (now tick) (lookup_key r) = Ret None →
  only_if_cached (wd_ctx w0) = false →
  run_LookupMetadata t now w0
  = (at_ w0 (wd_store w0) (1 + tick) (wd_calls w0) (wd_w w0)
       (set_isVaryMiss false (set_meta None false (set_primaryKey (lookup_key r) (wd_ctx w0))))
       [EvGetMeta (lookup_key r)], Some (Some stateFetchOriginMiss)).
Proof.
  intros <- <- Hg Ho. unfold run_LookupMetadata, bind at 1 2 3, get, upd_ctx, storage_GetMeta, bind at 1 2 3,
    emit, time_Now, bind at 1, next_tick, get. simpl. unfold lookup_key in Hg. rewrite Hg. simpl.
  unfold bind, upd_ctx. simpl. unfold only_if_cached in *. simpl in *. by rewrite Ho.
Qed.

Lemma cacheable_not_stream code rq rs t0 t1 n clk :
  IsCacheable (calculateFreshness code rq rs t0 t1 n clk) = true →
  Contains (ToLower (h_Get rs headerContentType)) contentTypeEventStream = false.
Proof.
  unfold calculateFreshness. destruct (freshnessLifetime _ _ _ _) as [[fl swr] sie]. simpl.
  unfold isResponseCacheable. do 3 (case_if; [done|]). by destruct (Contains _ _).
Qed.

Lemma bind_run {A C} (m : M S A) (f : A → M S C) (w w' : World S) a :
  m w = (w', Some a) → bind m f w = f a w'.
Proof. intros H. unfold bind. by rewrite H. Qed.

(** The response to the client at the end of a miss. *)
Lemma miss_tail_run r code body (b : bool) d1 d2 lbl h0 (w : World S) :
  ∃ wr, (w_header (λ h, copyNonHopHeaders h h0) ;;; recordRequest lbl ;;; emitCacheStatus t d1 d2 ;;;
         if b then w_write_header 304 ;;; ret None else write_response r code body) w
        = (at_ w (wd_store w) (wd_tick w) (wd_calls w) wr (wd_ctx w) [EvRecord lbl], Some None).
Proof.
  erewrite bind_run; [|reflexivity]. erewrite bind_run; [|reflexivity].
  erewrite bind_run; [|apply emitCacheStatus_run]. unfold at_. simpl. rewrite app_nil_r.
  destruct b; [eexists; reflexivity|]. unfold write_response.
  destruct (r_Method r <>s MethodHead); eexists; reflexivity.
Qed.

Lemma save_run pk vk code r h body f rt (w : World S) s' o :
  let c := compress_body t h body in
  let m := new_meta t pk h f rt in
  let v := new_variant (new_variant_key r vk (extractVaryHeaderNames h)) code h body [] c.2 in
  SetVariant (wd_store w) (now (wd_tick w)) pk m v c.1 (storage_ttl f) = (s', o) → o ≠ Panicked →
  saveVariantToStorage t now pk vk code r h body [] f rt w
  = (at_ w s' (1 + wd_tick w) (wd_calls w) (wd_w w) (wd_ctx w) [EvSet pk m v c.1 (storage_ttl f)], Some tt).
Proof.
  intros c m v Hset Hnp. unfold saveVariantToStorage. fold c. destruct c as [cb cn] eqn:Ec.
  assert (∃ res, storage_SetVariant now pk m v cb (storage_ttl f) w
    = (at_ w s' (1 + wd_tick w) (wd_calls w) (wd_w w) (wd_ctx w) [EvSet pk m v cb (storage_ttl f)], Some res))
    as [res Hs].
  { unfold storage_SetVariant. do 3 (erewrite bind_run; [|reflexivity]). simpl. simpl in Hset. rewrite Hset.
    erewrite bind_run; [|reflexivity]. destruct o; [by eexists..|done]. }
  by erewrite bind_run; [|exact Hs].
Qed.

Lemma fetch_miss_run r (w : World S) n rec s' o :
  esiProcessor t = None → cx_r (wd_ctx w) = r → r_Method r = MethodGet → wd_tick w = n →
  next (wd_calls w) (miss_request t r) new_writer = (rec, false) →
  h_Values (w_Header rec) headerSetCookie = [] → wd_closed w = false → variantKey (wd_ctx w) = [] →
  let f := miss_freshness r n rec in
  let pk := primaryKey (wd_ctx w) in
  let m := new_meta t pk (w_Header rec) f (now (1 + n)%nat) in
  let body := (compress_body t (w_Header rec) (w_Body rec)).1 in
  IsCacheable f = true →
  SetVariant (wd_store w) (now (3 + n)%nat) pk m (stored_variant r rec) body (storage_ttl f) = (s', o) →
  o ≠ Panicked →
  ∃ wr, run_FetchOriginMiss t now next w
  = (at_ w s' (4 + n) (1 + wd_calls w) wr (wd_ctx w)
       [EvOrigin (miss_request t r); EvSet pk m (stored_variant r rec) body (storage_ttl f);
        EvRecord (if (0 <? EffectiveTTL f)%Z then labelStatusMiss else labelStatusBypass)], Some None).
Proof.
  intros He Hr Hget Hn Hor Hck Hop Hvk f pk m body Hca Hset Hnp. subst n.
  pose proof (cacheable_not_stream _ _ _ _ _ _ _ Hca) as Hns.
  unfold run_FetchOriginMiss, answer_miss. erewrite bind_run; [|reflexivity]. rewrite Hr.
  erewrite bind_run; [|reflexivity]. erewrite bind_run; [|reflexivity]. simpl. rewrite Hor.
  erewrite bind_run; [|reflexivity]. simpl. rewrite Hck. simpl. rewrite Hns.
  unfold inspectAndPrepareESI. rewrite He. erewrite bind_run; [|reflexivity].
  unfold freshness_of. erewrite bind_run; [|reflexivity]. erewrite bind_run; [|reflexivity].
  cbn [wd_closed]. rewrite Hop. change (calculateFreshness _ _ _ _ _ _ _) with f.
  unfold should_cache. rewrite Hget. simpl. rewrite Hca. simpl.
  erewrite bind_run.
  2: { eapply (save_run (primaryKey (wd_ctx w)) (variantKey (wd_ctx w))); [|exact Hnp]. simpl. rewrite Hvk.
       exact Hset. }
  rewrite Hvk. change (negb (is_nil [])) with false. cbv iota.
  edestruct miss_tail_run as [wr Hw]. exists wr. etransitivity; [exact Hw|].
  unfold at_. simpl. rewrite Hop, <- !app_assoc. reflexivity.
Qed.

(** What a miss leaves in the store. *)
Lemma miss_run r (w : World S) rec s' o :
  esiProcessor t = None → stores r w rec →
  let f := miss_freshness r (2 + wd_tick w) rec in
  let m := new_meta t (lookup_key r) (w_Header rec) f (now (3 + wd_tick w)%nat) in
  let body := (compress_body t (w_Header rec) (w_Body rec)).1 in
  SetVariant (wd_store w) (now (5 + wd_tick w)%nat) (lookup_key r) m (stored_variant r rec) body (storage_ttl f)
  = (s', o) → o ≠ Panicked →
  ∃ wr c, serve r w = (at_ w s' (6 + wd_tick w) (1 + wd_calls w) wr c
    [EvGetMeta (lookup_key r); EvOrigin (miss_request t r);
     EvSet (lookup_key r) m (stored_variant r rec) body (storage_ttl f);
     EvRecord (if (0 <? EffectiveTTL f)%Z then labelStatusMiss else labelStatusBypass)], Some true).
Proof.
  intros He [Hv Hget Hon Hm Hor Hck Hca Hop] f m body Hset Hnp.
  rewrite serve_lookup by done. set (w0 := at_ _ _ _ _ _ _ _).
  assert (only_if_cached (wd_ctx w0) = false) as Hoic.
  { unfold only_if_cached. simpl. destruct (client_directives cfg r) eqn:Ed; [by apply Hon|done]. }
  erewrite machine_step; [|by apply (lookup_miss_run r w0 (1 + wd_tick w))].
  set (w1 := at_ w0 _ _ _ _ _ _).
  destruct (fetch_miss_run r w1 (2 + wd_tick w) rec s' o) as [wr Hrun]; try done.
  erewrite machine_step; [|exact Hrun]. exists wr, (wd_ctx w1). unfold w1, w0. by rewrite !at_at.
Qed.

(** When the store has no entry, the origin is asked first of all. *)
Lemma miss_asks_origin r (w : World S) :
  classify cfg r = VLookup → (∀ d, client_directives cfg r = Some d → req_OnlyIfCached d = false) →
  GetMeta (wd_store w) (now (1 + wd_tick w)%nat) (lookup_key r) = Ret None →
  ∃ evs, wd_trace (serve r w).1 = wd_trace w ++ [EvGetMeta (lookup_key r); EvOrigin (miss_request t r)] ++ evs.
Proof.
  intros Hv Hon Hg. rewrite serve_lookup by done. set (w0 := at_ _ _ _ _ _ _ _).
  assert (only_if_cached (wd_ctx w0) = false) as Hoic.
  { unfold only_if_cached. simpl. destruct (client_directives cfg r) eqn:Ed; [by apply Hon|done]. }
  erewrite machine_step; [|by apply (lookup_miss_run r w0 (1 + wd_tick w))]. set (w1 := at_ w0 _ _ _ _ _ _).
  eassert (run_FetchOriginMiss t now next w1 = answer_miss t now _ _ _ _) as Hrun.
  { unfold run_FetchOriginMiss. do 3 (erewrite bind_run; [|reflexivity]). reflexivity. }
  match type of Hrun with _ = answer_miss _ _ ?c ?n ?p ?w2 =>
    assert (ok (inv (λ _, True) (λ _, True)) (event_ok (λ _, True) (λ _, True))
      (bind (answer_miss t now c n p) (λ o, match o with None => ret true | Some s => machine 4 s end)) (λ _, True)) as Hok;
    [|destruct (Hok w2) as (evs & Ht & _); [by apply trivial_world|]] end.
  - eapply ok_bind; [apply ok_answer_miss, any_variant|]. intros [s|] Hs; [|by apply ok_ret].
    eapply ok_weaken; [|apply ok_run_machine; [apply any_variant|]]; [done|]. specialize (Hs s eq_refl). simpl in Hs. lia.
  - exists evs. change (machine 5 stateFetchOriginMiss w1) with
      (bind (run_FetchOriginMiss t now next) (λ o, match o with None => ret true | Some s => machine 4 s end) w1).
    unfold bind in Ht |- * at 1. rewrite Hrun. etransitivity; [exact Ht|]. simpl. by rewrite app_nil_r, <- !app_assoc.
Qed.

(** ** A hit *)

(** A fresh entry with the variant the request selects. *)
Record fresh_entry (r : Request) (w : World S) (m : CacheMetadata) (v : VariantInfo) : Prop := {
  fe_verdict : classify cfg r = VLookup;
  fe_get : r_Method r = MethodGet;
  fe_meta : GetMeta (wd_store w) (now (1 + wd_tick w)%nat) (lookup_key r) = Ret (Some (m, false));
  fe_variant : Variants m !! variant_name (generateVariantKey r (VaryHeaderNames m)) = Some v;
  fe_fresh : (UnixNano (now (2 + wd_tick w)%nat) ≤ ExpiresAtUnixNano m)%Z;
  fe_proceed : evaluatePreconditions r v = None;
}.

Definition hit_context (r : Request) (w : World S) (m : CacheMetadata) (v : VariantInfo) : requestContext :=
  mkCtx r (client_directives cfg r) (lookup_key r) (variant_name (generateVariantKey r (VaryHeaderNames m)))
    (Some m) false (Some v) (UnixNano (now (2 + wd_tick w)%nat)) false.

Lemma fresh_run r (w : World S) m v :
  esiProcessor t = None → fresh_entry r w m v →
  serve r w = machine 3 stateServeCachedHit
    (at_ w (wd_store w) (3 + wd_tick w) (wd_calls w) (wd_w w) (hit_context r w m v) [EvGetMeta (lookup_key r)]).
Proof.
  intros He [Hv Hget Hm Hvar Hfr Hpre]. rewrite serve_lookup by done. set (w0 := at_ _ _ _ _ _ _ _).
  set (c1 := set_meta (Some m) false (set_primaryKey (lookup_key r) (wd_ctx w0))).
  set (vk := variant_name (generateVariantKey r (VaryHeaderNames m))) in *.
  set (w1 := at_ w0 (wd_store w) (2 + wd_tick w) (wd_calls w) (wd_w w) c1 [EvGetMeta (lookup_key r)]).
  assert (run_LookupMetadata t now w0 = (w1, Some (Some stateMatchVariant))) as H1.
  { unfold run_LookupMetadata. do 2 (erewrite bind_run; [|reflexivity]).
    erewrite bind_run; [|unfold storage_GetMeta; do 3 (erewrite bind_run; [|reflexivity]); simpl;
      simpl in Hm; unfold lookup_key in Hm; rewrite Hm; reflexivity]. reflexivity. }
  rewrite (machine_step _ stateLookupMetadata _ _ _ H1). clear H1.
  set (c2 := set_varInfo (Some v) (set_variantKey vk c1)).
  assert (run_MatchVariant t w1 = (at_ w1 (wd_store w) (2 + wd_tick w) (wd_calls w) (wd_w w) c2 [],
            Some (Some stateEvaluateFreshness))) as H2.
  { unfold run_MatchVariant. erewrite bind_run; [|reflexivity]. simpl.
    erewrite bind_run; [|reflexivity]. fold (variant_name (generateVariantKey r (VaryHeaderNames m))).
    change (if is_nil _ then defaultVariantKey else _) with vk. rewrite Hvar. unfold at_. by rewrite app_nil_r. }
  rewrite (machine_step _ stateMatchVariant _ _ _ H2). clear H2. unfold w1, w0. rewrite !at_at.
  set (w2 := at_ _ _ _ _ _ _ _).
  assert (run_EvaluateFreshness t now w2
    = (at_ w2 (wd_store w) (3 + wd_tick w) (wd_calls w) (wd_w w) (hit_context r w m v) [],
       Some (Some stateServeCachedHit))) as H3.
  { unfold run_EvaluateFreshness. do 3 (erewrite bind_run; [|reflexivity]). simpl.
    apply Z.leb_le in Hfr. simpl in Hfr. rewrite Hfr. unfold may_check_preconditions, has_esi_fragments.
    rewrite He. simpl. rewrite Hpre. unfold at_. by rewrite app_nil_r. }
  rewrite (machine_step _ stateEvaluateFreshness _ _ _ H3). unfold w2. by rewrite !at_at.
Qed.

(** The response of a hit: the stored headers, Age and Cache-Status. *)
Definition hit_header (h : Header) (m : CacheMetadata) (v : VariantInfo) (ts : Z) : Header :=
  stamp statusHit (ttl_text m ts) (h_Set (copyAllHeaders h (ResponseHeaders v)) headerAge (calcAgeString (Some m) ts)).

Lemma hit_run r (w : World S) m v0 v cb body :
  esiProcessor t = None → fresh_entry r w m v0 → RawBodySize v0 ≠ 0%Z →
  GetVariant (wd_store w) (now (3 + wd_tick w)%nat) (lookup_key r)
    (variant_name (generateVariantKey r (VaryHeaderNames m))) = Ret (Some (v, cb)) →
  cb ≠ [] → decompressed t v cb = Some body →
  let h := hit_header (w_Header (wd_w w)) m v (UnixNano (now (2 + wd_tick w)%nat)) in
  serve r w
  = (at_ w (wd_store w) (4 + wd_tick w) (wd_calls w)
       (Write (WriteHeader (w_with_header (wd_w w) h) (StatusCode v)) body) (hit_context r w m v0)
       [EvGetMeta (lookup_key r);
        EvGetVariant (lookup_key r) (variant_name (generateVariantKey r (VaryHeaderNames m)));
        EvRecord labelStatusHit], Some true).
Proof.
  intros He Hf Hsz Hgv Hcb Hd h. rewrite (fresh_run r w m v0 He Hf). set (w0 := at_ _ _ _ _ _ _ _).
  assert (loadDecompressed t now w0
    = (at_ w0 (wd_store w) (4 + wd_tick w) (wd_calls w) (wd_w w) (wd_ctx w0)
         [EvGetVariant (lookup_key r) (variant_name (generateVariantKey r (VaryHeaderNames m)))],
       Some (Some (v, body)))) as Hl.
  { unfold loadDecompressed. erewrite bind_run; [|reflexivity].
    erewrite bind_run; [|unfold storage_GetVariant; do 3 (erewrite bind_run; [|reflexivity]); simpl;
      simpl in Hgv; rewrite Hgv; reflexivity]. simpl.
    apply is_nil_false in Hcb. rewrite Hcb, andb_false_r. pose proof Hd as Hd'. unfold decompressed in Hd'.
    destruct (codec_of t v); [|done]. by rewrite Hd. }
  assert (run_ServeCachedHit t now w0
    = (at_ w0 (wd_store w) (4 + wd_tick w) (wd_calls w)
         (Write (WriteHeader (w_with_header (wd_w w) h) (StatusCode v)) body) (hit_context r w m v0)
         [EvGetVariant (lookup_key r) (variant_name (generateVariantKey r (VaryHeaderNames m)));
          EvRecord labelStatusHit], Some None)) as Hrun.
  { unfold run_ServeCachedHit. erewrite bind_run; [|reflexivity]. cbn [hit_context wd_ctx w0 at_ cx_meta varInfo cx_r].
    rewrite (fe_get _ _ _ _ Hf). apply Z.eqb_neq in Hsz. rewrite Hsz. change (MethodGet =s MethodHead) with false. cbv beta iota delta [orb].
    erewrite bind_run; [|exact Hl]. simpl. erewrite bind_run; [|reflexivity]. erewrite bind_run; [|reflexivity].
    erewrite bind_run; [|reflexivity]. unfold has_esi_fragments. rewrite He.
    erewrite bind_run; [|apply emitCacheStatus_run]. unfold at_. simpl. by rewrite !app_nil_r, <- !app_assoc. }
  rewrite (machine_step _ stateServeCachedHit _ _ _ Hrun). unfold w0. by rewrite at_at.
Qed.

(** A hit on an entry with an empty body needs no second read. *)
Lemma hit_empty_run r (w : World S) m v :
  esiProcessor t = None → fresh_entry r w m v → RawBodySize v = 0%Z →
  let ts := UnixNano (now (2 + wd_tick w)%nat) in
  let h := copyAllHeaders (stamp statusHit (ttl_text m ts) (w_Header (wd_w w))) (ResponseHeaders v) in
  serve r w
  = (at_ w (wd_store w) (3 + wd_tick w) (wd_calls w) (WriteHeader (w_with_header (wd_w w) h) (StatusCode v))
       (hit_context r w m v) [EvGetMeta (lookup_key r); EvRecord labelStatusHit], Some true).
Proof.
  intros He Hf Hsz ts h. rewrite (fresh_run r w m v He Hf). set (w0 := at_ _ _ _ _ _ _ _).
  assert (run_ServeCachedHit t now w0
    = (at_ w0 (wd_store w) (3 + wd_tick w) (wd_calls w) (WriteHeader (w_with_header (wd_w w) h) (StatusCode v))
         (hit_context r w m v) [EvRecord labelStatusHit], Some None)) as Hrun.
  { unfold run_ServeCachedHit. erewrite bind_run; [|reflexivity]. cbn [hit_context wd_ctx w0 at_ cx_meta varInfo cx_r].
    rewrite Hsz, orb_true_r. erewrite bind_run; [|reflexivity].
    erewrite bind_run; [|apply emitCacheStatus_run]. erewrite bind_run; [|reflexivity].
    unfold adjustESIHeaders. rewrite He. unfold at_. simpl. by rewrite app_nil_r. }
  rewrite (machine_step _ stateServeCachedHit _ _ _ Hrun). unfold w0. by rewrite at_at.
Qed.
End Run.

(** ** Codecs *)

(** The registry of codecs: each under its own name, "none" the identity, all
    of them lossless and without empty output for a body. *)
Record codecs_ok (cfg : config) : Prop := {
  co_none : compressors cfg !! StorageCompressionNone = Some noneCompressor;
  co_name : ∀ name c, compressors cfg !! name = Some c → Name c = name ∧ name ≠ [];
  co_lossless : ∀ name c, compressors cfg !! name = Some c → lossless c;
  co_nonempty : ∀ name c src dst, compressors cfg !! name = Some c → src ≠ [] → Compress c src = Some dst → dst ≠ [];
}.

Section Codecs.
Context {E : GoEnv}.

(** What [saveVariantToStorage] compresses, [decompressed] gives back. *)
Lemma compress_roundtrip t headers body k code frags :
  codecs_ok (t_config t) → body ≠ [] →
  let c := compress_body t headers body in
  c.1 ≠ [] ∧ ∀ k', decompressed t (with_variant_key (new_variant k code headers body frags c.2) k') c.1 = Some body.
Proof.
  intros [Hnone Hname Hloss Hne] Hb. unfold compress_body, decompressed, codec_of. simpl.
  pose proof Hb as Hb'. apply is_nil_false in Hb'. rewrite Hb'.
  set (comp := resolveCompressor _ _ _).
  assert (compressors (t_config t) !! Name comp = Some comp) as Hcomp.
  { unfold comp. destruct (resolveCompressor_cases (compressors (t_config t) !! storageCompression (t_config t))
      headers (Z.of_nat (length body))) as [Hr|Hr].
    - rewrite Hr. done.
    - destruct (Hname _ _ Hr) as [Hn _]. rewrite Hn. done. }
  assert (∀ c, c = StorageCompressionNone ∨ c = Name comp → is_nil c = false) as Hnn.
  { intros c [->| ->]; [done|]. apply is_nil_false. by apply (Hname _ _ Hcomp). }
  destruct (Compress comp body) as [dst|] eqn:Ec; simpl.
  - split; [by eapply Hne|]. intros k'. rewrite Hnn by auto. rewrite Hcomp. simpl.
    rewrite (Hloss _ _ Hcomp _ _ Ec). simpl. by rewrite Z.eqb_refl.
  - split; [done|]. intros k'. rewrite Hnone. simpl. by rewrite Z.eqb_refl.
Qed.
End Codecs.

(** ** Header maps *)
Section HeaderCopies.
Context {E : GoEnv}.

Lemma h_Values_Add h k v k' :
  h_Values (h_Add h k v) k' = h_Values h k' ++ (if decide (CanonicalHeaderKey k = CanonicalHeaderKey k') then [v] else []).
Proof.
  unfold h_Values, h_Add. destruct (decide _) as [He|Hne].
  - by rewrite <- He, lookup_insert_eq.
  - by rewrite lookup_insert_ne, app_nil_r.
Qed.

Lemma h_Values_add_values h k vv k' :
  h_Values (add_values h k vv) k'
  = h_Values h k' ++ (if decide (CanonicalHeaderKey k = CanonicalHeaderKey k') then vv else []).
Proof.
  unfold add_values. revert h. induction vv as [|v vv IH]; intros h; simpl; [by case_decide; rewrite app_nil_r|].
  rewrite IH, h_Values_Add. case_decide; [by rewrite <- app_assoc|by rewrite !app_nil_r].
Qed.

(** A header map as Go code builds it with [Set] and [Add]. *)
Definition canonical_keys (h : Header) : Prop := ∀ k vv, h !! k = Some vv → CanonicalHeaderKey k = k.

Lemma fold_add_values (l : list (str * list str)) dst k :
  NoDup l.*1 → (∀ k' vv, (k', vv) ∈ l → CanonicalHeaderKey k' = k') →
  h_Values (foldl (λ h kv, add_values h kv.1 kv.2) dst l) k
  = h_Values dst k ++ default [] ((list_to_map l : Header) !! CanonicalHeaderKey k).
Proof.
  revert dst. induction l as [|[k0 v0] l IH]; intros dst Hnd Hc; csimpl in *; [by rewrite lookup_empty, app_nil_r|].
  apply NoDup_cons in Hnd as [Hni Hnd]. rewrite IH, h_Values_add_values; [|done|set_solver]. simpl.
  rewrite (Hc k0 v0) by set_solver. case_decide as Hk.
  - rewrite <- Hk. rewrite lookup_insert_eq, not_elem_of_list_to_map_1 by done. simpl. by rewrite app_nil_r.
  - by rewrite lookup_insert_ne, app_nil_r.
Qed.

(** Copying a canonical map adds its values. *)
Lemma copyAllHeaders_values dst src k :
  canonical_keys src → h_Values (copyAllHeaders dst src) k = h_Values dst k ++ h_Values src k.
Proof.
  intros Hc. unfold copyAllHeaders. rewrite fold_add_values.
  - unfold h_Values at 3. f_equal. f_equal. f_equal. rewrite <- (list_to_map_to_list src) at 2.
    apply list_to_map_proper; [|apply range_perm]. rewrite range_perm. apply NoDup_fst_map_to_list.
  - rewrite range_perm. apply NoDup_fst_map_to_list.
  - intros k' vv. rewrite range_elem_of. apply Hc.
Qed.

Lemma stored_header_values h k :
  storable_header h (CanonicalHeaderKey k) = true → h_Values (protoHeadersFromHTTP h) k = h_Values h k.
Proof.
  intros Hk. unfold h_Values, protoHeadersFromHTTP. f_equal. apply option_eq. intros vv.
  rewrite map_lookup_filter_Some. simpl. naive_solver.
Qed.

Lemma canonical_stored h : canonical_keys h → canonical_keys (protoHeadersFromHTTP h).
Proof. intros Hc k vv. unfold protoHeadersFromHTTP. rewrite map_lookup_filter_Some. intros [? _]. by eapply Hc. Qed.
End HeaderCopies.

(** ** The storage time to live never overflows *)
Section StorageTTL.
Context {E : GoEnv} {CO : CacheObject}.

Lemma stale_window_range st rq rs t0 t1 n clk :
  let f := calculateFreshness st rq rs t0 t1 n clk in
  (0 ≤ StaleWhileRevalidateTTL f ≤ 2 ^ 31 * Second ∧ 0 ≤ StaleIfErrorTTL f ≤ 2 ^ 31 * Second)%Z.
Proof.
  unfold calculateFreshness. destruct (freshnessLifetime _ _ _ _) as [[fl swr] sie] eqn:Ef. simpl.
  unfold freshnessLifetime in Ef. destruct (parseDirectives rs) as [d|] eqn:Ed; injection Ef as _ <- <-.
  2: { unfold Second. lia. }
  apply parseDirectives_delta in Ed as (_ & _ & Hs & Hw).
  assert (∀ z, in_int32 z → (0 <? z)%Z = true → (0 ≤ mul_dur z Second ≤ 2 ^ 31 * Second)%Z) as Hmul.
  { intros z Hz Hp. apply Z.ltb_lt in Hp. destruct (mul_second_int32 z Hz) as [-> _]; [lia|].
    unfold in_int32, Second in *. lia. }
  assert (∀ b z, in_int32 z → (0 ≤ (if b && (0 <? z) then mul_dur z Second else 0) ≤ 2 ^ 31 * Second)%Z) as Hwin.
  { intros [] z Hz; simpl; [|unfold Second; lia]. destruct (0 <? z)%Z eqn:Ez; [by apply Hmul|unfold Second; lia]. }
  split; by apply Hwin.
Qed.

Lemma storage_ttl_exact st rq rs t0 t1 n clk :
  let f := calculateFreshness st rq rs t0 t1 n clk in
  (0 < EffectiveTTL f)%Z →
  storage_ttl f = (EffectiveTTL f + Z.max (StaleWhileRevalidateTTL f) (StaleIfErrorTTL f))%Z.
Proof.
  intros f Hp. pose proof (stale_window_range st rq rs t0 t1 n clk) as Hw.
  pose proof (calculateFreshness_ttl st rq rs t0 t1 n clk) as Ht. fold f in Hw, Ht. simpl in Ht.
  assert (EffectiveTTL f ≤ maxCacheTTL)%Z as Hmax by lia. unfold storage_ttl, add_dur.
  unfold maxCacheTTL, Second in *. rewrite wrap64_id by (unfold in_int64; lia).
  case_if; lia.
Qed.
End StorageTTL.

(** ** The round trip of the cache *)
Section RoundTrip.
Context {E : GoEnv} {CO : CacheObject} {S : Type} {St : Storage S} {SL : StorageLaws S}.
Context (t : Titip) (now : nat → Z) (next : nat → Request → Writer → Writer * bool).
Abbreviation serve := (ServeHTTP t now next None false).

(** A later request that the stored response answers: same key, same
    selecting headers, and no precondition of its own. *)
Record same_resource (r1 r2 : Request) (rec : Writer) : Prop := {
  sr_verdict : classify (t_config t) r2 = VLookup;
  sr_get : r_Method r2 = MethodGet;
  sr_key : lookup_key t r2 = lookup_key t r1;
  sr_variant : generateVariantKey r2 (extractVaryHeaderNames (w_Header rec))
               = generateVariantKey r1 (extractVaryHeaderNames (w_Header rec));
  sr_proceed : evaluatePreconditions r2 (stored_variant t r1 rec) = None;
}.

Lemma stored_variant_name r1 rec :
  VariantKey (stored_variant t r1 rec)
  = variant_name (generateVariantKey r1 (extractVaryHeaderNames (w_Header rec))).
Proof. reflexivity. Qed.

Lemma variant_name_idem k : variant_name (variant_name k) = variant_name k.
Proof. unfold variant_name. by destruct (is_nil k) eqn:Ek; [|rewrite Ek]. Qed.

Lemma variant_name_eq k : k ≠ [] → variant_name k = k.
Proof. unfold variant_name. intros H. apply is_nil_false in H. by rewrite H. Qed.

(** The stored entry, as a later request finds it. *)
Lemma stored_entry_fresh r1 r2 (w : World S) rec s0 ts m' :
  let f := miss_freshness now r1 (2 + wd_tick w) rec in
  let m := new_meta t (lookup_key t r1) (w_Header rec) f ts in
  same_resource r1 r2 rec → meta_agrees m m' →
  GetMeta (wd_store s0) (now (1 + wd_tick s0)%nat) (lookup_key t r1) = Ret (Some (m', false)) →
  Variants m' !! variant_name (VariantKey (stored_variant t r1 rec))
  = Some (with_variant_key (stored_variant t r1 rec) (variant_name (VariantKey (stored_variant t r1 rec)))) →
  (UnixNano (now (2 + wd_tick s0)%nat) ≤ UnixNano (time_Add ts (EffectiveTTL f)))%Z →
  fresh_entry t now r2 s0 m'
    (with_variant_key (stored_variant t r1 rec) (variant_name (VariantKey (stored_variant t r1 rec)))).
Proof.
  intros f m [Hv Hget Hk Hvar Hpre] Ha Hg Hl Hfr.
  assert (VaryHeaderNames m' = extractVaryHeaderNames (w_Header rec) ∧
          ExpiresAtUnixNano m' = UnixNano (time_Add ts (EffectiveTTL f))) as [Hn He].
  { unfold meta_agrees, with_variants, m, new_meta in Ha. simpl in Ha. by injection Ha as _ <- _ <- _ _ _. }
  split; [done|done|by rewrite Hk| | |].
  - rewrite Hn, Hvar. rewrite stored_variant_name, variant_name_idem in Hl. rewrite stored_variant_name in *.
    by rewrite variant_name_idem.
  - by rewrite He.
  - exact Hpre.
Qed.

(** What the client of a hit gets, on a new writer. *)
Definition replays (w : World S) (rec : Writer) : Prop :=
  ∃ h, w_sent (wd_w w) = Some (wrap32 (rec_Code rec), h) ∧ w_Body (wd_w w) = w_Body rec ∧
    ∀ k, storable_header (w_Header rec) (CanonicalHeaderKey k) = true → canonical_keys (w_Header rec) →
         CanonicalHeaderKey k ∉ [headerAge; headerCacheStatus] → h_Values h k = h_Values (w_Header rec) k.

Lemma stamp_values a d h k :
  CanonicalHeaderKey k ≠ headerCacheStatus → h_Values (stamp t a d h) k = h_Values h k.
Proof.
  intros Hk. assert (CanonicalHeaderKey headerCacheStatus = headerCacheStatus) as Hc by reflexivity.
  unfold stamp. destruct (cacheStatusMode _); [|case_if; [done|]|done].
  - apply h_Values_Set_ne. congruence.
  - rewrite h_Values_Add, Hc. rewrite decide_False by congruence. by rewrite app_nil_r.
Qed.

Lemma stored_copy_values r1 rec vk h0 k :
  canonical_keys (w_Header rec) → storable_header (w_Header rec) (CanonicalHeaderKey k) = true →
  h_Values h0 k = [] →
  h_Values (copyAllHeaders h0 (ResponseHeaders (with_variant_key (stored_variant t r1 rec) vk))) k
  = h_Values (w_Header rec) k.
Proof.
  intros Hc Hk H0. simpl. rewrite copyAllHeaders_values by (by apply canonical_stored).
  by rewrite H0, stored_header_values.
Qed.

(** Where the entry of a miss is, for as long as it is fresh. *)
Lemma stored_after_miss r1 (w : World S) rec :
  usable (wd_store w) → esiProcessor t = None →
  stores t now next r1 w rec →
  let f := miss_freshness now r1 (2 + wd_tick w) rec in
  let w1 := with_writer (serve r1 w).1 new_writer in
  let v := stored_variant t r1 rec in
  let m := new_meta t (lookup_key t r1) (w_Header rec) f (now (3 + wd_tick w)%nat) in
  storable m v →
  (serve r1 w).2 = Some true ∧ wd_tick w1 = (6 + wd_tick w)%nat ∧ wd_w w1 = new_writer ∧
  ∀ ts, live (now (5 + wd_tick w)%nat) (lifetime (storage_ttl f)) ts →
    (∃ m', GetMeta (wd_store w1) ts (lookup_key t r1) = Ret (Some (m', false)) ∧ meta_agrees m m' ∧
       Variants m' !! variant_name (VariantKey v) = Some (with_variant_key v (variant_name (VariantKey v)))) ∧
    GetVariant (wd_store w1) ts (lookup_key t r1) (VariantKey v)
    = Ret (Some (with_variant_key v (variant_name (VariantKey v)),
                 (compress_body t (w_Header rec) (w_Body rec)).1)).
Proof.
  intros Hu He Hst f w1 v m Hstb.
  set (body := (compress_body t (w_Header rec) (w_Body rec)).1).
  pose proof (set_stores (wd_store w) (now (5 + wd_tick w)%nat) (lookup_key t r1) m v body (storage_ttl f) Hu Hstb)
    as Hret.
  destruct (SetVariant (wd_store w) (now (5 + wd_tick w)%nat) (lookup_key t r1) m v body (storage_ttl f))
    as [s' o] eqn:Hset. simpl in Hret. subst o.
  destruct (miss_run t now next None false r1 w rec s' (Ret tt) He Hst Hset) as (wr & c & Hrun); [done|].
  unfold w1. rewrite Hrun. cbn [fst snd with_writer at_ wd_tick wd_store wd_w]. do 3 (split; [done|]). intros ts Hlive.
  pose proof (set_get_meta _ _ (lookup_key t r1) m v body _ _ Hu Hstb Hlive) as Hgm.
  pose proof (set_get_variant _ _ (lookup_key t r1) m v body _ _ Hu Hstb Hlive) as Hgv.
  rewrite Hset in Hgm, Hgv. done.
Qed.

(** C1: what a miss stores, a hit serves.  When a GET was answered by the
    origin with a response that may be stored, every later GET for the same
    key and the same selecting headers that runs within the freshness lifetime is
    answered from the store: the origin is not called, the store is not
    changed, and the client gets the status, the body and every
    end-to-end header of the origin's response (Age and Cache-Status are the cache's own). *)
Theorem miss_then_hit r1 r2 (w : World S) rec :
  usable (wd_store w) → codecs_ok (t_config t) → esiProcessor t = None →
  (∀ i j, (i ≤ j)%nat → (now i ≤ now j)%Z) → (0 ≤ now (wd_tick w))%Z →
  stores t now next r1 w rec → same_resource r1 r2 rec →
  let f := miss_freshness now r1 (2 + wd_tick w) rec in
  storable (new_meta t (lookup_key t r1) (w_Header rec) f (now (3 + wd_tick w)%nat)) (stored_variant t r1 rec) →
  live (now (5 + wd_tick w)%nat) (lifetime (storage_ttl f)) (now (9 + wd_tick w)%nat) →
  let w1 := with_writer (ServeHTTP t now next None false r1 w).1 new_writer in
  (now (9 + wd_tick w)%nat < now (3 + wd_tick w)%nat + EffectiveTTL f < 2 ^ 63)%Z →
  (ServeHTTP t now next None false r1 w).2 = Some true ∧ (ServeHTTP t now next None false r2 w1).2 = Some true ∧
  wd_calls (ServeHTTP t now next None false r2 w1).1 = wd_calls w1 ∧ wd_store (ServeHTTP t now next None false r2 w1).1 = wd_store w1 ∧
  replays (ServeHTTP t now next None false r2 w1).1 rec.
Proof.
  intros Hu Hco He Hmono H0 Hst Hsr f Hstb [Hl0 Hlive] w1 Hlt.
  pose proof (Hmono (wd_tick w) (3 + wd_tick w))%nat as M1.
  pose proof (Hmono (3 + wd_tick w) (9 + wd_tick w))%nat as M2.
  pose proof (Hmono (7 + wd_tick w) (9 + wd_tick w))%nat as M3.
  pose proof (Hmono (8 + wd_tick w) (9 + wd_tick w))%nat as M4.
  pose proof (Hmono (3 + wd_tick w) (8 + wd_tick w))%nat as M5.
  assert (0 < EffectiveTTL f)%Z as Hpos by lia.
  destruct (stored_after_miss r1 w rec Hu He Hst Hstb) as (Hok & Htk & Hwr & Hread).
  fold w1 f in Htk, Hwr, Hread. split; [done|].
  destruct (Hread (now (7 + wd_tick w)%nat)) as [(m' & Hg & Ha & Hl) _]; [split; lia|].
  destruct (Hread (now (9 + wd_tick w)%nat)) as [_ Hgv]; [split; lia|].
  set (v := with_variant_key _ _) in Hl, Hgv.
  assert (fresh_entry t now r2 w1 m' v) as Hfe.
  { eapply (stored_entry_fresh r1 r2 w rec w1); [done|exact Ha|by rewrite Htk|done|].
    rewrite Htk. change (2 + (6 + wd_tick w))%nat with (8 + wd_tick w)%nat.
    change (EffectiveTTL (miss_freshness _ _ _ _)) with (EffectiveTTL f).
    unfold UnixNano, time_Add. rewrite !wrap64_id by (unfold in_int64; lia). lia. }
  destruct (decide (w_Body rec = [])) as [Hb|Hb].
  - pose proof (hit_empty_run t now next None false r2 w1 m' v He Hfe) as Hrun.
    rewrite Hrun by (simpl; by rewrite Hb). clear Hrun. split; [done|]. split; [done|]. split; [done|].
    rewrite Hwr. eexists. split; [reflexivity|]. split; [by rewrite Hb|]. intros k Hk Hc Hn.
    apply stored_copy_values; [done..|]. by rewrite stamp_values by set_solver.
  - assert (RawBodySize v ≠ 0%Z) as Hraw.
    { simpl. destruct (w_Body rec); [done|]. simpl. lia. }
    destruct (compress_roundtrip t (w_Header rec) (w_Body rec)
      (new_variant_key r1 [] (extractVaryHeaderNames (w_Header rec))) (rec_Code rec) [] Hco Hb) as [Hcb Hdec].
    pose proof (hit_run t now next None false r2 w1 m' v v
      (compress_body t (w_Header rec) (w_Body rec)).1 (w_Body rec) He Hfe Hraw) as Hrun.
    rewrite Hrun; clear Hrun; [| |exact Hcb|apply Hdec].
    2: { rewrite Htk. change (3 + (6 + wd_tick w))%nat with (9 + wd_tick w)%nat.
         assert (VaryHeaderNames m' = extractVaryHeaderNames (w_Header rec)) as ->.
         { unfold meta_agrees, with_variants, new_meta in Ha. simpl in Ha. by injection Ha as _ <- _ _ _ _ _. }
         destruct Hsr as [_ _ -> -> _]. exact Hgv. }
    split; [done|]. split; [done|]. split; [done|].
    rewrite Hwr. exists (hit_header t ∅ m' v (UnixNano (now (2 + wd_tick w1)%nat))).
    split; [reflexivity|]. split; [reflexivity|]. intros k Hk Hc Hn. unfold hit_header.
    rewrite stamp_values, h_Values_Set_ne by set_solver. by apply stored_copy_values.
Qed.
End RoundTrip.
