(* ===== verification/Codecs.v ===== *)
(** * The built-in codecs ([src/compress.go])

    LZ4 and Zstandard write through pooled encoders and decoders of their libraries into a
    caller's buffer.  The libraries are instances of the class [Stream]; the wrappers, their
    pools and their errors are the code's.  [stream_compressor] is what remains when pools and
    buffers are abstracted away: the [Compressor] that the pipeline is proved with. *)

From S2P Require Import Prelude GoStrings GoHttp Env Headers Storage Compress Config Handler HandlerProps HandlerRun.
#[local] Unset Default Proof Using.

(** ** The libraries

    An encoder emits bytes to its destination as it is written to and closed; [Reset] makes it
    equivalent to a new one, and so for decoders, which read from the source they were reset to.  A
    destination that never fails (a [bytes.Buffer]) gives no errors, and what was
    encoded is decoded again. *)
Class Stream := {
  Encoder : Type;
  Decoder : Type;
  enc_new : Encoder;
  enc_Reset : Encoder → Encoder;
  enc_Write : Encoder → str → Encoder * str * option str;
  enc_Close : Encoder → Encoder * str * option str;
  dec_new : Decoder;
  dec_Reset : Decoder → str → Decoder * option str;
  dec_ReadAll : Decoder → Decoder * str * option str;
  enc_Reset_new w : enc_Reset w = enc_Reset enc_new;
  dec_Reset_new r src : dec_Reset r src = dec_Reset dec_new src;
  stream_round_trip src : ∃ w1 o1 w2 o2 r1 r2,
    enc_Write (enc_Reset enc_new) src = (w1, o1, None) ∧ enc_Close w1 = (w2, o2, None) ∧
    (src ≠ [] → o1 ++ o2 ≠ []) ∧
    dec_Reset dec_new (o1 ++ o2) = (r1, None) ∧ dec_ReadAll r1 = (r2, src, None);
}.

(** ** Pools

    [sync.Pool.Get] takes some value that was put, or makes a new one. *)
Definition pool_Get {A} (choice : nat) (new : A) (pool : list A) : A * list A :=
  match pool !! choice with
  | Some x => (x, take choice pool ++ drop (S choice) pool)
  | None => (new, pool)
  end.
Definition pool_Put {A} (x : A) (pool : list A) : list A := x :: pool.

Section Codecs.
Context {ST : Stream}.

(** The pools of one codec; a [bytes.Reader] in its pool reads nothing. *)
Record pools := mkPools { encoders : list Encoder; decoders : list Decoder }.

(** [Compress]: the pools, the buffer and the error it leaves. *)
Definition stream_Compress (codec : str) (choice : nat) (ps : pools) (src : str) (dst : option str)
    : pools * option str * option str :=
  match dst with
  | None => (ps, None, Some (B "compress: destination buffer is nil"))
  | Some d =>
      let '(zw, rest) := pool_Get choice enc_new (encoders ps) in
      let put zw := mkPools (pool_Put zw rest) (decoders ps) in
      let '(zw, o, err) := enc_Write (enc_Reset zw) src in
      let d := d ++ o in
      match err with
      | Some e => (put zw, Some d, Some (B "compress: " ++ codec ++ B " write: " ++ e))
      | None =>
          let '(zw, o, err) := enc_Close zw in
          let d := d ++ o in
          match err with
          | Some e => (put zw, Some d, Some (B "compress: " ++ codec ++ B " close: " ++ e))
          | None => (put zw, Some d, None)
          end
      end
  end.

Definition stream_Decompress (codec : str) (choice : nat) (ps : pools) (src : str) (dst : option str)
    : pools * option str * option str :=
  match dst with
  | None => (ps, None, Some (B "decompress: destination buffer is nil"))
  | Some d =>
      let '(zr, rest) := pool_Get choice dec_new (decoders ps) in
      let put zr := mkPools (encoders ps) (pool_Put zr rest) in
      let '(zr, err) := dec_Reset zr src in
      match err with
      | Some e => (put zr, Some d, Some (B "decompress: " ++ codec ++ B " reset: " ++ e))
      | None =>
          let '(zr, o, err) := dec_ReadAll zr in
          match err with
          | Some e => (put zr, Some (d ++ o), Some (B "decompress: " ++ codec ++ B " read: " ++ e))
          | None => (put zr, Some (d ++ o), None)
          end
      end
  end.

(** What a call leaves, as the interface of [Compress] has it: the bytes, or an error. *)
Definition produced (r : pools * option str * option str) : option str :=
  match r.2 with Some _ => None | None => r.1.2 end.

(** The codec without pools and buffers. *)
Definition stream_compressor (codec : str) : Compressor :=
  mkCompressor codec
    (λ src, produced (stream_Compress codec 0 (mkPools [] []) src (Some [])))
    (λ src, produced (stream_Decompress codec 0 (mkPools [] []) src (Some []))).

(** [produced], behind what the buffer held before. *)
Definition appends (d : str) (r : pools * option str * option str) (out : option str) : Prop :=
  match out with
  | Some o => r.1.2 = Some (d ++ o) ∧ r.2 = None
  | None => is_Some r.2
  end.

(** Pooling is invisible.  Whatever encoders and decoders earlier calls, failed ones included,
    have left in the pools, whichever the pool hands out, and whatever the buffer holds already, a
    call appends exactly the bytes that the pure codec gives, or fails exactly when it
    does; a nil buffer is an error and touches no pool. *)
Theorem pools_invisible codec choice ps src d :
  appends d (stream_Compress codec choice ps src (Some d)) (Compress (stream_compressor codec) src) ∧
  appends d (stream_Decompress codec choice ps src (Some d)) (Decompress (stream_compressor codec) src) ∧
  (stream_Compress codec choice ps src None).1 = (ps, None) ∧ is_Some (stream_Compress codec choice ps src None).2 ∧
  (stream_Decompress codec choice ps src None).1 = (ps, None) ∧ is_Some (stream_Decompress codec choice ps src None).2.
Proof.
  split_and!; try done.
  - unfold stream_Compress. simpl. unfold stream_Compress. simpl. destruct (pool_Get _ _ (encoders ps)) as [zw rest].
    rewrite (enc_Reset_new zw). destruct (enc_Write _ src) as [[w1 o1] [e|]]; [by eexists|].
    destruct (enc_Close w1) as [[w2 o2] [e|]]; [by eexists|]. simpl. by rewrite <- app_assoc.
  - unfold stream_Decompress. simpl. unfold stream_Decompress. simpl. destruct (pool_Get _ _ (decoders ps)) as [zr rest].
    rewrite (dec_Reset_new zr). destruct (dec_Reset _ src) as [r1 [e|]]; [by eexists|].
    destruct (dec_ReadAll r1) as [[r2 o] [e|]]; [by eexists|]. done.
Qed.

Lemma stream_total codec src :
  ∃ frame, Compress (stream_compressor codec) src = Some frame ∧
    Decompress (stream_compressor codec) frame = Some src ∧ (src ≠ [] → frame ≠ []).
Proof.
  destruct (stream_round_trip src) as (w1 & o1 & w2 & o2 & r1 & r2 & Hw & Hc & Hne & Hr & Hd).
  exists (o1 ++ o2). unfold stream_compressor. simpl. unfold stream_Compress, stream_Decompress, produced. simpl.
  by rewrite Hw, Hc, Hr, Hd.
Qed.
End Codecs.

(** ** The identity codec writes to its buffer, too *)
Definition none_write (op src : str) (dst : option str) : option str * option str :=
  match dst with
  | None => (None, Some (op ++ B ": destination buffer is nil"))
  | Some d => (Some (d ++ src), None)
  end.
Definition none_Compress := none_write (B "compress").
Definition none_Decompress := none_write (B "decompress").

(** ** The registry of [New] *)
Section Registry.
Context (lz4 zstd : Stream).

Definition NewLZ4Compressor : Compressor := stream_compressor (ST := lz4) StorageCompressionLZ4.
Definition NewZstdCompressor : Compressor := stream_compressor (ST := zstd) StorageCompressionZstd.

(** The codecs that [New] registers before the options run. *)
Definition builtin_compressors : gmap str Compressor :=
  compressors (defaultConfig NewLZ4Compressor NewZstdCompressor).

Lemma builtin_cases name c : builtin_compressors !! name = Some c →
  (name = StorageCompressionZstd ∧ c = NewZstdCompressor) ∨ (name = StorageCompressionLZ4 ∧ c = NewLZ4Compressor) ∨
  (name = StorageCompressionNone ∧ c = noneCompressor).
Proof.
  change builtin_compressors with (<[StorageCompressionLZ4 := NewLZ4Compressor]>
    (<[StorageCompressionNone := noneCompressor]> ({[StorageCompressionZstd := NewZstdCompressor]} : gmap str Compressor))).
  intros [[<- <-]|[_ [[<- <-]|[_ [<- <-]%lookup_singleton_Some]]%lookup_insert_Some]]%lookup_insert_Some; auto.
Qed.

(** The built-in codecs are what the pipeline needs.  The registry of [New] satisfies the
    hypothesis on codecs under which a stored page is served back byte for byte: every codec under its own
    name, lossless, and never empty for a body; and these codecs never fail to compress. *)
Theorem builtin_codecs_ok (cfg : config) (H : compressors cfg = builtin_compressors) :
  codecs_ok cfg ∧ ∀ name c src, compressors cfg !! name = Some c → is_Some (Compress c src).
Proof.
  assert (∀ name c, compressors cfg !! name = Some c → Name c = name ∧ name ≠ [] ∧
    ∀ src, ∃ frame, Compress c src = Some frame ∧ Decompress c frame = Some src ∧ (src ≠ [] → frame ≠ [])) as Hall.
  { intros name c. rewrite H. intros [[-> ->]|[[-> ->]|[-> ->]]]%builtin_cases; (split; [done|]); (split; [done|]);
      intros src; [apply stream_total..|by exists src]. }
  split; [split|].
  - by rewrite H.
  - intros name c Hc. destruct (Hall name c Hc) as (? & ? & _). done.
  - intros name c Hc src dst Hd. destruct (Hall name c Hc) as (_ & _ & Hr). destruct (Hr src) as (frame & Hf & Hb & _). congruence.
  - intros name c src dst Hc Hs Hd. destruct (Hall name c Hc) as (_ & _ & Hr). destruct (Hr src) as (frame & Hf & _ & Hn).
    rewrite Hd in Hf. injection Hf as ->. auto.
  - intros name c src Hc. destruct (Hall name c Hc) as (_ & _ & Hr). destruct (Hr src) as (frame & -> & _). done.
Qed.
End Registry.

(** ** Witness: a library that frames with one byte *)
#[refine] Definition framed : Stream := {|
  Encoder := unit; Decoder := str;
  enc_new := tt; enc_Reset := λ _, tt;
  enc_Write := λ _ src, (tt, "#"%char :: src, None);
  enc_Close := λ _, (tt, [], None);
  dec_new := []; dec_Reset := λ _ src, (src, None);
  dec_ReadAll := λ r, match r with _ :: rest => ([], rest, None) | [] => ([], [], Some (B "EOF")) end;
|}.
Proof.
  - done.
  - done.
  - intros src. exists tt, ("#"%char :: src), tt, [], ("#"%char :: src), []. split_and!; try done; simpl; by rewrite ?app_nil_r.
Defined.

Definition builtin_config : config := defaultConfig (NewLZ4Compressor framed) (NewZstdCompressor framed).

Lemma builtin_codecs_ok_witness :
  codecs_ok builtin_config ∧ Compress (NewLZ4Compressor framed) (B "page") = Some (B "#page").
Proof.
  split; [|vm_compute; reflexivity]. exact (proj1 (builtin_codecs_ok framed framed builtin_config eq_refl)).
Defined.
