(* ===== verification/HandlerSafety.v ===== *)
(** * Safety of the request pipeline

    On a usable store, a request that the cache handles itself always returns
    normally, also when the origin panics; and a successful mutating request
    invalidates the entries of its URL. *)

From S2P Require Import Prelude GoStrings GoHttp Env Headers Freshness CacheKey Storage TestStore Purge Scanner Esi Compress Config Handler HandlerLogic HandlerProps HandlerRun.
#[local] Open Scope handler_scope.
#[local] Unset Default Proof Using.
Import Demo.

(** ** Invariants that purges keep *)
Section PurgeInv.
Context {E : GoEnv} {CO : CacheObject} {S : Type} {St : Storage S}.
Context (t : Titip) (now : nat → Z) (next : nat → Request → Writer → Writer * bool).
Context (K : S → Prop)
        (K_purge : ∀ s ts k soft, K s → K (Purge s ts k soft).1)
        (K_pattern : ∀ s ts p soft, K s → K (PurgeByPattern s ts p soft).1).

Definition store_inv (w : World S) : Prop := K (wd_store w).
Abbreviation KOK m := (ok store_inv (λ _, True) m (λ _, True)).

Lemma kok_emit e : KOK (emit e).
Proof. intros w Hw. exists [e]. simpl. split; [done|]. split; [by repeat constructor|done]. Qed.

Lemma kok_silent {A} (m : M S A) :
  (∀ w, wd_trace (m w).1 = wd_trace w ∧ wd_store (m w).1 = wd_store w) → KOK m.
Proof. intros H. apply ok_silent. intros w Hw. destruct (H w) as [? Hs]. unfold store_inv. by rewrite Hs. Qed.

Lemma kok_lift {A} (o : outcome A) : KOK (lift o).
Proof. by destruct o; apply kok_silent. Qed.

Lemma kok_update {A} (f : S → S * outcome A) :
  (∀ s, K s → K (f s).1) → KOK (s <- get wd_store ;; let '(s', o) := f s in upd_store s' ;;; lift o).
Proof.
  intros Hf. eapply (ok_bind _ _ _ _ K); [by apply ok_get|]. intros s Hs. specialize (Hf s Hs).
  destruct (f s) as [s' o]. apply ok_seq; [|intros _; apply kok_lift].
  apply ok_silent. done.
Qed.

Lemma kok_Purge k soft : KOK (storage_Purge now k soft).
Proof.
  unfold storage_Purge. apply ok_seq; [apply kok_emit|intros _]. apply ok_seq; [by apply kok_silent|intros ts].
  apply (kok_update (λ s, Purge s ts k soft)). intros s. apply K_purge.
Qed.

Lemma kok_PurgeByPattern p soft : KOK (storage_PurgeByPattern now p soft).
Proof.
  unfold storage_PurgeByPattern. apply ok_seq; [apply kok_emit|intros _]. apply ok_seq; [by apply kok_silent|intros ts].
  apply (kok_update (λ s, PurgeByPattern s ts p soft)). intros s. apply K_pattern.
Qed.

Lemma kok_recorded {A} ty mode st n (a : A) : KOK (recordPurge ty mode st n ;;; ret a).
Proof. apply ok_seq; [apply kok_emit|intros _; by apply ok_ret]. Qed.

Lemma kok_purged_result ty mode label res : KOK (purged_result ty mode label res).
Proof. destruct res; apply kok_recorded. Qed.

Lemma kok_purge_patterns ty label soft ps n : KOK (purge_patterns now ty label soft ps n).
Proof.
  revert n. induction ps as [|p ps IH]; intros n; [apply kok_recorded|].
  apply ok_seq; [apply kok_PurgeByPattern|intros [m|e]]; [apply IH|apply kok_recorded].
Qed.

Lemma kok_titip_Purge target soft : KOK (titip_Purge t now target soft).
Proof.
  unfold titip_Purge. destruct (buildPurgeOperation _ _) as [[ex keys]| |]; [|apply kok_recorded|apply ok_panic].
  destruct keys as [|key keys]; [by apply ok_ret|]. destruct ex; [|apply kok_purge_patterns].
  apply ok_seq; [apply kok_Purge|intros; apply kok_purged_result].
Qed.

Lemma kok_purge_location loc r : KOK (purge_location t now loc r).
Proof.
  unfold purge_location. case_if; [by apply ok_ret|]. case_if; [by apply ok_ret|].
  apply ok_seq; [apply kok_titip_Purge|intros _; by apply ok_ret].
Qed.

Lemma kok_origin_record r : KOK (origin_record next r).
Proof. unfold origin_record. apply ok_seq; [apply kok_emit|intros _]. by apply kok_silent. Qed.

Lemma kok_origin_direct r : KOK (origin_direct next r).
Proof.
  unfold origin_direct. apply ok_seq; [apply kok_emit|intros _]. apply ok_seq; [by apply kok_silent|intros n].
  apply ok_seq; [by apply kok_silent|intros w]. destruct (next n r w) as [w' pn].
  apply ok_seq; [by apply kok_silent|intros _]. by destruct pn; apply kok_silent.
Qed.

Lemma kok_handleMutating r : KOK (handleMutatingRequest t now next r).
Proof.
  unfold handleMutatingRequest. case_if; [apply kok_origin_direct|].
  apply ok_seq; [apply kok_origin_record|intros [rec pn]]. destruct pn; [apply ok_panic|].
  apply ok_seq; [by apply kok_silent|intros _]. apply ok_seq; [by apply kok_silent|intros _].
  apply ok_seq; [by case_if; apply kok_silent|intros _].
  case_if; [|by apply ok_ret]. destruct (r_URL r); [|apply ok_panic].
  apply ok_seq; [apply kok_titip_Purge|intros _]. apply ok_seq; intros; apply kok_purge_location.
Qed.
End PurgeInv.

(** A mutating request is answered by the first state. *)
Section FirstState.
Context {E : GoEnv} {CO : CacheObject} {S : Type} {St : Storage S}.
Context (t : Titip) (now : nat → Z) (next : nat → Request → Writer → Writer * bool).

Lemma CheckBypass_mutating r (w : World S) :
  cx_r (wd_ctx w) = r → classify (t_config t) r = VMutating →
  let wr := w_with_header (wd_w w) (stamp t statusBypass rfc9211FwdMethod (w_Header (wd_w w))) in
  let w1 := at_ w (wd_store w) (wd_tick w) (wd_calls w) wr (wd_ctx w) [EvRecord labelStatusBypass] in
  ∃ w', run_CheckBypass t now next w = (w', Some None) ∧
        wd_store w' = wd_store (handleMutatingRequest t now next r w1).1.
Proof.
  intros Hr. unfold classify, streaming.
  destruct (containsToken _ _) eqn:E1; [done|]. destruct (Contains _ _) eqn:E2; [done|].
  destruct (is_nil (h_Get (r_Header r) headerRange)) eqn:E3; simpl; [|done].
  destruct (isMutatingMethod _) eqn:E4; [intros _|by repeat case_if].
  unfold run_CheckBypass, recovering. rewrite (bind_run _ _ w w r); [|by rewrite <- Hr]. rewrite E1, E2, E3, E4. simpl.
  erewrite bind_run; [|reflexivity]. erewrite bind_run; [|apply emitCacheStatus_run].
  unfold at_. simpl. rewrite app_nil_r. unfold bind at 1.
  destruct (handleMutatingRequest _ _ _ _) as [w' [[]|]]; by eexists.
Qed.
End FirstState.

(** ** No panic *)
(** A stored variant with headers. *)
Definition headed (v : VariantInfo) : Prop := ResponseHeaders v ≠ ∅.

Lemma headed_not_nil v : headed v → nil_headers v = false.
Proof. intros Hv. by apply bool_decide_eq_false. Qed.

Section Safe.
Context {E : GoEnv} {CO : CacheObject} {S : Type} {St : Storage S} {SL : StorageLaws S}.
Context (t : Titip) (now : nat → Z) (next : nat → Request → Writer → Writer * bool).
Context (joined : option fetchResult) (waiters : bool) (no_esi : esiProcessor t = None).

(** [m] returns, on a usable store, which stays usable. *)
Definition safe {A} (P : requestContext → Prop) (m : M S A) (R : A → requestContext → Prop) : Prop :=
  ∀ w, usable (wd_store w) → P (wd_ctx w) →
    ∃ a, (m w).2 = Some a ∧ usable (wd_store (m w).1) ∧ R a (wd_ctx (m w).1).

Lemma safe_ret {A} P (a : A) (R : A → requestContext → Prop) : (∀ c, P c → R a c) → safe P (ret a) R.
Proof. intros H w Hu Hp. exists a. split; [done|]. split; [done|]. by apply H. Qed.

Lemma safe_bind {A C} P (m : M S A) (f : A → M S C) Q R :
  safe P m Q → (∀ a, safe (Q a) (f a) R) → safe P (bind m f) R.
Proof.
  intros Hm Hf w Hu Hp. destruct (Hm w Hu Hp) as (a & Ha & Hu' & Hq). unfold bind.
  destruct (m w) as [w' o]. simpl in *. subst o. by apply Hf.
Qed.

Lemma safe_seq {A C} P (m : M S A) (f : A → M S C) R :
  safe P m (λ _, P) → (∀ a, safe P (f a) R) → safe P (bind m f) R.
Proof. intros Hm Hf. by eapply safe_bind. Qed.

Lemma safe_post {A} P (m : M S A) (Q R : A → requestContext → Prop) :
  (∀ a c, Q a c → R a c) → safe P m Q → safe P m R.
Proof. intros HQ Hm w Hu Hp. destruct (Hm w Hu Hp) as (a & ? & ? & ?). eauto. Qed.

Lemma safe_silent {A} P (m : M S A) :
  (∀ w, is_Some (m w).2 ∧ wd_store (m w).1 = wd_store w ∧ wd_ctx (m w).1 = wd_ctx w) → safe P m (λ _, P).
Proof. intros H w Hu Hp. destruct (H w) as ([a Ha] & Hs & Hc). exists a. by rewrite Hs, Hc. Qed.

Lemma safe_upd_ctx P f (R : unit → requestContext → Prop) :
  (∀ c, P c → R tt (f c)) → safe P (upd_ctx f) R.
Proof. intros H w Hu Hp. exists tt. split; [done|]. split; [done|]. by apply H. Qed.

Lemma safe_get_ctx {A} P (f : requestContext → M S A) R :
  (∀ c, P c → safe (λ c', c' = c) (f c) R) → safe P (bind (get wd_ctx) f) R.
Proof. intros H w Hu Hp. by apply (H (wd_ctx w) Hp w). Qed.

Ltac safe_prim := first
  [ apply safe_silent; intros [? ? ? ? ? ? ? ?]; (split; [by eexists|by split])
  | apply safe_ret; intros ?; exact (λ H, H) ].
Ltac safe_step :=
  match goal with
  | |- safe _ (bind _ _) _ => apply safe_seq; [|intros ?]
  | |- safe _ (if ?b then _ else _) _ => destruct b eqn:?
  | |- safe _ (let '(_, _) := ?p in _) _ => destruct p eqn:?
  | |- safe _ (match ?x with _ => _ end) _ => destruct x eqn:?
  | _ => safe_prim
  end.

Lemma safe_time_Now P : safe P (time_Now now) (λ _, P).
Proof. unfold time_Now. repeat safe_step. Qed.

(** A storage call that returns and keeps the store usable. *)
Lemma safe_storage {A} P (f : S → S * outcome A) :
  (∀ s, usable s → usable (f s).1 ∧ (f s).2 ≠ Panicked) →
  safe P (s <- get wd_store ;; let '(s', o) := f s in upd_store s' ;;; lift o) (λ _, P).
Proof.
  intros Hf w Hu Hp. destruct (Hf (wd_store w) Hu) as [Hu' Ha]. unfold bind, get.
  destruct (f (wd_store w)) as [s' [a|e|]]; simpl in *; [by exists (Ok a)|by exists (Err e)|done].
Qed.

Lemma safe_GetMeta P k : safe P (storage_GetMeta now k) (λ r c, P c ∧ ∃ x, r = Ok x).
Proof.
  unfold storage_GetMeta. apply safe_seq; [safe_prim|intros _]. apply safe_seq; [apply safe_time_Now|intros ts].
  intros w Hu Hp. destruct (get_meta_total (wd_store w) ts k Hu) as [x Hx]. unfold bind, get. rewrite Hx.
  exists (Ok x). simpl. eauto.
Qed.

Lemma safe_GetVariant P k vk : safe P (storage_GetVariant now k vk) (λ _, P).
Proof.
  unfold storage_GetVariant. apply safe_seq; [safe_prim|intros _]. apply safe_seq; [apply safe_time_Now|intros ts].
  intros w Hu Hp. destruct (get_variant_total (wd_store w) ts k vk Hu) as [x Hx]. unfold bind, get. rewrite Hx.
  by exists (Ok x).
Qed.

Lemma safe_SetVariant P k m v b ttl : safe P (storage_SetVariant now k m v b ttl) (λ _, P).
Proof.
  unfold storage_SetVariant. apply safe_seq; [safe_prim|intros _]. apply safe_seq; [apply safe_time_Now|intros ts].
  apply (safe_storage P (λ s, SetVariant s ts k m v b ttl)). intros s Hu.
  by apply set_usable.
Qed.

Lemma safe_Purge P k soft : safe P (storage_Purge now k soft) (λ _, P).
Proof.
  unfold storage_Purge. apply safe_seq; [safe_prim|intros _]. apply safe_seq; [apply safe_time_Now|intros ts].
  apply (safe_storage P (λ s, Purge s ts k soft)). intros s Hu.
  destruct (purge_law s ts k soft Hu) as (? & [n Hn] & _). by rewrite Hn.
Qed.

Lemma safe_origin_record P r : safe P (origin_record next r) (λ _, P).
Proof. unfold origin_record. repeat safe_step. Qed.

Ltac safe_known := first
  [ apply safe_time_Now | apply safe_GetVariant | apply safe_SetVariant | apply safe_Purge
  | apply safe_origin_record ].
Ltac safe_auto := repeat first [safe_known | safe_step].
Ltac unfold_writers := unfold recordRequest, copyProtoHeaders, set_age, w_header, w_write_header, w_write,
  w_error, write_response, gateway_timeout, bypass.

Lemma safe_emitCacheStatus P a b : safe P (emitCacheStatus t a b) (λ _, P).
Proof. unfold emitCacheStatus, w_header. safe_auto. Qed.

Lemma safe_processESI P body frags code a b : safe P (processESI t body frags code a b) (λ _, P).
Proof.
  unfold processESI, w_header, w_write_header, w_write. rewrite no_esi.
  apply safe_seq; [safe_prim|intros r]. apply safe_seq; [safe_auto|intros p].
  apply safe_seq; [apply safe_emitCacheStatus|intros _]. safe_auto.
Qed.

Lemma safe_inspectESI P h body : safe P (inspectAndPrepareESI t h body) (λ _, P).
Proof. unfold inspectAndPrepareESI. rewrite no_esi. safe_auto. Qed.

Lemma safe_adjustESI P v : safe P (adjustESIHeaders t v) (λ _, P).
Proof. unfold adjustESIHeaders. rewrite no_esi. safe_auto. Qed.

Lemma safe_loadDecompressed P : safe P (loadDecompressed t now) (λ _, P).
Proof. unfold loadDecompressed. safe_auto. Qed.

Lemma safe_freshness_of P code h1 h2 t1 t2 : safe P (freshness_of now code h1 h2 t1 t2) (λ _, P).
Proof. unfold freshness_of. safe_auto. Qed.

Lemma safe_save P pk vk code r h body frags f rt :
  safe P (saveVariantToStorage t now pk vk code r h body frags f rt) (λ _, P).
Proof. unfold saveVariantToStorage. safe_auto. Qed.

Lemma safe_spawnSWR P : safe P spawnSWR (λ _, P).
Proof. unfold spawnSWR. safe_auto. Qed.

(** The variants of an entry have headers: their maps are not nil. *)
Definition meta_headed (m : CacheMetadata) : Prop := ∀ vk v, Variants m !! vk = Some v → headed v.
Definition matched (c : requestContext) : Prop := is_Some (cx_meta c) ∧ ∃ v, varInfo c = Some v ∧ headed v.

(** What each state needs of the context; the lookup comes before, the bypass state is not reached. *)
Definition pre (s : stateFn) (c : requestContext) : Prop :=
  match s with
  | stateMatchVariant => ∃ m, cx_meta c = Some m ∧ meta_headed m
  | stateEvaluateFreshness | stateServe304 | stateServeCachedHit | stateServeSWR
  | stateFetchOriginRevalidate => matched c
  | stateBypassOrigin | stateCheckBypass | stateLookupMetadata => False
  | _ => True
  end.
Definition post (o : option stateFn) (c : requestContext) : Prop := ∀ s', o = Some s' → pre s' c.

Lemma safe_stop (P : requestContext → Prop) : safe P (ret None) post.
Proof. apply safe_ret. by intros c _ s'. Qed.
Lemma safe_goto (P : requestContext → Prop) s : (∀ c, P c → pre s c) → safe P (ret (Some s)) post.
Proof. intros H. apply safe_ret. intros c Hc s' [= <-]. by apply H. Qed.

Ltac safe_helpers := first
  [ apply safe_emitCacheStatus | apply safe_processESI | apply safe_inspectESI | apply safe_adjustESI
  | apply safe_loadDecompressed | apply safe_freshness_of | apply safe_save | apply safe_spawnSWR
  | safe_known ].
Ltac safe_end := first [apply safe_stop | apply safe_goto; done].
Ltac safe_all := repeat first [safe_end | safe_helpers | safe_step].

(** The lookup, on a store whose variants all have headers. *)
Lemma lookup_safe {SI : StorageInv S} w :
  usable (wd_store w) → all_variants headed (wd_store w) →
  ∃ o, (run_LookupMetadata t now w).2 = Some o ∧ usable (wd_store (run_LookupMetadata t now w).1) ∧
       post o (wd_ctx (run_LookupMetadata t now w).1).
Proof.
  intros Hu Hh. unfold run_LookupMetadata. do 2 (erewrite bind_run; [|reflexivity]).
  set (k := generatePrimaryKey _ _).
  destruct (get_meta_total (wd_store w) (now (wd_tick w)) k Hu) as [x Hx].
  assert (∀ m b, x = Some (m, b) → meta_headed m) as Hm by (intros m b -> vk v; by eapply inv_get).
  erewrite bind_run.
  2: { unfold storage_GetMeta, time_Now, next_tick, bind, emit, get, upd_ctx, ret. simpl. rewrite Hx. reflexivity. }
  assert (safe (λ _, True) (match x with
    | None => upd_ctx (set_meta None false) ;;; ctx <- get wd_ctx ;;
        if only_if_cached ctx then gateway_timeout t rfc9211MissOnlyIfCached
        else upd_ctx (set_isVaryMiss false) ;;; ret (Some stateFetchOriginMiss)
    | Some (m, soft) => upd_ctx (set_meta (Some m) soft) ;;; ret (Some stateMatchVariant) end : M S (option stateFn)) post)
    as Hrest; [|by apply Hrest].
  destruct x as [[m soft]|].
  - eapply (safe_bind _ _ _ (λ _, pre stateMatchVariant)); [apply safe_upd_ctx; intros c _; simpl; eauto|intros _].
    by apply safe_goto.
  - unfold_writers. apply safe_seq; [by apply safe_upd_ctx|intros _]. apply safe_get_ctx. intros c _.
    case_if; [safe_all|]. eapply (safe_bind _ _ _ (λ _ _, True)); [by apply safe_upd_ctx|intros _; safe_all].
Qed.

Lemma safe_MatchVariant : safe (pre stateMatchVariant) (run_MatchVariant t) post.
Proof.
  unfold run_MatchVariant. unfold_writers. apply safe_get_ctx. intros c (m & Hm & Hh). rewrite Hm.
  set (vk := if is_nil _ then _ else _).
  eapply (safe_bind _ _ _ (λ _ c, is_Some (cx_meta c))).
  { apply safe_upd_ctx. intros c' ->. simpl. rewrite Hm. eauto. }
  intros _. destruct (Variants m !! vk) as [v|] eqn:Ev.
  - eapply (safe_bind _ _ _ (λ _, matched)).
    { apply safe_upd_ctx. intros c' Hc. split; [done|]. simpl. eauto. }
    intros _. by apply safe_goto.
  - case_if; [safe_all|].
    eapply (safe_bind _ _ _ (λ _ _, True)); [by apply safe_upd_ctx|intros _; safe_all].
Qed.

Lemma safe_Evaluate : safe (pre stateEvaluateFreshness) (run_EvaluateFreshness t now) post.
Proof.
  unfold run_EvaluateFreshness. unfold_writers. apply safe_seq; [apply safe_time_Now|intros ts].
  eapply (safe_bind _ _ _ (λ _, pre stateEvaluateFreshness)); [by apply safe_upd_ctx|intros _].
  apply safe_get_ctx. intros c [[m Hm] (v & Hv & Hn)].
  assert (∀ s, pre s = pre stateEvaluateFreshness ∨ pre s = (λ _, True) → safe (λ c', c' = c) (ret (Some s)) post)
    as Hgo. { intros s Hs. apply safe_goto. intros c' ->. destruct Hs as [->| ->]; [|done]. split; eauto. }
  rewrite Hm, Hv.
  repeat first [apply Hgo; (by left) || (by right) | safe_all].
Qed.

Lemma safe_Serve304 : safe (pre stateServe304) (run_Serve304 t) post.
Proof. unfold run_Serve304. unfold_writers. apply safe_get_ctx. intros c [[m Hm] (v & Hv & Hn)]. rewrite Hv. safe_all. Qed.

Lemma safe_Serve412 : safe (pre stateServe412) (run_Serve412 t) post.
Proof. unfold run_Serve412. unfold_writers. safe_all. Qed.

Lemma safe_CachedHit : safe (pre stateServeCachedHit) (run_ServeCachedHit t now) post.
Proof.
  unfold run_ServeCachedHit. unfold_writers. apply safe_get_ctx. intros c [[m Hm] (v & Hv & Hn)]. rewrite Hm, Hv. safe_all.
Qed.

Lemma safe_SWR : safe (pre stateServeSWR) (run_ServeSWR t now) post.
Proof. unfold run_ServeSWR. unfold_writers. apply safe_get_ctx. intros c [[m Hm] (v & Hv & Hn)]. rewrite Hv. safe_all. Qed.

Lemma safe_Miss : safe (pre stateFetchOriginMiss) (run_FetchOriginMiss t now next) post.
Proof. unfold run_FetchOriginMiss, answer_miss, serve_set_cookie, serve_event_stream. unfold_writers. safe_all. Qed.

Abbreviation anything := (λ (_ : fetchResult) (_ : requestContext), True).

Lemma safe_anything {A} P (m : M S A) Q : safe P m Q → safe P m (λ _ _, True).
Proof. by apply safe_post. Qed.

Lemma safe_handle_304 P ctx v body h t0 t1 :
  is_Some (cx_meta ctx) → headed v → safe P (handle_304 now ctx v body h t0 t1) anything.
Proof.
  intros [m Hm] Hh. unfold handle_304, merge_304. rewrite headed_not_nil by done. simpl.
  apply safe_seq; [safe_all|intros f]. apply safe_seq; [safe_all|intros closed]. rewrite Hm.
  case_if; [|by apply safe_ret].
  eapply (safe_bind _ _ _ (λ _ _, True)); [by apply safe_upd_ctx|intros _]. safe_all.
Qed.

Lemma safe_recheck P pk vk : safe P (recheck_storage now pk vk) (λ _, P).
Proof.
  unfold recheck_storage. apply safe_seq.
  - eapply safe_post; [|apply safe_GetMeta]. by intros a c [? _].
  - intros [[[m []]|]|e]; safe_all.
Qed.

Lemma safe_flight body : safe (pre stateFetchOriginRevalidate) (revalidate_flight t now next body) anything.
Proof.
  unfold revalidate_flight. apply safe_get_ctx. intros ctx [Hm (v & Hv & Hh)]. rewrite Hv.
  apply safe_seq; [apply safe_recheck|intros [res|]]; [by apply safe_ret|].
  apply safe_seq; [safe_all|intros t0]. apply safe_seq; [safe_all|intros [rec pn]].
  destruct pn; [by apply safe_ret|]. apply safe_seq; [safe_all|intros t1].
  repeat match goal with
  | |- safe _ (handle_304 _ _ _ _ _ _ _) _ =>
      apply safe_handle_304; [done|destruct (is_nil body); naive_solver]
  | |- safe _ (ret _) anything => by apply safe_ret
  | _ => first [safe_helpers | safe_step]
  end.
Qed.

Lemma safe_serve_fetched P r res shared : safe P (serve_fetched t r res shared) post.
Proof. unfold serve_fetched. unfold_writers. safe_all. Qed.

Lemma safe_serve_fallback P r res fb shared : safe P (serve_fallback t now r res fb shared) (λ _, P).
Proof. unfold serve_fallback. unfold_writers. safe_all. Qed.

Lemma safe_Revalidate :
  safe (pre stateFetchOriginRevalidate) (run_FetchOriginRevalidate t now next joined waiters) post.
Proof.
  unfold run_FetchOriginRevalidate, serve_flight. apply safe_get_ctx. intros ctx Hc.
  apply safe_seq; [safe_all|intros body].
  eapply (safe_bind _ _ _ (λ _ _, True)).
  { destruct joined; [by apply safe_ret|]. eapply (safe_bind _ _ _ anything); [|intros res; by apply safe_ret].
    intros w Hu Hw. apply (safe_flight body w Hu). by rewrite Hw. }
  intros [res shared]. simpl. destruct (if _ || _ then _ else _) as [fb|]; [|apply safe_serve_fetched].
  apply safe_seq; [apply safe_serve_fallback|intros []]; [apply safe_stop|apply safe_serve_fetched].
Qed.

Lemma safe_state s : safe (pre s) (run_state t now next joined waiters s) post.
Proof.
  destruct s; simpl;
    [by intros w _ []|by intros w _ []|apply safe_MatchVariant|apply safe_Evaluate|apply safe_Serve304|apply safe_Serve412
    |apply safe_CachedHit|apply safe_SWR|apply safe_Miss|apply safe_Revalidate|by intros w _ []].
Qed.

Lemma safe_machine fuel s :
  safe (pre s) (run_machine t now next joined waiters fuel s) (λ _ _, True).
Proof.
  revert s. induction fuel as [|fuel IH]; intros s; [by apply safe_ret|]. simpl.
  eapply safe_bind; [apply safe_state|]. intros [s'|]; [|by apply safe_ret].
  intros w Hu Hp. apply IH; [done|]. by apply Hp.
Qed.

Lemma usable_purge s ts k soft : usable s → usable (Purge s ts k soft).1.
Proof. intros Hu. by destruct (purge_law s ts k soft Hu). Qed.
Lemma usable_pattern s ts p soft : usable s → usable (PurgeByPattern s ts p soft).1.
Proof. intros Hu. by destruct (pattern_law s ts p soft Hu). Qed.

Lemma surjective_out {A} (m : M S A) w a : (m w).2 = Some a → m w = ((m w).1, Some a).
Proof. intros <-. by destruct (m w). Qed.

(** C5: panics of the origin are contained: with ESI off, on a usable store whose variants all have
    headers, every request that the cache handles itself (a lookup, or a mutating request)
    returns normally, whatever the origin does, panics included; and the store stays usable.
    (A variant without headers is excluded for the lookups: a 304 for it panics in the middleware
    itself, see [nil_headers_304_panics].) *)
Theorem origin_panic_contained {SI : StorageInv S} r (w : World S) :
  usable (wd_store w) → (classify (t_config t) r = VLookup → all_variants headed (wd_store w)) →
  classify (t_config t) r ≠ VBypass →
  (ServeHTTP t now next joined waiters r w).2 = Some true ∧
  usable (wd_store (ServeHTTP t now next joined waiters r w).1).
Proof.
  intros Hu Hh Hc. destruct (classify (t_config t) r) eqn:Ec; [done| |].
  - rewrite serve_start. set (w0 := at_ _ _ _ _ _ _ _).
    destruct (CheckBypass_mutating t now next r w0 eq_refl Ec) as (w' & Hrun & Hs).
    rewrite (machine_step _ _ _ _ _ _ stateCheckBypass _ _ _ Hrun). split; [done|]. cbn [fst]. rewrite Hs.
    set (w1 := at_ w0 _ _ _ _ _ _).
    by destruct (kok_handleMutating t now next usable usable_purge usable_pattern r w1 Hu) as (_ & _ & _ & ? & _).
  - pose proof (machine_ok (SI := trivial_inv) t now next joined waiters (λ _, True) (λ _, True) r w) as Ht.
    destruct Ht as (_ & _ & _ & _ & Ht); [by split; [|split; [|split]]|].
    rewrite serve_lookup in * by done. set (w0 := at_ _ _ _ _ _ _ _) in *.
    destruct (lookup_safe w0 Hu (Hh eq_refl)) as (o & Ho & Hu1 & Hpost).
    rewrite (machine_step t now next joined waiters 5 stateLookupMetadata w0 _ o (surjective_out _ w0 o Ho)) in *.
    destruct o as [s'|]; [|done].
    destruct (safe_machine 5 s' _ Hu1 (Hpost s' eq_refl)) as (b & Hb & Hu' & _).
    split; [|done]. rewrite Hb. by rewrite (Ht b Hb).
Qed.
End Safe.

(** ** Mutating requests invalidate their URL *)
Section Mutation.
Context {E : GoEnv} {CO : CacheObject} {S : Type} {St : Storage S} {SL : StorageLaws S}.
Context (t : Titip) (now : nat → Z) (next : nat → Request → Writer → Writer * bool).
Context (joined : option fetchResult) (waiters : bool).

(** No entry under [k] at the time [ts], until something is stored. *)
Definition gone (ts : Z) (k : str) (s : S) : Prop := usable s ∧ GetMeta s ts k = Ret None.

Lemma gone_purge ts k s t0 k' soft : gone ts k s → gone ts k (Purge s t0 k' soft).1.
Proof.
  intros [Hu Hg]. destruct (purge_law s t0 k' soft Hu) as (Hu' & _ & Hp). split; [done|]. apply Hp. auto.
Qed.
Lemma gone_pattern ts k s t0 p soft : gone ts k s → gone ts k (PurgeByPattern s t0 p soft).1.
Proof.
  intros [Hu Hg]. destruct (pattern_law s t0 p soft Hu) as (Hu' & _ & Hp). split; [done|]. apply Hp. auto.
Qed.

(** A purge operation reaches a key. *)
Definition purge_reaches (isExact : bool) (keys : list str) (k : str) : Prop :=
  if isExact then head keys = Some k else ∃ p, p ∈ keys ∧ pattern_matches p k = true.

Lemma bind_inv {A C} (K : S → Prop) (m : M S A) (f : A → M S C) (w : World S) :
  K (wd_store (m w).1) → (∀ a, ok (store_inv K) (λ _, True) (f a) (λ _, True)) → K (wd_store (bind m f w).1).
Proof.
  intros Hm Hf. unfold bind. destruct (m w) as [w' [a|]]; [|done]. by destruct (Hf a w' Hm) as (_ & _ & _ & ? & _).
Qed.

Lemma purge_establishes ts k (w : World S) :
  usable (wd_store w) → (now (wd_tick w) ≤ ts)%Z → gone ts k (wd_store (storage_Purge now k false w).1).
Proof.
  intros Hu Hts. unfold storage_Purge, bind, emit, get. simpl.
  destruct (purge_law (wd_store w) (now (wd_tick w)) k false Hu) as (Hu' & [n Hn] & Hp).
  destruct (Purge (wd_store w) (now (wd_tick w)) k false) as [s' o]. simpl in *. subst o. simpl. split; [done|].
  apply Hp. right. by rewrite str_eqb_refl.
Qed.

Lemma pattern_establishes ts k ty label ps n (w : World S) :
  usable (wd_store w) → (∀ i, (i < length ps)%nat → (now (i + wd_tick w)%nat ≤ ts)%Z) → (∃ p, p ∈ ps ∧ pattern_matches p k = true) →
  gone ts k (wd_store (purge_patterns now ty label false ps n w).1).
Proof.
  revert n w. induction ps as [|p ps IH]; intros n w Hu Hts (q & Hq & Hm); [by apply not_elem_of_nil in Hq|]. simpl.
  destruct (pattern_law (wd_store w) (now (wd_tick w)) p false Hu) as (Hu' & [c Hc] & Hp).
  destruct (PurgeByPattern (wd_store w) (now (wd_tick w)) p false) as [s' o] eqn:Hs. simpl in *. subst o.
  unfold bind at 1. unfold storage_PurgeByPattern, time_Now, next_tick, bind, emit, get, ret. simpl. rewrite Hs. simpl.
  apply elem_of_cons in Hq as [->|Hq].
  2: { apply IH; [done| |eauto]. simpl. intros i Hi. specialize (Hts (Datatypes.S i)). rewrite Nat.add_succ_r. apply Hts. lia. }
  set (w' := mkWorld _ _ _ _ _ _ _ _). assert (gone ts k (wd_store w')) as Hg.
  { split; [done|]. apply Hp. right. split; [done|]. split; [done|]. apply (Hts 0%nat). lia. }
  destruct (kok_purge_patterns now (gone ts k) (gone_pattern ts k) ty label false ps (wrap64 (n + c)) w' Hg)
    as (_ & _ & _ & ? & _). done.
Qed.

Lemma titip_Purge_establishes ts target ex keys k (w : World S) :
  buildPurgeOperation target (Some (cacheKey (t_config t))) = Ret (ex, keys) → purge_reaches ex keys k →
  usable (wd_store w) → (∀ i, (i < length keys)%nat → (now (i + wd_tick w)%nat ≤ ts)%Z) →
  gone ts k (wd_store (titip_Purge t now target false w).1).
Proof.
  intros Hb Hr Hu Hts. unfold titip_Purge. rewrite Hb. destruct keys as [|key keys].
  { destruct ex; [done|]. destruct Hr as (p & Hp & _). by apply not_elem_of_nil in Hp. }
  destruct ex; simpl in Hr.
  - injection Hr as ->. apply bind_inv; [apply purge_establishes; [done|]; apply (Hts 0%nat); simpl; lia|]. intros a. apply kok_purged_result.
  - by apply pattern_establishes.
Qed.

Lemma handleMutating_establishes ts r u rec ex keys k (w : World S) :
  usable (wd_store w) → autoInvalidateMutatingMethods (t_config t) = true →
  r_URL r = Some u → next (wd_calls w) r new_writer = (rec, false) →
  (200 ≤ rec_Code rec < 400)%Z →
  buildPurgeOperation (mutating_target r u) (Some (cacheKey (t_config t))) = Ret (ex, keys) →
  purge_reaches ex keys k → (∀ i, (i < length keys)%nat → (now (i + wd_tick w)%nat ≤ ts)%Z) →
  gone ts k (wd_store (handleMutatingRequest t now next r w).1).
Proof.
  intros Hu Ha Hurl Hor Hcode Hb Hr Hts. unfold handleMutatingRequest. rewrite Ha. simpl.
  erewrite bind_run; [|reflexivity]. simpl. rewrite Hor. erewrite bind_run; [|reflexivity].
  erewrite bind_run; [|reflexivity].
  assert ((200 <=? rec_Code rec)%Z && (rec_Code rec <? 400)%Z = true) as -> by lia. rewrite Hurl.
  destruct (is_nil (w_Body rec)); (erewrite bind_run; [|reflexivity]); (apply bind_inv;
    [by eapply titip_Purge_establishes
    |intros a; apply ok_seq; intros; apply kok_purge_location; first [apply gone_purge|apply gone_pattern]]).
Qed.

(** A mutating request leaves nothing under the keys that its purge reaches. *)
Lemma mutation_gone ts r u rec ex keys k (w : World S) :
  usable (wd_store w) → classify (t_config t) r = VMutating →
  autoInvalidateMutatingMethods (t_config t) = true → r_URL r = Some u →
  next (wd_calls w) r new_writer = (rec, false) → (200 ≤ rec_Code rec < 400)%Z →
  buildPurgeOperation (mutating_target r u) (Some (cacheKey (t_config t))) = Ret (ex, keys) →
  purge_reaches ex keys k → (∀ i, (i < length keys)%nat → (now (1 + i + wd_tick w)%nat ≤ ts)%Z) →
  gone ts k (wd_store (ServeHTTP t now next joined waiters r w).1).
Proof.
  intros Hu Hc Ha Hurl Hor Hcode Hb Hr Hts. rewrite serve_start. set (w0 := at_ _ _ _ _ _ _ _).
  destruct (CheckBypass_mutating t now next r w0 eq_refl Hc) as (w' & Hrun & Hs).
  rewrite (machine_step _ _ _ _ _ _ stateCheckBypass _ _ _ Hrun). cbn [fst]. rewrite Hs.
  eapply handleMutating_establishes; try done. intros i Hi. specialize (Hts i Hi).
  simpl. by rewrite Nat.add_succ_r.
Qed.

(** C2: a successful mutating request invalidates its own URL: when
    invalidation is on and the origin answered a POST, PUT, DELETE or PATCH
    with a 2xx or 3xx status, no entry is left under any key that the purge of the
    request's URL addresses, from the time of the purge on, so that the next
    lookup of it goes to the origin. *)
Theorem mutation_invalidates r u rec ex keys k (w : World S) :
  usable (wd_store w) → classify (t_config t) r = VMutating →
  autoInvalidateMutatingMethods (t_config t) = true → r_URL r = Some u →
  next (wd_calls w) r new_writer = (rec, false) → (200 ≤ rec_Code rec < 400)%Z →
  buildPurgeOperation (mutating_target r u) (Some (cacheKey (t_config t))) = Ret (ex, keys) →
  purge_reaches ex keys k →
  ∀ ts, (∀ i, (i < length keys)%nat → (now (1 + i + wd_tick w)%nat ≤ ts)%Z) →
    GetMeta (wd_store (ServeHTTP t now next joined waiters r w).1) ts k = Ret None.
Proof. intros Hu Hc Ha Hurl Hor Hcode Hb Hr ts Hts. by eapply mutation_gone. Qed.
End Mutation.
