(* ===== verification/Served.v ===== *)
(** * What a shared revalidation leaves behind

    Facts about the end of the pipeline that [Coalesce] uses: a request revalidates only with an entry
    and a variant in its context; the function of a flight changes neither the keys nor the variant
    there; and what comes after the flight never panics, and answers the client. *)

From S2P Require Import Prelude GoStrings GoHttp Env Headers Freshness CacheKey Storage Purge Scanner Esi Compress Config Handler HandlerLogic HandlerRun HandlerSafety.
#[local] Open Scope handler_scope.
#[local] Unset Default Proof Using.

(** An entry and a variant to revalidate. *)
Definition has_entry (c : requestContext) : Prop := is_Some (cx_meta c) ∧ is_Some (varInfo c).

(** What holds of the context when the machine enters a state. *)
Definition arrives (s : stateFn) (c : requestContext) : Prop :=
  match s with
  | stateEvaluateFreshness | stateServe304 | stateServeCachedHit | stateServeSWR | stateFetchOriginRevalidate => has_entry c
  | _ => True
  end.

Section Arrival.
Context {E : GoEnv} {CO : CacheObject} {S : Type} {St : Storage S}.
Context (t : Titip) (now : nat → Z) (next : nat → Request → Writer → Writer * bool).

(** When [m] returns, its value and the context satisfy [R]. *)
Definition part {A} (P : requestContext → Prop) (m : M S A) (R : A → requestContext → Prop) : Prop :=
  ∀ w a, P (wd_ctx w) → (m w).2 = Some a → R a (wd_ctx (m w).1).

Lemma part_ret {A} P (a : A) (R : A → requestContext → Prop) : (∀ c, P c → R a c) → part P (ret a) R.
Proof. intros H w b Hp [= <-]. by apply H. Qed.
Lemma part_panic {A} P (R : A → requestContext → Prop) : part P panic R.
Proof. done. Qed.
Lemma part_bind {A C} P (m : M S A) (f : A → M S C) Q R : part P m Q → (∀ a, part (Q a) (f a) R) → part P (bind m f) R.
Proof.
  intros Hm Hf w b Hp. specialize (Hm w). unfold bind. destruct (m w) as [w' [a|]]; simpl in *; [|done]. apply Hf. by apply Hm.
Qed.
Lemma part_tail {A C} P (m : M S A) (f : A → M S C) R : (∀ a, part (λ _, True) (f a) R) → part P (bind m f) R.
Proof. intros Hf. by eapply (part_bind _ _ _ (λ _ _, True)). Qed.
Lemma part_recovering {A} P (m h : M S A) R : part P m R → part (λ _, True) h R → part P (recovering m h) R.
Proof.
  intros Hm Hh w a Hp. specialize (Hm w). unfold recovering. destruct (m w) as [w' [b|]]; simpl in *; [|by apply Hh].
  intros [= <-]. by apply Hm.
Qed.
Lemma part_get_ctx {A} P (f : requestContext → M S A) R :
  (∀ c, P c → part (λ c', c' = c) (f c) R) → part P (bind (get wd_ctx) f) R.
Proof. intros H w a Hp. by apply (H (wd_ctx w) Hp w). Qed.
Lemma part_upd_ctx {C} P f (k : M S C) Q R : (∀ c, P c → Q (f c)) → part Q k R → part P (bind (upd_ctx f) (λ _, k)) R.
Proof. intros Hf Hk. eapply (part_bind _ _ _ (λ _, Q)); [|done]. intros w a Hp _. by apply Hf. Qed.

Definition entered (o : option stateFn) (c : requestContext) : Prop := ∀ s', o = Some s' → arrives s' c.

(** A state that goes on, if at all, to one that needs no entry. *)
Ltac part_go :=
  repeat match goal with
  | |- part _ (bind _ _) _ => apply part_tail; intros ?
  | |- part _ (if ?b then _ else _) _ => destruct b
  | |- part _ (let '(_, _) := ?p in _) _ => destruct p
  | |- part _ (match ?x with _ => _ end) _ => destruct x
  | |- part _ panic _ => apply part_panic
  | |- part _ (ret _) _ => apply part_ret; let H := fresh in intros ? _ ? H; first [discriminate H | injection H as <-; exact I]
  end.

Lemma part_any P (m : M S (option stateFn)) : part (λ _, True) m entered → part P m entered.
Proof. intros H w a _. by apply H. Qed.

Lemma part_state s :
  s ≠ stateFetchOriginRevalidate → part (arrives s) (run_state t now next None false s) entered.
Proof.
  intros Hs. destruct s; [| | | | | | | | |done|]; cbn [run_state].
  - apply part_any. unfold run_CheckBypass. apply part_recovering; unfold check_client_directives, bypass; part_go.
  - apply part_any. unfold run_LookupMetadata, gateway_timeout. part_go.
  - unfold run_MatchVariant, gateway_timeout. apply part_get_ctx. intros c _. destruct (cx_meta c) as [m|] eqn:Em; [|apply part_panic].
    apply (part_upd_ctx _ _ _ (λ c', cx_meta c' = Some m)); [by intros c' ->|].
    destruct (Variants m !! _) as [v|]; [|part_go].
    apply (part_upd_ctx _ _ _ has_entry); [|by apply part_ret; intros c' Hc s' [= <-]].
    intros c' Hc. split; [simpl; by rewrite Hc|by eexists].
  - unfold run_EvaluateFreshness, gateway_timeout. eapply (part_bind _ _ _ (λ _, has_entry)).
    { intros w a Hp _. exact Hp. }
    intros ts. apply (part_upd_ctx _ _ _ has_entry); [done|]. apply part_get_ctx. intros c Hc.
    assert (∀ s', s' = stateServe304 ∨ s' = stateServe412 ∨ s' = stateServeCachedHit ∨ s' = stateServeSWR ∨ s' = stateFetchOriginRevalidate →
      part (λ c', c' = c) (ret (Some s') : M S _) entered) as Hgo.
    { intros s' Hs'. apply part_ret. intros c' -> s2 [= <-]. by destruct Hs' as [->|[->|[->|[->| ->]]]]. }
    repeat match goal with
    | |- part _ (if ?b then _ else _) _ => destruct b
    | |- part _ (match ?x with _ => _ end) _ => destruct x
    | |- part _ (ret (Some _)) _ => apply Hgo; auto 6
    | _ => part_go
    end.
  - apply part_any. unfold run_Serve304. part_go.
  - apply part_any. unfold run_Serve412. part_go.
  - apply part_any. unfold run_ServeCachedHit. part_go.
  - apply part_any. unfold run_ServeSWR. part_go.
  - apply part_any. unfold run_FetchOriginMiss, answer_miss, serve_set_cookie, serve_event_stream, write_response. part_go.
  - apply part_any. unfold run_BypassOrigin. part_go.
Qed.
End Arrival.

(** ** The function of a flight *)
Section Flight.
Context {E : GoEnv} {CO : CacheObject} {S : Type} {St : Storage S}.
Context (t : Titip) (now : nat → Z) (next : nat → Request → Writer → Writer * bool).
Context (K : requestContext → Prop) (Km : ∀ c m b, K c → K (set_meta (Some m) b c)).

(** It keeps every property of the context that new metadata keep. *)
Abbreviation KEEPS m := (ok (λ w : World S, K (wd_ctx w)) (λ _, True) m (λ _, True)).

Lemma keep_silent {A} (m : M S A) : (∀ w, wd_trace (m w).1 = wd_trace w ∧ wd_ctx (m w).1 = wd_ctx w) → KEEPS m.
Proof. intros H. apply ok_silent. intros w Hw. destruct (H w) as [? ->]. done. Qed.
Lemma keep_emit e : KEEPS (emit e).
Proof. intros w Hw. exists [e]. simpl. repeat split; [by apply Forall_singleton|done]. Qed.
Lemma keep_meta m b : KEEPS (upd_ctx (set_meta (Some m) b)).
Proof. apply ok_silent. intros w Hw. split; [done|]. split; [by apply Km|done]. Qed.

Ltac keep_step :=
  match goal with
  | |- ok _ _ (bind _ _) _ => apply ok_seq; [|intros ?]
  | |- ok _ _ (if ?b then _ else _) _ => destruct b
  | |- ok _ _ (let '(_, _) := ?p in _) _ => destruct p
  | |- ok _ _ (match ?x with _ => _ end) _ => destruct x
  | |- ok _ _ (emit _) _ => apply keep_emit
  | |- ok _ _ (upd_ctx _) _ => apply keep_meta
  | |- ok _ _ panic _ => apply ok_panic
  | _ => apply keep_silent; intros ?; split; reflexivity
  end.

Lemma flight_keeps body : KEEPS (revalidate_flight t now next body).
Proof.
  unfold revalidate_flight, recheck_storage, handle_304, inspectAndPrepareESI, freshness_of, saveVariantToStorage,
    storage_GetMeta, storage_GetVariant, storage_SetVariant, origin_record, time_Now, lift.
  repeat keep_step.
Qed.

Lemma flight_keeps_ctx body w : K (wd_ctx w) → K (wd_ctx (revalidate_flight t now next body w).1).
Proof. intros Hw. by destruct (flight_keeps body w Hw) as (_ & _ & _ & ? & _). Qed.
End Flight.

(** ** After the flight *)
Section After.
Context {E : GoEnv} {CO : CacheObject} {S : Type} {St : Storage S}.
Context (t : Titip) (now : nat → Z).

(** The response has been started. *)
Definition sent (w : World S) : Prop := is_Some (w_sent (wd_w w)).

(** [m] returns; it takes nothing back of a response; and it starts one, for the values in [Q]. *)
Definition total {A} (m : M S A) : Prop := ∀ w, is_Some (m w).2.
Definition stays {A} (m : M S A) : Prop := ∀ w, sent w → sent (m w).1.
Definition sends {A} (m : M S A) (Q : A → Prop) : Prop := ∀ w a, (m w).2 = Some a → Q a → sent (m w).1.

Lemma total_bind {A C} (m : M S A) (f : A → M S C) : total m → (∀ a, total (f a)) → total (bind m f).
Proof. intros Hm Hf w. unfold bind. destruct (Hm w) as [a Ha]. destruct (m w) as [w' o]. simpl in Ha. subst. apply Hf. Qed.
Lemma stays_bind {A C} (m : M S A) (f : A → M S C) : stays m → (∀ a, stays (f a)) → stays (bind m f).
Proof. intros Hm Hf w Hw. specialize (Hm w Hw). unfold bind. destruct (m w) as [w' [a|]]; [by apply Hf|done]. Qed.
Lemma sends_first {A C} (m : M S A) (f : A → M S C) Q : sends m (λ _, True) → (∀ a, stays (f a)) → sends (bind m f) Q.
Proof.
  intros Hm Hf w b. specialize (Hm w). unfold bind. destruct (m w) as [w' [a|]]; [|done]. intros _ _. apply Hf. by eapply Hm.
Qed.
Lemma sends_then {A C} (m : M S A) (f : A → M S C) Q : (∀ a, sends (f a) Q) → sends (bind m f) Q.
Proof. intros Hf w b. unfold bind. destruct (m w) as [w' [a|]]; [|done]. apply Hf. Qed.

Lemma Write_sent wr b : is_Some (w_sent (Write wr b)).
Proof. unfold Write, WriteHeader. by destruct (w_sent wr) eqn:Ew; simpl; rewrite ?Ew. Qed.
Lemma WriteHeader_sent wr c : is_Some (w_sent (WriteHeader wr c)).
Proof. unfold WriteHeader. by destruct (w_sent wr) eqn:Ew; simpl; rewrite ?Ew. Qed.

Lemma stays_w_write b : stays (w_write b).
Proof. intros w _. apply Write_sent. Qed.
Lemma sends_w_write_header c Q : sends (w_write_header c) Q.
Proof. intros w a _ _. apply WriteHeader_sent. Qed.

Ltac unfold_end := unfold processESI, write_response, adjustESIHeaders, recordRequest, emitCacheStatus, copyProtoHeaders,
  set_age, time_Now.
Ltac total_go := unfold_end; repeat match goal with
  | |- total (bind _ _) => apply total_bind; [|intros ?]
  | |- total (if ?b then _ else _) => destruct b
  | |- total (match ?x with _ => _ end) => destruct x
  | _ => intros ?; eexists; reflexivity
  end.
Ltac stays_go := unfold_end; repeat match goal with
  | |- stays (bind _ _) => apply stays_bind; [|intros ?]
  | |- stays (if ?b then _ else _) => destruct b
  | |- stays (match ?x with _ => _ end) => destruct x
  | |- stays (w_write _) => apply stays_w_write
  | |- stays (w_write_header _) => intros ? _; apply WriteHeader_sent
  | _ => intros ? ?; done
  end.
Lemma sends_write_response r code body Q : sends (write_response r code body) Q.
Proof. unfold write_response. apply sends_first; [apply sends_w_write_header|intros _; stays_go]. Qed.

Lemma sends_processESI body fr code a b Q : sends (processESI t body fr code a b) Q.
Proof.
  unfold processESI. do 3 (apply sends_then; intros ?). apply sends_first; [apply sends_w_write_header|intros _; stays_go].
Qed.

Lemma total_serve_fetched r res shared : total (serve_fetched t r res shared).
Proof. unfold serve_fetched. total_go. Qed.
Lemma total_serve_fallback r res fb shared : total (serve_fallback t now r res fb shared).
Proof. unfold serve_fallback. total_go. Qed.

(** Whatever a flight returned, its callers return. *)
Lemma total_serve_flight r res shared : total (serve_flight t now r res shared).
Proof.
  unfold serve_flight. destruct (if _ || _ then _ else _); [|apply total_serve_fetched].
  apply total_bind; [apply total_serve_fallback|intros []; [by eexists|apply total_serve_fetched]].
Qed.

Lemma sends_serve_fetched r res shared Q : fx_statusCode res ≠ 0%Z → sends (serve_fetched t r res shared) Q.
Proof.
  intros Hc. unfold serve_fetched. destruct (negb (is_nil (fx_fragments res))).
  - do 2 (apply sends_then; intros ?). apply sends_first; [apply sends_processESI|intros ?; stays_go].
  - apply Z.eqb_neq in Hc. rewrite Hc. simpl. do 3 (apply sends_then; intros ?). apply sends_write_response.
Qed.

Lemma stays_serve_fetched r res shared : stays (serve_fetched t r res shared).
Proof. unfold serve_fetched. stays_go. Qed.

(** Look for the call that starts the response; what comes after takes nothing back. *)
Ltac send := first
  [ apply sends_w_write_header | apply sends_processESI | (let H := fresh in intros ? ? H ?; injection H as <-; done)
  | match goal with
    | |- sends (if ?b then _ else _) _ => destruct b; send
    | |- sends (match ?x with _ => _ end) _ => destruct x; send
    end
  | apply sends_first; [solve [send]|intros ?; stays_go]
  | apply sends_then; intros ?; send ].

Lemma sends_serve_fallback r res fb shared : sends (serve_fallback t now r res fb shared) (λ b, b = true).
Proof. unfold serve_fallback. send. Qed.

(** The answer of a flight with a status reaches each of its callers. *)
Lemma sends_serve_flight r res shared :
  fx_statusCode res ≠ 0%Z → sends (serve_flight t now r res shared) (λ _, True).
Proof.
  intros Hc. unfold serve_flight. destruct (if _ || _ then _ else _) as [fb|]; [|by apply sends_serve_fetched].
  intros w b. unfold bind. pose proof (sends_serve_fallback r res fb shared w) as Hs.
  destruct (serve_fallback _ _ _ _ _ _ w) as [w' [[]|]]; simpl in *; [|by apply (sends_serve_fetched r res shared (λ _, True))|done].
  intros _ _. by apply (Hs true).
Qed.
End After.
