(* ===== verification/Coalesce.v ===== *)
(** * Request coalescing ([stateFetchOriginRevalidate] of [src/handler.go])

    Concurrent requests that need the same revalidation share one flight.  Here many clients run
    the pipeline of [Handler] on one storage: [step] is one atomic action of one goroutine.
    A client's pipeline up to [singleflight.Do] is one step, the function of a flight another,
    the return of a flight a third, and the rest of each client's pipeline a fourth; any steps of
    other goroutines may come in between.  [singleflight.Do] shares calls as [DoChan] does (the class
    [SingleFlight] of [Flight]); a panic of the function is raised again in every caller. *)

From S2P Require Import Prelude GoStrings GoHttp Env Headers Freshness CacheKey Storage TestStore Purge Scanner Esi Flight Compress Config Handler HandlerLogic HandlerProps HandlerRun HandlerSafety Served.
#[local] Open Scope handler_scope.
#[local] Unset Default Proof Using.

(** ** Data *)

(** A flight: its function runs, it has a result ([None]: it panicked), the group has let go of it. *)
Inductive fstage := FRunning | FFinished (o : option fetchResult) | FReturned (o : option fetchResult).

(** [fl_dups]: the callers that joined. *)
Record flight := mkFlight { fl_key : str; fl_leader : nat; fl_dups : nat; fl_stage : fstage }.

(** A client waits in [Do] on a flight, with its key and the stale body it has read; or its
    pipeline is over, with the flight it was served from, if any ([ok]: it did not panic). *)
Inductive cphase := CWaits (c : nat) (key : str) (body : str) | CServed (c : option nat) (ok : bool).

Record client := mkClient { cl_ctx : requestContext; cl_w : Writer; cl_phase : cphase }.

(** The shared part of the world is in [sy_world]; its writer and its context are scratch.
    [sy_direct] counts the origin calls outside flights; [sy_log] keeps who was served from
    which flight, and whether it counted as shared. *)
Record system (S G : Type) := mkSystem {
  sy_world : World S;
  sy_group : G;
  sy_flights : gmap nat flight;
  sy_clients : gmap nat client;
  sy_next : nat;
  sy_direct : nat;
  sy_log : list (nat * nat * bool);
}.
Arguments mkSystem {S G}. Arguments sy_world {S G}. Arguments sy_group {S G}. Arguments sy_flights {S G}.
Arguments sy_clients {S G}. Arguments sy_next {S G}. Arguments sy_direct {S G}. Arguments sy_log {S G}.

Section Coalesce.
Context {E : GoEnv} {CO : CacheObject} {S : Type} {St : Storage S} {SF : SingleFlight}.
Context (t : Titip) (now : nat → Z) (next : nat → Request → Writer → Writer * bool).

(** ** Operations *)

(** The pipeline up to the state that revalidates: [true] when it gets there. *)
Fixpoint run_until (fuel : nat) (s : stateFn) : M S bool :=
  match s with
  | stateFetchOriginRevalidate => ret true
  | _ =>
    match fuel with
    | O => ret false
    | Datatypes.S fuel =>
        s' <- run_state t now next None false s ;;
        match s' with None => ret false | Some s' => run_until fuel s' end
    end
  end.

(** The stale body, read before [Do]. *)
Definition load_stale : M S str :=
  ctx <- get wd_ctx ;;
  match varInfo ctx with
  | None => ret []
  | Some _ =>
      res <- storage_GetVariant now (primaryKey ctx) (variantKey ctx) ;;
      ret (match res with Ok (Some (_, body)) => body | _ => [] end)
  end.

(** A request up to [Do]: [None] when it is over before. *)
Definition prologue (r : Request) : M S (option str) :=
  ts <- time_Now now ;;
  upd_ctx (λ _, acquireRequestContext r ts) ;;;
  reached <- run_until 7 stateCheckBypass ;;
  if reached : bool then body <- load_stale ;; ret (Some body) else ret None.

Definition sfKey (ctx : requestContext) : str := primaryKey ctx ++ B ":" ++ variantKey ctx.

(** The world as a client sees it. *)
Definition as_client (ctx : requestContext) (w : Writer) (wd : World S) : World S :=
  mkWorld (wd_store wd) (wd_tick wd) (wd_calls wd) w ctx (wd_closed wd) (wd_jobs wd) (wd_trace wd).

(** Another caller joins ([c.dups++]). *)
Definition joined_by_one (f : flight) : flight := mkFlight (fl_key f) (fl_leader f) (1 + fl_dups f) (fl_stage f).

(** [Do] of client [i], whose view is [w] and whose stale body is [body]. *)
Definition Do (i : nat) (w : World S) (body : str) (s : system S sf_group) : system S sf_group :=
  let key := sfKey (wd_ctx w) in
  let '(c, g) := sf_DoChan key (sy_next s) (sy_group s) in
  mkSystem w g
    (if decide (c = sy_next s) then <[c := mkFlight key i 0 FRunning]> (sy_flights s)
     else alter joined_by_one c (sy_flights s))
    (<[i := mkClient (wd_ctx w) (wd_w w) (CWaits c key body)]> (sy_clients s))
    (1 + sy_next s) (sy_direct s) (sy_log s).

(** A request arrives with a new writer. *)
Definition arrive (i : nat) (r : Request) (wr : Writer) (s : system S sf_group) : system S sf_group :=
  let w := as_client (wd_ctx (sy_world s)) wr (sy_world s) in
  match prologue r w with
  | (w', Some (Some body)) => Do i w' body s
  | (w', o) =>
      mkSystem w' (sy_group s) (sy_flights s)
        (<[i := mkClient (wd_ctx w') (wd_w w') (CServed None (match o with Some _ => true | None => false end))]>
           (sy_clients s))
        (sy_next s) (sy_direct s + (wd_calls w' - wd_calls w)) (sy_log s)
  end.

Definition set_stage (st : fstage) (f : flight) : flight := mkFlight (fl_key f) (fl_leader f) (fl_dups f) st.

(** The function of flight [c], run by its leader. *)
Definition run_flight (c : nat) (f : flight) (cl : client) (key body : str) (s : system S sf_group)
    : system S sf_group :=
  let '(w', o) := revalidate_flight t now next body (as_client (cl_ctx cl) (cl_w cl) (sy_world s)) in
  mkSystem w' (sy_group s) (<[c := set_stage (FFinished o) f]> (sy_flights s))
    (<[fl_leader f := mkClient (wd_ctx w') (wd_w w') (CWaits c key body)]> (sy_clients s))
    (sy_next s) (sy_direct s) (sy_log s).

(** The group forgets the call; no caller joins any more. *)
Definition return_flight (c : nat) (f : flight) (o : option fetchResult) (s : system S sf_group)
    : system S sf_group :=
  mkSystem (sy_world s) (sf_Returned c (sy_group s)) (<[c := set_stage (FReturned o) f]> (sy_flights s))
    (sy_clients s) (sy_next s) (sy_direct s) (sy_log s).

Definition shared_of (f : flight) : bool := (0 <? fl_dups f)%nat.

(** What comes after [Do] for client [i]. *)
Definition finish (i c : nat) (f : flight) (cl : client) (o : option fetchResult) (s : system S sf_group)
    : system S sf_group :=
  let w := as_client (cl_ctx cl) (cl_w cl) (sy_world s) in
  let '(w', r) := match o with
                  | Some res => serve_flight t now (cx_r (cl_ctx cl)) res (shared_of f) w
                  | None => panic w
                  end in
  mkSystem w' (sy_group s) (sy_flights s)
    (<[i := mkClient (wd_ctx w') (wd_w w') (CServed (Some c) (match r with Some _ => true | None => false end))]>
       (sy_clients s))
    (sy_next s) (sy_direct s) ((i, c, shared_of f) :: sy_log s).

(** Other goroutines: background jobs, purges, shutdown. *)
Inductive background (w : World S) : World S → Prop :=
  | bg_job : background w (run_job t now next w).1
  | bg_purge target soft : background w (titip_Purge t now target soft w).1
  | bg_prefix pre soft : background w (titip_PurgePrefix t now pre soft w).1
  | bg_tag tag soft : background w (titip_PurgeTag now tag soft w).1
  | bg_all : background w (titip_PurgeAll now w).1
  | bg_close : background w (titip_Close w).1.

Inductive step : system S sf_group → system S sf_group → Prop :=
  | step_arrive s i r wr :
      sy_clients s !! i = None → step s (arrive i r wr s)
  | step_run s c f cl key body :
      sy_flights s !! c = Some f → fl_stage f = FRunning →
      sy_clients s !! fl_leader f = Some cl → cl_phase cl = CWaits c key body →
      step s (run_flight c f cl key body s)
  | step_return s c f o :
      sy_flights s !! c = Some f → fl_stage f = FFinished o → step s (return_flight c f o s)
  | step_finish s i c f cl key body o :
      sy_clients s !! i = Some cl → cl_phase cl = CWaits c key body →
      sy_flights s !! c = Some f → fl_stage f = FReturned o →
      step s (finish i c f cl o s)
  | step_background s w' :
      background (sy_world s) w' →
      step s (mkSystem w' (sy_group s) (sy_flights s) (sy_clients s) (sy_next s)
                (sy_direct s + (wd_calls w' - wd_calls (sy_world s))) (sy_log s)).

Definition new_system (w : World S) : system S sf_group := mkSystem w sf_new ∅ ∅ 0 0 [].

Definition reachable (w : World S) : system S sf_group → Prop := rtc step (new_system w).

(** ** The invariant *)
Definition stage_open (st : fstage) : Prop := match st with FReturned _ => False | _ => True end.

(** A client that waits on a flight, or was served from it. *)
Definition of_flight (ph : cphase) : option nat := match ph with CWaits c _ _ => Some c | CServed c _ => c end.

Definition flight_ok (s : system S sf_group) (c : nat) (f : flight) : Prop :=
  (c < sy_next s)%nat ∧
  (stage_open (fl_stage f) → sf_current (sy_group s) (fl_key f) = Some c) ∧
  (fl_stage f = FRunning → ∃ cl body, sy_clients s !! fl_leader f = Some cl ∧ cl_phase cl = CWaits c (fl_key f) body).

Definition client_ok (s : system S sf_group) (i : nat) (cl : client) : Prop :=
  ∀ c, of_flight (cl_phase cl) = Some c → ∃ f, sy_flights s !! c = Some f ∧
    (i = fl_leader f ∨ 0 < fl_dups f)%nat ∧
    match cl_phase cl with
    | CWaits _ key _ => key = fl_key f ∧ sfKey (cl_ctx cl) = key ∧ has_entry (cl_ctx cl)
    | CServed _ _ => ∃ o, fl_stage f = FReturned o
    end.

Record Inv (s : system S sf_group) : Prop := {
  inv_flights : ∀ c f, sy_flights s !! c = Some f → flight_ok s c f;
  inv_current : ∀ k c, sf_current (sy_group s) k = Some c →
    ∃ f, sy_flights s !! c = Some f ∧ fl_key f = k ∧ stage_open (fl_stage f);
  inv_clients : ∀ i cl, sy_clients s !! i = Some cl → client_ok s i cl;
  inv_log : ∀ i c b, (i, c, b) ∈ sy_log s → ∃ f cl o, sy_flights s !! c = Some f ∧ fl_stage f = FReturned o ∧
    b = shared_of f ∧ sy_clients s !! i = Some cl ∧ of_flight (cl_phase cl) = Some c;
}.

Lemma system_Inv_new w : Inv (new_system w).
Proof.
  split; simpl.
  - intros c f H. by rewrite lookup_empty in H.
  - intros k c H. by rewrite sf_current_new in H.
  - intros i cl H. by rewrite lookup_empty in H.
  - intros i c b H. by apply not_elem_of_nil in H.
Qed.

(** A new client changes nothing for the others. *)
Lemma log_fresh s i cl : Inv s → sy_clients s !! i = None → ∀ j c b, (j, c, b) ∈ sy_log s →
  ∀ cl', sy_clients s !! j = Some cl' → (<[i := cl]> (sy_clients s)) !! j = Some cl'.
Proof. intros Hs Hi j c b _ cl' Hj. rewrite lookup_insert_ne; [done|congruence]. Qed.

Lemma Inv_world w d s : Inv s →
  Inv (mkSystem w (sy_group s) (sy_flights s) (sy_clients s) (sy_next s) d (sy_log s)).
Proof. intros []. by split. Qed.

(** A client that is served without a flight. *)
Lemma Inv_served w d s i cl ok :
  Inv s → sy_clients s !! i = None → cl_phase cl = CServed None ok →
  Inv (mkSystem w (sy_group s) (sy_flights s) (<[i := cl]> (sy_clients s)) (sy_next s) d (sy_log s)).
Proof.
  intros Hs Hi Hcl. split; simpl.
  - intros c f Hf. destruct (inv_flights s Hs c f Hf) as (H1 & H2 & H3). split; [done|]. split; [done|].
    intros Hr. destruct (H3 Hr) as (cl' & body & Hl & Hp). exists cl', body. split; [|done]. simpl.
    rewrite lookup_insert_ne; [done|congruence].
  - apply (inv_current s Hs).
  - intros j cl' [[<- <-]|[Hne Hj]]%lookup_insert_Some; [|exact (inv_clients s Hs j cl' Hj)].
    intros c Hc. by rewrite Hcl in Hc.
  - intros j c b Hin. destruct (inv_log s Hs j c b Hin) as (f & cl' & o & H1 & H2 & H3 & H4 & H5).
    exists f, cl', o. do 3 (split; [done|]). split; [|done]. rewrite lookup_insert_ne; [done|congruence].
Qed.

Lemma next_fresh s : Inv s → sy_flights s !! sy_next s = None.
Proof.
  intros Hs. destruct (sy_flights s !! sy_next s) as [f|] eqn:Hf; [|done].
  destruct (inv_flights s Hs _ _ Hf) as [Hlt _]. lia.
Qed.

(** [Do] leads a new flight, or joins the one in flight for its key. *)
Lemma Do_cases s i w body : Inv s →
  let key := sfKey (wd_ctx w) in
  let clients := <[i := mkClient (wd_ctx w) (wd_w w) (CWaits (default (sy_next s) (sf_current (sy_group s) key)) key body)]>
                   (sy_clients s) in
  let g := (sf_DoChan key (sy_next s) (sy_group s)).2 in
  Do i w body s =
  match sf_current (sy_group s) key with
  | None => mkSystem w g (<[sy_next s := mkFlight key i 0 FRunning]> (sy_flights s)) clients (1 + sy_next s)
              (sy_direct s) (sy_log s)
  | Some c => mkSystem w g (alter joined_by_one c (sy_flights s))
              clients (1 + sy_next s) (sy_direct s) (sy_log s)
  end.
Proof.
  intros Hs key clients g. unfold Do. fold key. pose proof (sf_DoChan_call key (sy_next s) (sy_group s)) as Hc.
  unfold clients, g. destruct (sf_DoChan key (sy_next s) (sy_group s)) as [c g']. simpl in Hc. subst c. simpl.
  destruct (sf_current (sy_group s) key) as [c|] eqn:Hcur; simpl; [|by rewrite decide_True].
  destruct (inv_current s Hs _ _ Hcur) as (f & Hf & _ & _). destruct (inv_flights s Hs _ _ Hf) as [Hlt _].
  rewrite decide_False by lia. done.
Qed.

Lemma Inv_lead s i w body : Inv s → has_entry (wd_ctx w) → sy_clients s !! i = None → sf_current (sy_group s) (sfKey (wd_ctx w)) = None →
  Inv (Do i w body s).
Proof.
  intros Hs He Hi Hcur. rewrite Do_cases by done. rewrite Hcur. simpl. set (key := sfKey (wd_ctx w)) in *.
  pose proof (next_fresh s Hs) as Hfr. split; simpl.
  - intros c f [[<- <-]|[Hne Hf]]%lookup_insert_Some; unfold flight_ok; simpl.
    + split; [lia|]. split; [intros _; rewrite sf_DoChan_current, decide_True by done; by rewrite Hcur|].
      intros _. eexists _, body. split; [apply lookup_insert_eq|done].
    + destruct (inv_flights s Hs c f Hf) as (H1 & H2 & H3). split; [lia|]. split.
      * intros Ho. rewrite sf_DoChan_current. case_decide as Hk; [|auto]. specialize (H2 Ho). rewrite Hk in H2. congruence.
      * intros Hr. destruct (H3 Hr) as (cl & b & Hl & Hp). exists cl, b. split; [|done]. rewrite lookup_insert_ne; congruence.
  - intros k c. rewrite sf_DoChan_current. case_decide as Hk.
    + intros [= <-]. rewrite Hcur. simpl. eexists. split; [apply lookup_insert_eq|]. by subst.
    + intros Hc. destruct (inv_current s Hs k c Hc) as (f & Hf & ? & ?). exists f. split; [|done].
      rewrite lookup_insert_ne; [done|congruence].
  - intros j cl [[<- <-]|[Hne Hj]]%lookup_insert_Some; unfold client_ok; simpl.
    + intros c [= <-]. eexists. split; [apply lookup_insert_eq|]. simpl. auto.
    + intros c Hc. destruct (inv_clients s Hs j cl Hj c Hc) as (f & Hf & H). exists f. split; [|done].
      rewrite lookup_insert_ne; [done|congruence].
  - intros j c b Hin. destruct (inv_log s Hs j c b Hin) as (f & cl & o & H1 & H2 & H3 & H4 & H5).
    exists f, cl, o. split; [rewrite lookup_insert_ne; congruence|]. do 2 (split; [done|]).
    split; [rewrite lookup_insert_ne; congruence|done].
Qed.

Lemma Inv_join s i w body c0 : Inv s → has_entry (wd_ctx w) → sy_clients s !! i = None → sf_current (sy_group s) (sfKey (wd_ctx w)) = Some c0 →
  Inv (Do i w body s).
Proof.
  intros Hs He Hi Hcur. rewrite Do_cases by done. rewrite Hcur. simpl. set (key := sfKey (wd_ctx w)) in *.
  destruct (inv_current s Hs _ _ Hcur) as (f0 & Hf0 & Hk0 & Ho0).
  set (dup := joined_by_one).
  assert (∀ c f, alter dup c0 (sy_flights s) !! c = Some f →
    ∃ f', sy_flights s !! c = Some f' ∧ fl_key f = fl_key f' ∧ fl_leader f = fl_leader f' ∧ fl_stage f = fl_stage f' ∧
          (fl_dups f' <= fl_dups f)%nat) as Hold.
  { intros c f. destruct (decide (c = c0)) as [-> | Hne].
    - rewrite lookup_alter_eq, Hf0. intros [= <-]. exists f0. simpl. repeat split; auto.
    - rewrite lookup_alter_ne by done. intros Hf. exists f. repeat split; auto. }
  assert (∀ c f', sy_flights s !! c = Some f' → ∃ f, alter dup c0 (sy_flights s) !! c = Some f ∧
    fl_key f = fl_key f' ∧ fl_leader f = fl_leader f' ∧ fl_stage f = fl_stage f' ∧ (fl_dups f' <= fl_dups f)%nat ∧
    (c ≠ c0 → f = f')) as Hnew.
  { intros c f' Hf. destruct (decide (c = c0)) as [-> | Hne].
    - rewrite lookup_alter_eq, Hf. exists (dup f'). simpl. repeat split; auto. done.
    - rewrite lookup_alter_ne by done. exists f'. repeat split; auto. }
  split; simpl.
  - intros c f Hf. destruct (Hold c f Hf) as (f' & Hf' & Hk & Hl & Hst & _). unfold flight_ok. simpl. rewrite Hk, Hl, Hst.
    destruct (inv_flights s Hs c f' Hf') as (H1 & H2 & H3). split; [lia|]. split.
    + intros Ho. rewrite sf_DoChan_current. case_decide as Hkk; [|auto]. rewrite <- Hkk, H2 by done. done.
    + intros Hr. destruct (H3 Hr) as (cl & b & Hlk & Hp). exists cl, b. split; [|done]. rewrite lookup_insert_ne; congruence.
  - intros k c. rewrite sf_DoChan_current. intros Hc.
    assert (sf_current (sy_group s) k = Some c) as Hc'.
    { case_decide; [|done]. subst k. by rewrite Hcur in *. }
    destruct (inv_current s Hs k c Hc') as (f' & Hf' & ? & ?). destruct (Hnew c f' Hf') as (f & ? & Hk & _ & Hst & _).
    exists f. rewrite Hk, Hst. auto.
  - intros j cl [[<- <-]|[Hne Hj]]%lookup_insert_Some; unfold client_ok; simpl.
    + intros c [= <-]. exists (dup f0). rewrite lookup_alter_eq, Hf0. simpl. split; [done|]. split; [right; lia|]. by split.
    + intros c Hc. destruct (inv_clients s Hs j cl Hj c Hc) as (f' & Hf' & Hm & Hp).
      destruct (Hnew c f' Hf') as (f & ? & Hk & Hl & Hst & Hd & _). exists f. rewrite Hk, Hl, Hst. split; [done|].
      split; [destruct Hm; [by left|right; lia]|done].
  - intros j c b Hin. destruct (inv_log s Hs j c b Hin) as (f' & cl & o & H1 & H2 & H3 & H4 & H5).
    destruct (Hnew c f' H1) as (f & Hf & _ & _ & Hst & _ & Heq). exists f, cl, o.
    assert (c ≠ c0) as Hne by (intros ->; rewrite Hf0 in H1; injection H1 as ->; by rewrite H2 in Ho0).
    rewrite (Heq Hne) in *. do 3 (split; [done|]). split; [rewrite lookup_insert_ne; congruence|done].
Qed.

(** What a client waits on is kept by the function of its flight. *)
Lemma flight_keeps_entry body key w :
  sfKey (wd_ctx w) = key ∧ has_entry (wd_ctx w) →
  sfKey (wd_ctx (revalidate_flight t now next body w).1) = key ∧ has_entry (wd_ctx (revalidate_flight t now next body w).1).
Proof.
  apply (flight_keeps_ctx t now next (λ c, sfKey c = key ∧ has_entry c)).
  intros c m b [Hk [_ Hv]]. split; [exact Hk|]. split; [by eexists|exact Hv].
Qed.

(** Another stage for flight [c], which stays open. *)
Lemma Inv_run s c f cl key body : Inv s → sy_flights s !! c = Some f → fl_stage f = FRunning →
  sy_clients s !! fl_leader f = Some cl → cl_phase cl = CWaits c key body → Inv (run_flight c f cl key body s).
Proof.
  intros Hs Hf Hst Hl Hp. unfold run_flight.
  pose proof (flight_keeps_entry body key (as_client (cl_ctx cl) (cl_w cl) (sy_world s))) as Hkeep.
  destruct (revalidate_flight _ _ _ _ _) as [w' o]. simpl in Hkeep.
  destruct (inv_flights s Hs c f Hf) as (Hlt & Hcur & _). split; simpl.
  - intros c' f' [[<- <-]|[Hne Hf']]%lookup_insert_Some; unfold flight_ok; simpl.
    + split; [done|]. split; [|done]. intros _. apply Hcur. by rewrite Hst.
    + destruct (inv_flights s Hs c' f' Hf') as (H1 & H2 & H3). do 2 (split; [done|]). intros Hr.
      destruct (H3 Hr) as (cl' & b & Hl' & Hp'). exists cl', b. split; [|done]. rewrite lookup_insert_ne; [done|].
      intros He. rewrite <- He, Hl in Hl'. congruence.
  - intros k c' Hc. destruct (inv_current s Hs k c' Hc) as (f' & Hf' & Hk & Ho). destruct (decide (c' = c)) as [-> | Hne].
    + exists (set_stage (FFinished o) f). rewrite lookup_insert_eq. split; [done|]. split; [simpl; congruence|done].
    + exists f'. by rewrite lookup_insert_ne.
  - intros j cl' Hj c' Hc.
    assert (∃ cl0, sy_clients s !! j = Some cl0 ∧ cl_phase cl0 = cl_phase cl' ∧
      (∀ k, sfKey (cl_ctx cl0) = k ∧ has_entry (cl_ctx cl0) → sfKey (cl_ctx cl') = k ∧ has_entry (cl_ctx cl')))
      as (cl0 & Hj0 & Hph & Hkeep').
    { apply lookup_insert_Some in Hj as [[<- <-]|[Hne Hj]]; [|by exists cl'].
      exists cl. split; [done|]. split; [done|]. intros k [<- He]. destruct (inv_clients s Hs _ _ Hl c) as (f' & _ & _ & Hx); [by rewrite Hp|].
      rewrite Hp in Hx. destruct Hx as (_ & <- & _). by apply Hkeep. }
    rewrite <- Hph in *. destruct (inv_clients s Hs j cl0 Hj0 c' Hc) as (f' & Hf' & Hm & Hx).
    assert (match cl_phase cl0 with
      | CWaits _ key _ => key = fl_key f' ∧ sfKey (cl_ctx cl') = key ∧ has_entry (cl_ctx cl')
      | CServed _ _ => ∃ o, fl_stage f' = FReturned o end) as Hx'.
    { destruct (cl_phase cl0); [|done]. destruct Hx as (-> & Hx). split; [done|]. by apply Hkeep'. }
    simpl. destruct (decide (c' = c)) as [-> | Hne]; [|exists f'; by rewrite lookup_insert_ne].
    exists (set_stage (FFinished o) f). rewrite Hf in Hf'. injection Hf' as <-. rewrite lookup_insert_eq. simpl.
    split; [done|]. split; [done|]. destruct (cl_phase cl0); [done|]. destruct Hx as [o' Hx]. congruence.
  - intros j c' b Hin. destruct (inv_log s Hs j c' b Hin) as (f' & cl' & o' & H1 & H2 & H3 & H4 & H5).
    destruct (decide (j = fl_leader f)) as [-> | Hj].
    + exists f', (mkClient (wd_ctx w') (wd_w w') (CWaits c key body)), o'. rewrite Hl in H4. injection H4 as <-.
      rewrite Hp in H5. simpl in H5. injection H5 as ->. congruence.
    + exists f', cl', o'. split; [rewrite lookup_insert_ne; congruence|]. do 2 (split; [done|]).
      split; [rewrite lookup_insert_ne; congruence|done].
Qed.

Lemma Inv_return s c f o : Inv s → sy_flights s !! c = Some f → fl_stage f = FFinished o → Inv (return_flight c f o s).
Proof.
  intros Hs Hf Hst. destruct (inv_flights s Hs c f Hf) as (Hlt & Hcur & _). split; simpl.
  - intros c' f' [[<- <-]|[Hne Hf']]%lookup_insert_Some; unfold flight_ok; simpl; [by repeat split|].
    destruct (inv_flights s Hs c' f' Hf') as (H1 & H2 & H3). split; [done|]. split; [|done].
    intros Ho. rewrite sf_Returned_current. rewrite (H2 Ho). rewrite decide_False; [done|congruence].
  - intros k c' Hc. rewrite sf_Returned_current in Hc. case_decide as Hd; [done|].
    destruct (inv_current s Hs k c' Hc) as (f' & Hf' & Hk & Ho). exists f'. rewrite lookup_insert_ne; [done|]. congruence.
  - intros j cl Hj c' Hc. destruct (inv_clients s Hs j cl Hj c' Hc) as (f' & Hf' & Hm & Hx).
    simpl. destruct (decide (c' = c)) as [-> | Hne]; [|exists f'; by rewrite lookup_insert_ne].
    exists (set_stage (FReturned o) f). rewrite Hf in Hf'. injection Hf' as <-. rewrite lookup_insert_eq. simpl.
    split; [done|]. split; [done|]. destruct (cl_phase cl); [done|]. by exists o.
  - intros j c' b Hin. destruct (inv_log s Hs j c' b Hin) as (f' & cl' & o' & H1 & H2 & H3).
    exists f', cl', o'. split; [rewrite lookup_insert_ne; congruence|done].
Qed.

Lemma Inv_finish s i c f cl key body o : Inv s → sy_clients s !! i = Some cl → cl_phase cl = CWaits c key body →
  sy_flights s !! c = Some f → fl_stage f = FReturned o → Inv (finish i c f cl o s).
Proof.
  intros Hs Hi Hp Hf Hst. unfold finish. destruct (match o with Some _ => _ | None => _ end) as [w' r].
  destruct (inv_clients s Hs i cl Hi c) as (f0 & Hf0 & Hm & _); [by rewrite Hp|]. rewrite Hf in Hf0. injection Hf0 as <-.
  split; simpl.
  - intros c' f' Hf'. destruct (inv_flights s Hs c' f' Hf') as (H1 & H2 & H3). do 2 (split; [done|]). intros Hr.
    destruct (H3 Hr) as (cl' & b & Hl' & Hp'). exists cl', b. split; [|done]. simpl. rewrite lookup_insert_ne; [done|].
    intros ->. rewrite Hi in Hl'. injection Hl' as <-. rewrite Hp in Hp'. injection Hp' as <- _ _. congruence.
  - apply (inv_current s Hs).
  - intros j cl' [[<- <-]|[Hne Hj]]%lookup_insert_Some; [|exact (inv_clients s Hs j cl' Hj)].
    intros c' [= <-]. exists f. simpl. eauto.
  - intros j c' b [[= -> -> ->]|Hin]%elem_of_cons.
    + eexists f, _, o. do 3 (split; [done|]). split; [apply lookup_insert_eq|done].
    + destruct (inv_log s Hs j c' b Hin) as (f' & cl' & o' & H1 & H2 & H3 & H4 & H5).
      destruct (decide (j = i)) as [-> | Hj]; [|exists f', cl', o'; do 3 (split; [done|]); by rewrite lookup_insert_ne].
      eexists f', _, o'. do 3 (split; [done|]). split; [apply lookup_insert_eq|]. simpl. rewrite Hi in H4. injection H4 as <-.
      rewrite Hp in H5. by injection H5 as ->.
Qed.

(** A request that gets to [Do] has an entry and a variant. *)
Lemma run_until_entry fuel s : part (arrives s) (run_until fuel s) (λ b c, b = true → has_entry c).
Proof.
  revert s. induction fuel as [|fuel IH]; intros s.
  - destruct s; simpl; apply part_ret; done.
  - assert (s = stateFetchOriginRevalidate ∨ s ≠ stateFetchOriginRevalidate) as [->|Hne] by (destruct s; auto);
      [by apply part_ret; intros c Hc _|].
    assert (part (arrives s) (s' <- run_state t now next None false s ;;
      match s' with None => ret false | Some s' => run_until fuel s' end) (λ b c, b = true → has_entry c)) as Hrun.
    { eapply part_bind; [by apply part_state|]. intros [s'|]; [|by apply part_ret].
      intros w b Hw. by apply (IH s'), Hw. }
    by destruct s.
Qed.

Lemma prologue_entry r w w' body : prologue r w = (w', Some (Some body)) → has_entry (wd_ctx w').
Proof.
  intros H. enough (part (λ _, True) (prologue r) (λ o c, is_Some o → has_entry c)) as Hp.
  { specialize (Hp w (Some body) I). rewrite H in Hp. by apply Hp. }
  unfold prologue. do 2 (apply part_tail; intros ?).
  apply (part_bind _ _ _ (λ b c, b = true → has_entry c)).
  { intros w0 b _. apply (run_until_entry 7 stateCheckBypass w0 b). exact I. }
  intros []; [|by apply part_ret; intros ? _ []].
  eapply (part_bind _ _ _ (λ _, has_entry)); [|intros b; by apply part_ret].
  unfold load_stale. apply part_get_ctx. intros c Hc. specialize (Hc eq_refl).
  assert (∀ A (m : M S A), (∀ w, wd_ctx (m w).1 = wd_ctx w) → part (λ c', c' = c) m (λ _, has_entry)) as Hsame.
  { intros A m Hm w1 x Hw1 _. by rewrite Hm, Hw1. }
  destruct (varInfo c); [|apply Hsame; done]. apply Hsame. intros w1.
  unfold storage_GetVariant, time_Now, bind, emit, next_tick, get, ret, lift. simpl. by destruct (GetVariant _ _ _ _).
Qed.

Lemma Inv_arrive s i r wr : Inv s → sy_clients s !! i = None → Inv (arrive i r wr s).
Proof.
  intros Hs Hi. unfold arrive. pose proof (prologue_entry r (as_client (wd_ctx (sy_world s)) wr (sy_world s))) as He.
  destruct (prologue _ _) as [w' [[body|]|]]; [|by eapply Inv_served..]. specialize (He _ _ eq_refl).
  destruct (sf_current (sy_group s) (sfKey (wd_ctx w'))) as [c|] eqn:Hc; [by eapply Inv_join|by apply Inv_lead].
Qed.

Lemma system_step_Inv s s' : Inv s → step s s' → Inv s'.
Proof.
  intros Hs Hstep. destruct Hstep; [by apply Inv_arrive|by apply Inv_run|by apply Inv_return|by eapply Inv_finish|by apply Inv_world].
Qed.

Lemma system_reachable_Inv w s : reachable w s → Inv s.
Proof. intros H. eapply (rtc_ind_r Inv); [apply system_Inv_new| |exact H]. intros s1 s2 _ Hstep Hs. by eapply system_step_Inv. Qed.

(** ** Properties *)

(** Two requests are for one entry: the keys agree.  (The name of a flight joins the two keys by a
    colon, which a variant key may contain, as that of a response that varies on Origin.) *)
Definition same_entry (a b : requestContext) : Prop :=
  primaryKey a = primaryKey b ∨ ((":"%char ∉ variantKey a) ∧ (":"%char ∉ variantKey b)) →
  primaryKey a = primaryKey b ∧ variantKey a = variantKey b.

Lemma sfKey_same_entry a b : sfKey a = sfKey b → same_entry a b.
Proof.
  unfold sfKey, same_entry. intros H [Hp|[Ha Hb]].
  - split; [done|]. rewrite Hp in H. apply app_inv_head in H. by injection H.
  - apply (f_equal (@rev _)) in H. rewrite !rev_app_distr in H. simpl in H.
    rewrite <- !app_assoc in H. simpl in H.
    apply app_sep_inj in H as [Hv Hk]; [|by rewrite list_elem_of_In, <- in_rev, <- list_elem_of_In..].
    apply (f_equal (@rev _)) in Hv, Hk. by rewrite !rev_involutive in Hv, Hk.
Qed.

(** C7: Revalidations are exclusive, per entry.  At any time two clients that wait for the same primary and variant
    key wait on the same flight, unless it has already returned; clients that wait on one flight,
    its leader (whose request, stale variant and keys the flight uses) among them, wait for the same entry
    (the colon that joins the two keys is not escaped, so this is for equal primary keys, or variant
    keys without a colon); and a result that counts as not shared reaches nobody but the leader. *)
Theorem one_flight_per_key w s (H : reachable w s) :
  (∀ i j cli clj ci cj ki kj bi bj fi fj,
     sy_clients s !! i = Some cli → cl_phase cli = CWaits ci ki bi → sy_flights s !! ci = Some fi → stage_open (fl_stage fi) →
     sy_clients s !! j = Some clj → cl_phase clj = CWaits cj kj bj → sy_flights s !! cj = Some fj → stage_open (fl_stage fj) →
     primaryKey (cl_ctx cli) = primaryKey (cl_ctx clj) → variantKey (cl_ctx cli) = variantKey (cl_ctx clj) → ci = cj) ∧
  (∀ i j cli clj c ki kj bi bj,
     sy_clients s !! i = Some cli → cl_phase cli = CWaits c ki bi →
     sy_clients s !! j = Some clj → cl_phase clj = CWaits c kj bj → same_entry (cl_ctx cli) (cl_ctx clj)) ∧
  (∀ c f, sy_flights s !! c = Some f → fl_stage f = FRunning →
     ∃ cl body, sy_clients s !! fl_leader f = Some cl ∧ cl_phase cl = CWaits c (fl_key f) body) ∧
  (∀ i c, (i, c, false) ∈ sy_log s → ∀ j cl, sy_clients s !! j = Some cl → of_flight (cl_phase cl) = Some c → j = i).
Proof.
  apply system_reachable_Inv in H as Hs.
  assert (∀ i cl c key body, sy_clients s !! i = Some cl → cl_phase cl = CWaits c key body →
     ∃ f, sy_flights s !! c = Some f ∧ fl_key f = sfKey (cl_ctx cl)) as Hwait.
  { intros i cl c key body Hi Hp. destruct (inv_clients s Hs i cl Hi c) as (f & Hf & _ & Hk); [by rewrite Hp|].
    rewrite Hp in Hk. destruct Hk as (-> & Hk & _). by exists f. }
  split_and!.
  - intros i j cli clj ci cj ki kj bi bj fi fj Hi Hpi Hfi Hoi Hj Hpj Hfj Hoj Hpk Hvk.
    destruct (Hwait _ _ _ _ _ Hi Hpi) as (fi' & Hfi' & Hki), (Hwait _ _ _ _ _ Hj Hpj) as (fj' & Hfj' & Hkj). simplify_eq.
    destruct (inv_flights s Hs _ _ Hfi) as (_ & Hci & _), (inv_flights s Hs _ _ Hfj) as (_ & Hcj & _).
    specialize (Hci Hoi). specialize (Hcj Hoj). unfold sfKey in *. congruence.
  - intros i j cli clj c ki kj bi bj Hi Hpi Hj Hpj. apply sfKey_same_entry.
    destruct (Hwait _ _ _ _ _ Hi Hpi) as (f & Hf & Hki), (Hwait _ _ _ _ _ Hj Hpj) as (f' & Hf' & Hkj). congruence.
  - intros c f Hf Hst. destruct (inv_flights s Hs c f Hf) as (_ & _ & Hl). auto.
  - intros i c Hin j cl Hj Hc. destruct (inv_log s Hs i c false Hin) as (f & cli & o & Hf & _ & Hb & Hi & Hci).
    symmetry in Hb. apply Nat.ltb_ge in Hb.
    destruct (inv_clients s Hs j cl Hj c Hc) as (f1 & Hf1 & Hm1 & _).
    destruct (inv_clients s Hs i cli Hi c Hci) as (f2 & Hf2 & Hm2 & _). simplify_eq. destruct Hm1, Hm2; subst; [done|lia..].
Qed.





End Coalesce.
