(* ===== verification/CoalesceRun.v ===== *)
(** * Coalesced requests and the pipeline

    How many origin calls coalescing leaves, and that a client of [Coalesce] goes through the
    pipeline of [Handler]: alone, it is [ServeHTTP]; joining a flight, it is [ServeHTTP] with the
    result of that flight.  Then what sharing gets wrong. *)

From S2P Require Import Prelude GoStrings GoHttp Env Headers Freshness CacheKey Storage TestStore Purge Scanner Esi Flight Compress Config Handler HandlerLogic HandlerQuiet HandlerProps HandlerRun HandlerSafety Coalesce.
#[local] Open Scope handler_scope.
#[local] Unset Default Proof Using.
Import Demo.

Section Runs.
Context {E : GoEnv} {CO : CacheObject} {S : Type} {St : Storage S} {SF : SingleFlight}.
Context (t : Titip) (now : nat → Z) (next : nat → Request → Writer → Writer * bool).

(** ** Facts: origin calls *)

(** A computation that calls no origin. *)
Definition no_call {A} (m : M S A) : Prop := ∀ w, wd_calls (m w).1 = wd_calls w.

Definition calls_are (n : nat) (w : World S) : Prop := wd_calls w = n.

Lemma calls_outer n : outer (calls_are n).
Proof. intros w w' _ H _. unfold calls_are. by rewrite H. Qed.
Lemma calls_writes n : allows_writes (calls_are n).
Proof. by intros f w H. Qed.

Lemma ok_no_call {A} (m : M S A) :
  (∀ n, ok (calls_are n) (λ _, True) m (λ _, True)) → no_call m.
Proof. intros H w. destruct (H (wd_calls w) w eq_refl) as (_ & _ & _ & Hn & _). done. Qed.

Tactic Notation "quiet" uconstr(L) := apply L; auto using calls_outer, calls_writes.

Lemma serve_flight_no_call r res shared : no_call (serve_flight t now r res shared).
Proof. apply ok_no_call. intros n. quiet q_serve_flight. Qed.

Lemma load_stale_no_call : no_call (load_stale now).
Proof.
  apply ok_no_call. intros n. unfold load_stale. apply ok_seq; [quiet q_get|intros ctx].
  destruct (varInfo ctx); [|quiet q_ret]. apply ok_seq; [quiet q_GetVariant|intros; quiet q_ret].
Qed.

Ltac calls_step :=
  match goal with
  | |- ok _ _ (bind _ _) _ => apply ok_seq; [|intros ?]
  | |- ok _ _ (if ?b then _ else _) _ => destruct b
  | |- ok _ _ (match ?x with _ => _ end) _ => destruct x
  | _ => first [ quiet q_ret | quiet q_panic | quiet q_get | quiet q_upd_ctx | quiet q_upd_w | quiet q_emit
               | quiet q_now | quiet q_GetMeta | quiet q_status ]
  end.
Ltac calls_all := unfold recordRequest, w_header, w_error; repeat calls_step.

Lemma lookup_no_call : no_call (run_LookupMetadata t now).
Proof. apply ok_no_call. intros n. unfold run_LookupMetadata, gateway_timeout. calls_all. Qed.
Lemma match_no_call : no_call (run_MatchVariant t).
Proof. apply ok_no_call. intros n. unfold run_MatchVariant, gateway_timeout. calls_all. Qed.
Lemma evaluate_no_call : no_call (run_EvaluateFreshness t now).
Proof. apply ok_no_call. intros n. unfold run_EvaluateFreshness, gateway_timeout. calls_all. Qed.

(** At most [k] origin calls. *)
Definition calls_upto {A} (k : nat) (m : M S A) : Prop := ∀ w, wd_calls (m w).1 <= k + wd_calls w.

Lemma upto_bind {A C} j k (m : M S A) (f : A → M S C) :
  calls_upto j m → (∀ a, calls_upto k (f a)) → calls_upto (j + k) (bind m f).
Proof.
  intros Hm Hf w. specialize (Hm w). unfold bind. destruct (m w) as [w' [a|]]; simpl in *; [|lia].
  specialize (Hf a w'). lia.
Qed.

Lemma upto_quiet {A} k (m : M S A) : (∀ n, ok (calls_are n) (λ _, True) m (λ _, True)) → calls_upto k m.
Proof. intros H w. rewrite (ok_no_call m H w). lia. Qed.

Lemma upto_origin r : calls_upto 1 (origin_record next r).
Proof. intros w. simpl. lia. Qed.

(** A flight calls the origin at most once. *)
Lemma flight_calls body : calls_upto 1 (revalidate_flight t now next body).
Proof.
  unfold revalidate_flight. apply (upto_bind 0 1); [apply upto_quiet; intros; quiet q_get|intros ctx].
  apply (upto_bind 0 1); [apply upto_quiet; intros; quiet q_recheck|intros [res|]];
    [apply upto_quiet; intros; quiet q_ret|].
  apply (upto_bind 0 1); [apply upto_quiet; intros; quiet q_now|intros t0].
  apply (upto_bind 1 0); [apply upto_origin|intros [rec pn]]. apply upto_quiet; intros n.
  repeat first
    [ quiet q_handle_304 | quiet q_inspectESI | quiet q_freshness | quiet q_save | calls_step
    | match goal with |- ok _ _ (let '(_, _) := ?p in _) _ => destruct p end ].
Qed.

(** ** Facts: up to [Do] *)
Abbreviation until := (run_until t now next).
Abbreviation state s := (run_state t now next None false s).

(** One state of a machine that gets to [Do]. *)
Lemma run_until_step fuel s w w' :
  until (Datatypes.S fuel) s w = (w', Some true) → s ≠ stateFetchOriginRevalidate →
  ∃ w1 s', state s w = (w1, Some (Some s')) ∧ (rank s' < rank s)%nat ∧ until fuel s' w1 = (w', Some true).
Proof.
  intros H Hs.
  assert (until (Datatypes.S fuel) s = (s' <- state s ;; match s' with None => ret false | Some s' => until fuel s' end))
    as He by (by destruct s).
  rewrite He in H. unfold bind in H.
  destruct (ok_run_state t now next None false (λ _, True) (λ _, True) s w) as (_ & _ & _ & _ & Hb); [by apply trivial_world|].
  destruct (state s w) as [w1 [[s'|]|]]; [|done..]. exists w1, s'. split; [done|]. split; [|done].
  exact (Hb _ eq_refl s' eq_refl).
Qed.

Lemma run_until_0 s w w' : until 0 s w = (w', Some true) → s = stateFetchOriginRevalidate.
Proof. by destruct s. Qed.

Lemma run_until_done fuel s w w' :
  (rank s <= 2)%nat → s ≠ stateFetchOriginRevalidate → until fuel s w ≠ (w', Some true).
Proof.
  revert s w. induction fuel as [|fuel IH]; intros s w Hr Hs H; [by apply run_until_0 in H|].
  destruct (run_until_step _ _ _ _ H Hs) as (w1 & s' & _ & Hlt & H'). revert H'. apply IH; [lia|].
  intros ->. simpl in Hlt. lia.
Qed.

(** Getting to [Do] takes no origin call. *)
Lemma run_until_calls fuel s w w' :
  (rank s <= 5)%nat → until fuel s w = (w', Some true) → wd_calls w' = wd_calls w.
Proof.
  revert s w. induction fuel as [|fuel IH]; intros s w Hr H.
  { rewrite (run_until_0 _ _ _ H) in H. by injection H as <-. }
  destruct (decide (rank s <= 2)%nat) as [Hr2 | Hr2].
  { destruct s; try (by eapply run_until_done in H); by injection H as <-. }
  assert (no_call (state s)) as Hn.
  { destruct s; simpl in Hr, Hr2; try lia; [apply lookup_no_call|apply match_no_call|apply evaluate_no_call]. }
  destruct (run_until_step _ _ _ _ H) as (w1 & s' & Hrun & Hlt & H'); [intros ->; simpl in Hr2; lia|].
  specialize (Hn w). rewrite Hrun in Hn. simpl in Hn. rewrite <- Hn. eapply (IH s'); [lia|done].
Qed.

Lemma prologue_calls r w w' body : prologue t now next r w = (w', Some (Some body)) → wd_calls w' = wd_calls w.
Proof.
  unfold prologue, time_Now, next_tick, upd_ctx. unfold bind at 1 2 3 4, ret at 1. cbn -[run_until].
  set (w0 := mkWorld _ _ _ _ _ _ _ _). change (wd_calls w) with (wd_calls w0). intros H. unfold bind at 1 in H.
  destruct (run_until t now next 7 stateCheckBypass w0) as [w1 [[]|]] eqn:Hu; try done.
  assert (wd_calls w1 = wd_calls w0) as <-.
  { destruct (run_until_step _ _ _ _ Hu) as (w2 & s' & Hrun & Hlt & Hu'); [done|].
    destruct (classify (t_config t) r) eqn:Hc.
    - destruct (CheckBypass_bypass t now next r w0 eq_refl Hc) as (d & c & _ & Hb). simpl in Hrun. rewrite Hb in Hrun.
      injection Hrun as <- <-. by apply run_until_done in Hu'; [|simpl; lia|].
    - destruct (CheckBypass_mutating t now next r w0 eq_refl Hc) as (w3 & Hb & _). simpl in Hrun. by rewrite Hb in Hrun.
    - simpl in Hrun. rewrite (CheckBypass_lookup t now next r w0 eq_refl eq_refl Hc) in Hrun. injection Hrun as <- <-.
      by apply run_until_calls in Hu'; [|simpl; lia]. }
  pose proof (load_stale_no_call w1) as Hl. unfold bind in H. destruct (load_stale now w1) as [w2 [b|]]; [|done].
  simpl in Hl. injection H as <- _. exact Hl.
Qed.

(** ** Facts: flights that have run *)
Definition has_run (f : flight) : bool := match fl_stage f with FRunning => false | _ => true end.
Definition executed (m : gmap nat flight) : nat := size (filter (λ kv : nat * flight, has_run kv.2 = true) m).

Lemma executed_insert c f m : m !! c = None → executed (<[c := f]> m) = ((if has_run f then 1 else 0) + executed m)%nat.
Proof.
  intros Hc. unfold executed. destruct (has_run f) eqn:Hf.
  - rewrite map_filter_insert_True by done. apply map_size_insert_None. rewrite map_lookup_filter_None. by left.
  - by rewrite map_filter_insert_not' by (cbn; rewrite ?Hf; naive_solver).
Qed.

Lemma executed_update c f f' m : m !! c = Some f →
  ((if has_run f then 1 else 0) + executed (<[c := f']> m) = (if has_run f' then 1 else 0) + executed m)%nat.
Proof.
  intros Hc. rewrite <- (insert_delete_id m c f Hc) at 2. rewrite <- insert_delete_eq.
  rewrite !executed_insert by apply lookup_delete_eq. lia.
Qed.

Lemma executed_do i w body (s : system S sf_group) : Inv s → executed (sy_flights (Do i w body s)) = executed (sy_flights s).
Proof.
  intros Hs. rewrite Do_cases by done. destruct (sf_current (sy_group s) (sfKey (wd_ctx w))) as [c|] eqn:Hc; simpl.
  - destruct (inv_current s Hs _ _ Hc) as (f & Hf & _ & _).
    assert (alter joined_by_one c (sy_flights s) = <[c := joined_by_one f]> (sy_flights s)) as ->.
    { apply map_eq. intros c'. destruct (decide (c' = c)) as [-> | Hne].
      - by rewrite lookup_alter_eq, Hf, lookup_insert_eq.
      - by rewrite lookup_alter_ne, lookup_insert_ne. }
    pose proof (executed_update c f (joined_by_one f) _ Hf) as H. unfold has_run in *. simpl in H. lia.
  - by rewrite executed_insert by by apply next_fresh.
Qed.

(** C18: Coalescing bounds the load on the origin.  However many clients arrive and in whatever order
    things happen, the origin is called at most once per flight that has run, apart from
    the calls made outside flights (misses, bypasses, mutations, background jobs): a client that joins
    a flight, or is served from one, adds no call. *)
Theorem origin_calls_bounded w s (H : reachable t now next w s) :
  wd_calls (sy_world s) <= wd_calls w + sy_direct s + executed (sy_flights s).
Proof.
  cut (wd_calls (sy_world s) <= wd_calls w + sy_direct s + executed (sy_flights s) ∧ Inv s); [by intros [? _]|].
  eapply (rtc_ind_r (λ s, wd_calls (sy_world s) <= wd_calls w + sy_direct s + executed (sy_flights s) ∧ Inv s)); [| |exact H].
  { split; [simpl; lia|apply system_Inv_new]. }
  clear s H. intros s1 s2 _ Hstep [Hle Hs]. split; [|by eapply system_step_Inv].
  destruct Hstep as [s i r wr Hi|s c f cl key body Hf Hst Hl Hp|s c f o Hf Hst|s i c f cl key body o Hi Hp Hf Hst|s w' Hb].
  - unfold arrive. set (w1 := as_client _ _ _). change (wd_calls (sy_world s)) with (wd_calls w1) in Hle. clearbody w1.
    destruct (prologue t now next r w1) as [w' [[body|]|]] eqn:Hpr; [|simpl; lia..].
    rewrite executed_do by done. pose proof (prologue_calls _ _ _ _ Hpr) as Hc. unfold Do.
    destruct (sf_DoChan _ _ _). simpl. lia.
  - unfold run_flight. pose proof (flight_calls body (as_client (cl_ctx cl) (cl_w cl) (sy_world s))) as Hc.
    destruct (revalidate_flight _ _ _ _ _) as [w' o]. simpl in *.
    pose proof (executed_update c f (set_stage (FFinished o) f) _ Hf) as He. unfold has_run in He. rewrite Hst in He. simpl in He. lia.
  - simpl. pose proof (executed_update c f (set_stage (FReturned o) f) _ Hf) as He. unfold has_run in He. rewrite Hst in He. simpl in He. lia.
  - unfold finish. set (w1 := as_client _ _ _). change (wd_calls (sy_world s)) with (wd_calls w1) in Hle. clearbody w1.
    assert (no_call (match o with Some res => serve_flight t now (cx_r (cl_ctx cl)) res (shared_of f) | None => panic end)) as Hn.
    { destruct o; [apply serve_flight_no_call|done]. }
    specialize (Hn w1). destruct o; simpl in *; [destruct (serve_flight _ _ _ _ _ _)|]; simpl in *; lia.
  - simpl. lia.
Qed.

(** ** Facts: the pipeline in two halves *)
Definition request_is (r : Request) (w : World S) : Prop := cx_r (wd_ctx w) = r.

Lemma request_outer r : outer (request_is r).
Proof. intros w w' _ _ H. unfold request_is. by rewrite H. Qed.
Lemma request_calls r : allows_calls (request_is r).
Proof. by intros w H. Qed.

Lemma keeps_request {A} (m : M S A) :
  (∀ r, ok (request_is r) (λ _, True) m (λ _, True)) → ∀ w, cx_r (wd_ctx (m w).1) = cx_r (wd_ctx w).
Proof. intros H w. destruct (H _ w eq_refl) as (_ & _ & _ & Hr & _). done. Qed.

Lemma flight_request body w : cx_r (wd_ctx (revalidate_flight t now next body w).1) = cx_r (wd_ctx w).
Proof. apply keeps_request. intros r. apply q_flight; auto using request_outer, request_calls. Qed.

Lemma load_stale_request w : cx_r (wd_ctx (load_stale now w).1) = cx_r (wd_ctx w).
Proof.
  apply keeps_request. intros r. unfold load_stale. apply ok_seq; [apply q_get; auto using request_outer|intros ctx].
  destruct (varInfo ctx); [|apply q_ret; auto using request_outer].
  apply ok_seq; [apply q_GetVariant; auto using request_outer|intros; apply q_ret; auto using request_outer].
Qed.

(** [serve_flight] ends the pipeline. *)
Definition only_None {A} (m : M S (option A)) : Prop := ∀ w o, (m w).2 = Some o → o = None.

Lemma only_bind {A C} (m : M S A) (f : A → M S (option C)) : (∀ a, only_None (f a)) → only_None (bind m f).
Proof. intros Hf w o. unfold bind. destruct (m w) as [w' [a|]]; [apply Hf|done]. Qed.

Lemma only_ret {A} : only_None (ret (A := option A) None).
Proof. by intros w o [= <-]. Qed.

Lemma serve_flight_only r res shared : only_None (serve_flight t now r res shared).
Proof.
  unfold serve_flight, serve_fetched, write_response.
  repeat first [apply only_ret | apply only_bind; intros ? | case_match].
Qed.

(** What comes after the stale body is read. *)
Definition after (j : option fetchResult) (wt : bool) (r : Request) (body : str) : M S (option stateFn) :=
  p <- (match j with
        | Some res => ret (res, true)
        | None => res <- revalidate_flight t now next body ;; ret (res, wt)
        end) ;;
  serve_flight t now r p.1 p.2.

Lemma revalidate_split j wt w :
  run_FetchOriginRevalidate t now next j wt w = (body <- load_stale now ;; after j wt (cx_r (wd_ctx w)) body) w.
Proof. done. Qed.

Lemma after_only j wt r body : only_None (after j wt r body).
Proof. apply only_bind. intros p. apply serve_flight_only. Qed.

Definition ended {A} (p : World S * option A) : World S * option bool :=
  (p.1, match p.2 with Some _ => Some true | None => None end).

Lemma machine_until j wt fuel s w : (rank s < fuel)%nat →
  run_machine t now next j wt fuel s w =
  match until fuel s w with
  | (w', Some true) => ended (run_FetchOriginRevalidate t now next j wt w')
  | (w', Some false) => (w', Some true)
  | (w', None) => (w', None)
  end.
Proof.
  revert s w. induction fuel as [|fuel IH]; intros s w Hr; [lia|].
  assert (s = stateFetchOriginRevalidate ∨ s ≠ stateFetchOriginRevalidate) as [-> | Hs] by (by destruct s; auto).
  - cbn [run_machine run_state run_until]. unfold bind at 1, ended, ret.
    pose proof (only_bind (load_stale now) (after j wt (cx_r (wd_ctx w))) (λ body, after_only j wt _ body) w) as Ho.
    rewrite <- revalidate_split in Ho. destruct (run_FetchOriginRevalidate _ _ _ _ _ w) as [w' [o|]]; [|done].
    by rewrite (Ho o eq_refl).
  - assert (until (Datatypes.S fuel) s = (s' <- state s ;; match s' with None => ret false | Some s' => until fuel s' end))
      as He by (by destruct s).
    assert (run_state t now next j wt s = state s) as Hst by (by destruct s).
    rewrite He. cbn [run_machine]. rewrite Hst. unfold bind.
    destruct (ok_run_state t now next None false (λ _, True) (λ _, True) s w) as (_ & _ & _ & _ & Hb); [by apply trivial_world|].
    destruct (state s w) as [w1 [[s'|]|]]; [|done..]. apply IH. specialize (Hb _ eq_refl s' eq_refl). lia.
Qed.

(** [ServeHTTP] is the prologue and what comes after [Do]. *)
Lemma ServeHTTP_split j wt r w :
  ServeHTTP t now next j wt r w =
  match prologue t now next r w with
  | (w', Some (Some body)) => ended (after j wt (cx_r (wd_ctx w')) body w')
  | (w', Some None) => (w', Some true)
  | (w', None) => (w', None)
  end.
Proof.
  unfold ServeHTTP, prologue, time_Now, next_tick, upd_ctx. unfold bind, ret at 1 2. cbn -[run_until run_machine load_stale].
  rewrite machine_until by (simpl; lia). set (w0 := mkWorld _ _ _ _ _ _ _ _).
  destruct (until 7 stateCheckBypass w0) as [w1 [[]|]]; [|done..]. rewrite revalidate_split. unfold bind.
  pose proof (load_stale_request w1) as Hr. destruct (load_stale now w1) as [w2 [body|]]; [|done]. simpl in *.
  by rewrite Hr.
Qed.

Lemma as_client_id (w : World S) : as_client (wd_ctx w) (wd_w w) w = w.
Proof. by destruct w. Qed.

(** A client in [s] ends as the pipeline does in [p]. *)
Definition ends_as (i : nat) (s : system S sf_group) (p : World S * option bool) : Prop :=
  sy_world s = p.1 ∧ ∃ cl c, sy_clients s !! i = Some cl ∧ cl_w cl = wd_w p.1 ∧
    cl_phase cl = CServed c (match p.2 with Some _ => true | None => false end).

Lemma finish_ends i c f cl res s :
  ends_as i (finish t now i c f cl (Some res) s)
    (ended (serve_flight t now (cx_r (cl_ctx cl)) res (shared_of f) (as_client (cl_ctx cl) (cl_w cl) (sy_world s)))).
Proof.
  unfold finish, ended. destruct (serve_flight _ _ _ _ _ _) as [w [o|]]; (split; [done|]); eexists _, _;
    (split; [apply lookup_insert_eq|done]).
Qed.

Lemma finish_panics i c f cl s :
  ends_as i (finish t now i c f cl None s) (as_client (cl_ctx cl) (cl_w cl) (sy_world s), None).
Proof. split; [done|]. eexists _, _. split; [apply lookup_insert_eq|done]. Qed.

Lemma after_alone r body w :
  after None false r body w =
  match revalidate_flight t now next body w with
  | (w', Some res) => serve_flight t now r res false w'
  | (w', None) => (w', None)
  end.
Proof. unfold after, bind. by destruct (revalidate_flight _ _ _ _ _) as [w' [res|]]. Qed.

Lemma after_joined res wt r body w : after (Some res) wt r body w = serve_flight t now r res true w.
Proof. done. Qed.

Lemma arrive_prologue i r wr s w' o :
  prologue t now next r (as_client (wd_ctx (sy_world s)) wr (sy_world s)) = (w', o) →
  arrive t now next i r wr s =
  match o with
  | Some (Some body) => Do i w' body s
  | _ => mkSystem w' (sy_group s) (sy_flights s)
           (<[i := mkClient (wd_ctx w') (wd_w w') (CServed None (match o with Some _ => true | None => false end))]>
              (sy_clients s))
           (sy_next s) (sy_direct s + (wd_calls w' - wd_calls (sy_world s))) (sy_log s)
  end.
Proof. intros Hp. unfold arrive. rewrite Hp. by destruct o as [[body|]|]. Qed.

(** C8: A client alone runs [ServeHTTP].  When no flight is in flight, a client that arrives and whose
    goroutine then runs undisturbed leaves the storage, the trace and its response exactly as
    [ServeHTTP] of the sequential model does with nobody sharing, a panic included. *)
Theorem alone_is_ServeHTTP w0 s i r wr (H : reachable t now next w0 s) (Hi : sy_clients s !! i = None)
    (Halone : ∀ k, sf_current (sy_group s) k = None) :
  ∃ s', rtc (step t now next) s s' ∧
    ends_as i s' (ServeHTTP t now next None false r (as_client (wd_ctx (sy_world s)) wr (sy_world s))).
Proof.
  pose proof (system_reachable_Inv t now next w0 s H) as Hs. rewrite ServeHTTP_split.
  pose proof (step_arrive t now next s i r wr Hi) as Hstep.
  destruct (prologue t now next r _) as [w1 [[body|]|]] eqn:Hp; rewrite (arrive_prologue _ _ _ _ _ _ Hp) in Hstep.
  2, 3: eexists; split; [by apply rtc_once|]; split; [done|]; eexists _, _; split; [apply lookup_insert_eq|done].
  rewrite Do_cases, Halone in Hstep by done. simpl in Hstep. set (key := sfKey (wd_ctx w1)) in *.
  set (c := sy_next s) in *. set (f := mkFlight key i 0 FRunning).
  set (s1 := mkSystem w1 _ _ _ _ _ _) in Hstep.
  set (cl := mkClient (wd_ctx w1) (wd_w w1) (CWaits c key body)).
  assert (sy_clients s1 !! i = Some cl) as Hcl by apply lookup_insert_eq.
  assert (sy_flights s1 !! c = Some f) as Hf by apply lookup_insert_eq.
  pose proof (step_run t now next s1 c f cl key body Hf eq_refl Hcl eq_refl) as Hrun. unfold run_flight in Hrun. cbn [cl_ctx cl_w cl fl_leader f sy_world s1] in Hrun.
  rewrite as_client_id in Hrun. rewrite after_alone. pose proof (flight_request body w1) as Hreq.
  destruct (revalidate_flight t now next body w1) as [w2 o] eqn:Hfl. simpl in Hreq.
  match type of Hrun with step _ _ _ _ ?s2 => set (s2' := s2) in Hrun end.
  assert (sy_flights s2' !! c = Some (set_stage (FFinished o) f)) as Hf2 by apply lookup_insert_eq.
  pose proof (step_return t now next s2' c _ o Hf2 eq_refl) as Hret. set (s3 := return_flight _ _ _ _) in Hret.
  assert (sy_flights s3 !! c = Some (set_stage (FReturned o) f)) as Hf3 by apply lookup_insert_eq.
  assert (sy_clients s3 !! i = Some (mkClient (wd_ctx w2) (wd_w w2) (CWaits c key body))) as Hcl3 by apply lookup_insert_eq.
  pose proof (step_finish t now next s3 i c _ _ key body o Hcl3 eq_refl Hf3 eq_refl) as Hfin.
  eexists. split.
  { eapply rtc_l; [exact Hstep|]. eapply rtc_l; [exact Hrun|]. eapply rtc_l; [exact Hret|]. apply rtc_once. exact Hfin. }
  destruct o as [res|].
  - pose proof (finish_ends i c (set_stage (FReturned (Some res)) (set_stage (FFinished (Some res)) f))
      (mkClient (wd_ctx w2) (wd_w w2) (CWaits c key body)) res s3) as He.
    cbn [cl_ctx cl_w] in He. change (sy_world s3) with w2 in He. change (shared_of _) with false in He.
    rewrite as_client_id, Hreq in He. exact He.
  - pose proof (finish_panics i c (set_stage (FReturned None) (set_stage (FFinished None) f))
      (mkClient (wd_ctx w2) (wd_w w2) (CWaits c key body)) s3) as He.
    cbn [cl_ctx cl_w] in He. change (sy_world s3) with w2 in He. rewrite as_client_id in He. exact He.
Qed.

(** A client that joins runs [ServeHTTP] with the flight's result.  When the flight of its key has its
    result but has not let go yet, the client's response is that of the sequential model whose
    parameter [joined] is this result. *)
Theorem joined_is_ServeHTTP w0 s i r wr c f res body w1 wt (H : reachable t now next w0 s)
    (Hi : sy_clients s !! i = None)
    (Hp : prologue t now next r (as_client (wd_ctx (sy_world s)) wr (sy_world s)) = (w1, Some (Some body)))
    (Hf : sy_flights s !! c = Some f) (Hst : fl_stage f = FFinished (Some res)) (Hk : sfKey (wd_ctx w1) = fl_key f) :
  ∃ s', rtc (step t now next) s s' ∧
    ends_as i s' (ServeHTTP t now next (Some res) wt r (as_client (wd_ctx (sy_world s)) wr (sy_world s))).
Proof.
  pose proof (system_reachable_Inv t now next w0 s H) as Hs. rewrite ServeHTTP_split, Hp.
  pose proof (step_arrive t now next s i r wr Hi) as Hstep. rewrite (arrive_prologue _ _ _ _ _ _ Hp) in Hstep.
  assert (sf_current (sy_group s) (sfKey (wd_ctx w1)) = Some c) as Hcur.
  { rewrite Hk. destruct (inv_flights s Hs c f Hf) as (_ & Hc & _). apply Hc. by rewrite Hst. }
  rewrite Do_cases, Hcur in Hstep by done. simpl in Hstep. set (key := sfKey (wd_ctx w1)) in *.
  set (f' := joined_by_one f).
  match type of Hstep with step _ _ _ _ ?s1 => set (s1' := s1) in Hstep end.
  assert (sy_flights s1' !! c = Some f') as Hf1 by (unfold s1'; simpl; by rewrite lookup_alter_eq, Hf).
  pose proof (step_return t now next s1' c f' (Some res) Hf1 Hst) as Hret. set (s3 := return_flight _ _ _ _) in Hret.
  assert (sy_flights s3 !! c = Some (set_stage (FReturned (Some res)) f')) as Hf3 by apply lookup_insert_eq.
  assert (sy_clients s3 !! i = Some (mkClient (wd_ctx w1) (wd_w w1) (CWaits c key body))) as Hcl3 by apply lookup_insert_eq.
  pose proof (step_finish t now next s3 i c _ _ key body (Some res) Hcl3 eq_refl Hf3 eq_refl) as Hfin.
  eexists. split.
  { eapply rtc_l; [exact Hstep|]. eapply rtc_l; [exact Hret|]. apply rtc_once. exact Hfin. }
  rewrite after_joined. pose proof (finish_ends i c (set_stage (FReturned (Some res)) f')
    (mkClient (wd_ctx w1) (wd_w w1) (CWaits c key body)) res s3) as He.
  cbn [cl_ctx cl_w] in He. change (sy_world s3) with w1 in He. change (shared_of _) with true in He.
  rewrite as_client_id in He. exact He.
Qed.
End Runs.

(** ** Schedules

    The steps as a function of who moves, to run schedules. *)
Section Schedules.
Context {E : GoEnv} {CO : CacheObject} {S : Type} {St : Storage S} {SF : SingleFlight}.
Context (t : Titip) (now : nat → Z) (next : nat → Request → Writer → Writer * bool).

Inductive action := Arrive (i : nat) (r : Request) | Run (c : nat) | Return (c : nat) | Finish (i : nat).

Definition act (s : system S sf_group) (a : action) : option (system S sf_group) :=
  match a with
  | Arrive i r =>
      match sy_clients s !! i with None => Some (arrive t now next i r new_writer s) | Some _ => None end
  | Run c =>
      f ← sy_flights s !! c; cl ← sy_clients s !! fl_leader f;
      match fl_stage f, cl_phase cl with
      | FRunning, CWaits c' key body =>
          if decide (c' = c) then Some (run_flight t now next c f cl key body s) else None
      | _, _ => None
      end
  | Return c =>
      f ← sy_flights s !! c;
      match fl_stage f with FFinished o => Some (return_flight c f o s) | _ => None end
  | Finish i =>
      cl ← sy_clients s !! i;
      match cl_phase cl with
      | CWaits c key body =>
          f ← sy_flights s !! c;
          match fl_stage f with FReturned o => Some (finish t now i c f cl o s) | _ => None end
      | CServed _ _ => None
      end
  end.

Lemma act_step s a s' : act s a = Some s' → step t now next s s'.
Proof.
  destruct a as [i r|c|c|i]; simpl.
  - destruct (sy_clients s !! i) eqn:Hi; [done|]. intros [= <-]. by apply step_arrive.
  - destruct (sy_flights s !! c) as [f|] eqn:Hf; [simpl|done].
    destruct (sy_clients s !! fl_leader f) as [cl|] eqn:Hl; [simpl|done].
    destruct (fl_stage f) eqn:Hst; [|done..]. destruct (cl_phase cl) as [c' key body|] eqn:Hp; [|done].
    case_decide; [subst|done]. intros [= <-]. by apply step_run.
  - destruct (sy_flights s !! c) as [f|] eqn:Hf; [simpl|done]. destruct (fl_stage f) eqn:Hst; [done| |done].
    intros [= <-]. by apply step_return.
  - destruct (sy_clients s !! i) as [cl|] eqn:Hi; [simpl|done]. destruct (cl_phase cl) as [c key body|] eqn:Hp; [|done].
    destruct (sy_flights s !! c) as [f|] eqn:Hf; [simpl|done]. destruct (fl_stage f) eqn:Hst; [done|done|].
    intros [= <-]. by eapply step_finish.
Qed.

Definition schedule (acts : list action) (s : system S sf_group) : option (system S sf_group) :=
  foldl (λ o a, s ← o; act s a) (Some s) acts.

Lemma schedule_steps acts s s' : schedule acts s = Some s' → rtc (step t now next) s s'.
Proof.
  unfold schedule. revert s. induction acts as [|a acts IH]; intros s H; simpl in H; [injection H as <-; apply rtc_refl|].
  destruct (act s a) as [s1|] eqn:Ha.
  - eapply rtc_l; [by eapply act_step|]. by apply IH.
  - exfalso. revert H. clear. induction acts; simpl; auto. done.
Qed.
End Schedules.

(** ** Witnesses: two clients and a stale page *)
Definition shop (r : Request) : Writer → Writer * bool := λ w,
  let h := hdr [("Cache-Control", "private")] in
  (Write (WriteHeader (w_with_header w h) 200) (B "basket of " ++ h_Get (r_Header r) (B "Cookie")), false).

Definition stale_page : World Store :=
  serve_at plain_titip epoch (λ _, respond 200 [("Cache-Control", "max-age=60, stale-if-error=600")] "hello")
    (request "GET" "/page" []) (world TestStore.New false).

Definition later : nat → Z := clock_from (epoch + 100 * Second).
Definition visit (who : string) : Request := request "GET" "/page" [("Cookie", who)].

Definition two_wait : list action := [Arrive 0 (visit "alice"); Arrive 1 (visit "bob")].
Definition both_served : list action := two_wait ++ [Run 0; Return 0; Finish 0; Finish 1].

Definition run_shop (acts : list action) : option (system Store sf_group) :=
  schedule plain_titip later (λ _, shop) acts (new_system stale_page).

(** The answer client [i] has, and the origin calls so far. *)
Definition answer (i : nat) (o : option (system Store sf_group)) : option (option Z * str) :=
  s ← o; cl ← sy_clients s !! i; Some (w_Code (cl_w cl), w_Body (cl_w cl)).
Definition calls_of (o : option (system Store sf_group)) : option nat := (λ s, wd_calls (sy_world s)) <$> o.

Definition shop_system (acts : list action) : system Store sf_group := default (new_system stale_page) (run_shop acts).

Lemma shop_reachable acts : match run_shop acts with Some _ => true | None => false end = true →
  reachable plain_titip later (λ _, shop) stale_page (shop_system acts).
Proof.
  unfold shop_system, run_shop. intros H.
  destruct (schedule plain_titip later (λ _, shop) acts (new_system stale_page)) as [s|] eqn:Hs; [|discriminate H].
  by eapply schedule_steps.
Qed.

(** A private answer reaches another user.  Alice and Bob ask for a page that has gone
    stale; the origin answers Alice's request with her basket, marked private.  It is not
    stored, but Bob, who waited on her flight, is served it. *)
Example private_answer_is_shared :
  answer 0 (run_shop both_served) = Some (Some 200%Z, B "basket of alice") ∧
  answer 1 (run_shop both_served) = Some (Some 200%Z, B "basket of alice") ∧
  calls_of (run_shop both_served) = Some 2.
Proof. vm_compute. repeat split. Qed.

Definition waiting_shop : system Store sf_group := shop_system two_wait.
Lemma waiting_shop_reachable : reachable plain_titip later (λ _, shop) stale_page waiting_shop.
Proof. apply shop_reachable. vm_compute. reflexivity. Qed.

Definition is_running (f : flight) : bool := match fl_stage f with FRunning => true | _ => false end.
Definition waits_for (cl : client) : option nat := match cl_phase cl with CWaits c _ _ => Some c | _ => None end.

(** The client waits on flight 0, for [/page]. *)
Definition waits_for_page (i : nat) : bool :=
  match sy_clients waiting_shop !! i with
  | Some cl => match waits_for cl with Some 0 => true | _ => false end && (variantKey (cl_ctx cl) =s defaultVariantKey)
  | None => false
  end.

Lemma waiting_client i : waits_for_page i = true →
  ∃ cl key body, sy_clients waiting_shop !! i = Some cl ∧ cl_phase cl = CWaits 0 key body ∧
    variantKey (cl_ctx cl) = defaultVariantKey.
Proof.
  unfold waits_for_page, waits_for. destruct (sy_clients waiting_shop !! i) as [cl|]; [|done].
  destruct (cl_phase cl) as [[|c] key body|c ok] eqn:Hp; simpl; [|done..]. intros Hv%str_eqb_eq. by exists cl, key, body.
Qed.

Lemma one_flight_per_key_witness :
  (λ f, (fl_leader f, fl_dups f, is_running f)) <$> sy_flights waiting_shop !! 0 = Some (0, 1, true) ∧
  ∃ alice bob, sy_clients waiting_shop !! 0 = Some alice ∧ sy_clients waiting_shop !! 1 = Some bob ∧
    primaryKey (cl_ctx alice) = primaryKey (cl_ctx bob).
Proof.
  split; [vm_compute; reflexivity|].
  destruct (waiting_client 0) as (alice & k0 & b0 & H0 & P0 & V0); [vm_compute; reflexivity|].
  destruct (waiting_client 1) as (bob & k1 & b1 & H1 & P1 & V1); [vm_compute; reflexivity|].
  exists alice, bob. split; [exact H0|]. split; [exact H1|].
  destruct (one_flight_per_key plain_titip later (λ _, shop) stale_page waiting_shop waiting_shop_reachable) as (_ & H & _).
  apply (H 0 1 alice bob 0 k0 k1 b0 b1 H0 P0 H1 P1). right. rewrite V0, V1.
  split; apply (bool_decide_unpack _); vm_compute; exact I.
Defined.


Lemma origin_calls_bounded_witness :
  wd_calls (sy_world (shop_system both_served)) = 2 ∧
  wd_calls (sy_world (shop_system both_served))
  <= wd_calls stale_page + sy_direct (shop_system both_served) + executed (sy_flights (shop_system both_served)) ∧
  wd_calls stale_page + sy_direct (shop_system both_served) + executed (sy_flights (shop_system both_served)) = 2.
Proof.
  split; [vm_compute; reflexivity|]. split; [|vm_compute; reflexivity].
  apply (origin_calls_bounded plain_titip later (λ _, shop) stale_page). apply shop_reachable. vm_compute. reflexivity.
Defined.

Lemma alone_is_ServeHTTP_witness :
  ∃ s', rtc (step plain_titip later (λ _, shop)) (new_system stale_page) s' ∧
    (∃ cl, sy_clients s' !! 0 = Some cl ∧ w_Body (cl_w cl) = B "basket of alice").
Proof.
  destruct (alone_is_ServeHTTP plain_titip later (λ _, shop) stale_page (new_system stale_page) 0 (visit "alice") new_writer)
    as (s' & Hs & _ & cl & c & Hcl & Hw & _); [apply rtc_refl|reflexivity|intros k; apply sf_current_new|].
  exists s'. split; [exact Hs|]. exists cl. split; [exact Hcl|]. rewrite Hw. vm_compute. reflexivity.
Defined.

(** Bob arrives when the flight has its result but is still in the group. *)
Definition finished_shop : system Store sf_group := shop_system [Arrive 0 (visit "alice"); Run 0].
Definition basket : fetchResult :=
  mkFetch 200 false false None (hdr [("Cache-Control", "private")]) (B "basket of alice") [].
Definition bob_view : World Store := as_client (wd_ctx (sy_world finished_shop)) new_writer (sy_world finished_shop).

Lemma joined_is_ServeHTTP_witness :
  ∃ s', rtc (step plain_titip later (λ _, shop)) finished_shop s' ∧
    (∃ cl, sy_clients s' !! 1 = Some cl ∧ w_Body (cl_w cl) = B "basket of alice").
Proof.
  set (p := prologue plain_titip later (λ _, shop) (visit "bob") bob_view).
  assert (fl_stage <$> sy_flights finished_shop !! 0 = Some (FFinished (Some basket))) as Hst by (vm_compute; reflexivity).
  assert (fl_key <$> sy_flights finished_shop !! 0 = Some (sfKey (wd_ctx p.1))) as Hk by (vm_compute; reflexivity).
  assert (p.2 = Some (Some (B "hello"))) as Hp by (vm_compute; reflexivity).
  destruct (sy_flights finished_shop !! 0) as [f|] eqn:Hf; [|discriminate Hst].
  apply (inj Some (fl_stage f)) in Hst. apply (inj Some (fl_key f)) in Hk.
  destruct (joined_is_ServeHTTP plain_titip later (λ _, shop) stale_page finished_shop 1 (visit "bob") new_writer 0 f basket
    (B "hello") p.1 false) as (s' & Hs & _ & cl & c & Hcl & Hw & _).
  - apply shop_reachable. vm_compute. reflexivity.
  - vm_compute. reflexivity.
  - rewrite <- Hp. apply surjective_pairing.
  - exact Hf.
  - exact Hst.
  - symmetry. exact Hk.
  - exists s'. split; [exact Hs|]. exists cl. split; [exact Hcl|]. rewrite Hw. vm_compute. reflexivity.
Defined.

(** The plain branch keeps Set-Cookie from the callers of a shared flight; the ESI branch does
    not: Bob is given the session of Alice. *)
Definition esi_titip : Titip :=
  mkTitip demo_config (Some defaultEsiConfig) (Some (λ _ _ _, Fetched (B "menu") ∅)) (λ _ _, Err []) (λ _, true) None [].

Definition session_page (r : Request) : Writer → Writer * bool := λ w,
  let h := hdr [("Surrogate-Control", "content=ESI/1.0"); ("Cache-Control", "max-age=60")] in
  let h := h_Add h headerSetCookie (B "session=" ++ h_Get (r_Header r) (B "Cookie")) in
  (Write (WriteHeader (w_with_header w h) 200) (B "<esi:include src=" ++ [dquote] ++ B "/menu" ++ [dquote] ++ B "/>"), false).

Definition session_shop (titip : Titip) (origin : Request → Writer → Writer * bool) (acts : list action)
    : option (system Store sf_group) :=
  schedule titip later (λ _, origin) acts (new_system stale_page).

(** The cookies client [i] was sent. *)
Definition cookies_of (i : nat) (o : option (system Store sf_group)) : option (list str) :=
  s ← o; cl ← sy_clients s !! i; '(_, h) ← w_sent (cl_w cl); Some (h_Values h headerSetCookie).

Example esi_flight_shares_cookies :
  cookies_of 1 (session_shop esi_titip session_page both_served) = Some [B "session=alice"] ∧
  cookies_of 1 (session_shop plain_titip session_page both_served) = Some [].
Proof. vm_compute. repeat split. Qed.

(** Flights are named by the keys of the entry, which HEAD and GET share.  When HEAD is not turned into
    GET, a GET that joins the flight of a HEAD is answered 200 with an empty body. *)
Definition by_method (r : Request) : Writer → Writer * bool :=
  respond 200 [("Cache-Control", "max-age=60")] (if r_Method r =s MethodHead then "" else "hello").

Example head_leader_empties_get :
  answer 1 (session_shop (mkTitip (config_with false) None None (λ _ _, Err []) (λ _, true) None []) by_method
    [Arrive 0 (request "HEAD" "/page" []); Arrive 1 (request "GET" "/page" []); Run 0; Return 0; Finish 0; Finish 1])
  = Some (Some 200%Z, []).
Proof. vm_compute. reflexivity. Qed.
