(* ===== verification/Shutdown.v ===== *)
(** * Shutdown ([Titip.Close] of [src/titip.go], [spawnSWR] of [src/handler_context.go])

    [Close] sets a flag, waits for the background refreshes of the wait group [swrWG] or for
    its context, and closes the storage.  Requests run meanwhile: [spawnSWR] reads the flag
    and then joins the group; every fetch reads it again ([Handler.should_cache]) before it
    stores what the origin answered.  [step] is one atomic action of one goroutine. *)

From S2P Require Import Prelude GoStrings GoHttp Env Headers Freshness Storage Handler HandlerProps.

(** ** Data *)

(** A fetch that may store its answer.  A background refresh starts at [Arriving], about to read the
    flag in [spawnSWR]; a request's own fetch starts at [Running].  [Fetched] has the origin's answer
    and is about to read the flag; [Saving] is inside [saveVariantToStorage]; at [Finishing]
    the deferred [swrWG.Done] is next. *)
Inductive stage := Arriving | Entering | Refused | Running | Fetched (f : freshnessInfo) | Saving | Finishing | Finished.

Record task := mkTask { background : bool; method : str; at_ : stage }.

(** The storage may be closed with a context ([storage.Closer]) or without ([io.Closer]); [err] is
    what its [Close] returns. *)
Inductive closable := ContextCloser (err : option str) | IOCloser (err : option str) | NotClosable.

(** Where [Close] is: not called; the flag is set; in its [select]; about to close
    the storage; returned with the two errors it joins. *)
Inductive cphase :=
  | NotCalled
  | Stored
  | Selecting
  | ClosesStorage (waitErr : option str)
  | Returned (waitErr closeErr : option str).

Record process := mkProcess {
  closed : bool;
  swrWG : nat;
  tasks : list task;
  closing : cphase;
  done : option bool;          (* the channel: not made, open, closed *)
  expired : option str;        (* [ctx.Err()] *)
  storage_closed : bool;
}.

Definition set_at (i : nat) (k : task) (st : stage) (n : nat) (s : process) : process :=
  mkProcess (closed s) n (<[i := mkTask (background k) (method k) st]> (tasks s)) (closing s) (done s) (expired s)
    (storage_closed s).

(** ** Operations *)

Definition wait_error (err : str) : str :=
  B "titip: close timeout waiting for background swr tasks: " ++ err.

(** The type switch on the storage: what is called, and the error it gives. *)
Definition close_storage (st : closable) : bool * option str :=
  match st with
  | ContextCloser err | IOCloser err => (true, option_map (λ e, B "titip: storage close: " ++ e) err)
  | NotClosable => (false, None)
  end.

(** [errors.Join]: nil for no errors, and otherwise their texts, a line each. *)
Definition Join (errs : list (option str)) : option str :=
  match omap id errs with
  | [] => None
  | e :: es => Some (foldl (λ acc e, acc ++ [ascii_of_nat 10] ++ e) e es)
  end.

(** What [Close] returns. *)
Definition Close_result (p : cphase) : option (option str) :=
  match p with Returned w c => Some (Join [w; c]) | _ => None end.

Section Shutdown.
Context (t : Titip) (st : closable).

(** A step of a fetch that leaves the wait group alone. *)
Inductive moves (flag : bool) (method : str) : stage → stage → Prop :=
  | m_admit : flag = false → moves flag method Arriving Entering
  | m_refuse : flag = true → moves flag method Arriving Refused
  | m_answer f : moves flag method Running (Fetched f)
  | m_panic : moves flag method Running Finishing
  | m_save f : should_cache t f flag method = true → moves flag method (Fetched f) Saving
  | m_skip f : should_cache t f flag method = false → moves flag method (Fetched f) Finishing
  | m_saved : moves flag method Saving Finishing.

Inductive step : process → process → Prop :=
  | step_move s i k y :
      tasks s !! i = Some k → moves (closed s) (method k) (at_ k) y → step s (set_at i k y (swrWG s) s)
  | step_add s i k :                                  (* [t.swrWG.Add(1)], and the goroutine *)
      tasks s !! i = Some k → at_ k = Entering → step s (set_at i k Running (S (swrWG s)) s)
  | step_finish s i k :
      tasks s !! i = Some k → at_ k = Finishing →
      step s (set_at i k Finished (if background k then pred (swrWG s) else swrWG s) s)
  | step_close c n ts e sc :                          (* [t.closed.Store(true)] *)
      step (mkProcess c n ts NotCalled None e sc) (mkProcess true n ts Stored None e sc)
  | step_wait c n ts e sc :                           (* the goroutine that waits for the group *)
      step (mkProcess c n ts Stored None e sc) (mkProcess c n ts Selecting (Some false) e sc)
  | step_waited c ts p e sc :
      step (mkProcess c 0 ts p (Some false) e sc) (mkProcess c 0 ts p (Some true) e sc)
  | step_expire c n ts p d sc err :
      step (mkProcess c n ts p d None sc) (mkProcess c n ts p d (Some err) sc)
  | step_select_done c n ts e sc :
      step (mkProcess c n ts Selecting (Some true) e sc) (mkProcess c n ts (ClosesStorage None) (Some true) e sc)
  | step_select_ctx c n ts d err sc :                 (* [ctx.Done()], then [done] is looked at again *)
      step (mkProcess c n ts Selecting (Some d) (Some err) sc)
        (mkProcess c n ts (ClosesStorage (if d then None else Some (wait_error err))) (Some d) (Some err) sc)
  | step_storage c n ts w d e sc :
      step (mkProcess c n ts (ClosesStorage w) d e sc)
        (mkProcess c n ts (Returned w (close_storage st).2) d e (sc || (close_storage st).1)).

(** Requests on their way to [spawnSWR], and fetches of requests. *)
Definition initial (k : task) : Prop := at_ k = if background k then Arriving else Running.
Definition serving (ts : list task) : process := mkProcess false 0 ts NotCalled None None false.
Definition reachable (ts : list task) (s : process) : Prop := Forall initial ts ∧ rtc step (serving ts) s.

(** A goroutine that the group counts. *)
Definition registered (st : stage) : bool :=
  match st with Running | Fetched _ | Saving | Finishing => true | _ => false end.
Definition counted (k : task) : nat := if background k && registered (at_ k) then 1 else 0.

(** [Close] has seen the group empty. *)
Definition waited (s : process) : Prop := done s = Some true.

(** ** The invariant *)

(** Where [Close] is, and what that says of the channel, the context and the storage. *)
Definition phase_ok (s : process) : Prop :=
  match closing s with
  | NotCalled => done s = None ∧ storage_closed s = false
  | Stored => closed s = true ∧ done s = None ∧ storage_closed s = false
  | Selecting => closed s = true ∧ is_Some (done s) ∧ storage_closed s = false
  | ClosesStorage None => closed s = true ∧ waited s ∧ storage_closed s = false
  | ClosesStorage (Some w) =>
      closed s = true ∧ is_Some (done s) ∧ (∃ e, expired s = Some e ∧ w = wait_error e) ∧ storage_closed s = false
  | Returned w c =>
      closed s = true ∧ is_Some (done s) ∧ c = (close_storage st).2 ∧ storage_closed s = (close_storage st).1 ∧
      match w with None => waited s | Some w => ∃ e, expired s = Some e ∧ w = wait_error e end
  end.

Definition at_ease (k : task) : Prop := background k = true → at_ k ≠ Saving.
Definition before (x : stage) : bool := match x with Arriving | Entering | Refused => true | _ => false end.

Record Inv (s : process) : Prop := {
  inv_wg : swrWG s = tally counted (tasks s);
  inv_kind : Forall (λ k, before (at_ k) = true → background k = true) (tasks s);
  inv_phase : phase_ok s;
  inv_ease : waited s → closed s = true ∧ Forall at_ease (tasks s);
}.

Lemma serving_Inv ts : Forall initial ts → Inv (serving ts).
Proof.
  intros Hts. split; simpl; [|eapply Forall_impl; [done|]|done|done].
  - unfold tally. induction Hts as [|k ts Hk _ IH]; csimpl; [done|]. rewrite <- IH. unfold counted, initial in *.
    rewrite Hk. by destruct (background k).
  - intros k Hk. unfold initial in Hk. rewrite Hk. by destruct (background k).
Qed.

(** The channel is open, and no goroutine of the group is left. *)
Lemma empty_group ts : tally counted ts = 0 → Forall at_ease ts.
Proof.
  intros H. apply Forall_lookup. intros i k Hk Hb Ha. pose proof (tally_weight counted ts i k Hk) as Hw.
  unfold counted in Hw at 1. rewrite Hb, Ha in Hw. simpl in Hw. lia.
Qed.

(** A fetch moves: the counter of the group follows it, and nothing is saved once the group was empty. *)
Lemma Inv_set_at s i k y n :
  Inv s → tasks s !! i = Some k → n + counted k = swrWG s + counted (mkTask (background k) (method k) y) →
  (before y = true → background k = true) → (waited s → background k = true → y ≠ Saving) →
  Inv (set_at i k y n s).
Proof.
  intros [H1 H2 H3 H4] Hk Hn Hb Hy. split; simpl.
  - moved. lia.
  - by apply Forall_insert.
  - done.
  - intros Hw. destruct (H4 Hw) as [? He]. split; [done|]. apply Forall_insert; [done|]. intros ?. by apply Hy.
Qed.

Lemma kind_at s i k : Inv s → tasks s !! i = Some k → before (at_ k) = true → background k = true.
Proof. intros Hs Hk. exact (proj1 (Forall_lookup _ _) (inv_kind s Hs) i k Hk). Qed.

(** Nothing begins to save while the flag is set. *)
Lemma save_needs_flag flag m x y : moves flag m x y → y = Saving → flag = false.
Proof. destruct 1 as [| | | |f Hc| |]; try done. intros _. unfold should_cache in Hc. repeat case_match; try done. by destruct (IsCacheable f), flag. Qed.

Lemma moves_counted flag m x y b : moves flag m x y → counted (mkTask b m x) = counted (mkTask b m y).
Proof. by destruct 1; destruct b. Qed.

Lemma moves_before flag m x y : moves flag m x y → before y = true → before x = true.
Proof. by destruct 1. Qed.

(** A step of [Close], of its goroutine or of its context. *)
Ltac closing_step Hs :=
  destruct Hs as [H1 H2 H3 H4]; split; unfold phase_ok, waited in *; simpl in *; try done; naive_solver.

Lemma process_step_Inv s s' : Inv s → step s s' → Inv s'.
Proof.
  intros Hs Hstep. destruct Hstep as [s i k y Hk Hm|s i k Hk Ha|s i k Hk Ha|c n ts e sc|c n ts e sc|c ts p e sc
    |c n ts p d sc err|c n ts e sc|c n ts d err sc|c n ts w d e sc].
  - destruct k as [b m x]. simpl in *. apply Inv_set_at; simpl; try done.
    + by rewrite (moves_counted _ _ _ _ b Hm).
    + intros Hy. apply (kind_at s i _ Hs Hk). by eapply moves_before.
    + intros Hw _ ->. destruct (inv_ease s Hs Hw). by rewrite (save_needs_flag _ _ _ _ Hm eq_refl) in *.
  - assert (background k = true) as Hb by (apply (kind_at s i k Hs Hk); by rewrite Ha).
    apply Inv_set_at; try done. unfold counted. rewrite Hb, Ha. simpl. lia.
  - apply Inv_set_at; try done. pose proof (tally_weight counted _ _ _ Hk) as Hw. rewrite <- (inv_wg s Hs) in Hw.
    unfold counted in *. rewrite Ha in *. simpl. destruct (background k); simpl in *; lia.
  - closing_step Hs.
  - closing_step Hs.
  - destruct Hs as [H1 H2 H3 H4]. assert (c = true) as ->.
    { unfold phase_ok in H3. destruct p as [| | |[w|]|[w|] cl]; simpl in *; destruct_and?; try done. }
    split; [done..| |intros _; split; [done|by apply empty_group]].
    unfold phase_ok, waited in *. destruct p as [| | |[w|]|[w|] cl]; simpl in *; destruct_and?; naive_solver.
  - destruct p as [| | |[w|]|[w|] cl]; closing_step Hs.
  - closing_step Hs.
  - destruct d; closing_step Hs.
  - destruct w; closing_step Hs.
Qed.

Lemma process_reachable_Inv ts s : reachable ts s → Inv s.
Proof.
  intros [Hts Hr]. pose proof (serving_Inv ts Hts) as H. revert H.
  induction Hr as [|s s' s'' Hst _ IH]; [done|]. intros H. apply IH. by eapply process_step_Inv.
Qed.

Lemma waited_stays s s' : step s s' → waited s → waited s'.
Proof. by destruct 1. Qed.

(** ** A goroutine that the group counts is waited for *)
Definition steady (i : nat) (s : process) : Prop :=
  ∃ k, tasks s !! i = Some k ∧ background k = true ∧ (registered (at_ k) = true ∨ at_ k = Finished) ∧
    (waited s → at_ k = Finished).

Lemma steady_set_at i s j k y n :
  tasks s !! j = Some k → (registered (at_ k) = true → registered y = true ∨ y = Finished) →
  (registered (at_ k) = true ∨ at_ k = Finished → registered (at_ k) = true) →
  steady i s → steady i (set_at j k y n s).
Proof.
  intros Hj Hy Hn (k' & Hk & Hb & Ha & Hw). destruct (decide (j = i)) as [->|Hne].
  - rewrite Hj in Hk. injection Hk as <-. exists (mkTask (background k) (method k) y). simpl.
    rewrite list_lookup_insert_eq by (by eapply lookup_lt_Some). split_and!; try done; [by apply Hy, Hn|].
    intros Hd. apply Hn in Ha. specialize (Hw Hd). by rewrite Hw in Ha.
  - exists k'. simpl. by rewrite list_lookup_insert_ne.
Qed.

Lemma step_steady i s s' : Inv s → step s s' → steady i s → steady i s'.
Proof.
  intros Hs Hstep Hi. destruct Hstep as [s j k y Hk Hm|s j k Hk Ha|s j k Hk Ha|c n ts e sc|c n ts e sc|c ts p e sc
    |c n ts p d sc err|c n ts e sc|c n ts d err sc|c n ts w d e sc].
  - apply steady_set_at; try done; destruct Hm; simpl; try tauto; by intros [].
  - apply steady_set_at; try done; rewrite Ha; simpl; [done|]. by intros [].
  - apply steady_set_at; try done; rewrite Ha; simpl; auto.
  - destruct Hi as (k & Hk & Hb & Ha & _). by exists k.
  - destruct Hi as (k & Hk & Hb & Ha & _). by exists k.
  - destruct Hi as (k & Hk & Hb & Ha & _). exists k. split_and!; try done. intros _. destruct Ha as [Ha|Ha]; [|done].
    pose proof (tally_weight counted ts _ _ Hk) as Hw. pose proof (inv_wg _ Hs) as Hz. simpl in Hz.
    assert (counted k = 1) by (unfold counted; by rewrite Hb, Ha). lia.
  - done.
  - done.
  - done.
  - done.
Qed.

Lemma run_steady i s s' : Inv s → rtc step s s' → steady i s → steady i s' ∧ Inv s'.
Proof.
  intros Hs Hr. revert Hs. induction Hr as [|s s1 s' Hst _ IH]; [done|]. intros Hs Hi.
  apply IH; [by eapply process_step_Inv|by eapply step_steady].
Qed.

Lemma Join_two w c : Join [w; c] =
  match w, c with
  | None, c => c
  | Some a, None => Some a
  | Some a, Some b => Some (a ++ [ascii_of_nat 10] ++ b)
  end.
Proof. by destruct w, c. Qed.

(** ** Termination *)
Definition fetch_rank (k : task) : nat :=
  match at_ k with
  | Arriving => 6 | Entering => 5 | Running => 4 | Fetched _ => 3 | Saving => 2 | Finishing => 1 | _ => 0
  end.
Definition close_rank (p : cphase) : nat :=
  match p with NotCalled => 4 | Stored => 3 | Selecting => 2 | ClosesStorage _ => 1 | Returned _ _ => 0 end.
Definition rank (s : process) : nat :=
  tally fetch_rank (tasks s) + close_rank (closing s) + (if done s is Some true then 0 else 1)
  + (if expired s is Some _ then 0 else 1).

Lemma moves_rank flag m x y b : moves flag m x y → fetch_rank (mkTask b m y) < fetch_rank (mkTask b m x).
Proof. destruct 1; unfold fetch_rank; simpl; lia. Qed.

Lemma step_rank s s' : step s s' → rank s' < rank s.
Proof.
  destruct 1 as [s j [b m x] y Hk Hm|s j k Hk Ha|s j k Hk Ha|c n ts e sc|c n ts e sc|c ts p e sc
    |c n ts p d sc err|c n ts e sc|c n ts d err sc|c n ts w d e sc]; unfold rank; simpl; try lia.
  - moved. pose proof (moves_rank _ _ _ _ b Hm). simpl in *. lia.
  - moved. unfold fetch_rank in *. rewrite Ha in *. simpl in *. lia.
  - moved. unfold fetch_rank in *. rewrite Ha in *. simpl in *. lia.
Qed.

Lemma run_rank n s s' : nsteps step n s s' → n + rank s' ≤ rank s.
Proof. induction 1 as [|n s s1 s' Hst _ IH]; [done|]. apply step_rank in Hst. lia. Qed.

(** A fetch that is neither refused nor finished can move, whatever the flag is. *)
Lemma fetch_moves s i k : tasks s !! i = Some k → at_ k ≠ Refused → at_ k ≠ Finished → ∃ s', step s s'.
Proof.
  intros Hk Hr Hf. destruct (at_ k) as [| | | |f| | |] eqn:Ha; try done.
  - destruct (closed s) eqn:Hc; eexists; eapply step_move; try done; rewrite Ha; by constructor.
  - eexists. by eapply step_add.
  - eexists. eapply step_move; [done|]. rewrite Ha. apply m_panic.
  - destruct (should_cache t f (closed s) (method k)) eqn:Hc; eexists; eapply step_move; try done; rewrite Ha;
      [by apply m_save|by apply m_skip].
  - eexists. eapply step_move; [done|]. rewrite Ha. apply m_saved.
  - eexists. by eapply step_finish.
Qed.

Definition settled (k : task) : Prop := at_ k = Refused ∨ at_ k = Finished.
Definition ended (s : process) : Prop := Close_result (closing s) ≠ None ∧ Forall settled (tasks s).

Lemma settled_dec k : settled k ∨ (at_ k ≠ Refused ∧ at_ k ≠ Finished).
Proof. unfold settled. destruct (at_ k); auto. Qed.

Lemma closing_moves s : Inv s → Close_result (closing s) = None → ∃ s', step s s'.
Proof.
  intros Hs Hc. pose proof (inv_phase s Hs) as Hp. pose proof (inv_wg s Hs) as Hw.
  destruct s as [c n ts p d e sc]. unfold phase_ok in Hp. destruct p as [| | |w|]; simpl in *.
  - destruct Hp as [-> _]. eexists. apply step_close.
  - destruct Hp as (_ & -> & _). eexists. apply step_wait.
  - destruct Hp as (_ & [[] ->] & _); [eexists; apply step_select_done|]. destruct n as [|n].
    + eexists. apply step_waited.
    + destruct (tally_pos counted ts) as (i & k & Hk & Hpos); [lia|]. unfold counted in Hpos.
      apply (fetch_moves _ i k); simpl; [done|..]; intros Ha; rewrite Ha, andb_false_r in Hpos; lia.
  - eexists. apply step_storage.
  - done.
Qed.

Lemma process_progress s : Inv s → (∃ s', step s s') ∨ ended s.
Proof.
  intros Hs. destruct (Close_result (closing s)) eqn:Hc; [|left; by apply closing_moves].
  assert ((∃ i k, tasks s !! i = Some k ∧ at_ k ≠ Refused ∧ at_ k ≠ Finished) ∨ Forall settled (tasks s))
    as [(i & k & Hk & ? & ?)|Ha]; [|left; by eapply fetch_moves|right; split; [by rewrite Hc|done]].
  induction (tasks s) as [|k ts IH]; [by right|]. destruct (settled_dec k) as [?|?]; [|left; by exists 0, k].
  destruct IH as [(i & k' & ?)|?]; [left; by exists (S i), k'|right; by constructor].
Qed.

(** Once its context is done, [Close] gets through on its own. *)
Lemma impatient s err : Inv s → expired s = Some err → closing s ≠ NotCalled →
  ∃ s', rtc step s s' ∧ Close_result (closing s') ≠ None ∧ tasks s' = tasks s.
Proof.
  intros Hs He Hc. pose proof (inv_phase s Hs) as Hp. destruct s as [c n ts p d e sc]. simpl in *. subst e.
  assert (∀ w d, ∃ s', rtc step (mkProcess c n ts (ClosesStorage w) d (Some err) sc) s' ∧ Close_result (closing s') ≠ None
    ∧ tasks s' = ts) as Hlast.
  { intros w' d'. eexists. split; [apply rtc_once, step_storage|]. done. }
  assert (∀ d, ∃ s', rtc step (mkProcess c n ts Selecting (Some d) (Some err) sc) s' ∧ Close_result (closing s') ≠ None
    ∧ tasks s' = ts) as Hselect.
  { intros d'. destruct (Hlast (if d' then None else Some (wait_error err)) (Some d')) as (s' & ? & ?).
    exists s'. split; [|done]. eapply rtc_l; [apply step_select_ctx|done]. }
  unfold phase_ok in Hp. destruct p as [| | |w|w cl]; simpl in *.
  - done.
  - destruct Hp as (_ & -> & _). destruct (Hselect false) as (s' & ? & ?). exists s'. split; [|done].
    eapply rtc_l; [apply step_wait|done].
  - destruct Hp as (_ & [d' ->] & _). apply Hselect.
  - apply Hlast.
  - eexists. split; [apply rtc_refl|]. done.
Qed.

Lemma rank_serving ts : rank (serving ts) ≤ 6 * length ts + 6.
Proof.
  unfold rank. simpl. assert (tally fetch_rank ts ≤ 6 * length ts); [|lia].
  induction ts as [|k ts IH]; unfold tally in *; csimpl; [lia|].
  assert (fetch_rank k ≤ 6) by (unfold fetch_rank; destruct (at_ k); lia). lia.
Qed.

(** ** Properties *)

(** C10: [Close] waits, and the storage is not closed under a refresh.  When [Close] has seen the
    group empty, every background refresh that was running when it was called has
    finished; and no refresh is inside a storage write, then or ever after, although a
    request may have passed the check of [spawnSWR] just before the flag was set: it reads the
    flag again before it writes. *)
Theorem close_waits ts s s' (H : reachable ts s) (Hopen : closed s = false) (Hr : rtc step s s') (Hw : waited s') :
  (∀ i k, tasks s !! i = Some k → counted k = 1 → at_ <$> (tasks s' !! i) = Some Finished) ∧
  ∀ s'', rtc step s' s'' → Forall at_ease (tasks s'').
Proof.
  apply process_reachable_Inv in H as Hs. split.
  - intros i k Hk Hc. destruct (run_steady i s s' Hs Hr) as [(k' & -> & _ & _ & Ha) _].
    + exists k. unfold counted in Hc. destruct (background k), (registered (at_ k)) eqn:Hg; try done.
      split_and!; auto. intros Hd. destruct (inv_ease s Hs Hd). congruence.
    + simpl. by rewrite Ha.
  - intros s'' Hr'. destruct H as [Hts H0].
    assert (Inv s') as Hs' by (apply (process_reachable_Inv ts); split; [done|by etrans]). clear - Hr' Hs' Hw.
    induction Hr' as [|s1 s2 s3 Hst _ IH]; [by apply inv_ease|].
    apply IH; [by eapply waited_stays|by eapply process_step_Inv].
Qed.

(** C19: Shutdown ends.  Every run is at most six steps for each fetch and six more, and goes on
    until [Close] has returned and every fetch is over; and once the context of [Close] is
    done, it can return without any fetch taking a step, however slow an origin is. *)
Theorem close_ends ts n s (Hts : Forall initial ts) (H : nsteps step n (serving ts) s) :
  n ≤ 6 * length ts + 6 ∧ ((∃ s', step s s') ∨ ended s) ∧
  (is_Some (expired s) → closing s ≠ NotCalled →
    ∃ s', rtc step s s' ∧ Close_result (closing s') ≠ None ∧ tasks s' = tasks s).
Proof.
  assert (Inv s) as Hs by (apply (process_reachable_Inv ts); split; [done|]; apply rtc_nsteps; by exists n).
  split_and!.
  - pose proof (run_rank _ _ _ H). pose proof (rank_serving ts). lia.
  - by apply process_progress.
  - intros [err He]. by eapply impatient.
Qed.

(** What [Close] reports.  Its error joins a wait error, which only a done context gives, with that
    of the storage, which is closed exactly when it can be; no error means that the
    group was seen empty and that the storage closed. *)
Theorem close_reports ts s w c (H : reachable ts s) (Hc : closing s = Returned w c) :
  c = (close_storage st).2 ∧ storage_closed s = (close_storage st).1 ∧
  (∀ e, w = Some e → ∃ err, expired s = Some err ∧ e = wait_error err) ∧
  (Close_result (closing s) = Some None ↔ w = None ∧ c = None) ∧ (w = None → waited s) ∧
  (∀ e e', w = Some e → c = Some e' → Close_result (closing s) = Some (Some (e ++ [ascii_of_nat 10] ++ e'))).
Proof.
  apply process_reachable_Inv in H as Hs. pose proof (inv_phase s Hs) as Hp. unfold phase_ok in Hp. rewrite Hc in *.
  destruct Hp as (_ & _ & Hcl & Hsc & Hw). simpl. rewrite Join_two.
  split_and!; try done; [by intros e ->|destruct w, c; naive_solver|by intros ->|by intros e e' -> ->].
Qed.
End Shutdown.

(** ** Schedules *)

(** Who acts next: a fetch ([Some f] is the answer it gets), [Close], its goroutine, its context. *)
Inductive act := AFetch (i : nat) (answer : option freshnessInfo) | AClose | AGroup | AExpire (err : str).

Definition fetch (t : Titip) (i : nat) (answer : option freshnessInfo) (s : process) : option process :=
  k ← tasks s !! i;
  match at_ k with
  | Arriving => Some (set_at i k (if closed s then Refused else Entering) (swrWG s) s)
  | Entering => Some (set_at i k Running (S (swrWG s)) s)
  | Running => Some (set_at i k (match answer with Some f => Fetched f | None => Finishing end) (swrWG s) s)
  | Fetched f => Some (set_at i k (if should_cache t f (closed s) (method k) then Saving else Finishing) (swrWG s) s)
  | Saving => Some (set_at i k Finishing (swrWG s) s)
  | Finishing => Some (set_at i k Finished (if background k then pred (swrWG s) else swrWG s) s)
  | _ => None
  end.

Definition run_close (st : closable) (s : process) : option process :=
  let '(mkProcess c n ts p d e sc) := s in
  match p, d, e with
  | NotCalled, None, _ => Some (mkProcess true n ts Stored None e sc)
  | Stored, None, _ => Some (mkProcess c n ts Selecting (Some false) e sc)
  | Selecting, Some true, _ => Some (mkProcess c n ts (ClosesStorage None) (Some true) e sc)
  | Selecting, Some false, Some err => Some (mkProcess c n ts (ClosesStorage (Some (wait_error err))) (Some false) (Some err) sc)
  | ClosesStorage w, _, _ => Some (mkProcess c n ts (Returned w (close_storage st).2) d e (sc || (close_storage st).1))
  | _, _, _ => None
  end.

Definition perform (t : Titip) (st : closable) (a : act) (s : process) : option process :=
  match a, s with
  | AFetch i answer, _ => fetch t i answer s
  | AClose, _ => run_close st s
  | AGroup, mkProcess c 0 ts p (Some false) e sc => Some (mkProcess c 0 ts p (Some true) e sc)
  | AExpire err, mkProcess c n ts p d None sc => Some (mkProcess c n ts p d (Some err) sc)
  | _, _ => None
  end.

Fixpoint play (t : Titip) (st : closable) (acts : list act) (s : process) : option process :=
  match acts with [] => Some s | a :: rest => s' ← perform t st a s; play t st rest s' end.

Lemma fetch_step t st i answer s s' : fetch t i answer s = Some s' → step t st s s'.
Proof.
  unfold fetch. destruct (tasks s !! i) as [k|] eqn:Hk; simpl; [|done]. destruct (at_ k) eqn:Ha; intros [= <-].
  - destruct (closed s) eqn:Hc; eapply step_move; try done; rewrite Ha, Hc; by constructor.
  - by eapply step_add.
  - eapply step_move; [done|]. rewrite Ha. destruct answer; constructor.
  - eapply step_move; [done|]. rewrite Ha. case_match; by constructor.
  - eapply step_move; [done|]. rewrite Ha. constructor.
  - by eapply step_finish.
Qed.

Lemma run_close_step t st s s' : run_close st s = Some s' → step t st s s'.
Proof.
  destruct s as [c n ts [| | |w|] [[]|] [err|] sc]; simpl; intros [= <-]; try constructor.

Qed.

Lemma perform_step t st a s s' : perform t st a s = Some s' → step t st s s'.
Proof.
  destruct a; simpl; [apply fetch_step|apply run_close_step|..].
  - destruct s as [c [] ts p [[]|] e sc]; intros [= <-]. constructor.
  - destruct s as [c n ts p d [] sc]; intros [= <-]. constructor.
Qed.

Lemma play_steps t st acts s s' : play t st acts s = Some s' → nsteps (step t st) (length acts) s s'.
Proof.
  revert s. induction acts as [|a acts IH]; simpl; intros s H; [injection H as ->; constructor|].
  destruct (perform t st a s) as [s1|] eqn:Ha; [|done]. econstructor; [by eapply perform_step|by apply IH].
Qed.

(** ** Witnesses: a refresh that is saving, and a request that has just passed the check *)
Definition kept_answer : freshnessInfo := mkFresh 0 0 0 60 60 0 0 true None.
Definition redis_like : closable := ContextCloser (Some (B "connection reset")).
Definition two_refreshes : list task := [mkTask true (B "GET") Arriving; mkTask true (B "GET") Arriving].
Definition play_from (ts : list task) (st : closable) (acts : list act) : option process :=
  play Demo.plain_titip st acts (serving ts).

Definition one_saving : list act :=
  [AFetch 0 None; AFetch 0 None; AFetch 0 (Some kept_answer); AFetch 0 None; AFetch 1 None].
Definition close_after_it : list act := [AClose; AClose; AFetch 0 None; AFetch 0 None; AGroup].

Lemma played ts st acts s : Forall initial ts → play_from ts st acts = Some s → reachable Demo.plain_titip st ts s.
Proof. intros Hts H. split; [done|]. apply rtc_nsteps. exists (length acts). by apply play_steps. Qed.

Lemma two_initial : Forall initial two_refreshes.
Proof. by repeat constructor. Qed.

Definition ending (ts : list task) (st : closable) (acts : list act) : process := default (serving []) (play_from ts st acts).
Definition during : process := ending two_refreshes redis_like one_saving.
Definition after : process := ending two_refreshes redis_like (one_saving ++ close_after_it).

Lemma close_waits_witness :
  at_ <$> tasks during = [Saving; Entering] ∧ waited after ∧ at_ <$> (tasks after !! 0) = Some Finished.
Proof.
  split; [reflexivity|]. split; [reflexivity|].
  refine (proj1 (close_waits Demo.plain_titip redis_like two_refreshes during after _ eq_refl _ eq_refl) 0
    (mkTask true (B "GET") Saving) eq_refl eq_refl).
  - apply (played _ _ one_saving); [apply two_initial|vm_compute; reflexivity].
  - apply rtc_nsteps. exists (length close_after_it). apply play_steps. vm_compute. reflexivity.
Defined.

Definition until_deadline : list act := one_saving ++ [AClose; AExpire (B "deadline")].

Lemma close_ends_witness :
  ∃ s', rtc (step Demo.plain_titip redis_like) (ending two_refreshes redis_like until_deadline) s' ∧
    Close_result (closing s') ≠ None ∧ tasks s' = tasks (ending two_refreshes redis_like until_deadline).
Proof.
  refine (proj2 (proj2 (close_ends Demo.plain_titip redis_like two_refreshes 7 _ two_initial _)) _ _); [|by eexists|done].
  apply (play_steps Demo.plain_titip redis_like until_deadline). vm_compute. reflexivity.
Defined.

(** A refresh that does not come back: both errors are reported. *)
Lemma close_reports_witness :
  Close_result (closing (ending two_refreshes redis_like (until_deadline ++ [AClose; AClose; AClose]))) =
    Some (Some (B "titip: close timeout waiting for background swr tasks: deadline" ++ [ascii_of_nat 10]
                ++ B "titip: storage close: connection reset")).
Proof.
  refine (proj2 (proj2 (proj2 (proj2 (proj2 (close_reports Demo.plain_titip redis_like two_refreshes
    (ending two_refreshes redis_like (until_deadline ++ [AClose; AClose; AClose]))
    (Some (wait_error (B "deadline"))) (Some (B "titip: storage close: connection reset")) _ eq_refl))))) _ _ eq_refl eq_refl).
  apply (played _ _ (until_deadline ++ [AClose; AClose; AClose])); [apply two_initial|vm_compute; reflexivity].
Defined.

(** A defect: a request that passed the check of [spawnSWR] before the flag was set
    starts its refresh after [Close] has returned; the origin is called after the shutdown
    (the answer is not stored). *)
Example refresh_starts_after_close :
  ∃ s, play_from two_refreshes NotClosable (one_saving ++ close_after_it ++ [AClose; AClose; AFetch 1 None]) = Some s ∧
    Close_result (closing s) = Some None ∧ at_ <$> tasks s = [Finished; Running].
Proof. eexists. split; [reflexivity|]. split; reflexivity. Qed.

(** [Close] does not wait for requests: a fetch that read the flag before it was set writes to a
    closed storage. *)
Example request_writes_to_closed_storage :
  ∃ s, play_from [mkTask false (B "GET") Running] redis_like
         ([AFetch 0 (Some kept_answer); AFetch 0 None] ++ [AClose; AClose; AGroup; AClose; AClose]) = Some s ∧
    storage_closed s = true ∧ at_ <$> tasks s = [Saving].
Proof. eexists. split; [reflexivity|]. split; reflexivity. Qed.
