(* ===== verification/Metrics.v ===== *)
(** * Telemetry ([src/metrics.go], [src/esi/metrics.go])

    The collectors of a middleware and of its ESI processor, what recording does to
    them, and what an exported counter says of the pipeline: [meter] replays the
    trace of [Handler] on the collectors.  The Prometheus client library is the class
    [Prometheus].  [None] as a result is a Go panic; a nil [*metrics] is [None] as an argument. *)

From S2P Require Import Prelude GoStrings GoHttp Env Headers Freshness CacheKey Storage Purge Scanner Esi Compress Config Handler HandlerLogic.
#[local] Open Scope handler_scope.
#[local] Unset Default Proof Using.

(** ** The client library

    A vector keeps a number per combination of label values.  [WithLabelValues] panics
    unless it is given one value per label, and [Add] panics on a negative number.
    Counters are 64-bit floats, exact up to [2^53].  A registry keeps, of the collectors
    of one name, the one that was registered first; [Register] refuses the others. *)
Definition float_exact : Z := 2 ^ 53.

Class Prometheus := {
  CounterVec : Type;
  HistogramVec : Type;
  Registry : Type;
  NewCounterVec : str → list str → CounterVec;
  NewHistogramVec : str → list str → HistogramVec;
  counter_labels : CounterVec → list str;
  histogram_labels : HistogramVec → list str;
  counter_value : CounterVec → list str → Z;
  histogram_count : HistogramVec → list str → Z;
  counter_Add : CounterVec → list str → Z → option CounterVec;
  histogram_Observe : HistogramVec → list str → Z → option HistogramVec;
  Register : Registry → str → nat → Registry * bool;
  registered : Registry → str → option nat;
  counter_new n ls : counter_labels (NewCounterVec n ls) = ls ∧ ∀ vs, counter_value (NewCounterVec n ls) vs = 0%Z;
  histogram_new n ls : histogram_labels (NewHistogramVec n ls) = ls ∧ ∀ vs, histogram_count (NewHistogramVec n ls) vs = 0%Z;
  counter_Add_spec c vs n : length vs = length (counter_labels c) → (0 ≤ n)%Z →
    ∃ c', counter_Add c vs n = Some c' ∧ counter_labels c' = counter_labels c ∧
      (∀ vs', vs' ≠ vs → counter_value c' vs' = counter_value c vs') ∧
      ((counter_value c vs + n ≤ float_exact)%Z → counter_value c' vs = (counter_value c vs + n)%Z);
  histogram_Observe_spec h vs d : length vs = length (histogram_labels h) →
    ∃ h', histogram_Observe h vs d = Some h' ∧ histogram_labels h' = histogram_labels h ∧
      ∀ vs', histogram_count h' vs' = (histogram_count h vs' + if decide (vs' = vs) then 1 else 0)%Z;
  Register_spec r name c :
    (Register r name c).2 = bool_decide (registered r name = None ∨ registered r name = Some c) ∧
    ∀ name', registered (Register r name c).1 name' =
      if decide (name' = name) then Some (default c (registered r name)) else registered r name';
}.

Section Metrics.
Context {PR : Prometheus}.

(** [Inc] is [Add(1)]. *)
Definition counter_Inc (c : CounterVec) (vs : list str) : option CounterVec := counter_Add c vs 1.

(** ** The collectors of the middleware *)
Record metrics := mkMetrics {
  requestsTotal : option CounterVec;
  requestDuration : option HistogramVec;
  purgesTotal : option CounterVec;
  purgedEntriesTotal : option CounterVec;
}.

(** The pointers of the collectors: [base] and the next three. *)
Definition requests_name := B "titip_requests_total".
Definition duration_name := B "titip_request_duration_seconds".
Definition purges_name := B "titip_purges_total".
Definition purged_entries_name := B "titip_purged_entries_total".

(** Registering a list of collectors; errors are dropped. *)
Definition register_all (reg : Registry) (l : list (str * nat)) : Registry :=
  foldl (λ r p, (Register r p.1 p.2).1) reg l.

Definition collectors (base : nat) : list (str * nat) :=
  [(requests_name, base); (duration_name, 1 + base); (purges_name, 2 + base); (purged_entries_name, 3 + base)].

Definition newMetrics (reg : option Registry) (base : nat) : option metrics * option Registry :=
  match reg with
  | None => (None, None)
  | Some reg =>
      (Some (mkMetrics (Some (NewCounterVec requests_name [B "status"]))
               (Some (NewHistogramVec duration_name [B "status"]))
               (Some (NewCounterVec purges_name [B "type"; B "mode"; B "status"]))
               (Some (NewCounterVec purged_entries_name [B "type"; B "mode"]))),
       Some (register_all reg (collectors base)))
  end.

(** A method call on a collector that may be nil. *)
Definition on {V : Type} (v : option V) (f : V → option V) : option (option V) :=
  match v with None => Some None | Some v => v' ← f v; Some (Some v') end.

Definition metrics_recordRequest (m : option metrics) (status : str) (dur : Z) : option (option metrics) :=
  match m with
  | None => Some None
  | Some m =>
      c ← on (requestsTotal m) (λ c, counter_Inc c [status]);
      d ← on (requestDuration m) (λ h, histogram_Observe h [status] dur);
      Some (Some (mkMetrics c d (purgesTotal m) (purgedEntriesTotal m)))
  end.

Definition metrics_recordPurge (m : option metrics) (purgeType mode status : str) (count : Z)
    : option (option metrics) :=
  match m with
  | None => Some None
  | Some m =>
      p ← on (purgesTotal m) (λ c, counter_Inc c [purgeType; mode; status]);
      e ← (if (0 <? count)%Z then on (purgedEntriesTotal m) (λ c, counter_Add c [purgeType; mode] count)
           else Some (purgedEntriesTotal m));
      Some (Some (mkMetrics (requestsTotal m) (requestDuration m) p e))
  end.

(** ** The collectors of the ESI processor *)
Record esi_metrics := mkEsiMetrics {
  fragmentsTotal : option CounterVec;
  esi_duration : option HistogramVec;
}.

Definition fragments_name := B "esi_fragments_total".
Definition esi_duration_name := B "esi_duration_seconds".

(** [prefix] is that of the wrapped registerer. *)
Definition esi_newMetrics (reg : option Registry) (prefix : str) (base : nat) : option esi_metrics * option Registry :=
  match reg with
  | None => (None, None)
  | Some reg =>
      (Some (mkEsiMetrics (Some (NewCounterVec fragments_name [B "status"]))
               (Some (NewHistogramVec esi_duration_name [B "mode"]))),
       Some (register_all reg [(prefix ++ fragments_name, base); (prefix ++ esi_duration_name, 1 + base)]))
  end.

Definition recordFragment (m : option esi_metrics) (status : str) : option (option esi_metrics) :=
  match m with
  | None => Some None
  | Some m =>
      c ← on (fragmentsTotal m) (λ c, counter_Inc c [status]); Some (Some (mkEsiMetrics c (esi_duration m)))
  end.

Definition recordDuration (m : option esi_metrics) (mode : str) (dur : Z) : option (option esi_metrics) :=
  match m with
  | None => Some None
  | Some m =>
      h ← on (esi_duration m) (λ h, histogram_Observe h [mode] dur); Some (Some (mkEsiMetrics (fragmentsTotal m) h))
  end.

(** ** Replaying a trace *)
Definition meter (dur : Z) (m : option metrics) (e : event) : option (option metrics) :=
  match e with
  | EvRecord status => metrics_recordRequest m status dur
  | EvRecordPurge ty mode status count => metrics_recordPurge m ty mode status count
  | _ => Some m
  end.

(** [dur] gives the duration observed at each event. *)
Fixpoint meter_all (dur : nat → Z) (i : nat) (m : option metrics) (evs : list event) : option (option metrics) :=
  match evs with
  | [] => Some m
  | e :: evs => m' ← meter (dur i) m e; meter_all dur (1 + i) m' evs
  end.

(** What the exported counters read; a nil collector reads zero. *)
Definition read (c : option CounterVec) (vs : list str) : Z := from_option (λ c, counter_value c vs) 0%Z c.
Definition read_count (h : option HistogramVec) (vs : list str) : Z := from_option (λ h, histogram_count h vs) 0%Z h.

(** Collectors as [newMetrics] makes them. *)
Record metrics_wf (m : metrics) : Prop := {
  wf_requests : ∃ c, requestsTotal m = Some c ∧ length (counter_labels c) = 1%nat;
  wf_duration : ∃ h, requestDuration m = Some h ∧ length (histogram_labels h) = 1%nat;
  wf_purges : ∃ c, purgesTotal m = Some c ∧ length (counter_labels c) = 3%nat;
  wf_purged : ∃ c, purgedEntriesTotal m = Some c ∧ length (counter_labels c) = 2%nat;
}.

#[local] Arguments metrics_recordRequest : simpl never.
#[local] Arguments metrics_recordPurge : simpl never.

(** ** Facts: recording *)
Lemma newMetrics_wf reg base m reg' : newMetrics (Some reg) base = (Some m, reg') → metrics_wf m.
Proof.
  intros [= <- _]. split; eexists; (split; [reflexivity|]);
    first [by rewrite (proj1 (counter_new _ _)) | by rewrite (proj1 (histogram_new _ _))].
Qed.

(** A counter of a vector grows by [n] and the others stay. *)
Definition grows (c c' : option CounterVec) (vs : list str) (n : Z) : Prop :=
  (∀ vs', vs' ≠ vs → read c' vs' = read c vs') ∧
  ((read c vs + n ≤ float_exact)%Z → read c' vs = (read c vs + n)%Z).

Lemma counter_grows c vs n k :
  length (counter_labels c) = k → length vs = k → (0 ≤ n)%Z →
  ∃ c', on (Some c) (λ c, counter_Add c vs n) = Some (Some c') ∧ length (counter_labels c') = k ∧ grows (Some c) (Some c') vs n.
Proof.
  intros Hk Hvs Hn. destruct (counter_Add_spec c vs n) as (c' & H & Hl & Ho & Hv); [congruence|done|].
  exists c'. unfold on. rewrite H. by rewrite Hl.
Qed.

Lemma recordRequest_spec m status dur :
  metrics_wf m →
  ∃ m', metrics_recordRequest (Some m) status dur = Some (Some m') ∧ metrics_wf m' ∧
    grows (requestsTotal m) (requestsTotal m') [status] 1 ∧
    (∀ vs, read_count (requestDuration m') vs
           = (read_count (requestDuration m) vs + if decide (vs = [status]) then 1 else 0)%Z) ∧
    purgesTotal m' = purgesTotal m ∧ purgedEntriesTotal m' = purgedEntriesTotal m.
Proof.
  intros [(c & Hc & Hlc) (h & Hh & Hlh) Hp He]. unfold metrics_recordRequest. rewrite Hc, Hh.
  destruct (counter_grows c [status] 1 1 Hlc) as (c' & Hon & Hl & Hg); [done|lia|]. unfold counter_Inc. rewrite Hon. simpl.
  destruct (histogram_Observe_spec h [status] dur) as (h' & Ho & Hlh' & Hn); [done|]. rewrite Ho. simpl.
  eexists. split; [done|]. split; [|done]. split; simpl; [by eexists|exists h'; by rewrite Hlh'|done..].
Qed.

Lemma recordPurge_spec m ty mode status n :
  metrics_wf m →
  ∃ m', metrics_recordPurge (Some m) ty mode status n = Some (Some m') ∧ metrics_wf m' ∧
    grows (purgesTotal m) (purgesTotal m') [ty; mode; status] 1 ∧
    grows (purgedEntriesTotal m) (purgedEntriesTotal m') [ty; mode] (Z.max 0 n) ∧
    requestsTotal m' = requestsTotal m ∧ requestDuration m' = requestDuration m.
Proof.
  intros [Hr Hd (p & Hp & Hlp) (e & He & Hle)]. unfold metrics_recordPurge. rewrite Hp, He.
  destruct (counter_grows p [ty; mode; status] 1 3 Hlp) as (p' & Hon & Hl & Hg); [done|lia|].
  unfold counter_Inc. rewrite Hon. cbn [mbind option_bind]. destruct (0 <? n)%Z eqn:En.
  - destruct (counter_grows e [ty; mode] n 2 Hle) as (e' & Hon' & Hl' & Hg'); [done|lia|]. rewrite Hon'. simpl.
    eexists. split; [done|]. rewrite Z.max_r by lia. split; [|done]. split; simpl; [done|done|by eexists..].
  - simpl. eexists. split; [done|]. rewrite Z.max_l by lia. split; [split; simpl; [done|done|by eexists..]|].
    split; [done|]. split; [|done]. simpl. split; [done|]. intros _. lia.
Qed.

(** ** Facts: what the pipeline records *)
Definition recorded (evs : list event) : list str := evs ≫= λ e, match e with EvRecord s => [s] | _ => [] end.

Definition purges_recorded (evs : list event) : list (str * str * str * Z) :=
  evs ≫= λ e, match e with EvRecordPurge ty mode st n => [(ty, mode, st, n)] | _ => [] end.

Lemma recorded_app l1 l2 : recorded (l1 ++ l2) = recorded l1 ++ recorded l2.
Proof. apply bind_app. Qed.
Lemma purges_recorded_app l1 l2 : purges_recorded (l1 ++ l2) = purges_recorded l1 ++ purges_recorded l2.
Proof. apply bind_app. Qed.

(** A replay does not panic, and counts what was recorded. *)
Lemma meter_all_spec dur evs : ∀ i m, metrics_wf m →
  ∃ m', meter_all dur i (Some m) evs = Some (Some m') ∧ metrics_wf m'.
Proof.
  induction evs as [|e evs IH]; intros i m Hm; [by exists m|]. simpl.
  assert (∃ m1, meter (dur i) (Some m) e = Some (Some m1) ∧ metrics_wf m1) as (m1 & -> & Hm1); [|by apply IH].
  destruct e; simpl; try (by exists m).
  - destruct (recordRequest_spec m status (dur i) Hm) as (m1 & ? & ? & _). eauto.
  - destruct (recordPurge_spec m purgeType mode status count Hm) as (m1 & ? & ? & _). eauto.
Qed.

(** The request collectors depend on the recorded requests only. *)
Lemma meter_all_silent dur evs : ∀ i m m', recorded evs = [] → metrics_wf m →
  meter_all dur i (Some m) evs = Some (Some m') →
  requestsTotal m' = requestsTotal m ∧ requestDuration m' = requestDuration m.
Proof.
  induction evs as [|e evs IH]; intros i m m' Hr Hm H; [by injection H as <-|]. simpl in H.
  destruct e; simpl in H, Hr; try done; try (by eapply (IH (1 + i)%nat)).
  destruct (recordPurge_spec m purgeType mode status count Hm) as (m1 & E1 & Hm1 & _ & _ & Ht & Hd).
  rewrite E1 in H. simpl in H. rewrite <- Ht, <- Hd. by eapply IH.
Qed.

Lemma meter_all_one dur evs : ∀ i m m' status, recorded evs = [status] → metrics_wf m →
  meter_all dur i (Some m) evs = Some (Some m') →
  grows (requestsTotal m) (requestsTotal m') [status] 1 ∧
  ∀ vs, read_count (requestDuration m') vs
        = (read_count (requestDuration m) vs + if decide (vs = [status]) then 1 else 0)%Z.
Proof.
  induction evs as [|e evs IH]; intros i m m' status Hr Hm H; [done|]. simpl in H.
  destruct e; simpl in H, Hr; try done; try (by eapply (IH (1 + i)%nat)).
  - injection Hr as -> Hr.
    destruct (recordRequest_spec m status (dur i) Hm) as (m1 & E1 & Hm1 & Hg & Hd & _). rewrite E1 in H. simpl in H.
    destruct (meter_all_silent dur evs _ _ _ Hr Hm1 H) as [-> ->]. done.
  - destruct (recordPurge_spec m purgeType mode status0 count Hm) as (m1 & E1 & Hm1 & _ & _ & Ht & Hd).
    rewrite E1 in H. simpl in H. rewrite <- Ht, <- Hd. by eapply IH.
Qed.

(** The purge collectors depend on the recorded purges only. *)
Lemma meter_all_no_purge dur evs : ∀ i m m', purges_recorded evs = [] → metrics_wf m →
  meter_all dur i (Some m) evs = Some (Some m') →
  purgesTotal m' = purgesTotal m ∧ purgedEntriesTotal m' = purgedEntriesTotal m.
Proof.
  induction evs as [|e evs IH]; intros i m m' Hr Hm H; [by injection H as <-|]. simpl in H.
  destruct e; simpl in H, Hr; try done; try (by eapply (IH (1 + i)%nat)).
  destruct (recordRequest_spec m status (dur i) Hm) as (m1 & E1 & Hm1 & _ & _ & Ht & Hd).
  rewrite E1 in H. simpl in H. rewrite <- Ht, <- Hd. by eapply IH.
Qed.

Lemma meter_all_purge dur evs : ∀ i m m' ty mode st n, purges_recorded evs = [(ty, mode, st, n)] → metrics_wf m →
  meter_all dur i (Some m) evs = Some (Some m') →
  grows (purgesTotal m) (purgesTotal m') [ty; mode; st] 1 ∧
  grows (purgedEntriesTotal m) (purgedEntriesTotal m') [ty; mode] (Z.max 0 n).
Proof.
  induction evs as [|e evs IH]; intros i m m' ty mode st n Hr Hm H; [done|]. simpl in H.
  destruct e; simpl in H, Hr; try done; try (by eapply (IH (1 + i)%nat)).
  - destruct (recordRequest_spec m status (dur i) Hm) as (m1 & E1 & Hm1 & _ & _ & Ht & Hd).
    rewrite E1 in H. simpl in H. rewrite <- Ht, <- Hd. by eapply IH.
  - injection Hr as -> -> -> -> Hr.
    destruct (recordPurge_spec m ty mode st n Hm) as (m1 & E1 & Hm1 & Hp & He & _). rewrite E1 in H. simpl in H.
    destruct (meter_all_no_purge dur evs _ _ _ Hr Hm1 H) as [-> ->]. done.
Qed.
End Metrics.
