(* ===== verification/MetricsProps.v ===== *)
(** * What the counters say of the pipeline

    Every request is recorded once, under one of the six labels, unless nothing is
    written for it at all; every call of the purge API that addresses anything is
    recorded once, with the count it returns. *)

From S2P Require Import Prelude GoStrings GoHttp Env Headers Freshness CacheKey Storage TestStore Purge Scanner Esi Compress Config Handler HandlerLogic HandlerQuiet HandlerProps HandlerRun Metrics.
#[local] Open Scope handler_scope.
#[local] Unset Default Proof Using.
Import Demo.

Definition statuses : list str :=
  [labelStatusHit; labelStatusMiss; labelStatusStaleHit; labelStatusRevalidated; labelStatusBypass; labelStatusError].

Lemma recorded_none evs : Forall no_record evs → recorded evs = [].
Proof. induction 1 as [|e evs He _ IH]; [done|]. destruct e; simpl; try done. by destruct (He status). Qed.

(** ** Counting

    [cnt m Q]: with what [m] returns ([None]: a panic), the requests it records and whether it
    may touch the response of the client, [Q] holds. *)
Section Counting.
Context {S : Type}.

Definition cnt {A} (m : M S A) (Q : option A → list str → bool → Prop) : Prop :=
  ∀ w, ∃ evs b, wd_trace (m w).1 = wd_trace w ++ evs ∧ (b = true ∨ wd_w (m w).1 = wd_w w) ∧
                Q (m w).2 (recorded evs) b.

(** Records nothing ... *)
Abbreviation silent m R := (ok (keeps (λ _, True)) no_record m R).
(** ... and leaves the response alone. *)
Definition calm {A} (m : M S A) : Prop := ∀ w0, ok (keeps (λ x, x = w0)) no_record m (λ _, True).

Lemma cnt_bind {A C} (m : M S A) (f : A → M S C) Q R :
  cnt m Q → (∀ k b, Q None k b → R None k b) →
  (∀ a k b, Q (Some a) k b → cnt (f a) (λ c k' b', R c (k ++ k') (b || b'))) → cnt (bind m f) R.
Proof.
  intros Hm Hp Hf w. destruct (Hm w) as (e & b & Ht & Hb & Hq). unfold bind. destruct (m w) as [w' [a|]]; simpl in *.
  - destruct (Hf a _ _ Hq w') as (e2 & b2 & Ht2 & Hb2 & Hr). exists (e ++ e2), (b || b2).
    rewrite Ht2, Ht, <- app_assoc, recorded_app. split; [done|]. split; [|done].
    destruct Hb as [->|Hb]; [by left|]. destruct Hb2 as [->|Hb2]; [left; apply orb_true_r|right; congruence].
  - exists e, b. auto.
Qed.

Lemma cnt_ret {A} (a : A) Q : Q (Some a) [] false → cnt (ret a) Q.
Proof. intros H w. exists [], false. simpl. rewrite app_nil_r. auto. Qed.

Lemma cnt_panic {A} (Q : option A → list str → bool → Prop) : Q None [] false → cnt panic Q.
Proof. intros H w. exists [], false. simpl. rewrite app_nil_r. auto. Qed.

Lemma cnt_calm {A C} (m : M S A) (f : A → M S C) Q :
  calm m → Q None [] false → (∀ a, cnt (f a) Q) → cnt (bind m f) Q.
Proof.
  intros Hm Hn Hf. apply (cnt_bind _ _ (λ _ k b, k = [] ∧ b = false)).
  - intros w. destruct (Hm (wd_w w) w eq_refl) as (e & Ht & He & Hw & _). exists e, false. rewrite (recorded_none _ He). auto.
  - by intros k b [-> ->].
  - intros a k b [-> ->]. apply Hf.
Qed.

Lemma cnt_silent {A C} (m : M S A) (f : A → M S C) Q :
  silent m (λ _, True) → Q None [] true → (∀ a, cnt (f a) (λ c k _, Q c k true)) → cnt (bind m f) Q.
Proof.
  intros Hm Hn Hf. apply (cnt_bind _ _ (λ _ k b, k = [] ∧ b = true)).
  - intros w. destruct (Hm w I) as (e & Ht & He & _). exists e, true. rewrite (recorded_none _ He). auto.
  - by intros k b [-> ->].
  - intros a k b [-> ->]. apply Hf.
Qed.

Lemma cnt_get {A C} (g : World S → A) (f : A → M S C) Q : (∀ a, cnt (f a) Q) → cnt (bind (get g) f) Q.
Proof. intros Hf w. exact (Hf _ w). Qed.

Lemma cnt_ctx {C} g (m : M S C) Q : cnt m Q → cnt (upd_ctx g ;;; m) Q.
Proof. intros Hm w. exact (Hm _). Qed.

(** One record, and nothing recorded after it. *)
Lemma cnt_record {A} status (m : M S A) (R : A → Prop) Q :
  silent m R → (∀ a, R a → Q (Some a) [status] true) → Q None [status] true → cnt (recordRequest status ;;; m) Q.
Proof.
  intros Hm Hq Hn w. unfold recordRequest, bind, emit. simpl. set (w1 := mkWorld _ _ _ _ _ _ _ _).
  destruct (Hm w1 I) as (e & Ht & He & _ & Hr). exists (EvRecord status :: e), true.
  split; [by rewrite Ht; simpl; rewrite <- app_assoc|]. split; [by left|]. simpl. rewrite (recorded_none _ He).
  destruct (m w1).2 as [a|]; [by apply Hq, Hr|done].
Qed.

Lemma cnt_weaken {A} (m : M S A) Q R : (∀ a k b, Q a k b → R a k b) → cnt m Q → cnt m R.
Proof. intros H Hm w. destruct (Hm w) as (e & b & ? & ? & Hq). exists e, b. auto. Qed.
End Counting.

(** ** Each state records once, or not at all *)
Section States.
Context {E : GoEnv} {CO : CacheObject} {S : Type} {St : Storage S}.
Context (t : Titip) (now : nat → Z) (next : nat → Request → Writer → Writer * bool).
Context (joined : option fetchResult) (waiters : bool).

Abbreviation SIL m R := (ok (keeps (S := S) (λ _, True)) no_record m R).
Abbreviation sil m := (SIL m (λ _, True)).

(** A lemma of [HandlerQuiet] for the invariants used here. *)
Tactic Notation "quiet" uconstr(L) := apply L; auto with titip.

Lemma s_upd_w f : sil (upd_w f).
Proof. quiet q_upd_w. Qed.

Ltac s_prim := first
  [ apply s_upd_w | quiet q_ret | quiet q_panic | quiet q_get | quiet q_upd_ctx | quiet q_count_call
  | apply q_emit; [apply keeps_outer | intros ? ?; discriminate] | quiet q_now | quiet q_spawn | quiet q_origin
  | quiet q_titip_Purge | quiet q_location ].
Ltac s_step :=
  match goal with
  | |- ok _ _ (bind _ _) _ => apply ok_seq; [|intros ?]
  | |- ok _ _ (if ?b then _ else _) _ => destruct b
  | |- ok _ _ (let '(_, _) := ?p in _) _ => destruct p
  | |- ok _ _ (match ?x with _ => _ end) _ => destruct x
  | _ => s_prim
  end.
Ltac s_writers := unfold processESI, adjustESIHeaders, emitCacheStatus, copyProtoHeaders, set_age, write_response,
  w_header, w_write_header, w_write, w_error.

Lemma s_mutating r : sil (handleMutatingRequest t now next r).
Proof. unfold handleMutatingRequest. s_writers. repeat first [quiet q_direct | s_step]. Qed.

(** A silent computation that may only return [a]. *)
Lemma s_end {A} (a : A) (R : A → Prop) : R a → SIL (ret a) R.
Proof. intros Ha. by apply ok_ret. Qed.

Definition one_of (k : list str) : Prop := ∃ s, k = [s] ∧ s ∈ statuses.

(** After a state: a final one has recorded once, or neither recorded nor written; before
    the bypass one record is there, before any other state none. *)
Definition state_post (o : option (option stateFn)) (k : list str) (b : bool) : Prop :=
  match o with
  | None => k = [] ∨ one_of k
  | Some None => one_of k ∨ (k = [] ∧ b = false)
  | Some (Some stateBypassOrigin) => one_of k
  | Some (Some _) => k = [] ∧ b = false
  end.

(** What may follow a record: the end, or the bypass. *)
Definition ends (o : option stateFn) : Prop := o = None ∨ o = Some stateBypassOrigin.

Lemma post_none s : s ∈ statuses → state_post None [s] true.
Proof. intros Hs. right. by exists s. Qed.
Lemma post_ends s o : s ∈ statuses → ends o → state_post (Some o) [s] true.
Proof. intros Hs [-> | ->]; [left|]; by exists s. Qed.

Ltac in_statuses := by repeat first [apply list_elem_of_here | apply list_elem_of_further].

(** Record, then only silent code up to the end. *)
Lemma cnt_final status (m : M S (option stateFn)) :
  status ∈ statuses → SIL m ends → cnt (recordRequest status ;;; m) state_post.
Proof. intros Hs Hm. eapply cnt_record; [exact Hm|intros; by apply post_ends|by apply post_none]. Qed.

Lemma cnt_final' status (m : M S (option stateFn)) :
  status ∈ statuses → SIL m ends → cnt (recordRequest status ;;; m) (λ c k _, state_post c k true).
Proof. intros Hs Hm. eapply cnt_record; [exact Hm|intros; by apply post_ends|by apply post_none]. Qed.

Ltac s_ends := apply s_end; first [by left | by right].
Ltac s_all := s_writers; repeat first [s_ends | apply s_mutating | s_step].
Ltac c_final := first [apply cnt_final | apply cnt_final']; [in_statuses | s_all].

(** Nothing recorded, nothing written. *)
Ltac c_quiet := first
  [ apply cnt_ret; by split | apply cnt_ret; right; by split | apply cnt_panic; by left ].
Ltac c_calm := apply cnt_calm; [intros w0 | by left | intros ?].

Lemma c_bypass d : cnt (S := S) (bypass t d) state_post.
Proof. unfold bypass. c_final. Qed.
Lemma c_timeout d : cnt (S := S) (gateway_timeout t d) state_post.
Proof. unfold gateway_timeout. c_final. Qed.

(** [run_CheckBypass] may only panic once it has recorded. *)
Definition check_post (o : option (option stateFn)) (k : list str) (b : bool) : Prop :=
  state_post o k b ∧ (o = None → one_of k).

Lemma c_recovering (m h : M S (option stateFn)) :
  cnt m check_post → SIL h (λ o, o = None) → (∀ w, (h w).2 ≠ None) → cnt (recovering m h) state_post.
Proof.
  intros Hm Hh Hn w. destruct (Hm w) as (e & b & Ht & Hb & Hq & Hp). unfold recovering.
  destruct (m w) as [w' [a|]]; simpl in *; [by exists e, b|].
  destruct (Hh w' I) as (e2 & Ht2 & He2 & _ & Hr). exists (e ++ e2), true.
  rewrite Ht2, Ht, <- app_assoc, recorded_app, (recorded_none _ He2), app_nil_r. split; [done|]. split; [by left|].
  specialize (Hn w'). destruct (h w').2 as [o|] eqn:Ho; [|done]. rewrite (Hr o eq_refl). left. by apply Hp.
Qed.

Lemma c_check status (m : M S (option stateFn)) :
  status ∈ statuses → SIL m ends → cnt (recordRequest status ;;; m) check_post.
Proof.
  intros Hs Hm. eapply cnt_record; [exact Hm| |].
  - intros o Ho. split; [by apply post_ends|done].
  - split; [by apply post_none|]. intros _. by exists status.
Qed.

Lemma c_check_bypass d : cnt (S := S) (bypass t d) check_post.
Proof. unfold bypass. apply c_check; [in_statuses|s_all]. Qed.

Lemma c_CheckBypass : cnt (run_CheckBypass t now next) state_post.
Proof.
  unfold run_CheckBypass, check_client_directives. apply c_recovering; [|s_writers; repeat first [by apply s_end | s_step]|done].
  apply cnt_get; intros r.
  repeat first
    [ apply c_check_bypass | apply c_check; [in_statuses|s_all] | apply cnt_ret; by split | apply cnt_ctx
    | match goal with
      | |- cnt (if ?b then _ else _) _ => destruct b
      | |- cnt (match ?x with _ => _ end) _ => destruct x
      end ].
Qed.

Lemma c_LookupMetadata : cnt (run_LookupMetadata t now) state_post.
Proof.
  unfold run_LookupMetadata. apply cnt_get; intros r. apply cnt_ctx. c_calm; [quiet q_GetMeta|].
  destruct a as [[[m soft]|]|e].
  - apply cnt_ctx. c_quiet.
  - apply cnt_ctx. apply cnt_get; intros ctx. case_if; [apply c_timeout|]. apply cnt_ctx. c_quiet.
  - c_final.
Qed.

Lemma c_MatchVariant : cnt (S := S) (run_MatchVariant t) state_post.
Proof.
  unfold run_MatchVariant. apply cnt_get; intros ctx. destruct (cx_meta ctx) as [m|]; [|c_quiet]. apply cnt_ctx.
  destruct (Variants m !! _); [apply cnt_ctx; c_quiet|].
  case_if; [apply c_timeout|]. apply cnt_ctx. c_quiet.
Qed.

Lemma c_EvaluateFreshness : cnt (S := S) (run_EvaluateFreshness t now) state_post.
Proof.
  unfold run_EvaluateFreshness. c_calm; [quiet q_now|]. apply cnt_ctx. apply cnt_get; intros ctx.
  case_if; [c_quiet|]. destruct (cx_meta ctx); [|c_quiet]. destruct (varInfo ctx); [|c_quiet].
  repeat first [c_quiet | apply c_timeout | match goal with
    | |- cnt (if ?b then _ else _) _ => destruct b
    | |- cnt (match ?x with _ => _ end) _ => destruct x end].
Qed.

Lemma c_Serve304 : cnt (S := S) (run_Serve304 t) state_post.
Proof. unfold run_Serve304. apply cnt_get; intros ctx. destruct (varInfo ctx); [|c_quiet]. c_final. Qed.

Lemma c_Serve412 : cnt (S := S) (run_Serve412 t) state_post.
Proof. unfold run_Serve412. c_final. Qed.

Lemma c_ServeCachedHit : cnt (run_ServeCachedHit t now) state_post.
Proof.
  unfold run_ServeCachedHit. apply cnt_get; intros ctx. destruct (cx_meta ctx); [|c_quiet].
  destruct (varInfo ctx); [|c_quiet]. case_if; [c_final|]. c_calm; [quiet q_load|].
  destruct a as [[v1 body]|]; [c_final|c_quiet].
Qed.

Lemma c_ServeSWR : cnt (run_ServeSWR t now) state_post.
Proof.
  unfold run_ServeSWR. apply cnt_get; intros ctx. destruct (varInfo ctx); [|c_quiet].
  case_if; [c_final|]. c_calm; [quiet q_load|]. destruct a as [[v1 body]|]; [c_final|c_quiet].
Qed.

Lemma c_FetchOriginMiss : cnt (run_FetchOriginMiss t now next) state_post.
Proof.
  unfold run_FetchOriginMiss, answer_miss, serve_set_cookie, serve_event_stream. apply cnt_get; intros ctx.
  c_calm; [quiet q_now|]. c_calm; [quiet q_origin|]. c_calm; [quiet q_now|]. destruct a0 as [rec pn].
  destruct pn; [c_final|]. case_if; [c_final|]. case_if; [c_final|].
  c_calm; [quiet q_inspectESI|]. destruct a0 as [h fr]. c_calm; [quiet q_freshness|]. apply cnt_get; intros closed.
  c_calm; [destruct (should_cache _ _ _ _); [quiet q_save|quiet q_ret]|].
  apply cnt_silent; [apply s_upd_w|by left|intros _]. destruct (_ && _); c_final.
Qed.

(** ** Revalidation *)
Lemma c_serve_fetched r res shared :
  cnt (S := S) (serve_fetched t r res shared) state_post.
Proof.
  unfold serve_fetched. case_if; [c_final|]. case_if; [|c_quiet].
  apply cnt_silent; [apply s_upd_w|by left|intros _]. c_final.
Qed.

(** [serve_fallback] answers and records, or does neither. *)
Definition fallback_post (o : option bool) (k : list str) (b : bool) : Prop :=
  match o with None => k = [] ∨ one_of k | Some true => one_of k | Some false => k = [] ∧ b = false end.

(** A record, silent code, then silent code that returns [true]. *)
Definition once (o : option unit) (k : list str) (b : bool) : Prop := one_of k ∧ b = true.

Lemma cnt_once status (m : M S unit) :
  status ∈ statuses → sil m → cnt (recordRequest status ;;; m) once.
Proof. intros Hs Hm. eapply cnt_record; [exact Hm|intros a _|]; (split; [by exists status|done]). Qed.

Lemma cnt_quietly {A} (m : M S A) (R : A → Prop) (Q : option A → list str → bool → Prop) :
  SIL m R → (∀ a, R a → Q (Some a) [] true) → Q None [] true → cnt m Q.
Proof.
  intros Hm HQ Hn w. destruct (Hm w I) as (e & Ht & He & _ & Hr). exists e, true. rewrite (recorded_none _ He).
  split; [done|]. split; [by left|]. destruct (m w).2 as [a|]; [by apply HQ, Hr|done].
Qed.

Lemma c_fallback (m : M S unit) (m2 : M S bool) :
  cnt m once → SIL m2 (λ b, b = true) → cnt (m ;;; m2) (λ o k _, fallback_post o k true).
Proof.
  intros Hm Hm2. apply (cnt_bind _ _ once); [done|intros k b [? _]; by right|].
  intros a k b [(s & -> & Hs) ->]. eapply cnt_quietly; [exact Hm2| |].
  - intros [] Ha; [|done]. by exists s.
  - right. by exists s.
Qed.

Lemma c_fallback_304 status (m : M S bool) :
  status ∈ statuses → SIL m (λ b, b = true) → cnt (recordRequest status ;;; m) fallback_post.
Proof.
  intros Hs Hm. eapply cnt_record; [exact Hm| |]; [|right; by exists status].
  intros [] Ha; [|done]. by exists status.
Qed.

Ltac s_true := s_writers; repeat first [by apply s_end | s_step].
Ltac c_served := apply c_fallback; [case_if; (apply cnt_once; [in_statuses|s_all]) | s_true].

Ltac c_body v := destruct (decompressed _ _ _) as [body|]; [|by apply cnt_ret];
  apply cnt_silent; [s_all|by left|intros _]; apply cnt_silent; [s_all|by left|intros _];
  destruct (has_esi_fragments t v); c_served.

Lemma c_serve_fallback r res fb shared : cnt (S := S) (serve_fallback t now r res fb shared) fallback_post.
Proof.
  unfold serve_fallback. destruct (if is304Origin res && _ then _ else _) as [z|]; [|c_body (sf_varInfo fb)].
  destruct (decide (z = 304%Z)) as [-> | Hz]; [apply c_fallback_304; [in_statuses|s_true]|].
  repeat match goal with
    | z : Z |- _ => destruct z; try (by c_body (sf_varInfo fb))
    | p : positive |- _ => destruct p; try (by c_body (sf_varInfo fb))
    end; done.
Qed.

Lemma c_FetchOriginRevalidate : cnt (run_FetchOriginRevalidate t now next joined waiters) state_post.
Proof.
  unfold run_FetchOriginRevalidate, serve_flight. apply cnt_get; intros ctx.
  c_calm; [destruct (varInfo ctx); [|quiet q_ret]; apply ok_seq; [quiet q_GetVariant|intros; quiet q_ret]|].
  c_calm; [destruct joined; [quiet q_ret|]; apply ok_seq; [quiet q_flight|intros; quiet q_ret]|].
  destruct a0 as [res shared]. simpl. destruct (if _ || _ then _ else _) as [fb|]; [|apply c_serve_fetched].
  apply (cnt_bind _ _ fallback_post); [apply c_serve_fallback|done|].
  intros [] k b Hk; simpl in Hk.
  - apply cnt_ret. rewrite app_nil_r. by left.
  - destruct Hk as [-> ->]. apply c_serve_fetched.
Qed.

Lemma c_BypassOrigin :
  cnt (S := S) (run_BypassOrigin next) (λ o k _, k = [] ∧ (o = None ∨ o = Some None)).
Proof.
  unfold run_BypassOrigin. apply cnt_get; intros r. apply cnt_silent; [quiet q_direct|by split; [|left]|intros _].
  apply cnt_ret. by split; [|right].
Qed.

Lemma c_run_state s : s ≠ stateBypassOrigin → cnt (run_state t now next joined waiters s) state_post.
Proof.
  intros Hs. destruct s; simpl; [apply c_CheckBypass|apply c_LookupMetadata|apply c_MatchVariant|apply c_EvaluateFreshness
    |apply c_Serve304|apply c_Serve412|apply c_ServeCachedHit|apply c_ServeSWR|apply c_FetchOriginMiss
    |apply c_FetchOriginRevalidate|done].
Qed.

(** The whole machine: one record, or nothing recorded and nothing written. *)
Definition machine_post (o : option bool) (k : list str) (b : bool) : Prop :=
  match o with
  | Some _ => one_of k ∨ (k = [] ∧ b = false)
  | None => k = [] ∨ one_of k
  end.

Lemma c_machine_bypass fuel : cnt (run_machine t now next joined waiters fuel stateBypassOrigin) (λ _ k _, k = []).
Proof.
  destruct fuel as [|fuel]; simpl; [by apply cnt_ret|].
  apply (cnt_bind _ _ (λ o k (_ : bool), k = [] ∧ (o = None ∨ o = Some None))); [apply c_BypassOrigin|by intros k b [-> _]|].
  intros o k b [-> [H | [= ->]]]; [done|]. by apply cnt_ret.
Qed.

Lemma c_machine fuel s :
  s ≠ stateBypassOrigin → cnt (run_machine t now next joined waiters fuel s) machine_post.
Proof.
  revert s. induction fuel as [|fuel IH]; intros s Hs; simpl; [apply cnt_ret; by right|].
  apply (cnt_bind _ _ state_post); [by apply c_run_state|done|]. intros [s'|] k b Hk.
  - destruct s'; try (destruct Hk as [-> ->]; eapply cnt_weaken; [|by apply IH]; done).
    eapply cnt_weaken; [|apply c_machine_bypass]. simpl. intros o k' b' ->. rewrite app_nil_r.
    destruct o; [by left|by right].
  - apply cnt_ret. rewrite app_nil_r. destruct Hk as [?|[-> ->]]; [by left|by right].
Qed.
Lemma c_ServeHTTP r : cnt (ServeHTTP t now next joined waiters r) machine_post.
Proof.
  unfold ServeHTTP. c_calm; [quiet q_now|]. apply cnt_ctx. by apply c_machine.
Qed.
End States.

(** ** Properties *)
Section Counted.
Context {E : GoEnv} {CO : CacheObject} {S : Type} {St : Storage S} {PR : Prometheus}.
Context (t : Titip) (now : nat → Z) (next : nat → Request → Writer → Writer * bool).

(** C17: Telemetry counts requests exactly.  For every request that returns, replaying what it did
    on the collectors does not panic, and then either exactly one of the six statuses went up by
    one, in the counter and in the histogram, with every other label as before, or the
    request collectors are unchanged and nothing at all was written to the client.  A request that
    panics is counted at most once. *)
Theorem requests_counted_once joined waiters r (w : World S) (m : metrics) (dur : nat → Z)
    (Hm : metrics_wf m) :
  ∃ evs m', wd_trace (ServeHTTP t now next joined waiters r w).1 = wd_trace w ++ evs ∧
    meter_all dur 0 (Some m) evs = Some (Some m') ∧
    ((requestsTotal m' = requestsTotal m ∧ requestDuration m' = requestDuration m ∧
      ((ServeHTTP t now next joined waiters r w).2 = None ∨
       wd_w (ServeHTTP t now next joined waiters r w).1 = wd_w w)) ∨
     ∃ status, status ∈ statuses ∧ grows (requestsTotal m) (requestsTotal m') [status] 1 ∧
       ∀ vs, read_count (requestDuration m') vs
             = (read_count (requestDuration m) vs + if decide (vs = [status]) then 1 else 0)%Z).
Proof.
  destruct (c_ServeHTTP t now next joined waiters r w) as (evs & b & Ht & Hb & Hq).
  destruct (meter_all_spec dur evs 0%nat m Hm) as (m' & H & _). exists evs, m'. split; [done|]. split; [done|].
  assert (recorded evs = [] ∨ one_of (recorded evs)) as [Hn | (s & Hr & Hs)].
  { revert Hq. destruct (ServeHTTP t now next joined waiters r w).2; simpl; tauto. }
  - left. destruct (meter_all_silent dur evs _ _ _ Hn Hm H) as [-> ->]. do 2 (split; [done|]). rewrite Hn in Hq.
    destruct (ServeHTTP t now next joined waiters r w).2; [right|by left].
    destruct Hq as [(s & ? & _) | [_ ->]]; [done|]. by destruct Hb.
  - right. exists s. split; [done|]. by eapply meter_all_one.
Qed.

(** ** The purge API *)
Inductive purge_call :=
  | CallPurge (target : str) (soft : bool)
  | CallPurgePrefix (prefix : str) (soft : bool)
  | CallPurgeTag (tag : str) (soft : bool)
  | CallPurgeAll.

Definition run_purge (c : purge_call) : M S purge_result :=
  match c with
  | CallPurge target soft => titip_Purge t now target soft
  | CallPurgePrefix prefix soft => titip_PurgePrefix t now prefix soft
  | CallPurgeTag tag soft => titip_PurgeTag now tag soft
  | CallPurgeAll => titip_PurgeAll now
  end.

(** The labels of a call: its type and its mode. *)
Definition purge_labels (c : purge_call) : str * str :=
  match c with
  | CallPurge _ soft => (B "url", purgeModeString soft)
  | CallPurgePrefix _ soft => (B "prefix", purgeModeString soft)
  | CallPurgeTag _ soft => (B "tag", purgeModeString soft)
  | CallPurgeAll => (B "all", B "hard")
  end.

Definition purge_status (r : purge_result) : str := match r.2 with Some _ => B "error" | None => B "success" end.

Definition no_purge (e : event) : Prop := ∀ ty mode st n, e ≠ EvRecordPurge ty mode st n.

Lemma purges_none evs : Forall no_purge evs → purges_recorded evs = [].
Proof. induction 1 as [|e evs He _ IH]; [done|]. destruct e; simpl; try done. by destruct (He purgeType mode status count). Qed.

(** [m] records one purge with these labels, and returns what it recorded; or nothing is recorded. *)
Definition counts_purge (labels : str * str) (m : M S purge_result) : Prop :=
  ∀ w, ∃ evs, wd_trace (m w).1 = wd_trace w ++ evs ∧
    match (m w).2 with
    | Some r => purges_recorded evs = [(labels.1, labels.2, purge_status r, r.1)] ∨
                (purges_recorded evs = [] ∧ r = (0%Z, None))
    | None => purges_recorded evs = []
    end.

Lemma counts_bind {A} labels (m : M S A) f :
  ok (λ _, True) no_purge m (λ _, True) → (∀ a, counts_purge labels (f a)) → counts_purge labels (bind m f).
Proof.
  intros Hm Hf w. destruct (Hm w I) as (e & Ht & He & _). unfold bind. destruct (m w) as [w' [a|]]; simpl in *.
  - destruct (Hf a w') as (e2 & Ht2 & H2). exists (e ++ e2). rewrite Ht2, Ht, <- app_assoc. split; [done|].
    by rewrite purges_recorded_app, (purges_none _ He).
  - exists e. split; [done|]. by apply purges_none.
Qed.

Lemma counts_record ty mode st n (r : purge_result) :
  st = purge_status r → n = r.1 → counts_purge (ty, mode) (recordPurge ty mode st n ;;; ret r).
Proof. intros -> -> w. exists [EvRecordPurge ty mode (purge_status r) r.1]. split; [done|]. by left. Qed.

Lemma counts_result ty mode label res : counts_purge (ty, mode) (purged_result ty mode label res).
Proof. destruct res; by apply counts_record. Qed.

Lemma counts_nothing labels : counts_purge labels (ret (0%Z, None)).
Proof. intros w. exists []. simpl. rewrite app_nil_r. auto. Qed.

(** A storage call records no purge. *)
Lemma call_no_purge {A} ev (op : Z → S → S * outcome A) :
  no_purge ev →
  ok (λ _, True) no_purge
    (emit ev ;;; ts <- time_Now now ;; s <- get wd_store ;; let '(s', o) := op ts s in upd_store s' ;;; lift o) (λ _, True).
Proof.
  intros He w _. exists [ev]. split; [|split; [by apply Forall_singleton|done]].
  unfold bind, emit, get, time_Now, next_tick, ret. simpl. destruct (op _ _) as [s' o]. by destruct o.
Qed.

Lemma counts_patterns ty label soft ps n :
  counts_purge (ty, purgeModeString soft) (purge_patterns now ty label soft ps n).
Proof.
  revert n. induction ps as [|p ps IH]; intros n; [by apply counts_record|]. simpl.
  apply counts_bind; [by apply (call_no_purge _ (λ ts s, PurgeByPattern s ts p soft))|].
  intros [c|e]; [apply IH|by apply counts_record].
Qed.

Lemma counts_run_purge c : counts_purge (purge_labels c) (run_purge c).
Proof.
  destruct c as [target soft|prefix soft|tag soft|]; simpl.
  - unfold titip_Purge. destruct (buildPurgeOperation _ _) as [[ex [|key keys]]|e|];
      [apply counts_nothing| |by apply counts_record|].
    + destruct ex; [|apply counts_patterns].
      apply counts_bind; [by apply (call_no_purge _ (λ ts s, Purge s ts key soft))|intros; apply counts_result].
    + intros w. exists []. simpl. by rewrite app_nil_r.
  - unfold titip_PurgePrefix. destruct (buildPurgePrefixOperation _ _) as [[|key keys]|e];
      [apply counts_nothing|apply counts_patterns|by apply counts_record].
  - apply counts_bind; [by apply (call_no_purge _ (λ ts s, PurgeByTag s ts tag soft))|intros; apply counts_result].
  - apply counts_bind; [by apply (call_no_purge _ (λ ts s, PurgeAll s ts))|intros; apply counts_result].
Qed.

(** Telemetry of purges.  A call of the purge API that returns either addressed nothing, and
    then returns zero without an error and counts nothing, or is counted once, under its
    own type and mode, as an error exactly if it returns one, with the purged entries
    it reports, those of a purge that failed half-way included. *)
Theorem purges_counted (c : purge_call) (w w' : World S) (r : purge_result) (m : metrics) (dur : nat → Z)
    (Hm : metrics_wf m) (Hrun : run_purge c w = (w', Some r)) :
  ∃ evs m', wd_trace w' = wd_trace w ++ evs ∧ meter_all dur 0 (Some m) evs = Some (Some m') ∧
    ((r = (0%Z, None) ∧ purgesTotal m' = purgesTotal m ∧ purgedEntriesTotal m' = purgedEntriesTotal m) ∨
     (let '(ty, mode) := purge_labels c in
      grows (purgesTotal m) (purgesTotal m') [ty; mode; purge_status r] 1 ∧
      grows (purgedEntriesTotal m) (purgedEntriesTotal m') [ty; mode] (Z.max 0 r.1))).
Proof.
  destruct (counts_run_purge c w) as (evs & Ht & H). rewrite Hrun in Ht, H. simpl in Ht, H.
  destruct (meter_all_spec dur evs 0%nat m Hm) as (m' & Hr & _). exists evs, m'. do 2 (split; [done|]).
  destruct H as [H | [H ->]]; [right|left].
  - destruct (purge_labels c) as [ty mode]. by eapply meter_all_purge.
  - split; [done|]. by eapply meter_all_no_purge.
Qed.
End Counted.

(** ** One registry, two middlewares *)
Section Registry.
Context {PR : Prometheus}.

(** The collector of [name] is the one made with pointer [c]. *)
Lemma Register_keeps r name name' c c' :
  registered r name = Some c → registered (Register r name' c').1 name = Some c.
Proof. intros H. rewrite (proj2 (Register_spec r name' c')). case_decide; [subst; by rewrite H|done]. Qed.

Lemma register_all_keeps l r name c : registered r name = Some c → registered (register_all r l) name = Some c.
Proof. revert r. induction l as [|p l IH]; intros r H; [done|]. simpl. apply IH. by apply Register_keeps. Qed.

Lemma register_all_spec l : ∀ r name c, (name, c) ∈ l → NoDup l.*1 → registered r name = None →
  registered (register_all r l) name = Some c.
Proof.
  induction l as [|[n c'] l IH]; intros r name c Hin Hnd Hr; [by apply not_elem_of_nil in Hin|].
  simpl in *. apply NoDup_cons in Hnd as [Hn Hnd]. apply elem_of_cons in Hin as [[= -> ->]|Hin].
  - apply register_all_keeps. rewrite (proj2 (Register_spec r n c')). by rewrite decide_True, Hr.
  - apply IH; [done..|]. rewrite (proj2 (Register_spec r n c')). rewrite decide_False; [done|].
    intros ->. apply Hn. change n with ((n, c).1). by apply list_elem_of_fmap_2.
Qed.

(** A defect: A second middleware on one registry is not exported.  Its collectors are
    refused, the errors are dropped, and what is exported under every one of the four names remains
    the collector of the first; what the second one records shows nowhere. *)
Theorem second_registration_lost reg base base' m1 m2 reg1 reg2
    (Hnew : ∀ name, registered reg name = None) (Hb : (base + 4 ≤ base')%nat)
    (H1 : newMetrics (Some reg) base = (m1, Some reg1)) (H2 : newMetrics (Some reg1) base' = (m2, Some reg2)) :
  ∀ i name, [requests_name; duration_name; purges_name; purged_entries_name] !! i = Some name →
    registered reg1 name = Some (base + i)%nat ∧ registered reg2 name = Some (base + i)%nat ∧
    (Register reg1 name (base' + i)).2 = false.
Proof.
  intros i name Hi. unfold newMetrics in H1, H2.
  assert (reg1 = register_all reg (collectors base)) as E1 by congruence.
  assert (reg2 = register_all reg1 (collectors base')) as E2 by congruence.
  assert (registered reg1 name = Some (base + i)%nat) as Hr.
  { rewrite E1. apply register_all_spec; [|vm_compute; repeat constructor; set_solver|apply Hnew].
    do 4 (destruct i as [|i]; [injection Hi as <-; rewrite (Nat.add_comm base);
      repeat first [apply list_elem_of_here | apply list_elem_of_further]|]). done. }
  split; [done|]. split; [rewrite E2; by apply register_all_keeps|].
  rewrite (proj1 (Register_spec _ _ _)), Hr. apply bool_decide_eq_false. intros [?|[= ?]]; [done|lia].
Qed.
End Registry.

(** ** Witnesses *)
Definition demo_add (c : list str * gmap (list str) Z) (vs : list str) (n : Z) : option (list str * gmap (list str) Z) :=
  if decide (length vs = length c.1 ∧ (0 ≤ n)%Z) then Some (c.1, <[vs := (default 0 (c.2 !! vs) + n)%Z]> c.2) else None.

#[export, refine] Instance demo_prometheus : Prometheus := {|
  CounterVec := list str * gmap (list str) Z;
  HistogramVec := list str * gmap (list str) Z;
  Registry := gmap str nat;
  NewCounterVec := λ _ ls, (ls, ∅);
  NewHistogramVec := λ _ ls, (ls, ∅);
  counter_labels := fst;
  histogram_labels := fst;
  counter_value := λ c vs, default 0%Z (c.2 !! vs);
  histogram_count := λ h vs, default 0%Z (h.2 !! vs);
  counter_Add := demo_add;
  histogram_Observe := λ h vs _, demo_add h vs 1;
  Register := λ r name c, (<[name := default c (r !! name)]> r, bool_decide (r !! name = None ∨ r !! name = Some c));
  registered := λ r name, r !! name;
|}.
Proof.
  - done.
  - done.
  - intros c vs n Hl Hn. exists (c.1, <[vs := (default 0 (c.2 !! vs) + n)%Z]> c.2).
    unfold demo_add. rewrite decide_True by done. split; [done|]. split; [done|]. simpl.
    split; [intros vs' Hne; by rewrite lookup_insert_ne|]. intros _. by rewrite lookup_insert_eq.
  - intros h vs d Hl. exists (h.1, <[vs := (default 0 (h.2 !! vs) + 1)%Z]> h.2).
    unfold demo_add. rewrite decide_True by (split; [done|lia]). split; [done|]. split; [done|]. simpl.
    intros vs'. case_decide; [subst; by rewrite lookup_insert_eq|]. rewrite lookup_insert_ne by done. lia.
  - intros r name c. split; [done|]. intros name'. simpl. case_decide; [subst; by rewrite lookup_insert_eq|].
    by rewrite lookup_insert_ne.
Defined.

Definition demo_registry : Registry := (∅ : gmap str nat).

Definition demo_metrics : metrics :=
  mkMetrics (Some (NewCounterVec requests_name [B "status"])) (Some (NewHistogramVec duration_name [B "status"]))
    (Some (NewCounterVec purges_name [B "type"; B "mode"; B "status"]))
    (Some (NewCounterVec purged_entries_name [B "type"; B "mode"])).

Lemma demo_metrics_wf : metrics_wf demo_metrics.
Proof. split; eexists; (split; [reflexivity|done]). Qed.

Definition counted_page : World Store :=
  (ServeHTTP plain_titip (clock_from epoch) (λ _, cacheable_page) None false (request "GET" "/page" [])
     (world TestStore.New false)).1.

Lemma requests_counted_once_witness :
  ∃ evs m' status, wd_trace counted_page = evs ∧
    meter_all (λ _, Millisecond) 0 (Some demo_metrics) evs = Some (Some m') ∧
    status ∈ statuses ∧ read (requestsTotal m') [status] = 1%Z.
Proof.
  destruct (requests_counted_once plain_titip (clock_from epoch) (λ _, cacheable_page) None false
    (request "GET" "/page" []) (world TestStore.New false) demo_metrics (λ _, Millisecond) demo_metrics_wf)
    as (evs & m' & Ht & Hr & [(_ & _ & [H | H]) | (status & Hs & [_ Hg] & _)]).
  - exfalso. revert H. vm_compute. discriminate.
  - exfalso. apply (f_equal w_Code) in H. revert H. vm_compute. discriminate.
  - exists evs, m', status. split; [exact Ht|]. split; [exact Hr|]. split; [exact Hs|]. apply Hg. vm_compute. discriminate.
Defined.

Definition purged_world : World Store * option purge_result :=
  titip_Purge plain_titip (clock_from (epoch + Second)) (B "/page") true counted_page.

Lemma purges_counted_witness :
  purged_world.2 = Some (1%Z, None) ∧
  ∃ evs m', wd_trace purged_world.1 = wd_trace counted_page ++ evs ∧
    meter_all (λ _, 0%Z) 0 (Some demo_metrics) evs = Some (Some m') ∧
    read (purgesTotal m') [B "url"; B "soft"; B "success"] = 1%Z ∧
    read (purgedEntriesTotal m') [B "url"; B "soft"] = 1%Z.
Proof.
  assert (purged_world.2 = Some (1%Z, None)) as Hp by (vm_compute; reflexivity).
  split; [exact Hp|].
  destruct (purges_counted plain_titip (clock_from (epoch + Second)) (CallPurge (B "/page") true) counted_page
    purged_world.1 (1%Z, None) demo_metrics (λ _, 0%Z) demo_metrics_wf) as (evs & m' & Ht & Hr & [(H & _) | (Hg1 & Hg2)]).
  - simpl. rewrite <- Hp. unfold purged_world. by destruct (titip_Purge _ _ _ _ _).
  - discriminate H.
  - exists evs, m'. split; [exact Ht|]. split; [exact Hr|].
    split; [apply (proj2 Hg1)|apply (proj2 Hg2)]; vm_compute; discriminate.
Defined.

Lemma second_registration_lost_witness :
  let r1 := default demo_registry (newMetrics (Some demo_registry) 0).2 in
  let r2 := default demo_registry (newMetrics (Some r1) 4).2 in
  registered r2 requests_name = Some 0%nat ∧ (Register r1 requests_name 4%nat).2 = false.
Proof.
  intros r1 r2.
  destruct (second_registration_lost demo_registry 0 4 (newMetrics (Some demo_registry) 0).1 (newMetrics (Some r1) 4).1 r1 r2
    (λ name, lookup_empty (M := gmap str) name) ltac:(lia) eq_refl eq_refl 0%nat requests_name eq_refl) as (_ & H2 & H3).
  split; [exact H2|exact H3].
Defined.

(** ** A run: an answer that is no answer

    A stale page was stored by a node with a codec that this node does not have (a
    rolling deployment).  The origin confirms it by a 304: the client gets 200 with an
    empty body and no headers.  When the origin panics instead, nothing at all is written or recorded. *)
Definition uncoded_config : config :=
  mkConfig (5 * Second) StorageCompressionNone {[StorageCompressionNone := noneCompressor]}
    zeroCacheKey (B "Surrogate-Key") CacheStatusSimple true true true (125 * Second) None (mkTiming false [] []).
Definition uncoded_titip : Titip := mkTitip uncoded_config None None (λ _ _, Err []) (λ _, true) None [].

(** A page long enough to be compressed. *)
Definition tagged_page : Request → Writer → Writer * bool := λ _ w,
  let h := hdr [("Cache-Control", "max-age=60, stale-if-error=600"); ("ETag", "e1")] in
  (Write (WriteHeader (w_with_header w h) 200) (replicate 300 "x"%char), false).

Example undecodable_stale_answers_empty :
  let get := request "GET" "/page" [] in
  let stored := serve_at plain_titip epoch tagged_page get (world TestStore.New false) in
  let confirmed := serve_at uncoded_titip (epoch + 100 * Second) (λ _, respond 304 [("Cache-Control", "max-age=60")] "") get stored in
  let failed := serve_at uncoded_titip (epoch + 100 * Second) (λ _ w, (w, true)) get stored in
  seen "Cache-Status" confirmed = (Some 200%Z, B "EXPIRED", []) ∧
  (w_Code (wd_w failed), w_Body (wd_w failed), recorded (wd_trace failed)) = (None, [], []).
Proof. vm_compute. repeat split. Qed.
