(* ===== verification/EsiMetrics.v ===== *)
(** * What the ESI processor records ([src/esi/processor.go], [src/esi/metrics.go])

    [Esi] leaves out the calls of [recordFragment] and [recordDuration].  Here the execution of
    fragments is given again with the recordings in their order ([executeRecorded]); without them it is
    [executeFragment] ([recorded_is_executed]).  [replay] puts recordings on the collectors of
    [Metrics].  Each fetched or failed include records its own outcome once and last, and a URL that the
    checks refuse is recorded besides, so that the total counts such an include more than once
    ([blocked_counts_twice]). *)

From S2P Require Import Prelude GoStrings GoHttp Env Headers Storage Scanner Esi Metrics.
#[local] Unset Default Proof Using.

Inductive recording :=
  | Fragment (status : str)
  | Duration (mode : str).

Definition fragment_success := B "success".
Definition fragment_fallback := B "fallback".
Definition fragment_error := B "error".
Definition fragment_blocked := B "ssrf_blocked".
Definition mode_in_process := B "in_process".
Definition mode_http := B "http".

Section Recorded.
Context {E : GoEnv} (cfg : esiConfig)
        (internalFetcher : option (esiExecutionState → str → Request → fetcher_result))
        (http_Do : esiExecutionState → Request → result Response)
        (alt_budget : EsiFragment → bool).
Abbreviation fetch := (fetchFragment cfg internalFetcher http_Do).
Abbreviation execute := (executeFragment cfg internalFetcher http_Do alt_budget).

(** The mode of a fetch that succeeded. *)
Definition fetch_mode (parentReq : Request) (targetURL : str) (state : esiExecutionState) : str :=
  match validateURLScheme targetURL with
  | Err _ => []
  | Ok parsed =>
      let isSameHost := is_nil (u_Host parsed)
        || (negb (is_nil (r_Host parentReq)) && EqualFold (u_Host parsed) (r_Host parentReq)) in
      match (if isSameHost then internalFetcher else None) with
      | Some fetcher =>
          let uri := url_RequestURI parsed in
          match fetchViaCustomFetcher cfg fetcher parentReq (if is_nil uri then B "/" else uri) state with
          | FallbackToHTTP => mode_http
          | _ => mode_in_process
          end
      | None => mode_http
      end
  end.

(** What a fetch records itself: that its URL was refused. *)
Definition fetch_recordings (targetURL : str) : list recording :=
  match validateURLScheme targetURL with Err _ => [Fragment fragment_blocked] | Ok _ => [] end.

(** [executeFragment] with its recordings; those of nested fragments come before its own. *)
Fixpoint executeRecorded (fuel : nat) (parentReq : Request) (parentBody : str) (frag : EsiFragment)
    (state : esiExecutionState) : option (fragmentResult * list recording) :=
  match fuel with
  | O => None
  | S fuel =>
    if is_nil (Src frag) then Some (static_result cfg parentBody frag, []) else
    let max := effectiveMaxDepth frag state in
    let failed := fallback_result cfg parentBody frag in
    if (max <=? st_depth state)%Z then Some (failed, [Fragment fragment_fallback])
    else if visited_contains (st_visited state) (Src frag) then Some (failed, [Fragment fragment_fallback])
    else
      (* expandNestedESI, and what is recorded after it *)
      let expand (url status : str) (raw : str * list str) (before : list recording)
          : option (fragmentResult * list recording) :=
        let child := childState frag state url in
        let own := [Fragment status; Duration (fetch_mode parentReq url child)] in
        match Scan raw.1 with
        | NoFuel => None
        | IndexPanic => Some (failed, before ++ [Fragment fragment_error])
        | Scanned [] => Some (mkFragmentResult frag raw.1 false raw.2, before ++ own)
        | Scanned frags =>
            nested ← mapM (λ f, executeRecorded fuel parentReq raw.1 f child) frags;
            Some (mkFragmentResult frag (spliceFragments raw.1 nested.*1) false
                    (raw.2 ++ (nested.*1 ≫= fr_setCookies)), before ++ (nested ≫= snd) ++ own)
        end in
      let rec1 := fetch_recordings (Src frag) in
      match fetch parentReq (Src frag) (childState frag state (Src frag)) with
      | Ok raw => expand (Src frag) fragment_success raw rec1
      | Err _ =>
          if negb (is_nil (Alt frag)) && alt_budget frag then
            let rec2 := rec1 ++ fetch_recordings (Alt frag) in
            match fetch parentReq (Alt frag) (childState frag state (Alt frag)) with
            | Ok raw => expand (Alt frag) fragment_fallback raw rec2
            | Err _ => Some (failed, rec2 ++ [Fragment fragment_fallback])
            end
          else Some (failed, rec1 ++ [Fragment fragment_fallback])
      end
  end.

(** ** Facts *)
Lemma mapM_fst {A C D} (g : A → option (C * D)) (h : A → option C) l :
  (∀ x, fst <$> g x = h x) → (λ l, l.*1) <$> mapM g l = mapM h l.
Proof.
  intros H. induction l as [|x l IH]; [done|]. simpl. rewrite <- (H x), <- IH.
  destruct (g x) as [[c d]|]; [|done]. simpl. by destruct (mapM g l).
Qed.

(** Recording changes no result. *)
Theorem recorded_is_executed fuel req body frag state :
  fst <$> executeRecorded fuel req body frag state = execute fuel req body frag state.
Proof.
  revert body frag state. induction fuel as [|fuel IH]; intros body frag state; [done|]. simpl.
  repeat (case_if; [done|]).
  assert (∀ url raw own (before : list recording),
    fst <$> match Scan raw.1 with
      | NoFuel => None
      | IndexPanic => Some (fallback_result cfg body frag, before ++ [Fragment fragment_error])
      | Scanned [] => Some (mkFragmentResult frag raw.1 false raw.2, before ++ own)
      | Scanned frags => nested ← mapM (λ f, executeRecorded fuel req raw.1 f
            (childState frag state url)) frags;
          Some (mkFragmentResult frag (spliceFragments raw.1 nested.*1) false
                  (raw.2 ++ (nested.*1 ≫= fr_setCookies)), before ++ (nested ≫= snd) ++ own)
      end
    = match Scan raw.1 with
      | NoFuel => None
      | IndexPanic => Some (fallback_result cfg body frag)
      | Scanned [] => Some (mkFragmentResult frag raw.1 false raw.2)
      | Scanned frags => results ← mapM (λ f, execute fuel req raw.1 f
            (childState frag state url)) frags;
          Some (mkFragmentResult frag (spliceFragments raw.1 results) false (raw.2 ++ (results ≫= fr_setCookies)))
      end) as Hexp.
  { intros url raw own before. destruct (Scan raw.1) as [[|f fs]| |]; [done| |done|done].
    rewrite <- (mapM_fst (λ f, executeRecorded fuel req raw.1 f _) _ (f :: fs) (λ f, IH _ f _)).
    by destruct (mapM _ (f :: fs)). }
  destruct (fetch req (Src frag) _) as [raw|e]; [apply Hexp|]. case_if; [|done].
  destruct (fetch req (Alt frag) _) as [raw|e2]; [apply Hexp|done].
Qed.

(** The outcome of a fragment, in its recordings: its status comes after all others. *)
Definition own_outcome (res : fragmentResult) (recs : list recording) : Prop :=
  ∃ before st after, recs = before ++ Fragment st :: after ∧
    (if fr_err res then st ∈ [fragment_fallback; fragment_error] ∧ after = []
     else st ∈ [fragment_success; fragment_fallback] ∧ ∃ mode, after = [Duration mode]).

(** Every executed include records one outcome of its own, last: "success" or, for its
    alternative, "fallback", with the duration, if it has a page; "fallback" or, after a panic,
    "error", without a duration, if it has none. *)
Theorem outcome_is_recorded fuel req body frag state res recs :
  Src frag ≠ [] → executeRecorded fuel req body frag state = Some (res, recs) → own_outcome res recs.
Proof.
  intros Hs. destruct fuel as [|fuel]; [done|]. simpl. apply is_nil_false in Hs. rewrite Hs.
  assert (∀ before, own_outcome (fallback_result cfg body frag) (before ++ [Fragment fragment_fallback])) as Hfb.
  { intros before. exists before, fragment_fallback, []. split; [done|]. split; [by left|done]. }
  assert (∀ url status raw before, status ∈ [fragment_success; fragment_fallback] →
    match Scan raw.1 with
      | NoFuel => None
      | IndexPanic => Some (fallback_result cfg body frag, before ++ [Fragment fragment_error])
      | Scanned [] => Some (mkFragmentResult frag raw.1 false raw.2, before ++ [Fragment status; Duration (fetch_mode req url (childState frag state url))])
      | Scanned frags => nested ← mapM (λ f, executeRecorded fuel req raw.1 f
            (childState frag state url)) frags;
          Some (mkFragmentResult frag (spliceFragments raw.1 nested.*1) false
                  (raw.2 ++ (nested.*1 ≫= fr_setCookies)),
                before ++ (nested ≫= snd) ++ [Fragment status; Duration (fetch_mode req url (childState frag state url))])
      end = Some (res, recs) → own_outcome res recs) as Hexp.
  { intros url status raw before Hst. destruct (Scan raw.1) as [[|f fs]| |]; [| |intros [= <- <-]|done].
    - intros [= <- <-]. exists before, status, [Duration (fetch_mode req url (childState frag state url))]. split; [done|]. split; [done|eauto].
    - destruct (mapM _ (f :: fs)) as [nested|]; [|done]. intros [= <- <-].
      exists (before ++ (nested ≫= snd)), status, [Duration (fetch_mode req url (childState frag state url))]. rewrite <- app_assoc.
      split; [done|]. split; [done|eauto].
    - exists before, fragment_error, []. split; [done|]. split; [by right; left|done]. }
  case_if; [intros [= <- <-]; apply (Hfb [])|]. case_if; [intros [= <- <-]; apply (Hfb [])|].
  destruct (fetch req (Src frag) _) as [raw|e]; [apply Hexp; by left|]. case_if; [|intros [= <- <-]; apply Hfb].
  destruct (fetch req (Alt frag) _) as [raw|e2]; [apply Hexp; by right; left|intros [= <- <-]; apply Hfb].
Qed.

(** A defect: the total counts fragments "partitioned by status", but an include whose URL is refused
    counts as "ssrf_blocked" and as "fallback", and once more when its alternative is refused too. *)
Theorem blocked_counts_twice fuel req body frag state e :
  Src frag ≠ [] → (st_depth state < effectiveMaxDepth frag state)%Z →
  visited_contains (st_visited state) (Src frag) = false →
  validateURLScheme (Src frag) = Err e → is_nil (Alt frag) || negb (alt_budget frag) = true →
  executeRecorded (S fuel) req body frag state
  = Some (fallback_result cfg body frag, [Fragment fragment_blocked; Fragment fragment_fallback]).
Proof.
  intros Hs Hd Hv He Ha. simpl. apply is_nil_false in Hs. rewrite Hs, Hv. apply Z.leb_gt in Hd. rewrite Hd.
  assert (negb (is_nil (Alt frag)) && alt_budget frag = false) as ->
    by (by destruct (is_nil (Alt frag)), (alt_budget frag)).
  unfold fetchFragment at 1, fetch_recordings at 1. rewrite He. unfold fetch_recordings. by rewrite He.
Qed.
End Recorded.

(** ** On the collectors *)
Section Replay.
Context {PR : Prometheus}.

(** [dur] gives the duration observed at each recording. *)
Fixpoint replay (dur : nat → Z) (i : nat) (m : option esi_metrics) (recs : list recording) : option (option esi_metrics) :=
  match recs with
  | [] => Some m
  | r :: recs =>
      m' ← match r with
           | Fragment status => recordFragment m status
           | Duration mode => recordDuration m mode (dur i)
           end;
      replay dur (1 + i) m' recs
  end.

Record esi_metrics_wf (m : esi_metrics) : Prop := {
  wf_fragments : ∃ c, fragmentsTotal m = Some c ∧ length (counter_labels c) = 1%nat;
  wf_fragment_duration : ∃ h, esi_duration m = Some h ∧ length (histogram_labels h) = 1%nat;
}.

Lemma esi_newMetrics_wf reg prefix base m reg' :
  esi_newMetrics (Some reg) prefix base = (Some m, reg') → esi_metrics_wf m.
Proof.
  intros [= <- _]. split; eexists; (split; [reflexivity|]);
    first [by rewrite (proj1 (counter_new _ _)) | by rewrite (proj1 (histogram_new _ _))].
Qed.

Definition statuses_of (recs : list recording) : list str :=
  recs ≫= λ r, match r with Fragment st => [st] | Duration _ => [] end.
Definition modes_of (recs : list recording) : list str :=
  recs ≫= λ r, match r with Fragment _ => [] | Duration m => [m] end.
Definition count (x : str) (l : list str) : Z := Z.of_nat (length (List.filter (str_eqb x) l)).

Lemma count_cons x y l : count x (y :: l) = ((if decide (x = y) then 1 else 0) + count x l)%Z.
Proof.
  unfold count. simpl. destruct (str_eqb x y) eqn:E.
  - apply str_eqb_eq in E as ->. rewrite decide_True by done. simpl. lia.
  - apply str_eqb_neq in E. by rewrite decide_False.
Qed.

(** Recording does not panic, and the collectors count what was recorded, as long as
    the floats of the client library are exact. *)
Theorem replay_counts dur recs : ∀ i m, esi_metrics_wf m →
  (∀ st, read (fragmentsTotal m) [st] + count st (statuses_of recs) ≤ float_exact)%Z →
  ∃ m', replay dur i (Some m) recs = Some (Some m') ∧ esi_metrics_wf m' ∧
    (∀ st, read (fragmentsTotal m') [st] = read (fragmentsTotal m) [st] + count st (statuses_of recs))%Z ∧
    (∀ mode, read_count (esi_duration m') [mode] = read_count (esi_duration m) [mode] + count mode (modes_of recs))%Z.
Proof.
  induction recs as [|r recs IH]; intros i m Hm Hb.
  { exists m. split; [done|]. split; [done|]. split; intros x; unfold count; simpl; lia. }
  pose proof Hm as [(c & Hc & Hlc) (h & Hh & Hlh)]. destruct r as [st|mode]; csimpl in *.
  - destruct (counter_grows c [st] 1 1 Hlc) as (c' & Hon & Hl & Hne & Heq); [done|lia|].
    unfold recordFragment, counter_Inc. rewrite Hc, Hon. simpl. rewrite Hc in Hb.
    assert (∀ x, 0 ≤ count x (statuses_of recs))%Z as Hpos by (unfold count; lia).
    assert (∀ x, read (Some c') [x] = read (Some c) [x] + if decide (x = st) then 1 else 0)%Z as Hr.
    { intros x. destruct (decide (x = st)) as [->|Hx]; [|rewrite Hne by congruence; lia]. apply Heq.
      specialize (Hb st). rewrite count_cons, decide_True in Hb by done. specialize (Hpos st). lia. }
    destruct (IH (S i) (mkEsiMetrics (Some c') (esi_duration m))) as (m' & Hm' & Hw & Hs & Hd).
    + split; simpl; eauto.
    + intros x. cbn [fragmentsTotal]. rewrite Hr. specialize (Hb x). rewrite count_cons in Hb. lia.
    + exists m'. split; [exact Hm'|]. split; [done|]. split; [|done]. intros x. rewrite Hs. cbn [fragmentsTotal].
      rewrite Hr, count_cons. unfold read. simpl. lia.
  - destruct (histogram_Observe_spec h [mode] (dur i)) as (h' & Ho & Hlh' & Hn); [done|].
    unfold recordDuration. rewrite Hh. unfold on. rewrite Ho. simpl.
    destruct (IH (S i) (mkEsiMetrics (fragmentsTotal m) (Some h'))) as (m' & Hm' & Hw & Hs & Hd); [|exact Hb|].
    + split; simpl; [eauto|]. exists h'. split; [done|]. congruence.
    + exists m'. split; [exact Hm'|]. split; [done|]. split; [done|]. intros x. rewrite Hd. cbn [esi_duration]. unfold read_count. simpl.
      rewrite Hn, count_cons.
      destruct (decide (x = mode)) as [->|Hx]; [rewrite decide_True by done; lia|]. rewrite decide_False by congruence. lia.
Qed.
End Replay.
