(* ===== verification/Scenarios.v ===== *)
(** * Runs of the middleware on the in-memory store

    The theorems about the pipeline at concrete requests, and runs that show
    where the code does not do what it means to. *)

From S2P Require Import Prelude GoStrings GoHttp Env Headers Freshness CacheKey Storage TestStore Purge Scanner Esi Compress Config Handler HandlerLogic HandlerProps HandlerRun HandlerSafety.
#[local] Open Scope handler_scope.
#[local] Unset Default Proof Using.
Import Demo.

Definition demo_clock : nat → Z := clock_from epoch.
Definition page_origin : nat → Request → Writer → Writer * bool :=
  λ _ _, respond 200 [("Cache-Control", "max-age=60"); ("X-Id", "7")] "hello".
Definition get_page : Request := request "GET" "/page" [].

(** ** Witnesses *)
Lemma closed_stores_nothing_witness :
  let w := world TestStore.New true in
  let w' := (ServeHTTP plain_titip demo_clock page_origin None false get_page (with_writer w new_writer)).1 in
  List.filter stores_or_spawns (wd_trace w') = [] ∧ seen "Cache-Status" w' = (Some 200%Z, B "DYNAMIC", B "hello").
Proof.
  intros w w'. destruct (closed_stores_nothing w w') as (evs & Ht & Hf & _);
    [reflexivity|apply rtc_once, step_request|].
  simpl in Ht. rewrite Ht. split; [exact Hf|vm_compute; reflexivity].
Defined.

Definition cookie_origin : nat → Request → Writer → Writer * bool :=
  λ _ _, respond 200 [("Cache-Control", "max-age=60"); ("Connection", "X-Hop"); ("X-Hop", "1")] "hello".

Lemma no_cookies_stored_witness :
  let w := world TestStore.New false in
  let w' := (ServeHTTP plain_titip demo_clock cookie_origin None false get_page (with_writer w new_writer)).1 in
  all_variants storable_only (wd_store w') ∧ length (wd_trace w') = 4.
Proof.
  intros w w'. destruct (no_cookies_stored plain_titip demo_clock w w') as [H _]; [|apply rtc_once, step_request|].
  - split; [exact I|]. split; [|split; intros *; discriminate].
    split; [reflexivity|]. split; intros *; simpl; rewrite lookup_empty; discriminate.
  - split; [exact H|vm_compute; reflexivity].
Defined.

Lemma bypass_forwards_witness :
  let r := request "GET" "/page" [("Range", "bytes=0-1")] in
  let w := world TestStore.New false in
  let w' := (ServeHTTP plain_titip demo_clock page_origin None false r w).1 in
  wd_trace w' = [EvRecord labelStatusBypass; EvOrigin r] ∧ seen "Cache-Status" w' = (Some 200%Z, B "BYPASS", B "hello").
Proof.
  intros r w w'. destruct (bypass_forwards plain_titip demo_clock page_origin None false r w) as (d & c & H);
    [vm_compute; reflexivity|].
  split; [|vm_compute; reflexivity]. unfold w'. cbv zeta in H.
  destruct (page_origin (wd_calls w) r _) as [wr p]. rewrite H. reflexivity.
Defined.

Lemma storage_failure_fails_open_witness :
  let w := world (SetClosed TestStore.New true) false in
  let w' := (ServeHTTP plain_titip demo_clock page_origin None false get_page w).1 in
  wd_trace w' = [EvGetMeta (lookup_key plain_titip get_page); EvRecord labelStatusError; EvOrigin get_page] ∧
  seen "Cache-Status" w' = (Some 200%Z, B "BYPASS", B "hello").
Proof.
  intros w w'. destruct (storage_failure_fails_open plain_titip demo_clock page_origin None false get_page w ErrClosed)
    as (c & H); [vm_compute; reflexivity|vm_compute; reflexivity|].
  split; [|vm_compute; reflexivity]. unfold w'. cbv zeta in H.
  destruct (page_origin (wd_calls w) get_page _) as [wr p]. rewrite H. reflexivity.
Defined.

Lemma new_store_usable : store_total TestStore.New.
Proof.
  split; [split; [by repeat split|]|].
  - split; simpl; intros *; rewrite ?lookup_empty; [split; intros []|..]; done.
  - intros k e. simpl. by rewrite lookup_empty.
Qed.

Lemma demo_codecs : codecs_ok demo_config.
Proof.
  assert (∀ name c, compressors demo_config !! name = Some c →
    (name = StorageCompressionNone ∧ c = noneCompressor) ∨ (name = StorageCompressionLZ4 ∧ c = rev_codec)) as Hc.
  { intros name c. simpl. rewrite lookup_insert_Some, lookup_singleton_Some. naive_solver. }
  split; [done|..]; intros name c.
  - intros [[-> ->]|[-> ->]]%Hc; by split.
  - intros [[-> ->]|[-> ->]]%Hc src dst; simpl; intros [= <-]; by rewrite ?rev_involutive.
  - intros src dst [[-> ->]|[-> ->]]%Hc Hs; simpl; intros [= <-]; [done|].
    intros Hr. apply (f_equal (@length _)) in Hr. rewrite length_rev in Hr. by destruct src.
Qed.

Lemma demo_clock_mono i j : (i ≤ j)%nat → (demo_clock i ≤ demo_clock j)%Z.
Proof. unfold demo_clock, clock_from, Millisecond. lia. Qed.

Definition page_response : Writer := (page_origin 0 get_page new_writer).1.

Lemma miss_then_hit_witness :
  let w := world TestStore.New false in
  let w1 := with_writer (ServeHTTP plain_titip demo_clock page_origin None false get_page w).1 new_writer in
  let w2 := (ServeHTTP plain_titip demo_clock page_origin None false (request "GET" "/page" [("Accept", "text/html")]) w1).1 in
  wd_calls w2 = 1%nat ∧ replays w2 page_response ∧ seen "X-Id" w2 = (Some 200%Z, B "7", B "hello").
Proof.
  intros w w1 w2.
  destruct (miss_then_hit plain_titip demo_clock page_origin get_page
    (request "GET" "/page" [("Accept", "text/html")]) w page_response) as (_ & _ & Hc & _ & Hr).
  - exact new_store_usable.
  - exact demo_codecs.
  - reflexivity.
  - exact demo_clock_mono.
  - vm_compute. congruence.
  - split; try (vm_compute; reflexivity). vm_compute. congruence.
  - split; vm_compute; reflexivity.
  - exact I.
  - vm_compute. split; reflexivity.
  - vm_compute. split; reflexivity.
  - split; [|split; [exact Hr|vm_compute; reflexivity]].
    etransitivity; [exact Hc|vm_compute; reflexivity].
Defined.

Definition panicking_origin : nat → Request → Writer → Writer * bool := λ _ _ w, (w, true).

Lemma new_store_headed : all_variants headed TestStore.New.
Proof. split; [reflexivity|]. split; intros *; simpl; rewrite lookup_empty; discriminate. Qed.

Lemma origin_panic_contained_witness :
  let w := world TestStore.New false in
  let w' := (ServeHTTP plain_titip demo_clock panicking_origin None false get_page w).1 in
  (ServeHTTP plain_titip demo_clock panicking_origin None false get_page w).2 = Some true ∧
  w_Code (wd_w w') = Some 500%Z.
Proof.
  intros w w'. destruct (origin_panic_contained plain_titip demo_clock panicking_origin None false eq_refl get_page w)
    as [H _]; [exact new_store_usable|intros _; exact new_store_headed|vm_compute; congruence|].
  split; [exact H|vm_compute; reflexivity].
Defined.

(** A store with one entry for [/page]. *)
Definition page_meta : CacheMetadata :=
  mkCacheMetadata (lookup_key plain_titip get_page) [] ∅ epoch (epoch + 60 * Second) 0 0 [].
Definition page_variant : VariantInfo :=
  mkVariantInfo defaultVariantKey ∅ 200 ∅ [] 0 5 [] StorageCompressionNone.
Definition page_store : Store :=
  (SetVariant TestStore.New epoch (lookup_key plain_titip get_page) page_meta page_variant (B "hello") (60 * Second)).1.

Lemma page_store_usable : usable page_store.
Proof. apply set_usable. exact new_store_usable. Qed.

(** A stale entry for [/page], with the headers [h]. *)
Definition stale_page (h : Header) : Store :=
  (SetVariant TestStore.New epoch (lookup_key plain_titip get_page) page_meta
     (mkVariantInfo defaultVariantKey ∅ 200 h [] 0 5 [] StorageCompressionNone) (B "hello") (600 * Second)).1.

Definition not_modified : nat → Request → Writer → Writer * bool :=
  λ _ _, respond 304 [("Cache-Control", "max-age=60"); ("Connection", "X-Hop"); ("X-Hop", "1")] "".

(** A defect: a stored response without headers cannot be revalidated.  The headers of an upstream 304 are
    assigned into the nil map that the store has read back, outside the recovery of the
    origin's panics, and every such request panics. *)
Example nil_headers_304_panics :
  (ServeHTTP plain_titip (clock_from (epoch + 90 * Second)) not_modified None false get_page (world (stale_page ∅) false)).2
  = None.
Proof. vm_compute. reflexivity. Qed.

(** A defect: a 304 adds the headers that its Connection field nominates to the stored response
    (here [X-Hop]), which are never saved with a fresh response. *)
Example merge_304_keeps_nominated :
  let w' := serve_at plain_titip (epoch + 90 * Second) (not_modified 0) get_page
              (world (stale_page {[B "X-Id" := [B "7"]]}) false) in
  seen "X-Hop" w' = (Some 200%Z, B "1", B "hello") ∧
  ∃ k md v b ttl, EvSet k md v b ttl ∈ wd_trace w' ∧ ResponseHeaders v !! B "X-Hop" = Some [B "1"].
Proof.
  intros w'. split; [vm_compute; reflexivity|].
  destruct (List.find (λ e, match e with EvSet _ _ _ _ _ => true | _ => false end) (wd_trace w')) as [e|] eqn:He;
    [|vm_compute in He; discriminate].
  pose proof (find_some _ _ He) as [Hin _]. apply list_elem_of_In in Hin.
  vm_compute in He. injection He as <-. eexists _, _, _, _, _. split; [exact Hin|vm_compute; reflexivity].
Qed.

(** A POST to [/page] removes its entry. *)
Lemma mutation_invalidates_witness :
  let r := request "POST" "/page" [] in
  let w' := (ServeHTTP plain_titip demo_clock (λ _ _, respond 204 [] "") None false r (world page_store false)).1 in
  (match GetMeta page_store (epoch + Second) (lookup_key plain_titip get_page) with
   | Ret (Some _) => True | _ => False end) ∧
  GetMeta (wd_store w') (epoch + Second) (lookup_key plain_titip get_page) = Ret None.
Proof.
  intros r w'. split; [vm_compute; exact I|].
  apply (mutation_invalidates plain_titip demo_clock (λ _ _, respond 204 [] "") None false r
    (mkURL [] [] (B "/page") []) (respond 204 [] "" new_writer).1 false [B "p=/page:h=example.com:*"]).
  - exact page_store_usable.
  - vm_compute. reflexivity.
  - reflexivity.
  - reflexivity.
  - reflexivity.
  - vm_compute. split; congruence.
  - vm_compute. reflexivity.
  - exists (B "p=/page:h=example.com:*"). split; [by left|vm_compute; reflexivity].
  - intros [|i] Hi; [vm_compute; congruence|simpl in Hi; lia].
Defined.

(** ** Runs that show defects *)
Definition at_sec (n : Z) : Z := (epoch + n * Second)%Z.

(** An origin with one representation per language. *)
Definition lang_origin (en fr : string) : Request → Writer → Writer * bool := λ r,
  let l := [("Cache-Control", "max-age=60, stale-if-error=600"); ("Vary", "Accept-Language")] in
  if h_Get (r_Header r) (B "Accept-Language") =s B "fr" then respond 200 l fr else respond 200 l en.
Definition lang (l : string) : Request := request "GET" "/page" [("Accept-Language", l)].

(** A defect: freshness and the soft-purge mark are kept per URL, not per
    variant, and every stored variant resets them.  The English page of second 0 lives for
    60 seconds; it is expired at second 110, but a French page stored at
    second 100 makes it a hit again. *)
Theorem sibling_variant_unexpires :
  let w1 := serve_at plain_titip (at_sec 0) (lang_origin "en1" "fr1") (lang "en") (world TestStore.New false) in
  let w2 := serve_at plain_titip (at_sec 100) (lang_origin "en2" "fr2") (lang "fr") w1 in
  let late w := seen "Cache-Status" (serve_at plain_titip (at_sec 110) (lang_origin "en2" "fr2") (lang "en") w) in
  late w1 = (Some 200%Z, B "EXPIRED", B "en2") ∧ late w2 = (Some 200%Z, B "HIT", B "en1").
Proof. vm_compute. split; reflexivity. Qed.

(** The same with a soft purge: storing another variant revives a purged one. *)
Theorem sibling_variant_unpurges :
  let w1 := serve_at plain_titip (at_sec 0) (lang_origin "en1" "fr1") (lang "en") (world TestStore.New false) in
  let w2 := (titip_Purge plain_titip demo_clock (B "/page") true w1).1 in
  let w3 := serve_at plain_titip (at_sec 10) (lang_origin "en2" "fr2") (lang "fr") w2 in
  let later w := seen "Cache-Status" (serve_at plain_titip (at_sec 11) (lang_origin "en2" "fr2") (lang "en") w) in
  later w2 = (Some 200%Z, B "EXPIRED", B "en2") ∧ later w3 = (Some 200%Z, B "HIT", B "en1").
Proof. vm_compute. split; reflexivity. Qed.

(** An origin that first serves v1 without a validator, then v2 with the tag e2. *)
Definition v1_origin : Request → Writer → Writer * bool :=
  λ _, respond 200 [("Cache-Control", "max-age=60, stale-if-error=600")] "v1".
Definition v2_origin : Request → Writer → Writer * bool := λ r,
  let l := [("Cache-Control", "max-age=60"); ("ETag", "e2")] in
  if h_Get (r_Header r) headerIfNoneMatch =s B "e2" then respond 304 l "" else respond 200 l "v2".

(** A defect: a stale entry without validators is revalidated with the
    client's own If-None-Match.  A client that holds v2 makes the origin answer
    304, and the cache takes that for a confirmation of its v1: the next
    client gets v1, as a hit, under the tag of v2. *)
Theorem client_validator_poisons :
  let w1 := serve_at plain_titip (at_sec 0) v1_origin get_page (world TestStore.New false) in
  let w2 := serve_at plain_titip (at_sec 100) v2_origin (request "GET" "/page" [("If-None-Match", "e2")]) w1 in
  let w3 := serve_at plain_titip (at_sec 110) v2_origin get_page w2 in
  seen "Cache-Status" w3 = (Some 200%Z, B "HIT", B "v1") ∧ seen "ETag" w3 = (Some 200%Z, B "e2", B "v1").
Proof. vm_compute. split; reflexivity. Qed.

Definition tagged_origin : Request → Writer → Writer * bool := λ r,
  let l := [("Cache-Control", "max-age=60, stale-if-error=600"); ("ETag", "e")] in
  if h_Get (r_Header r) headerIfNoneMatch =s B "e" then respond 304 l "" else respond 200 l "v".

(** A defect: a 304 renews the expiry but not the creation time, so Age counts from
    the first response: ten seconds after a successful revalidation, a
    response with max-age=60 goes out with Age 109. *)
Theorem age_after_revalidation :
  let w1 := serve_at plain_titip (at_sec 0) tagged_origin get_page (world TestStore.New false) in
  let w2 := serve_at plain_titip (at_sec 100) tagged_origin get_page w1 in
  let w3 := serve_at plain_titip (at_sec 110) tagged_origin get_page w2 in
  seen "Cache-Status" w2 = (Some 200%Z, B "REVALIDATED", B "v") ∧
  seen "Cache-Status" w3 = (Some 200%Z, B "HIT", B "v") ∧ seen "Age" w3 = (Some 200%Z, B "109", B "v").
Proof. vm_compute. repeat split; reflexivity. Qed.

(** A defect: a hit on a HEAD request (or on an empty body) has no Age. *)
Theorem head_hit_without_age :
  let w1 := serve_at plain_titip (at_sec 0) tagged_origin get_page (world TestStore.New false) in
  let w2 := serve_at plain_titip (at_sec 30) tagged_origin (request "HEAD" "/page" []) w1 in
  seen "Cache-Status" w2 = (Some 200%Z, B "HIT", []) ∧ seen "Age" w2 = (Some 200%Z, [], []).
Proof. vm_compute. split; reflexivity. Qed.

(** A middleware with a custom codec of the given name, for new entries. *)
Definition codec_titip (name : string) : option Titip :=
  let comp := mkCompressor (B name) (λ s, Some (rev s)) (λ s, Some (rev s)) in
  match titip_New rev_codec rev_codec id
          [Some (WithStorageCompressor id (Some comp)); Some (WithStorageCompression (B name))] with
  | Valid (cfg, e) => Some (mkTitip cfg e None (λ _ _, Err []) (λ _, true) None [])
  | Invalid _ => None
  end.
Definition long_page : Request → Writer → Writer * bool := λ _ w,
  let '(w', _) := respond 200 [("Cache-Control", "max-age=60")] "" w in
  (Write w' (repeat "a"%char 300), false).
Definition second_status (t : Titip) : str :=
  let w1 := serve_at t (at_sec 0) long_page get_page (world TestStore.New false) in
  (seen "Cache-Status" (serve_at t (at_sec 10) long_page get_page w1)).1.2.

(** A defect: a custom codec is registered under its name in lower case, but
    entries are stored under the name itself.  With a codec called Rev every lookup fails
    to find the codec of the entry, and nothing is ever a hit; the same codec called
    rev works. *)
Theorem codec_name_case_never_hits :
  second_status <$> codec_titip "rev" = Some (B "HIT") ∧
  second_status <$> codec_titip "Rev" = Some (B "MISS").
Proof. vm_compute. split; reflexivity. Qed.

(** A page of another host. *)
Definition other_page : Request :=
  mkRequest (B "GET") (Some (mkURL [] [] (B "/x") [])) (B "other.com") ∅ false.

(** A defect: a Location without scheme and leading slash is a relative reference, which
    has no host, so it passes the same-host check; the purge then reads
    its first segment as a host.  A POST to example.com removes the entry
    of another host. *)
Theorem relative_location_purges_other_host :
  let w1 := serve_at plain_titip (at_sec 0) cacheable_page other_page (world TestStore.New false) in
  let w2 := serve_at plain_titip (at_sec 1) (λ _, respond 201 [("Location", "other.com/x")] "")
              (request "POST" "/page" []) w1 in
  let visit w := seen "Cache-Status" (serve_at plain_titip (at_sec 2) cacheable_page other_page w) in
  visit w1 = (Some 200%Z, B "HIT", B "hello") ∧ visit w2 = (Some 200%Z, B "MISS", B "hello").
Proof. vm_compute. split; reflexivity. Qed.
