(* ===== verification/Deployment.v ===== *)
(** * The middleware on Redis

    The request pipeline on the Redis store: the pipeline's lemmas are proved against the interface of
    storages ([StorageLaws]), which [redis_laws] implements on a documented server.  [redis_post_then_origin] puts
    together the pipeline ([ServeHTTP]), the targets of purges ([buildPurgeOperation]), the keys
    ([generatePrimaryKey]), the store's purges and the server's patterns. *)

From S2P Require Import Prelude GoStrings GoHttp Env Headers Freshness CacheKey Storage TestStore Glob Redis RedisStore RedisFacts RedisLaws Purge RedisDemo Scanner Esi Compress Config Handler HandlerLogic HandlerProps HandlerRun HandlerSafety.
#[local] Open Scope handler_scope.
#[local] Unset Default Proof Using.

Section Site.
Context {E : GoEnv} {CO : CacheObject}.
Context {R : Type} {RS : RedisServer R} {RD : RedisDoc R} {P : Proto} {PD : ProtoDoc P} (prefix : str).
Context (t : Titip) (now : nat → Z) (next : nat → Request → Writer → Writer * bool).
Abbreviation ck := (cacheKey (t_config t)).

#[local] Instance site_storage : Storage R := redis_storage prefix.
#[local] Instance site_laws : StorageLaws R := redis_laws prefix.
Abbreviation serve := (ServeHTTP t now next None false).

(** When a target has an exact key, it names a query and keys have neither headers nor cookies. *)
Lemma exact_target target cfg u scheme qs keys :
  target ≠ [] → parse_target target = Some (u, scheme) → target_query u cfg = Ret qs →
  buildPurgeOperation target (Some cfg) = Ret (true, keys) →
  qs ≠ [] ∧ (ExcludeHost cfg = true ∨ normalizeHost (u_Host u) scheme ≠ []) ∧
  IncludedHeaderNames cfg = [] ∧ IncludedCookieNames cfg = [].
Proof.
  intros Ht Hp Hq. unfold buildPurgeOperation. simpl. apply is_nil_false in Ht. rewrite Ht, Hp, Hq.
  destruct (is_nil qs) eqn:Eqs; simpl; [by repeat case_if|]. apply is_nil_false in Eqs.
  destruct (ExcludeHost cfg || negb (is_nil (normalizeHost (u_Host u) scheme))) eqn:Eh; [|done].
  destruct (is_nil (IncludedHeaderNames cfg) && is_nil (IncludedCookieNames cfg)) eqn:Ei; [|done].
  apply andb_true_iff in Ei as [Eh1%is_nil_true Ec%is_nil_true]. intros _. repeat split; try done.
  apply orb_true_iff in Eh as [?|Hn%negb_true_iff%is_nil_false]; auto.
Qed.

(** The purge of a target reaches, on Redis, the key of every GET and HEAD that the target addresses. *)
Lemma target_reaches target u scheme qs r ex keys :
  forallb (λ c, negb (glob_special c)) prefix = true →
  target ≠ [] → parse_target target = Some (u, scheme) → scheme ≠ [] → target_query u ck = Ret qs →
  addressed ck u scheme qs r → r_Method r ∈ [MethodGet; MethodHead; []] →
  forallb (λ c, negb (glob_special c)) (normalizeHost (u_Host u) scheme) = true →
  newline ∉ generatePrimaryKey r (Some ck) → buildPurgeOperation target (Some ck) = Ret (ex, keys) →
  purge_reaches (S := R) ex keys (lookup_key t r) ∧ length keys = 1%nat.
Proof.
  intros Hlit Ht Hp Hs Hq Ha Hm Hh Hnl Hb. destruct ex.
  - destruct (exact_target _ _ _ _ _ _ Ht Hp Hq Hb) as (Hqs & Hx & Hhn & Hcn).
    rewrite (exact_purge_key target ck u scheme qs r) in Hb by (done || by intros _). by injection Hb as <-.
  - destruct (redis_purge_reaches prefix target ck u scheme qs r keys) as (p & -> & Hr); try done; [by left|].
    split; [|done]. exists p. split; [by left|done].
Qed.

(** C3: What is changed through the site is seen: on Redis, after a POST, PUT, DELETE or
    PATCH that the origin answered with 2xx or 3xx, a GET or HEAD that the URL of that request
    addresses looks its key up, finds nothing and asks the origin, whatever was stored before. *)
Theorem redis_post_then_origin r1 r2 u1 u scheme qs rec ex keys (w : World R) :
  forallb (λ c, negb (glob_special c)) prefix = true → redis_usable prefix (wd_store w) →
  classify (t_config t) r1 = VMutating → autoInvalidateMutatingMethods (t_config t) = true → r_URL r1 = Some u1 →
  next (wd_calls w) r1 new_writer = (rec, false) → (200 ≤ rec_Code rec < 400)%Z →
  mutating_target r1 u1 ≠ [] → parse_target (mutating_target r1 u1) = Some (u, scheme) → scheme ≠ [] →
  target_query u ck = Ret qs → addressed ck u scheme qs r2 → r_Method r2 ∈ [MethodGet; MethodHead; []] →
  forallb (λ c, negb (glob_special c)) (normalizeHost (u_Host u) scheme) = true →
  newline ∉ generatePrimaryKey r2 (Some ck) → buildPurgeOperation (mutating_target r1 u1) (Some ck) = Ret (ex, keys) →
  classify (t_config t) r2 = VLookup →
  (∀ d, client_directives (t_config t) r2 = Some d → req_OnlyIfCached d = false) →
  let w1 := with_writer (serve r1 w).1 new_writer in
  (now (1 + wd_tick w)%nat ≤ now (1 + wd_tick w1)%nat)%Z →
  ∃ evs, wd_trace (serve r2 w1).1
         = wd_trace w1 ++ [EvGetMeta (lookup_key t r2); EvOrigin (miss_request t r2)] ++ evs.
Proof.
  intros Hlit Hu Hc1 Ha Hurl Hor Hcode Ht Hp Hs Hq Had Hm Hh Hnl Hb Hc2 Hon w1 Hclock.
  destruct (target_reaches _ u scheme qs r2 ex keys Hlit Ht Hp Hs Hq Had Hm Hh Hnl Hb) as [Hr Hlen].
  apply miss_asks_origin; [done..|].
  destruct (mutation_gone t now next None false (now (1 + wd_tick w1)%nat) r1 u1 rec ex keys (lookup_key t r2) w)
    as [_ Hg]; try done.
  intros i Hi. rewrite Hlen in Hi. by replace (1 + i + wd_tick w)%nat with (1 + wd_tick w)%nat by lia.
Qed.
End Site.

(** ** A run *)
Import Demo.

Definition redis_world (d : keyspace) : World keyspace :=
  mkWorld d 0 0 new_writer (acquireRequestContext (request "GET" "/" []) 0) false [] [].

(** The page is written by a POST to its URL. *)
Definition form_origin : nat → Request → Writer → Writer * bool := λ _ r,
  if r_Method r =s B "POST" then respond 204 [] "" else respond 200 [("Cache-Control", "max-age=60")] "hello".
Definition form_run (r : Request) (w : World keyspace) : World keyspace :=
  (ServeHTTP (St := site_storage pfx) plain_titip (clock_from epoch) form_origin None false r w).1.
Definition form_serve (r : Request) (w : World keyspace) : World keyspace := form_run r (with_writer w new_writer).
Definition read_page : Request := request "GET" "/page" [].
Definition change_page : Request := request "POST" "/page" [].

(** A miss, a hit, a change, and a miss again. *)
Example site_run :
  let w1 := form_serve read_page (redis_world ∅) in
  let w2 := form_serve read_page w1 in
  let w3 := form_serve change_page w2 in
  let w4 := form_serve read_page w3 in
  wd_calls <$> [w1; w2; w3; w4] = [1; 1; 2; 3]%nat ∧
  w_Body <$> (wd_w <$> [w1; w2; w4]) = [B "hello"; B "hello"; B "hello"].
Proof. vm_compute. split; reflexivity. Qed.

(** A Redis server with an entry for the page. *)
Definition page_data : keyspace :=
  (redis_SetVariant pfx (∅ : keyspace) epoch (lookup_key plain_titip read_page) (demo_meta []) (demo_variant "") (B "old")
     (60 * Second)).1.

Lemma page_data_usable : redis_usable pfx page_data.
Proof. by apply (SetVariant_usable pfx (∅ : keyspace)), empty_usable. Qed.

Lemma redis_post_then_origin_witness :
  let w1 := with_writer (form_run change_page (redis_world page_data)) new_writer in
  let w2 := form_run read_page w1 in
  redis_GetVariant pfx page_data (epoch + Second) (lookup_key plain_titip read_page) []
  = Ret (Some (demo_variant "default", B "old")) ∧
  ∃ evs, wd_trace w2 = wd_trace w1 ++ [EvGetMeta (lookup_key plain_titip read_page);
                                       EvOrigin (miss_request plain_titip read_page)] ++ evs.
Proof.
  intros w1 w2. split; [vm_compute; reflexivity|].
  destruct (redis_post_then_origin pfx plain_titip (clock_from epoch) form_origin change_page read_page
    (mkURL [] [] (B "/page") []) (mkURL (B "http") (B "example.com") (B "/page") []) (B "http") []
    (respond 204 [] "" new_writer).1 false [B "p=/page:h=example.com:*"] (redis_world page_data)) as (evs & He).
  - reflexivity.
  - exact page_data_usable.
  - vm_compute; reflexivity.
  - reflexivity.
  - reflexivity.
  - vm_compute; reflexivity.
  - vm_compute; split; congruence.
  - vm_compute; congruence.
  - vm_compute; reflexivity.
  - vm_compute; congruence.
  - vm_compute; reflexivity.
  - split; vm_compute; try reflexivity; try congruence; split; congruence.
  - by left.
  - vm_compute; reflexivity.
  - apply (bool_decide_unpack _); vm_compute; exact I.
  - vm_compute; reflexivity.
  - vm_compute; reflexivity.
  - intros d Hd. vm_compute in Hd. congruence.
  - vm_compute; congruence.
  - exists evs. exact He.
Defined.
