(* ===== verification/Recorder.v ===== *)
(** * Pooled recorders and buffers ([src/recorder.go], [src/esi/recorder.go],
      [src/buffer.go], [src/esi/buffer.go], [HandlerFetcher] of [src/esi/config.go])

    The response of an origin or of an in-process fragment is captured in a recorder
    that is taken from a [sync.Pool] and put back.  The pipeline's model captures it in
    a fresh [Writer]; here the recorders are as the code has them, their fields and the
    capacity of their buffers included, a pool hands out any recorder that was put into
    it, and a recorder is shown to be a [Writer] whatever it was used for before.
    [Recorder] is the interface the refinement is proved against; both recorders of the
    code are instances. *)

From S2P Require Import Prelude GoStrings GoHttp Env Headers Scanner Esi Handler.

Definition maxBufferSize : Z := (2 * 1024 * 1024)%Z.

(** ** [bytes.Buffer]

    [grow c n] is the capacity after a write that needs [n] bytes in a buffer of
    capacity [c]; the library fixes no growth strategy.  [nil] pointers are [None]. *)
Class BufferGrowth := { grow : Z → Z → Z }.

Record Buffer := mkBuffer { b_Bytes : str; b_Cap : Z }.

Definition new_Buffer : Buffer := mkBuffer [] 0.
Definition Buffer_Reset (b : Buffer) : Buffer := mkBuffer [] (b_Cap b).

(** What a handler does to the writer it is given. *)
Inductive wop :=
  | OpHeader (f : Header → Header)
  | OpWriteHeader (code : Z)
  | OpWrite (b : str)
  | OpFlush.

(** What is read of a recorder: headers, status, whether it was set, body. *)
Record view := mkView { v_Header : Header; v_Code : Z; v_wrote : bool; v_Body : str }.

Definition fresh_view : view := mkView ∅ 200 false [].

Definition view_op (op : wop) (v : view) : view :=
  match op with
  | OpHeader f => mkView (f (v_Header v)) (v_Code v) (v_wrote v) (v_Body v)
  | OpWriteHeader code => if v_wrote v then v else mkView (v_Header v) code true (v_Body v)
  | OpWrite b =>
      mkView (v_Header v) (if v_wrote v then v_Code v else 200%Z) true (v_Body v ++ b)
  | OpFlush => v
  end.

(** A recorder: [rec_put] is what the pool receives, [rec_fits] the bound on what it keeps. *)
Class Recorder (R : Type) := {
  rec_new : R;
  rec_do : wop → R → R;
  rec_put : R → R;
  rec_view : R → view;
  rec_fits : R → Prop;
  rec_view_new : rec_view rec_new = fresh_view;
  rec_view_do op r : rec_view (rec_do op r) = view_op op (rec_view r);
  rec_view_put r : rec_view (rec_put r) = fresh_view;
  rec_fits_new : rec_fits rec_new;
  rec_fits_put r : rec_fits (rec_put r);
}.

(** ** The recorder of the pipeline *)
Record responseRecorder := mkResponseRecorder {
  Code : Z;
  HeaderMap : option Header;
  Body : option Buffer;
  wroteHeader : bool;
  flushed : bool;
}.

Section Recorders.
Context {G : BufferGrowth}.

Definition Buffer_Write (b : Buffer) (p : str) : Buffer :=
  let n := Z.of_nat (length (b_Bytes b ++ p)) in
  mkBuffer (b_Bytes b ++ p) (if (n <=? b_Cap b)%Z then b_Cap b else grow (b_Cap b) n).

Definition newResponseRecorder : responseRecorder :=
  mkResponseRecorder 200 (Some ∅) (Some new_Buffer) false false.

Definition rr_Header (rec : responseRecorder) : Header := default ∅ (HeaderMap rec).

Definition rr_WriteHeader (rec : responseRecorder) (code : Z) : responseRecorder :=
  if wroteHeader rec then rec
  else mkResponseRecorder code (HeaderMap rec) (Body rec) true (flushed rec).

Definition rr_Write (rec : responseRecorder) (b : str) : responseRecorder :=
  let rec := if negb (wroteHeader rec) then rr_WriteHeader rec 200 else rec in
  let body := default new_Buffer (Body rec) in
  mkResponseRecorder (Code rec) (HeaderMap rec) (Some (Buffer_Write body b)) (wroteHeader rec) (flushed rec).

Definition rr_Flush (rec : responseRecorder) : responseRecorder :=
  mkResponseRecorder (Code rec) (HeaderMap rec) (Body rec) (wroteHeader rec) true.

Definition rr_Reset (rec : responseRecorder) : responseRecorder :=
  mkResponseRecorder 200 (const ∅ <$> HeaderMap rec) (Buffer_Reset <$> Body rec) false false.

(** [putResponseRecorder]: the recorder as it is put into the pool. *)
Definition putResponseRecorder (rec : responseRecorder) : responseRecorder :=
  let body := match Body rec with
              | Some b => if (maxBufferSize <? b_Cap b)%Z then new_Buffer else b
              | None => new_Buffer
              end in
  rr_Reset (mkResponseRecorder (Code rec) (HeaderMap rec) (Some body) (wroteHeader rec) (flushed rec)).

Definition rr_do (op : wop) (rec : responseRecorder) : responseRecorder :=
  match op with
  | OpHeader f =>
      mkResponseRecorder (Code rec) (Some (f (rr_Header rec))) (Body rec) (wroteHeader rec) (flushed rec)
  | OpWriteHeader code => rr_WriteHeader rec code
  | OpWrite b => rr_Write rec b
  | OpFlush => rr_Flush rec
  end.

Definition body_bytes (b : option Buffer) : str := default [] (b_Bytes <$> b).
Definition body_fits (b : option Buffer) : Prop :=
  match b with Some b => (b_Cap b <= maxBufferSize)%Z | None => True end.

Definition rr_view (rec : responseRecorder) : view :=
  mkView (rr_Header rec) (Code rec) (wroteHeader rec) (body_bytes (Body rec)).

Lemma rr_view_do op rec : rr_view (rr_do op rec) = view_op op (rr_view rec).
Proof.
  destruct rec as [c h b w fl], op as [f | code | p |]; unfold rr_do, rr_Write, rr_WriteHeader, rr_view;
    cbn; try done; destruct w; try done; by destruct b as [[bs cap] |].
Qed.

Lemma rr_view_put rec : rr_view (putResponseRecorder rec) = fresh_view.
Proof. destruct rec as [c [h |] [b |] w fl]; cbn; try done; by case_if. Qed.

Lemma rr_fits_put rec : body_fits (Body (putResponseRecorder rec)).
Proof.
  destruct rec as [c h [b |] w fl]; cbn; [| done].
  destruct (maxBufferSize <? b_Cap b)%Z eqn:E; cbn; [done | by apply Z.ltb_ge in E].
Qed.

#[export] Instance responseRecorder_recorder : Recorder responseRecorder := {|
  rec_new := newResponseRecorder;
  rec_do := rr_do;
  rec_put := putResponseRecorder;
  rec_view := rr_view;
  rec_fits rec := body_fits (Body rec);
  rec_view_new := eq_refl;
  rec_view_do := rr_view_do;
  rec_view_put := rr_view_put;
  rec_fits_new := ltac:(by cbn);
  rec_fits_put := rr_fits_put;
|}.

(** ** The recorder of in-process fragments *)
Record subrequestRecorder := mkSubrequestRecorder {
  code : Z;
  header : option Header;
  body : option Buffer;
  wroteHeader_sub : bool;
}.

Definition newSubrequestRecorder : subrequestRecorder :=
  mkSubrequestRecorder 200 (Some ∅) (Some new_Buffer) false.

Definition sr_Header (r : subrequestRecorder) : Header := default ∅ (header r).

(** [detachHeader]: the header map is given away. *)
Definition detachHeader (r : subrequestRecorder) : Header * subrequestRecorder :=
  (sr_Header r, mkSubrequestRecorder (code r) None (body r) (wroteHeader_sub r)).

Definition sr_Write (r : subrequestRecorder) (b : str) : subrequestRecorder :=
  let c := if negb (wroteHeader_sub r) then 200%Z else code r in
  mkSubrequestRecorder c (header r) (Some (Buffer_Write (default new_Buffer (body r)) b)) true.

Definition sr_WriteHeader (r : subrequestRecorder) (c : Z) : subrequestRecorder :=
  if wroteHeader_sub r then r else mkSubrequestRecorder c (header r) (body r) true.

Definition releaseSubrequestRecorder (rec : subrequestRecorder) : subrequestRecorder :=
  let b := match body rec with
           | Some b => if (maxBufferSize <? b_Cap b)%Z then new_Buffer else b
           | None => new_Buffer
           end in
  mkSubrequestRecorder 200 (const ∅ <$> header rec) (Some (Buffer_Reset b)) false.

(** It is no [http.Flusher]: a handler that would flush finds it cannot. *)
Definition sr_do (op : wop) (r : subrequestRecorder) : subrequestRecorder :=
  match op with
  | OpHeader f => mkSubrequestRecorder (code r) (Some (f (sr_Header r))) (body r) (wroteHeader_sub r)
  | OpWriteHeader c => sr_WriteHeader r c
  | OpWrite b => sr_Write r b
  | OpFlush => r
  end.

Definition sr_view (r : subrequestRecorder) : view :=
  mkView (sr_Header r) (code r) (wroteHeader_sub r) (body_bytes (body r)).

Lemma sr_view_do op r : sr_view (sr_do op r) = view_op op (sr_view r).
Proof.
  destruct r as [c h b w], op as [f | c' | p |]; unfold sr_do, sr_Write, sr_WriteHeader, sr_view;
    cbn; try done; destruct w; try done; by destruct b as [[bs cap] |].
Qed.

Lemma sr_view_put r : sr_view (releaseSubrequestRecorder r) = fresh_view.
Proof. by destruct r as [c [h |] b w]. Qed.

Lemma sr_fits_put r : body_fits (body (releaseSubrequestRecorder r)).
Proof.
  destruct r as [c h [b |] w]; cbn; [| done].
  destruct (maxBufferSize <? b_Cap b)%Z eqn:E; cbn; [done | by apply Z.ltb_ge in E].
Qed.

#[export] Instance subrequestRecorder_recorder : Recorder subrequestRecorder := {|
  rec_new := newSubrequestRecorder;
  rec_do := sr_do;
  rec_put := releaseSubrequestRecorder;
  rec_view := sr_view;
  rec_fits r := body_fits (body r);
  rec_view_new := eq_refl;
  rec_view_do := sr_view_do;
  rec_view_put := sr_view_put;
  rec_fits_new := ltac:(by cbn);
  rec_fits_put := sr_fits_put;
|}.

(** [putBuffer]: what the buffer pool receives, if anything. *)
Definition putBuffer (buf : option Buffer) : option Buffer :=
  match buf with
  | None => None
  | Some b => if (maxBufferSize <? b_Cap b)%Z then None else Some (Buffer_Reset b)
  end.

End Recorders.

(** ** Pools

    [sync.Pool]: [Get] returns some value that was [Put], or a new one; the runtime may
    drop values at any time.  [held] are the recorders in use, each with the operations
    done on it since it was taken. *)
Section Pool.
Context {R : Type} `{Recorder R}.

Record pool := mkPool { idle : list R; held : list (R * list wop) }.

Inductive pool_step : pool → pool → Prop :=
  | pool_get_new i h : pool_step (mkPool i h) (mkPool i ((rec_new, []) :: h))
  | pool_get i h n r :
      i !! n = Some r → pool_step (mkPool i h) (mkPool (base.delete n i) ((r, []) :: h))
  | pool_use i h n r ops op :
      h !! n = Some (r, ops) → pool_step (mkPool i h) (mkPool i (<[n := (rec_do op r, ops ++ [op])]> h))
  | pool_put i h n r ops :
      h !! n = Some (r, ops) → pool_step (mkPool i h) (mkPool (rec_put r :: i) (base.delete n h))
  | pool_drop i h n : pool_step (mkPool i h) (mkPool (base.delete n i) h).

Definition pool_reachable : pool → Prop := rtc pool_step (mkPool [] []).

Definition pool_ok (p : pool) : Prop :=
  Forall (λ r, rec_view r = fresh_view ∧ rec_fits r) (idle p) ∧
  Forall (λ x : R * list wop, rec_view x.1 = foldl (flip view_op) fresh_view x.2) (held p).

Lemma pool_step_ok p p' : pool_ok p → pool_step p p' → pool_ok p'.
Proof.
  intros [Hi Hh] Hs. destruct Hs as [i h | i h n r Hn | i h n r ops op Hn | i h n r ops Hn | i h n];
    split; cbn in *; try done.
  - constructor; [apply rec_view_new | done].
  - by apply Forall_delete.
  - constructor; [| done]. cbn. by apply (Forall_lookup_1 _ _ _ _ Hi Hn).
  - apply Forall_insert; [done |]. cbn. rewrite rec_view_do, foldl_app. cbn. unfold flip at 1.
    f_equal. exact (Forall_lookup_1 _ _ _ _ Hh Hn).
  - constructor; [split; [apply rec_view_put | apply rec_fits_put] | done].
  - by apply Forall_delete.
  - by apply Forall_delete.
Qed.

Lemma pool_reachable_ok p : pool_reachable p → pool_ok p.
Proof.
  intros Hr. assert (H0 : pool_ok (mkPool [] [])) by by split.
  induction Hr; [done | eauto using pool_step_ok].
Qed.
End Pool.

(** ** Recorders are writers *)
Definition writer_do (op : wop) (w : Writer) : Writer :=
  match op with
  | OpHeader f => w_with_header w (f (w_Header w))
  | OpWriteHeader code => WriteHeader w code
  | OpWrite b => Write w b
  | OpFlush => w
  end.

Definition writer_run (ops : list wop) (w : Writer) : Writer := foldl (flip writer_do) w ops.

Definition writer_view (w : Writer) : view :=
  mkView (w_Header w) (rec_Code w) (bool_decide (is_Some (w_sent w))) (w_Body w).

Lemma writer_view_do op w : writer_view (writer_do op w) = view_op op (writer_view w).
Proof. destruct w as [h [[c s] |] b], op; done. Qed.

Lemma writer_view_run ops w : writer_view (writer_run ops w) = foldl (flip view_op) (writer_view w) ops.
Proof.
  revert w. induction ops as [| op ops IH]; intros w; [done |].
  change (writer_run (op :: ops) w) with (writer_run ops (writer_do op w)).
  rewrite IH, writer_view_do. done.
Qed.

(** C32: A recycled recorder is a fresh one.  Whatever recorders were taken from the pool,
    used and put back before, in any interleaving of requests: a recorder in use holds
    exactly what the [Writer] of the pipeline's model would hold after the operations
    done on it since it was taken (no status, header or byte of an earlier response),
    and no recorder waiting in the pool keeps a buffer of more than 2 MB. *)
Theorem recorder_is_a_writer {R : Type} `{Recorder R} (p : pool) (Hr : pool_reachable p) :
  (∀ r ops, (r, ops) ∈ held p → rec_view r = writer_view (writer_run ops new_writer)) ∧
  (∀ r, r ∈ idle p → rec_view r = writer_view new_writer ∧ rec_fits r).
Proof.
  apply pool_reachable_ok in Hr as [Hi Hh].
  rewrite Forall_forall in Hi. rewrite Forall_forall in Hh. split.
  - intros r ops Hin. rewrite writer_view_run. exact (Hh _ Hin).
  - intros r Hin. exact (Hi r Hin).
Qed.

(** ** [HandlerFetcher]

    A handler is what it does to its writer for a request, and whether it panics then.
    [rec] is the recorder the pool hands out; the recorder that is put back is returned,
    and with it the caller's headers, which the sub-request shares and changes. *)
Section HandlerFetcher.
Context {E : GoEnv} {G : BufferGrowth}.

Definition http_handler : Type := Request → list wop * bool.

Definition acceptEncodingIdentity : list str := [B "identity"].

Definition rec_run {R} `{Recorder R} (ops : list wop) (r : R) : R := foldl (flip rec_do) r ops.

Definition subrequest_url (targetPath : str) : option URL :=
  if HasPrefix targetPath (B "/") && negb (ContainsAny targetPath (B "?#%"))
  then Some (mkURL [] [] targetPath []) else url_Parse targetPath.

Definition subrequest_header (r : Request) : Header :=
  <[B "Accept-Encoding" := acceptEncodingIdentity]> (r_Header r).

(** [h = rec.detachHeader()] when there is a header. *)
Definition take_header (rec : subrequestRecorder) : Header * subrequestRecorder :=
  if decide (sr_Header rec = ∅) then (∅, rec) else detachHeader rec.

Definition HandlerFetcher (router : option http_handler) (targetPath : str) (r : Request)
    (rec : subrequestRecorder) : fetcher_result * option subrequestRecorder * Header :=
  match router with
  | None => (FetchFailed, None, r_Header r)
  | Some serve =>
    match subrequest_url targetPath with
    | None => (FetchFailed, None, r_Header r)
    | Some parsedURL =>
      let h := subrequest_header r in
      let subReq := mkRequest (B "GET") (Some parsedURL) (r_Host r) h (r_TLS r) in
      let '(ops, panicked) := serve subReq in
      let rec := rec_run ops rec in
      if panicked then (FetchPanicked, Some (releaseSubrequestRecorder rec), h) else
      if (code rec =? 404)%Z then (FallbackToHTTP, Some (releaseSubrequestRecorder rec), h) else
      let '(headers, rec') := take_header rec in
      if (400 <=? code rec)%Z then (FetchFailed, Some (releaseSubrequestRecorder rec'), h)
      else (Fetched (body_bytes (body rec)) headers, Some (releaseSubrequestRecorder rec'), h)
    end
  end.

(** The same subrequest recorded in a fresh [Writer]. *)
Definition fetch_with_writer (serve : http_handler) (targetPath : str) (r : Request) : fetcher_result :=
  match subrequest_url targetPath with
  | None => FetchFailed
  | Some u =>
      let '(ops, panicked) :=
        serve (mkRequest (B "GET") (Some u) (r_Host r) (subrequest_header r) (r_TLS r)) in
      let w := writer_run ops new_writer in
      if panicked then FetchPanicked else if (rec_Code w =? 404)%Z then FallbackToHTTP
      else if (400 <=? rec_Code w)%Z then FetchFailed else Fetched (w_Body w) (w_Header w)
  end.

Lemma rec_run_view {R} `{Recorder R} ops (r : R) :
  rec_view (rec_run ops r) = foldl (flip view_op) (rec_view r) ops.
Proof.
  revert r. induction ops as [| op ops IH]; intros r; [done |].
  change (rec_run (op :: ops) r) with (rec_run ops (rec_do op r)).
  by rewrite IH, rec_view_do.
Qed.

Lemma take_header_spec rec : (take_header rec).1 = sr_Header rec ∧
  (sr_Header rec ≠ ∅ → header (releaseSubrequestRecorder (take_header rec).2) = None).
Proof. unfold take_header. by case_decide. Qed.

(** The adapter from an [http.Handler] to an internal fetcher answers with exactly
    what the handler wrote, for any recorder the pool may hand out (one that looks fresh):
    an unknown page (404) falls back to HTTP, any other status from 400 on is a failure,
    everything else is the body and the headers.  The recorder it puts back looks fresh
    again and fits the pool, and it has let go of the header map it gave away. *)
Theorem handler_fetcher_records router targetPath r rec (Hrec : rec_view rec = fresh_view) :
  let '(res, put, h) := HandlerFetcher router targetPath r rec in
  res = match router with Some serve => fetch_with_writer serve targetPath r | None => FetchFailed end ∧
  (∀ rec', put = Some rec' → rec_view rec' = fresh_view ∧ rec_fits rec' ∧
    ∀ b hs, res = Fetched b hs → hs ≠ ∅ → header rec' = None) ∧
  (∀ k, k ≠ B "Accept-Encoding" → h !! k = r_Header r !! k).
Proof.
  unfold HandlerFetcher, fetch_with_writer. destruct router as [serve |]; [| by split_and!].
  destruct (subrequest_url targetPath) as [u |]; [| by split_and!].
  destruct (serve _) as [ops panicked].
  assert (Hput : ∀ rec0 : subrequestRecorder, rec_view (releaseSubrequestRecorder rec0) = fresh_view ∧
    rec_fits (releaseSubrequestRecorder rec0)) by (intros rec0; split; [apply sr_view_put | apply sr_fits_put]).
  pose proof (rec_run_view ops rec) as Hv. rewrite Hrec in Hv.
  change fresh_view with (writer_view new_writer) in Hv. rewrite <- writer_view_run in Hv.
  set (rec1 := rec_run ops rec) in *. set (w := writer_run ops new_writer) in *.
  cbn in Hv. unfold sr_view, writer_view in Hv. injection Hv as Hh Hc _ Hb.
  assert (Hhdr : ∀ k, k ≠ B "Accept-Encoding" → subrequest_header r !! k = r_Header r !! k)
    by (intros k Hk; apply lookup_insert_ne; congruence).
  destruct panicked; [by split_and!; [| intros ? [= <-]; destruct (Hput rec1) |] |].
  rewrite Hc. case_if; [by split_and!; [| intros ? [= <-]; destruct (Hput rec1) |] |].
  pose proof (take_header_spec rec1) as [Ht Hgone].
  destruct (take_header rec1) as [hs rec2]. cbn in Ht, Hgone. case_if.
  - by split_and!; [| intros ? [= <-]; destruct (Hput rec2) |].
  - split_and!; [by rewrite Hb, Ht, Hh | | done]. intros ? [= <-]. destruct (Hput rec2) as [H1 H2].
    split_and!; [done | done |]. intros b hs' [= <- <-] Hne. apply Hgone. congruence.
Qed.
End HandlerFetcher.

(** ** Concrete runs *)
#[export] Instance doubling : BufferGrowth := {| grow c n := (2 * c + n)%Z |}.

(** A recorder that held another visitor's page is recycled for "hi". *)
Definition first_use : list wop := [OpHeader (λ h, h_Set h (B "Set-Cookie") (B "sid=1")); OpWriteHeader 403; OpWrite (B "secret")].
Definition used_recorder : responseRecorder := rec_run first_use rec_new.
Definition recycled : responseRecorder := rec_put used_recorder.

Lemma recycled_reachable :
  pool_reachable (mkPool [] [(rec_do (OpWrite (B "hi")) recycled, [OpWrite (B "hi")])]).
Proof.
  eapply rtc_l; [apply pool_get_new |].
  eapply rtc_l; [eapply (pool_use [] _ 0) with (op := OpHeader (λ h, h_Set h (B "Set-Cookie") (B "sid=1"))); reflexivity |].
  eapply rtc_l; [eapply (pool_use [] _ 0) with (op := OpWriteHeader 403); reflexivity |].
  eapply rtc_l; [eapply (pool_use [] _ 0) with (op := OpWrite (B "secret")); reflexivity |].
  eapply rtc_l; [eapply (pool_put [] _ 0); reflexivity |].
  eapply rtc_l; [eapply (pool_get _ [] 0); reflexivity |].
  apply rtc_once. exact (pool_use [] [(recycled, [])] 0 recycled [] (OpWrite (B "hi")) eq_refl).
Qed.

Lemma recorder_is_a_writer_witness :
  let rec := rec_do (OpWrite (B "hi")) recycled in
  pool_reachable (mkPool [] [(rec, [OpWrite (B "hi")])]) ∧
  rec_view rec = writer_view (Write new_writer (B "hi")) ∧ rec_view used_recorder ≠ fresh_view.
Proof.
  split; [exact recycled_reachable |]. split.
  - exact (proj1 (recorder_is_a_writer _ recycled_reachable) _ _ (list_elem_of_here _ _)).
  - vm_compute. discriminate.
Defined.

Definition hello : http_handler := λ r, ([OpWriteHeader 200; OpWrite (B "hello")], false).
Definition get_hello : Request := mkRequest (B "POST") None (B "example.com") ∅ true.

Lemma handler_fetcher_records_witness :
  rec_view (releaseSubrequestRecorder (rec_run first_use rec_new)) = fresh_view ∧
  (HandlerFetcher (E := demo_env) (Some hello) (B "/a") get_hello
     (releaseSubrequestRecorder (rec_run first_use rec_new))).1.1 = Fetched (B "hello") ∅.
Proof.
  assert (H : rec_view (releaseSubrequestRecorder (rec_run first_use rec_new)) = fresh_view) by reflexivity.
  split; [exact H |].
  pose proof (handler_fetcher_records (E := demo_env) (Some hello) (B "/a") get_hello _ H) as Hf.
  destruct (HandlerFetcher _ _ _ _) as [[res put] h]. destruct Hf as [-> _]. reflexivity.
Defined.
