(* ===== verification/Buffers.v ===== *)
(** * Pooled byte buffers ([src/buffer.go], [src/esi/buffer.go] and their users)

    Bodies pass through buffers of a pool that all goroutines share: a cached body is decompressed
    into one ([loadDecompressed] of [src/handler_context.go], the fallback of [src/handler.go]), a body is
    compressed in one ([saveVariantToStorage]), and a page is spliced in one
    ([ProcessFragments] and [Result] of [src/esi/processor.go]); the bytes are read through an
    alias, not a copy, until the buffer is put back.  The pipeline's model computes the bodies by
    functions; here the buffers are cells of a heap, every goroutine runs its commands in
    any interleaving with the others, and what it reads is shown to be what the functions give. *)

From S2P Require Import Prelude GoStrings GoHttp Env Headers Storage Scanner Esi Compress Config Handler HandlerProps Recorder.

(** ** Data *)

(** What a goroutine does with its buffer: [getBuffer], a write, [Reset], a use of [Bytes()], and
    [putBuffer]. *)
Inductive cmd := CGet | CAppend (x : str) | CReset | CRead | CPut.

Record user := mkUser { u_todo : list cmd; u_holds : option nat; u_seen : list str }.

(** [free] is the pool; [fresh] the next address. *)
Record heap := mkHeap { memory : gmap nat Buffer; free : list nat; fresh : nat; users : list user }.

Section Buffers.
Context {G : BufferGrowth}.

(** ** Steps *)
Definition step_user (i : nat) (u : user) (m : gmap nat Buffer) (fr : list nat) (n : nat) (s : heap) : heap :=
  mkHeap m fr n (<[i := u]> (users s)).

Inductive step : heap → heap → Prop :=
  | step_reuse s i rest h seen l1 id l2 :             (* [Get] may hand out any buffer of the pool *)
      users s !! i = Some (mkUser (CGet :: rest) h seen) → free s = l1 ++ id :: l2 →
      step s (step_user i (mkUser rest (Some id) seen) (memory s) (l1 ++ l2) (fresh s) s)
  | step_new s i rest h seen :                        (* or a new one *)
      users s !! i = Some (mkUser (CGet :: rest) h seen) →
      step s (step_user i (mkUser rest (Some (fresh s)) seen) (<[fresh s := new_Buffer]> (memory s)) (free s) (S (fresh s)) s)
  | step_append s i x rest id seen b :
      users s !! i = Some (mkUser (CAppend x :: rest) (Some id) seen) → memory s !! id = Some b →
      step s (step_user i (mkUser rest (Some id) seen) (<[id := Buffer_Write b x]> (memory s)) (free s) (fresh s) s)
  | step_reset s i rest id seen b :
      users s !! i = Some (mkUser (CReset :: rest) (Some id) seen) → memory s !! id = Some b →
      step s (step_user i (mkUser rest (Some id) seen) (<[id := Buffer_Reset b]> (memory s)) (free s) (fresh s) s)
  | step_read s i rest id seen b :
      users s !! i = Some (mkUser (CRead :: rest) (Some id) seen) → memory s !! id = Some b →
      step s (step_user i (mkUser rest (Some id) (seen ++ [b_Bytes b])) (memory s) (free s) (fresh s) s)
  | step_put s i rest id seen b b' :
      users s !! i = Some (mkUser (CPut :: rest) (Some id) seen) → memory s !! id = Some b → putBuffer (Some b) = Some b' →
      step s (step_user i (mkUser rest None seen) (<[id := b']> (memory s)) (id :: free s) (fresh s) s)
  | step_discard s i rest id seen b :                 (* too large for the pool *)
      users s !! i = Some (mkUser (CPut :: rest) (Some id) seen) → memory s !! id = Some b → putBuffer (Some b) = None →
      step s (step_user i (mkUser rest None seen) (memory s) (free s) (fresh s) s)
  | step_collect s l1 id l2 :                         (* the collector empties pools *)
      free s = l1 ++ id :: l2 → step s (mkHeap (memory s) (l1 ++ l2) (fresh s) (users s)).

Definition begin (scripts : list (list cmd)) : heap :=
  mkHeap ∅ [] 0 ((λ l, mkUser l None []) <$> scripts).
Definition reachable (scripts : list (list cmd)) (s : heap) : Prop := rtc step (begin scripts) s.

(** ** The commands with a buffer of one's own *)

(** The content of the buffer, if one is held, and what has been read. *)
Definition own_step (st : option str * list str) (c : cmd) : option str * list str :=
  match c, st with
  | CGet, (_, seen) => (Some [], seen)
  | CAppend x, (Some d, seen) => (Some (d ++ x), seen)
  | CReset, (Some _, seen) => (Some [], seen)
  | CRead, (Some d, seen) => (Some d, seen ++ [d])
  | CPut, (_, seen) => (None, seen)
  | _, st => st
  end.
Definition own (l : list cmd) : option str * list str := foldl own_step (None, []) l.

Lemma own_snoc l c : own (l ++ [c]) = own_step (own l) c.
Proof. unfold own. by rewrite foldl_app. Qed.

(** ** The invariant *)

(** What goroutine [u] with commands [l] holds is as if nobody else were there. *)
Definition user_ok (m : gmap nat Buffer) (l : list cmd) (u : user) : Prop :=
  ∃ past, l = past ++ u_todo u ∧ (own past).2 = u_seen u ∧
    match u_holds u with
    | Some id => ∃ b, m !! id = Some b ∧ (own past).1 = Some (b_Bytes b)
    | None => (own past).1 = None
    end.

Record Inv (scripts : list (list cmd)) (s : heap) : Prop := {
  inv_users : Forall2 (user_ok (memory s)) scripts (users s);
  inv_apart : ∀ i j u v id, users s !! i = Some u → users s !! j = Some v → u_holds u = Some id →
    u_holds v = Some id → i = j;
  inv_held : ∀ i u id, users s !! i = Some u → u_holds u = Some id → id ∉ free s ∧ id < fresh s;
  inv_free : ∀ id, id ∈ free s → id < fresh s ∧ ∃ b, memory s !! id = Some b ∧ b_Bytes b = [];
  inv_once : NoDup (free s);
}.

Lemma begin_Inv scripts : Inv scripts (begin scripts).
Proof.
  assert (∀ i u, ((λ l, mkUser l None []) <$> scripts) !! i = Some u → u_holds u = None) as Hn.
  { intros i u. rewrite list_lookup_fmap. destruct (scripts !! i); [|done]. by intros [= <-]. }
  split; simpl.
  - apply Forall2_fmap_r, Forall_Forall2_diag, Forall_forall. intros l _. by exists [].
  - intros i j u v id Hu _ Hh. apply Hn in Hu. congruence.
  - intros i u id Hu Hh. apply Hn in Hu. congruence.
  - intros id Hid. by apply elem_of_nil in Hid.
  - constructor.
Qed.

(** A buffer that others hold. *)
Definition held_by_other (i : nat) (s : heap) (id : nat) : Prop :=
  ∃ j v, j ≠ i ∧ users s !! j = Some v ∧ u_holds v = Some id.

(** Goroutine [i] moves; what it does to the memory and the pool does not concern the others. *)
Lemma Inv_step_user scripts s i u l u' m fr n :
  Inv scripts s → users s !! i = Some u → scripts !! i = Some l → user_ok m l u' →
  (∀ id, held_by_other i s id → m !! id = memory s !! id ∧ id ∉ fr ∧ id < n) →
  (∀ id, u_holds u' = Some id → ¬ held_by_other i s id ∧ id ∉ fr ∧ id < n) →
  (∀ id, id ∈ fr → id < n ∧ ∃ b, m !! id = Some b ∧ b_Bytes b = []) → NoDup fr →
  Inv scripts (step_user i u' m fr n s).
Proof.
  intros [H1 H2 H3 H4 H5] Hu Hl Hok Hothers Hheld Hfree Hnd.
  pose proof (lookup_lt_Some _ _ _ Hu) as Hlt.
  assert (∀ j v, <[i := u']> (users s) !! j = Some v → (j = i ∧ v = u') ∨ (j ≠ i ∧ users s !! j = Some v)) as Hcase.
  { intros j v. destruct (decide (j = i)) as [->|Hne]; [rewrite list_lookup_insert_eq by done|rewrite list_lookup_insert_ne by done];
      [intros [= <-]; by left|by right]. }
  split; simpl; [| | |done..].
  - apply Forall2_same_length_lookup. split; [rewrite length_insert; by eapply Forall2_length|].
    intros j lj v Hlj [[-> ->]|[Hne Hv]]%Hcase; [congruence|].
    destruct (Forall2_lookup_lr _ _ _ _ _ _ H1 Hlj Hv) as (past & ? & ? & Hh). exists past. split; [done|]. split; [done|].
    destruct (u_holds v) as [id|] eqn:Ev; [|done]. destruct (Hothers id) as [-> _]; [by exists j, v|done].
  - intros j k v w id [[-> ->]|[Hj Hv]]%Hcase [[-> ->]|[Hk Hw]]%Hcase Hhv Hhw; [done| | |by eapply H2].
    + destruct (Hheld id Hhv) as [[] _]. by exists k, w.
    + destruct (Hheld id Hhw) as [[] _]. by exists j, v.
  - intros j v id [[-> ->]|[Hj Hv]]%Hcase Hh; [by apply Hheld|]. destruct (Hothers id) as [_ ?]; [by exists j, v|done].
Qed.

Lemma others_apart scripts s i u id : Inv scripts s → users s !! i = Some u → u_holds u = Some id →
  ¬ held_by_other i s id.
Proof. intros Hs Hu Hh (j & v & Hne & Hv & Hhv). apply Hne. symmetry. by eapply (inv_apart _ _ Hs). Qed.

Lemma others_alive scripts s i id : Inv scripts s → held_by_other i s id → id ∉ free s ∧ id < fresh s.
Proof. intros Hs (j & v & _ & Hv & Hh). by eapply inv_held. Qed.

(** The commands of a goroutine, and the state of its own buffer. *)
Lemma user_at scripts s i u : Inv scripts s → users s !! i = Some u →
  ∃ l, scripts !! i = Some l ∧ user_ok (memory s) l u.
Proof.
  intros Hs Hu. destruct (Forall2_lookup_r _ _ _ _ _ (inv_users _ _ Hs) Hu) as (l & Hl & Hok). by exists l.
Qed.

Lemma user_ok_step m m' l c rest h h' seen seen' :
  user_ok m l (mkUser (c :: rest) h seen) →
  (∀ st, st.2 = seen → match h with Some id => ∃ b, m !! id = Some b ∧ st.1 = Some (b_Bytes b) | None => st.1 = None end →
     (own_step st c).2 = seen' ∧
     match h' with Some id => ∃ b, m' !! id = Some b ∧ (own_step st c).1 = Some (b_Bytes b) | None => (own_step st c).1 = None end) →
  user_ok m' l (mkUser rest h' seen').
Proof.
  intros (past & -> & Hseen & Hh) Hst. simpl in *. exists (past ++ [c]). rewrite own_snoc. simpl.
  rewrite <- app_assoc. simpl. split; [done|]. by apply Hst.
Qed.

(** A step on the buffer that the goroutine holds. *)
Lemma Inv_own scripts s i c rest id seen b b' seen' :
  Inv scripts s → users s !! i = Some (mkUser (c :: rest) (Some id) seen) → memory s !! id = Some b →
  own_step (Some (b_Bytes b), seen) c = (Some (b_Bytes b'), seen') →
  Inv scripts (step_user i (mkUser rest (Some id) seen') (<[id := b']> (memory s)) (free s) (fresh s) s).
Proof.
  intros Hs Hu Hb Hc. destruct (user_at _ _ _ _ Hs Hu) as (l & Hl & Hok).
  destruct (inv_held _ _ Hs _ _ id Hu eq_refl) as [Hnf Hlt].
  assert (∀ id', held_by_other i s id' → id' ≠ id) as Hne.
  { intros id' Ho ->. by eapply others_apart. }
  eapply (Inv_step_user _ _ _ _ _ _ _ _ _ Hs Hu Hl).
  - eapply user_ok_step; [exact Hok|]. intros [d sn]. simpl. intros -> (b0 & Hb0 & ->). rewrite Hb in Hb0. injection Hb0 as <-.
    rewrite Hc. split; [done|]. exists b'. by rewrite lookup_insert_eq.
  - intros id' Ho. rewrite lookup_insert_ne by (symmetry; by apply Hne). split; [done|]. by eapply others_alive.
  - intros id' [= <-]. split; [by eapply others_apart|done].
  - intros id' Hf. rewrite lookup_insert_ne by congruence. by apply (inv_free _ _ Hs).
  - apply Hs.
Qed.

(** Taking a buffer that nobody holds and that is empty. *)
Lemma Inv_get scripts s i rest h seen id m fr n :
  Inv scripts s → users s !! i = Some (mkUser (CGet :: rest) h seen) →
  (∀ id', held_by_other i s id' → id' ≠ id ∧ m !! id' = memory s !! id') →
  (∃ b, m !! id = Some b ∧ b_Bytes b = []) → id ∉ fr → id < n → fresh s <= n → fr ⊆ free s →
  (∀ id', id' ∈ fr → m !! id' = memory s !! id') → NoDup fr →
  Inv scripts (step_user i (mkUser rest (Some id) seen) m fr n s).
Proof.
  intros Hs Hu Hne (b & Hb & He) Hfr Hlt Hle Hsub Hm Hnd. destruct (user_at _ _ _ _ Hs Hu) as (l & Hl & Hok).
  eapply (Inv_step_user _ _ _ _ _ _ _ _ _ Hs Hu Hl).
  - eapply user_ok_step; [exact Hok|]. intros [d sn] <- _. simpl. split; [by destruct d|]. exists b. rewrite He. by destruct d.
  - intros id' Ho. destruct (Hne id' Ho) as [_ ->]. destruct (others_alive _ _ _ _ Hs Ho) as [Hnf ?].
    split; [done|]. split; [|lia]. intros Hin. by apply Hnf, Hsub.
  - intros id' [= <-]. split; [|done]. intros Ho. by destruct (Hne id Ho).
  - intros id' Hin. destruct (inv_free _ _ Hs id') as [? ?]; [by apply Hsub|]. rewrite Hm by done. split; [lia|done].
  - done.
Qed.

(** Giving the buffer up. *)
Lemma Inv_put scripts s i rest id seen m fr :
  Inv scripts s → users s !! i = Some (mkUser (CPut :: rest) (Some id) seen) →
  (∀ id', id' ≠ id → m !! id' = memory s !! id') →
  (fr = free s ∨ fr = id :: free s ∧ ∃ b, m !! id = Some b ∧ b_Bytes b = []) →
  Inv scripts (step_user i (mkUser rest None seen) m fr (fresh s) s).
Proof.
  intros Hs Hu Hm Hfr. destruct (user_at _ _ _ _ Hs Hu) as (l & Hl & Hok).
  destruct (inv_held _ _ Hs _ _ id Hu eq_refl) as [Hnf Hlt].
  assert (∀ id', held_by_other i s id' → id' ≠ id) as Hne.
  { intros id' Ho ->. by eapply others_apart. }
  eapply (Inv_step_user _ _ _ _ _ _ _ _ _ Hs Hu Hl).
  - eapply user_ok_step; [exact Hok|]. intros [[d|] sn]; simpl; [|by intros _ (? & _ & ?)]. by intros ->.
  - intros id' Ho. rewrite Hm by (by apply Hne). split; [done|]. destruct (others_alive _ _ _ _ Hs Ho) as [? ?].
    split; [|done]. destruct Hfr as [->|[-> _]]; [done|]. apply not_elem_of_cons. split; [by apply Hne|done].
  - done.
  - assert (∀ id', id' ∈ free s → id' < fresh s ∧ ∃ b, m !! id' = Some b ∧ b_Bytes b = []) as Hold.
    { intros id' Hin. rewrite Hm by congruence. by apply (inv_free _ _ Hs). }
    intros id' Hin. destruct Hfr as [->|[-> Hb]]; [by apply Hold|].
    apply elem_of_cons in Hin as [->|Hin]; [done|by apply Hold].
  - destruct Hfr as [->|[-> _]]; [apply Hs|]. constructor; [done|apply Hs].
Qed.

Lemma free_split (l1 l2 : list nat) id : NoDup (l1 ++ id :: l2) → NoDup (l1 ++ l2) ∧ id ∉ l1 ++ l2 ∧ l1 ++ l2 ⊆ l1 ++ id :: l2.
Proof.
  intros H. rewrite <- Permutation_middle in H. inversion H; subst. split; [done|]. split; [done|].
  intros x. rewrite !elem_of_app, elem_of_cons. tauto.
Qed.

Lemma buffers_step_Inv scripts s s' : Inv scripts s → step s s' → Inv scripts s'.
Proof.
  intros Hs Hstep. destruct Hstep as [s i rest h seen l1 id l2 Hu Hf|s i rest h seen Hu|s i x rest id seen b Hu Hb
    |s i rest id seen b Hu Hb|s i rest id seen b Hu Hb|s i rest id seen b b' Hu Hb Hp|s i rest id seen b Hu Hb Hp|s l1 id l2 Hf].
  - pose proof (inv_once _ _ Hs) as Hnd. rewrite Hf in Hnd. destruct (free_split _ _ _ Hnd) as (? & ? & ?).
    assert (id ∈ free s) as Hin by (rewrite Hf; apply elem_of_app; right; left).
    destruct (inv_free _ _ Hs id Hin) as [? ?].
    eapply Inv_get; try done; [|by rewrite Hf]. intros id' Ho. split; [|done]. intros ->. by destruct (others_alive _ _ _ _ Hs Ho).
  - assert (∀ id', id' ∈ free s → id' < fresh s) as Hlt by (intros id' Hin; by destruct (inv_free _ _ Hs id' Hin)).
    eapply Inv_get; try done; [| | |lia|lia| |apply Hs].
    + intros id' Ho. destruct (others_alive _ _ _ _ Hs Ho). split; [lia|]. rewrite lookup_insert_ne by lia. done.
    + exists new_Buffer. by rewrite lookup_insert_eq.
    + intros Hin. specialize (Hlt _ Hin). lia.
    + intros id' Hin. specialize (Hlt _ Hin). rewrite lookup_insert_ne by lia. done.
  - by eapply Inv_own.
  - by eapply Inv_own.
  - rewrite <- (insert_id (memory s) id b) by done. by eapply Inv_own.
  - simpl in Hp. case_match; [done|]. injection Hp as <-. eapply Inv_put; [done..| |].
    + intros id' Hne. by rewrite lookup_insert_ne.
    + right. split; [done|]. exists (Buffer_Reset b). by rewrite lookup_insert_eq.
  - eapply Inv_put; [done..|by left].
  - pose proof (inv_once _ _ Hs) as Hnd. rewrite Hf in Hnd. destruct (free_split _ _ _ Hnd) as (? & ? & Hsub).
    destruct Hs as [H1 H2 H3 H4 H5]. rewrite Hf in *. split; simpl; try done.
    + intros i u id' Hu Hh. destruct (H3 i u id' Hu Hh). split; [|done]. intros Hin. by apply Hsub in Hin.
    + intros id' Hin. by apply H4, Hsub.
Qed.

Lemma buffers_Inv scripts s : reachable scripts s → Inv scripts s.
Proof.
  intros H. eapply (rtc_ind_r (Inv scripts)); [apply begin_Inv| |exact H]. intros s1 s2 _ Hst Hs. by eapply buffers_step_Inv.
Qed.

(** ** Scripts that hold a buffer whenever they use one *)
Fixpoint bracketed (held : bool) (l : list cmd) : bool :=
  match l with
  | [] => negb held
  | CGet :: l => negb held && bracketed true l
  | CPut :: l => held && bracketed false l
  | _ :: l => held && bracketed held l
  end.

Lemma bracketed_own l1 l2 : bracketed false (l1 ++ l2) = true →
  bracketed (match (own l1).1 with Some _ => true | None => false end) l2 = true.
Proof.
  revert l2. induction l1 as [|c l1 IH] using rev_ind; intros l2 H; [done|].
  rewrite <- app_assoc in H. specialize (IH _ H). rewrite own_snoc. destruct (own l1) as [[d|] seen], c; simpl in *; done.
Qed.

(** A goroutine with commands left can go on. *)
Lemma user_moves scripts s i l u : Inv scripts s → scripts !! i = Some l → bracketed false l = true →
  users s !! i = Some u → u_todo u ≠ [] → ∃ s', step s s' ∧ users s' !! i ≠ users s !! i.
Proof.
  intros Hs Hl Hbr Hu Hne. destruct (user_at _ _ _ _ Hs Hu) as (l' & Hl' & past & Hp & Hseen & Hh). simplify_eq.
  apply bracketed_own in Hbr. destruct u as [[|c rest] h seen]; [done|]. simpl in *.
  assert (∀ rest' h' seen' m fr n, rest' ≠ c :: rest →
    users (step_user i (mkUser rest' h' seen') m fr n s) !! i ≠ users s !! i) as Hmoved.
  { intros rest' h' seen' m fr n Hr. simpl. rewrite list_lookup_insert_eq by (by eapply lookup_lt_Some).
    rewrite Hu. by intros [=]. }
  assert (rest ≠ c :: rest) as Hr by (intros Hr; apply (f_equal length) in Hr; simpl in Hr; lia).
  destruct h as [id|].
  - destruct Hh as (b & Hb & Ho). rewrite Ho in Hbr.
    destruct c; simpl in Hbr; try done.
    + eexists. split; [by eapply step_append|by apply Hmoved].
    + eexists. split; [by eapply step_reset|by apply Hmoved].
    + eexists. split; [by eapply step_read|by apply Hmoved].
    + destruct (putBuffer (Some b)) eqn:Hput;
        [eexists; split; [by eapply step_put|by apply Hmoved]|eexists; split; [by eapply step_discard|by apply Hmoved]].
  - rewrite Hh in Hbr. destruct c; simpl in Hbr; try done. eexists. split; [by eapply step_new|by apply Hmoved].
Qed.

(** ** The users of the pool *)
Section Users.
Context {E : GoEnv} (t : Titip).

(** A body to be loaded ([loadDecompressed], and the fallback of [stateFetchOriginRevalidate], which takes
    its buffer before it knows the codec), a body to be stored, a page to be spliced.  [junk] is what a
    codec leaves in the buffer when it fails. *)
Inductive job :=
  | Loads (v : VariantInfo) (compBody junk : str)
  | FallsBack (v : VariantInfo) (body junk : str)
  | Saves (headers : Header) (bodyBytes junk : str)
  | Splices (parent : str) (results : list fragmentResult).

(** Decompression into the buffer; the body is served from it if the size is right. *)
Definition decompress_cmds (comp : Compressor) (v : VariantInfo) (compBody junk : str) : list cmd :=
  match Decompress comp compBody with
  | Some body => CAppend body :: if (Z.of_nat (length body) =? RawBodySize v)%Z then [CRead] else []
  | None => [CAppend junk]
  end.

(** The writes of [spliceFragments]. *)
Fixpoint splice_writes (parent : str) (lastPos : Z) (results : list fragmentResult) : list str :=
  let parentLen := Z.of_nat (length parent) in
  match results with
  | [] => if (lastPos <? parentLen)%Z then [drop (Z.to_nat lastPos) parent] else []
  | res :: results =>
      let start := StartPos (fr_spec res) in
      let stop := EndPos (fr_spec res) in
      if (start <? lastPos)%Z || (parentLen <? start)%Z || (parentLen <? stop)%Z || (stop <? start)%Z
      then splice_writes parent lastPos results
      else slice parent lastPos start :: (if is_nil (fr_body res) then [] else [fr_body res])
           ++ splice_writes parent stop results
  end.

Definition script_of (j : job) : list cmd :=
  match j with
  | Loads v compBody junk =>
      match codec_of t v with
      | None => []
      | Some comp => CGet :: decompress_cmds comp v compBody junk ++ [CPut]
      end
  | FallsBack v body junk =>
      CGet :: match codec_of t v with None => [] | Some comp => decompress_cmds comp v body junk end ++ [CPut]
  | Saves headers bodyBytes junk =>
      if is_nil bodyBytes then [] else
      let comp := resolveCompressor (compressors (t_config t) !! storageCompression (t_config t)) headers
                    (Z.of_nat (length bodyBytes)) in
      CGet :: match Compress comp bodyBytes with
              | Some c => [CAppend c]
              | None => [CAppend junk; CReset; CAppend bodyBytes]
              end ++ [CRead; CPut]
  | Splices parent results =>
      CGet :: (CAppend <$> (if is_nil results then [parent] else splice_writes parent 0 results)) ++ [CRead; CPut]
  end.

(** What the functions of the pipeline's model give. *)
Definition result_of (j : job) : list str :=
  match j with
  | Loads v body _ | FallsBack v body _ => option_list (decompressed t v body)
  | Saves headers bodyBytes _ => if is_nil bodyBytes then [] else [(compress_body t headers bodyBytes).1]
  | Splices parent results => [spliceFragments parent results]
  end.

Lemma splice_writes_eq parent results lastPos out :
  (let '(lastPos, out) := foldl (splice_step parent) (lastPos, out) results in
   if (lastPos <? Z.of_nat (length parent))%Z then out ++ drop (Z.to_nat lastPos) parent else out)
  = out ++ concat (splice_writes parent lastPos results).
Proof.
  revert lastPos out. induction results as [|res results IH]; intros lastPos out; simpl.
  - case_match; simpl; by rewrite ?app_nil_r.
  - destruct (_ || _ || _ || _); [apply IH|]. rewrite IH. simpl. rewrite <- !app_assoc.
    destruct (fr_body res); by rewrite ?app_nil_l.
Qed.

Lemma own_appends l d seen :
  foldl own_step (Some d, seen) (CAppend <$> l) = (Some (d ++ concat l), seen).
Proof.
  revert d. induction l as [|x l IH]; intros d; csimpl; [by rewrite app_nil_r|]. rewrite IH. by rewrite <- app_assoc.
Qed.

(** On its own, every job computes its function. *)
Lemma own_script j : own (script_of j) = (None, result_of j).
Proof.
  destruct j as [v body junk|v body junk|h body junk|parent results]; unfold own, script_of, result_of, decompress_cmds.
  - unfold decompressed. destruct (codec_of t v) as [comp|]; [|done]. cbn [mbind option_bind].
    destruct (Decompress comp body) as [d|]; [|done]. cbn [mbind option_bind]. by case_match.
  - unfold decompressed. destruct (codec_of t v) as [comp|]; [|done]. cbn [mbind option_bind].
    destruct (Decompress comp body) as [d|]; [|done]. cbn [mbind option_bind]. by case_match.
  - unfold compress_body. destruct (is_nil body) eqn:Hn; [done|]. by destruct (Compress _ _).
  - simpl. rewrite foldl_app, own_appends. simpl. unfold spliceFragments. destruct (is_nil results); simpl.
    + by rewrite app_nil_r.
    + pose proof (splice_writes_eq parent results 0 []) as Hw. by rewrite Hw.
Qed.

Lemma bracketed_appends l rest : bracketed true ((CAppend <$> l) ++ rest) = bracketed true rest.
Proof. by induction l. Qed.

Lemma bracketed_script j : bracketed false (script_of j) = true.
Proof.
  destruct j as [v body junk|v body junk|h body junk|parent results]; simpl; unfold decompress_cmds.
  - destruct (codec_of t v) as [comp|]; [|done]. destruct (Decompress comp body); simpl; [by case_match|done].
  - destruct (codec_of t v) as [comp|]; [|done]. destruct (Decompress comp body); simpl; [by case_match|done].
  - destruct (is_nil body); [done|]. by destruct (Compress _ _).
  - by rewrite bracketed_appends.
Qed.

Lemma own_prefix l1 l2 : (own l1).2 `prefix_of` (own (l1 ++ l2)).2.
Proof.
  revert l1. induction l2 as [|c l2 IH]; intros l1; [by rewrite app_nil_r|].
  replace (l1 ++ c :: l2) with ((l1 ++ [c]) ++ l2) by (by rewrite <- app_assoc). etrans; [|apply IH].
  rewrite own_snoc. destruct (own l1) as [[d|] seen], c; simpl; try done. by apply prefix_app_r.
Qed.

(** C26: Pooled buffers are private.  However the goroutines that load, store and splice bodies are
    interleaved, whichever buffers the pool hands out or drops, and whatever failed codecs leave in
    them, what a goroutine reads through its buffer is what the function of the pipeline's model gives,
    at any time a part of it and at the end all of it; it can always go on, and holds no buffer when it is done. *)
Theorem pooled_bodies jobs s i j u (H : reachable (script_of <$> jobs) s)
    (Hj : jobs !! i = Some j) (Hu : users s !! i = Some u) :
  (u_seen u `prefix_of` result_of j) ∧
  (u_todo u = [] → u_seen u = result_of j ∧ u_holds u = None) ∧
  (u_todo u ≠ [] → ∃ s', step s s' ∧ users s' !! i ≠ users s !! i).
Proof.
  apply buffers_Inv in H as Hs. assert ((script_of <$> jobs) !! i = Some (script_of j)) as Hl by (by rewrite list_lookup_fmap, Hj).
  split_and!.
  - destruct (user_at _ _ _ _ Hs Hu) as (l' & Hl' & past & Hp & Hseen & Hh). rewrite Hl in Hl'. injection Hl' as <-.
    pose proof (own_prefix past (u_todo u)) as Hpre. rewrite <- Hp, own_script, Hseen in Hpre. exact Hpre.
  - intros Hd. destruct (user_at _ _ _ _ Hs Hu) as (l' & Hl' & past & Hp & Hseen & Hh). rewrite Hl in Hl'. injection Hl' as <-.
    rewrite Hd, app_nil_r in Hp. rewrite <- Hp, own_script in Hseen, Hh. split; [by symmetry|].
    destruct (u_holds u); [|done]. by destruct Hh as (? & _ & ?).
  - intros Hne. eapply user_moves; [done|done|apply bracketed_script|done..].
Qed.
End Users.
End Buffers.

(** ** Schedules: the goroutines that move, each taking the head of the pool if there is one *)
Section Schedule.
Context {G : BufferGrowth}.

Definition move (i : nat) (s : heap) : option heap :=
  u ← users s !! i;
  match u with
  | mkUser (CGet :: rest) _ seen =>
      Some match free s with
           | id :: l2 => step_user i (mkUser rest (Some id) seen) (memory s) l2 (fresh s) s
           | [] => step_user i (mkUser rest (Some (fresh s)) seen) (<[fresh s := new_Buffer]> (memory s)) [] (S (fresh s)) s
           end
  | mkUser (c :: rest) (Some id) seen =>
      b ← memory s !! id;
      match c with
      | CGet => None
      | CAppend x => Some (step_user i (mkUser rest (Some id) seen) (<[id := Buffer_Write b x]> (memory s)) (free s) (fresh s) s)
      | CReset => Some (step_user i (mkUser rest (Some id) seen) (<[id := Buffer_Reset b]> (memory s)) (free s) (fresh s) s)
      | CRead => Some (step_user i (mkUser rest (Some id) (seen ++ [b_Bytes b])) (memory s) (free s) (fresh s) s)
      | CPut =>
          Some match putBuffer (Some b) with
               | Some b' => step_user i (mkUser rest None seen) (<[id := b']> (memory s)) (id :: free s) (fresh s) s
               | None => step_user i (mkUser rest None seen) (memory s) (free s) (fresh s) s
               end
      end
  | _ => None
  end.

Lemma move_step i s s' : move i s = Some s' → step s s'.
Proof.
  unfold move. destruct (users s !! i) as [[[|c rest] h seen]|] eqn:Hu; simpl; [done| |done].
  destruct c; [|destruct h as [id|]; [|done]; destruct (memory s !! id) as [b|] eqn:Hb; simpl; [|done]..].
  - destruct (free s) as [|id l2] eqn:Hf; intros [= <-]; [rewrite <- Hf; by eapply step_new|].
    exact (step_reuse s i rest h seen [] id l2 Hu Hf).
  - intros [= <-]. by eapply step_append.
  - intros [= <-]. by eapply step_reset.
  - intros [= <-]. by eapply step_read.
  - destruct (maxBufferSize <? b_Cap b)%Z eqn:Hc; intros [= <-]; [eapply step_discard|eapply step_put]; try done; simpl; by rewrite Hc.
Qed.

Fixpoint run_moves (l : list nat) (s : heap) : option heap :=
  match l with [] => Some s | i :: l => s' ← move i s; run_moves l s' end.

Lemma run_moves_steps l s s' : run_moves l s = Some s' → rtc step s s'.
Proof.
  revert s. induction l as [|i l IH]; intros s; simpl; [by intros [= ->]|].
  destruct (move i s) as [s1|] eqn:Hm; [|done]. intros H. eapply rtc_l; [by eapply move_step|]. by apply IH.
Qed.
End Schedule.

(** ** Witness: a body that fails its check, then another in the same buffer *)
Definition wrong_size : VariantInfo := mkVariantInfo (B "default") ∅ 200 ∅ [] 0 99 [] (B "none").
Definition two_jobs : list job := [Loads wrong_size (B "secret") []; Saves ∅ (B "hello") (B "junk")].
Definition two_scripts : list (list cmd) := script_of Demo.plain_titip <$> two_jobs.
Definition in_turn : heap := default (begin []) (run_moves [0; 0; 0; 1; 1; 1; 1] (begin two_scripts)).

Lemma pooled_bodies_witness :
  (u_holds <$> users in_turn) = [None; None] ∧ dom (memory in_turn) = {[0]} ∧
  (mkUser [] None [B "hello"]).(u_seen) = result_of Demo.plain_titip (Saves ∅ (B "hello") (B "junk")).
Proof.
  split; [vm_compute; reflexivity|]. split; [apply set_eq; vm_compute; set_solver|].
  refine (proj1 (proj1 (proj2 (pooled_bodies Demo.plain_titip two_jobs in_turn 1 (Saves ∅ (B "hello") (B "junk"))
    (mkUser [] None [B "hello"]) _ eq_refl _)) eq_refl)).
  - apply (run_moves_steps [0; 0; 0; 1; 1; 1; 1]). vm_compute. reflexivity.
  - vm_compute. reflexivity.
Defined.
