(* ===== verification/ServerTiming.v ===== *)
(** * The [Server-Timing] header ([src/server_timing.go])

    Whether the header is written is decided in [Config] ([timing_enabled]); here the
    measurements of a request, the number formats and the text of the header.
    [strconv.AppendFloat(x, 'f', prec, 64)] prints the exact value of a [float64]
    rounded half to even, [float64(d) / c] is rounded twice. *)

From S2P Require Import Prelude GoStrings GoHttp Env Headers Scanner Compress Config.

(** ** Numbers *)

(** The rational of a [float64] given as mantissa and exponent. *)
Definition f64_ratio (f : Z * Z) : Z * Z :=
  if (0 <=? f.2)%Z then ((f.1 * 2 ^ f.2)%Z, 1%Z) else (f.1, (2 ^ (- f.2))%Z).

(** [float64(a) / float64(b)] for non-negative [a] and positive [b]. *)
Definition f64_div (a b : Z) : Z * Z :=
  let '(n, d) := f64_ratio (f64_round a 1) in
  let '(n', d') := f64_ratio (f64_round b 1) in
  f64_round (n * d') (d * n').

Fixpoint pad_left (n : nat) (s : str) : str :=
  match n with
  | O => s
  | S n' => if (length s <? n)%nat then "0"%char :: pad_left n' s else s
  end.

(** [strconv.AppendFloat(nil, f, 'f', prec, 64)]. *)
Definition AppendFloat (f : Z * Z) (prec : nat) : str :=
  let '(n, d) := f64_ratio f in
  let scale := (10 ^ Z.of_nat prec)%Z in
  let q := rnd_half_even (n * scale) d in
  itoa (q / scale) ++ B "." ++ pad_left prec (itoa (q mod scale)).

Definition appendByteSize (buf : str) (size : Z) : str :=
  if (size <? 1024)%Z then buf ++ itoa size ++ B "B"
  else if (size <? 1024 * 1024)%Z then buf ++ AppendFloat (f64_div size 1024) 1 ++ B "KB"
  else buf ++ AppendFloat (f64_div size (1024 * 1024)) 2 ++ B "MB".

Definition appendTimingMetric (buf name : str) (d : Z) : str :=
  if (d <=? 0)%Z then buf else
  let buf := if is_nil buf then buf else buf ++ B ", " in
  buf ++ name ++ B ";dur=" ++ AppendFloat (f64_div d 1000000) 2.

(** ** The recorder of one request *)
Record serverTimingRecorder := mkTimingRecorder {
  tr_enabled : bool;
  startNano : Z;
  metaDuration : Z;
  bodyDuration : Z;
  originDuration : Z;
  storeDuration : Z;
  storeCodec : str;
  storeRawSize : Z;
  storeCompSize : Z;
  esiDuration : Z;
  esiFragments : Z;
}.

Definition quote : str := [dquote].

(** The saving in percent, with its sign: [-72%], [+5%]. *)
Definition saved_percent (raw comp : Z) : str :=
  let savedPct := (100 - Z.quot (wrap64 (comp * 100)) raw)%Z in
  (if (savedPct <? 0)%Z then B "+" ++ itoa (- savedPct) else B "-" ++ itoa savedPct) ++ B "%".

Definition store_sizes (codec : str) (raw comp : Z) : str :=
  if (0 <? raw)%Z then
    appendByteSize (B " (") raw
    ++ (if (0 <? comp)%Z && (codec <>s StorageCompressionNone)
        then B " -> " ++ appendByteSize [] comp ++ B ", " ++ saved_percent raw comp else [])
    ++ B ")"
  else [].

Definition status_metric (status : str) : str :=
  if is_nil status then [] else B "titip-status;desc=" ++ quote ++ status ++ quote.

(** [emit] up to the header: the buffer after each block of the function. *)
Definition timing_buffer (rec : serverTimingRecorder) (status : str) (now : Z) : str :=
  let buf := status_metric status in
  let buf := appendTimingMetric buf (B "titip-meta") (metaDuration rec) in
  let buf :=
    if (0 <? bodyDuration rec)%Z then
      appendTimingMetric buf (B "titip-body") (bodyDuration rec)
      ++ (if negb (is_nil (storeCodec rec)) && (storeCodec rec <>s StorageCompressionNone)
          then B ";desc=" ++ quote ++ storeCodec rec ++ quote else [])
    else buf in
  let buf := appendTimingMetric buf (B "titip-origin") (originDuration rec) in
  let buf :=
    if (0 <? storeDuration rec)%Z then
      appendTimingMetric buf (B "titip-store") (storeDuration rec)
      ++ (if is_nil (storeCodec rec) then []
          else B ";desc=" ++ quote ++ storeCodec rec
               ++ store_sizes (storeCodec rec) (storeRawSize rec) (storeCompSize rec) ++ quote)
    else buf in
  let buf :=
    if (0 <? esiDuration rec)%Z then
      appendTimingMetric buf (B "titip-esi") (esiDuration rec)
      ++ (if (0 <? esiFragments rec)%Z
          then B ";desc=" ++ quote ++ itoa (esiFragments rec) ++ B " fragments" ++ quote else [])
    else buf in
  if (0 <? startNano rec)%Z then appendTimingMetric buf (B "titip") (wrap64 (UnixNano now - startNano rec))
  else buf.

(** [emit]: the headers of the response. *)
Definition emit (h : Header) (rec : option serverTimingRecorder) (status : str) (now : Z) : Header :=
  match rec with
  | None => h
  | Some rec =>
      if negb (tr_enabled rec) then h else
      let buf := timing_buffer rec status now in
      if is_nil buf then h else h_Add h (B "Server-Timing") buf
  end.

(** ** The header as a list of metrics *)

(** One metric: present when its duration is positive. *)
Definition metric (name : str) (d : Z) (desc : str) : list str :=
  if (0 <? d)%Z then [name ++ B ";dur=" ++ AppendFloat (f64_div d 1000000) 2 ++ desc] else [].

Definition quoted_desc (s : str) : str := B ";desc=" ++ quote ++ s ++ quote.

Definition timing_metrics (rec : serverTimingRecorder) (status : str) (now : Z) : list str :=
  let codec := storeCodec rec in
  (if is_nil status then [] else [B "titip-status" ++ quoted_desc status])
  ++ metric (B "titip-meta") (metaDuration rec) []
  ++ metric (B "titip-body") (bodyDuration rec)
       (if is_nil codec || (codec =s StorageCompressionNone) then [] else quoted_desc codec)
  ++ metric (B "titip-origin") (originDuration rec) []
  ++ metric (B "titip-store") (storeDuration rec)
       (if is_nil codec then [] else quoted_desc (codec ++ store_sizes codec (storeRawSize rec) (storeCompSize rec)))
  ++ metric (B "titip-esi") (esiDuration rec)
       (if (0 <? esiFragments rec)%Z then quoted_desc (itoa (esiFragments rec) ++ B " fragments") else [])
  ++ (if (0 <? startNano rec)%Z then metric (B "titip") (wrap64 (UnixNano now - startNano rec)) [] else []).

Lemma join_snoc l x :
  Forall (λ s, s ≠ []) l →
  join (B ", ") (l ++ [x]) = (if is_nil (join (B ", ") l) then join (B ", ") l else join (B ", ") l ++ B ", ") ++ x.
Proof.
  intros Hl. induction Hl as [| s l Hs Hl IH]; [done |].
  destruct l as [| s' l].
  - cbn. destruct s; [done |]. cbn. by rewrite <- !app_assoc.
  - change (join (B ", ") ((s :: s' :: l) ++ [x])) with (s ++ B ", " ++ join (B ", ") ((s' :: l) ++ [x])).
    change (join (B ", ") (s :: s' :: l)) with (s ++ B ", " ++ join (B ", ") (s' :: l)).
    rewrite IH. destruct s as [| c s]; [done |]. inversion Hl; subst.
    assert (is_nil (join (B ", ") (s' :: l)) = false) as ->
      by (destruct s' as [| c' s'], l; done).
    change (is_nil ((c :: s) ++ B ", " ++ join (B ", ") (s' :: l))) with false. cbv iota.
    by rewrite <- !app_assoc.
Qed.

(** The words of a header so far, none empty, and the buffer that spells them. *)
Definition spells (buf : str) (l : list str) : Prop := buf = join (B ", ") l ∧ Forall (λ s, s ≠ []) l.

Lemma spells_metric buf l name d desc :
  name ≠ [] → spells buf l →
  spells (if (0 <? d)%Z then appendTimingMetric buf name d ++ desc else buf) (l ++ metric name d desc).
Proof.
  intros Hn [-> Hl]. unfold metric, appendTimingMetric. destruct (0 <? d)%Z eqn:E.
  - assert ((d <=? 0)%Z = false) as -> by (apply Z.ltb_lt in E; apply Z.leb_gt; lia). split.
    + rewrite join_snoc by done. by rewrite <- !app_assoc.
    + apply Forall_app_2; [done |]. constructor; [| done]. by destruct name.
  - by rewrite app_nil_r.
Qed.

Lemma append_metric_plain buf name d :
  appendTimingMetric buf name d = if (0 <? d)%Z then appendTimingMetric buf name d ++ [] else buf.
Proof.
  rewrite app_nil_r. unfold appendTimingMetric. rewrite Z.ltb_antisym. by destruct (d <=? 0)%Z.
Qed.

Lemma spells_eq b b' l l' : b = b' → l = l' → spells b' l' → spells b l.
Proof. by intros -> ->. Qed.

Lemma body_desc codec :
  (if negb (is_nil codec) && (codec <>s StorageCompressionNone) then B ";desc=" ++ quote ++ codec ++ quote else [])
  = (if is_nil codec || (codec =s StorageCompressionNone) then [] else quoted_desc codec).
Proof. by destruct (is_nil codec), (codec =s StorageCompressionNone). Qed.

Lemma store_desc codec sizes :
  (if is_nil codec then [] else B ";desc=" ++ quote ++ codec ++ sizes ++ quote)
  = (if is_nil codec then [] else quoted_desc (codec ++ sizes)).
Proof. unfold quoted_desc. by rewrite <- app_assoc. Qed.

Lemma esi_desc n :
  (if (0 <? n)%Z then B ";desc=" ++ quote ++ itoa n ++ B " fragments" ++ quote else [])
  = (if (0 <? n)%Z then quoted_desc (itoa n ++ B " fragments") else []).
Proof. unfold quoted_desc. by rewrite <- app_assoc. Qed.

Lemma timing_buffer_spells rec status now :
  spells (timing_buffer rec status now) (timing_metrics rec status now).
Proof.
  unfold timing_buffer, timing_metrics.
  assert (H : spells (status_metric status)
    (if is_nil status then [] else [B "titip-status" ++ quoted_desc status])).
  { unfold status_metric. destruct (is_nil status); (split; [done |]); repeat constructor. discriminate. }
  apply (spells_metric _ _ (B "titip-meta") (metaDuration rec) []) in H; [| done].
  rewrite <- append_metric_plain in H.
  apply (spells_metric _ _ (B "titip-body") (bodyDuration rec)
    (if is_nil (storeCodec rec) || (storeCodec rec =s StorageCompressionNone) then []
     else quoted_desc (storeCodec rec))) in H; [| done].
  apply (spells_metric _ _ (B "titip-origin") (originDuration rec) []) in H; [| done].
  rewrite <- append_metric_plain in H.
  apply (spells_metric _ _ (B "titip-store") (storeDuration rec)
    (if is_nil (storeCodec rec) then [] else quoted_desc (storeCodec rec
       ++ store_sizes (storeCodec rec) (storeRawSize rec) (storeCompSize rec)))) in H; [| done].
  apply (spells_metric _ _ (B "titip-esi") (esiDuration rec)
    (if (0 <? esiFragments rec)%Z then quoted_desc (itoa (esiFragments rec) ++ B " fragments") else [])) in H;
    [| done].
  destruct (0 <? startNano rec)%Z.
  - apply (spells_metric _ _ (B "titip") (wrap64 (UnixNano now - startNano rec)) []) in H; [| done].
    rewrite <- append_metric_plain in H. eapply spells_eq; [| | exact H]; [| by rewrite <- !app_assoc].
    by rewrite body_desc, store_desc, esi_desc.
  - eapply spells_eq; [| | exact H]; [by rewrite body_desc, store_desc, esi_desc | by rewrite <- !app_assoc, app_nil_r].
Qed.

(** The text [emit] builds up in a buffer is the comma-separated list of the metrics
    of the request, in a fixed order, each exactly when its duration is positive (the
    status when there is one): no metric is glued to another, no separator is left over,
    and nothing is added for a request without a recorder, for a disabled one, or
    without metrics. *)
Theorem server_timing_is_a_list h rec status now :
  emit h rec status now =
  match rec with
  | Some rec =>
      if tr_enabled rec && negb (is_nil (timing_metrics rec status now))
      then h_Add h (B "Server-Timing") (join (B ", ") (timing_metrics rec status now)) else h
  | None => h
  end.
Proof.
  destruct rec as [rec |]; [| done]. cbn. destruct (tr_enabled rec); [| done]. cbn.
  destruct (timing_buffer_spells rec status now) as [-> Hne].
  destruct Hne as [| s l Hs]; [done |]. cbn. destruct s as [| c s], l; done.
Qed.

Example timing_text :
  timing_buffer (mkTimingRecorder true 1 1500000 0 12345678 250000 (B "lz4") 2048 512 0 0)
    (B "MISS") 20000001
  = B "titip-status;desc=" ++ quote ++ B "MISS" ++ quote
    ++ B ", titip-meta;dur=1.50, titip-origin;dur=12.35, titip-store;dur=0.25;desc=" ++ quote
    ++ B "lz4 (2.0KB -> 512B, -75%)" ++ quote ++ B ", titip;dur=20.00".
Proof. vm_compute. reflexivity. Qed.

(** The rounding of the size units: one byte less than a megabyte is printed as 1024 kilobytes. *)
Example size_texts :
  (appendByteSize [] 1023, appendByteSize [] 1024, appendByteSize [] (1024 * 1024 - 1),
   appendByteSize [] (1024 * 1024))
  = (B "1023B", B "1.0KB", B "1024.0KB", B "1.00MB").
Proof. vm_compute. reflexivity. Qed.
