(* ===== verification/CaddyConfig.v ===== *)
(** * The configuration of the Caddy modules

    The structures that a Caddyfile or Caddy's JSON fills in: [CacheKey] (here
    [KeyConfig], since [CacheKey] is the middleware's), [ESIConfig], [ServerTimingConfig] and
    [Handler] of [src/adapter/caddy/caddy.go], [App] of
    [src/adapter/caddy/app.go] and [RedisStorage] of [src/storage/redis/caddy/redis.go],
    less the fields that provisioning fills in.  A Go pointer that may be [nil] is an [option]; a slice, map
    or string that is absent is empty. *)

From S2P Require Import Prelude GoStrings.

(** ** Structures *)
Record KeyConfig := mkKeyConfig {
  kc_IncludeProtocol : option bool;
  kc_ExcludeHost : option bool;
  kc_ExcludeQuery : option bool;
  kc_PreserveQueryOrder : option bool;
  kc_IncludedQueryParams : list str;
  kc_ExcludedQueryParams : list str;
  kc_ExcludeMarketingQueryParams : option bool;
  kc_IncludedHeaderNames : list str;
  kc_IncludedCookieNames : list str;
  kc_CaseInsensitivePath : option bool;
  kc_IncludedQueryParamValues : gmap str (list str);
}.

Record ESIConfig := mkESIConfig {
  ec_Enabled : option bool;
  ec_RequireSurrogateControl : option bool;
  ec_MaxDepth : option Z;
  ec_MaxTimeout : str;
  ec_MaxConcurrentRequests : option Z;
  ec_BlockPrivateIPs : option bool;
  ec_AllowedHosts : list str;
  ec_AllowPrivateIPsForAllowedHosts : option bool;
  ec_MaxResponseSize : str;
  ec_ForwardFragmentCookies : option bool;
  ec_PreserveETag : option bool;
  ec_ErrorMarker : str;
}.

Record ServerTimingConfig := mkServerTiming {
  st_Enabled : option bool;
  st_CookieName : str;
  st_CookieValue : str;
}.

(** [StorageRaw] is the JSON text of the storage module. *)
Record Handler := mkHandler {
  hd_StorageRaw : str;
  hd_CacheStatus : str;
  hd_RespectClientCacheControl : option bool;
  hd_AutoInvalidateMutatingMethods : option bool;
  hd_ConvertHeadToGet : option bool;
  hd_BackgroundFetchTimeout : str;
  hd_StorageTimeout : str;
  hd_TagHeader : str;
  hd_CacheKey : option KeyConfig;
  hd_ESI : option ESIConfig;
  hd_UseRewrittenURL : option bool;
  hd_ServerTiming : option ServerTimingConfig;
  hd_StorageCompression : str;
}.

Record App := mkApp {
  app_StorageRaw : str;
  app_CacheStatus : str;
  app_RespectClientCacheControl : option bool;
  app_AutoInvalidateMutatingMethods : option bool;
  app_ConvertHeadToGet : option bool;
  app_BackgroundFetchTimeout : str;
  app_StorageTimeout : str;
  app_CacheKey : option KeyConfig;
  app_ESI : option ESIConfig;
  app_UseRewrittenURL : option bool;
  app_ServerTiming : option ServerTimingConfig;
  app_StorageCompression : str;
}.

Record RedisStorage := mkRedisStorage {
  rs_URL : str;
  rs_Address : list str;
  rs_KeyPrefix : str;
  rs_Username : str;
  rs_Password : str;
  rs_DB : Z;
  rs_PipelineMultiplex : Z;
  rs_dbSet : bool;
}.

(** ** Zero values *)
Definition emptyKey : KeyConfig := mkKeyConfig None None None None [] [] None [] [] None ∅.
Definition emptyESI : ESIConfig := mkESIConfig None None None [] None None [] None [] None None [].
Definition emptyHandler : Handler := mkHandler [] [] None None None [] [] [] None None None None [].
Definition emptyApp : App := mkApp [] [] None None None [] [] None None None None [].
Definition emptyRedis : RedisStorage := mkRedisStorage [] [] [] [] [] 0%Z 0%Z false.

(** ** Assignments to one field *)
Definition kc_set_IncludeProtocol (x : option bool) (c : KeyConfig) : KeyConfig :=
  mkKeyConfig x (kc_ExcludeHost c) (kc_ExcludeQuery c) (kc_PreserveQueryOrder c) (kc_IncludedQueryParams c)
    (kc_ExcludedQueryParams c) (kc_ExcludeMarketingQueryParams c) (kc_IncludedHeaderNames c)
    (kc_IncludedCookieNames c) (kc_CaseInsensitivePath c) (kc_IncludedQueryParamValues c).
Definition kc_set_ExcludeHost (x : option bool) (c : KeyConfig) : KeyConfig :=
  mkKeyConfig (kc_IncludeProtocol c) x (kc_ExcludeQuery c) (kc_PreserveQueryOrder c) (kc_IncludedQueryParams c)
    (kc_ExcludedQueryParams c) (kc_ExcludeMarketingQueryParams c) (kc_IncludedHeaderNames c)
    (kc_IncludedCookieNames c) (kc_CaseInsensitivePath c) (kc_IncludedQueryParamValues c).
Definition kc_set_ExcludeQuery (x : option bool) (c : KeyConfig) : KeyConfig :=
  mkKeyConfig (kc_IncludeProtocol c) (kc_ExcludeHost c) x (kc_PreserveQueryOrder c) (kc_IncludedQueryParams c)
    (kc_ExcludedQueryParams c) (kc_ExcludeMarketingQueryParams c) (kc_IncludedHeaderNames c)
    (kc_IncludedCookieNames c) (kc_CaseInsensitivePath c) (kc_IncludedQueryParamValues c).
Definition kc_set_PreserveQueryOrder (x : option bool) (c : KeyConfig) : KeyConfig :=
  mkKeyConfig (kc_IncludeProtocol c) (kc_ExcludeHost c) (kc_ExcludeQuery c) x (kc_IncludedQueryParams c)
    (kc_ExcludedQueryParams c) (kc_ExcludeMarketingQueryParams c) (kc_IncludedHeaderNames c)
    (kc_IncludedCookieNames c) (kc_CaseInsensitivePath c) (kc_IncludedQueryParamValues c).
Definition kc_set_IncludedQueryParams (x : list str) (c : KeyConfig) : KeyConfig :=
  mkKeyConfig (kc_IncludeProtocol c) (kc_ExcludeHost c) (kc_ExcludeQuery c) (kc_PreserveQueryOrder c) x
    (kc_ExcludedQueryParams c) (kc_ExcludeMarketingQueryParams c) (kc_IncludedHeaderNames c)
    (kc_IncludedCookieNames c) (kc_CaseInsensitivePath c) (kc_IncludedQueryParamValues c).
Definition kc_set_ExcludedQueryParams (x : list str) (c : KeyConfig) : KeyConfig :=
  mkKeyConfig (kc_IncludeProtocol c) (kc_ExcludeHost c) (kc_ExcludeQuery c) (kc_PreserveQueryOrder c)
    (kc_IncludedQueryParams c) x (kc_ExcludeMarketingQueryParams c) (kc_IncludedHeaderNames c)
    (kc_IncludedCookieNames c) (kc_CaseInsensitivePath c) (kc_IncludedQueryParamValues c).
Definition kc_set_ExcludeMarketingQueryParams (x : option bool) (c : KeyConfig) : KeyConfig :=
  mkKeyConfig (kc_IncludeProtocol c) (kc_ExcludeHost c) (kc_ExcludeQuery c) (kc_PreserveQueryOrder c)
    (kc_IncludedQueryParams c) (kc_ExcludedQueryParams c) x (kc_IncludedHeaderNames c)
    (kc_IncludedCookieNames c) (kc_CaseInsensitivePath c) (kc_IncludedQueryParamValues c).
Definition kc_set_IncludedHeaderNames (x : list str) (c : KeyConfig) : KeyConfig :=
  mkKeyConfig (kc_IncludeProtocol c) (kc_ExcludeHost c) (kc_ExcludeQuery c) (kc_PreserveQueryOrder c)
    (kc_IncludedQueryParams c) (kc_ExcludedQueryParams c) (kc_ExcludeMarketingQueryParams c) x
    (kc_IncludedCookieNames c) (kc_CaseInsensitivePath c) (kc_IncludedQueryParamValues c).
Definition kc_set_IncludedCookieNames (x : list str) (c : KeyConfig) : KeyConfig :=
  mkKeyConfig (kc_IncludeProtocol c) (kc_ExcludeHost c) (kc_ExcludeQuery c) (kc_PreserveQueryOrder c)
    (kc_IncludedQueryParams c) (kc_ExcludedQueryParams c) (kc_ExcludeMarketingQueryParams c)
    (kc_IncludedHeaderNames c) x (kc_CaseInsensitivePath c) (kc_IncludedQueryParamValues c).
Definition kc_set_CaseInsensitivePath (x : option bool) (c : KeyConfig) : KeyConfig :=
  mkKeyConfig (kc_IncludeProtocol c) (kc_ExcludeHost c) (kc_ExcludeQuery c) (kc_PreserveQueryOrder c)
    (kc_IncludedQueryParams c) (kc_ExcludedQueryParams c) (kc_ExcludeMarketingQueryParams c)
    (kc_IncludedHeaderNames c) (kc_IncludedCookieNames c) x (kc_IncludedQueryParamValues c).
Definition kc_set_IncludedQueryParamValues (x : gmap str (list str)) (c : KeyConfig) : KeyConfig :=
  mkKeyConfig (kc_IncludeProtocol c) (kc_ExcludeHost c) (kc_ExcludeQuery c) (kc_PreserveQueryOrder c)
    (kc_IncludedQueryParams c) (kc_ExcludedQueryParams c) (kc_ExcludeMarketingQueryParams c)
    (kc_IncludedHeaderNames c) (kc_IncludedCookieNames c) (kc_CaseInsensitivePath c) x.

Definition ec_set_Enabled (x : option bool) (c : ESIConfig) : ESIConfig :=
  mkESIConfig x (ec_RequireSurrogateControl c) (ec_MaxDepth c) (ec_MaxTimeout c) (ec_MaxConcurrentRequests c)
    (ec_BlockPrivateIPs c) (ec_AllowedHosts c) (ec_AllowPrivateIPsForAllowedHosts c) (ec_MaxResponseSize c)
    (ec_ForwardFragmentCookies c) (ec_PreserveETag c) (ec_ErrorMarker c).
Definition ec_set_RequireSurrogateControl (x : option bool) (c : ESIConfig) : ESIConfig :=
  mkESIConfig (ec_Enabled c) x (ec_MaxDepth c) (ec_MaxTimeout c) (ec_MaxConcurrentRequests c)
    (ec_BlockPrivateIPs c) (ec_AllowedHosts c) (ec_AllowPrivateIPsForAllowedHosts c) (ec_MaxResponseSize c)
    (ec_ForwardFragmentCookies c) (ec_PreserveETag c) (ec_ErrorMarker c).
Definition ec_set_MaxDepth (x : option Z) (c : ESIConfig) : ESIConfig :=
  mkESIConfig (ec_Enabled c) (ec_RequireSurrogateControl c) x (ec_MaxTimeout c) (ec_MaxConcurrentRequests c)
    (ec_BlockPrivateIPs c) (ec_AllowedHosts c) (ec_AllowPrivateIPsForAllowedHosts c) (ec_MaxResponseSize c)
    (ec_ForwardFragmentCookies c) (ec_PreserveETag c) (ec_ErrorMarker c).
Definition ec_set_MaxTimeout (x : str) (c : ESIConfig) : ESIConfig :=
  mkESIConfig (ec_Enabled c) (ec_RequireSurrogateControl c) (ec_MaxDepth c) x (ec_MaxConcurrentRequests c)
    (ec_BlockPrivateIPs c) (ec_AllowedHosts c) (ec_AllowPrivateIPsForAllowedHosts c) (ec_MaxResponseSize c)
    (ec_ForwardFragmentCookies c) (ec_PreserveETag c) (ec_ErrorMarker c).
Definition ec_set_MaxConcurrentRequests (x : option Z) (c : ESIConfig) : ESIConfig :=
  mkESIConfig (ec_Enabled c) (ec_RequireSurrogateControl c) (ec_MaxDepth c) (ec_MaxTimeout c) x
    (ec_BlockPrivateIPs c) (ec_AllowedHosts c) (ec_AllowPrivateIPsForAllowedHosts c) (ec_MaxResponseSize c)
    (ec_ForwardFragmentCookies c) (ec_PreserveETag c) (ec_ErrorMarker c).
Definition ec_set_BlockPrivateIPs (x : option bool) (c : ESIConfig) : ESIConfig :=
  mkESIConfig (ec_Enabled c) (ec_RequireSurrogateControl c) (ec_MaxDepth c) (ec_MaxTimeout c)
    (ec_MaxConcurrentRequests c) x (ec_AllowedHosts c) (ec_AllowPrivateIPsForAllowedHosts c)
    (ec_MaxResponseSize c) (ec_ForwardFragmentCookies c) (ec_PreserveETag c) (ec_ErrorMarker c).
Definition ec_set_AllowedHosts (x : list str) (c : ESIConfig) : ESIConfig :=
  mkESIConfig (ec_Enabled c) (ec_RequireSurrogateControl c) (ec_MaxDepth c) (ec_MaxTimeout c)
    (ec_MaxConcurrentRequests c) (ec_BlockPrivateIPs c) x (ec_AllowPrivateIPsForAllowedHosts c)
    (ec_MaxResponseSize c) (ec_ForwardFragmentCookies c) (ec_PreserveETag c) (ec_ErrorMarker c).
Definition ec_set_AllowPrivateIPsForAllowedHosts (x : option bool) (c : ESIConfig) : ESIConfig :=
  mkESIConfig (ec_Enabled c) (ec_RequireSurrogateControl c) (ec_MaxDepth c) (ec_MaxTimeout c)
    (ec_MaxConcurrentRequests c) (ec_BlockPrivateIPs c) (ec_AllowedHosts c) x (ec_MaxResponseSize c)
    (ec_ForwardFragmentCookies c) (ec_PreserveETag c) (ec_ErrorMarker c).
Definition ec_set_MaxResponseSize (x : str) (c : ESIConfig) : ESIConfig :=
  mkESIConfig (ec_Enabled c) (ec_RequireSurrogateControl c) (ec_MaxDepth c) (ec_MaxTimeout c)
    (ec_MaxConcurrentRequests c) (ec_BlockPrivateIPs c) (ec_AllowedHosts c)
    (ec_AllowPrivateIPsForAllowedHosts c) x (ec_ForwardFragmentCookies c) (ec_PreserveETag c) (ec_ErrorMarker c).
Definition ec_set_ForwardFragmentCookies (x : option bool) (c : ESIConfig) : ESIConfig :=
  mkESIConfig (ec_Enabled c) (ec_RequireSurrogateControl c) (ec_MaxDepth c) (ec_MaxTimeout c)
    (ec_MaxConcurrentRequests c) (ec_BlockPrivateIPs c) (ec_AllowedHosts c)
    (ec_AllowPrivateIPsForAllowedHosts c) (ec_MaxResponseSize c) x (ec_PreserveETag c) (ec_ErrorMarker c).
Definition ec_set_PreserveETag (x : option bool) (c : ESIConfig) : ESIConfig :=
  mkESIConfig (ec_Enabled c) (ec_RequireSurrogateControl c) (ec_MaxDepth c) (ec_MaxTimeout c)
    (ec_MaxConcurrentRequests c) (ec_BlockPrivateIPs c) (ec_AllowedHosts c)
    (ec_AllowPrivateIPsForAllowedHosts c) (ec_MaxResponseSize c) (ec_ForwardFragmentCookies c) x
    (ec_ErrorMarker c).
Definition ec_set_ErrorMarker (x : str) (c : ESIConfig) : ESIConfig :=
  mkESIConfig (ec_Enabled c) (ec_RequireSurrogateControl c) (ec_MaxDepth c) (ec_MaxTimeout c)
    (ec_MaxConcurrentRequests c) (ec_BlockPrivateIPs c) (ec_AllowedHosts c)
    (ec_AllowPrivateIPsForAllowedHosts c) (ec_MaxResponseSize c) (ec_ForwardFragmentCookies c)
    (ec_PreserveETag c) x.

Definition hd_set_StorageRaw (x : str) (c : Handler) : Handler :=
  mkHandler x (hd_CacheStatus c) (hd_RespectClientCacheControl c) (hd_AutoInvalidateMutatingMethods c)
    (hd_ConvertHeadToGet c) (hd_BackgroundFetchTimeout c) (hd_StorageTimeout c) (hd_TagHeader c) (hd_CacheKey c)
    (hd_ESI c) (hd_UseRewrittenURL c) (hd_ServerTiming c) (hd_StorageCompression c).
Definition hd_set_CacheStatus (x : str) (c : Handler) : Handler :=
  mkHandler (hd_StorageRaw c) x (hd_RespectClientCacheControl c) (hd_AutoInvalidateMutatingMethods c)
    (hd_ConvertHeadToGet c) (hd_BackgroundFetchTimeout c) (hd_StorageTimeout c) (hd_TagHeader c) (hd_CacheKey c)
    (hd_ESI c) (hd_UseRewrittenURL c) (hd_ServerTiming c) (hd_StorageCompression c).
Definition hd_set_RespectClientCacheControl (x : option bool) (c : Handler) : Handler :=
  mkHandler (hd_StorageRaw c) (hd_CacheStatus c) x (hd_AutoInvalidateMutatingMethods c) (hd_ConvertHeadToGet c)
    (hd_BackgroundFetchTimeout c) (hd_StorageTimeout c) (hd_TagHeader c) (hd_CacheKey c) (hd_ESI c)
    (hd_UseRewrittenURL c) (hd_ServerTiming c) (hd_StorageCompression c).
Definition hd_set_AutoInvalidateMutatingMethods (x : option bool) (c : Handler) : Handler :=
  mkHandler (hd_StorageRaw c) (hd_CacheStatus c) (hd_RespectClientCacheControl c) x (hd_ConvertHeadToGet c)
    (hd_BackgroundFetchTimeout c) (hd_StorageTimeout c) (hd_TagHeader c) (hd_CacheKey c) (hd_ESI c)
    (hd_UseRewrittenURL c) (hd_ServerTiming c) (hd_StorageCompression c).
Definition hd_set_ConvertHeadToGet (x : option bool) (c : Handler) : Handler :=
  mkHandler (hd_StorageRaw c) (hd_CacheStatus c) (hd_RespectClientCacheControl c)
    (hd_AutoInvalidateMutatingMethods c) x (hd_BackgroundFetchTimeout c) (hd_StorageTimeout c) (hd_TagHeader c)
    (hd_CacheKey c) (hd_ESI c) (hd_UseRewrittenURL c) (hd_ServerTiming c) (hd_StorageCompression c).
Definition hd_set_BackgroundFetchTimeout (x : str) (c : Handler) : Handler :=
  mkHandler (hd_StorageRaw c) (hd_CacheStatus c) (hd_RespectClientCacheControl c)
    (hd_AutoInvalidateMutatingMethods c) (hd_ConvertHeadToGet c) x (hd_StorageTimeout c) (hd_TagHeader c)
    (hd_CacheKey c) (hd_ESI c) (hd_UseRewrittenURL c) (hd_ServerTiming c) (hd_StorageCompression c).
Definition hd_set_StorageTimeout (x : str) (c : Handler) : Handler :=
  mkHandler (hd_StorageRaw c) (hd_CacheStatus c) (hd_RespectClientCacheControl c)
    (hd_AutoInvalidateMutatingMethods c) (hd_ConvertHeadToGet c) (hd_BackgroundFetchTimeout c) x
    (hd_TagHeader c) (hd_CacheKey c) (hd_ESI c) (hd_UseRewrittenURL c) (hd_ServerTiming c)
    (hd_StorageCompression c).
Definition hd_set_TagHeader (x : str) (c : Handler) : Handler :=
  mkHandler (hd_StorageRaw c) (hd_CacheStatus c) (hd_RespectClientCacheControl c)
    (hd_AutoInvalidateMutatingMethods c) (hd_ConvertHeadToGet c) (hd_BackgroundFetchTimeout c)
    (hd_StorageTimeout c) x (hd_CacheKey c) (hd_ESI c) (hd_UseRewrittenURL c) (hd_ServerTiming c)
    (hd_StorageCompression c).
Definition hd_set_CacheKey (x : option KeyConfig) (c : Handler) : Handler :=
  mkHandler (hd_StorageRaw c) (hd_CacheStatus c) (hd_RespectClientCacheControl c)
    (hd_AutoInvalidateMutatingMethods c) (hd_ConvertHeadToGet c) (hd_BackgroundFetchTimeout c)
    (hd_StorageTimeout c) (hd_TagHeader c) x (hd_ESI c) (hd_UseRewrittenURL c) (hd_ServerTiming c)
    (hd_StorageCompression c).
Definition hd_set_ESI (x : option ESIConfig) (c : Handler) : Handler :=
  mkHandler (hd_StorageRaw c) (hd_CacheStatus c) (hd_RespectClientCacheControl c)
    (hd_AutoInvalidateMutatingMethods c) (hd_ConvertHeadToGet c) (hd_BackgroundFetchTimeout c)
    (hd_StorageTimeout c) (hd_TagHeader c) (hd_CacheKey c) x (hd_UseRewrittenURL c) (hd_ServerTiming c)
    (hd_StorageCompression c).
Definition hd_set_UseRewrittenURL (x : option bool) (c : Handler) : Handler :=
  mkHandler (hd_StorageRaw c) (hd_CacheStatus c) (hd_RespectClientCacheControl c)
    (hd_AutoInvalidateMutatingMethods c) (hd_ConvertHeadToGet c) (hd_BackgroundFetchTimeout c)
    (hd_StorageTimeout c) (hd_TagHeader c) (hd_CacheKey c) (hd_ESI c) x (hd_ServerTiming c)
    (hd_StorageCompression c).
Definition hd_set_ServerTiming (x : option ServerTimingConfig) (c : Handler) : Handler :=
  mkHandler (hd_StorageRaw c) (hd_CacheStatus c) (hd_RespectClientCacheControl c)
    (hd_AutoInvalidateMutatingMethods c) (hd_ConvertHeadToGet c) (hd_BackgroundFetchTimeout c)
    (hd_StorageTimeout c) (hd_TagHeader c) (hd_CacheKey c) (hd_ESI c) (hd_UseRewrittenURL c) x
    (hd_StorageCompression c).
Definition hd_set_StorageCompression (x : str) (c : Handler) : Handler :=
  mkHandler (hd_StorageRaw c) (hd_CacheStatus c) (hd_RespectClientCacheControl c)
    (hd_AutoInvalidateMutatingMethods c) (hd_ConvertHeadToGet c) (hd_BackgroundFetchTimeout c)
    (hd_StorageTimeout c) (hd_TagHeader c) (hd_CacheKey c) (hd_ESI c) (hd_UseRewrittenURL c) (hd_ServerTiming c)
    x.

Definition app_set_StorageRaw (x : str) (c : App) : App :=
  mkApp x (app_CacheStatus c) (app_RespectClientCacheControl c) (app_AutoInvalidateMutatingMethods c)
    (app_ConvertHeadToGet c) (app_BackgroundFetchTimeout c) (app_StorageTimeout c) (app_CacheKey c) (app_ESI c)
    (app_UseRewrittenURL c) (app_ServerTiming c) (app_StorageCompression c).
Definition app_set_CacheStatus (x : str) (c : App) : App :=
  mkApp (app_StorageRaw c) x (app_RespectClientCacheControl c) (app_AutoInvalidateMutatingMethods c)
    (app_ConvertHeadToGet c) (app_BackgroundFetchTimeout c) (app_StorageTimeout c) (app_CacheKey c) (app_ESI c)
    (app_UseRewrittenURL c) (app_ServerTiming c) (app_StorageCompression c).
Definition app_set_RespectClientCacheControl (x : option bool) (c : App) : App :=
  mkApp (app_StorageRaw c) (app_CacheStatus c) x (app_AutoInvalidateMutatingMethods c) (app_ConvertHeadToGet c)
    (app_BackgroundFetchTimeout c) (app_StorageTimeout c) (app_CacheKey c) (app_ESI c) (app_UseRewrittenURL c)
    (app_ServerTiming c) (app_StorageCompression c).
Definition app_set_AutoInvalidateMutatingMethods (x : option bool) (c : App) : App :=
  mkApp (app_StorageRaw c) (app_CacheStatus c) (app_RespectClientCacheControl c) x (app_ConvertHeadToGet c)
    (app_BackgroundFetchTimeout c) (app_StorageTimeout c) (app_CacheKey c) (app_ESI c) (app_UseRewrittenURL c)
    (app_ServerTiming c) (app_StorageCompression c).
Definition app_set_ConvertHeadToGet (x : option bool) (c : App) : App :=
  mkApp (app_StorageRaw c) (app_CacheStatus c) (app_RespectClientCacheControl c)
    (app_AutoInvalidateMutatingMethods c) x (app_BackgroundFetchTimeout c) (app_StorageTimeout c)
    (app_CacheKey c) (app_ESI c) (app_UseRewrittenURL c) (app_ServerTiming c) (app_StorageCompression c).
Definition app_set_BackgroundFetchTimeout (x : str) (c : App) : App :=
  mkApp (app_StorageRaw c) (app_CacheStatus c) (app_RespectClientCacheControl c)
    (app_AutoInvalidateMutatingMethods c) (app_ConvertHeadToGet c) x (app_StorageTimeout c) (app_CacheKey c)
    (app_ESI c) (app_UseRewrittenURL c) (app_ServerTiming c) (app_StorageCompression c).
Definition app_set_StorageTimeout (x : str) (c : App) : App :=
  mkApp (app_StorageRaw c) (app_CacheStatus c) (app_RespectClientCacheControl c)
    (app_AutoInvalidateMutatingMethods c) (app_ConvertHeadToGet c) (app_BackgroundFetchTimeout c) x
    (app_CacheKey c) (app_ESI c) (app_UseRewrittenURL c) (app_ServerTiming c) (app_StorageCompression c).
Definition app_set_CacheKey (x : option KeyConfig) (c : App) : App :=
  mkApp (app_StorageRaw c) (app_CacheStatus c) (app_RespectClientCacheControl c)
    (app_AutoInvalidateMutatingMethods c) (app_ConvertHeadToGet c) (app_BackgroundFetchTimeout c)
    (app_StorageTimeout c) x (app_ESI c) (app_UseRewrittenURL c) (app_ServerTiming c) (app_StorageCompression c).
Definition app_set_ESI (x : option ESIConfig) (c : App) : App :=
  mkApp (app_StorageRaw c) (app_CacheStatus c) (app_RespectClientCacheControl c)
    (app_AutoInvalidateMutatingMethods c) (app_ConvertHeadToGet c) (app_BackgroundFetchTimeout c)
    (app_StorageTimeout c) (app_CacheKey c) x (app_UseRewrittenURL c) (app_ServerTiming c)
    (app_StorageCompression c).
Definition app_set_UseRewrittenURL (x : option bool) (c : App) : App :=
  mkApp (app_StorageRaw c) (app_CacheStatus c) (app_RespectClientCacheControl c)
    (app_AutoInvalidateMutatingMethods c) (app_ConvertHeadToGet c) (app_BackgroundFetchTimeout c)
    (app_StorageTimeout c) (app_CacheKey c) (app_ESI c) x (app_ServerTiming c) (app_StorageCompression c).
Definition app_set_ServerTiming (x : option ServerTimingConfig) (c : App) : App :=
  mkApp (app_StorageRaw c) (app_CacheStatus c) (app_RespectClientCacheControl c)
    (app_AutoInvalidateMutatingMethods c) (app_ConvertHeadToGet c) (app_BackgroundFetchTimeout c)
    (app_StorageTimeout c) (app_CacheKey c) (app_ESI c) (app_UseRewrittenURL c) x (app_StorageCompression c).
Definition app_set_StorageCompression (x : str) (c : App) : App :=
  mkApp (app_StorageRaw c) (app_CacheStatus c) (app_RespectClientCacheControl c)
    (app_AutoInvalidateMutatingMethods c) (app_ConvertHeadToGet c) (app_BackgroundFetchTimeout c)
    (app_StorageTimeout c) (app_CacheKey c) (app_ESI c) (app_UseRewrittenURL c) (app_ServerTiming c) x.

Definition rs_set_URL (x : str) (c : RedisStorage) : RedisStorage :=
  mkRedisStorage x (rs_Address c) (rs_KeyPrefix c) (rs_Username c) (rs_Password c) (rs_DB c)
    (rs_PipelineMultiplex c) (rs_dbSet c).
Definition rs_set_Address (x : list str) (c : RedisStorage) : RedisStorage :=
  mkRedisStorage (rs_URL c) x (rs_KeyPrefix c) (rs_Username c) (rs_Password c) (rs_DB c)
    (rs_PipelineMultiplex c) (rs_dbSet c).
Definition rs_set_KeyPrefix (x : str) (c : RedisStorage) : RedisStorage :=
  mkRedisStorage (rs_URL c) (rs_Address c) x (rs_Username c) (rs_Password c) (rs_DB c) (rs_PipelineMultiplex c)
    (rs_dbSet c).
Definition rs_set_Username (x : str) (c : RedisStorage) : RedisStorage :=
  mkRedisStorage (rs_URL c) (rs_Address c) (rs_KeyPrefix c) x (rs_Password c) (rs_DB c) (rs_PipelineMultiplex c)
    (rs_dbSet c).
Definition rs_set_Password (x : str) (c : RedisStorage) : RedisStorage :=
  mkRedisStorage (rs_URL c) (rs_Address c) (rs_KeyPrefix c) (rs_Username c) x (rs_DB c) (rs_PipelineMultiplex c)
    (rs_dbSet c).
Definition rs_set_DB (x : Z) (c : RedisStorage) : RedisStorage :=
  mkRedisStorage (rs_URL c) (rs_Address c) (rs_KeyPrefix c) (rs_Username c) (rs_Password c) x
    (rs_PipelineMultiplex c) (rs_dbSet c).
Definition rs_set_PipelineMultiplex (x : Z) (c : RedisStorage) : RedisStorage :=
  mkRedisStorage (rs_URL c) (rs_Address c) (rs_KeyPrefix c) (rs_Username c) (rs_Password c) (rs_DB c) x
    (rs_dbSet c).
Definition rs_set_dbSet (x : bool) (c : RedisStorage) : RedisStorage :=
  mkRedisStorage (rs_URL c) (rs_Address c) (rs_KeyPrefix c) (rs_Username c) (rs_Password c) (rs_DB c)
    (rs_PipelineMultiplex c) x.
