(* ===== verification/Caddyfile.v ===== *)
(** * Reading a Caddyfile

    [UnmarshalCaddyfile] and its helpers of [src/adapter/caddy/caddy.go],
    [parseGlobalOption] of [src/adapter/caddy/app.go] and [UnmarshalCaddyfile] of
    [src/storage/redis/caddy/redis.go].  They read from Caddy's token dispenser, which is a parameter:
    [Dispenser] has its methods, [DispenserTotal] and [DispenserDoc] what its
    documentation says of them.  A loop over the dispenser has one more unit of fuel than there are
    tokens to load, and [PFuel] marks a loop that used it up; no loop does
    ([CaddyfileFacts]). *)

From S2P Require Import Prelude GoStrings CaddyConfig.

(** ** The dispenser

    [Errf d text] is the error of [d.Err] and [d.Errf] with the formatted text, [ArgErr d] that of [d.ArgErr()].
    [tokens_left] is the number of tokens that are not loaded yet; the code never asks for it. *)
Class Dispenser (D : Type) := {
  Next : D → bool * D;
  NextArg : D → bool * D;
  NextBlock : nat → D → bool * D;
  RemainingArgs : D → list str * D;
  Val : D → str;
  ArgErr : D → str;
  Errf : D → str → str;
  tokens_left : D → nat;
}.

(** Caddy's module registry and the unmarshaling of a storage module. *)
Class Modules (D : Type) := {
  module_value : Type;
  GetModule : str → bool;
  GetModules : str → list str;
  UnmarshalModule : D → str → D * result module_value;
  JSONModuleObject : module_value → str → str → str;
}.

(** ** Numbers and booleans ([strconv]) *)
Definition ParseBool (s : str) : option bool :=
  if existsb (str_eqb s) [B "1"; B "t"; B "T"; B "TRUE"; B "true"; B "True"] then Some true
  else if existsb (str_eqb s) [B "0"; B "f"; B "F"; B "FALSE"; B "false"; B "False"] then Some false
  else None.

(** Why digits are not a number of at most [max]: the first offending byte decides. *)
Fixpoint digits_error (max acc : Z) (s : str) : str :=
  match s with
  | [] => B "value out of range"
  | c :: s' =>
      if is_digit c then
        let n := (acc * 10 + digit_val c)%Z in
        if (max <? n)%Z then B "value out of range" else digits_error max n s'
      else B "invalid syntax"
  end.

Definition unsigned_part (s : str) : str :=
  match s with
  | c :: s' => if byte_eqb c "+" || byte_eqb c "-" then s' else s
  | [] => []
  end.

(** The error of [ParseUint] on a text that is not a number of [bits] bits. *)
Definition uint_error (bits : Z) (s : str) : str :=
  if is_nil s then B "invalid syntax" else digits_error (2 ^ bits - 1) 0 s.

(** A [switch] on a string. *)
Fixpoint switch {A : Type} (v : str) (cases : list (str * A)) (dflt : A) : A :=
  match cases with
  | [] => dflt
  | (k, a) :: rest => if v =s k then a else switch v rest dflt
  end.

Notation "k ↣ a" := (B k, a) (at level 90, no associativity, only parsing).

(** ** Parsers: the dispenser is threaded, an error ends the reading *)
Inductive parsed (A : Type) :=
  | PVal (a : A)
  | PErr (msg : str)
  | PFuel.
Arguments PVal {A} a.
Arguments PErr {A} msg.
Arguments PFuel {A}.

Definition parser_of (D A : Type) : Type := D → D * parsed A.
Definition p_ret {D A} (a : A) : parser_of D A := λ d, (d, PVal a).
Definition p_bind {D A C} (m : parser_of D A) (k : A → parser_of D C) : parser_of D C := λ d,
  match m d with
  | (d', PVal a) => k a d'
  | (d', PErr e) => (d', PErr e)
  | (d', PFuel) => (d', PFuel)
  end.

Declare Scope caddyfile_scope.
Delimit Scope caddyfile_scope with caddyfile.
Notation "x <- m ;; k" := (p_bind m (λ x, k)) (at level 100, m at next level, right associativity) : caddyfile_scope.
#[local] Open Scope caddyfile_scope.

Section Parser.
Context {D : Type} {Disp : Dispenser D} (Quote : str → str).
Abbreviation parser := (parser_of D).

Definition p_errf {A} (text : str) : parser A := λ d, (d, PErr (Errf d text)).
Definition p_val : parser str := λ d, (d, PVal (Val d)).
Definition p_next : parser bool := λ d, let '(ok, d') := Next d in (d', PVal ok).
Definition p_next_arg : parser bool := λ d, let '(ok, d') := NextArg d in (d', PVal ok).
Definition p_next_block (level : nat) : parser bool := λ d, let '(ok, d') := NextBlock level d in (d', PVal ok).
Definition p_remaining : parser (list str) := λ d, let '(args, d') := RemainingArgs d in (d', PVal args).

(** [if !d.NextArg() { return d.ArgErr() }], then [d.Val()]. *)
Definition str_arg : parser str :=
  ok <- p_next_arg ;;
  if negb ok then λ d, (d, PErr (ArgErr d)) else p_val.

(** [strconv.ParseBool(d.Val())]; [text] is what the error text starts with. *)
Definition bool_val (text : str → str) : parser bool :=
  v <- p_val ;;
  match ParseBool v with
  | Some b => p_ret b
  | None => p_errf (text v ++ B "strconv.ParseBool: parsing " ++ Quote v ++ B ": invalid syntax")
  end.

(** A boolean that must be given. *)
Definition bool_arg (text : str → str) : parser bool := _ <- str_arg ;; bool_val text.

(** A boolean that is true when it is left out. *)
Definition flag_arg (text : str → str) : parser bool :=
  ok <- p_next_arg ;;
  if ok then bool_val text else p_ret true.

Definition uint_arg (bits : Z) (text : str) : parser Z :=
  v <- str_arg ;;
  match ParseUint v bits with
  | Some n => p_ret n
  | None => p_errf (text ++ B "strconv.ParseUint: parsing " ++ Quote v ++ B ": " ++ uint_error bits v)
  end.

(** [strconv.Atoi]. *)
Definition int_arg (text : str → str) : parser Z :=
  v <- str_arg ;;
  match ParseInt v with
  | Some n => p_ret n
  | None => p_errf (text v ++ B "strconv.Atoi: parsing " ++ Quote v ++ B ": " ++ uint_error 64 (unsigned_part v))
  end.

(** [for d.NextBlock(level) { step }] *)
Fixpoint block_loop {C} (fuel : nat) (level : nat) (step : C → parser C) (c : C) : parser C :=
  match fuel with
  | O => λ d, (d, PFuel)
  | S fuel =>
      ok <- p_next_block level ;;
      if ok : bool then c' <- step c ;; block_loop fuel level step c' else p_ret c
  end.

Definition for_block {C} (level : nat) (step : C → parser C) (c : C) : parser C := λ d,
  block_loop (S (tokens_left d)) level step c d.

(** [for d.Next() { body }] *)
Fixpoint next_loop {C} (fuel : nat) (body : C → parser C) (c : C) : parser C :=
  match fuel with
  | O => λ d, (d, PFuel)
  | S fuel =>
      ok <- p_next ;;
      if ok : bool then c' <- body c ;; next_loop fuel body c' else p_ret c
  end.

Definition for_next {C} (body : C → parser C) (c : C) : parser C := λ d,
  next_loop (S (tokens_left d)) body c d.
End Parser.

(** ** The directives *)
Section Directives.
Context {D : Type} {Disp : Dispenser D} {Mods : Modules D} (Quote : str → str).
Abbreviation parser := (parser_of D).

(** [CacheKey.unmarshalCaddyfile] *)
Definition cache_key_step (kc : KeyConfig) : parser KeyConfig :=
  let bool_for name := bool_arg Quote (λ _, B "invalid boolean value for " ++ name ++ B ": ") in
  let flag_for name := flag_arg Quote (λ _, B "invalid boolean value for " ++ name ++ B ": ") in
  v <- p_val ;;
  switch v
    [ "include_protocol" ↣
        (b <- bool_for (B "include_protocol") ;; p_ret (kc_set_IncludeProtocol (Some b) kc));
      "exclude_host" ↣
        (b <- bool_for (B "exclude_host") ;; p_ret (kc_set_ExcludeHost (Some b) kc));
      "exclude_query" ↣
        (b <- bool_for (B "exclude_query") ;; p_ret (kc_set_ExcludeQuery (Some b) kc));
      "preserve_query_order" ↣
        (b <- bool_for (B "preserve_query_order") ;; p_ret (kc_set_PreserveQueryOrder (Some b) kc));
      "included_query_params" ↣
        (args <- p_remaining ;; p_ret (kc_set_IncludedQueryParams (kc_IncludedQueryParams kc ++ args) kc));
      "excluded_query_params" ↣
        (args <- p_remaining ;; p_ret (kc_set_ExcludedQueryParams (kc_ExcludedQueryParams kc ++ args) kc));
      "exclude_marketing_query_params" ↣
        (b <- flag_for (B "marketing query params") ;; p_ret (kc_set_ExcludeMarketingQueryParams (Some b) kc));
      "included_header_names" ↣
        (args <- p_remaining ;; p_ret (kc_set_IncludedHeaderNames (kc_IncludedHeaderNames kc ++ args) kc));
      "included_cookie_names" ↣
        (args <- p_remaining ;; p_ret (kc_set_IncludedCookieNames (kc_IncludedCookieNames kc ++ args) kc));
      "case_insensitive_path" ↣
        (b <- flag_for (B "case_insensitive_path") ;; p_ret (kc_set_CaseInsensitivePath (Some b) kc));
      "included_query_param_values" ↣
        (param <- str_arg ;;
         vals <- p_remaining ;;
         if is_nil vals
         then p_errf (B "included_query_param_values requires at least one allowed value for parameter " ++ Quote param)
         else let m := kc_IncludedQueryParamValues kc in
              p_ret (kc_set_IncludedQueryParamValues (<[param := default [] (m !! param) ++ vals]> m) kc)) ]
    (p_errf (B "unknown key subdirective " ++ Quote v)).

Definition unmarshal_cache_key : KeyConfig → parser KeyConfig := for_block 1 cache_key_step.

(** [ESIConfig.unmarshalCaddyfile] *)
Definition esi_step (e : ESIConfig) : parser ESIConfig :=
  let flag_for name := flag_arg Quote (λ _, B "invalid boolean value for " ++ name ++ B ": ") in
  v <- p_val ;;
  switch v
    [ "enabled" ↣ (b <- flag_for (B "esi enabled") ;; p_ret (ec_set_Enabled (Some b) e));
      "require_surrogate_control" ↣
        (b <- flag_for (B "esi require_surrogate_control") ;; p_ret (ec_set_RequireSurrogateControl (Some b) e));
      "max_depth" ↣
        (n <- uint_arg Quote 32 (B "invalid integer for max_depth: ") ;; p_ret (ec_set_MaxDepth (Some n) e));
      "max_timeout" ↣ (s <- str_arg ;; p_ret (ec_set_MaxTimeout s e));
      "max_concurrent_requests" ↣
        (n <- int_arg Quote (λ _, B "invalid integer for max_concurrent_requests: ") ;;
         p_ret (ec_set_MaxConcurrentRequests (Some n) e));
      "block_private_ips" ↣
        (b <- flag_for (B "block_private_ips") ;; p_ret (ec_set_BlockPrivateIPs (Some b) e));
      "allowed_hosts" ↣ (args <- p_remaining ;; p_ret (ec_set_AllowedHosts (ec_AllowedHosts e ++ args) e));
      "allow_private_ips_for_allowed_hosts" ↣
        (b <- flag_for (B "allow_private_ips_for_allowed_hosts") ;;
         p_ret (ec_set_AllowPrivateIPsForAllowedHosts (Some b) e));
      "max_response_size" ↣ (s <- str_arg ;; p_ret (ec_set_MaxResponseSize s e));
      "forward_fragment_cookies" ↣
        (b <- flag_for (B "forward_fragment_cookies") ;; p_ret (ec_set_ForwardFragmentCookies (Some b) e));
      "preserve_etag" ↣ (b <- flag_for (B "preserve_etag") ;; p_ret (ec_set_PreserveETag (Some b) e));
      "error_marker" ↣ (s <- str_arg ;; p_ret (ec_set_ErrorMarker s e)) ]
    (p_errf (B "unknown esi subdirective " ++ Quote v)).

Definition unmarshal_esi : ESIConfig → parser ESIConfig := for_block 1 esi_step.

Definition parseServerTimingCaddyfile : parser ServerTimingConfig :=
  ok <- p_next_arg ;;
  if negb ok then p_ret (mkServerTiming (Some true) [] []) else
  arg <- p_val ;;
  if arg =s B "cookie" then
    let missing := p_errf (B "server_timing cookie requires <name> and <value>") in
    ok <- p_next_arg ;;
    if negb ok then missing else
    name <- p_val ;;
    ok <- p_next_arg ;;
    if negb ok then missing else
    value <- p_val ;;
    p_ret (mkServerTiming (Some true) name value)
  else
    enabled <- bool_val Quote (λ arg, B "invalid boolean value " ++ Quote arg ++ B " for server_timing: ") ;;
    p_ret (mkServerTiming (Some enabled) [] []).

Definition storage_namespace := B "titip.storage.".

(** [storage <name> { ... }]: the module reads its own block. *)
Definition parseStorageModule : parser str :=
  name <- str_arg ;;
  let modID := storage_namespace ++ name in
  if negb (GetModule modID) then
    let installed := map (λ id, TrimPrefix id storage_namespace) (GetModules (B "titip.storage")) in
    if is_nil installed then
      p_errf (B "storage module " ++ Quote name ++ B " is not installed (no titip storage plugins installed); compile Caddy with a storage plugin such as github.com/indragunawan/titip/storage/redis/caddy")
    else
      p_errf (B "storage module " ++ Quote name ++ B " is not installed (installed: " ++ join (B ", ") installed
              ++ B "); check for typos or compile the plugin into Caddy")
  else λ d,
    match UnmarshalModule d modID with
    | (d', Err e) => (d', PErr e)
    | (d', Ok unm) => (d', PVal (JSONModuleObject unm (B "name") name))
    end.

(** The body of the loop of [Handler.UnmarshalCaddyfile]. *)
Definition handler_step (h : Handler) : parser Handler :=
  let quoted v := B "invalid boolean value " ++ Quote v ++ B ": " in
  v <- p_val ;;
  switch v
    [ "storage" ↣ (raw <- parseStorageModule ;; p_ret (hd_set_StorageRaw raw h));
      "cache_status" ↣ (s <- str_arg ;; p_ret (hd_set_CacheStatus s h));
      "respect_client_cache_control" ↣
        (b <- bool_arg Quote quoted ;; p_ret (hd_set_RespectClientCacheControl (Some b) h));
      "auto_invalidate_mutating_methods" ↣
        (b <- bool_arg Quote quoted ;; p_ret (hd_set_AutoInvalidateMutatingMethods (Some b) h));
      "convert_head_to_get" ↣ (b <- bool_arg Quote quoted ;; p_ret (hd_set_ConvertHeadToGet (Some b) h));
      "background_fetch_timeout" ↣ (s <- str_arg ;; p_ret (hd_set_BackgroundFetchTimeout s h));
      "storage_timeout" ↣ (s <- str_arg ;; p_ret (hd_set_StorageTimeout s h));
      "tag_header" ↣ (s <- str_arg ;; p_ret (hd_set_TagHeader s h));
      "cache_key" ↣
        (kc <- unmarshal_cache_key (default emptyKey (hd_CacheKey h)) ;; p_ret (hd_set_CacheKey (Some kc) h));
      "esi" ↣ (e <- unmarshal_esi (default emptyESI (hd_ESI h)) ;; p_ret (hd_set_ESI (Some e) h));
      "use_rewritten_url" ↣ (b <- flag_arg Quote quoted ;; p_ret (hd_set_UseRewrittenURL (Some b) h));
      "server_timing" ↣ (st <- parseServerTimingCaddyfile ;; p_ret (hd_set_ServerTiming (Some st) h));
      "storage_compression" ↣ (s <- str_arg ;; p_ret (hd_set_StorageCompression s h)) ]
    (p_errf (B "unknown titip directive " ++ Quote v)).

Definition UnmarshalCaddyfile : Handler → parser Handler := for_next (for_block 0 handler_step).

Definition parseCaddyfile : parser Handler := UnmarshalCaddyfile emptyHandler.

(** The body of the loop of [parseGlobalOption]: a second [cache_key] or [esi] block replaces the
    first. *)
Definition app_step (a : App) : parser App :=
  let boolean name (_ : str) := B "invalid boolean for " ++ name ++ B ": " in
  v <- p_val ;;
  switch v
    [ "storage" ↣ (raw <- parseStorageModule ;; p_ret (app_set_StorageRaw raw a));
      "cache_status" ↣ (s <- str_arg ;; p_ret (app_set_CacheStatus s a));
      "respect_client_cache_control" ↣
        (b <- bool_arg Quote (boolean (B "respect_client_cache_control")) ;;
         p_ret (app_set_RespectClientCacheControl (Some b) a));
      "auto_invalidate_mutating_methods" ↣
        (b <- bool_arg Quote (boolean (B "auto_invalidate_mutating_methods")) ;;
         p_ret (app_set_AutoInvalidateMutatingMethods (Some b) a));
      "convert_head_to_get" ↣
        (b <- bool_arg Quote (boolean (B "convert_head_to_get")) ;; p_ret (app_set_ConvertHeadToGet (Some b) a));
      "background_fetch_timeout" ↣ (s <- str_arg ;; p_ret (app_set_BackgroundFetchTimeout s a));
      "storage_timeout" ↣ (s <- str_arg ;; p_ret (app_set_StorageTimeout s a));
      "cache_key" ↣ (kc <- unmarshal_cache_key emptyKey ;; p_ret (app_set_CacheKey (Some kc) a));
      "esi" ↣ (e <- unmarshal_esi emptyESI ;; p_ret (app_set_ESI (Some e) a));
      "use_rewritten_url" ↣
        (b <- flag_arg Quote (boolean (B "use_rewritten_url")) ;; p_ret (app_set_UseRewrittenURL (Some b) a));
      "server_timing" ↣ (st <- parseServerTimingCaddyfile ;; p_ret (app_set_ServerTiming (Some st) a));
      "storage_compression" ↣ (s <- str_arg ;; p_ret (app_set_StorageCompression s a)) ]
    (p_errf (B "unknown global titip directive: " ++ v)).

Definition parseGlobalOption : parser App := for_next (for_block 0 app_step) emptyApp.

(** [RedisStorage.UnmarshalCaddyfile] *)
Definition address_list (args : list str) : list str :=
  args ≫= λ arg, filter (λ a, a ≠ []) (TrimSpace <$> SplitSeq arg ",").

Definition redis_block_step (r : RedisStorage) : parser RedisStorage :=
  v <- p_val ;;
  switch v
    [ "url" ↣
        (s <- str_arg ;;
         if is_nil (rs_URL r) then p_ret (rs_set_URL s r) else p_errf (B "duplicate url directive"));
      "address" ↣
        (args <- p_remaining ;;
         if is_nil args then λ d, (d, PErr (ArgErr d))
         else p_ret (rs_set_Address (rs_Address r ++ address_list args) r));
      "key_prefix" ↣ (s <- str_arg ;; p_ret (rs_set_KeyPrefix s r));
      "username" ↣ (s <- str_arg ;; p_ret (rs_set_Username s r));
      "password" ↣ (s <- str_arg ;; p_ret (rs_set_Password s r));
      "db" ↣
        (n <- int_arg Quote (λ s, B "invalid db number " ++ Quote s ++ B ": ") ;;
         if (n <? 0)%Z then p_errf (B "db number must be >= 0, got " ++ itoa n)
         else p_ret (rs_set_dbSet true (rs_set_DB n r)));
      "pipeline_multiplex" ↣
        (n <- int_arg Quote (λ s, B "invalid pipeline_multiplex number " ++ Quote s ++ B ": ") ;;
         if (n <? 0)%Z then p_errf (B "pipeline_multiplex must be >= 0, got " ++ itoa n)
         else p_ret (rs_set_PipelineMultiplex n r)) ]
    (p_errf (B "unknown subdirective " ++ Quote v)).

Definition redis_UnmarshalCaddyfile : RedisStorage → parser RedisStorage := for_next (for_block 0 redis_block_step).
End Directives.
