(* ===== verification/CaddyfileFacts.v ===== *)
(** * Properties of the Caddyfile readers

    Every reader ends (no loop uses up its fuel), and reads back every configuration that can be
    written: [print_handler], [print_app] and [print_redis] write a configuration as the lines of a block (a
    storage module by its name and its own words and block),
    and the readers return it from any dispenser that is positioned before those
    lines. *)

From Stdlib Require Import DecimalString DecimalPos.
From S2P Require Import Prelude GoStrings CaddyConfig Caddyfile.
#[local] Open Scope caddyfile_scope.

Create HintDb caddyfile discriminated.

(** ** What the dispenser's documentation says *)

(** Tokens are loaded from left to right, and never put back. *)
Class DispenserTotal (D : Type) {Disp : Dispenser D} {Mods : Modules D} : Prop := {
  next_loads d : tokens_left (Next d).2 + Nat.b2n (Next d).1 ≤ tokens_left d;
  arg_loads d : tokens_left (NextArg d).2 + Nat.b2n (NextArg d).1 ≤ tokens_left d;
  block_loads level d : tokens_left (NextBlock level d).2 + Nat.b2n (NextBlock level d).1 ≤ tokens_left d;
  remaining_loads d : tokens_left (RemainingArgs d).2 ≤ tokens_left d;
  module_loads d id : tokens_left (UnmarshalModule d id).1 ≤ tokens_left d;
}.

(** A line of a Caddyfile: its first word, the other words, and the block that it opens. *)
Inductive line := Line (word : str) (args : list str) (body : option (list line)).

(** A position on a line: the words to come, the block that the line opens, and the lines after it, block by
    block from the innermost one. *)
Record cursor := mkCursor {
  cu_args : list str;
  cu_body : option (list line);
  cu_rest : list (list line);
}.

(** The methods at the positions where the documentation defines them: [NextBlock n] is for a block
    that is opened at nesting level [n], and is called at the end of a line. *)
Class DispenserDoc (D : Type) {Disp : Dispenser D} := {
  view : D → option cursor;
  doc_next_arg d a args b st : view d = Some (mkCursor (a :: args) b st) →
    ∃ d', NextArg d = (true, d') ∧ Val d' = a ∧ view d' = Some (mkCursor args b st);
  doc_no_arg d b st : view d = Some (mkCursor [] b st) →
    ∃ d', NextArg d = (false, d') ∧ view d' = Some (mkCursor [] b st);
  doc_remaining d args b st : view d = Some (mkCursor args b st) →
    ∃ d', RemainingArgs d = (args, d') ∧ view d' = Some (mkCursor [] b st);
  doc_open n d w a b ls st : length st = S n → view d = Some (mkCursor [] (Some (Line w a b :: ls)) st) →
    ∃ d', NextBlock n d = (true, d') ∧ Val d' = w ∧ view d' = Some (mkCursor a b (ls :: st));
  doc_empty n d st : length st = S n → view d = Some (mkCursor [] (Some []) st) →
    ∃ d', NextBlock n d = (false, d') ∧ view d' = Some (mkCursor [] None st);
  doc_no_block n d st : length st = S n → view d = Some (mkCursor [] None st) →
    ∃ d', NextBlock n d = (false, d') ∧ view d' = Some (mkCursor [] None st);
  doc_line n d w a b ls st : length st = S n → view d = Some (mkCursor [] None ((Line w a b :: ls) :: st)) →
    ∃ d', NextBlock n d = (true, d') ∧ Val d' = w ∧ view d' = Some (mkCursor a b (ls :: st));
  doc_close n d st : length st = S n → view d = Some (mkCursor [] None ([] :: st)) →
    ∃ d', NextBlock n d = (false, d') ∧ view d' = Some (mkCursor [] None st);
  doc_next d w a b ls : view d = Some (mkCursor [] None [Line w a b :: ls]) →
    ∃ d', Next d = (true, d') ∧ Val d' = w ∧ view d' = Some (mkCursor a b [ls]);
  doc_end d : view d = Some (mkCursor [] None [[]]) →
    ∃ d', Next d = (false, d') ∧ view d' = Some (mkCursor [] None [[]]);
}.

(** A module reads the rest of the line that names it, block included, and no more; what it makes of
    them is the module's own affair. *)
Class ModulesDoc (D : Type) {Disp : Dispenser D} {Mods : Modules D} {Doc : DispenserDoc D} := {
  module_config : str → list str → option (list line) → option module_value;
  doc_module d name args b st v : Val d = name → view d = Some (mkCursor args b st) →
    module_config (storage_namespace ++ name) args b = Some v →
    ∃ d', UnmarshalModule d (storage_namespace ++ name) = (d', Ok v) ∧ view d' = Some (mkCursor [] None st);
}.

(** ** Termination *)
Section Total.
Context {D : Type} {Disp : Dispenser D} {Mods : Modules D} {T : DispenserTotal D} (Quote : str → str).
#[local] Unset Default Proof Using.

(** A parser that loads tokens only, and ends. *)
Definition ended {A} (d : D) (r : D * parsed A) : Prop := tokens_left r.1 ≤ tokens_left d ∧ r.2 ≠ PFuel.
Definition ends {A} (m : parser_of D A) : Prop := ∀ d, ended d (m d).

Lemma ends_ret {A} (a : A) : ends (p_ret a).
Proof. done. Qed.
Lemma ends_errf {A} text : ends (p_errf (A := A) text).
Proof. done. Qed.
Lemma ends_arg_err {A} : ends (λ d, (d, PErr (A := A) (ArgErr d))).
Proof. done. Qed.
Lemma ends_val : ends p_val.
Proof. done. Qed.

Lemma ends_bind {A C} (m : parser_of D A) (k : A → parser_of D C) : ends m → (∀ a, ends (k a)) → ends (p_bind m k).
Proof.
  intros Hm Hk d. unfold p_bind. destruct (Hm d) as [Hl Hf]. unfold ended. destruct (m d) as [d' [a|e|]]; simpl in *; [|done|done].
  destruct (Hk a d') as [Hl' Hf']. split; [lia|done].
Qed.

Lemma ends_next_arg : ends p_next_arg.
Proof. intros d. unfold ended, p_next_arg. pose proof (arg_loads d). destruct (NextArg d). simpl in *. split; [lia|done]. Qed.

Lemma ends_remaining : ends p_remaining.
Proof. intros d. unfold ended, p_remaining. pose proof (remaining_loads d). destruct (RemainingArgs d). by split. Qed.

Lemma ends_if {A} (b : bool) (m n : parser_of D A) : ends m → ends n → ends (if b then m else n).
Proof. by destruct b. Qed.

Lemma ends_option {A C} (o : option C) (m : C → parser_of D A) (n : parser_of D A) :
  (∀ c, ends (m c)) → ends n → ends (match o with Some c => m c | None => n end).
Proof. by destruct o. Qed.

Lemma ends_switch {A} v (cases : list (str * parser_of D A)) dflt :
  Forall (λ c, ends c.2) cases → ends dflt → ends (switch v cases dflt).
Proof. induction 1 as [|[k m] rest Hm _ IH]; intros Hd; simpl; [exact Hd|]. destruct (v =s k); [exact Hm|exact (IH Hd)]. Qed.

Lemma block_loop_ends {C} level (step : C → parser_of D C) :
  (∀ c, ends (step c)) → ∀ fuel c d, tokens_left d < fuel →
  ended d (block_loop fuel level step c d).
Proof.
  intros Hs. induction fuel as [|fuel IH]; intros c d Hf; [lia|]. simpl. unfold p_bind at 1, p_next_block, p_ret.
  pose proof (block_loads level d) as Hb. destruct (NextBlock level d) as [[] d1]; unfold ended in *; simpl in *; [|split; [lia|done]].
  unfold p_bind. destruct (Hs c d1) as [Hl Hn]. destruct (step c d1) as [d2 [c'|e|]]; simpl in *; [|split; [lia|done]|done].
  destruct (IH c' d2 ltac:(lia)) as [Hl' Hn']. split; [lia|done].
Qed.

Lemma next_loop_ends {C} (body : C → parser_of D C) :
  (∀ c, ends (body c)) → ∀ fuel c d, tokens_left d < fuel →
  ended d (next_loop fuel body c d).
Proof.
  intros Hs. induction fuel as [|fuel IH]; intros c d Hf; [lia|]. simpl. unfold p_bind at 1, p_next, p_ret.
  pose proof (next_loads d) as Hb. destruct (Next d) as [[] d1]; unfold ended in *; simpl in *; [|split; [lia|done]].
  unfold p_bind. destruct (Hs c d1) as [Hl Hn]. destruct (body c d1) as [d2 [c'|e|]]; simpl in *; [|split; [lia|done]|done].
  destruct (IH c' d2 ltac:(lia)) as [Hl' Hn']. split; [lia|done].
Qed.

Lemma ends_for_block {C} level (step : C → parser_of D C) c : (∀ c, ends (step c)) → ends (for_block level step c).
Proof. intros Hs d. apply block_loop_ends; [done|lia]. Qed.

Lemma ends_for_next {C} (body : C → parser_of D C) c : (∀ c, ends (body c)) → ends (for_next body c).
Proof. intros Hs d. apply next_loop_ends; [done|lia]. Qed.

Hint Resolve ends_ret ends_errf ends_arg_err ends_val ends_bind ends_next_arg ends_remaining ends_if ends_option
  ends_for_block ends_for_next : caddyfile.
Hint Constructors Forall : caddyfile.

Lemma ends_str_arg : ends str_arg.
Proof. unfold str_arg. eauto with caddyfile. Qed.
Hint Resolve ends_str_arg : caddyfile.

Lemma ends_bool_val text : ends (bool_val Quote text).
Proof. unfold bool_val. auto 6 with caddyfile. Qed.
Hint Resolve ends_bool_val : caddyfile.

Lemma ends_bool_arg text : ends (bool_arg Quote text).
Proof. unfold bool_arg. auto with caddyfile. Qed.

Lemma ends_flag_arg text : ends (flag_arg Quote text).
Proof. unfold flag_arg. auto with caddyfile. Qed.

Lemma ends_uint_arg bits text : ends (uint_arg Quote bits text).
Proof. unfold uint_arg. auto 6 with caddyfile. Qed.

Lemma ends_int_arg text : ends (int_arg Quote text).
Proof. unfold int_arg. auto 6 with caddyfile. Qed.
Hint Resolve ends_bool_arg ends_flag_arg ends_uint_arg ends_int_arg : caddyfile.

Lemma ends_timing : ends (parseServerTimingCaddyfile Quote).
Proof. unfold parseServerTimingCaddyfile. auto 20 with caddyfile. Qed.

Lemma ends_module : ends (parseStorageModule Quote).
Proof.
  unfold parseStorageModule. apply ends_bind; [auto with caddyfile|]. intros name. apply ends_if; [auto with caddyfile|].
  intros d. pose proof (module_loads d (storage_namespace ++ name)).
  destruct (UnmarshalModule d (storage_namespace ++ name)) as [d' [v|e]]; by split.
Qed.
Hint Resolve ends_timing ends_module : caddyfile.

Ltac ends_step := apply ends_bind; [apply ends_val|]; intros ?; apply ends_switch; [|auto with caddyfile];
  repeat (apply Forall_cons; split; [simpl; auto 12 with caddyfile|]); apply Forall_nil; done.

Lemma ends_cache_key c : ends (cache_key_step Quote c).
Proof. unfold cache_key_step. ends_step. Qed.
Lemma ends_esi c : ends (esi_step Quote c).
Proof. unfold esi_step. ends_step. Qed.
Lemma ends_redis_block c : ends (redis_block_step Quote c).
Proof. unfold redis_block_step. ends_step. Qed.
Hint Resolve ends_cache_key ends_esi ends_redis_block : caddyfile.

Lemma ends_handler_step c : ends (handler_step Quote c).
Proof. unfold handler_step, unmarshal_cache_key, unmarshal_esi. ends_step. Qed.
Lemma ends_app_step c : ends (app_step Quote c).
Proof. unfold app_step, unmarshal_cache_key, unmarshal_esi. ends_step. Qed.
Hint Resolve ends_handler_step ends_app_step : caddyfile.

(** Reading a Caddyfile ends: whatever the tokens are, the site directive, the global option and
    the block of the Redis module are read or refused before their loops have made
    more steps than there are tokens. *)
Theorem caddyfile_reading_ends d r :
  (parseCaddyfile Quote d).2 ≠ PFuel ∧ (parseGlobalOption Quote d).2 ≠ PFuel ∧
  (redis_UnmarshalCaddyfile Quote r d).2 ≠ PFuel.
Proof.
  unfold parseCaddyfile, UnmarshalCaddyfile, parseGlobalOption, redis_UnmarshalCaddyfile.
  split; [|split]; apply ends_for_next; auto with caddyfile.
Qed.
End Total.

(** ** Numbers in decimal *)
Lemma parse_digits_acc u acc :
  parse_digits (Z.pos acc) (B (NilEmpty.string_of_uint u)) = Some (Z.pos (Pos.of_uint_acc u acc)).
Proof.
  revert acc. induction u as [|u IH|u IH|u IH|u IH|u IH|u IH|u IH|u IH|u IH|u IH]; intros acc; [done|..];
    simpl Pos.of_uint_acc; rewrite <- IH; simpl; f_equal; unfold digit_val; simpl; lia.
Qed.

Lemma parse_digits_uint u :
  parse_digits 0 (B (NilEmpty.string_of_uint u)) = Some (Z.of_N (Pos.of_uint u)).
Proof.
  induction u as [|u IH|u IH|u IH|u IH|u IH|u IH|u IH|u IH|u IH|u IH]; [done|..]; simpl Pos.of_uint; [done|..];
    simpl; apply (parse_digits_acc u).
Qed.

Lemma parse_digits_pos p :
  ∃ c s, B (NilZero.string_of_uint (Pos.to_uint p)) = c :: s ∧ is_digit c = true ∧
         parse_digits 0 (c :: s) = Some (Z.pos p).
Proof.
  assert (Pos.to_uint p ≠ Decimal.Nil) as Hn.
  { intros H. pose proof (Unsigned.of_to p) as Ho. rewrite H in Ho. done. }
  pose proof (parse_digits_uint (Pos.to_uint p)) as Hp. rewrite Unsigned.of_to in Hp.
  destruct (Pos.to_uint p) eqn:Eu; [done|..]; simpl; eexists _, _; (split; [reflexivity|split; [done|exact Hp]]).
Qed.

Lemma ParseUint_itoa n bits : (0 ≤ n < 2 ^ bits)%Z → ParseUint (itoa n) bits = Some n.
Proof.
  intros [Hn Hb]. unfold ParseUint, itoa. destruct n as [|p|p]; [|simpl|lia].
  - apply Z.ltb_lt in Hb. change (parse_digits 0 _) with (Some 0%Z). simpl is_nil. cbv iota. by rewrite Hb.
  - destruct (parse_digits_pos p) as (c & s & -> & _ & ->). apply Z.ltb_lt in Hb. simpl is_nil. cbv iota. by rewrite Hb.
Qed.

Lemma ParseInt_itoa n : in_int64 n → ParseInt (itoa n) = Some n.
Proof.
  unfold in_int64. intros Hn. unfold ParseInt, itoa. destruct n as [|p|p]; [done|simpl Z.to_int|simpl Z.to_int].
  - unfold NilZero.string_of_int. destruct (parse_digits_pos p) as (c & s & -> & Hd & Hp).
    assert (byte_eqb c "+" = false) as -> by (apply byte_eqb_neq; by intros ->).
    assert (byte_eqb c "-" = false) as -> by (apply byte_eqb_neq; by intros ->). simpl is_nil. cbv iota.
    rewrite Hp. assert ((Z.pos p <? 2 ^ 63)%Z = true) as -> by (apply Z.ltb_lt; lia). done.
  - change (B (NilZero.string_of_int (Decimal.Neg (Pos.to_uint p))))
      with ("-"%char :: B (NilZero.string_of_uint (Pos.to_uint p))).
    destruct (parse_digits_pos p) as (c & s & -> & Hd & Hp). simpl byte_eqb. cbv iota. simpl is_nil. cbv iota.
    rewrite Hp. assert ((Z.pos p <=? 2 ^ 63)%Z = true) as -> by (apply Z.leb_le; lia). done.
Qed.

(** ** Writing a configuration *)
Definition bool_text (b : bool) : str := if b then B "true" else B "false".

Definition print_opt {A} (w : string) (text : A → list str) (o : option A) : list line :=
  match o with None => [] | Some a => [Line (B w) (text a) None] end.
Definition print_bool (w : string) (o : option bool) : list line := print_opt w (λ b, [bool_text b]) o.
Definition print_num (w : string) (o : option Z) : list line := print_opt w (λ n, [itoa n]) o.
Definition print_str (w : string) (s : str) : list line := if is_nil s then [] else [Line (B w) [s] None].
Definition print_list (w : string) (l : list str) : list line := if is_nil l then [] else [Line (B w) l None].
Definition print_block {A} (w : string) (lines : A → list line) (o : option A) : list line :=
  match o with None => [] | Some a => [Line (B w) [] (Some (lines a))] end.
Definition print_values (l : list (str * list str)) : list line :=
  (λ p, Line (B "included_query_param_values") (p.1 :: p.2) None) <$> l.

Definition print_key (k : KeyConfig) : list line :=
  print_bool "include_protocol" (kc_IncludeProtocol k) ++
  print_bool "exclude_host" (kc_ExcludeHost k) ++
  print_bool "exclude_query" (kc_ExcludeQuery k) ++
  print_bool "preserve_query_order" (kc_PreserveQueryOrder k) ++
  print_list "included_query_params" (kc_IncludedQueryParams k) ++
  print_list "excluded_query_params" (kc_ExcludedQueryParams k) ++
  print_bool "exclude_marketing_query_params" (kc_ExcludeMarketingQueryParams k) ++
  print_list "included_header_names" (kc_IncludedHeaderNames k) ++
  print_list "included_cookie_names" (kc_IncludedCookieNames k) ++
  print_bool "case_insensitive_path" (kc_CaseInsensitivePath k) ++
  print_values (map_to_list (kc_IncludedQueryParamValues k)).

Definition print_esi (e : ESIConfig) : list line :=
  print_bool "enabled" (ec_Enabled e) ++
  print_bool "require_surrogate_control" (ec_RequireSurrogateControl e) ++
  print_num "max_depth" (ec_MaxDepth e) ++
  print_str "max_timeout" (ec_MaxTimeout e) ++
  print_num "max_concurrent_requests" (ec_MaxConcurrentRequests e) ++
  print_bool "block_private_ips" (ec_BlockPrivateIPs e) ++
  print_list "allowed_hosts" (ec_AllowedHosts e) ++
  print_bool "allow_private_ips_for_allowed_hosts" (ec_AllowPrivateIPsForAllowedHosts e) ++
  print_str "max_response_size" (ec_MaxResponseSize e) ++
  print_bool "forward_fragment_cookies" (ec_ForwardFragmentCookies e) ++
  print_bool "preserve_etag" (ec_PreserveETag e) ++
  print_str "error_marker" (ec_ErrorMarker e).

(** Timing for everybody, for nobody, or for the holder of a cookie. *)
Definition timing_text (st : ServerTimingConfig) : list str :=
  if is_nil (st_CookieName st) && is_nil (st_CookieValue st) then [bool_text (default true (st_Enabled st))]
  else [B "cookie"; st_CookieName st; st_CookieValue st].

(** A storage module is written by its name, and the words and the block that configure it. *)
Definition storage_source : Type := str * list str * option (list line).
Definition print_storage (src : option storage_source) : list line :=
  match src with None => [] | Some (name, args, b) => [Line (B "storage") (name :: args) b] end.

Definition print_handler (src : option storage_source) (h : Handler) : list line :=
  print_storage src ++
  print_str "cache_status" (hd_CacheStatus h) ++
  print_bool "respect_client_cache_control" (hd_RespectClientCacheControl h) ++
  print_bool "auto_invalidate_mutating_methods" (hd_AutoInvalidateMutatingMethods h) ++
  print_bool "convert_head_to_get" (hd_ConvertHeadToGet h) ++
  print_str "background_fetch_timeout" (hd_BackgroundFetchTimeout h) ++
  print_str "storage_timeout" (hd_StorageTimeout h) ++
  print_str "tag_header" (hd_TagHeader h) ++
  print_block "cache_key" print_key (hd_CacheKey h) ++
  print_block "esi" print_esi (hd_ESI h) ++
  print_bool "use_rewritten_url" (hd_UseRewrittenURL h) ++
  print_opt "server_timing" timing_text (hd_ServerTiming h) ++
  print_str "storage_compression" (hd_StorageCompression h).

Definition print_app (src : option storage_source) (a : App) : list line :=
  print_storage src ++
  print_str "cache_status" (app_CacheStatus a) ++
  print_bool "respect_client_cache_control" (app_RespectClientCacheControl a) ++
  print_bool "auto_invalidate_mutating_methods" (app_AutoInvalidateMutatingMethods a) ++
  print_bool "convert_head_to_get" (app_ConvertHeadToGet a) ++
  print_str "background_fetch_timeout" (app_BackgroundFetchTimeout a) ++
  print_str "storage_timeout" (app_StorageTimeout a) ++
  print_block "cache_key" print_key (app_CacheKey a) ++
  print_block "esi" print_esi (app_ESI a) ++
  print_bool "use_rewritten_url" (app_UseRewrittenURL a) ++
  print_opt "server_timing" timing_text (app_ServerTiming a) ++
  print_str "storage_compression" (app_StorageCompression a).

Definition print_redis (r : RedisStorage) : list line :=
  print_str "url" (rs_URL r) ++
  print_list "address" (rs_Address r) ++
  print_str "key_prefix" (rs_KeyPrefix r) ++
  print_str "username" (rs_Username r) ++
  print_str "password" (rs_Password r) ++
  print_num "db" (if rs_dbSet r then Some (rs_DB r) else None) ++
  print_num "pipeline_multiplex" (Some (rs_PipelineMultiplex r)).

(** What can be written: numbers in their range, no parameter without values, and a storage
    configuration that an installed module makes of some words and block. *)
Definition key_ok (k : KeyConfig) : Prop := ∀ p vs, kc_IncludedQueryParamValues k !! p = Some vs → vs ≠ [].
Definition esi_ok (e : ESIConfig) : Prop :=
  (∀ n, ec_MaxDepth e = Some n → 0 ≤ n < 2 ^ 32)%Z ∧ (∀ n, ec_MaxConcurrentRequests e = Some n → in_int64 n).
Definition timing_ok (st : ServerTimingConfig) : Prop :=
  ∃ b, st_Enabled st = Some b ∧ (b = true ∨ (st_CookieName st = [] ∧ st_CookieValue st = [])).

Section Writable.
Context {D : Type} {Disp : Dispenser D} {Mods : Modules D} {Doc : DispenserDoc D} {MD : ModulesDoc D}.

Definition storage_ok (src : option storage_source) (raw : str) : Prop :=
  match src with
  | None => raw = []
  | Some (name, args, b) => GetModule (storage_namespace ++ name) = true ∧
      ∃ v, module_config (storage_namespace ++ name) args b = Some v ∧ raw = JSONModuleObject v (B "name") name
  end.

Definition handler_ok (src : option storage_source) (h : Handler) : Prop :=
  storage_ok src (hd_StorageRaw h) ∧ (∀ k, hd_CacheKey h = Some k → key_ok k) ∧ (∀ e, hd_ESI h = Some e → esi_ok e) ∧
  (∀ st, hd_ServerTiming h = Some st → timing_ok st).
Definition app_ok (src : option storage_source) (a : App) : Prop :=
  storage_ok src (app_StorageRaw a) ∧ (∀ k, app_CacheKey a = Some k → key_ok k) ∧ (∀ e, app_ESI a = Some e → esi_ok e) ∧
  (∀ st, app_ServerTiming a = Some st → timing_ok st).
End Writable.

(** An address as the module keeps it: trimmed, not empty, no comma. *)
Definition address_ok (a : str) : Prop := a ≠ [] ∧ TrimSpace a = a ∧ ","%char ∉ a.
Definition redis_ok (r : RedisStorage) : Prop :=
  Forall address_ok (rs_Address r) ∧ (rs_dbSet r = false → rs_DB r = 0%Z) ∧
  (0 ≤ rs_DB r < 2 ^ 63)%Z ∧ (0 ≤ rs_PipelineMultiplex r < 2 ^ 63)%Z.

(** ** Reading it back *)
Section Reading.
Context {D : Type} {Disp : Dispenser D} {Mods : Modules D} {T : DispenserTotal D} {Doc : DispenserDoc D} {MD : ModulesDoc D}.
Context (Quote : str → str).
#[local] Unset Default Proof Using.

(** From the words [args] and the block [b] of a line at level [n] the parser reads [x], and leaves nothing of them. *)
Definition reads {A} (n : nat) (args : list str) (b : option (list line)) (m : parser_of D A) (x : A) : Prop :=
  ∀ d st, length st = S n → view d = Some (mkCursor args b st) →
  ∃ d', m d = (d', PVal x) ∧ view d' = Some (mkCursor [] None st).

Definition line_step {C} (n : nat) (step : C → parser_of D C) (l : line) (c c' : C) : Prop :=
  let 'Line w a b := l in
  ∀ d st, length st = S n → view d = Some (mkCursor a b st) → Val d = w →
  ∃ d', step c d = (d', PVal c') ∧ view d' = Some (mkCursor [] None st).

Inductive steps {C} (n : nat) (step : C → parser_of D C) : list line → C → C → Prop :=
  | steps_nil c : steps n step [] c c
  | steps_cons l ls c c1 c2 : line_step n step l c c1 → steps n step ls c1 c2 → steps n step (l :: ls) c c2.

Lemma steps_app {C} n (step : C → parser_of D C) l1 l2 c c1 c2 :
  steps n step l1 c c1 → steps n step l2 c1 c2 → steps n step (l1 ++ l2) c c2.
Proof. induction 1; simpl; [done|]. intros. econstructor; eauto. Qed.

Lemma steps_one {C} n (step : C → parser_of D C) l c c1 : line_step n step l c c1 → steps n step [l] c c1.
Proof. intros. econstructor; [done|constructor]. Qed.

Lemma line_step_val {C} n (step : C → parser_of D C) w a b c c' (F : str → parser_of D C) :
  step c = p_bind p_val F → reads n a b (F w) c' → line_step n step (Line w a b) c c'.
Proof. intros Hs Hr d st Hst Hv Hw. rewrite Hs. unfold p_bind, p_val. rewrite Hw. by apply Hr. Qed.

Lemma reads_map {A C} n args b (m : parser_of D A) x (f : A → C) y :
  reads n args b m x → f x = y → reads n args b (p_bind m (λ a, p_ret (f a))) y.
Proof.
  intros Hm <- d st Hst Hv. unfold p_bind. destruct (Hm d st Hst Hv) as (d' & -> & Hv'). by exists d'.
Qed.

Lemma reads_if {A C} n args b (m : parser_of D A) x (t : A → bool) (m1 m2 : A → parser_of D C) y :
  reads n args b m x → t x = false → reads n args b (p_bind m m2) y →
  reads n args b (p_bind m (λ a, if t a then m1 a else m2 a)) y.
Proof.
  intros Hm Ht H2 d st Hst Hv. destruct (H2 d st Hst Hv) as (d2 & E2 & Hv2). exists d2. split; [|done].
  unfold p_bind in *. destruct (Hm d st Hst Hv) as (d' & E' & Hv'). rewrite E' in E2 |- *. by rewrite Ht.
Qed.

Lemma reads_str n s : reads n [s] None str_arg s.
Proof.
  intros d st Hst Hv. destruct (doc_next_arg _ _ _ _ _ Hv) as (d' & E & Hval & Hv').
  exists d'. unfold str_arg, p_bind, p_next_arg, p_val. rewrite E. simpl. by rewrite Hval.
Qed.

Lemma reads_bool n text b : reads n [bool_text b] None (bool_arg Quote text) b.
Proof.
  intros d st Hst Hv. destruct (doc_next_arg _ _ _ _ _ Hv) as (d' & E & Hval & Hv').
  exists d'. split; [|done]. unfold bool_arg, bool_val, str_arg, p_bind, p_next_arg, p_val. rewrite E. simpl. rewrite Hval.
  by destruct b.
Qed.

Lemma reads_flag n text b : reads n [bool_text b] None (flag_arg Quote text) b.
Proof.
  intros d st Hst Hv. destruct (doc_next_arg _ _ _ _ _ Hv) as (d' & E & Hval & Hv').
  exists d'. split; [|done]. unfold flag_arg, bool_val, p_bind, p_next_arg, p_val. rewrite E. rewrite Hval.
  by destruct b.
Qed.

Lemma reads_uint n bits text z : (0 ≤ z < 2 ^ bits)%Z → reads n [itoa z] None (uint_arg Quote bits text) z.
Proof.
  intros Hz d st Hst Hv. destruct (reads_str n (itoa z) d st Hst Hv) as (d' & E & Hv').
  exists d'. split; [|done]. unfold uint_arg, p_bind. rewrite E. by rewrite ParseUint_itoa.
Qed.

Lemma reads_int n text z : in_int64 z → reads n [itoa z] None (int_arg Quote text) z.
Proof.
  intros Hz d st Hst Hv. destruct (reads_str n (itoa z) d st Hst Hv) as (d' & E & Hv').
  exists d'. split; [|done]. unfold int_arg, p_bind. rewrite E. by rewrite ParseInt_itoa.
Qed.

Lemma reads_remaining n args : reads n args None p_remaining args.
Proof.
  intros d st Hst Hv. destruct (doc_remaining _ _ _ _ Hv) as (d' & E & Hv'). exists d'. unfold p_remaining. by rewrite E.
Qed.

Lemma reads_timing n st : timing_ok st → reads n (timing_text st) None (parseServerTimingCaddyfile Quote) st.
Proof.
  intros (b & Hb & Hc) d sk Hst. unfold timing_text, parseServerTimingCaddyfile, p_bind, p_next_arg, p_val.
  destruct st as [e name value]. simpl in *. subst e. destruct (is_nil name && is_nil value) eqn:En.
  - apply andb_true_iff in En as [->%is_nil_true ->%is_nil_true]. intros Hv.
    destruct (doc_next_arg _ _ _ _ _ Hv) as (d' & -> & Hval & Hv'). exists d'. split; [|done]. simpl.
    unfold bool_val, p_bind, p_val. rewrite Hval. destruct b; simpl; rewrite ?Hval; reflexivity.
  - assert (b = true) as -> by (destruct Hc as [?|[-> ->]]; done). intros Hv.
    destruct (doc_next_arg _ _ _ _ _ Hv) as (d1 & -> & Hval1 & Hv1). simpl. rewrite Hval1. simpl.
    destruct (doc_next_arg _ _ _ _ _ Hv1) as (d2 & -> & Hval2 & Hv2). simpl. rewrite Hval2.
    destruct (doc_next_arg _ _ _ _ _ Hv2) as (d3 & -> & Hval3 & Hv3). simpl. rewrite Hval3. by exists d3.
Qed.

Lemma reads_module n name args b v :
  GetModule (storage_namespace ++ name) = true → module_config (storage_namespace ++ name) args b = Some v →
  reads n (name :: args) b (parseStorageModule Quote) (JSONModuleObject v (B "name") name).
Proof.
  intros Hg Hm d st Hst Hv. destruct (doc_next_arg _ _ _ _ _ Hv) as (d1 & E & Hval & Hv1).
  destruct (doc_module _ _ _ _ _ _ Hval Hv1 Hm) as (d2 & E2 & Hv2). exists d2. split; [|done].
  unfold parseStorageModule, str_arg, p_bind, p_next_arg, p_val. rewrite E. cbn -[storage_namespace app]. rewrite Hval, Hg. cbn -[storage_namespace app]. by rewrite E2.
Qed.

(** *** Loops *)
Lemma loop_reads {C} n (step : C → parser_of D C) ls c c' :
  steps (S n) step ls c c' → ∀ fuel d st, length st = S n → view d = Some (mkCursor [] None (ls :: st)) →
  (block_loop fuel n step c d).2 ≠ PFuel →
  ∃ d', block_loop fuel n step c d = (d', PVal c') ∧ view d' = Some (mkCursor [] None st).
Proof.
  induction 1 as [c|[w a b] ls c c1 c2 Hl _ IH]; intros fuel d st Hst Hv Hf; (destruct fuel as [|fuel]; [done|]); simpl in *.
  - destruct (doc_close _ _ _ Hst Hv) as (d' & E & Hv'). exists d'. split; [|done]. unfold p_bind, p_next_block. by rewrite E.
  - destruct (doc_line _ _ _ _ _ _ _ Hst Hv) as (d1 & E & Hval & Hv1).
    destruct (Hl d1 (ls :: st) ltac:(simpl; lia) Hv1 Hval) as (d2 & E2 & Hv2).
    assert (∀ k : bool → parser_of D C, p_bind (p_next_block n) k d = k true d1) as Hb
      by (intros k; unfold p_bind, p_next_block; by rewrite E).
    rewrite Hb in Hf |- *. unfold p_bind in Hf |- *. rewrite E2 in Hf |- *. by apply IH.
Qed.

Lemma reads_block {C} n (step : C → parser_of D C) b c c' :
  (∀ c, ends (step c)) → steps (S n) step (default [] b) c c' → reads n [] b (for_block n step c) c'.
Proof.
  intros He Hs d st Hst Hv.
  assert ((for_block n step c d).2 ≠ PFuel) as Hf by (by apply (ends_for_block n step c He d)).
  unfold for_block in *. simpl block_loop in *.
  assert (∀ ok d', NextBlock n d = (ok, d') → ∀ k : bool → parser_of D C, p_bind (p_next_block n) k d = k ok d') as Hb
    by (intros ok d' E k; unfold p_bind, p_next_block; by rewrite E).
  destruct b as [[|[w a b] ls]|]; simpl in Hs.
  - inversion Hs; subst. destruct (doc_empty _ _ _ Hst Hv) as (d' & E & Hv'). rewrite (Hb _ _ E). by exists d'.
  - inversion Hs as [|? ? ? c1 ? Hl Hrest]; subst.
    destruct (doc_open _ _ _ _ _ _ _ Hst Hv) as (d1 & E & Hval & Hv1). rewrite (Hb _ _ E) in Hf |- *.
    destruct (Hl d1 (ls :: st) ltac:(simpl; lia) Hv1 Hval) as (d2 & E2 & Hv2).
    unfold p_bind in Hf |- *. rewrite E2 in Hf |- *. by eapply loop_reads.
  - inversion Hs; subst. destruct (doc_no_block _ _ _ Hst Hv) as (d' & E & Hv'). rewrite (Hb _ _ E). by exists d'.
Qed.

(** The loop over the directive itself: one line with a block. *)
Lemma reads_directive {C} (step : C → parser_of D C) w b c c' d :
  (∀ c, ends (step c)) → steps 1 step (default [] b) c c' → view d = Some (mkCursor [] None [[Line w [] b]]) →
  ∃ d', for_next (for_block 0 step) c d = (d', PVal c').
Proof.
  intros He Hs Hv. assert ((for_next (for_block 0 step) c d).2 ≠ PFuel) as Hf
    by (apply (ends_for_next (for_block 0 step) c (λ c0, ends_for_block 0 step c0 He) d)).
  unfold for_next in *. destruct (doc_next _ _ _ _ _ Hv) as (d1 & E1 & _ & Hv1).
  destruct (reads_block 0 step b c c' He Hs d1 [[]] eq_refl Hv1) as (d2 & E2 & Hv2).
  destruct (doc_end _ Hv2) as (d3 & E3 & _). destruct (tokens_left d) as [|k]; simpl in *; unfold p_bind, p_next in *;
    rewrite E1, E2 in *; [done|]. rewrite E3. by exists d3.
Qed.

(** *** Fields *)
Lemma switch_hit {A} k (a : A) rest dflt : switch k ((k, a) :: rest) dflt = a.
Proof. simpl. by rewrite str_eqb_refl. Qed.

Lemma switch_skip {A} v k (a : A) rest dflt : (v =s k) = false → switch v ((k, a) :: rest) dflt = switch v rest dflt.
Proof. simpl. by intros ->. Qed.

Lemma steps_opt {A C} n (step : C → parser_of D C) w text (set : option A → C → C) o c :
  set None c = c → (∀ a, o = Some a → line_step n step (Line (B w) (text a) None) c (set (Some a) c)) →
  steps n step (print_opt w text o) c (set o c).
Proof. intros Hn Hs. destruct o as [a|]; simpl; [apply steps_one; by apply Hs|]. rewrite Hn. constructor. Qed.

Lemma steps_str {C} n (step : C → parser_of D C) w (set : str → C → C) s c :
  set [] c = c → line_step n step (Line (B w) [s] None) c (set s c) → steps n step (print_str w s) c (set s c).
Proof. intros Hn Hs. destruct s as [|x s]; simpl; [rewrite Hn; constructor|]. by apply steps_one. Qed.

Lemma steps_list {C} n (step : C → parser_of D C) w (set : list str → C → C) l c :
  set [] c = c → (l ≠ [] → line_step n step (Line (B w) l None) c (set l c)) → steps n step (print_list w l) c (set l c).
Proof. intros Hn Hs. destruct l as [|x l]; simpl; [rewrite Hn; constructor|]. apply steps_one. by apply Hs. Qed.

Lemma steps_block {A C} n (step : C → parser_of D C) w lines (set : option A → C → C) o c :
  set None c = c → (∀ a, o = Some a → line_step n step (Line (B w) [] (Some (lines a))) c (set (Some a) c)) →
  steps n step (print_block w lines o) c (set o c).
Proof. intros Hn Hs. destruct o as [a|]; simpl; [apply steps_one; by apply Hs|]. rewrite Hn. constructor. Qed.

Lemma steps_storage {C} n (step : C → parser_of D C) (set : str → C → C) src raw c :
  set [] c = c → storage_ok src raw →
  (∀ name args b, reads n (name :: args) b (parseStorageModule Quote) raw →
   line_step n step (Line (B "storage") (name :: args) b) c (set raw c)) →
  steps n step (print_storage src) c (set raw c).
Proof.
  intros Hn Hok Hs. destruct src as [[[name args] b]|]; unfold storage_ok, print_storage in *; [|rewrite Hok, Hn; constructor].
  destruct Hok as (Hg & v & Hm & ->). apply steps_one, Hs. by apply reads_module.
Qed.

(** Read one line: find its case, then read its words. *)
Ltac at_case := eapply line_step_val; [reflexivity|]; cbv beta;
  repeat (rewrite switch_skip by (vm_compute; reflexivity)); rewrite switch_hit.
Ltac read_line := at_case; (eapply reads_map; [first [apply reads_bool | apply reads_flag | apply reads_str | apply reads_remaining]|reflexivity]).
(** Write out the configuration reached, so that the next assignment is to a plain structure. *)
Ltac write_out set :=
  match goal with
  | |- steps _ _ _ ?c _ => let c' := eval unfold set in c in let c' := eval simpl in c' in change c with c'
  end.
Ltac field_opt set :=
  eapply steps_app; [apply (steps_opt _ _ _ _ set); [reflexivity|intros ? _; read_line]|write_out set].
Ltac field_str set := eapply steps_app; [apply (steps_str _ _ _ set); [reflexivity|read_line]|write_out set].
Ltac field_list set := eapply steps_app; [apply (steps_list _ _ _ set); [reflexivity|intros _; read_line]|write_out set].
Ltac field_storage set Hok := eapply steps_app; [apply (steps_storage _ _ set _ _ _ eq_refl Hok);
  intros ? ? ? Hr; at_case; eapply reads_map; [exact Hr|reflexivity]|write_out set].
Ltac field_with lemma set := eapply steps_app; [apply (lemma _ _ _ _ _ _ set); [reflexivity|]|write_out set].

Lemma steps_values n l m c :
  NoDup l.*1 → Forall (λ p, p.2 ≠ []) l → (∀ k, k ∈ l.*1 → m !! k = None) →
  steps n (cache_key_step Quote) (print_values l) (kc_set_IncludedQueryParamValues m c)
    (kc_set_IncludedQueryParamValues (foldl (λ m p, <[p.1 := p.2]> m) m l) c).
Proof.
  revert m. induction l as [|[k vs] l IH]; intros m Hd Hne Hm; simpl; [constructor|].
  simpl in Hd. apply NoDup_cons in Hd as [Hk Hd]. apply Forall_cons in Hne as [Hvs Hne].
  apply (steps_cons _ _ _ _ _ (kc_set_IncludedQueryParamValues (<[k := vs]> m) c)).
  - at_case. intros d st Hst Hv. destruct (doc_next_arg _ _ _ _ _ Hv) as (d1 & E1 & Hval & Hv1).
    destruct (doc_remaining _ _ _ _ Hv1) as (d2 & E2 & Hv2). exists d2. split; [|done].
    unfold str_arg, p_bind, p_next_arg, p_remaining, p_val. rewrite E1. simpl. rewrite E2, Hval. simpl.
    destruct vs as [|v vs]; [done|]. simpl. rewrite (Hm k) by (simpl; set_solver). done.
  - apply IH; [done..|]. intros k' Hk'. rewrite lookup_insert_ne by (intros ->; done). apply Hm. simpl. set_solver.
Qed.

Lemma foldl_inserts_union (l : list (str * list str)) (m : gmap str (list str)) :
  NoDup l.*1 → foldl (λ m p, <[p.1 := p.2]> m) m l = list_to_map l ∪ m.
Proof.
  revert m. induction l as [|[k vs] l IH]; intros m; simpl; [by rewrite (left_id_L ∅ (∪))|].
  rewrite NoDup_cons. intros [Hk Hd]. rewrite IH by done.
  by rewrite <- insert_union_l, insert_union_r by (by apply not_elem_of_list_to_map_1).
Qed.

Lemma foldl_inserts (m : gmap str (list str)) : foldl (λ m p, <[p.1 := p.2]> m) ∅ (map_to_list m) = m.
Proof.
  rewrite foldl_inserts_union by apply NoDup_fst_map_to_list.
  by rewrite (right_id_L ∅ (∪)), list_to_map_to_list.
Qed.

Lemma steps_key n k : key_ok k → steps n (cache_key_step Quote) (print_key k) emptyKey k.
Proof.
  intros Hk. destruct k as [f1 f2 f3 f4 f5 f6 f7 f8 f9 f10 m]. unfold key_ok in Hk. simpl in Hk.
  unfold print_key, print_bool, emptyKey. simpl kc_IncludedQueryParamValues.
  field_opt kc_set_IncludeProtocol. field_opt kc_set_ExcludeHost. field_opt kc_set_ExcludeQuery.
  field_opt kc_set_PreserveQueryOrder. field_list kc_set_IncludedQueryParams. field_list kc_set_ExcludedQueryParams.
  field_opt kc_set_ExcludeMarketingQueryParams. field_list kc_set_IncludedHeaderNames.
  field_list kc_set_IncludedCookieNames. field_opt kc_set_CaseInsensitivePath.
  rewrite <- (foldl_inserts m) at 2. apply (steps_values n (map_to_list m) ∅ (mkKeyConfig f1 f2 f3 f4 f5 f6 f7 f8 f9 f10 ∅)).
  - apply NoDup_fst_map_to_list.
  - apply Forall_forall. intros [p vs] Hp%elem_of_map_to_list. by eapply Hk.
  - intros p _. apply lookup_empty.
Qed.

Lemma steps_esi n e : esi_ok e → steps n (esi_step Quote) (print_esi e) emptyESI e.
Proof.
  intros [Hd Hc]. destruct e as [f1 f2 f3 f4 f5 f6 f7 f8 f9 f10 f11 f12]. simpl in Hd, Hc.
  unfold print_esi, print_bool, print_num, emptyESI.
  field_opt ec_set_Enabled. field_opt ec_set_RequireSurrogateControl.
  field_with @steps_opt ec_set_MaxDepth.
  { intros z Hz. at_case. eapply reads_map; [|reflexivity]. apply reads_uint. by apply Hd. }
  field_str ec_set_MaxTimeout.
  field_with @steps_opt ec_set_MaxConcurrentRequests.
  { intros z Hz. at_case. eapply reads_map; [|reflexivity]. apply reads_int. by apply Hc. }
  field_opt ec_set_BlockPrivateIPs. field_list ec_set_AllowedHosts. field_opt ec_set_AllowPrivateIPsForAllowedHosts.
  field_str ec_set_MaxResponseSize. field_opt ec_set_ForwardFragmentCookies. field_opt ec_set_PreserveETag.
  apply (steps_str _ _ _ ec_set_ErrorMarker f12 (mkESIConfig f1 f2 f3 f4 f5 f6 f7 f8 f9 f10 f11 [])); [reflexivity|read_line].
Qed.

Lemma steps_handler src h : handler_ok src h → steps 1 (handler_step Quote) (print_handler src h) emptyHandler h.
Proof.
  intros (Hraw & Hkey & Hesi & Htim). destruct h as [f1 f2 f3 f4 f5 f6 f7 f8 f9 f10 f11 f12 f13].
  simpl in *. unfold print_handler, print_bool, emptyHandler. field_storage hd_set_StorageRaw Hraw.
  field_str hd_set_CacheStatus. field_opt hd_set_RespectClientCacheControl. field_opt hd_set_AutoInvalidateMutatingMethods.
  field_opt hd_set_ConvertHeadToGet. field_str hd_set_BackgroundFetchTimeout. field_str hd_set_StorageTimeout.
  field_str hd_set_TagHeader.
  field_with @steps_block hd_set_CacheKey.
  { intros k Hk. at_case. eapply reads_map; [|reflexivity]. apply reads_block; [apply ends_cache_key|]. by apply steps_key, Hkey. }
  field_with @steps_block hd_set_ESI.
  { intros e He. at_case. eapply reads_map; [|reflexivity]. apply reads_block; [apply ends_esi|]. by apply steps_esi, Hesi. }
  field_opt hd_set_UseRewrittenURL.
  field_with @steps_opt hd_set_ServerTiming.
  { intros st Hst. at_case. eapply reads_map; [|reflexivity]. by apply reads_timing, Htim. }
  apply (steps_str _ _ _ hd_set_StorageCompression f13 (mkHandler f1 f2 f3 f4 f5 f6 f7 f8 f9 f10 f11 f12 [])); [reflexivity|read_line].
Qed.

Lemma steps_app_config src a : app_ok src a → steps 1 (app_step Quote) (print_app src a) emptyApp a.
Proof.
  intros (Hraw & Hkey & Hesi & Htim). destruct a as [f1 f2 f3 f4 f5 f6 f7 f8 f9 f10 f11 f12].
  simpl in *. unfold print_app, print_bool, emptyApp. field_storage app_set_StorageRaw Hraw.
  field_str app_set_CacheStatus. field_opt app_set_RespectClientCacheControl. field_opt app_set_AutoInvalidateMutatingMethods.
  field_opt app_set_ConvertHeadToGet. field_str app_set_BackgroundFetchTimeout. field_str app_set_StorageTimeout.
  field_with @steps_block app_set_CacheKey.
  { intros k Hk. at_case. eapply reads_map; [|reflexivity]. apply reads_block; [apply ends_cache_key|]. by apply steps_key, Hkey. }
  field_with @steps_block app_set_ESI.
  { intros e He. at_case. eapply reads_map; [|reflexivity]. apply reads_block; [apply ends_esi|]. by apply steps_esi, Hesi. }
  field_opt app_set_UseRewrittenURL.
  field_with @steps_opt app_set_ServerTiming.
  { intros st Hst. at_case. eapply reads_map; [|reflexivity]. by apply reads_timing, Htim. }
  apply (steps_str _ _ _ app_set_StorageCompression f12 (mkApp f1 f2 f3 f4 f5 f6 f7 f8 f9 f10 f11 [])); [reflexivity|read_line].
Qed.

Lemma address_list_ok l : Forall address_ok l → address_list l = l.
Proof.
  unfold address_list. induction 1 as [|a l (Ha & Ht & Hc) _ IH]; [done|]. csimpl. rewrite IH, SplitSeq_word by done.
  simpl. rewrite Ht. by rewrite filter_cons_True.
Qed.

Lemma steps_db n z c : (0 ≤ z < 2 ^ 63)%Z →
  steps n (redis_block_step Quote) (print_num "db" (Some z)) c (rs_set_dbSet true (rs_set_DB z c)).
Proof.
  intros Hz. apply steps_one. at_case. assert (in_int64 z) by (unfold in_int64; lia).
  eapply reads_if; [by apply reads_int|apply Z.ltb_ge; lia|]. eapply reads_map; [by apply reads_int|reflexivity].
Qed.

Lemma steps_multiplex n z c : (0 ≤ z < 2 ^ 63)%Z →
  steps n (redis_block_step Quote) (print_num "pipeline_multiplex" (Some z)) c (rs_set_PipelineMultiplex z c).
Proof.
  intros Hz. apply steps_one. at_case. assert (in_int64 z) by (unfold in_int64; lia).
  eapply reads_if; [by apply reads_int|apply Z.ltb_ge; lia|]. eapply reads_map; [by apply reads_int|reflexivity].
Qed.

Lemma steps_redis r : redis_ok r → steps 1 (redis_block_step Quote) (print_redis r) emptyRedis r.
Proof.
  intros (Ha & Hset & Hdb & Hpm). destruct r as [url addr prefix user pass db pm set]. simpl in *. unfold print_redis, emptyRedis.
  eapply steps_app; [apply (steps_str _ _ _ rs_set_URL); [reflexivity|]|write_out rs_set_URL].
  { at_case. simpl is_nil. cbv iota. eapply reads_map; [apply reads_str|reflexivity]. }
  eapply steps_app; [apply (steps_list _ _ _ rs_set_Address); [reflexivity|]|write_out rs_set_Address].
  { intros Hne. at_case. eapply reads_if; [apply reads_remaining|by apply is_nil_false|].
    eapply reads_map; [apply reads_remaining|]. simpl. by rewrite address_list_ok. }
  field_str rs_set_KeyPrefix. field_str rs_set_Username. field_str rs_set_Password. simpl rs_dbSet. destruct set.
  - eapply steps_app; [by apply steps_db|]. by apply (steps_multiplex _ pm (mkRedisStorage url addr prefix user pass db 0 true)).
  - rewrite (Hset eq_refl). by apply (steps_multiplex _ pm (mkRedisStorage url addr prefix user pass 0 0 false)).
Qed.

(** C15: a configuration survives being written and read: from a dispenser before the block that
    [print_handler] writes, the site directive reads exactly that handler, storage module included; the
    same for the global option.  So every setting has a directive, and no directive changes the
    setting of another.  (The block of the storage module is read by the module, which is assumed
    to be installed and to accept it.) *)
Theorem caddyfile_round_trip src h a d :
  (handler_ok src h → view d = Some (mkCursor [] None [[Line (B "titip") [] (Some (print_handler src h))]]) →
   ∃ d', parseCaddyfile Quote d = (d', PVal h)) ∧
  (app_ok src a → view d = Some (mkCursor [] None [[Line (B "titip") [] (Some (print_app src a))]]) →
   ∃ d', parseGlobalOption Quote d = (d', PVal a)).
Proof.
  split; intros Hok Hv.
  - apply (reads_directive (handler_step Quote) (B "titip") (Some (print_handler src h))); [apply ends_handler_step|by apply steps_handler|done].
  - apply (reads_directive (app_step Quote) (B "titip") (Some (print_app src a))); [apply ends_app_step|by apply steps_app_config|done].
Qed.

(** The same for the block of the Redis module. *)
Lemma redis_block_round_trip r d w :
  redis_ok r → view d = Some (mkCursor [] None [[Line w [] (Some (print_redis r))]]) →
  ∃ d', redis_UnmarshalCaddyfile Quote emptyRedis d = (d', PVal r).
Proof. intros Hok Hv. apply (reads_directive (redis_block_step Quote) w (Some (print_redis r))); [apply ends_redis_block|by apply steps_redis|done]. Qed.
End Reading.

(** ** A dispenser over lines *)
Module MemDispenser.

(** The current token and the position; a token that the reader skipped is loaded as if it began a line. *)
Record state := mkState { ms_val : str; ms_cursor : cursor }.

Fixpoint line_tokens (l : line) : nat :=
  let 'Line _ args body := l in
  S (length args + match body with None => 0 | Some ls => 2 + sum_list_with line_tokens ls end).
Definition lines_tokens (ls : list line) : nat := sum_list_with line_tokens ls.
Definition tokens (s : state) : nat :=
  let 'mkCursor args body rest := ms_cursor s in
  length args + match body with None => 0 | Some ls => 2 + lines_tokens ls end
  + sum_list_with lines_tokens rest + length rest.

Definition load_line (s : state) : bool * state :=
  match cu_rest (ms_cursor s) with
  | (Line w a b :: ls) :: st => (true, mkState w (mkCursor a b (ls :: st)))
  | [] :: st => (false, mkState (ms_val s) (mkCursor [] None (if is_nil st then [[]] else st)))
  | [] => (false, s)
  end.

Definition next_arg (s : state) : bool * state :=
  match ms_cursor s with
  | mkCursor (a :: args) b st => (true, mkState a (mkCursor args b st))
  | mkCursor [] _ _ => (false, s)
  end.

Definition next_block (n : nat) (s : state) : bool * state :=
  let 'mkCursor args body st := ms_cursor s in
  if negb (is_nil args) then next_arg s
  else match body with
       | Some [] => (false, mkState (ms_val s) (mkCursor [] None st))
       | Some (Line w a b :: ls) => (true, mkState w (mkCursor a b (ls :: st)))
       | None => if (length st <=? S n)%nat then (false, s) else load_line s
       end.

Definition next (s : state) : bool * state :=
  let 'mkCursor args body st := ms_cursor s in
  if negb (is_nil args) then next_arg s
  else match body with
       | Some ls => (false, mkState (ms_val s) (mkCursor [] None st))
       | None => load_line s
       end.

Definition remaining (s : state) : list str * state :=
  let 'mkCursor args body st := ms_cursor s in (args, mkState (ms_val s) (mkCursor [] body st)).

#[export] Instance mem_dispenser : Dispenser state := {|
  Next := next;
  NextArg := next_arg;
  NextBlock := next_block;
  RemainingArgs := remaining;
  Val := ms_val;
  ArgErr := λ s, B "wrong argument count or unexpected line ending after '" ++ ms_val s ++ B "'";
  Errf := λ _ text, text;
  tokens_left := tokens;
|}.

(** The Redis module is installed, and reads the line that names it as a file of its own. *)
Definition redis_segment (name : str) (args : list str) (b : option (list line)) : option RedisStorage :=
  match redis_UnmarshalCaddyfile id emptyRedis (mkState [] (mkCursor [] None [[Line name args b]])) with
  | (_, PVal r) => Some r
  | _ => None
  end.

#[export] Instance mem_modules : Modules state := {|
  module_value := RedisStorage;
  GetModule := λ id, id =s storage_namespace ++ B "redis";
  GetModules := λ _, [storage_namespace ++ B "redis"];
  UnmarshalModule := λ s _, let 'mkCursor args b st := ms_cursor s in
    (mkState (ms_val s) (mkCursor [] None st),
     match redis_segment (ms_val s) args b with Some r => Ok r | None => Err (B "module") end);
  JSONModuleObject := λ r key name, key ++ B ":" ++ name ++ B ",key_prefix:" ++ rs_KeyPrefix r
    ++ B ",address:" ++ join (B " ") (rs_Address r);
|}.

#[export, refine] Instance mem_doc : DispenserDoc state := {| view := λ s, Some (ms_cursor s) |}.
Proof.
  - intros [v c] a args b st [= ->]. by eexists.
  - intros [v c] b st [= ->]. by eexists.
  - intros [v c] args b st [= ->]. by eexists.
  - intros n [v c] w a b ls st _ [= ->]. by eexists.
  - intros n [v c] st _ [= ->]. by eexists.
  - intros n [v c] st Hst [= ->]. exists (mkState v (mkCursor [] None st)). split; [|done].
    simpl. unfold next_block. simpl. apply Nat.eq_le_incl, Nat.leb_le in Hst. by rewrite Hst.
  - intros n [v c] w a b ls st Hst [= ->]. exists (mkState w (mkCursor a b (ls :: st))). split; [|done].
    simpl. unfold next_block. simpl. destruct (length st <=? n) eqn:E; [apply Nat.leb_le in E; lia|done].
  - intros n [v c] st Hst [= ->]. exists (mkState v (mkCursor [] None st)). split; [|done].
    simpl. unfold next_block. simpl. destruct (length st <=? n) eqn:E; [apply Nat.leb_le in E; lia|].
    unfold load_line. simpl. destruct st; [simpl in Hst; lia|done].
  - intros [v c] w a b ls [= ->]. by eexists.
  - intros [v c] [= ->]. by eexists.
Defined.

#[export, refine] Instance mem_modules_doc : ModulesDoc state :=
  {| module_config := λ id, redis_segment (TrimPrefix id storage_namespace) |}.
Proof.
  intros [v [args' b' st']] name args b st r Hv [= -> -> ->] Hr.
  assert (TrimPrefix (storage_namespace ++ name) storage_namespace = name) as Hn
    by (unfold TrimPrefix; by rewrite HasPrefix_app, drop_app_length).
  rewrite Hn in Hr. cbn in Hv, Hr |- *. subst v. exists (mkState name (mkCursor [] None st)). by rewrite Hr.
Defined.

Lemma load_line_tokens s : cu_args (ms_cursor s) = [] → cu_body (ms_cursor s) = None →
  tokens (load_line s).2 + Nat.b2n (load_line s).1 ≤ tokens s.
Proof.
  destruct s as [v [args body rest]]. simpl. intros -> ->. unfold load_line, tokens, lines_tokens. simpl.
  destruct rest as [|[|[w a b] ls] st]; simpl; [lia|..].
  - destruct st; simpl; lia.
  - lia.
Qed.

#[export] Instance mem_total : DispenserTotal state.
Proof.
  split.
  - intros s. simpl. unfold next, next_arg. destruct s as [v [args body rest]]. simpl.
    destruct args as [|a args]; simpl; [|unfold tokens; simpl; lia].
    destruct body as [ls|]; [unfold tokens; simpl; lia|]. by apply load_line_tokens.
  - intros [v [[|a args] body rest]]; simpl; unfold tokens; simpl; lia.
  - intros n s. simpl. unfold next_block, next_arg. destruct s as [v [args body rest]]. simpl.
    destruct args as [|a args]; simpl; [|unfold tokens; simpl; lia].
    destruct body as [[|[w a b] ls]|]; simpl; [unfold tokens; simpl; lia|unfold tokens, lines_tokens; simpl; lia|].
    destruct (length rest <=? S n); [simpl; lia|]. by apply load_line_tokens.
  - intros [v [args body rest]]. simpl. unfold tokens. simpl. lia.
  - intros [v [args body rest]] id. cbn [UnmarshalModule mem_modules tokens_left mem_dispenser ms_cursor fst]. unfold tokens. cbn [ms_cursor]. simpl. lia.
Qed.

Definition before (w : string) (ls : list line) : state :=
  mkState [] (mkCursor [] None [[Line (B w) [] (Some ls)]]).
End MemDispenser.

(** ** Witnesses *)
Import MemDispenser.

Definition demo_storage : storage_source :=
  (B "redis", [], Some [Line (B "address") [B "10.0.0.1:6379"] None; Line (B "key_prefix") [B "shop:"] None]).
Definition demo_raw : str := B "name:redis,key_prefix:shop:,address:10.0.0.1:6379".
Definition demo_handler : Handler :=
  mkHandler demo_raw (B "rfc9211") (Some true) None (Some false) (B "90s") [] (B "Surrogate-Key")
    (Some (mkKeyConfig None (Some true) None None [B "id"; B "page"] [] (Some true) [] [] None {[B "sort" := [B "asc"; B "desc"]]}))
    (Some (mkESIConfig (Some true) (Some false) (Some 5%Z) [] (Some 4%Z) None [B "*.partner.com"] None (B "1MB") None None []))
    None (Some (mkServerTiming (Some true) (B "debug") (B "1"))) (B "zstd").
Definition demo_app : App := mkApp demo_raw (B "none") None (Some true) None [] (B "2s") None None (Some true) None [].

Lemma demo_storage_ok : storage_ok (Some demo_storage) demo_raw.
Proof.
  split; [vm_compute; reflexivity|].
  exists (mkRedisStorage [] [B "10.0.0.1:6379"] (B "shop:") [] [] 0 0 false). split; vm_compute; reflexivity.
Qed.

Lemma caddyfile_round_trip_witness :
  (parseCaddyfile id (before "titip" (print_handler (Some demo_storage) demo_handler))).2 = PVal demo_handler ∧
  (parseGlobalOption id (before "titip" (print_app (Some demo_storage) demo_app))).2 = PVal demo_app.
Proof.
  split.
  - destruct (proj1 (caddyfile_round_trip id (Some demo_storage) demo_handler demo_app
      (before "titip" (print_handler (Some demo_storage) demo_handler)))) as [d' ->]; [|reflexivity|reflexivity].
    split; [exact demo_storage_ok|]. split; [|split].
    + intros k [= <-] p vs. simpl. rewrite lookup_singleton_Some. by intros [_ <-].
    + intros e [= <-]. split; intros n [= <-]; unfold in_int64; lia.
    + intros st [= <-]. exists true. split; [done|by left].
  - destruct (proj2 (caddyfile_round_trip id (Some demo_storage) demo_handler demo_app
      (before "titip" (print_app (Some demo_storage) demo_app)))) as [d' ->]; [|reflexivity|reflexivity].
    split; [exact demo_storage_ok|]. split; [|split]; done.
Defined.

Lemma caddyfile_reading_ends_witness :
  (parseCaddyfile id (before "titip" [Line (B "cache_status") [B "simple"; B "twice"] None])).2
    = PErr (B "unknown titip directive twice") ∧
  (parseGlobalOption id (before "titip" [])).2 ≠ PFuel.
Proof.
  split; [vm_compute; reflexivity|]. apply (caddyfile_reading_ends id (before "titip" []) emptyRedis).
Defined.
