(* ===== verification/CaddyfileTypes.v ===== *)
(** * Types of what the Caddyfile readers return

    The converse of the round trip of [CaddyfileFacts]: every configuration that is read, from
    any tokens, satisfies the conditions under which it can be written.  [yields m P] says that every value of the parser [m]
    satisfies [P]. *)

From S2P Require Import Prelude GoStrings CaddyConfig Caddyfile CaddyfileFacts.
Import MemDispenser.
#[local] Open Scope caddyfile_scope.

(** ** Ranges of the numbers read *)
Lemma parse_digits_nonneg acc s n : (0 ≤ acc)%Z → parse_digits acc s = Some n → (0 ≤ n)%Z.
Proof.
  revert acc. induction s as [|c s IH]; intros acc Ha; simpl; [by intros [= <-]|].
  case_if; [|done]. apply IH. unfold digit_val.
  match goal with H : is_digit c = true |- _ => rename H into Hc end.
  unfold is_digit, in_range in Hc. apply andb_true_iff in Hc as [Hc _]. lia.
Qed.

Lemma ParseUint_range s bits n : ParseUint s bits = Some n → (0 ≤ n < 2 ^ bits)%Z.
Proof.
  unfold ParseUint. case_if; [done|]. destruct (parse_digits 0 s) as [m|] eqn:Ed; [|done].
  apply parse_digits_nonneg in Ed; [|done]. destruct (m <? 2 ^ bits)%Z eqn:L; [|done]. intros [= <-].
  apply Z.ltb_lt in L. lia.
Qed.

Lemma ParseInt_range s n : ParseInt s = Some n → in_int64 n.
Proof.
  unfold ParseInt, in_int64.
  set (p := match s with [] => _ | _ => _ end). destruct p as [neg ds]. case_if; [done|].
  destruct (parse_digits 0 ds) as [m|] eqn:Ed; [|done]. apply parse_digits_nonneg in Ed; [|done].
  destruct neg.
  - destruct (m <=? 2 ^ 63)%Z eqn:L; [|done]. intros [= <-]. apply Z.leb_le in L. lia.
  - destruct (m <? 2 ^ 63)%Z eqn:L; [|done]. intros [= <-]. apply Z.ltb_lt in L. lia.
Qed.

Section Yields.
Context {D : Type} {Disp : Dispenser D} {Mods : Modules D} (Quote : str → str).
#[local] Unset Default Proof Using.

Definition yields {A} (m : parser_of D A) (P : A → Prop) : Prop := ∀ d d' a, m d = (d', PVal a) → P a.

Lemma yields_any {A} (m : parser_of D A) : yields m (λ _, True).
Proof. done. Qed.
Lemma yields_ret {A} (a : A) (P : A → Prop) : P a → yields (p_ret a) P.
Proof. intros H d d' a' [= _ <-]. exact H. Qed.
Lemma yields_errf {A} text (P : A → Prop) : yields (p_errf text) P.
Proof. by intros d d' a [=]. Qed.
Lemma yields_arg_err {A} (P : A → Prop) : yields (λ d, (d, PErr (ArgErr d))) P.
Proof. by intros d d' a [=]. Qed.

Lemma yields_bind {A C} (m : parser_of D A) (k : A → parser_of D C) (Q : A → Prop) (P : C → Prop) :
  yields m Q → (∀ a, Q a → yields (k a) P) → yields (p_bind m k) P.
Proof.
  intros Hm Hk d d' c. unfold p_bind. destruct (m d) as [d1 [a|e|]] eqn:E; [|done|done].
  apply Hk. by eapply Hm.
Qed.

Lemma yields_then {A C} (m : parser_of D A) (k : A → parser_of D C) (P : C → Prop) :
  (∀ a, yields (k a) P) → yields (p_bind m k) P.
Proof. intros Hk. eapply yields_bind; [apply yields_any|]. intros a _. apply Hk. Qed.

Lemma yields_if {A} (b : bool) (m n : parser_of D A) P : yields m P → yields n P → yields (if b then m else n) P.
Proof. by destruct b. Qed.

Lemma yields_switch {A} v (cases : list (str * parser_of D A)) dflt P :
  Forall (λ c, yields c.2 P) cases → yields dflt P → yields (switch v cases dflt) P.
Proof. induction 1 as [|[k m] rest Hm _ IH]; intros Hd; simpl; [exact Hd|]. destruct (v =s k); [exact Hm|exact (IH Hd)]. Qed.

Lemma yields_for_block {C} level (step : C → parser_of D C) (I : C → Prop) c :
  (∀ c, I c → yields (step c) I) → I c → yields (for_block level step c) I.
Proof.
  intros Hs Hc d. unfold for_block. generalize (Datatypes.S (tokens_left d)) as fuel. intros fuel. revert c Hc d.
  induction fuel as [|fuel IH]; intros c Hc d d' a; simpl; [done|].
  apply yields_then. intros [|]; [|by apply yields_ret].
  eapply yields_bind; [by apply Hs|]. intros c' Hc' e e' x. by apply IH.
Qed.

Lemma yields_for_next {C} (body : C → parser_of D C) (I : C → Prop) c :
  (∀ c, I c → yields (body c) I) → I c → yields (for_next body c) I.
Proof.
  intros Hs Hc d. unfold for_next. generalize (Datatypes.S (tokens_left d)) as fuel. intros fuel. revert c Hc d.
  induction fuel as [|fuel IH]; intros c Hc d d' a; simpl; [done|].
  apply yields_then. intros [|]; [|by apply yields_ret].
  eapply yields_bind; [by apply Hs|]. intros c' Hc' e e' x. by apply IH.
Qed.

Lemma yields_uint bits text : yields (uint_arg Quote bits text) (λ n, 0 ≤ n < 2 ^ bits)%Z.
Proof.
  apply yields_then. intros v. destruct (ParseUint v bits) as [n|] eqn:E; [|apply yields_errf].
  apply yields_ret. by apply ParseUint_range in E.
Qed.

Lemma yields_int text : yields (int_arg Quote text) in_int64.
Proof.
  apply yields_then. intros v. destruct (ParseInt v) as [n|] eqn:E; [|apply yields_errf].
  apply yields_ret. by apply ParseInt_range in E.
Qed.

(** One directive that sets a field the invariant does not mention. *)
Ltac keeps H := apply yields_then; intros ?; apply yields_ret; exact H.
Ltac cases tac := apply yields_then; intros ?; apply yields_switch; [|apply yields_errf];
  repeat (apply Forall_cons; split; [simpl snd; first [tac|idtac]|]); [..|apply Forall_nil; done].

Lemma key_step_ok kc : key_ok kc → yields (cache_key_step Quote kc) key_ok.
Proof.
  intros H. unfold cache_key_step. cases ltac:(keeps H).
  apply yields_then. intros param. apply yields_then. intros vals.
  destruct (is_nil vals) eqn:E; [apply yields_errf|]. apply yields_ret. intros p vs. simpl.
  intros [[<- <-]|[_ Hp]]%lookup_insert_Some; [|by apply (H p)].
  intros [_ ->]%app_nil. done.
Qed.

Lemma esi_step_ok e : esi_ok e → yields (esi_step Quote e) esi_ok.
Proof.
  intros H. unfold esi_step. cases ltac:(keeps H).
  - eapply yields_bind; [apply yields_uint|]. intros n Hn. apply yields_ret. split; [|apply H].
    intros m [= <-]. exact Hn.
  - eapply yields_bind; [apply yields_int|]. intros n Hn. apply yields_ret. split; [apply H|].
    intros m [= <-]. exact Hn.
Qed.

Lemma timing_reads_ok : yields (parseServerTimingCaddyfile Quote) timing_ok.
Proof.
  unfold parseServerTimingCaddyfile. apply yields_then. intros ok. apply yields_if.
  { apply yields_ret. exists true. auto. }
  apply yields_then. intros arg. apply yields_if.
  - apply yields_then. intros ok1. apply yields_if; [apply yields_errf|].
    apply yields_then. intros name. apply yields_then. intros ok2. apply yields_if; [apply yields_errf|].
    apply yields_then. intros value. apply yields_ret. exists true. auto.
  - apply yields_then. intros b. apply yields_ret. exists b. auto.
Qed.

Lemma empty_key_ok : key_ok emptyKey.
Proof. intros p vs H. simpl in H. by rewrite lookup_empty in H. Qed.
Lemma empty_esi_ok : esi_ok emptyESI.
Proof. by split. Qed.

(** The conditions of [handler_ok] and [app_ok], whatever the storage module is. *)
Definition settings_ok (k : option KeyConfig) (e : option ESIConfig) (st : option ServerTimingConfig) : Prop :=
  (∀ x, k = Some x → key_ok x) ∧ (∀ x, e = Some x → esi_ok x) ∧ (∀ x, st = Some x → timing_ok x).
Definition handler_typed (h : Handler) : Prop := settings_ok (hd_CacheKey h) (hd_ESI h) (hd_ServerTiming h).
Definition app_typed (a : App) : Prop := settings_ok (app_CacheKey a) (app_ESI a) (app_ServerTiming a).

Definition redis_typed (r : RedisStorage) : Prop :=
  Forall (λ a, a ≠ []) (rs_Address r) ∧ (rs_dbSet r = false → rs_DB r = 0%Z) ∧
  (0 ≤ rs_DB r < 2 ^ 63)%Z ∧ (0 ≤ rs_PipelineMultiplex r < 2 ^ 63)%Z.

Lemma handler_step_ok h : handler_typed h → yields (handler_step Quote h) handler_typed.
Proof.
  intros H. pose proof H as (Hk & He & Hst). unfold handler_step. cases ltac:(keeps H).
  - eapply yields_bind; [apply yields_for_block; [apply key_step_ok|]|].
    + destruct (hd_CacheKey h); [by apply Hk|apply empty_key_ok].
    + intros k Hok. apply yields_ret. split_and!; [by intros x [= <-]|done|done].
  - eapply yields_bind; [apply yields_for_block; [apply esi_step_ok|]|].
    + destruct (hd_ESI h); [by apply He|apply empty_esi_ok].
    + intros e Hok. apply yields_ret. split_and!; [done|by intros x [= <-]|done].
  - eapply yields_bind; [apply timing_reads_ok|].
    intros st Hok. apply yields_ret. split_and!; [done|done|by intros x [= <-]].
Qed.

Lemma app_step_ok a : app_typed a → yields (app_step Quote a) app_typed.
Proof.
  intros H. pose proof H as (Hk & He & Hst). unfold app_step. cases ltac:(keeps H).
  - eapply yields_bind; [apply yields_for_block; [apply key_step_ok|apply empty_key_ok]|].
    intros k Hok. apply yields_ret. split_and!; [by intros x [= <-]|done|done].
  - eapply yields_bind; [apply yields_for_block; [apply esi_step_ok|apply empty_esi_ok]|].
    intros e Hok. apply yields_ret. split_and!; [done|by intros x [= <-]|done].
  - eapply yields_bind; [apply timing_reads_ok|].
    intros st Hok. apply yields_ret. split_and!; [done|done|by intros x [= <-]].
Qed.

Lemma address_list_nonempty args : Forall (λ a, a ≠ []) (address_list args).
Proof.
  apply Forall_forall. intros a Ha. unfold address_list in Ha.
  apply list_elem_of_bind in Ha as (arg & Ha & _). by apply list_elem_of_filter in Ha as [Ha _].
Qed.

Lemma redis_step_ok r : redis_typed r → yields (redis_block_step Quote r) redis_typed.
Proof.
  intros H. pose proof H as (Ha & Hset & Hdb & Hpm). unfold redis_block_step. cases ltac:(keeps H).
  - apply yields_then. intros s. apply yields_if; [by apply yields_ret|apply yields_errf].
  - apply yields_then. intros args. apply yields_if; [apply yields_arg_err|]. apply yields_ret.
    split; [|exact (conj Hset (conj Hdb Hpm))]. simpl. apply Forall_app. split; [done|apply address_list_nonempty].
  - eapply yields_bind; [apply yields_int|]. intros n Hn. destruct (n <? 0)%Z eqn:E; [apply yields_errf|].
    apply Z.ltb_ge in E. unfold in_int64 in Hn. apply yields_ret. split_and!; [done|done|simpl; lia..].
  - eapply yields_bind; [apply yields_int|]. intros n Hn. destruct (n <? 0)%Z eqn:E; [apply yields_errf|].
    apply Z.ltb_ge in E. unfold in_int64 in Hn. apply yields_ret. split_and!; [done|done|simpl; lia..].
Qed.

(** C40: What a Caddyfile reader returns is well typed, whatever tokens it read: the depth limit of the ESI
    block fits its [uint32], the other numbers fit an [int64], database numbers and
    multiplexing degrees are not negative, a database number that was not given is zero, no address is
    empty, no query parameter is listed without values, and a disabled [server_timing] names
    no cookie. *)
Theorem caddyfile_values_typed d :
  (∀ d' h, parseCaddyfile Quote d = (d', PVal h) → handler_typed h) ∧
  (∀ d' a, parseGlobalOption Quote d = (d', PVal a) → app_typed a) ∧
  (∀ d' r, redis_UnmarshalCaddyfile Quote emptyRedis d = (d', PVal r) → redis_typed r).
Proof.
  unfold parseCaddyfile, UnmarshalCaddyfile, parseGlobalOption, redis_UnmarshalCaddyfile.
  split_and!; intros d'; apply yields_for_next; try (intros c Hc; apply yields_for_block; [|exact Hc]).
  - apply handler_step_ok.
  - done.
  - apply app_step_ok.
  - done.
  - apply redis_step_ok.
  - split_and!; done.
Qed.
End Yields.

(** ** Witness *)
Definition deep_site : MemDispenser.state :=
  before "titip" [Line (B "esi") [] (Some [Line (B "max_depth") [B "4294967295"] None])].
Definition deep_handler : Handler := hd_set_ESI (Some (ec_set_MaxDepth (Some 4294967295%Z) emptyESI)) emptyHandler.

Lemma caddyfile_values_typed_witness :
  (parseCaddyfile id deep_site).2 = PVal deep_handler ∧ handler_typed deep_handler.
Proof.
  assert (H : (parseCaddyfile id deep_site).2 = PVal deep_handler) by (vm_compute; reflexivity).
  split; [exact H|]. apply (proj1 (caddyfile_values_typed id deep_site) (parseCaddyfile id deep_site).1).
  rewrite <- H. destruct (parseCaddyfile id deep_site). reflexivity.
Defined.
