(* ===== verification/CaddyProps.v ===== *)
(** * Properties of provisioning

    Which setting wins: a site's, then the global block's, then the default
    ([provision_precedence], [merged_key_blocks]), where the ESI settings do not follow that rule
    ([esi_global_switch_is_final], [esi_disabled_is_enabled]), and when the Redis module is
    accepted ([redis_provision_iff]). *)

From S2P Require Import Prelude GoStrings GoHttp Env Headers CacheKey Scanner Esi Compress Config RedisStore CaddyConfig Caddyfile CaddyProvision.
#[local] Open Scope Z_scope.

Section Facts.
Context {U : GoUnicode}.
Context (duration_String : Z → str) (Quote : str → str) (lz4 zstd : Compressor).
Context (ParseDuration : str → result Z) (ParseBytes : str → result Z).
#[local] Unset Default Proof Using.
Abbreviation options_of := (provision_options duration_String Quote ParseDuration ParseBytes).
Abbreviation run label opts c := (apply_options label (Some <$> opts) c).

(** ** Running options in segments *)
Lemma run_app {C} label (l1 l2 : list (C → checked C)) c :
  run label (l1 ++ l2) c = match run label l1 c with Valid c' => run label l2 c' | Invalid e => Invalid e end.
Proof.
  revert c. induction l1 as [|o l1 IH]; intros c; [done|]. simpl. destruct (o c); [apply IH|done].
Qed.

Lemma run_app_Valid {C} label (l1 l2 : list (C → checked C)) c c2 :
  run label (l1 ++ l2) c = Valid c2 → ∃ c1, run label l1 c = Valid c1 ∧ run label l2 c1 = Valid c2.
Proof. rewrite run_app. destruct (run label l1 c) as [c1|]; [eauto|done]. Qed.

Lemma run_one {C} label (o : C → checked C) c c' : run label [o] c = Valid c' → o c = Valid c'.
Proof. simpl. destruct (o c); [by intros [= ->]|done]. Qed.

Lemma run_when {C} label b (o : C → checked C) c c' :
  run label (when b o) c = Valid c' → if b then o c = Valid c' else c' = c.
Proof. destruct b; [apply run_one|]. by intros [= ->]. Qed.

(** ** The settings that reach the configuration *)
Definition setting {A} (route : Handler → option A) (global : App → option A) (h : Handler) (app : option App) : option A :=
  match route h with Some v => Some v | None => app_get app global None end.
Definition text_setting (route : Handler → str) (global : App → str) (h : Handler) (app : option App) : str :=
  if is_nil (route h) then app_get app global [] else route h.

(** A duration setting, or the default. *)
Definition duration_is (text : str) (dflt value : Z) : Prop :=
  if is_nil text then value = dflt else ParseDuration text = Ok value.

Lemma duration_seg {C} label name text (opt : Z → C → checked C) opts (get : C → Z) (set : Z → C → C) c c' :
  duration_option Quote ParseDuration name text opt = Ok opts → run label opts c = Valid c' →
  (∀ d c', opt d c = Valid c' → c' = set d c) → set (get c) c = c →
  ∃ v, duration_is text (get c) v ∧ c' = set v c.
Proof.
  unfold duration_option, duration_is. destruct (is_nil text); [intros [= <-] [= <-]; eauto|].
  destruct (ParseDuration text) as [d|]; [|done]. intros [= <-] Hr%run_one Ho _. exists d. auto.
Qed.

(** What two blocks say of a field: the site's word, else the global one's. *)
Definition of_blocks {T A} (site global : option T) (f : T → option A) : option A :=
  match site ≫= f with Some v => Some v | None => global ≫= f end.
Definition nonempty {A} (l : list A) : option (list A) := if is_nil l then None else Some l.
(** One of the blocks says [v] of a switch. *)
Definition either {T} (site global : option T) (f : T → option bool) (v : bool) : bool :=
  bool_decide (site ≫= f = Some v) || bool_decide (global ≫= f = Some v).

(** What a [cache_key] block says of the whole query: that it is out, that it is in, or, by listing
    parameters, that it is in. *)
Definition query_out (b : KeyConfig) : option bool :=
  match kc_ExcludeQuery b with
  | Some v => Some v
  | None => if is_nil (kc_IncludedQueryParams b) && bool_decide (kc_IncludedQueryParamValues b = ∅) then None else Some false
  end.

(** The cache key rules of a site, field by field; the accepted values are per parameter. *)
Definition key_of_blocks (site global : option KeyConfig) (k : CacheKey) : Prop :=
  let flag f := default false (of_blocks site global f) in
  let names (f : KeyConfig → list str) := default [] (of_blocks site global (λ b, nonempty (f b))) in
  IncludeProtocol k = flag kc_IncludeProtocol ∧
  ExcludeHost k = flag kc_ExcludeHost ∧
  ExcludeQuery k = flag query_out ∧
  PreserveQueryOrder k = flag kc_PreserveQueryOrder ∧
  IncludedQueryParams k = names kc_IncludedQueryParams ∧
  ExcludedQueryParams k = names kc_ExcludedQueryParams ∧
  ExcludeMarketingQueryParams k = flag kc_ExcludeMarketingQueryParams ∧
  IncludedHeaderNames k = names kc_IncludedHeaderNames ∧
  IncludedCookieNames k = names kc_IncludedCookieNames ∧
  CaseInsensitivePath k = flag kc_CaseInsensitivePath ∧
  ∀ p, IncludedQueryParamValues k !! p = of_blocks site global (λ b, kc_IncludedQueryParamValues b !! p).

(** A size setting, as the [int64] that the code makes of it, or the default. *)
Definition size_is (text : str) (dflt value : Z) : Prop :=
  if is_nil text then value = dflt else ∃ n, ParseBytes text = Ok n ∧ value = wrap64 n.

(** The ESI processor of a site: the limits, the hosts and the marker field by field; a switch is
    thrown when one of the blocks throws it. *)
Definition esi_of_blocks (site global : option ESIConfig) (c : esiConfig) : Prop :=
  let text (f : ESIConfig → str) := default [] (of_blocks site global (λ b, nonempty (f b))) in
  maxDepth c = default 3 (of_blocks site global ec_MaxDepth) ∧
  duration_is (text ec_MaxTimeout) (30 * Second) (maxTimeout c) ∧
  maxConcurrentRequests c = default 8 (of_blocks site global ec_MaxConcurrentRequests) ∧
  allowedHosts c = default [] (of_blocks site global (λ b, nonempty (ec_AllowedHosts b))) ∧
  size_is (text ec_MaxResponseSize) (10 * 1024 * 1024) (maxResponseSize c) ∧
  includeErrorMarker c = text ec_ErrorMarker ∧
  requireSurrogateControl c = negb (either site global ec_RequireSurrogateControl false) ∧
  allowPrivateIPs c = either site global ec_BlockPrivateIPs false ∧
  allowPrivateIPsForAllowedHosts c = either site global ec_AllowPrivateIPsForAllowedHosts true ∧
  disableForwardCookies c = either site global ec_ForwardFragmentCookies false ∧
  preserveETag c = either site global ec_PreserveETag true.

(** The mode that a text names, in any case; nothing is "simple". *)
Definition named_mode (text : str) : option CacheStatusMode :=
  let m := ToLower text in
  if (m =s B "simple") || is_nil m then Some CacheStatusSimple
  else if m =s B "rfc9211" then Some CacheStatusRFC9211
  else if m =s B "none" then Some CacheStatusNone else None.

Lemma status_seg text opt c c' :
  cache_status_option Quote text = Ok opt → opt c = Valid c' →
  ∃ m, named_mode text = Some m ∧ c' = set_cacheStatusMode m c.
Proof.
  unfold cache_status_option, named_mode. simpl. destruct (ToLower text =s B "simple") eqn:E1; simpl.
  { intros [= <-] [= <-]. eauto. }
  destruct (ToLower text =s []) eqn:E2; simpl.
  { apply str_eqb_eq in E2. rewrite E2. simpl. intros [= <-] [= <-]. eauto. }
  assert (is_nil (ToLower text) = false) as -> by (apply is_nil_false; intros H; rewrite H in E2; done).
  destruct (ToLower text =s B "rfc9211"); [intros [= <-] [= <-]; eauto|].
  destruct (ToLower text =s B "none"); [intros [= <-] [= <-]; eauto|done].
Qed.

(** What a server timing setting means. *)
Definition timing_of (st : option ServerTimingConfig) : serverTimingConfig :=
  match st with
  | Some st =>
      if default true (st_Enabled st) then
        if is_nil (st_CookieName st) then mkTiming true [] []
        else mkTiming true (TrimSpace (st_CookieName st)) (TrimSpace (st_CookieValue st))
      else mkTiming false [] []
  | None => mkTiming false [] []
  end.

(** The whole configuration, from the settings and the durations that they name. *)
Definition expected (h : Handler) (app : option App) (mode : CacheStatusMode) (background storage : Z)
    (esi : option (list (option esi_Option))) : config :=
  let compression := text_setting hd_StorageCompression app_StorageCompression h app in
  mkConfig storage
    (if is_nil compression then StorageCompressionLZ4 else ToLower (TrimSpace compression))
    (compressors (defaultConfig lz4 zstd))
    (default zeroCacheKey (merged_key app h))
    (if is_nil (hd_TagHeader h) then headerCacheTag else TrimSpace (hd_TagHeader h))
    mode
    (default false (setting hd_RespectClientCacheControl app_RespectClientCacheControl h app))
    (default true (setting hd_ConvertHeadToGet app_ConvertHeadToGet h app))
    (default false (setting hd_AutoInvalidateMutatingMethods app_AutoInvalidateMutatingMethods h app))
    background esi
    (timing_of (setting hd_ServerTiming app_ServerTiming h app)).

Lemma coalesce_setting {A} (route : Handler → option A) global h app :
  coalesce [route h; app_get app global None] = setting route global h app.
Proof. unfold setting. destruct (route h); [done|]. simpl. by destruct (app_get app global None). Qed.

Lemma given_true v : given v true = default false v.
Proof. by destruct v as [[]|]. Qed.
Lemma given_false v : given v false = negb (default true v).
Proof. by destruct v as [[]|]. Qed.

Lemma esi_seg label app h opts c c' :
  esi_option duration_String Quote ParseDuration ParseBytes app h = Ok opts → run label opts c = Valid c' → esiOptions c = None →
  (opts = [] ∧ app_get app app_ESI None = None ∧ hd_ESI h = None ∧ c' = c) ∨
  (∃ ao ro, apply_esi_opt duration_String Quote ParseDuration ParseBytes (app_get app app_ESI None) = Ok ao ∧
            apply_esi_opt duration_String Quote ParseDuration ParseBytes (hd_ESI h) = Ok ro ∧
            (is_Some (app_get app app_ESI None) ∨ is_Some (hd_ESI h)) ∧
            c' = set_esiOptions (Some (Some <$> ao ++ ro ++ [internal_fetcher_option])) c).
Proof.
  intros Ho Hr Hc. unfold esi_option in Ho.
  assert (∀ l : list esi_Option, existsb (λ o : option esi_Option, match o with None => true | Some _ => false end) (Some <$> l) = false) as Hn
    by (induction l; done).
  assert (∀ l, opts = [WithESI (Some <$> l)] → c' = set_esiOptions (Some (Some <$> l)) c) as Hw.
  { intros l ->. apply run_one in Hr. unfold WithESI in Hr. rewrite Hn, Hc in Hr. by injection Hr as <-. }
  destruct (app_get app app_ESI None) as [a|], (hd_ESI h) as [r|]; cbn [apply_esi_opt] in *.
  - right. destruct (applyESIConfig _ _ _ _ a) as [ao|]; [|done]. destruct (applyESIConfig _ _ _ _ r) as [ro|]; [|done].
    injection Ho as <-. exists ao, ro. eauto 8.
  - right. destruct (applyESIConfig _ _ _ _ a) as [ao|]; [|done]. injection Ho as <-. exists ao, []. eauto 8.
  - right. destruct (applyESIConfig _ _ _ _ r) as [ro|]; [|done]. injection Ho as <-. exists [], ro. eauto 8.
  - left. injection Ho as <-. injection Hr as <-. done.
Qed.

Lemma timing_seg label st c c' :
  run label (timing_option st) c = Valid c' → serverTiming c = mkTiming false [] [] → c' = set_serverTiming (timing_of st) c.
Proof.
  intros Hr Hc. assert (set_serverTiming (mkTiming false [] []) c = c) as Hs by (rewrite <- Hc; by destruct c).
  unfold timing_option, timing_of in *. destruct st as [st|]; [|injection Hr as <-; done].
  destruct (default true (st_Enabled st)); [|injection Hr as <-; done].
  destruct (is_nil (st_CookieName st)); apply run_one in Hr.
  - unfold WithServerTiming in Hr. rewrite Hc in Hr. by injection Hr as <-.
  - unfold WithServerTimingCookie in Hr. destruct (is_nil _ || is_nil _); [done|]. by injection Hr as <-.
Qed.

Lemma when_seg {C A} label b (o : C → checked C) (get : C → A) (set : A → C → C) v c c' :
  run label (when b o) c = Valid c' → (∀ c', o c = Valid c' → c' = set v c) → set (get c) c = c →
  c' = set (if b then v else get c) c.
Proof. intros Hr%run_when Ho Hg. destruct b; [by apply Ho|by rewrite Hg]. Qed.

Lemma compression_valid name c c' :
  WithStorageCompression name c = Valid c' → c' = set_storageCompression (ToLower (TrimSpace name)) c.
Proof. unfold WithStorageCompression. destruct (is_nil _); [done|]. by intros [= <-]. Qed.

Lemma tag_valid name c c' : WithTagHeader name c = Valid c' → c' = set_tagHeaderName (TrimSpace name) c.
Proof. unfold WithTagHeader. destruct (is_nil _); [done|]. by intros [= <-]. Qed.

Lemma background_valid d c c' :
  WithBackgroundFetchTimeout duration_String d c = Valid c' → c' = set_backgroundFetchTimeout d c.
Proof. unfold WithBackgroundFetchTimeout. destruct (d <? 0); [done|]. by intros [= <-]. Qed.

Lemma storage_valid d c c' : WithStorageTimeout duration_String d c = Valid c' → c' = set_storageTimeout d c.
Proof. unfold WithStorageTimeout. destruct (d <=? 0); [done|]. by intros [= <-]. Qed.

Lemma key_seg label k c c' :
  run label (match k with Some k => [WithCacheKey k] | None => [] end) c = Valid c' →
  c' = set_cacheKey (match k with Some k => k | None => cacheKey c end) c.
Proof. destruct k as [k|]; simpl; intros [= <-]; [done|]. by destruct c. Qed.

Lemma if_negb {A} (b : bool) (x y : A) : (if negb b then x else y) = (if b then y else x).
Proof. by destruct b. Qed.

Ltac next_seg H c Hr := apply run_app_Valid in H as (c & Hr & H).
(** Replace a configuration by the structure that the assignment [set] makes. *)
Ltac plain set Hc := unfold set in Hc; cbn in Hc; match type of Hc with ?c = _ => subst c end.

Lemma provisioned_config h app opts cfg :
  options_of h app = Ok opts → run ErrInvalidOption opts (defaultConfig lz4 zstd) = Valid cfg →
  ∃ mode background storage esi,
    named_mode (text_setting hd_CacheStatus app_CacheStatus h app) = Some mode ∧
    duration_is (text_setting hd_BackgroundFetchTimeout app_BackgroundFetchTimeout h app) (125 * Second) background ∧
    duration_is (text_setting hd_StorageTimeout app_StorageTimeout h app) (5 * Second) storage ∧
    (esi = None ∧ app_get app app_ESI None = None ∧ hd_ESI h = None ∨
     ∃ ao ro, apply_esi_opt duration_String Quote ParseDuration ParseBytes (app_get app app_ESI None) = Ok ao ∧
              apply_esi_opt duration_String Quote ParseDuration ParseBytes (hd_ESI h) = Ok ro ∧
              (is_Some (app_get app app_ESI None) ∨ is_Some (hd_ESI h)) ∧
              esi = Some (Some <$> ao ++ ro ++ [internal_fetcher_option])) ∧
    cfg = expected h app mode background storage esi.
Proof.
  unfold provision_options. rewrite !coalesce_setting, !given_true, given_false.
  destruct (cache_status_option _ _) as [status|] eqn:Es; [|done].
  destruct (duration_option _ _ _ _ (WithBackgroundFetchTimeout _)) as [bg|] eqn:Eb; [|done].
  destruct (duration_option _ _ _ _ (WithStorageTimeout _)) as [stg|] eqn:Et; [|done].
  destruct (esi_option _ _ _ _ app h) as [eo|] eqn:Ee; [|done]. intros [= <-] H.
  unfold defaultConfig in H.
  apply (run_app_Valid _ [status]) in H as (c1 & Hr & H). apply run_one in Hr. destruct (status_seg _ _ _ _ Es Hr) as (mode & Hmode & Hc). plain set_cacheStatusMode Hc. clear Hr.
  next_seg H c2 Hr1. eapply (when_seg _ _ _ storageCompression set_storageCompression) in Hr1 as Hc;
    [|apply compression_valid|done]. plain set_storageCompression Hc.
  next_seg H c3 Hr2. apply (when_seg _ _ _ respectClientCacheControl set_respectClientCacheControl true) in Hr2 as Hc;
    [|by intros ? [= <-]|done]. plain set_respectClientCacheControl Hc.
  next_seg H c4 Hr3. apply (when_seg _ _ _ autoInvalidateMutatingMethods set_autoInvalidateMutatingMethods true) in Hr3 as Hc;
    [|by intros ? [= <-]|done]. plain set_autoInvalidateMutatingMethods Hc.
  next_seg H c5 Hr4. apply (when_seg _ _ _ convertHeadToGet set_convertHeadToGet false) in Hr4 as Hc;
    [|by intros ? [= <-]|done]. plain set_convertHeadToGet Hc.
  next_seg H c6 Hr5. destruct (duration_seg _ _ _ _ _ backgroundFetchTimeout set_backgroundFetchTimeout _ _ Eb Hr5)
    as (background & Hbg & Hc); [intros ? ?; apply background_valid|done|]. plain set_backgroundFetchTimeout Hc.
  next_seg H c7 Hr6. destruct (duration_seg _ _ _ _ _ storageTimeout set_storageTimeout _ _ Et Hr6)
    as (storage & Hstg & Hc); [intros ? ?; apply storage_valid|done|]. plain set_storageTimeout Hc.
  next_seg H c8 Hr7. eapply (when_seg _ _ _ tagHeaderName set_tagHeaderName) in Hr7 as Hc; [|apply tag_valid|done]. plain set_tagHeaderName Hc.
  next_seg H c9 Hr8. apply key_seg in Hr8 as Hc. plain set_cacheKey Hc.
  next_seg H c10 Hr9. apply timing_seg in H as Hc.
  2: { destruct (esi_seg _ _ _ _ _ _ Ee Hr9 eq_refl) as [(_ & _ & _ & ->)|(? & ? & _ & _ & _ & ->)]; done. }
  exists mode, background, storage.
  destruct (esi_seg _ _ _ _ _ _ Ee Hr9 eq_refl) as [(_ & Ha & Hh & Hc10)|(ao & ro & Ha & Hh & Hs & Hc10)];
    cbn in Hc10; subst; [exists None|exists (Some (Some <$> ao ++ ro ++ [internal_fetcher_option]))];
    (split; [exact Hmode|]; split; [exact Hbg|]; split; [exact Hstg|]; split; [eauto 9|]);
    unfold expected, text_setting, cmp_Or; rewrite !if_negb;
    by repeat match goal with |- context [default ?x (setting ?f ?g h app)] => destruct (setting f g h app) as [[]|] end.
Qed.

Lemma New_run opts cfg e :
  titip_New lz4 zstd Quote (Some <$> opts) = Valid (cfg, e) →
  run ErrInvalidOption opts (defaultConfig lz4 zstd) = Valid cfg ∧
  match esiOptions cfg with
  | None => e = None
  | Some eo => ∃ ec, NewProcessor eo = Valid ec ∧ e = Some ec
  end.
Proof.
  unfold titip_New. destruct (run ErrInvalidOption opts (defaultConfig lz4 zstd)) as [c|]; [|done].
  destruct (compressors c !! storageCompression c); [|done]. destruct (esiOptions c) as [eo|] eqn:Ee.
  - destruct (NewProcessor eo) as [ec|] eqn:Ep; [|done]. intros [= <- <-]. rewrite Ee. eauto.
  - intros [= <- <-]. by rewrite Ee.
Qed.

(** ** ESI options *)
Inductive esi_known : esi_Option → Prop :=
  | ek_surrogate : esi_known EsiOptions.WithoutSurrogateControlRequirement
  | ek_depth d : esi_known (EsiOptions.WithMaxDepth d)
  | ek_timeout d : esi_known (EsiOptions.WithMaxTimeout duration_String d)
  | ek_concurrent n : esi_known (EsiOptions.WithMaxConcurrentRequests n)
  | ek_private : esi_known EsiOptions.WithAllowPrivateIPs
  | ek_hosts hs : esi_known (EsiOptions.WithAllowedHosts hs)
  | ek_private_hosts : esi_known EsiOptions.WithAllowPrivateIPsForAllowedHosts
  | ek_size z : esi_known (EsiOptions.WithMaxResponseSize z)
  | ek_cookies : esi_known EsiOptions.WithoutForwardCookies
  | ek_etag : esi_known EsiOptions.WithPreserveETag
  | ek_marker m : esi_known (EsiOptions.WithIncludeErrorMarker m)
  | ek_fetcher : esi_known internal_fetcher_option.
Hint Constructors esi_known : titip.

(** What an option may not take back once it is set. *)
Definition kept (c c' : esiConfig) : Prop :=
  (allowPrivateIPs c = true → allowPrivateIPs c' = true) ∧
  (requireSurrogateControl c = false → requireSurrogateControl c' = false) ∧
  (disableForwardCookies c = true → disableForwardCookies c' = true) ∧
  (preserveETag c = true → preserveETag c' = true) ∧
  (allowPrivateIPsForAllowedHosts c = true → allowPrivateIPsForAllowedHosts c' = true).

Lemma known_keeps o c c' : esi_known o → o c = Valid c' → kept c c'.
Proof.
  destruct 1; unfold EsiOptions.WithMaxDepth, EsiOptions.WithMaxTimeout, EsiOptions.WithMaxConcurrentRequests,
    EsiOptions.WithAllowedHosts, EsiOptions.WithMaxResponseSize; try (intros [= <-]; by repeat split);
    case_match; try done; intros [= <-]; by repeat split.
Qed.

Lemma known_run_keeps label l c c' : Forall esi_known l → run label l c = Valid c' → kept c c'.
Proof.
  intros Hl. revert c. induction Hl as [|o l Ho _ IH]; intros c; simpl; [intros [= <-]; by repeat split|].
  destruct (o c) as [c1|] eqn:E; [|done]. intros Hr%IH. apply known_keeps in E; [|done].
  unfold kept in *. naive_solver.
Qed.

Lemma Forall_when {A} (P : A → Prop) b x : P x → Forall P (when b x).
Proof. destruct b; by repeat constructor. Qed.

Lemma timeout_known text l :
  duration_option Quote ParseDuration (B "esi max_timeout") text (EsiOptions.WithMaxTimeout duration_String) = Ok l →
  Forall esi_known l.
Proof.
  unfold duration_option. destruct (is_nil text); [by intros [= <-]|]. destruct (ParseDuration text); [|done].
  intros [= <-]. repeat constructor.
Qed.

Lemma size_known text l : size_option Quote ParseBytes text = Ok l → Forall esi_known l.
Proof.
  unfold size_option. destruct (is_nil text); [by intros [= <-]|]. destruct (ParseBytes text); [|done].
  intros [= <-]. repeat constructor.
Qed.

Lemma apply_known src l : applyESIConfig duration_String Quote ParseDuration ParseBytes src = Ok l → Forall esi_known l.
Proof.
  unfold applyESIConfig. destruct (duration_option _ _ _ _ _) as [timeout|] eqn:E1; [|done]. apply timeout_known in E1.
  destruct (size_option _ _ _) as [size|] eqn:E2; [|done]. apply size_known in E2. intros [= <-].
  rewrite !Forall_app. destruct (ec_MaxDepth src), (ec_MaxConcurrentRequests src);
    repeat match goal with |- _ ∧ _ => split end; try apply Forall_when; auto with titip; repeat constructor.
Qed.

Lemma apply_esi_opt_known src l :
  apply_esi_opt duration_String Quote ParseDuration ParseBytes src = Ok l → Forall esi_known l.
Proof. destruct src as [src|]; [apply apply_known|]. by intros [= <-]. Qed.

(** An option that is among those run has its effect at the end, when the others keep it. *)
Lemma run_effect label (Q : esiConfig → Prop) o l c c' :
  o ∈ l → Forall esi_known l → (∀ c c', o c = Valid c' → Q c') → (∀ c c', kept c c' → Q c → Q c') →
  run label l c = Valid c' → Q c'.
Proof.
  intros (l1 & l2 & ->)%list_elem_of_split Hk Ho Hkeep Hr. apply Forall_app in Hk as [_ [_ Hk]%Forall_cons].
  apply run_app_Valid in Hr as (c1 & _ & Hr). simpl in Hr. destruct (o c1) as [c2|] eqn:E; [|done].
  apply known_run_keeps in Hr; [|done]. eauto.
Qed.

Lemma applied_effect src l label c c' :
  applyESIConfig duration_String Quote ParseDuration ParseBytes src = Ok l → run label l c = Valid c' →
  (ec_BlockPrivateIPs src = Some false → allowPrivateIPs c' = true) ∧
  (ec_RequireSurrogateControl src = Some false → requireSurrogateControl c' = false) ∧
  (ec_ForwardFragmentCookies src = Some false → disableForwardCookies c' = true) ∧
  (ec_PreserveETag src = Some true → preserveETag c' = true) ∧
  (ec_AllowPrivateIPsForAllowedHosts src = Some true → allowPrivateIPsForAllowedHosts c' = true).
Proof.
  intros Hl Hr. pose proof (apply_known _ _ Hl) as Hk. unfold applyESIConfig in Hl.
  destruct (duration_option _ _ _ _ _) as [timeout|]; [|done]. destruct (size_option _ _ _) as [size|]; [|done].
  injection Hl as <-. unfold kept in *.
  split; [|split; [|split; [|split]]]; intros Hs;
    [eapply (run_effect _ (λ c, allowPrivateIPs c = true) EsiOptions.WithAllowPrivateIPs)
    |eapply (run_effect _ (λ c, requireSurrogateControl c = false) EsiOptions.WithoutSurrogateControlRequirement)
    |eapply (run_effect _ (λ c, disableForwardCookies c = true) EsiOptions.WithoutForwardCookies)
    |eapply (run_effect _ (λ c, preserveETag c = true) EsiOptions.WithPreserveETag)
    |eapply (run_effect _ (λ c, allowPrivateIPsForAllowedHosts c = true) EsiOptions.WithAllowPrivateIPsForAllowedHosts)];
    try exact Hr; try exact Hk; try (by intros ? ? [= <-]); try (unfold kept; naive_solver);
    rewrite Hs; cbn [given Bool.eqb when]; repeat (rewrite ?elem_of_app; first [left; set_solver | right]); set_solver.
Qed.

(** ** Which setting wins *)

Lemma default_blocks {T A} (site global : option T) (f : T → option A) d :
  default d (of_blocks site global f) = default (default d (global ≫= f)) (site ≫= f).
Proof. unfold of_blocks. by destruct (site ≫= f). Qed.

Lemma replace_default {A} (l t : list A) : (if is_nil l then t else l) = default t (nonempty l).
Proof. unfold nonempty. by destruct (is_nil l). Qed.

Lemma query_default b t :
  match kc_ExcludeQuery b with
  | Some v => v
  | None => if negb (is_nil (kc_IncludedQueryParams b)) || negb (bool_decide (kc_IncludedQueryParamValues b = ∅)) then false else t
  end = default t (query_out b).
Proof. unfold query_out. destruct (kc_ExcludeQuery b); [done|]. by rewrite <- negb_andb, if_negb; destruct (_ && _). Qed.

(** The code's merge of the cache key rules is the field-by-field one. *)
Lemma merged_key_blocks app h :
  key_of_blocks (hd_CacheKey h) (app_get app app_CacheKey None) (default zeroCacheKey (merged_key app h)).
Proof.
  unfold merged_key, key_of_blocks. rewrite !default_blocks.
  destruct (app_get app app_CacheKey None) as [a|], (hd_CacheKey h) as [r|]; unfold applyCacheKey;
    rewrite ?replace_default, ?query_default; repeat (split; [done|]); intros p; unfold of_blocks; simpl;
    rewrite ?lookup_union, ?lookup_empty; by repeat destruct (_ !! p).
Qed.

(** What the options of one ESI block make of a configuration. *)
Definition applied (src : ESIConfig) (c c' : esiConfig) : Prop :=
  maxDepth c' = default (maxDepth c) (ec_MaxDepth src) ∧
  duration_is (ec_MaxTimeout src) (maxTimeout c) (maxTimeout c') ∧
  maxConcurrentRequests c' = default (maxConcurrentRequests c) (ec_MaxConcurrentRequests src) ∧
  allowedHosts c' = default (allowedHosts c) (nonempty (ec_AllowedHosts src)) ∧
  size_is (ec_MaxResponseSize src) (maxResponseSize c) (maxResponseSize c') ∧
  includeErrorMarker c' = default (includeErrorMarker c) (nonempty (ec_ErrorMarker src)) ∧
  requireSurrogateControl c' = requireSurrogateControl c && negb (given (ec_RequireSurrogateControl src) false) ∧
  allowPrivateIPs c' = allowPrivateIPs c || given (ec_BlockPrivateIPs src) false ∧
  allowPrivateIPsForAllowedHosts c' = allowPrivateIPsForAllowedHosts c || given (ec_AllowPrivateIPsForAllowedHosts src) true ∧
  disableForwardCookies c' = disableForwardCookies c || given (ec_ForwardFragmentCookies src) false ∧
  preserveETag c' = preserveETag c || given (ec_PreserveETag src) true.

(** The settings of the ESI processor, from the options of both blocks. *)
Lemma provisioned_esi h app opts cfg ec :
  options_of h app = Ok opts → titip_New lz4 zstd Quote (Some <$> opts) = Valid (cfg, Some ec) →
  ∃ ao ro, apply_esi_opt duration_String Quote ParseDuration ParseBytes (app_get app app_ESI None) = Ok ao ∧
           apply_esi_opt duration_String Quote ParseDuration ParseBytes (hd_ESI h) = Ok ro ∧
           run (B "esi: invalid option") (ao ++ ro ++ [internal_fetcher_option]) defaultEsiConfig = Valid ec.
Proof.
  intros Ho Hn. destruct (New_run _ _ _ Hn) as [Hr He].
  destruct (provisioned_config _ _ _ _ Ho Hr) as (mode & bg & stg & esi & _ & _ & _ & Hesi & ->).
  cbn in He. destruct Hesi as [(-> & _)|(ao & ro & Ha & Hro & _ & ->)]; [done|].
  destruct He as (ec' & Hp & [= <-]). eauto.
Qed.

Lemma opt_seg {C A} label (opt : A → C → checked C) (get : C → A) (set : A → C → C) o c c' :
  run label (match o with Some d => [opt d] | None => [] end) c = Valid c' →
  (∀ d c', opt d c = Valid c' → c' = set d c) → set (get c) c = c → c' = set (default (get c) o) c.
Proof. destruct o as [d|]; [intros Hr%run_one Ho _; by apply Ho|intros [= <-] _ Hg; by symmetry]. Qed.

Lemma size_seg label text opts c c' :
  size_option Quote ParseBytes text = Ok opts → run label opts c = Valid c' →
  ∃ v, size_is text (maxResponseSize c) v ∧ c' = esi_set_maxResponseSize v c.
Proof.
  unfold size_option, size_is. destruct (is_nil text); [intros [= <-] [= <-]; exists (maxResponseSize c); by destruct c|].
  destruct (ParseBytes text) as [n|]; [|done]. intros [= <-] Hr%run_one. unfold EsiOptions.WithMaxResponseSize in Hr.
  destruct (_ <? 0); [done|]. injection Hr as <-. eauto.
Qed.

Lemma if_true (b x : bool) : (if b then true else x) = x || b.
Proof. by destruct b, x. Qed.
Lemma if_false (b x : bool) : (if b then false else x) = x && negb b.
Proof. by destruct b, x. Qed.

Ltac checked_set := let H := fresh in intros * H; first [by injection H as <- | revert H; unfold EsiOptions.WithMaxDepth,
  EsiOptions.WithMaxTimeout, EsiOptions.WithMaxConcurrentRequests, EsiOptions.WithAllowedHosts;
  match goal with |- (if ?b then _ else _) = _ → _ => destruct b end; [done|]; by intros [= <-]].

Lemma applied_settings src l label c c' :
  applyESIConfig duration_String Quote ParseDuration ParseBytes src = Ok l → run label l c = Valid c' → applied src c c'.
Proof.
  unfold applyESIConfig. destruct (duration_option _ _ _ _ _) as [timeout|] eqn:Et; [|done].
  destruct (size_option _ _ _) as [size|] eqn:Es; [|done]. intros [= <-] H. destruct c as [x1 x2 x3 x4 x5 x6 x7 x8 x9 x10 x11].
  next_seg H c1 Hr. apply (when_seg _ _ _ requireSurrogateControl esi_set_requireSurrogateControl false) in Hr as ->; [|checked_set|done].
  next_seg H c2 Hr. apply (opt_seg _ _ maxDepth esi_set_maxDepth) in Hr as ->; [|checked_set|done].
  next_seg H c3 Hr. eapply (duration_seg _ _ _ _ _ maxTimeout esi_set_maxTimeout) in Hr as (timeout' & Ht & ->); [|exact Et|checked_set|done].
  next_seg H c4 Hr. apply (opt_seg _ _ maxConcurrentRequests esi_set_maxConcurrentRequests) in Hr as ->; [|checked_set|done].
  next_seg H c5 Hr. apply (when_seg _ _ _ allowPrivateIPs esi_set_allowPrivateIPs true) in Hr as ->; [|checked_set|done].
  next_seg H c6 Hr. apply (when_seg _ _ _ allowedHosts esi_set_allowedHosts (ec_AllowedHosts src)) in Hr as ->; [|checked_set|done].
  next_seg H c7 Hr. apply (when_seg _ _ _ allowPrivateIPsForAllowedHosts esi_set_allowPrivateIPsForAllowedHosts true) in Hr as ->; [|checked_set|done].
  next_seg H c8 Hr. eapply size_seg in Hr as (size' & Hs & ->); [|exact Es].
  next_seg H c9 Hr. apply (when_seg _ _ _ disableForwardCookies esi_set_disableForwardCookies true) in Hr as ->; [|checked_set|done].
  next_seg H c10 Hr. apply (when_seg _ _ _ preserveETag esi_set_preserveETag true) in Hr as ->; [|checked_set|done].
  apply (when_seg _ _ _ includeErrorMarker esi_set_includeErrorMarker (ec_ErrorMarker src)) in H as ->; [|checked_set|done].
  unfold applied. rewrite !if_negb, !replace_default. cbn. rewrite if_false, !if_true. by split_and!.
Qed.

(** The settings of two blocks, the second after the first. *)
Lemma applied_twice (site global : option ESIConfig) c1 c2 :
  match global with Some a => applied a defaultEsiConfig c1 | None => c1 = defaultEsiConfig end →
  match site with Some r => applied r c1 c2 | None => c2 = c1 end → esi_of_blocks site global c2.
Proof.
  assert (∀ v b, given v b = bool_decide (v = Some b)) as Hg by (intros [[]|] []; reflexivity).
  assert (∀ v : bool, bool_decide (None = Some v) = false) as Hn by (by intros []).
  assert (∀ l : str, default [] (nonempty l) = l) as Hd by (by intros []).
  unfold esi_of_blocks, either, applied, duration_is, size_is. rewrite !default_blocks.
  destruct global as [a|], site as [r|]; simpl; intros H1 H2; destruct_and?; subst; rewrite ?Hg, ?Hn, ?Hd in *; simpl.
  all: split_and!; try done; try congruence.
  all: repeat match goal with H : ?x = _ |- context [?x] => rewrite H; clear H end; try (by repeat destruct (bool_decide _)).
  all: unfold nonempty; match goal with |- context [if is_nil ?x then None else _] => destruct (is_nil x) eqn:Er end; simpl in *; rewrite ?Er; try done;
    by match goal with H : ?x = _ |- context [?x] => rewrite H end.
Qed.

Lemma provisioned_blocks h app opts cfg ec :
  options_of h app = Ok opts → titip_New lz4 zstd Quote (Some <$> opts) = Valid (cfg, Some ec) →
  esi_of_blocks (hd_ESI h) (app_get app app_ESI None) ec.
Proof.
  intros Ho Hn. destruct (provisioned_esi _ _ _ _ _ Ho Hn) as (ao & ro & Hao & Hro & Hr).
  apply run_app_Valid in Hr as (c1 & Hr1 & Hr). apply run_app_Valid in Hr as (c2 & Hr2 & [= <-]).
  apply (applied_twice _ _ c1 c2); [destruct (app_get app app_ESI None) as [a|]|destruct (hd_ESI h) as [r|]];
    first [eapply applied_settings; eassumption | injection Hao as <-; by injection Hr1 | injection Hro as <-; by injection Hr2].
Qed.

(** C31: provisioning takes each setting from the site, else from the global block, else the
    default: this gives the switches, the status mode, the durations (those that the texts name), the
    compression, every field of the cache key rules, the server timing, and of the
    ESI processor the limits, the allowed hosts and the error marker.  ESI is on exactly when either
    place has an ESI block, and its five switches do not follow the rule: each is thrown as soon as one
    of the two blocks throws it (see [esi_global_switch_is_final], [esi_disabled_is_enabled]). *)
Theorem provision_precedence h app opts cfg e :
  options_of h app = Ok opts → titip_New lz4 zstd Quote (Some <$> opts) = Valid (cfg, e) →
  respectClientCacheControl cfg = default false (setting hd_RespectClientCacheControl app_RespectClientCacheControl h app) ∧
  autoInvalidateMutatingMethods cfg
  = default false (setting hd_AutoInvalidateMutatingMethods app_AutoInvalidateMutatingMethods h app) ∧
  convertHeadToGet cfg = default true (setting hd_ConvertHeadToGet app_ConvertHeadToGet h app) ∧
  Some (cacheStatusMode cfg) = named_mode (text_setting hd_CacheStatus app_CacheStatus h app) ∧
  duration_is (text_setting hd_BackgroundFetchTimeout app_BackgroundFetchTimeout h app) (125 * Second) (backgroundFetchTimeout cfg) ∧
  duration_is (text_setting hd_StorageTimeout app_StorageTimeout h app) (5 * Second) (storageTimeout cfg) ∧
  (let name := text_setting hd_StorageCompression app_StorageCompression h app in
   storageCompression cfg = if is_nil name then StorageCompressionLZ4 else ToLower (TrimSpace name)) ∧
  tagHeaderName cfg = (if is_nil (hd_TagHeader h) then headerCacheTag else TrimSpace (hd_TagHeader h)) ∧
  key_of_blocks (hd_CacheKey h) (app_get app app_CacheKey None) (cacheKey cfg) ∧
  serverTiming cfg = timing_of (setting hd_ServerTiming app_ServerTiming h app) ∧
  (is_Some e ↔ is_Some (app_get app app_ESI None) ∨ is_Some (hd_ESI h)) ∧
  (∀ ec, e = Some ec → esi_of_blocks (hd_ESI h) (app_get app app_ESI None) ec).
Proof.
  intros Ho Hn. destruct (New_run _ _ _ Hn) as [Hr He].
  pose proof (λ ec Hec, provisioned_blocks h app opts cfg ec Ho (eq_trans Hn (f_equal (λ x, Valid (cfg, x)) Hec))) as Hblocks.
  destruct (provisioned_config _ _ _ _ Ho Hr) as (mode & bg & stg & esi & Hm & Hb & Hs & Hesi & ->).
  cbn in He |- *. repeat (split; [by rewrite ?Hm|]). split; [apply merged_key_blocks|]. split; [done|]. split; [|done].
  destruct Hesi as [(-> & Ha & Hh)|(ao & ro & _ & _ & Hany & ->)].
  - subst e. rewrite Ha, Hh. split; [intros [? ?]; done|]. intros [[? ?]|[? ?]]; done.
  - destruct He as (ec & _ & ->). split; [done|eauto].
Qed.

(** A defect: the comment on the ESI settings promises "default -> global App defaults -> route
    overrides", but a switch that the global block throws cannot be thrown back by a
    site: with [block_private_ips false] in the global block, no site has its SSRF guard, whatever it
    says, and the same for surrogate control, fragment cookies and entity tags. *)
Theorem esi_global_switch_is_final h app a opts cfg ec :
  app_ESI app = Some a → options_of h (Some app) = Ok opts →
  titip_New lz4 zstd Quote (Some <$> opts) = Valid (cfg, Some ec) →
  (ec_BlockPrivateIPs a = Some false → allowPrivateIPs ec = true) ∧
  (ec_RequireSurrogateControl a = Some false → requireSurrogateControl ec = false) ∧
  (ec_ForwardFragmentCookies a = Some false → disableForwardCookies ec = true) ∧
  (ec_PreserveETag a = Some true → preserveETag ec = true) ∧
  (ec_AllowPrivateIPsForAllowedHosts a = Some true → allowPrivateIPsForAllowedHosts ec = true).
Proof.
  intros Ha Ho Hn. destruct (provisioned_esi _ _ _ _ _ Ho Hn) as (ao & ro & Hao & Hro & Hr).
  simpl in Hao. rewrite Ha in Hao. apply run_app_Valid in Hr as (c1 & Hr1 & Hr2).
  pose proof (applied_effect _ _ _ _ _ Hao Hr1) as Heff.
  assert (kept c1 ec) as Hk.
  { eapply known_run_keeps; [|exact Hr2]. apply Forall_app. split; [by eapply apply_esi_opt_known|]. repeat constructor. }
  unfold kept in Hk. naive_solver.
Qed.

(** A defect: [enabled false] in an ESI block does not turn ESI off: the setting is read and
    kept, but never looked at, so a block that says so turns ESI on, with the
    defaults for everything else. *)
Theorem esi_disabled_is_enabled h app e opts cfg ec :
  hd_ESI h = Some e → ec_Enabled e = Some false → options_of h app = Ok opts →
  titip_New lz4 zstd Quote (Some <$> opts) = Valid (cfg, ec) →
  is_Some ec ∧ (∀ b, options_of (hd_set_ESI (Some (ec_set_Enabled b e)) h) app = options_of h app).
Proof.
  intros Hh He Ho Hn. split.
  - destruct (New_run _ _ _ Hn) as [Hr Hec].
    destruct (provisioned_config _ _ _ _ Ho Hr) as (mode & bg & stg & esi & _ & _ & _ & Hesi & ->).
    cbn in Hec. destruct Hesi as [(_ & _ & Hnone)|(ao & ro & _ & _ & _ & ->)]; [congruence|].
    by destruct Hec as (ec' & _ & ->).
  - intros b. unfold provision_options, esi_option. cbn. by rewrite Hh.
Qed.
End Facts.

(** ** The Redis module *)
Section RedisFacts.
Context (Quote : str → str) (ParseURL : str → result ClientOption) (NewClient : ClientOption → option str).
#[local] Unset Default Proof Using.

(** The connection that the settings describe: a URL alone, or addresses. *)
Inductive connection (r : RedisStorage) : ClientOption → Prop :=
  | by_url o : rs_URL r ≠ [] → rs_Address r = [] → rs_Username r = [] → rs_Password r = [] →
      rs_dbSet r = false → rs_DB r = 0 → ParseURL (rs_URL r) = Ok o → connection r o
  | by_address : rs_URL r = [] → address_list (rs_Address r) ≠ [] →
      connection r (mkClientOption (address_list (rs_Address r)) (rs_Username r) (rs_Password r) (rs_DB r) 0).

Definition multiplexed (r : RedisStorage) (o : ClientOption) : ClientOption :=
  if 0 <? rs_PipelineMultiplex r
  then mkClientOption (InitAddress o) (opt_Username o) (opt_Password o) (SelectDB o) (rs_PipelineMultiplex r) else o.

Lemma connection_iff r o : redis_connection Quote ParseURL r = Ok o ↔ connection r o.
Proof.
  unfold redis_connection, redis_addresses. split.
  - destruct (is_nil (rs_URL r)) eqn:Eu; simpl.
    + apply is_nil_true in Eu. destruct (is_nil (address_list (rs_Address r))) eqn:Ea; [done|].
      intros [= <-]. apply by_address; [done|by apply is_nil_false].
    + apply is_nil_false in Eu. case_match eqn:Ed; [done|].
      rewrite !orb_false_iff, !negb_false_iff, Z.eqb_eq, !is_nil_true in Ed.
      destruct (ParseURL (rs_URL r)) as [o'|] eqn:Ep; [|done]. intros [= <-]. destruct_and!. by apply by_url.
  - destruct 1 as [o Hu Ha Hn Hw Hs Hd Hparse|Hu Ha].
    + apply is_nil_false in Hu. rewrite Hu, Ha, Hn, Hw, Hs, Hd. simpl. by rewrite Hparse.
    + rewrite Hu. simpl. apply is_nil_false in Ha. by rewrite Ha.
Qed.

Lemma client_option_iff r opt :
  redis_client_option Quote ParseURL r = Ok opt ↔
  ∃ o, connection r o ∧ 0 ≤ rs_PipelineMultiplex r ∧ opt = multiplexed r o.
Proof.
  unfold redis_client_option, multiplexed. setoid_rewrite <- connection_iff.
  destruct (redis_connection Quote ParseURL r) as [o|e]; [|split; [done|naive_solver]].
  destruct (0 <? rs_PipelineMultiplex r) eqn:Ep; [|destruct (rs_PipelineMultiplex r <? 0) eqn:Eq]; split.
  - intros [= <-]. exists o. split; [done|]. split; [lia|done].
  - by intros (o' & [= <-] & _ & ->).
  - done.
  - intros (o' & _ & Hp & _). lia.
  - intros [= <-]. exists o. split; [done|]. split; [lia|done].
  - by intros (o' & [= <-] & _ & ->).
Qed.

(** The Redis module is provisioned exactly when its settings describe one connection (a URL
    alone, or at least one address), the multiplexing is not negative, and the client connects; the store then has
    the configured prefix, or "titip:", which is the store's own default. *)
Theorem redis_provision_iff logger r opt store :
  redis_Provision Quote ParseURL NewClient logger r = Ok (opt, store) ↔
  (∃ o, connection r o ∧ 0 ≤ rs_PipelineMultiplex r ∧ opt = multiplexed r o) ∧ NewClient opt = None ∧
  store = (cmp_Or (rs_KeyPrefix r) defaultPrefix, default 0%nat logger).
Proof.
  rewrite <- client_option_iff. unfold redis_Provision. destruct (redis_client_option Quote ParseURL r) as [o|] eqn:Eo.
  - destruct (NewClient o) eqn:En; simpl; split.
    + done.
    + intros ([= <-] & Hn & _). congruence.
    + intros [= <- <-]. done.
    + intros ([= <-] & _ & ->). done.
  - split; [done|]. by intros [? _].
Qed.

(** A defect: a [db] directive next to [url] is refused, but "db 0" is recorded in a field that
    the JSON between the Caddyfile and the module does not carry, so in a running server
    it is accepted and ignored. *)
Theorem redis_db_zero_is_lost u o logger :
  u ≠ [] → ParseURL u = Ok o → NewClient o = None →
  let r := mkRedisStorage u [] [] [] [] 0 0 true in
  is_ok (redis_Provision Quote ParseURL NewClient logger r) = false ∧
  is_ok (redis_Provision Quote ParseURL NewClient logger (redis_json r)) = true.
Proof.
  intros Hu Hp Hn. unfold redis_Provision, redis_client_option, redis_connection. simpl. apply is_nil_false in Hu. rewrite Hu. simpl.
  by rewrite Hp, Hn.
Qed.
End RedisFacts.

(** ** Witnesses *)
Definition demo_ParseDuration (s : str) : result Z :=
  match ParseUint (TrimSuffix s (B "s")) 32 with Some n => Ok (n * Second) | None => Err (B "invalid duration") end.
Definition demo_ParseBytes (s : str) : result Z :=
  match ParseUint (TrimSuffix s (B "MB")) 32 with Some n => Ok (n * 1000000) | None => Err (B "invalid size") end.

(** A global block without SSRF guard; a site that asks for it, and for its own timeouts. *)
Definition global_esi : ESIConfig := ec_set_BlockPrivateIPs (Some false) emptyESI.
Definition global_app : App :=
  app_set_ESI (Some global_esi) (app_set_CacheStatus (B "none") (app_set_StorageTimeout (B "2s") emptyApp)).
Definition site_esi : ESIConfig := ec_set_MaxResponseSize (B "1MB") (ec_set_BlockPrivateIPs (Some true) emptyESI).
Definition site : Handler :=
  hd_set_ESI (Some site_esi) (hd_set_CacheStatus (B "RFC9211") (hd_set_RespectClientCacheControl (Some true) emptyHandler)).
Definition site_off : Handler := hd_set_ESI (Some (ec_set_Enabled (Some false) emptyESI)) emptyHandler.

Definition demo_options (h : Handler) (app : option App) : list Option :=
  match provision_options itoa id demo_ParseDuration demo_ParseBytes h app with Ok l => l | Err _ => [] end.
Definition demo_new (h : Handler) (app : option App) : config * option esiConfig :=
  match titip_New noneCompressor noneCompressor id (Some <$> demo_options h app) with
  | Valid c => c | Invalid _ => (defaultConfig noneCompressor noneCompressor, None)
  end.

Lemma provision_precedence_witness :
  let '(cfg, e) := demo_new site (Some global_app) in
  cacheStatusMode cfg = CacheStatusRFC9211 ∧ storageTimeout cfg = 2 * Second ∧ respectClientCacheControl cfg = true ∧ is_Some e.
Proof.
  destruct (demo_new site (Some global_app)) as [cfg e] eqn:En.
  destruct (provision_precedence itoa id noneCompressor noneCompressor demo_ParseDuration demo_ParseBytes site (Some global_app)
              (demo_options site (Some global_app)) cfg e) as (Hr & _ & _ & Hm & _ & Hs & _ & _ & _ & _ & Hesi & _).
  - vm_compute. reflexivity.
  - unfold demo_new in En. destruct (titip_New _ _ _ _) as [c|] eqn:Et; [by subst c|]. exfalso. vm_compute in Et. discriminate Et.
  - split; [vm_compute in Hm; by injection Hm|].
    split; [change (Ok (2 * Second) = Ok (storageTimeout cfg)) in Hs; by injection Hs|].
    split; [by rewrite Hr|]. apply Hesi. right. by eexists.
Defined.

Lemma esi_global_switch_is_final_witness :
  ∃ ec, (demo_new site (Some global_app)).2 = Some ec ∧ allowPrivateIPs ec = true ∧ ec_BlockPrivateIPs site_esi = Some true.
Proof.
  destruct (demo_new site (Some global_app)) as [cfg [ec|]] eqn:En; [|exfalso; vm_compute in En; discriminate En].
  exists ec. split; [reflexivity|]. split; [|reflexivity].
  apply (esi_global_switch_is_final itoa id noneCompressor noneCompressor demo_ParseDuration demo_ParseBytes site global_app
           global_esi (demo_options site (Some global_app)) cfg ec); [reflexivity|vm_compute; reflexivity| |reflexivity].
  unfold demo_new in En. destruct (titip_New _ _ _ _) as [c|] eqn:Et; [by subst c|]. exfalso. vm_compute in Et. discriminate Et.
Defined.

Lemma esi_disabled_is_enabled_witness : is_Some (demo_new site_off None).2.
Proof.
  destruct (demo_new site_off None) as [cfg ec] eqn:En.
  apply (esi_disabled_is_enabled itoa id noneCompressor noneCompressor demo_ParseDuration demo_ParseBytes site_off None
           (ec_set_Enabled (Some false) emptyESI) (demo_options site_off None) cfg ec);
    [reflexivity|reflexivity|vm_compute; reflexivity|].
  unfold demo_new in En. destruct (titip_New _ _ _ _) as [c|] eqn:Et; [by subst c|]. exfalso. vm_compute in Et. discriminate Et.
Defined.

Lemma redis_db_zero_is_lost_witness :
  is_ok (redis_Provision id (λ u, Ok (mkClientOption [u] [] [] 0 0)) (λ _, None) None
           (redis_json (mkRedisStorage (B "redis://h:6379") [] [] [] [] 0 0 true))) = true.
Proof.
  refine (proj2 (redis_db_zero_is_lost id (λ u, Ok (mkClientOption [u] [] [] 0 0)) (λ _, None) (B "redis://h:6379")
                   (mkClientOption [B "redis://h:6379"] [] [] 0 0) None _ eq_refl eq_refl)). discriminate.
Defined.
