(* ===== verification/CaddyServe.v ===== *)
(** * The Caddy adapter at run time

    [src/adapter/caddy/caddy.go]: the registry of instances, [ServeHTTP], [Cleanup] and the in-process
    fragment fetcher; [src/adapter/caddy/admin.go]: the purge endpoint of the admin API.  Instances
    may share a storage (the global one), so an instance has a location in a table of
    stores.  The request of the admin API is given by its method, its content type and its decoded JSON
    body ([None] for a body that does not decode). *)

From S2P Require Import Prelude GoStrings GoHttp Env Headers Freshness CacheKey Storage Purge Scanner Esi Compress Config Handler HandlerLogic HandlerRun HandlerSafety.
#[local] Unset Default Proof Using.

(** ** Serving a request *)
Definition req_with_url (r : Request) (u : option URL) : Request :=
  mkRequest (r_Method r) u (r_Host r) (r_Header r) (r_TLS r).

(** The request that the middleware sees; [orig] is the URL of the original request in the context, if
    there is one. *)
Definition cache_request (useRewrittenURL : bool) (orig : option URL) (r : Request) : Request :=
  if useRewrittenURL then r else
  match orig with Some u => req_with_url r (Some u) | None => r end.

(** The next handler gets the middleware's request with the URL of [r]. *)
Definition bridge (r : Request) (next : nat → Request → Writer → Writer * bool) (n : nat) (req : Request) (w : Writer)
    : Writer * bool :=
  next n (req_with_url req (r_URL r)) w.

Definition caddy_ServeHTTP `{E : GoEnv, CO : CacheObject} {S : Type} {St : Storage S} (t : Titip) (now : nat → Z)
    (joined : option fetchResult) (waiters : bool) (useRewrittenURL : bool) (orig : option URL)
    (next : nat → Request → Writer → Writer * bool) (r : Request) : M S bool :=
  ServeHTTP t now (bridge r next) joined waiters (cache_request useRewrittenURL orig r).

(** The middleware as it serves a request whose context carries the execution state of a fragment. *)
Definition with_esi_parent (t : Titip) (state : esiExecutionState) : Titip :=
  mkTitip (t_config t) (esiProcessor t) (esi_fetcher t) (esi_http t) (esi_alt_budget t) (Some state) (esi_time t).

(** The in-process fetcher: a virtual request to the server of the context.  The virtual request has the
    context of the fragment, and in it the execution state, which the server gets. *)
Definition internalFetcher `{E : GoEnv} (server : option (esiExecutionState → Request → Writer → Writer * bool))
    (state : esiExecutionState) (targetPath : str) (r : Request) : fetcher_result :=
  match url_Parse targetPath with
  | None => FetchFailed
  | Some parsedURL =>
      let virtReq := mkRequest (B "GET") (Some parsedURL) (r_Host r)
                       (h_Set (r_Header r) (B "Accept-Encoding") (B "identity")) false in
      match server with
      | None => FetchFailed
      | Some srv =>
          let '(rec, panicked) := srv state virtReq new_writer in
          if panicked : bool then FetchPanicked
          else if (rec_Code rec =? 404)%Z then FallbackToHTTP
          else if (400 <=? rec_Code rec)%Z then FetchFailed
          else Fetched (w_Body rec) (w_Header rec)
      end
  end.

(** ** The registry *)
Record instance := mkInstance { in_titip : Titip; in_store : nat }.

Definition registerInstance (id : str) (t : instance) (m : gmap str instance) : gmap str instance := <[id := t]> m.
Definition unregisterInstance (id : str) (m : gmap str instance) : gmap str instance := delete id m.
Definition getInstances `{E : GoEnv} (m : gmap str instance) : list instance := snd <$> range m.

(** [Cleanup]: the instance leaves the registry and is closed; its background work may run for the
    configured time, or 125 seconds. *)
Definition cleanup_timeout (ParseDuration : str → result Z) (text : str) : Z :=
  match ParseDuration text with
  | Ok d => if (0 <? d)%Z then d else 125 * Second
  | Err _ => 125 * Second
  end.

Definition Cleanup {S : Type} (id : str) (m : gmap str instance) (w : World S) : gmap str instance * World S :=
  (unregisterInstance id m, (titip_Close w).1).

(** ** The admin API *)
Record purgeAdminRequest := mkPurgeRequest {
  ar_URLs : list str;
  ar_Tags : list str;
  ar_PurgeEverything : bool;
  ar_Soft : option bool;
}.

(** An error with its status, or 200 with the type, the count and whether the purge was soft. *)
Inductive admin_reply :=
  | admin_error (code : Z) (msg : str)
  | admin_ok (type : str) (count : Z) (soft : bool).

(** The stores behind the instances, and the clock readings so far. *)
Record Fleet (S : Type) := mkFleet { fl_stores : gmap nat S; fl_tick : nat }.
Arguments mkFleet {S}. Arguments fl_stores {S}. Arguments fl_tick {S}.

Section Admin.
Context {E : GoEnv} {CO : CacheObject} {S : Type} {St : Storage S} (now : nat → Z).

Definition blank_request : Request := mkRequest (B "POST") None [] ∅ false.
Definition idle_world (s : S) (tick : nat) : World S :=
  mkWorld s tick 0 new_writer (acquireRequestContext blank_request 0) false [] [].

(** A call on one instance: [None] is a panic. *)
Definition run_on {A} (loc : nat) (m : M S A) (f : Fleet S) : Fleet S * option A :=
  match fl_stores f !! loc with
  | None => (f, None)
  | Some s => let '(w, o) := m (idle_world s (fl_tick f)) in
              (mkFleet (<[loc := wd_store w]> (fl_stores f)) (wd_tick w), o)
  end.

(** [n, _ := inst.Purge(...); count += n], call after call. *)
Fixpoint purge_each (ops : list (nat * M S purge_result)) (count : Z) (f : Fleet S) : Fleet S * option Z :=
  match ops with
  | [] => (f, Some count)
  | (loc, m) :: rest =>
      match run_on loc m f with
      | (f', Some (n, _)) => purge_each rest (wrap64 (count + n)) f'
      | (f', None) => (f', None)
      end
  end.

Definition json_error (text : str) : str :=
  let q := ["034"%char] in B "{" ++ q ++ B "error" ++ q ++ B ":" ++ q ++ text ++ q ++ B "}".

Definition slash_example : str :=
  let q := B "\" ++ ["034"%char] in B "[" ++ q ++ B "/" ++ q ++ B "]".

Definition target_types (req : purgeAdminRequest) : list str :=
  (if is_nil (ar_URLs req) then [] else [B "urls"]) ++
  (if is_nil (ar_Tags req) then [] else [B "tags"]) ++
  (if ar_PurgeEverything req then [B "purge_everything"] else []).

Definition each_on {A} (targets : list A) (active : list instance) (op : A → Titip → M S purge_result)
    : list (nat * M S purge_result) :=
  targets ≫= λ a, (λ i, (in_store i, op a (in_titip i))) <$> active.

(** What is purged, and the count to start from: with no instance, the number of targets. *)
Definition purge_plan (targetType : str) (req : purgeAdminRequest) (soft : bool) (active : list instance)
    : list (nat * M S purge_result) * Z :=
  let start (n : nat) : Z := if is_nil active then Z.of_nat n else 0%Z in
  if targetType =s B "urls" then
    (each_on (ar_URLs req) active (λ u t, titip_Purge t now u soft), start (length (ar_URLs req)))
  else if targetType =s B "tags" then
    (each_on (ar_Tags req) active (λ tag _, titip_PurgeTag now tag soft), start (length (ar_Tags req)))
  else (each_on [tt] active (λ _ _, titip_PurgeAll now), start 1%nat).

Definition handleAdminPurge (method ct : str) (body : option purgeAdminRequest) (instances : gmap str instance) (f : Fleet S)
    : Fleet S * option admin_reply :=
  let fail code msg := (f, Some (admin_error code (json_error msg))) in
  if method <>s B "POST" then fail 405%Z (B "method not allowed; use POST") else
  if negb (HasPrefix ct (B "application/json")) && negb (is_nil ct)
  then fail 415%Z (B "unsupported media type; use Content-Type: application/json") else
  match body with
  | None => fail 400%Z (B "invalid JSON request body")
  | Some req =>
      match target_types req with
      | [] => fail 400%Z (B "missing purge target: specify urls, tags, or purge_everything")
      | [targetType] =>
          if ar_PurgeEverything req && default false (ar_Soft req)
          then fail 400%Z (B "purge_everything cannot be done as a soft purge; use URLs " ++ slash_example ++ B " or tags to soft purge")
          else
            let soft := default true (ar_Soft req) in
            let '(ops, start) := purge_plan targetType req soft (getInstances instances) in
            match purge_each ops start f with
            | (f', None) => (f', None)
            | (f', Some count) =>
                (f', Some (admin_ok targetType count (if targetType =s B "purge_everything" then false else soft)))
            end
      | _ => fail 400%Z (B "specify exactly one of: urls, tags, or purge_everything")
      end
  end.
End Admin.
