(* ===== verification/CaddyServeProps.v ===== *)
(** * Properties of the Caddy adapter at run time

    Registration across reloads ([registry_tracks_live_handlers]), the admin API's validation
    ([admin_refuses_without_effect]), its reach ([admin_purge_reaches_every_instance]), what its
    reply hides ([admin_reply_hides_failures]), and what conditional requests do to fragments
    ([conditional_page_loses_fragments]). *)

From S2P Require Import Prelude GoStrings GoHttp Env Headers Freshness CacheKey Storage TestStore Purge Scanner Esi Compress Config Handler HandlerLogic HandlerProps HandlerRun HandlerSafety Scenarios CaddyServe.
#[local] Open Scope handler_scope.
#[local] Unset Default Proof Using.

(** ** The registry across reloads

    Handlers are provisioned and cleaned up in any order; on a reload the new ones come before the old ones go.
    A handler's identity is its address, so it is not that of a live handler.  A handler whose provisioning failed
    is cleaned up too, although it was never registered. *)
Record registry := mkRegistry { rg_live : gmap str instance; rg_instances : gmap str instance }.

Inductive lifecycle : registry → registry → Prop :=
  | life_provision id t rg : rg_live rg !! id = None →
      lifecycle rg (mkRegistry (<[id := t]> (rg_live rg)) (registerInstance id t (rg_instances rg)))
  | life_failed id rg : rg_live rg !! id = None →
      lifecycle rg (mkRegistry (rg_live rg) (unregisterInstance id (rg_instances rg)))
  | life_cleanup id rg :
      lifecycle rg (mkRegistry (delete id (rg_live rg)) (unregisterInstance id (rg_instances rg))).

Lemma lifecycle_tracks rg rg' : lifecycle rg rg' → rg_instances rg = rg_live rg → rg_instances rg' = rg_live rg'.
Proof.
  destruct 1 as [id t rg Hid|id rg Hid|id rg]; simpl; intros ->; [done| |done].
  unfold unregisterInstance. by rewrite delete_id.
Qed.

(** The registry is exactly the live handlers: after any sequence of provisioning, failed
    provisioning and cleanup, in any order, the instances that the admin API
    sees are those of the handlers that are in use, each once. *)
Theorem registry_tracks_live_handlers `{E : GoEnv} rg :
  rtc lifecycle (mkRegistry ∅ ∅) rg → getInstances (rg_instances rg) ≡ₚ (map_to_list (rg_live rg)).*2.
Proof.
  intros H. assert (rg_instances rg = rg_live rg) as ->.
  { remember (mkRegistry ∅ ∅) as rg0 eqn:E0. assert (rg_instances rg0 = rg_live rg0) as H0 by by subst. clear E0.
    induction H as [rg0|rg0 rg1 rg2 H1 _ IH]; [done|]. apply IH. by eapply lifecycle_tracks. }
  unfold getInstances. apply fmap_Permutation, range_perm.
Qed.

(** ** Refusals *)
Section Admin.
Context {E : GoEnv} {CO : CacheObject} {S : Type} {St : Storage S} (now : nat → Z).

Definition well_formed (method ct : str) (body : option purgeAdminRequest) : Prop :=
  method = B "POST" ∧ (ct = [] ∨ HasPrefix ct (B "application/json") = true) ∧
  ∃ req, body = Some req ∧ length (target_types req) = 1%nat ∧
         ¬ (ar_PurgeEverything req = true ∧ ar_Soft req = Some true).

(** The purge that a well-formed request asks for. *)
Lemma admin_accepts method ct body req ty instances (f : Fleet S) :
  method = B "POST" → (ct = [] ∨ HasPrefix ct (B "application/json") = true) → body = Some req →
  target_types req = [ty] → ¬ (ar_PurgeEverything req = true ∧ ar_Soft req = Some true) →
  handleAdminPurge now method ct body instances f
  = (let soft := default true (ar_Soft req) in
     let '(ops, start) := purge_plan now ty req soft (getInstances instances) in
     let '(f', o) := purge_each ops start f in
     (f', (λ count, admin_ok ty count (if ty =s B "purge_everything" then false else soft)) <$> o)).
Proof.
  intros -> Hct -> Ht Hs. unfold handleAdminPurge. rewrite str_eqb_refl. change (negb true) with false. cbv iota zeta.
  assert (negb (HasPrefix ct (B "application/json")) && negb (is_nil ct) = false) as -> by (destruct Hct as [-> | ->]; [by rewrite andb_false_r|done]).
  rewrite Ht. assert (ar_PurgeEverything req && default false (ar_Soft req) = false) as ->.
  { destruct (ar_PurgeEverything req), (ar_Soft req) as [[]|]; try done. by destruct Hs. }
  destruct (purge_plan _ _ _ _ _) as [ops start]. by destruct (purge_each ops start f) as [f' [count|]].
Qed.

Lemma refusal method ct body instances (f : Fleet S) :
  ((∃ code msg, (handleAdminPurge now method ct body instances f).2 = Some (admin_error code msg)) ↔
   ¬ well_formed method ct body) ∧
  (¬ well_formed method ct body → (handleAdminPurge now method ct body instances f).1 = f).
Proof.
  unfold handleAdminPurge, well_formed.
  destruct (str_eqb method (B "POST")) eqn:Em; [change (negb true) with false|change (negb false) with true]; cbv iota zeta.
  2: { split; [|done]. split; [|eauto]. intros _ [-> _]. by rewrite str_eqb_refl in Em. }
  apply str_eqb_eq in Em as ->.
  destruct (negb (HasPrefix ct (B "application/json")) && negb (is_nil ct)) eqn:Ec.
  { split; [|done]. split; [|eauto]. intros _ (_ & [->|Hp] & _); [by rewrite andb_false_r in Ec|by rewrite Hp in Ec]. }
  assert (ct = [] ∨ HasPrefix ct (B "application/json") = true) as Hct.
  { destruct (HasPrefix ct _); [by right|]. left. simpl in Ec. apply negb_false_iff in Ec. by apply is_nil_true. }
  destruct body as [req|]; [|split; [|done]; split; [by intros _ (_ & _ & ? & ? & _)|eauto]].
  destruct (target_types req) as [|ty [|ty2 tys]] eqn:Et.
  { split; [|done]. split; [|eauto]. intros _ (_ & _ & ? & [= <-] & Hl & _). by rewrite Et in Hl. }
  2: { split; [|done]. split; [|eauto]. intros _ (_ & _ & ? & [= <-] & Hl & _). by rewrite Et in Hl. }
  destruct (ar_PurgeEverything req && default false (ar_Soft req)) eqn:Es.
  - split; [|done]. split; [|eauto]. intros _ (_ & _ & ? & [= <-] & _ & Hs). apply Hs.
    apply andb_true_iff in Es as [-> Es]. destruct (ar_Soft req) as [[]|]; done.
  - assert (well_formed (B "POST") ct (Some req)) as Hw.
    { split; [done|]. split; [done|]. exists req. split; [done|]. split; [by rewrite Et|]. intros [H1 H2]. by rewrite H1, H2 in Es. }
    split; [|by intros []]. destruct (purge_plan _ _ _ _ _) as [ops start].
    destruct (purge_each ops start f) as [f' [count|]]; (split; [by intros (? & ? & ?)|by intros []]).
Qed.

(** The admin API refuses what it documents and nothing else, without effect: a request gets an
    error exactly when it is not a POST, has another media type than JSON, does not
    decode, does not name exactly one kind of target, or asks for a soft purge of
    everything; and then no store is touched. *)
Theorem admin_refuses_without_effect method ct body instances (f : Fleet S) :
  ((∃ code msg, (handleAdminPurge now method ct body instances f).2 = Some (admin_error code msg)) ↔
   ¬ well_formed method ct body) ∧
  (¬ well_formed method ct body → (handleAdminPurge now method ct body instances f).1 = f).
Proof. apply refusal. Qed.

Lemma admin_ok_inv method ct body instances (f f' : Fleet S) ty count soft :
  handleAdminPurge now method ct body instances f = (f', Some (admin_ok ty count soft)) →
  ∃ req, body = Some req ∧ target_types req = [ty] ∧
    soft = (if ty =s B "purge_everything" then false else default true (ar_Soft req)) ∧
    let '(ops, start) := purge_plan now ty req (default true (ar_Soft req)) (getInstances instances) in
    purge_each ops start f = (f', Some count).
Proof.
  intros H. assert (well_formed method ct body ∨ ¬ well_formed method ct body) as [Hw|Hw].
  { unfold well_formed. destruct body as [req|]; [|right; by intros (_ & _ & ? & ? & _)].
    assert (Decision (method = B "POST" ∧ (ct = [] ∨ HasPrefix ct (B "application/json") = true) ∧
      length (target_types req) = 1%nat ∧ ¬ (ar_PurgeEverything req = true ∧ ar_Soft req = Some true))) as [Hd|Hd] by apply _.
    - left. destruct Hd as (? & ? & ? & ?). eauto 8.
    - right. intros (? & ? & ? & [= <-] & ? & ?). by apply Hd. }
  - destruct Hw as (Hm & Hct & req & Hb & Hl & Hs). destruct (target_types req) as [|ty' [|]] eqn:Et; try done.
    rewrite (admin_accepts method ct body req ty' instances f Hm Hct Hb Et Hs) in H. cbv zeta in H.
    destruct (purge_plan _ _ _ _ _) as [ops start] eqn:Ep. destruct (purge_each ops start f) as [f1 [c|]] eqn:Ee; [|done].
    simpl in H. injection H as <- <- <- <-. exists req. rewrite Ep. eauto.
  - destruct (handleAdminPurge now method ct body instances f) as [f1 r] eqn:Eh.
    exfalso. injection H as -> ->.
    assert (∃ code msg, (handleAdminPurge now method ct body instances f).2 = Some (admin_error code msg)) as (c & m & He);
      [|by rewrite Eh in He].
    by apply refusal.
Qed.

(** ** Clock readings only go up *)
Definition ticks {A} (m : M S A) : Prop := ∀ w, (wd_tick w ≤ wd_tick (m w).1)%nat.

Lemma ticks_bind {A C} (m : M S A) (k : A → M S C) : ticks m → (∀ a, ticks (k a)) → ticks (bind m k).
Proof.
  intros Hm Hk w. unfold bind. specialize (Hm w). destruct (m w) as [w' [a|]]; simpl in *; [|done].
  specialize (Hk a w'). lia.
Qed.

Lemma ticks_same {A} (m : M S A) : (∀ w, wd_tick (m w).1 = wd_tick w) → ticks m.
Proof. intros H w. rewrite H. lia. Qed.

Lemma ticks_now : ticks (time_Now now).
Proof. intros w. simpl. lia. Qed.

Lemma ticks_call {A} ev (op : Z → S → S * outcome A) :
  ticks (emit ev ;;; ts <- time_Now now ;; s <- get wd_store ;; let '(s', o) := op ts s in upd_store s' ;;; lift o).
Proof.
  apply ticks_bind; [by apply ticks_same|intros _]. apply ticks_bind; [apply ticks_now|intros ts].
  apply ticks_bind; [by apply ticks_same|intros s]. destruct (op ts s) as [s' o].
  apply ticks_bind; [by apply ticks_same|intros _]. by destruct o; apply ticks_same.
Qed.

Lemma ticks_patterns ty label soft ps n : ticks (purge_patterns now ty label soft ps n).
Proof.
  revert n. induction ps as [|p ps IH]; intros n; [by apply ticks_same|].
  apply ticks_bind; [apply (ticks_call _ (λ ts s, PurgeByPattern s ts p soft))|].
  intros [m|e]; [apply IH|by apply ticks_same].
Qed.

Lemma ticks_Purge t target soft : ticks (titip_Purge t now target soft).
Proof.
  unfold titip_Purge. destruct (buildPurgeOperation _ _) as [[ex keys]| |]; [|by apply ticks_same..].
  destruct keys as [|key keys]; [by apply ticks_same|]. destruct ex; [|apply ticks_patterns].
  apply ticks_bind; [apply (ticks_call _ (λ ts s, Purge s ts key soft))|]. intros []; by apply ticks_same.
Qed.

(** ** A broadcast reaches every store *)
Context {SL : StorageLaws S}.

(** The store at [loc] works; nothing is said of the others. *)
Definition usable_at (loc : nat) (f : Fleet S) : Prop := ∀ s, fl_stores f !! loc = Some s → usable s.

(** No entry under [k] at [ts] in the store at [loc]. *)
Definition gone_at (loc : nat) (ts : Z) (k : str) (f : Fleet S) : Prop :=
  ∃ s, fl_stores f !! loc = Some s ∧ gone ts k s.

(** An operation that keeps stores usable and brings nothing back. *)
Definition harmless (m : M S (Z * option str)) : Prop :=
  ticks m ∧ (∀ w, usable (wd_store w) → usable (wd_store (m w).1)) ∧
  (∀ ts k w, gone ts k (wd_store w) → gone ts k (wd_store (m w).1)).

Lemma Purge_harmless t target soft : harmless (titip_Purge t now target soft).
Proof.
  split; [apply ticks_Purge|]. split.
  - intros w Hu. destruct (kok_titip_Purge t now usable usable_purge usable_pattern target soft w Hu) as (_ & _ & _ & ? & _). done.
  - intros ts k w Hg.
    destruct (kok_titip_Purge t now (gone ts k) (gone_purge ts k) (gone_pattern ts k) target soft w Hg) as (_ & _ & _ & ? & _).
    done.
Qed.

Lemma run_on_harmless loc m (f : Fleet S) : harmless m →
  let f' := (run_on loc m f).1 in
  (∀ l, usable_at l f → usable_at l f') ∧ (fl_tick f ≤ fl_tick f')%nat ∧ (∀ l ts k, gone_at l ts k f → gone_at l ts k f').
Proof.
  intros (Ht & Hu & Hg). unfold run_on. destruct (fl_stores f !! loc) as [s|] eqn:Es; [|done].
  specialize (Ht (idle_world s (fl_tick f))). specialize (Hu (idle_world s (fl_tick f))).
  pose proof (λ ts k, Hg ts k (idle_world s (fl_tick f))) as Hg'.
  destruct (m (idle_world s (fl_tick f))) as [w o]. simpl in *. split; [|split; [done|]].
  - intros l Hf s' Hl. simpl in Hl. apply lookup_insert_Some in Hl as [[<- <-]|[_ Hl]]; [apply Hu|]; by apply Hf.
  - intros l ts k (s' & Hl & Hk). destruct (decide (l = loc)) as [->|Hne].
    + rewrite Es in Hl. injection Hl as <-. exists (wd_store w). simpl. rewrite lookup_insert_eq. auto.
    + exists s'. simpl. by rewrite lookup_insert_ne.
Qed.

Lemma purge_each_harmless ops count (f : Fleet S) : Forall (λ p, harmless p.2) ops →
  let f' := (purge_each ops count f).1 in
  (∀ l, usable_at l f → usable_at l f') ∧ (fl_tick f ≤ fl_tick f')%nat ∧ (∀ l ts k, gone_at l ts k f → gone_at l ts k f').
Proof.
  intros Ho. revert count f. induction Ho as [|[loc m] ops Hm _ IH]; intros count f; [done|]. simpl in *.
  pose proof (run_on_harmless loc m f Hm) as Hr. destruct (run_on loc m f) as [f1 [[n e]|]]; simpl in *; [|done].
  destruct Hr as (Hf1 & Ht1 & Hg1). destruct (IH (wrap64 (count + n)) f1) as (Hf2 & Ht2 & Hg2).
  split; [auto|]. split; [lia|auto].
Qed.

Lemma purge_each_app ops1 ops2 count (f : Fleet S) :
  purge_each (ops1 ++ ops2) count f
  = match purge_each ops1 count f with (f1, Some c) => purge_each ops2 c f1 | (f1, None) => (f1, None) end.
Proof.
  revert count f. induction ops1 as [|[loc m] ops1 IH]; intros count f; [done|]. simpl.
  destruct (run_on loc m f) as [f1 [[n e]|]]; [apply IH|done].
Qed.

Lemma purge_each_reaches ops count (f f' : Fleet S) c t u ex keys k ts loc :
  Forall (λ p, harmless p.2) ops → usable_at loc f → purge_each ops count f = (f', Some c) →
  (loc, titip_Purge t now u false) ∈ ops →
  buildPurgeOperation u (Some (cacheKey (t_config t))) = Ret (ex, keys) → purge_reaches ex keys k →
  (∀ n, (n < length keys + fl_tick f')%nat → (now n ≤ ts)%Z) → gone_at loc ts k f'.
Proof.
  intros Ho Hf Hp (l1 & l2 & ->)%list_elem_of_split Hb Hr Hts. apply Forall_app in Ho as [Ho1 [Hm Ho2]%Forall_cons].
  rewrite purge_each_app in Hp. destruct (purge_each_harmless l1 count f Ho1) as (Hf1 & _ & _).
  destruct (purge_each l1 count f) as [f1 [c1|]]; [|done]. simpl in *. apply Hf1 in Hf.
  pose proof (run_on_harmless loc _ f1 Hm) as (_ & Ht2 & _).
  assert (fl_tick f1 ≤ fl_tick f' ∧ (gone_at loc ts k (run_on loc (titip_Purge t now u false) f1).1 → gone_at loc ts k f'))%nat as [Htick Hgone].
  { destruct (run_on loc (titip_Purge t now u false) f1) as [f2 [[n e]|]] eqn:Er; [|done]. simpl in *.
    destruct (purge_each_harmless l2 (wrap64 (c1 + n)) f2 Ho2) as (_ & Ht3 & Hg3). rewrite Hp in Ht3, Hg3. simpl in *.
    split; [lia|auto]. }
  apply Hgone. unfold run_on in *. destruct (fl_stores f1 !! loc) as [s|] eqn:Es; [|by destruct (purge_each l2)].
  pose proof (titip_Purge_establishes t now ts u ex keys k (idle_world s (fl_tick f1)) Hb Hr (Hf _ Es)) as He.
  destruct (titip_Purge t now u false (idle_world s (fl_tick f1))) as [w o]. simpl in *.
  exists (wd_store w). simpl. rewrite lookup_insert_eq. split; [done|]. apply He. intros i Hi. apply Hts. lia.
Qed.

Lemma each_on_harmless {A} (targets : list A) active op :
  (∀ a t, harmless (op a t)) → Forall (λ p, harmless p.2) (each_on (S := S) targets active op).
Proof.
  intros Ho. apply Forall_forall. intros [loc m] Hin. unfold each_on in Hin.
  apply list_elem_of_bind in Hin as (a & Hin & _). apply list_elem_of_fmap in Hin as (i & [= -> ->] & _). apply Ho.
Qed.

(** C30: a hard purge by URL through the admin API reaches every instance whose store works: when
    the API answers 200, then for every registered instance whose store is usable, and every URL of
    the request, that store has no entry under any key that the instance's own purge of the
    URL addresses, also when instances share a store, in whatever order the registry is visited,
    and whether or not the purges of the other instances failed.  (For an instance whose store
    fails the 200 says nothing, see [admin_reply_hides_failures]; a soft purge, which is what a
    request without [soft] asks for, marks entries and removes none.) *)
Theorem admin_purge_reaches_every_instance method ct req instances (f f' : Fleet S) count id inst u ex keys k ts :
  handleAdminPurge now method ct (Some req) instances f = (f', Some (admin_ok (B "urls") count false)) →
  u ∈ ar_URLs req → instances !! id = Some inst → usable_at (in_store inst) f →
  buildPurgeOperation u (Some (cacheKey (t_config (in_titip inst)))) = Ret (ex, keys) → purge_reaches ex keys k →
  (∀ n, (n < length keys + fl_tick f')%nat → (now n ≤ ts)%Z) →
  ∃ s, fl_stores f' !! in_store inst = Some s ∧ GetMeta s ts k = Ret None.
Proof.
  intros Hh Hu Hi Hf Hb Hr Hts. apply admin_ok_inv in Hh as (req' & [= <-] & Ht & Hs & Hp).
  change (B "urls" =s B "purge_everything") with false in Hs. cbv iota in Hs. rewrite <- Hs in Hp.
  unfold purge_plan in Hp. change (B "urls" =s B "urls") with true in Hp. cbv iota in Hp.
  destruct (purge_each_reaches _ _ f f' count (in_titip inst) u ex keys k ts (in_store inst)
              (each_on_harmless _ _ _ (λ a t, Purge_harmless t a false)) Hf Hp) as (s & Hl & _ & Hg); [|done..|eauto].
  unfold each_on. apply list_elem_of_bind. exists u. split; [|done]. apply list_elem_of_fmap. exists inst. split; [done|].
  unfold getInstances. apply list_elem_of_fmap. exists (id, inst). split; [done|]. by apply range_elem_of.
Qed.
End Admin.

(** ** What the reply does not say *)
Section Failures.
Context {E : GoEnv} {CO : CacheObject} {S : Type} {St : Storage S} (now : nat → Z).

Definition tags_request (tags : list str) (soft : option bool) : purgeAdminRequest := mkPurgeRequest [] tags false soft.

Lemma failing_tags_run tag soft loc (f : Fleet S) :
  (∀ s ts, ∃ s' e, PurgeByTag s ts tag soft = (s', Fail e)) → is_Some (fl_stores f !! loc) →
  ∃ f' e, run_on loc (titip_PurgeTag now tag soft) f = (f', Some (0%Z, Some e)) ∧ dom (fl_stores f') = dom (fl_stores f).
Proof.
  intros Hfail [s Hs]. destruct (Hfail s (now (fl_tick f))) as (s' & e & Hp).
  unfold run_on. rewrite Hs. unfold titip_PurgeTag, storage_PurgeByTag, bind, emit, time_Now, next_tick, get, ret. simpl.
  unfold bind. simpl. rewrite Hp. simpl. eexists _, _. split; [reflexivity|]. simpl. rewrite dom_insert_L.
  apply subseteq_union_1_L. apply singleton_subseteq_l. by apply elem_of_dom_2 in Hs.
Qed.

Lemma failing_tags_each soft ops (f : Fleet S) :
  (∀ s ts tag, ∃ s' e, PurgeByTag s ts tag soft = (s', Fail e)) →
  Forall (λ p, (∃ tag, p.2 = titip_PurgeTag now tag soft) ∧ p.1 ∈ dom (fl_stores f)) ops →
  ∃ f', purge_each ops 0 f = (f', Some 0%Z).
Proof.
  intros Hfail. revert f. induction ops as [|[loc m] ops IH]; intros f Ho; [by eexists|].
  apply Forall_cons in Ho as [[[tag Hm] Hl] Ho]. simpl in *. subst m. apply elem_of_dom in Hl.
  destruct (failing_tags_run tag soft loc f) as (f1 & e & -> & Hd); [auto|done|].
  change (wrap64 (0 + 0)) with 0%Z. apply IH. eapply Forall_impl; [exact Ho|]. simpl. intros p. by rewrite Hd.
Qed.

(** A defect: the admin API reports success when nothing was purged: a purge by tags gets a 200
    with "success" when every store fails, and when there is no instance at all it
    reports as many purged entries as there were tags. *)
Theorem admin_reply_hides_failures tags soft instances (f : Fleet S) :
  tags ≠ [] → (∀ s ts tag soft, ∃ s' e, PurgeByTag s ts tag soft = (s', Fail e)) →
  (∀ id i, instances !! id = Some i → is_Some (fl_stores f !! in_store i)) →
  ∃ f', handleAdminPurge now (B "POST") [] (Some (tags_request tags soft)) instances f
        = (f', Some (admin_ok (B "tags") (if bool_decide (instances = ∅) then Z.of_nat (length tags) else 0%Z) (default true soft))).
Proof.
  intros Ht Hfail Hin.
  rewrite (admin_accepts now _ [] _ (tags_request tags soft) (B "tags")); [|done|by left|done|by destruct tags|by intros [? _]].
  cbv zeta. unfold purge_plan. change (B "tags" =s B "urls") with false. change (B "tags" =s B "tags") with true. cbv iota.
  change (B "tags" =s B "purge_everything") with false. cbv iota. simpl ar_Tags. simpl ar_Soft.
  assert (is_nil (getInstances instances) = bool_decide (instances = ∅)) as ->.
  { apply eq_true_iff_eq. rewrite is_nil_true, bool_decide_eq_true. unfold getInstances. split.
    - intros Hn%fmap_nil_inv. apply map_empty. intros id. apply eq_None_not_Some. intros [i Hi].
      apply range_elem_of in Hi. rewrite Hn in Hi. by apply not_elem_of_nil in Hi.
    - intros ->. assert (range (∅ : gmap str instance) = []) as ->; [|done].
      apply Permutation_nil_r. rewrite range_perm. by rewrite map_to_list_empty. }
  destruct (bool_decide (instances = ∅)) eqn:Ee.
  - apply bool_decide_eq_true in Ee as ->. assert (getInstances (∅ : gmap str instance) = []) as ->.
    { unfold getInstances. assert (range (∅ : gmap str instance) = []) as ->; [|done].
      apply Permutation_nil_r. rewrite range_perm. by rewrite map_to_list_empty. }
    assert (each_on (S := S) tags [] (λ tag _, titip_PurgeTag now tag (default true soft)) = []) as ->
      by (unfold each_on; clear; induction tags; [done|]; csimpl; done).
    by exists f.
  - destruct (failing_tags_each (default true soft)
      (each_on tags (getInstances instances) (λ tag _, titip_PurgeTag now tag (default true soft))) f) as [f' ->]; [auto| |by exists f'].
    apply Forall_forall. intros [loc m] Hm. unfold each_on in Hm. apply list_elem_of_bind in Hm as (tag & Hm & _).
    apply list_elem_of_fmap in Hm as (i & [= -> ->] & Hi). split; [by exists tag|]. simpl. apply elem_of_dom.
    unfold getInstances in Hi. apply list_elem_of_fmap in Hi as ([id i'] & -> & Hid). apply range_elem_of in Hid. by eapply Hin.
Qed.
End Failures.

(** ** Witnesses *)
Import Demo.

(** Two handlers on one store, as with a global storage, and a third on its own. *)
Definition demo_instances : gmap str instance :=
  {[ B "titip-1" := mkInstance plain_titip 0; B "titip-2" := mkInstance plain_titip 0; B "titip-3" := mkInstance plain_titip 1 ]}.
Definition demo_fleet : Fleet Store := mkFleet {[ 0 := page_store; 1 := page_store ]} 0.
Definition page_purge : purgeAdminRequest := mkPurgeRequest [B "http://example.com/page"] [] false (Some false).

Lemma registry_tracks_live_handlers_witness :
  let t := mkInstance plain_titip 0 in
  getInstances (unregisterInstance (B "a") (registerInstance (B "b") t (registerInstance (B "a") t ∅))) ≡ₚ [t].
Proof.
  intros t. clearbody t. set (m := registerInstance (B "b") t (registerInstance (B "a") t ∅)).
  assert (Hm : rtc lifecycle (mkRegistry ∅ ∅) (mkRegistry (delete (B "a") m) (unregisterInstance (B "a") m))).
  { eapply rtc_l; [exact (life_provision (B "a") t (mkRegistry ∅ ∅) eq_refl)|].
    eapply rtc_l; [exact (life_provision (B "b") t (mkRegistry (<[B "a" := t]> ∅) (registerInstance (B "a") t ∅)) eq_refl)|].
    apply rtc_once, (life_cleanup (B "a") (mkRegistry m m)). }
  pose proof (registry_tracks_live_handlers _ Hm) as H. cbn [rg_live rg_instances] in H.
  assert (Hd : delete (B "a") m = {[B "b" := t]}).
  { unfold m, registerInstance. rewrite delete_insert_ne by discriminate. by rewrite delete_insert_eq, delete_empty, insert_empty. }
  rewrite Hd, map_to_list_singleton in H. exact H.
Defined.

Lemma admin_refuses_without_effect_witness :
  (handleAdminPurge demo_clock (B "POST") [] (Some (mkPurgeRequest [B "/a"] [B "t"] false None)) demo_instances demo_fleet).1
  = demo_fleet.
Proof.
  apply (admin_refuses_without_effect demo_clock (B "POST") [] (Some (mkPurgeRequest [B "/a"] [B "t"] false None))
           demo_instances demo_fleet). by intros (_ & _ & req & [= <-] & Hl & _).
Defined.

Lemma admin_purge_reaches_every_instance_witness :
  ∃ f', handleAdminPurge demo_clock (B "POST") (B "application/json") (Some page_purge) demo_instances demo_fleet
        = (f', Some (admin_ok (B "urls") 2 false)) ∧
        ∃ s, fl_stores f' !! 1 = Some s ∧ GetMeta s (epoch + Second) (lookup_key plain_titip get_page) = Ret None.
Proof.
  destruct (handleAdminPurge demo_clock (B "POST") (B "application/json") (Some page_purge) demo_instances demo_fleet)
    as [f' o] eqn:Eh.
  assert (o = Some (admin_ok (B "urls") 2 false)) as Ho by (change o with (f', o).2; rewrite <- Eh; vm_compute; reflexivity).
  assert (fl_tick f' = 3) as Htick by (change f' with (f', o).1; rewrite <- Eh; vm_compute; reflexivity).
  exists f'. rewrite Ho in Eh |- *. split; [reflexivity|].
  destruct (buildPurgeOperation (B "http://example.com/page") (Some (cacheKey (t_config plain_titip)))) as [[ex keys]| |] eqn:Eb;
    [|exfalso; vm_compute in Eb; discriminate Eb..].
  apply (admin_purge_reaches_every_instance demo_clock (B "POST") (B "application/json") page_purge demo_instances demo_fleet f' 2
           (B "titip-3") (mkInstance plain_titip 1) (B "http://example.com/page") ex keys).
  - exact Eh.
  - apply list_elem_of_here.
  - reflexivity.
  - intros s Hs. vm_compute in Hs. injection Hs as <-. exact page_store_usable.
  - exact Eb.
  - vm_compute in Eb. injection Eb as <- <-. eexists. split; [apply list_elem_of_here|vm_compute; reflexivity].
  - intros n Hn. rewrite Htick in Hn. assert (length keys = 1) as Hk by (vm_compute in Eb; by injection Eb as _ <-).
    rewrite Hk in Hn. unfold demo_clock, clock_from, Millisecond, Second. lia.
Defined.

(** A store that fails every call. *)
Definition broken_storage : Storage unit := {|
  GetMeta := λ _ _ _, Fail (B "down");
  GetVariant := λ _ _ _ _, Fail (B "down");
  SetVariant := λ s _ _ _ _ _ _, (s, Fail (B "down"));
  Purge := λ s _ _ _, (s, Fail (B "down"));
  PurgeByPattern := λ s _ _ _, (s, Fail (B "down"));
  PurgeByTag := λ s _ _ _, (s, Fail (B "down"));
  PurgeAll := λ s _, (s, Fail (B "down"));
|}.

Lemma admin_reply_hides_failures_witness :
  ∃ f', handleAdminPurge (St := broken_storage) demo_clock (B "POST") [] (Some (tags_request [B "news"] None))
          {[B "titip-1" := mkInstance plain_titip 0]} (mkFleet {[0 := tt]} 0)
        = (f', Some (admin_ok (B "tags") 0 true)).
Proof.
  destruct (admin_reply_hides_failures (St := broken_storage) demo_clock [B "news"] None
           {[B "titip-1" := mkInstance plain_titip 0]} (mkFleet {[0 := tt]} 0)) as [f' H].
  4: { exists f'. rewrite bool_decide_eq_false_2 in H by apply map_non_empty_singleton. exact H. }
  - discriminate.
  - intros s ts tag soft. by exists s, (B "down").
  - intros id i Hi. apply lookup_singleton_Some in Hi as [_ <-]. by exists tt.
Defined.

(** ** Rewritten requests

    Two pages that Caddy rewrites to one front controller, and the first page again. *)
Definition front_controller : nat → Request → Writer → Writer * bool := λ n _,
  respond 200 [("Cache-Control", "max-age=60")] (if n =? 0 then "about" else "products").
Definition rewritten (path : string) (useRewrittenURL : bool) (calls : nat) (w : World Store) : World Store :=
  (caddy_ServeHTTP plain_titip demo_clock None false useRewrittenURL (Some (mkURL [] [] (B path) []))
     (λ _, front_controller calls) (request "GET" "/index.php" []) (with_writer w new_writer)).1.

(** With the original URL in the key each page is served as itself; with the rewritten one the
    second page is answered with the first. *)
Example rewritten_pages :
  let run u := let w1 := rewritten "/about" u 0 (world TestStore.New false) in
               let w2 := rewritten "/products" u 1 w1 in let w3 := rewritten "/about" u 2 w2 in
               (seen "Cache-Status" w2, seen "Cache-Status" w3) in
  run false = ((Some 200%Z, B "MISS", B "products"), (Some 200%Z, B "HIT", B "about")) ∧
  run true = ((Some 200%Z, B "HIT", B "about"), (Some 200%Z, B "HIT", B "about")).
Proof. vm_compute. split; reflexivity. Qed.

(** The in-process fetcher does not pass on that the page came over TLS: the fragment's key has the
    scheme "http" where the same URL, requested over TLS, has "https". *)
Example fragment_key_loses_https :
  let cfg := mkCacheKey true false false false [] [] false [] [] false ∅ in
  let page := mkRequest (B "GET") (Some (mkURL [] [] (B "/frag") [])) (B "example.com") ∅ true in
  let seen_by_server (_ : esiExecutionState) r w := (Write (WriteHeader w 200) (key_scheme r cfg), false) in
  internalFetcher (Some seen_by_server) (mkState 1 3 []) (B "/frag") page = Fetched (B "s=http:") ∅ ∧ key_scheme page cfg = B "s=https:".
Proof. vm_compute. split; reflexivity. Qed.

(** ** Conditional requests for pages with fragments

    A site with a cached fragment that has an ETag.  The server of the in-process fetcher is the middleware itself. *)
Definition menu_origin : nat → Request → Writer → Writer * bool :=
  λ _ _, respond 200 [("Cache-Control", "max-age=60"); ("ETag", "v1")] "menu".
Definition menu_store : Store :=
  wd_store (ServeHTTP plain_titip demo_clock menu_origin None false (request "GET" "/menu" []) (world TestStore.New false)).1.
Definition menu_server (state : esiExecutionState) (r : Request) (w : Writer) : Writer * bool :=
  let p := ServeHTTP (with_esi_parent plain_titip state) demo_clock menu_origin None false r (with_writer (world menu_store false) w) in
  (wd_w p.1, negb (bool_decide (p.2 = Some true))).
Definition menu_page_origin : nat → Request → Writer → Writer * bool := λ _ _ w,
  let h := h_Set (h_Set (w_Header w) (B "Surrogate-Control") (B "content=" ++ esi10)) (B "Cache-Control") (B "max-age=60") in
  (Write (WriteHeader (w_with_header w h) 200) (B "<esi:include src=" ++ [dquote] ++ B "/menu" ++ [dquote] ++ B "/>."), false).
Definition menu_site : Titip :=
  mkTitip demo_config (Some defaultEsiConfig) (Some (internalFetcher (Some menu_server))) (λ _ _, Err []) (λ _, true) None [].
Definition menu_page (l : list (string * string)) : option Z * str * str :=
  seen "Cache-Status" (ServeHTTP menu_site demo_clock menu_page_origin None false (request "GET" "/page" l) (world TestStore.New false)).1.

(** A defect: the requests for fragments carry the conditional headers of the client, whose validators are
    those of the page or of anything.  A fragment that they match is answered with 304, which is no error, and
    its empty body is put into the page: the page is sent complete, with status 200, but without the fragment. *)
Theorem conditional_page_loses_fragments :
  menu_page [] = (Some 200%Z, B "MISS", B "menu.") ∧
  menu_page [("If-None-Match", "v1")] = (Some 200%Z, B "MISS", B ".") ∧
  menu_page [("If-None-Match", "*")] = (Some 200%Z, B "MISS", B ".").
Proof. vm_compute. repeat split. Qed.
